(* ===== verification/_CoqProject ===== *)
-Q . S2P
Prelude.v
Stream.v
FileStream.v
Serialize.v
Memory.v
MallocPool.v
FreeList.v
SgiPool.v
FixedPool.v
Allocators.v
AssocVector.v
Queues.v
Buffers.v
Socket.v
Datagram.v
Files.v
BasicFile.v
Offsets.v
FileCopy.v
AsyncTransfer.v
Gather.v
Connecting.v
SocketOption.v
StringAlgo.v
Unicode.v
Exceptions.v
NetworkHelper.v
Dispatcher.v
SyncContainer.v
Utility.v
Network.v
ClientIo.v
Echo.v
VDisk.v
AsioPingpong.v
PingpongClient.v
EchoSessions.v
Statistics.v
Timer.v
Locks.v
WaitObjects.v
SystemPool.v
ThreadPool.v
Thread.v
BlockEcho.v
MsgThread.v
HttpParser.v
HttpReply.v
HttpHandler.v
HttpConnection.v
MsgDecoder.v
Socks.v
