(* ===== verification/Prelude.v ===== *)
(** * A verification of the iocpframework library

    iocpframework is a C++ library for Windows: memory pools, a serializer, containers
    and string algorithms, threads and locks, and on top of them overlapped input and
    output over a completion port, with sockets, files, timers, sessions, a server and a
    client. This development translates its operations, and some programs written with
    it, into functions, and proves what they do. Every file opens with the sources it
    models; the names are those of the sources.

    ** How the code is modelled

    An operation is a program [prog S A] over the state [S] of its component: it returns
    ([Ret]), throws one of the exceptions the sources name ([Throw], with what was
    written before), does something undefined ([UB]), or does not return ([OutOfFuel]).
    The models are of a release build: the assertions are dropped. Loops have fuel, which
    bounds their rounds; the theorems ask for a fuel that is enough, which depends on the
    input (the size of the buffer plus two for the blocking reads, the number of answers
    of the system plus one for a chain of overlapped requests, the length of the text for
    the searches), and say that the loop then ends, except where they say that it never
    does: those hold for every fuel. Integers are in Z and are wrapped ([u32], [wrap])
    where the sources compute in a fixed width; the width [w] of [size_t] is a parameter.
    Memory is a map from addresses to bytes.

    What is not in the repository is an interface, a class of operations with a class of
    laws that say what its documentation does: the C allocator ([Libc], MallocPool.v), the
    stream ([SyncStream], Buffers.v), Winsock (Socket.v, SocketOption.v, NetworkHelper.v),
    the calls on files ([FileCalls], Files.v). Each has an instance at the end of its
    file, with which the theorems are applied to concrete inputs. What the system may
    answer, in which order it completes requests and how it interleaves threads are
    arguments of the models, over which the theorems quantify.

    ** Memory (include/memory_pool, include/extend_stl/allocator)

    Memory.v and FreeList.v: addresses, blocks and chains of free blocks linked through
    their own first word. MallocPool.v: malloc_pool and its out-of-memory handler. SgiPool.v
    and FixedPool.v: the two pools; [allocate], [deallocate], [reallocate] and [clear] keep
    the invariant that free lists, reserve and the blocks of the clients are disjoint, a
    program of any allocations never gets overlapping blocks, and what it wrote stays.
    Allocators.v: the stack, handler and pool allocators and the circular buffer.

    ** Serialization (include/serialize)

    Stream.v: the writers and the reader over a window of memory, and their bounds.
    Serialize.v: the dispatch over C++ types, which are codes; it refines a format, what is
    written is read back, writing beyond the buffer throws, and the types and lengths for
    which this fails: containers of pointers, which are plain data to the dispatch, and
    lengths that wrap. FileStream.v: the writer and the reader as templates over a buffer, and the
    buffer in a file, which is used as a window of memory until a read goes beyond its end.

    ** Containers and strings (include/extend_stl, include/utility)

    AssocVector.v: the sorted vector; it stays sorted and refines a map, for any strict
    weak order. Queues.v: the blocking queues, in every interleaving: order, bound, no lost
    wake-up. SyncContainer.v: the synchronised containers and the pool of sockets, two
    threads included. Utility.v: the wrapper whose copies move, the pointers that the pool
    hands out, the data of a session. StringAlgo.v: the algorithms on strings, against reference
    definitions, with the inputs on which replacing never ends. Unicode.v: the conversions
    of strings, whose tables are those of the system, and of numbers. Exceptions.v: what an
    exception carries.

    ** Sockets, files and transfers (include/async_io)

    Buffers.v: buffers, conditions and the blocking transfers over a stream; Socket.v: the
    handle and its blocking calls, which implement the stream; Datagram.v: sending and
    receiving datagrams, which stay whole, and opening an acceptor; Files.v: file handles and
    the directory monitor; BasicFile.v: the file class of clients, which has no position;
    Offsets.v: the transfers at an offset over files; SocketOption.v:
    the options; NetworkHelper.v: addresses and the tables of the system. AsyncTransfer.v:
    the chains of overlapped requests; however the system splits them, the client's handler
    is called once, with the bytes in order, and every callback object is freed. Gather.v:
    requests of several buffers. Connecting.v: accepting, connecting, disconnecting.

    ** Dispatcher, sessions and timers (include/async_io)

    Dispatcher.v: the completion port, its worker threads and the life of a callback object:
    called at most once when the client starts it once and no wait fails, exactly once
    when moreover nothing throws and the packets are taken, and what an exception, a wait
    that fails or a completion at once loses or repeats. Network.v: sessions, which contain what the client's
    handlers throw; the server, all of whose sockets stay in its pool or with one session;
    the client. ClientIo.v: the calls of clients and sessions over the transfers of
    AsyncTransfer.v: the handler is called once with the whole buffer, or the client is
    disconnected. Timer.v: the timer service: an erased timer's handler is posted once more
    at most, when the thread had already found it; expired ones are posted, with fewer than
    64 timers, and the races.

    ** Threads (include/multi_thread)

    Locks.v: locks, events, conditions and semaphores. WaitObjects.v: the event, the mutex
    and the condition of the system with the threads that wait for them. ThreadPool.v: the pool with its
    scheduler, in every interleaving: a task runs once, every task runs, shutting down joins,
    and what a shut down pool still does.
    SystemPool.v: work items, timers and waits of the system's pool. Thread.v: thread
    handles, stopping and aborting, and the call stack of a thread. MsgThread.v: the
    policies of stopping and the threads that handle messages, in the order of their posts
    when the class of the client starts the loop.

    ** Programs

    Echo.v: the echo server of performance/pingpong, over Network.v and AsyncTransfer.v: what
    the peer gets is the beginning of what it sent, in whole blocks. PingpongClient.v: its
    client, which always has two requests under way until it has disconnected, and one
    buffer for a read and a write. AsioPingpong.v: the server and the client over boost.asio, which is used by
    what it documents. Statistics.v: what the two clients count and print, with any number
    of sessions. EchoSessions.v:
    the echo, discard, datagram and counting examples, their clients and the programs of the
    round trips. BlockEcho.v: the echo server with a thread for each connection: each peer
    gets its own bytes, but threads never end and one error stops all. FileCopy.v: the copy
    of a file, block by block. HttpParser.v,
    HttpReply.v, HttpHandler.v, HttpConnection.v: the HTTP server of Example/Network/Http:
    the language the parser accepts, however the request is cut; files below the document
    root only; a request is answered with a framed reply. Socks.v: the relay of
    Example/Network/Sock4a. MsgDecoder.v and VDisk.v: the message decoder and the virtual
    disk server under test.

    ** What is not modelled

    Code under include/third_party; the other members of acceptors and datagram sockets,
    which forward to the socket handle or do not compile; WSAStartup and the loading of extension functions; the
    examples written for an older interface that is not in the repository, but for the HTTP
    server, the relay, FileCopy.v, BlockEcho.v and the programs of EchoSessions.v; main programs and tests,
    which start a component and print. Of a modelled component, printing, stack dumps and performance counters are
    left out, and so is what no instantiation of a template can compile. The memory model of
    the processor is not modelled: a step of a thread is a critical section or one atomic
    operation. *)

From stdpp Require Export base list gmap sets numbers option relations.
From Stdlib Require Export ZArith Lia.

#[global] Open Scope Z_scope.

(** ** Outcomes of code that may fail

    A C++ operation of the library either returns, throws one of the exception
    types the sources name, performs an access outside the memory it owns
    (undefined behaviour), or does not return.  The state is carried by the
    normal and by the exceptional outcome: what was written before a [throw]
    stays written. *)

Inductive exn : Type :=
| out_of_range          (* std::out_of_range *)
| runtime_error         (* std::runtime_error *)
| bad_alloc             (* std::bad_alloc *)
| network_exception     (* service::network_exception *)
| win32_exception       (* service::win32_exception_t *)
| bad_function_call     (* std::bad_function_call, from an empty std::function *)
| base_exception        (* exception::exception_base itself *)
| foreign.              (* anything that is not a std::exception *)

#[export] Instance exn_eq_dec : EqDecision exn.
Proof. solve_decision. Defined.

Inductive outcome (S A : Type) : Type :=
| Ret (a : A) (s : S)
| Throw (e : exn) (s : S)
| UB
| OutOfFuel.
Arguments Ret {S A} _ _.
Arguments Throw {S A} _ _.
Arguments UB {S A}.
Arguments OutOfFuel {S A}.

Definition prog (S A : Type) : Type := S -> outcome S A.

Definition ret {S A} (a : A) : prog S A := fun s => Ret a s.
Definition throw {S A} (e : exn) : prog S A := fun s => Throw e s.
Definition ub {S A} : prog S A := fun _ => UB.
Definition diverge {S A} : prog S A := fun _ => OutOfFuel.

Definition bind {S A B} (m : prog S A) (k : A -> prog S B) : prog S B :=
  fun s =>
    match m s with
    | Ret a s' => k a s'
    | Throw e s' => Throw e s'
    | UB => UB
    | OutOfFuel => OutOfFuel
    end.

Declare Scope prog_scope.
Delimit Scope prog_scope with prog.
Notation "'let*' x := m 'in' k" := (bind m (fun x => k))
  (at level 10, x name, m at level 100, k at level 200) : prog_scope.
Notation "m1 ;;; m2" := (bind m1 (fun _ => m2))
  (at level 100, m2 at level 200, right associativity) : prog_scope.
Open Scope prog_scope.

(** [try { m } catch (...)]; a handler takes the exception and the state it left. *)
Definition try_catch {S A} (m : prog S A) (handler : exn -> prog S A) : prog S A :=
  fun s => match m s with Throw e s' => handler e s' | r => r end.

Lemma bind_ret {S A B} (m : prog S A) (k : A -> prog S B) s a s' :
  m s = Ret a s' -> bind m k s = k a s'.
Proof. unfold bind. by intros ->. Qed.

Lemma bind_throw {S A B} (m : prog S A) (k : A -> prog S B) s e s' :
  m s = Throw e s' -> bind m k s = Throw e s'.
Proof. unfold bind. by intros ->. Qed.

Lemma bind_Ret_inv {S A B} (m : prog S A) (k : A -> prog S B) s b s2 :
  bind m k s = Ret b s2 -> exists a s1, m s = Ret a s1 /\ k a s1 = Ret b s2.
Proof. unfold bind. destruct (m s) eqn:E; intros H; try discriminate. eauto. Qed.

(** Programs are compared pointwise; [bind] respects that equality, so programs
    can be rewritten inside programs. *)
Definition prog_eq {S A} (m1 m2 : prog S A) : Prop := forall s, m1 s = m2 s.
Infix "≃" := prog_eq (at level 70, no associativity) : prog_scope.

#[export] Instance prog_eq_equiv {S A} : Equivalence (@prog_eq S A).
Proof. split; [done | intros x y H s; by rewrite H | intros x y z H1 H2 s; by rewrite H1]. Qed.

#[export] Instance bind_proper {S A B} :
  Proper (prog_eq ==> pointwise_relation A prog_eq ==> prog_eq) (@bind S A B).
Proof.
  intros m1 m2 Hm k1 k2 Hk s. unfold bind. rewrite Hm.
  destruct (m2 s); [apply Hk | done..].
Qed.

Lemma bind_ret_l {S A B} (a : A) (k : A -> prog S B) : bind (ret a) k ≃ k a.
Proof. done. Qed.

Lemma bind_ret_r {S} (m : prog S unit) : bind m (fun _ => ret tt) ≃ m.
Proof. intros s. unfold bind. by destruct (m s) as [[] ?| | |]. Qed.

Lemma bind_assoc {S A B C} (m : prog S A) (k : A -> prog S B) (h : B -> prog S C) :
  bind (bind m k) h ≃ bind m (fun x => bind (k x) h).
Proof. intros s. unfold bind. by destruct (m s). Qed.

(** ** Machine words *)

Definition wrap (w z : Z) : Z := z mod 2 ^ w.
Abbreviation u32 := (wrap 32).

Lemma wrap_small w z : 0 <= z < 2 ^ w -> wrap w z = z.
Proof. apply Z.mod_small. Qed.

Lemma wrap_range w z : 0 <= w -> 0 <= wrap w z < 2 ^ w.
Proof. intros. apply Z.mod_pos_bound. by apply Z.pow_pos_nonneg. Qed.

Lemma u32_small z : 0 <= z < 4294967296 -> u32 z = z.
Proof. intros. by apply wrap_small. Qed.

Lemma u32_range z : 0 <= u32 z < 4294967296.
Proof. by apply (wrap_range 32). Qed.

(** A [long] of 32 bits that wraps around, as the interlocked operations do. *)
Definition s32 (z : Z) : Z := wrap 32 (z + 2147483648) - 2147483648.

Lemma s32_small z : -2147483648 <= z < 2147483648 -> s32 z = z.
Proof. intros. unfold s32. rewrite u32_small; lia. Qed.

Create HintDb word.
#[export] Hint Resolve u32_range : word.

(** ** Bytes and the little-endian codec *)

(** The object representation of a [n]-byte scalar, read as an unsigned
    integer, lowest byte first. *)
Fixpoint le_bytes (n : nat) (z : Z) : list Z :=
  match n with
  | O => []
  | S n' => z mod 256 :: le_bytes n' (z / 256)
  end.

Fixpoint le_value (l : list Z) : Z :=
  match l with
  | [] => 0
  | b :: l' => b + 256 * le_value l'
  end.

Definition is_byte (b : Z) : bool := (0 <=? b) && (b <? 256).

Lemma length_le_bytes n z : length (le_bytes n z) = n.
Proof. revert z. induction n; intros; cbn; [done | by rewrite IHn]. Qed.

Lemma le_value_bytes n z : le_value (le_bytes n z) = z mod 2 ^ (8 * Z.of_nat n).
Proof.
  revert z. induction n as [|n IH]; intros z; cbn [le_bytes le_value].
  - by rewrite Z.mod_1_r.
  - rewrite IH.
    replace (8 * Z.of_nat (S n)) with (8 + 8 * Z.of_nat n) by lia.
    rewrite Z.pow_add_r by lia. change (2 ^ 8) with 256.
    rewrite Z.rem_mul_r by lia. done.
Qed.

Lemma le_value_bytes_small n z :
  0 <= z < 2 ^ (8 * Z.of_nat n) -> le_value (le_bytes n z) = z.
Proof. intros. rewrite le_value_bytes. by apply Z.mod_small. Qed.

Lemma le_value_bytes_4 z : 0 <= z < 4294967296 -> le_value (le_bytes 4 z) = z.
Proof. intros. by apply le_value_bytes_small. Qed.

Lemma le_bytes_range n z : Forall (fun b => 0 <= b < 256) (le_bytes n z).
Proof.
  revert z. induction n; intros; cbn; constructor; [|done].
  by apply Z.mod_pos_bound.
Qed.

Lemma le_bytes_value l : Forall (fun b => 0 <= b < 256) l -> le_bytes (length l) (le_value l) = l.
Proof.
  induction 1 as [|b l Hb _ IH]; [done|]. cbn [length le_bytes le_value].
  rewrite (Z.mul_comm 256), Z.mod_add, Z.div_add, Z.mod_small, (Z.div_small b), Z.add_0_l, IH by lia. done.
Qed.

Lemma le_value_range l : Forall (fun b => 0 <= b < 256) l -> 0 <= le_value l < 2 ^ (8 * Z.of_nat (length l)).
Proof.
  induction 1 as [|b l Hb _ IH]; [done|]. cbn [length le_value].
  replace (8 * Z.of_nat (S (length l))) with (8 + 8 * Z.of_nat (length l)) by lia.
  rewrite Z.pow_add_r by lia. change (2 ^ 8) with 256. lia.
Qed.

(** [c_str()]: the characters before the first NUL. *)
Fixpoint c_str (s : list Z) : list Z :=
  match s with [] => [] | c :: s' => if c =? 0 then [] else c :: c_str s' end.

Lemma c_str_prefix s : exists rest, s = c_str s ++ rest /\ 0 ∉ c_str s.
Proof.
  induction s as [|c s (rest & IH & H0)]; [exists []; split; [done|apply not_elem_of_nil]|].
  cbn [c_str]. destruct (Z.eqb_spec c 0) as [-> |Hc].
  - exists (0 :: s). split; [done|apply not_elem_of_nil].
  - exists rest. split; [by rewrite IH at 1|]. rewrite not_elem_of_cons. by split.
Qed.

Lemma c_str_app r s : 0 ∉ r -> c_str (r ++ s) = r ++ c_str s.
Proof.
  induction r as [|c r IH]; [done|]. rewrite not_elem_of_cons. intros [Hc Hr]. cbn [app c_str].
  destruct (Z.eqb_spec c 0); [congruence|]. by rewrite IH.
Qed.

Lemma c_str_id s : 0 ∉ s -> c_str s = s.
Proof. intros H. rewrite <- (app_nil_r s), c_str_app by done. done. Qed.

Lemma c_str_c_str s : c_str (c_str s) = c_str s.
Proof. destruct (c_str_prefix s) as (rest & _ & H). by apply c_str_id. Qed.

(** ** Invariants of step relations *)

Lemma rtc_invariant {A} (R : relation A) (I : A -> Prop) x y :
  (forall a b, I a -> R a b -> I b) -> I x -> rtc R x y -> I y.
Proof. intros Hstep HI Hr. revert HI. induction Hr; eauto. Qed.

(** ** Lists *)

Lemma drop_app_length' {A} (l k : list A) n : n = length l -> drop n (l ++ k) = k.
Proof. intros ->. apply drop_app_length. Qed.

Lemma take_app_length' {A} (l k : list A) n : n = length l -> take n (l ++ k) = l.
Proof. intros ->. apply take_app_length. Qed.

(** ** Counting threads by what they are doing *)

Section Counting.
Context {A : Type} (f : A -> nat).

Fixpoint total (l : list A) : nat :=
  match l with
  | [] => 0
  | a :: l' => f a + total l'
  end.

Lemma total_insert l i a b : l !! i = Some a ->
  (total (<[i := b]> l) + f a = total l + f b)%nat.
Proof.
  revert i. induction l as [|c l IH]; intros [|i] Hi; cbn in *; simplify_eq; [lia|].
  specialize (IH i Hi). rewrite <- !Nat.add_assoc. f_equal. exact IH.
Qed.

Lemma total_elem l i a : l !! i = Some a -> (f a <= total l)%nat.
Proof.
  revert i. induction l as [|c l IH]; intros [|i] Hi; cbn in *; simplify_eq; [lia|].
  specialize (IH i Hi). lia.
Qed.

Lemma total_zero l : total l = 0%nat <-> forall i a, l !! i = Some a -> f a = 0%nat.
Proof.
  split.
  - intros H i a Hi. apply total_elem in Hi. lia.
  - induction l as [|c l IH]; intros H; cbn; [done|].
    rewrite (H 0%nat c eq_refl). apply IH. intros i a Hi. apply (H (S i) a Hi).
Qed.

Lemma total_nonzero l : total l <> 0%nat -> exists i a, l !! i = Some a /\ f a <> 0%nat.
Proof.
  induction l as [|c l IH]; cbn; [done|]. intros H. destruct (f c) as [|k] eqn:E.
  - destruct (IH H) as (i & a & Hi & Ha). by exists (S i), a.
  - exists 0%nat, c. by rewrite E.
Qed.

Lemma total_app l k : total (l ++ k) = (total l + total k)%nat.
Proof. induction l as [|c l IH]; cbn; [done|]. lia. Qed.

Lemma total_replicate n a : total (replicate n a) = (n * f a)%nat.
Proof. induction n as [|n IH]; cbn; lia. Qed.
End Counting.

(** ** Tactics *)

(** Split the boolean tests of a hypothesis or of the goal. *)
Ltac split_tests :=
  repeat match goal with
  | H : context [if ?b then _ else _] |- _ => destruct b eqn:?
  | |- context [if ?b then _ else _] => destruct b eqn:?
  end.

(** Turn boolean comparisons in the context into propositions. *)
Ltac bool_props :=
  repeat match goal with
  | H : (_ && _) = true |- _ => apply andb_true_iff in H as [? ?]
  | H : (_ && _) = false |- _ => apply andb_false_iff in H
  | H : (_ || _) = true |- _ => apply orb_true_iff in H
  | H : (_ || _) = false |- _ => apply orb_false_iff in H as [? ?]
  | H : negb _ = true |- _ => apply negb_true_iff in H
  | H : negb _ = false |- _ => apply negb_false_iff in H
  | H : (_ <? _) = true |- _ => apply Z.ltb_lt in H
  | H : (_ <? _) = false |- _ => apply Z.ltb_ge in H
  | H : (_ <=? _) = true |- _ => apply Z.leb_le in H
  | H : (_ <=? _) = false |- _ => apply Z.leb_gt in H
  | H : (_ =? _) = true |- _ => apply Z.eqb_eq in H
  | H : (_ =? _) = false |- _ => apply Z.eqb_neq in H
  end.
