(* ===== verification/Stream.v ===== *)
(** * The serialization stream (include/serialize/detail/buffer.hpp,
    serialize_in.hpp, serialize_out.hpp)

    [memory_t] is a window onto memory the caller owns; [binary_in_t],
    [text_in_t] and [empty_in_t] are the three writers and [binary_out_t] the
    reader.  The model is the release build: the [assert]s in front of every
    bounds test repeat the test and are dropped.  A write or read that passes
    the bounds test and still leaves the caller's memory is [UB]. *)

From S2P Require Import Prelude.

(** [mem] is the memory behind [buf_], [buf_len] the length the constructor was
    given, [in_pos] and [out_pos] the positions of the writer and the reader. *)
Record stream : Type := Stream {
  mem : list Z;
  buf_len : Z;
  in_pos : Z;
  out_pos : Z
}.

Definition set_mem (m : list Z) (s : stream) : stream :=
  Stream m (buf_len s) (in_pos s) (out_pos s).
Definition set_in_pos (p : Z) (s : stream) : stream :=
  Stream (mem s) (buf_len s) p (out_pos s).
Definition set_out_pos (p : Z) (s : stream) : stream :=
  Stream (mem s) (buf_len s) (in_pos s) p.

Abbreviation M := (prog stream).

(** [serialize_t(buf, len)]: both positions start at 0. *)
Definition serialize_t (m : list Z) (len : Z) : stream := Stream m len 0 0.

(** ** memory_t

    [::memmove(buf, buf_ + pos, len)] and [::memmove(buf_ + pos, buf, len)]
    with [CharT = char]. *)

Definition memory_read (len pos : Z) : M (list Z) := fun s =>
  if (0 <=? pos) && (0 <=? len) && (pos + len <=? Z.of_nat (length (mem s)))
  then Ret (take (Z.to_nat len) (drop (Z.to_nat pos) (mem s))) s
  else UB.

Definition memory_write (bs : list Z) (pos : Z) : M unit := fun s =>
  if (0 <=? pos) && (pos + Z.of_nat (length bs) <=? Z.of_nat (length (mem s)))
  then Ret tt (set_mem (take (Z.to_nat pos) (mem s) ++ bs
                        ++ drop (Z.to_nat pos + length bs) (mem s)) s)
  else UB.

(** The bytes of an array of [n]-byte elements. *)
Definition flat (n : nat) (xs : list Z) : list Z := mjoin (le_bytes n <$> xs).

Section Width.

(** [sizeof(size_t)]: 4 on the Win32 configurations of the projects, 8 on the
    x64 one. *)
Context (size_t_bytes : nat).

(** Arithmetic at type [size_t]. *)
Definition size_t (z : Z) : Z := wrap (8 * Z.of_nat size_t_bytes) z.

(** ** binary_in_t *)

(** [push(const T &val)], [sizeof(T) = n]; [val] by its object
    representation. The test is at type [size_t], the increment at
    [std::uint32_t]. *)
Definition binary_push (n : nat) (val : Z) : M unit := fun s =>
  if buf_len s <? size_t (Z.of_nat n + in_pos s) then Throw out_of_range s
  else
    (memory_write (le_bytes n val) (in_pos s) ;;;
     fun s' => Ret tt (set_in_pos (u32 (in_pos s' + Z.of_nat n)) s')) s.

(** [push_array(const T (&arr)[N])]: [len = sizeof(T) * N] bytes at once; the
    test is at [std::uint32_t]. *)
Definition binary_push_array (n : nat) (arr : list Z) : M unit := fun s =>
  let len := u32 (size_t (Z.of_nat n * Z.of_nat (length arr))) in
  if buf_len s <? u32 (len + in_pos s) then Throw out_of_range s
  else
    (memory_write (take (Z.to_nat len) (flat n arr)) (in_pos s) ;;;
     fun s' => Ret tt (set_in_pos (u32 (in_pos s' + len)) s')) s.

(** [push_pointer(const T *ptr, std::uint32_t cnt)]: [ptr] points to [cnt]
    elements of [sizeof(T) = n] bytes. *)
Definition binary_push_pointer (n : nat) (ptr : list Z) (cnt : Z) : M unit := fun s =>
  let len := u32 (size_t (Z.of_nat n * cnt)) in
  if buf_len s <? u32 (len + in_pos s) then Throw out_of_range s
  else if Z.of_nat (n * length ptr) <? len then UB
  else
    (memory_write (take (Z.to_nat len) (flat n ptr)) (in_pos s) ;;;
     fun s' => Ret tt (set_in_pos (u32 (in_pos s' + len)) s')) s.

(** ** text_in_t *)

(** [std::to_string] of an unsigned value: its decimal digits. *)
Fixpoint to_string_aux (fuel : nat) (z : Z) (acc : list Z) : list Z :=
  match fuel with
  | O => acc
  | S f =>
      let acc' := (48 + z mod 10) :: acc in
      if z / 10 =? 0 then acc' else to_string_aux f (z / 10) acc'
  end.

(** 20 digits are enough for 64 bits. *)
Definition to_string (z : Z) : list Z := to_string_aux 20 z [].

(** [push(const T &val)]: the bounds test is made for [sizeof(T)] bytes, the
    write is the decimal text. *)
Definition text_push (n : nat) (val : Z) : M unit := fun s =>
  if buf_len s <? size_t (Z.of_nat n + in_pos s) then Throw out_of_range s
  else
    let t := to_string val in
    (memory_write t (in_pos s) ;;;
     fun s' => Ret tt (set_in_pos (u32 (in_pos s' + Z.of_nat (length t))) s')) s.

(** [push(char val)]. *)
Definition text_push_char (val : Z) : M unit := fun s =>
  if buf_len s <? size_t (1 + in_pos s) then Throw out_of_range s
  else
    (memory_write [val] (in_pos s) ;;;
     fun s' => Ret tt (set_in_pos (u32 (in_pos s' + 1)) s')) s.

(** [push_pointer(const T *ptr, cnt)] writes [cnt] bytes. [buffer_t::write]
    takes a [const char *], so [T] is a character type of one byte. *)
Definition text_push_pointer (n : nat) (ptr : list Z) (cnt : Z) : M unit := fun s =>
  let len := u32 (size_t (Z.of_nat n * cnt)) in
  if buf_len s <? u32 (len + in_pos s) then Throw out_of_range s
  else if Z.of_nat (n * length ptr) <? cnt then UB
  else
    (memory_write (take (Z.to_nat cnt) (flat n ptr)) (in_pos s) ;;;
     fun s' => Ret tt (set_in_pos (u32 (in_pos s' + cnt)) s')) s.

(** ** empty_in_t: every operation does nothing. *)
Definition empty_push (n : nat) (val : Z) : M unit := ret tt.
Definition empty_push_array (n : nat) (arr : list Z) : M unit := ret tt.
Definition empty_push_pointer (n : nat) (ptr : list Z) (cnt : Z) : M unit := ret tt.

(** ** binary_out_t *)

(** [pop(T &val)]. *)
Definition binary_pop (n : nat) : M Z := fun s =>
  if buf_len s <? size_t (Z.of_nat n + out_pos s) then Throw out_of_range s
  else
    (let* bs := memory_read (Z.of_nat n) (out_pos s) in
     fun s' => Ret (le_value bs) (set_out_pos (u32 (out_pos s' + Z.of_nat n)) s')) s.

(** Cut a byte sequence into elements of [n] bytes. *)
Fixpoint chunks (cnt n : nat) (bs : list Z) : list Z :=
  match cnt with
  | O => []
  | S c => le_value (take n bs) :: chunks c n (drop n bs)
  end.

(** [pop_array(T (&arr)[N])]. *)
Definition binary_pop_array (n cnt : nat) : M (list Z) := fun s =>
  let len := u32 (size_t (Z.of_nat n * Z.of_nat cnt)) in
  if buf_len s <? u32 (len + out_pos s) then Throw out_of_range s
  else
    (let* bs := memory_read len (out_pos s) in
     fun s' => Ret (chunks cnt n bs) (set_out_pos (u32 (out_pos s' + len)) s')) s.

(** [pop_pointer(T *ptr, std::uint32_t cnt)] fills the bytes from [ptr]; [old]
    is what [ptr] pointed to, and the elements the [len] bytes do not reach keep
    their value. *)
Definition binary_pop_pointer (n : nat) (old : list Z) (cnt : Z) : M (list Z) := fun s =>
  let len := u32 (size_t (Z.of_nat n * cnt)) in
  if buf_len s <? u32 (len + out_pos s) then Throw out_of_range s
  else
    (let* bs := memory_read len (out_pos s) in
     if Z.of_nat (n * length old) <? len then ub
     else fun s' =>
       let raw := bs ++ drop (Z.to_nat len) (flat n old) in
       Ret (chunks (length old) n raw) (set_out_pos (u32 (out_pos s' + len)) s')) s.

End Width.

(** ** The writers behind one interface

    The dispatch layer is a template over the stream type; it only uses these
    members. [need_length] is [is_need_length_t::value]. *)
Class InArchive : Type := {
  need_length : bool;
  ar_push : nat -> Z -> M unit;
  ar_push_array : nat -> list Z -> M unit;
  ar_push_pointer : nat -> list Z -> Z -> M unit
}.

Definition binary_in_t (szt : nat) : InArchive := {|
  need_length := true;
  ar_push := binary_push szt;
  ar_push_array := binary_push_array szt;
  ar_push_pointer := binary_push_pointer szt
|}.

(** [text_in_t] has no [push_array]: a use of it does not compile. A one byte
    scalar is a [char] here and selects the second overload of [push]. *)
Definition text_in_t (szt : nat) : InArchive := {|
  need_length := false;
  ar_push := fun n v => if (n =? 1)%nat then text_push_char szt v else text_push szt n v;
  ar_push_array := fun _ _ => ub;
  ar_push_pointer := text_push_pointer szt
|}.

Definition empty_in_t : InArchive := {|
  need_length := false;
  ar_push := empty_push;
  ar_push_array := empty_push_array;
  ar_push_pointer := empty_push_pointer
|}.

(** ** The specification of the stream

    [emit bs] appends [bs] at the write position; [avail s bs] says that [bs]
    is what the reader sees next. *)

Definition slice (m : list Z) (p n : nat) : list Z := take n (drop p m).

Definition emit (bs : list Z) (s : stream) : stream :=
  Stream (take (Z.to_nat (in_pos s)) (mem s) ++ bs
          ++ drop (Z.to_nat (in_pos s) + length bs) (mem s))
         (buf_len s) (in_pos s + Z.of_nat (length bs)) (out_pos s).

Definition advance (n : nat) (s : stream) : stream :=
  set_out_pos (out_pos s + Z.of_nat n) s.

(** The contract of the constructor: the window is [len] bytes of the caller's
    memory, and the positions stay inside it. *)
Record wf (s : stream) : Prop := {
  wf_mem : buf_len s <= Z.of_nat (length (mem s));
  wf_len : buf_len s < 4294967296;
  wf_in : 0 <= in_pos s <= buf_len s;
  wf_out : 0 <= out_pos s <= buf_len s
}.

Definition room (s : stream) (k : Z) : Prop := in_pos s + k <= buf_len s.

#[export] Instance room_dec s k : Decision (room s k).
Proof. unfold room. apply _. Defined.

Definition avail (s : stream) (bs : list Z) : Prop :=
  out_pos s + Z.of_nat (length bs) <= buf_len s /\
  slice (mem s) (Z.to_nat (out_pos s)) (length bs) = bs.

Lemma stream_eta s : Stream (mem s) (buf_len s) (in_pos s) (out_pos s) = s.
Proof. by destruct s. Qed.

Lemma emit_nil s : 0 <= in_pos s -> emit [] s = s.
Proof.
  intros. unfold emit. cbn. rewrite Nat.add_0_r, take_drop, Z.add_0_r.
  apply stream_eta.
Qed.

Lemma length_emit bs s : wf s -> room s (Z.of_nat (length bs)) ->
  length (mem (emit bs s)) = length (mem s).
Proof.
  intros [] Hr. unfold room in Hr. cbn.
  rewrite !length_app, length_take, length_drop. lia.
Qed.

Lemma emit_app a b s : wf s -> room s (Z.of_nat (length (a ++ b))) ->
  emit (a ++ b) s = emit b (emit a s).
Proof.
  intros [] Hr. unfold room in Hr. rewrite length_app in Hr.
  unfold emit. cbn. f_equal.
  - rewrite Z2Nat.inj_add, Nat2Z.id by lia.
    rewrite (take_app_ge (take _ _)) by (rewrite length_take; lia).
    rewrite length_take, Nat.min_l by lia.
    rewrite (drop_app_ge (take _ _)) by (rewrite length_take; lia).
    rewrite length_take, Nat.min_l by lia.
    replace (Z.to_nat (in_pos s) + length a - Z.to_nat (in_pos s))%nat
      with (length a) by lia.
    rewrite take_app_length, drop_app_ge, drop_drop by lia.
    rewrite <- !app_assoc. do 3 f_equal.
    f_equal. rewrite length_app. lia.
  - rewrite length_app. lia.
Qed.

Lemma wf_emit bs s : wf s -> room s (Z.of_nat (length bs)) -> wf (emit bs s).
Proof.
  intros Hwf Hr. pose proof (length_emit bs s Hwf Hr) as Hl.
  destruct Hwf. unfold room in Hr. split; cbn in *; try lia.
Qed.

Lemma wf_advance n s : wf s -> out_pos s + Z.of_nat n <= buf_len s -> wf (advance n s).
Proof. intros [] ?. split; cbn; lia. Qed.

Lemma avail_nil s : wf s -> avail s [].
Proof. intros []. split; [cbn; lia | done]. Qed.

Lemma slice_app (m : list Z) p a b :
  slice m p (a + b) = slice m p a ++ slice m (p + a) b.
Proof.
  unfold slice. rewrite <- drop_drop. set (l := drop p m).
  rewrite <- (take_drop a (take (a + b) l)) at 1.
  by rewrite take_take, Nat.min_l, take_drop_commute by lia.
Qed.

Lemma avail_app s a b : wf s -> avail s (a ++ b) ->
  avail s a /\ avail (advance (length a) s) b.
Proof.
  intros [] [Hl Hs]. rewrite length_app in Hl, Hs. rewrite slice_app in Hs.
  apply app_inj_1 in Hs as [Ha Hb].
  - split; (split; [cbn; lia|]); [done|].
    cbn. rewrite Z2Nat.inj_add, Nat2Z.id by lia. done.
  - unfold slice. rewrite length_take, length_drop. lia.
Qed.

(** What was emitted is what a reader standing at its start sees. *)
Lemma avail_emit bs s s' : wf s -> room s (Z.of_nat (length bs)) ->
  mem s' = mem (emit bs s) -> buf_len s' = buf_len s -> out_pos s' = in_pos s ->
  avail s' bs.
Proof.
  intros [] Hr Hm Hb Ho. unfold room in Hr. split.
  - rewrite Ho, Hb. lia.
  - rewrite Hm, Ho. unfold slice. cbn.
    rewrite drop_app_length' by (rewrite length_take; lia).
    apply take_app_length.
Qed.

(** ** The operations meet the specification *)

Lemma flat_cons n x xs : flat n (x :: xs) = le_bytes n x ++ flat n xs.
Proof. done. Qed.

Lemma length_flat n xs : length (flat n xs) = (n * length xs)%nat.
Proof.
  induction xs as [|x xs IH]; [cbn; lia|].
  rewrite flat_cons, length_app, length_le_bytes, IH. cbn. lia.
Qed.

Lemma chunks_flat n xs : Forall (fun x => 0 <= x < 2 ^ (8 * Z.of_nat n)) xs ->
  chunks (length xs) n (flat n xs) = xs.
Proof.
  induction 1 as [|x xs Hx Hxs IH]; [done|]. cbn [length chunks].
  rewrite flat_cons, take_app_length', drop_app_length' by by rewrite length_le_bytes.
  rewrite le_value_bytes_small by done. f_equal. apply IH.
Qed.

Lemma memory_write_ok bs s : wf s -> room s (Z.of_nat (length bs)) ->
  memory_write bs (in_pos s) s = Ret tt (set_mem (mem (emit bs s)) s).
Proof.
  intros [] Hr. unfold room in Hr. unfold memory_write.
  destruct ((0 <=? in_pos s) && _) eqn:E; [done|].
  bool_props. destruct E; bool_props; lia.
Qed.

Lemma memory_read_ok bs s : wf s -> avail s bs ->
  memory_read (Z.of_nat (length bs)) (out_pos s) s = Ret bs s.
Proof.
  intros [] [Hl Hs]. unfold memory_read.
  destruct ((0 <=? out_pos s) && _ && _) eqn:E.
  - rewrite Nat2Z.id. by rewrite <- Hs at 2.
  - bool_props. destruct E as [E|E]; bool_props; [destruct E; bool_props|]; lia.
Qed.

Lemma emit_intro bs k s : wf s -> room s (Z.of_nat (length bs)) ->
  k = Z.of_nat (length bs) ->
  set_in_pos (u32 (in_pos s + k)) (set_mem (mem (emit bs s)) s) = emit bs s.
Proof.
  intros [] Hr ->. unfold room in Hr. rewrite u32_small by lia. done.
Qed.

Lemma advance_intro n s : wf s -> out_pos s + Z.of_nat n <= buf_len s ->
  set_out_pos (u32 (out_pos s + Z.of_nat n)) s = advance n s.
Proof. intros [] ?. rewrite u32_small by lia. done. Qed.

Section Ops.
Context (szt : nat) (Hszt : (4 <= szt)%nat).

Lemma size_t_small z : 0 <= z < 4294967296 -> size_t szt z = z.
Proof.
  intros [H0 H1]. apply wrap_small. split; [done|].
  eapply Z.lt_le_trans; [exact H1|].
  change 4294967296 with (2 ^ 32). apply Z.pow_le_mono_r; lia.
Qed.

Lemma binary_push_ok n v s : wf s -> room s (Z.of_nat n) ->
  binary_push szt n v s = Ret tt (emit (le_bytes n v) s).
Proof.
  intros Hwf Hr. pose proof Hwf as []. unfold room in Hr. unfold binary_push.
  rewrite size_t_small by lia.
  destruct (buf_len s <? Z.of_nat n + in_pos s) eqn:E; [bool_props; lia|].
  assert (room s (Z.of_nat (length (le_bytes n v)))) as Hr'
    by (rewrite length_le_bytes; unfold room; lia).
  erewrite bind_ret by by apply memory_write_ok. cbn [in_pos set_mem].
  by rewrite emit_intro by (rewrite ?length_le_bytes; done).
Qed.

Lemma binary_push_throws n v s : wf s -> ~ room s (Z.of_nat n) ->
  Z.of_nat n + in_pos s < 4294967296 ->
  binary_push szt n v s = Throw out_of_range s.
Proof.
  intros [] Hr Hn. unfold room in Hr. unfold binary_push.
  rewrite size_t_small by lia.
  destruct (buf_len s <? Z.of_nat n + in_pos s) eqn:E; [done|bool_props; lia].
Qed.

Lemma block_len' n c : Z.of_nat (n * c) < 4294967296 ->
  u32 (size_t szt (Z.of_nat n * Z.of_nat c)) = Z.of_nat (n * c).
Proof.
  intros H. rewrite <- Nat2Z.inj_mul, size_t_small, u32_small by lia. done.
Qed.

Lemma block_len n (xs : list Z) s : wf s -> room s (Z.of_nat (n * length xs)) ->
  u32 (size_t szt (Z.of_nat n * Z.of_nat (length xs))) = Z.of_nat (n * length xs).
Proof.
  intros [] Hr. unfold room in Hr. apply block_len'. lia.
Qed.

Lemma block_push_ok n xs k s : wf s -> room s (Z.of_nat (n * length xs)) ->
  k = Z.of_nat (n * length xs) ->
  (memory_write (take (Z.to_nat k) (flat n xs)) (in_pos s) ;;;
   fun s' => Ret tt (set_in_pos (u32 (in_pos s' + k)) s')) s
  = Ret tt (emit (flat n xs) s).
Proof.
  intros Hwf Hr ->. rewrite Nat2Z.id.
  rewrite take_ge by (rewrite length_flat; lia).
  rewrite <- (length_flat n xs) in *.
  erewrite bind_ret by by apply memory_write_ok. cbn [in_pos set_mem].
  by rewrite emit_intro by done.
Qed.

Lemma binary_push_array_ok n arr s : wf s -> room s (Z.of_nat (n * length arr)) ->
  binary_push_array szt n arr s = Ret tt (emit (flat n arr) s).
Proof.
  intros Hwf Hr. pose proof Hwf as []. unfold binary_push_array.
  erewrite block_len by done. unfold room in Hr. rewrite u32_small by lia.
  destruct (buf_len s <? _) eqn:E; [bool_props; lia|].
  by apply block_push_ok.
Qed.

Lemma flat_take n k xs : take (n * k) (flat n xs) = flat n (take k xs).
Proof.
  revert k. induction xs as [|x xs IH]; intros k.
  { change (flat n []) with (@nil Z). by rewrite !take_nil. }
  destruct k as [|k].
  - by rewrite Nat.mul_0_r.
  - cbn [take]. rewrite !flat_cons, <- IH, Nat.mul_succ_r, Nat.add_comm.
    by rewrite take_app_add' by by rewrite length_le_bytes.
Qed.

(** Only the first [cnt] elements are read from [ptr]. *)
Lemma binary_push_pointer_prefix n ptr k s : wf s -> (k <= length ptr)%nat ->
  room s (Z.of_nat (n * k)) ->
  binary_push_pointer szt n ptr (Z.of_nat k) s = Ret tt (emit (flat n (take k ptr)) s).
Proof.
  intros Hwf Hk Hr. pose proof Hwf as []. unfold binary_push_pointer, room in *.
  rewrite block_len' by lia. rewrite u32_small by lia.
  destruct (buf_len s <? _) eqn:E; [bool_props; lia|].
  destruct (Z.of_nat (n * length ptr) <? Z.of_nat (n * k)) eqn:E'; [bool_props; nia|].
  rewrite Nat2Z.id, flat_take. apply Z.ltb_ge in E'.
  assert (length (flat n (take k ptr)) = (n * k)%nat) as Hl
    by (rewrite length_flat, length_take, Nat.min_l by done; done).
  erewrite bind_ret by (apply memory_write_ok; [done|unfold room; lia]).
  cbn [in_pos set_mem]. by rewrite emit_intro by (rewrite ?Hl; done).
Qed.

Lemma binary_push_pointer_ok n ptr s : wf s -> room s (Z.of_nat (n * length ptr)) ->
  binary_push_pointer szt n ptr (Z.of_nat (length ptr)) s
  = Ret tt (emit (flat n ptr) s).
Proof. intros. by rewrite binary_push_pointer_prefix, take_ge by done. Qed.

Lemma binary_pop_pointer_Ret n old k s xs s' : 
  Z.of_nat (n * k) < 4294967296 ->
  binary_pop_pointer szt n old (Z.of_nat k) s = Ret xs s' ->
  out_pos s' = u32 (out_pos s + Z.of_nat (n * k)).
Proof.
  intros Hk H. unfold binary_pop_pointer in H. rewrite block_len' in H by done.
  destruct (buf_len s <? _); [discriminate|].
  apply bind_Ret_inv in H as (bs & s1 & Hr & H). unfold memory_read in Hr.
  destruct (_ && _) in Hr; [|discriminate]. injection Hr as <- <-. cbv beta in H.
  destruct (_ <? _) in H; [discriminate|]. by injection H as <- <-.
Qed.

Lemma binary_pop_ok n v s : wf s -> 0 <= v < 2 ^ (8 * Z.of_nat n) ->
  avail s (le_bytes n v) -> binary_pop szt n s = Ret v (advance n s).
Proof.
  intros Hwf Hv Ha. pose proof Hwf as []. pose proof Ha as [Hl _].
  rewrite length_le_bytes in Hl. unfold binary_pop. rewrite size_t_small by lia.
  destruct (buf_len s <? _) eqn:E; [bool_props; lia|].
  apply memory_read_ok in Ha; [|done]. rewrite length_le_bytes in Ha.
  erewrite bind_ret by done.
  by rewrite advance_intro, le_value_bytes_small by (done || lia).
Qed.

Lemma binary_pop_throws n s : wf s -> buf_len s < out_pos s + Z.of_nat n ->
  out_pos s + Z.of_nat n < 4294967296 ->
  binary_pop szt n s = Throw out_of_range s.
Proof.
  intros [] H1 H2. unfold binary_pop. rewrite size_t_small by lia.
  destruct (buf_len s <? _) eqn:E; [done|bool_props; lia].
Qed.

Lemma binary_pop_array_ok n xs s : wf s ->
  Forall (fun x => 0 <= x < 2 ^ (8 * Z.of_nat n)) xs -> avail s (flat n xs) ->
  binary_pop_array szt n (length xs) s = Ret xs (advance (n * length xs) s).
Proof.
  intros Hwf Hv Ha. pose proof Hwf as []. pose proof Ha as [Hl _].
  rewrite length_flat in Hl. unfold binary_pop_array.
  rewrite block_len' by lia. rewrite u32_small by lia.
  destruct (buf_len s <? _) eqn:E; [bool_props; lia|].
  apply memory_read_ok in Ha; [|done]. rewrite length_flat in Ha.
  erewrite bind_ret by done. by rewrite advance_intro, chunks_flat by (done || lia).
Qed.

Lemma binary_pop_pointer_ok n old xs s : wf s ->
  Forall (fun x => 0 <= x < 2 ^ (8 * Z.of_nat n)) xs -> avail s (flat n xs) ->
  length old = length xs ->
  binary_pop_pointer szt n old (Z.of_nat (length xs)) s
  = Ret xs (advance (n * length xs) s).
Proof.
  intros Hwf Hv Ha Ho. pose proof Hwf as []. pose proof Ha as [Hl _].
  rewrite length_flat in Hl. unfold binary_pop_pointer.
  rewrite block_len' by lia. rewrite u32_small by lia.
  destruct (buf_len s <? _) eqn:E; [bool_props; lia|].
  apply memory_read_ok in Ha; [|done]. rewrite length_flat in Ha.
  erewrite bind_ret by done. cbv beta.
  rewrite Ho, Z.ltb_irrefl. cbv zeta.
  rewrite drop_ge, app_nil_r.
  - by rewrite chunks_flat, advance_intro by (done || lia).
  - change (flat n old) with (flat n old). rewrite length_flat. lia.
Qed.

End Ops.

(** ** Where the bounds tests do not protect the memory *)

Section Unsafe.
Context (szt : nat) (Hszt : (4 <= szt)%nat).

(** The text writer tests for [sizeof(T)] bytes and writes the decimal text. *)
Lemma text_push_ok n v s : wf s -> room s (Z.of_nat n) ->
  room s (Z.of_nat (length (to_string v))) ->
  text_push szt n v s = Ret tt (emit (to_string v) s).
Proof.
  intros Hwf Hr Ht. pose proof Hwf as []. unfold room in Hr. unfold text_push.
  rewrite size_t_small by (done || lia).
  destruct (buf_len s <? _) eqn:E; [bool_props; lia|]. cbv zeta.
  erewrite bind_ret by by apply memory_write_ok. cbn [in_pos set_mem].
  by rewrite emit_intro by done.
Qed.

(** The text writer's bounds test is for [sizeof(T)] bytes, not for the text
    it writes: a value whose decimal form is longer than what is left of the
    caller's memory passes the test whenever [sizeof(T)] bytes are left, and the
    write leaves the memory. *)
Theorem text_push_overflow n v s : wf s -> room s (Z.of_nat n) ->
  Z.of_nat (length (mem s)) < in_pos s + Z.of_nat (length (to_string v)) ->
  text_push szt n v s = UB.
Proof.
  intros Hwf Hr Ht. pose proof Hwf as []. unfold room in Hr. unfold text_push.
  rewrite size_t_small by (done || lia).
  destruct (buf_len s <? _) eqn:E; [bool_props; lia|]. cbv zeta.
  unfold bind, memory_write.
  destruct ((0 <=? in_pos s) && _) eqn:E'; [bool_props; lia|done].
Qed.

(** A block length close to [2^32] makes [len + out_pos_] wrap to 0. *)
Lemma binary_pop_pointer_wraps old s : wf s -> 0 < out_pos s ->
  Z.of_nat (length (mem s)) < 4294967296 ->
  binary_pop_pointer szt 1 old (4294967296 - out_pos s) s = UB.
Proof.
  intros Hwf Ho Hm. pose proof Hwf as []. unfold binary_pop_pointer.
  change (Z.of_nat 1) with 1.
  rewrite Z.mul_1_l, (size_t_small szt) by (done || lia). cbv zeta.
  rewrite (u32_small (4294967296 - out_pos s)) by lia.
  replace (4294967296 - out_pos s + out_pos s) with 4294967296 by lia.
  change (u32 4294967296) with 0.
  destruct (buf_len s <? 0) eqn:E; [bool_props; lia|].
  unfold bind, memory_read.
  destruct ((0 <=? out_pos s) && _ && _) eqn:E'; [bool_props; lia|done].
Qed.

End Unsafe.

(** An [int] of ten digits pushed into a window of four bytes. *)
Lemma text_push_overflow_witness :
  text_push 4 4 1234567890 (serialize_t (replicate 4 0) 4) = UB.
Proof.
  apply text_push_overflow;
    [lia|split; vm_compute; intuition discriminate|vm_compute; discriminate|reflexivity].
Defined.
