(* ===== verification/FileStream.v ===== *)
(** * Serialization into a file

    include/serialize/detail/buffer.hpp: [file_t], the buffer of [file_serialize], a
    [std::fstream] that is read and written at a position. [binary_in_t] and
    [binary_out_t] are templates over the buffer; they are written here over an interface
    that [memory_t] and [file_t] implement, and over [memory_t] they are the operations of
    Stream.v. *)

From S2P Require Import Prelude Stream.

(** ** The template *)

(** What the archives ask of a buffer. [buffer_read old len pos] reads into the [len]
    bytes [old]. *)
Class BufferT (B : Type) : Type := {
  buffer_length : B -> Z;
  buffer_read : list Z -> Z -> Z -> prog B (list Z);
  buffer_write : list Z -> Z -> prog B unit
}.

Record archive (B : Type) := Archive { buf_ : B; in_pos_ : Z; out_pos_ : Z }.
Arguments Archive {B} _ _ _.
Arguments buf_ {B} _.
Arguments in_pos_ {B} _.
Arguments out_pos_ {B} _.

Section Template.
Context (szt : nat) {B : Type} `{BufferT B}.

Definition on_buf {A} (m : prog B A) : prog (archive B) A := fun a =>
  match m (buf_ a) with
  | Ret x b => Ret x (Archive b (in_pos_ a) (out_pos_ a))
  | Throw e b => Throw e (Archive b (in_pos_ a) (out_pos_ a))
  | UB => UB
  | OutOfFuel => OutOfFuel
  end.

Definition in_by (k : Z) : prog (archive B) unit := fun a => Ret tt (Archive (buf_ a) (u32 (in_pos_ a + k)) (out_pos_ a)).
Definition out_by {A} (x : A) (k : Z) : prog (archive B) A := fun a => Ret x (Archive (buf_ a) (in_pos_ a) (u32 (out_pos_ a + k))).

Definition in_push (n : nat) (val : Z) : prog (archive B) unit := fun a =>
  if buffer_length (buf_ a) <? size_t szt (Z.of_nat n + in_pos_ a) then Throw out_of_range a
  else (on_buf (buffer_write (le_bytes n val) (in_pos_ a)) ;;; in_by (Z.of_nat n)) a.

Definition in_push_pointer (n : nat) (ptr : list Z) (cnt : Z) : prog (archive B) unit := fun a =>
  let len := u32 (size_t szt (Z.of_nat n * cnt)) in
  if buffer_length (buf_ a) <? u32 (len + in_pos_ a) then Throw out_of_range a
  else if Z.of_nat (n * length ptr) <? len then UB
  else (on_buf (buffer_write (take (Z.to_nat len) (flat n ptr)) (in_pos_ a)) ;;; in_by len) a.

(** [old]: what the object held. *)
Definition out_pop (n : nat) (old : Z) : prog (archive B) Z := fun a =>
  if buffer_length (buf_ a) <? size_t szt (Z.of_nat n + out_pos_ a) then Throw out_of_range a
  else (let* bs := on_buf (buffer_read (le_bytes n old) (Z.of_nat n) (out_pos_ a)) in out_by (le_value bs) (Z.of_nat n)) a.

Definition out_pop_pointer (n : nat) (old : list Z) (cnt : Z) : prog (archive B) (list Z) := fun a =>
  let len := u32 (size_t szt (Z.of_nat n * cnt)) in
  if buffer_length (buf_ a) <? u32 (len + out_pos_ a) then Throw out_of_range a
  else if Z.of_nat (n * length old) <? len then UB
  else (let* bs := on_buf (buffer_read (take (Z.to_nat len) (flat n old)) len (out_pos_ a)) in
        out_by (chunks (length old) n (bs ++ drop (Z.to_nat len) (flat n old))) len) a.

(** What a client does with an archive, and what it reads. *)
Inductive io := Push (n : nat) (val : Z) | Push_pointer (n : nat) (ptr : list Z) (cnt : Z)
  | Pop (n : nat) (old : Z) | Pop_pointer (n : nat) (old : list Z) (cnt : Z).

Definition exec_io (o : io) : prog (archive B) (list Z) :=
  match o with
  | Push n val => in_push n val ;;; ret []
  | Push_pointer n ptr cnt => in_push_pointer n ptr cnt ;;; ret []
  | Pop n old => let* v := out_pop n old in ret [v]
  | Pop_pointer n old cnt => out_pop_pointer n old cnt
  end.

Fixpoint run_io (l : list io) : prog (archive B) (list Z) :=
  match l with
  | [] => ret []
  | o :: l => let* r := exec_io o in let* rs := run_io l in ret (r ++ rs)
  end.
End Template.

(** ** memory_t *)

Record memory_t := Memory { bytes_ : list Z; buf_len_ : Z }.

Definition memory_inside (len pos : Z) (m : memory_t) : bool :=
  (0 <=? pos) && (0 <=? len) && (pos + len <=? Z.of_nat (length (bytes_ m))).

#[export] Instance memory_buffer : BufferT memory_t := {
  buffer_length := buf_len_;
  buffer_read _ len pos m := if memory_inside len pos m then Ret (slice (bytes_ m) (Z.to_nat pos) (Z.to_nat len)) m else UB;
  buffer_write bs pos m :=
    if memory_inside (Z.of_nat (length bs)) pos m
    then Ret tt (Memory (take (Z.to_nat pos) (bytes_ m) ++ bs ++ drop (Z.to_nat pos + length bs) (bytes_ m)) (buf_len_ m))
    else UB
}.

Definition as_stream (a : archive memory_t) : stream := Stream (bytes_ (buf_ a)) (buf_len_ (buf_ a)) (in_pos_ a) (out_pos_ a).

Definition same_outcome {A} (r : outcome (archive memory_t) A) (r' : outcome stream A) : Prop :=
  match r, r' with
  | Ret x a, Ret y s => x = y /\ s = as_stream a
  | Throw e a, Throw e' s => e = e' /\ s = as_stream a
  | UB, UB => True
  | _, _ => False
  end.

Lemma memory_push szt n v a : same_outcome (in_push szt n v a) (binary_push szt n v (as_stream a)).
Proof.
  destruct a as [[m len] i o]. unfold in_push, binary_push, on_buf, in_by, bind, memory_write. cbn.
  destruct (_ <? _); [done|]. unfold memory_inside. cbn. rewrite length_le_bytes.
  destruct (0 <=? i); [|done]. rewrite (proj2 (Z.leb_le 0 _)) by lia. cbn. by destruct (_ <=? _).
Qed.

Lemma memory_push_pointer szt n ptr cnt a :
  same_outcome (in_push_pointer szt n ptr cnt a) (binary_push_pointer szt n ptr cnt (as_stream a)).
Proof.
  destruct a as [[m len] i o]. unfold in_push_pointer, binary_push_pointer, on_buf, in_by, bind, memory_write. cbn.
  destruct (_ <? _); [done|]. destruct (_ <? _); [done|]. unfold memory_inside. cbn.
  destruct (0 <=? i); [|done]. rewrite (proj2 (Z.leb_le 0 _)) by lia. cbn. by destruct (_ <=? _).
Qed.

Lemma memory_pop szt n old a : same_outcome (out_pop szt n old a) (binary_pop szt n (as_stream a)).
Proof.
  destruct a as [[m len] i o]. unfold out_pop, binary_pop, on_buf, out_by, bind, memory_read. cbn.
  destruct (_ <? _); [done|]. unfold memory_inside. cbn. by destruct (_ && _).
Qed.

Lemma memory_pop_pointer szt n old cnt a :
  same_outcome (out_pop_pointer szt n old cnt a) (binary_pop_pointer szt n old cnt (as_stream a)).
Proof.
  destruct a as [[m len] i o]. unfold out_pop_pointer, binary_pop_pointer, on_buf, out_by, bind, memory_read. cbn.
  destruct (_ <? _); [done|]. unfold memory_inside. cbn.
  destruct (Z.of_nat _ <? _) eqn:E; destruct (_ && _); cbn; by rewrite ?E.
Qed.

(** Over [memory_t] the template is the writer and the reader of Stream.v. *)
Theorem template_of_memory szt a n v ptr cnt :
  same_outcome (in_push szt n v a) (binary_push szt n v (as_stream a)) /\
  same_outcome (in_push_pointer szt n ptr cnt a) (binary_push_pointer szt n ptr cnt (as_stream a)) /\
  same_outcome (out_pop szt n v a) (binary_pop szt n (as_stream a)) /\
  same_outcome (out_pop_pointer szt n ptr cnt a) (binary_pop_pointer szt n ptr cnt (as_stream a)).
Proof. split; [apply memory_push|]. split; [apply memory_push_pointer|]. split; [apply memory_pop|apply memory_pop_pointer]. Qed.

(** ** file_t *)

(** [content]: what the file holds; [good]: no [eofbit], [failbit] or [badbit]. The
    position of the stream is set before every transfer. What a gap between the end of
    the file and a write holds is the system's. *)
Section File.
Context (fill : Z).

Record file_t := File { content : list Z; good : bool }.

(** [read] at the end of the file gives what there is, and fails the stream without
    an exception. *)
Definition file_read (old : list Z) (len pos : Z) : prog file_t (list Z) := fun f =>
  if negb (good f) then Throw runtime_error f
  else let got := slice (content f) (Z.to_nat pos) (Z.to_nat len) in
       Ret (got ++ drop (length got) old) (File (content f) (Z.of_nat (length got) =? len)).

Definition file_write (bs : list Z) (pos : Z) : prog file_t unit := fun f =>
  if negb (good f) then Throw runtime_error f
  else let p := Z.to_nat pos in
       let base := content f ++ replicate (p - length (content f)) fill in
       Ret tt (File (take p base ++ bs ++ drop (p + length bs) base) true).

#[export] Instance file_buffer : BufferT file_t := {
  buffer_length _ := 4294967295;
  buffer_read := file_read;
  buffer_write := file_write
}.

(** The constructor: a file that cannot be opened is made, and opened again; nothing
    is thrown when that fails too. [disk]: what the file holds, if it exists. *)
Definition open_file (disk : option (list Z)) (creatable : bool) : file_t :=
  match disk with
  | Some c => File c true
  | None => File [] creatable
  end.

Definition file_serialize (f : file_t) : archive file_t := Archive f 0 0.

(** ** A file as a window of memory *)

(** A window of 2^32 - 1 bytes that starts with the file. *)
Record shadow (a : archive file_t) (b : archive memory_t) : Prop := {
  shadow_good : good (buf_ a) = true;
  shadow_len : buf_len_ (buf_ b) = 4294967295 /\ Z.of_nat (length (bytes_ (buf_ b))) = 4294967295;
  shadow_bytes : content (buf_ a) `prefix_of` bytes_ (buf_ b);
  shadow_pos : in_pos_ b = in_pos_ a /\ out_pos_ b = out_pos_ a;
  shadow_in : 0 <= in_pos_ a <= Z.of_nat (length (content (buf_ a)));
  shadow_out : 0 <= out_pos_ a < 4294967296
}.

Definition ends_good {A} (r : outcome (archive file_t) A) : bool :=
  match r with Ret _ a | Throw _ a => good (buf_ a) | _ => false end.

(** As long as the stream is good, what the file does the window does. *)
Definition simulates {A} (r : outcome (archive file_t) A) (r' : outcome (archive memory_t) A) : Prop :=
  ends_good r = true ->
  match r, r' with
  | _, UB => True
  | Ret x a, Ret y b => x = y /\ shadow a b
  | Throw e a, Throw e' b => e = e' /\ shadow a b
  | _, _ => False
  end.

Lemma u32_le z : 0 <= z -> 0 <= u32 z <= z.
Proof. intros H. split; [apply u32_range|]. by apply Z.mod_le. Qed.

Lemma simulates_bind {A C} (m : prog (archive file_t) A) m' (k : A -> prog (archive file_t) C) k' a b :
  simulates (m a) (m' b) -> (forall x a b, shadow a b -> simulates (k x a) (k' x b)) ->
  (forall x a, good (buf_ a) = false -> ends_good (k x a) = false) -> simulates (bind m k a) (bind m' k' b).
Proof.
  intros Hm Hk Hbad. unfold bind. destruct (m a) as [x a1|e a1| |]; try done.
  - destruct (good (buf_ a1)) eqn:Hg; [|intros H; by rewrite Hbad in H].
    specialize (Hm Hg). destruct (m' b) as [y b1| | |]; try done; [destruct Hm as [-> Hs]; by apply Hk|].
    intros H. by destruct (k x a1).
  - intros Hg. specialize (Hm Hg). by destruct (m' b).
Qed.

(** The write of both, at a position within the file. *)
Lemma write_simulates bs k a b : shadow a b -> Z.of_nat (length bs) = k ->
  simulates ((on_buf (buffer_write bs (in_pos_ a)) ;;; in_by k) a)
            ((on_buf (buffer_write bs (in_pos_ a)) ;;; in_by k) b).
Proof.
  intros Hsh <-. revert Hsh. destruct a as [[c g] i o], b as [[m len] i' o']. intros [Hg [Hl Hm] Hp [Hpi Hpo] Hi Ho]. cbn in *. subst g len i' o'.
  unfold bind, on_buf, in_by, memory_inside, file_write. cbn.
  rewrite (proj2 (Nat.sub_0_le (Z.to_nat i) (length c))) by lia. cbn [replicate]. rewrite app_nil_r.
  destruct (_ && _) eqn:E; intros _; cbn; [|done]. bool_props. split; [done|].
  destruct Hp as [rest ->]. split; cbn; try done.
  - split; [done|]. rewrite !length_app, length_take, length_drop, !length_app in *. lia.
  - rewrite take_app_le by lia. rewrite drop_app. eexists. by rewrite <- !app_assoc.
  - rewrite !length_app, length_take, length_drop. pose proof (u32_le (i + Z.of_nat (length bs))). lia.
Qed.

Lemma read_simulates {A} (f : list Z -> A) old len a b : shadow a b -> Z.of_nat (length old) = len ->
  simulates ((let* bs := on_buf (buffer_read old len (out_pos_ a)) in out_by (f bs) len) a)
            ((let* bs := on_buf (buffer_read old len (out_pos_ a)) in out_by (f bs) len) b).
Proof.
  destruct a as [[c g] i o], b as [[m l] i' o']. intros [Hg [Hl Hm] Hp [Hpi Hpo] Hi Ho] Hold. cbn in *. subst g l i' o'.
  unfold bind, on_buf, out_by, memory_inside, file_read. cbn. intros Hgood.
  apply Z.eqb_eq in Hgood. unfold ends_good in *. cbn in *.
  destruct (_ && _) eqn:E; [|done]. bool_props.
  rewrite (drop_ge old), app_nil_r by lia. assert (slice c (Z.to_nat o) (Z.to_nat len) = slice m (Z.to_nat o) (Z.to_nat len)) as <-.
  { destruct Hp as [rest ->]. unfold slice in *. rewrite length_take, length_drop in Hgood.
    rewrite drop_app. rewrite take_app_le; [done|]. rewrite length_drop. lia. }
  split; [done|]. split; cbn; try done; [by apply Z.eqb_eq|apply u32_range].
Qed.

Lemma length_le n v : Z.of_nat (length (le_bytes n v)) = Z.of_nat n.
Proof. by rewrite length_le_bytes. Qed.

Lemma length_part n ptr len : (Z.of_nat (n * length ptr) <? len) = false -> 0 <= len ->
  Z.of_nat (length (take (Z.to_nat len) (flat n ptr))) = len.
Proof. intros H Hl. bool_props. rewrite length_take, length_flat. lia. Qed.

Lemma simulates_ret {A} (x : A) a b : shadow a b -> simulates (ret x a) (ret x b).
Proof. intros Hs _. by split. Qed.

Lemma exec_simulates szt o a b : shadow a b -> simulates (exec_io szt o a) (exec_io szt o b).
Proof.
  intros Hs. pose proof (shadow_len _ _ Hs) as [Hl _]. pose proof (shadow_pos _ _ Hs) as [Hi Ho].
  destruct o as [n v|n ptr cnt|n old|n old cnt]; cbn [exec_io]; [apply simulates_bind; [|intros x a' b' Hs'; by apply (simulates_ret _ a' b')|done]..|];
    unfold in_push, in_push_pointer, out_pop, out_pop_pointer; cbn [buffer_length file_buffer memory_buffer];
    rewrite Hl, ?Hi, ?Ho; (destruct (_ <? _); [by intros _|]).
  - by apply write_simulates; [|apply length_le].
  - destruct (_ <? u32 _) eqn:E; [done|]. by apply write_simulates; [|apply length_part; [|apply u32_range]].
  - apply (read_simulates le_value); [done|apply length_le].
  - destruct (_ <? u32 _) eqn:E; [done|].
    apply (read_simulates (fun bs => chunks (length old) n (bs ++ _))); [done|]. by apply length_part; [|apply u32_range].
Qed.

(** A stream that is not good stays so: nothing is read or written any more. *)
Definition refused {A} (a : archive file_t) (r : outcome (archive file_t) A) : Prop :=
  match r with Throw e a' => a' = a /\ (e = runtime_error \/ e = out_of_range) | UB => True | _ => False end.

Lemma bad_exec szt o a : good (buf_ a) = false -> refused a (exec_io szt o a).
Proof.
  destruct a as [[c g] i k]. cbn. intros ->.
  destruct o; cbn [exec_io]; unfold bind, in_push, in_push_pointer, out_pop, out_pop_pointer; cbn;
    repeat case_match; unfold bind, on_buf, file_write, file_read in *; cbn in *; simplify_eq; cbn; tauto.
Qed.

Lemma bad_run szt l a : good (buf_ a) = false -> ends_good (run_io szt l a) = false.
Proof.
  intros H. destruct l as [|o l]; [done|]. cbn [run_io]. unfold bind at 1.
  pose proof (bad_exec szt o a H) as Hr. destruct (exec_io szt o a) as [|e a'| |]; try done. by destruct Hr as [-> _].
Qed.

(** [C19] A file is read and written as a window of 2^32 - 1 bytes that starts with what it
    holds, as long as no read goes beyond its end: the same values, the same exceptions,
    the same bytes. *)
Theorem file_as_window szt l a b : shadow a b -> simulates (run_io szt l a) (run_io szt l b).
Proof.
  revert a b. induction l as [|o l IH]; intros a b Hs; cbn [run_io]; [by apply (simulates_ret [] a b)|].
  apply simulates_bind; [by apply exec_simulates| |].
  - intros x a' b' Hs'. apply simulates_bind; [by apply IH| |done].
    intros y a2 b2 Hs2. by apply (simulates_ret _ a2 b2).
  - intros x a' Hg. unfold bind. pose proof (bad_run szt l a' Hg). by destruct (run_io szt l a').
Qed.

(** A read that goes beyond the end of the file throws nothing: the value is what was
    left of the file and what the object held; everything after it is refused, writing
    too. *)
Theorem short_read szt n old a o l : (4 <= szt)%nat -> (0 < n)%nat -> good (buf_ a) = true -> 0 <= out_pos_ a ->
  Z.of_nat (length (content (buf_ a))) < out_pos_ a + Z.of_nat n <= 4294967295 ->
  let got := drop (Z.to_nat (out_pos_ a)) (content (buf_ a)) in
  exists a', exec_io szt (Pop n old) a = Ret [le_value (got ++ drop (length got) (le_bytes n old))] a' /\
    content (buf_ a') = content (buf_ a) /\ out_pos_ a' = out_pos_ a + Z.of_nat n /\
    refused a' (run_io szt (o :: l) a').
Proof.
  intros Hszt Hpos Hg0 Hk Hn got. destruct a as [[c g] i k]. cbn [buf_ content good out_pos_] in *. subst g.
  cbn [exec_io]. unfold bind at 1, out_pop, ret. cbn [buffer_length file_buffer buf_ out_pos_].
  rewrite (size_t_small szt Hszt) by lia. rewrite (proj2 (Z.ltb_ge 4294967295 _)) by lia.
  unfold bind, on_buf, file_read, out_by. cbn. rewrite u32_small by lia. rewrite Nat2Z.id.
  unfold slice. rewrite (take_ge (drop _ c)) by (rewrite length_drop; lia). fold got.
  eexists. split; [done|]. split; [done|]. split; [done|]. unfold bind at 1.
  match goal with |- refused ?a' _ => assert (Hg : good (buf_ a') = false) end.
  { cbn. apply Z.eqb_neq. unfold got. rewrite length_drop. lia. }
  pose proof (bad_exec szt o _ Hg) as Hr. by destruct (exec_io szt o _).
Qed.

(** ** Reading what was written *)

Notation fields := (list (nat * Z)).
Definition pushes (l : fields) : list io := map (fun x => Push x.1 x.2) l.
Definition pops (l : fields) : list io := map (fun x => Pop x.1 0) l.
Definition field_bytes (l : fields) : list Z := mjoin (map (fun x => le_bytes x.1 x.2) l).
Definition field_ok (x : nat * Z) : Prop := 0 <= x.2 < 2 ^ (8 * Z.of_nat x.1).

Lemma field_bytes_cons x l : field_bytes (x :: l) = le_bytes x.1 x.2 ++ field_bytes l.
Proof. done. Qed.

(** [written c i bs]: the file after [bs] was written at [i]. *)
Definition written (c : list Z) (i : nat) (bs : list Z) : list Z := take i c ++ bs ++ drop (i + length bs) c.

Lemma written_app c i a b : (i <= length c)%nat -> written (written c i a) (i + length a) b = written c i (a ++ b).
Proof.
  intros H. unfold written. rewrite (app_assoc (take i c) a (drop _ c)).
  rewrite take_app_length' by (rewrite length_app, length_take; lia).
  rewrite drop_app_ge, drop_drop, <- !app_assoc by (rewrite length_app, length_take; lia).
  do 4 f_equal. rewrite !length_app, length_take. lia.
Qed.

Lemma written_ge c i bs : (i <= length c)%nat -> (i + length bs <= length (written c i bs))%nat.
Proof. intros H. unfold written. rewrite !length_app, length_take. lia. Qed.

Lemma in_push_file szt n v c i k : (4 <= szt)%nat -> 0 <= i <= Z.of_nat (length c) -> i + Z.of_nat n <= 4294967295 ->
  in_push szt n v (Archive (File c true) i k) =
    Ret tt (Archive (File (written c (Z.to_nat i) (le_bytes n v)) true) (i + Z.of_nat n) k).
Proof.
  intros Hszt Hi Hn. unfold in_push. cbn [buffer_length file_buffer buf_ in_pos_].
  rewrite (size_t_small szt Hszt) by lia. rewrite (proj2 (Z.ltb_ge 4294967295 _)) by lia.
  unfold bind, on_buf, file_write, in_by. cbn. rewrite u32_small by lia.
  rewrite (proj2 (Nat.sub_0_le (Z.to_nat i) (length c))) by lia. cbn [replicate]. by rewrite app_nil_r.
Qed.

Lemma out_pop_file szt n v c i k : (4 <= szt)%nat -> 0 <= k -> k + Z.of_nat n <= 4294967295 ->
  slice c (Z.to_nat k) n = le_bytes n v -> 0 <= v < 2 ^ (8 * Z.of_nat n) ->
  out_pop szt n 0 (Archive (File c true) i k) = Ret v (Archive (File c true) i (k + Z.of_nat n)).
Proof.
  intros Hszt Hk Hn Hs Hv. unfold out_pop. cbn [buffer_length file_buffer buf_ out_pos_].
  rewrite (size_t_small szt Hszt) by lia. rewrite (proj2 (Z.ltb_ge 4294967295 _)) by lia.
  unfold bind, on_buf, file_read, out_by. cbn. rewrite u32_small, Nat2Z.id, Hs by lia.
  rewrite drop_ge, app_nil_r by (by rewrite !length_le_bytes). by rewrite le_value_bytes_small, length_le_bytes, Z.eqb_refl.
Qed.

Lemma pushes_ok szt l : forall c i k, (4 <= szt)%nat -> 0 <= i <= Z.of_nat (length c) ->
  i + Z.of_nat (length (field_bytes l)) <= 4294967295 ->
  run_io szt (pushes l) (Archive (File c true) i k) =
    Ret [] (Archive (File (written c (Z.to_nat i) (field_bytes l)) true) (i + Z.of_nat (length (field_bytes l))) k).
Proof.
  induction l as [|x l IH]; intros c i k Hszt Hi Hl; cbn [pushes map run_io exec_io].
  - unfold written, field_bytes. cbn. by rewrite Nat.add_0_r, take_drop, Z.add_0_r.
  - rewrite !field_bytes_cons in *. rewrite length_app, length_le_bytes in *. unfold bind at 2.
    unfold bind at 1. rewrite in_push_file by (done || lia). unfold ret at 1, bind. fold (pushes l).
    pose proof (written_ge c (Z.to_nat i) (le_bytes x.1 x.2)) as Hw. rewrite length_le_bytes in Hw.
    rewrite IH by (done || lia). unfold ret. cbn [app]. rewrite <- written_app, length_le_bytes, Z2Nat.inj_add, Nat2Z.id by lia.
    do 2 f_equal. lia.
Qed.

Lemma pops_ok szt l c i : forall k, (4 <= szt)%nat -> 0 <= k -> k + Z.of_nat (length (field_bytes l)) <= 4294967295 ->
  field_bytes l `prefix_of` drop (Z.to_nat k) c -> Forall field_ok l ->
  run_io szt (pops l) (Archive (File c true) i k) = Ret (map snd l) (Archive (File c true) i (k + Z.of_nat (length (field_bytes l)))).
Proof.
  induction l as [|x l IH]; intros k Hszt Hk Hl Hp Hf; cbn [pops map run_io exec_io]; [cbn; by rewrite Z.add_0_r|].
  rewrite field_bytes_cons in *. rewrite length_app, length_le_bytes in *. inversion_clear Hf as [|? ? Hx Hf'].
  destruct Hp as [rest Hp]. rewrite <- app_assoc in Hp. unfold bind at 2, bind at 1.
  rewrite (out_pop_file szt x.1 x.2); [|done|lia..| |done].
  - unfold ret at 1, bind. fold (pops l). rewrite IH; [|done|lia..| |done].
    + unfold ret. cbn. do 2 f_equal. lia.
    + exists rest. replace (Z.to_nat (k + Z.of_nat x.1)) with (Z.to_nat k + x.1)%nat by lia.
      rewrite <- drop_drop, Hp. by rewrite drop_app_length' by (by rewrite length_le_bytes).
  - unfold slice. rewrite Hp. by rewrite take_app_length' by (by rewrite length_le_bytes).
Qed.

(** What is written to a file that could be opened is read back from it when it is
    opened again; opening does not cut the file, so what was there beyond the new end
    stays. *)
Theorem file_roundtrip szt l disk creatable : (4 <= szt)%nat -> is_Some disk \/ creatable = true ->
  Z.of_nat (length (field_bytes l)) <= 4294967295 -> Forall field_ok l ->
  exists a a', run_io szt (pushes l) (file_serialize (open_file disk creatable)) = Ret [] a /\
    content (buf_ a) = field_bytes l ++ drop (length (field_bytes l)) (default [] disk) /\
    run_io szt (pops l) (file_serialize (open_file (Some (content (buf_ a))) creatable)) = Ret (map snd l) a'.
Proof.
  intros Hszt Hd Hl Hf. assert (open_file disk creatable = File (default [] disk) true) as ->.
  { destruct disk; [done|]. destruct Hd as [[? H] | ->]; done. }
  unfold file_serialize. rewrite pushes_ok by (done || lia). eexists _, _. split; [done|]. split; [done|].
  cbn [buf_ content open_file]. apply pops_ok; [done|lia|lia| |done]. by eexists.
Qed.
End File.

(** ** Concrete files *)

Module Demo.

Definition small_file : file_t := File [1; 2; 3] true.
(** The window, for any number of bytes that makes it as long as it is. *)
Definition window (n : nat) : archive memory_t := Archive (Memory ([1; 2; 3] ++ replicate n 0) 4294967295) 0 0.

Lemma small_shadow n : Z.of_nat n = 4294967292 -> shadow (file_serialize small_file) (window n).
Proof.
  intros Hn. split; cbn; [done| |by exists (replicate n 0)|done|lia|lia].
  split; [done|]. rewrite length_replicate. lia.
Qed.

Definition far : nat := Z.to_nat 4294967292.

Lemma file_as_window_witness :
  simulates (run_io 8 (H := file_buffer 0) [Pop 2 0; Push 4 9; Pop 2 0] (file_serialize small_file))
            (run_io 8 [Pop 2 0; Push 4 9; Pop 2 0] (window far)).
Proof. apply (file_as_window 0 8), small_shadow. unfold far. rewrite Z2Nat.id by lia. reflexivity. Defined.

(** Four bytes are asked of a file of three. *)
Lemma short_read_witness : exists a', exec_io 8 (H := file_buffer 0) (Pop 4 (-1)) (file_serialize small_file) = Ret [le_value [1; 2; 3; 255]] a' /\
  content (buf_ a') = [1; 2; 3] /\ out_pos_ a' = 4 /\ refused a' (run_io 8 (H := file_buffer 0) [Push 1 7] a').
Proof. apply (short_read 0 8 4 (-1) (file_serialize small_file) (Push 1 7) []); cbn; try done; lia. Defined.

Lemma file_roundtrip_witness : exists a a',
  run_io 8 (H := file_buffer 0) (pushes [(2%nat, 513); (1%nat, 7)]) (file_serialize (open_file (Some [9; 9; 9; 9; 9]) true)) = Ret [] a /\
  content (buf_ a) = [1; 2; 7; 9; 9] /\
  run_io 8 (H := file_buffer 0) (pops [(2%nat, 513); (1%nat, 7)]) (file_serialize (open_file (Some (content (buf_ a))) true)) = Ret [513; 7] a'.
Proof.
  apply (file_roundtrip 0 8 [(2%nat, 513); (1%nat, 7)] (Some [9; 9; 9; 9; 9]) true); [lia|by left; eexists|done|].
  repeat constructor; cbn; lia.
Defined.

End Demo.
