(* ===== verification/Serialize.v ===== *)
(** * Serialization of typed values (include/serialize/serialize.hpp,
    detail/dispatch.hpp, detail/container_dispatch.hpp)

    The template dispatch: [operator<<] and [operator>>] select
    [select_traits_t], which sends containers to [container_traits_t], whose
    primary template goes back to the operators.  C++ types are codes [ty], the
    template instances of the traits are the cases of a [match] on the code. *)

From S2P Require Import Prelude Stream.

(** ** Types and values *)

Inductive ty : Type :=
| TPod (n : nat)                  (* integral, floating or enum type of [sizeof] n *)
| TCharPtr (cs : nat)             (* char*, const char*, wchar_t*, const wchar_t*; sizeof of the character *)
| TCharArr (cs n : nat)           (* char[N], wchar_t[N] *)
| TPodArr (n cnt : nat)           (* T[N], T a POD of sizeof n *)
| TArr (t : ty) (cnt : nat)       (* T[N], T not a POD *)
| TPtr (t : ty)                   (* T* *)
| TShared (t : ty)                (* std::shared_ptr<T> *)
| TString (cs : nat)              (* std::basic_string<T> *)
| TPair (a b : ty)
| TTuple (ts : list ty)
| TVector (t : ty)
| TList (t : ty)
| TDeque (t : ty)
| TMap (k v : ty)
| TMultimap (k v : ty)
| TSet (k : ty)
| TMultiset (k : ty)
| TUnordered (k : ty).            (* unordered_map, unordered_set and the multi ones *)

(** A scalar by its object representation, a character sequence by its codes; a
    pointer the operators follow is represented by what it points to, and
    [VWild] is an uninitialised one and [VNull] a null [std::shared_ptr]. An element of a [std::vector] or of an array that is
    copied whole ([is_pod] below) is represented by its object representation:
    a pointer there is its address. Maps and sets are listed in iteration
    order. *)
Inductive value : Type :=
| VPod (z : Z)
| VStr (l : list Z)
| VPair (a b : value)
| VSeq (l : list value)
| VWild
| VNull.

(** [is_container_t<U>::value]. *)
Definition is_container_t (t : ty) : bool :=
  match t with
  | TPair _ _ | TTuple _ | TVector _ | TList _ | TDeque _ | TMap _ _ | TSet _
  | TUnordered _ | TMultimap _ _ | TMultiset _ => true
  | _ => false
  end.

(** [std::is_pod<T>::value], for the element types of [std::vector] and of arrays:
    scalars, pointers, and arrays of these. *)
Fixpoint is_pod (t : ty) : bool :=
  match t with
  | TPod _ | TCharPtr _ | TPtr _ | TCharArr _ _ | TPodArr _ _ => true
  | TArr e _ => is_pod e
  | _ => false
  end.

(** [sizeof(T)] of a POD; a pointer has the size of [std::size_t]. *)
Fixpoint pod_size (szt : nat) (t : ty) : nat :=
  match t with
  | TPod n => n
  | TCharPtr _ | TPtr _ => szt
  | TCharArr cs n => cs * n
  | TPodArr n cnt => n * cnt
  | TArr e cnt => pod_size szt e * cnt
  | _ => 0
  end%nat.

(** The value [T element;] starts from: a pointer is left uninitialised, a
    [std::shared_ptr] is null. (The operators never read what a scalar or an
    array of scalars starts from.) *)
Fixpoint default_value (t : ty) : value :=
  match t with
  | TPod _ => VPod 0
  | TCharArr _ n => VStr (replicate n 0)
  | TString _ => VStr []
  | TPodArr _ cnt => VStr (replicate cnt 0)
  | TArr t cnt => VSeq (replicate cnt (default_value t))
  | TCharPtr _ | TPtr _ => VWild
  | TShared _ => VNull
  | TPair a b => VPair (default_value a) (default_value b)
  | TTuple ts => VSeq (default_value <$> ts)
  | _ => VSeq []
  end.

Section Dispatch.

Context (szt : nat).

(** ** Writing *)

Section In.
Context {A : InArchive}.

(** [push_length_impl(os, std::uint32_t length)]: the [size_t] argument is
    converted to 32 bits; writers without length ignore it. *)
Definition push_length_impl (length : Z) : M unit :=
  if need_length then ar_push 4 (u32 length) else ret tt.

(** The loop of the container writers. *)
Fixpoint push_each (f : value -> M unit) (l : list value) : M unit :=
  match l with
  | [] => ret tt
  | v :: l' => f v ;;; push_each f l'
  end.

Definition pod_value (v : value) : Z := match v with VPod z => z | _ => 0 end.

(** [sequence_traits_t<SequenceTypeT>::push]. *)
Definition sequence_push (f : value -> M unit) (l : list value) : M unit :=
  push_length_impl (Z.of_nat (length l)) ;;; push_each f l.

(** [sequence_traits_t<std::vector<T>>::push], [T] a POD of [sizeof] n. *)
Definition pod_vector_push (n : nat) (l : list value) : M unit :=
  push_length_impl (Z.of_nat (length l)) ;;;
  ar_push_pointer n (pod_value <$> l) (u32 (Z.of_nat (length l))).

(** [associative_type_traits_t::push]. *)
Definition associative_push (fk fe : value -> M unit) (l : list value) : M unit :=
  push_length_impl (Z.of_nat (length l)) ;;;
  push_each (fun kv =>
    match kv with
    | VPair x y => fk x ;;; fe y
    | _ => ub
    end) l.

(** [container_traits_t<std::set>::push] and [container_traits_t<std::multiset>::push]. *)
Definition set_push (f : value -> M unit) (l : list value) : M unit :=
  push_length_impl (Z.of_nat (length l)) ;;; push_each f l.
Definition multiset_push (f : value -> M unit) (l : list value) : M unit :=
  push_length_impl (Z.of_nat (length l)) ;;; push_each f l.

(** [container_traits_t<T>::push]. The primary template is [io << val], here
    [rec]; each specialisation writes its parts through the traits of their
    type. [impl_t::push<I, N>] of the tuple walks the elements in order. *)
Fixpoint container_push (rec : ty -> value -> M unit) (t : ty) (v : value) : M unit :=
  match t, v with
  | TPair a b, VPair x y => container_push rec a x ;;; container_push rec b y
  | TTuple ts, VSeq vs =>
      (fix go (ts : list ty) (vs : list value) : M unit :=
         match ts, vs with
         | t1 :: ts', v1 :: vs' => container_push rec t1 v1 ;;; go ts' vs'
         | _, _ => ret tt
         end) ts vs
  | TVector e, VSeq l =>
      if is_pod e then pod_vector_push (pod_size szt e) l
      else sequence_push (container_push rec e) l
  | TList e, VSeq l | TDeque e, VSeq l => sequence_push (container_push rec e) l
  | TSet e, VSeq l => set_push (container_push rec e) l
  | TMultiset e, VSeq l => multiset_push (container_push rec e) l
  | TMap k e, VSeq l | TMultimap k e, VSeq l =>
      associative_push (container_push rec k) (container_push rec e) l
  | _, _ => rec t v
  end.

(** [std::char_traits<T>::length]: the characters before the first NUL. *)
Fixpoint char_length (l : list Z) : nat :=
  match l with
  | [] => 0
  | c :: l' => if c =? 0 then 0%nat else S (char_length l')
  end.

(** [select_traits_t<T>::push]; [rec] is [os << ...]. *)
Definition select_push (rec : ty -> value -> M unit) (t : ty) (v : value) : M unit :=
  match t, v with
  | TPod n, VPod z => ar_push n z
  | TCharPtr cs, VStr s =>
      let len := u32 (Z.of_nat (char_length s)) in
      push_length_impl len ;;; ar_push_pointer cs (s ++ [0]) len
  | TCharArr cs n, VStr s =>
      push_length_impl (Z.of_nat n) ;;;
      (if (char_length s =? length s)%nat then ub   (* no NUL inside the array *)
       else ar_push_pointer cs s (u32 (Z.of_nat (char_length s))))
  | TPodArr n cnt, VStr xs => ar_push_array n xs
  | TArr e cnt, VSeq l =>
      if is_pod e then ar_push_array (pod_size szt e) (pod_value <$> l)
      else push_each (rec e) l
  | TPtr _, VWild | TShared _, VNull => ub                      (* [*val] *)
  | TPtr e, _ | TShared e, _ => rec e v
  | TString cs, VStr s =>
      push_length_impl (Z.of_nat (length s)) ;;;
      ar_push_pointer cs s (u32 (Z.of_nat (length s)))
  | _, _ => if is_container_t t then container_push rec t v else ub
  end.

(** [os << val]. The fuel bounds the depth of nested [operator<<] calls. *)
Fixpoint op_in (fuel : nat) (t : ty) (v : value) : M unit :=
  match fuel with
  | O => diverge
  | S f => select_push (op_in f) t v
  end.

End In.

(** ** Reading *)

(** [LessT] of an ordered container, per key type. *)
Context (less : ty -> value -> value -> bool).

Definition key (e : value) : value := match e with VPair k _ => k | _ => e end.

(** [std::map::insert], [std::set::insert]: an equivalent key keeps the old
    element. *)
Fixpoint map_insert (lt : value -> value -> bool) (e : value) (l : list value) : list value :=
  match l with
  | [] => [e]
  | x :: l' =>
      if lt (key x) (key e) then x :: map_insert lt e l'
      else if lt (key e) (key x) then e :: l
      else l
  end.

(** [std::multimap::insert], [std::multiset::insert]: after the equivalent
    elements. *)
Fixpoint multi_insert (lt : value -> value -> bool) (e : value) (l : list value) : list value :=
  match l with
  | [] => [e]
  | x :: l' => if lt (key e) (key x) then e :: l else x :: multi_insert lt e l'
  end.

(** [for(; valSize > 0; --valSize)]: read one element and store it. *)
Fixpoint pop_loop (n : nat) (one : M value) (store : value -> list value -> list value)
    (acc : list value) : M (list value) :=
  match n with
  | O => ret acc
  | S n' => let* x := one in pop_loop n' one store (store x acc)
  end.

Definition seq_value (v : value) : list value := match v with VSeq l => l | _ => [] end.
Definition str_value (v : value) : list Z := match v with VStr l => l | _ => [] end.

(** [std::vector::resize] and [std::basic_string::resize]. *)
Definition resize (d : Z) (n : Z) (l : list Z) : list Z :=
  take (Z.to_nat n) l ++ replicate (Z.to_nat n - length l) d.

(** [container_traits_t<size_type>::pop]: the container's [size_type]. *)
Definition pop_size : M Z := binary_pop szt szt.

(** [sequence_traits_t<SequenceTypeT>::pop]: the elements are appended. *)
Definition sequence_pop (one : M value) (old : list value) : M value :=
  let* n := pop_size in
  let* l := pop_loop (Z.to_nat n) one (fun x acc => acc ++ [x]) old in
  ret (VSeq l).

(** [sequence_traits_t<std::vector<T>>::pop], [T] a POD of [sizeof] k. *)
Definition pod_vector_pop (k : nat) (old : list value) : M value :=
  let* n := pop_size in
  let* xs := binary_pop_pointer szt k (resize 0 n (pod_value <$> old)) (u32 n) in
  ret (VSeq (VPod <$> xs)).

(** [associative_type_traits_t::pop]; [store] is the container's [insert]. *)
Definition associative_pop (onek onee : M value)
    (store : value -> list value -> list value) (old : list value) : M value :=
  let* n := pop_size in
  let* l := pop_loop (Z.to_nat n)
              (let* x := onek in let* y := onee in ret (VPair x y)) store old in
  ret (VSeq l).

(** [container_traits_t<std::set>::pop] and [container_traits_t<std::multiset>::pop]. *)
Definition set_pop (one : M value) (lt : value -> value -> bool) (old : list value) : M value :=
  let* n := pop_size in
  let* l := pop_loop (Z.to_nat n) one (map_insert lt) old in
  ret (VSeq l).
Definition multiset_pop (one : M value) (lt : value -> value -> bool) (old : list value) : M value :=
  let* n := pop_size in
  let* l := pop_loop (Z.to_nat n) one (multi_insert lt) old in
  ret (VSeq l).

(** [container_traits_t<T>::pop]; [old] is the value [val] has at the call. *)
Fixpoint container_pop (rec : ty -> value -> M value) (t : ty) (old : value) : M value :=
  match t with
  | TPair a b =>
      let* x := container_pop rec a (match old with VPair x _ => x | _ => old end) in
      let* y := container_pop rec b (match old with VPair _ y => y | _ => old end) in
      ret (VPair x y)
  | TTuple ts =>
      let* vs :=
        ((fix go (ts : list ty) (olds : list value) : M (list value) :=
           match ts with
           | [] => ret []
           | t1 :: ts' =>
               let* v1 := container_pop rec t1 (default (default_value t1) (head olds)) in
               let* vs := go ts' (tail olds) in
               ret (v1 :: vs)
           end) ts (seq_value old)) in
      ret (VSeq vs)
  | TVector e =>
      if is_pod e then pod_vector_pop (pod_size szt e) (seq_value old)
      else sequence_pop (container_pop rec e (default_value e)) (seq_value old)
  | TList e | TDeque e =>
      sequence_pop (container_pop rec e (default_value e)) (seq_value old)
  | TSet e => set_pop (container_pop rec e (default_value e)) (less e) (seq_value old)
  | TMultiset e =>
      multiset_pop (container_pop rec e (default_value e)) (less e) (seq_value old)
  | TMap k e =>
      associative_pop (container_pop rec k (default_value k))
        (container_pop rec e (default_value e)) (map_insert (less k)) (seq_value old)
  | TMultimap k e =>
      associative_pop (container_pop rec k (default_value k))
        (container_pop rec e (default_value e)) (multi_insert (less k)) (seq_value old)
  | _ => rec t old
  end.

(** The loop [for(i = 0; i != N; ++i) os >> val[i];]. *)
Fixpoint pop_each (f : value -> M value) (olds : list value) : M (list value) :=
  match olds with
  | [] => ret []
  | o :: olds' =>
      let* x := f o in
      let* xs := pop_each f olds' in
      ret (x :: xs)
  end.

(** [select_traits_t<T>::pop]. *)
Definition select_pop (rec : ty -> value -> M value) (t : ty) (old : value) : M value :=
  match t with
  | TPod n => let* z := binary_pop szt n in ret (VPod z)
  | TCharPtr cs =>
      match old with
      | VWild => ub                              (* an uninitialised pointer is passed on *)
      | _ =>
          let* len := binary_pop szt 4 in
          let* s := binary_pop_pointer szt cs (str_value old) len in
          ret (VStr s)
      end
  | TCharArr cs _ =>
      let* len := binary_pop szt 4 in
      let* s := binary_pop_pointer szt cs (str_value old) len in
      ret (VStr s)
  | TPodArr n cnt => let* xs := binary_pop_array szt n cnt in ret (VStr xs)
  | TArr e cnt =>
      if is_pod e
      then let* xs := binary_pop_array szt (pod_size szt e) cnt in ret (VSeq (VPod <$> xs))
      else let* l := pop_each (rec e) (seq_value old) in ret (VSeq l)
  | TPtr e => match old with VWild => ub | _ => rec e old end   (* [os >> *val] *)
  | TShared e => rec e (default_value e)
  | TString cs =>
      let* len := binary_pop szt 4 in
      let* s := binary_pop_pointer szt cs (resize 0 len (str_value old)) len in
      ret (VStr s)
  | _ => if is_container_t t then container_pop rec t old else ub
  end.

(** [os >> val]. *)
Fixpoint op_out (fuel : nat) (t : ty) (old : value) : M value :=
  match fuel with
  | O => diverge
  | S f => select_pop (op_out f) t old
  end.

End Dispatch.

(** ** The wire format

    The specification: the sequence of writer calls that [os << v] stands for,
    without dispatch, and the bytes they are in the binary format. *)

Inductive item : Type :=
| IScalar (n : nat) (z : Z)
| IArray (n : nat) (xs : list Z)
| IBlock (n : nat) (xs : list Z).

Definition run_item {A : InArchive} (i : item) : M unit :=
  match i with
  | IScalar n z => ar_push n z
  | IArray n xs => ar_push_array n xs
  | IBlock n xs => ar_push_pointer n xs (Z.of_nat (length xs))
  end.

Fixpoint run_items {A : InArchive} (l : list item) : M unit :=
  match l with
  | [] => ret tt
  | i :: l' => run_item i ;;; run_items l'
  end.

Definition item_bytes (i : item) : list Z :=
  match i with
  | IScalar n z => le_bytes n z
  | IArray n xs | IBlock n xs => flat n xs
  end.

Definition bytes_of (l : list item) : list Z := mjoin (item_bytes <$> l).

Arguments bytes_of : simpl never.

Definition length_item (nl : bool) (n : nat) : list item :=
  if nl then [IScalar 4 (Z.of_nat n)] else [].

Arguments length_item : simpl never.

Fixpoint items (szt : nat) (nl : bool) (t : ty) (v : value) : list item :=
  match t, v with
  | TPod n, VPod z => [IScalar n z]
  | TPodArr n _, VStr xs => [IArray n xs]
  | TString cs, VStr xs => length_item nl (length xs) ++ [IBlock cs xs]
  | TArr e _, VSeq l =>
      if is_pod e then [IArray (pod_size szt e) (pod_value <$> l)]
      else mjoin (items szt nl e <$> l)
  | TPtr e, _ | TShared e, _ => items szt nl e v
  | TPair a b, VPair x y => items szt nl a x ++ items szt nl b y
  | TTuple ts, VSeq vs =>
      (fix go (ts : list ty) (vs : list value) : list item :=
         match ts, vs with
         | t1 :: ts', v1 :: vs' => items szt nl t1 v1 ++ go ts' vs'
         | _, _ => []
         end) ts vs
  | TVector e, VSeq l =>
      length_item nl (length l) ++
      (if is_pod e then [IBlock (pod_size szt e) (pod_value <$> l)]
       else mjoin (items szt nl e <$> l))
  | TList e, VSeq l | TDeque e, VSeq l | TSet e, VSeq l | TMultiset e, VSeq l =>
      length_item nl (length l) ++ mjoin (items szt nl e <$> l)
  | TMap k e, VSeq l | TMultimap k e, VSeq l =>
      length_item nl (length l) ++
      mjoin ((fun kv => match kv with
                        | VPair x y => items szt nl k x ++ items szt nl e y
                        | _ => []
                        end) <$> l)
  | _, _ => []
  end.

(** The bytes of [v] in the binary format. *)
Definition encode (szt : nat) (t : ty) (v : value) : list Z := bytes_of (items szt true t v).

(** ** Well-typed values *)

Fixpoint strictly_sorted (lt : value -> value -> bool) (l : list value) : bool :=
  match l with
  | [] => true
  | x :: l' => forallb (fun y => lt (key x) (key y)) l' && strictly_sorted lt l'
  end.

Fixpoint weakly_sorted (lt : value -> value -> bool) (l : list value) : bool :=
  match l with
  | [] => true
  | x :: l' => forallb (fun y => negb (lt (key y) (key x))) l' && weakly_sorted lt l'
  end.

Definition in_range (n : nat) (z : Z) : bool :=
  (0 <=? z) && (z <? 2 ^ (8 * Z.of_nat n)).

Definition short {A} (l : list A) : bool := Z.of_nat (length l) <? 4294967296.

(** No pointer and no [std::shared_ptr] in the representation of a key: its
    [std::less] would order addresses. *)
Fixpoint no_pointers (t : ty) : bool :=
  match t with
  | TPod _ | TCharArr _ _ | TPodArr _ _ | TString _ => true
  | TArr e _ | TVector e | TList e | TDeque e | TSet e | TMultiset e => no_pointers e
  | TPair a b | TMap a b | TMultimap a b => no_pointers a && no_pointers b
  | TTuple ts => forallb no_pointers ts
  | _ => false
  end.

(** An element that is copied whole. *)
Definition pod_element (szt : nat) (e : ty) (v : value) : bool :=
  match v with VPod z => in_range (pod_size szt e) z | _ => false end.

Section Typing.
Context (szt : nat) (less : ty -> value -> value -> bool).

(** The values of the types the two operators treat alike. Character pointers
    (the reader needs a buffer), character arrays, unordered containers and
    containers ordered by addresses are left out: see the theorems about the
    first three. *)
Fixpoint well_typed (t : ty) (v : value) : bool :=
  match t, v with
  | TPod n, VPod z => in_range n z
  | TPodArr n cnt, VStr xs => (length xs =? cnt)%nat && forallb (in_range n) xs
  | TString cs, VStr xs => short xs && forallb (in_range cs) xs
  | TArr e cnt, VSeq l =>
      (length l =? cnt)%nat &&
      (if is_pod e then forallb (pod_element szt e) l else forallb (well_typed e) l)
  | TPtr e, _ | TShared e, _ => well_typed e v
  | TPair a b, VPair x y => well_typed a x && well_typed b y
  | TTuple ts, VSeq vs =>
      (fix go (ts : list ty) (vs : list value) : bool :=
         match ts, vs with
         | [], [] => true
         | t1 :: ts', v1 :: vs' => well_typed t1 v1 && go ts' vs'
         | _, _ => false
         end) ts vs
  | TVector e, VSeq l =>
      short l &&
      (if is_pod e then forallb (pod_element szt e) l else forallb (well_typed e) l)
  | TList e, VSeq l | TDeque e, VSeq l => short l && forallb (well_typed e) l
  | TSet e, VSeq l =>
      no_pointers e && short l && forallb (well_typed e) l && strictly_sorted (less e) l
  | TMultiset e, VSeq l =>
      no_pointers e && short l && forallb (well_typed e) l && weakly_sorted (less e) l
  | TMap k e, VSeq l =>
      no_pointers k && short l
      && forallb (fun kv => match kv with
                            | VPair x y => well_typed k x && well_typed e y
                            | _ => false end) l
      && strictly_sorted (less k) l
  | TMultimap k e, VSeq l =>
      no_pointers k && short l
      && forallb (fun kv => match kv with
                            | VPair x y => well_typed k x && well_typed e y
                            | _ => false end) l
      && weakly_sorted (less k) l
  | _, _ => false
  end.
End Typing.




(** Nesting depth, the fuel bound of the operators. *)
Fixpoint depth (t : ty) : nat :=
  match t with
  | TArr t _ | TPtr t | TShared t => S (depth t)
  | TPair a b | TMap a b | TMultimap a b => S (depth a `max` depth b)
  | TTuple ts => S (max_list (depth <$> ts))
  | TVector t | TList t | TDeque t | TSet t | TMultiset t | TUnordered t => S (depth t)
  | _ => 0%nat
  end.

Section TyInd.
Context (P : ty -> Prop).
Context (Hpod : forall n, P (TPod n)) (Hcp : forall cs, P (TCharPtr cs))
  (Hca : forall cs n, P (TCharArr cs n)) (Hpa : forall n c, P (TPodArr n c))
  (Harr : forall t c, P t -> P (TArr t c)) (Hptr : forall t, P t -> P (TPtr t))
  (Hsh : forall t, P t -> P (TShared t)) (Hstr : forall cs, P (TString cs))
  (Hpair : forall a b, P a -> P b -> P (TPair a b))
  (Htup : forall ts, Forall P ts -> P (TTuple ts))
  (Hvec : forall t, P t -> P (TVector t)) (Hlist : forall t, P t -> P (TList t))
  (Hdq : forall t, P t -> P (TDeque t))
  (Hmap : forall a b, P a -> P b -> P (TMap a b))
  (Hmm : forall a b, P a -> P b -> P (TMultimap a b))
  (Hset : forall t, P t -> P (TSet t)) (Hms : forall t, P t -> P (TMultiset t))
  (Hun : forall t, P t -> P (TUnordered t)).

(** Induction on type codes with the hypothesis for the parts of a tuple. *)
Fixpoint ty_ind' (t : ty) : P t :=
  match t with
  | TPod n => Hpod n | TCharPtr cs => Hcp cs | TCharArr cs n => Hca cs n
  | TPodArr n c => Hpa n c | TArr t c => Harr t c (ty_ind' t)
  | TPtr t => Hptr t (ty_ind' t) | TShared t => Hsh t (ty_ind' t)
  | TString cs => Hstr cs | TPair a b => Hpair a b (ty_ind' a) (ty_ind' b)
  | TTuple ts =>
      Htup ts ((fix go (ts : list ty) : Forall P ts :=
                  match ts with
                  | [] => Forall_nil_2 P
                  | t :: ts' => Forall_cons_2 P t ts' (ty_ind' t) (go ts')
                  end) ts)
  | TVector t => Hvec t (ty_ind' t) | TList t => Hlist t (ty_ind' t)
  | TDeque t => Hdq t (ty_ind' t)
  | TMap a b => Hmap a b (ty_ind' a) (ty_ind' b)
  | TMultimap a b => Hmm a b (ty_ind' a) (ty_ind' b)
  | TSet t => Hset t (ty_ind' t) | TMultiset t => Hms t (ty_ind' t)
  | TUnordered t => Hun t (ty_ind' t)
  end.
End TyInd.

(** Unfold the operations of the traits classes. *)
Ltac unfold_traits :=
  unfold sequence_push, pod_vector_push, associative_push, set_push, multiset_push,
    sequence_pop, pod_vector_pop, associative_pop, set_pop, multiset_pop.

(** ** Writing performs the writer calls of [items], in order

    For every writer (binary, text or empty) and on every path: a call that
    throws stops the sequence. *)

Section Push.
Context {A : InArchive} (szt : nat) (less : ty -> value -> value -> bool).

Lemma run_items_app a b : run_items (a ++ b) ≃ (run_items a ;;; run_items b).
Proof.
  induction a as [|i a IH]; cbn; [by rewrite bind_ret_l|].
  rewrite bind_assoc. by apply bind_proper; [|intros []].
Qed.

Lemma run_item_single i : run_items [i] ≃ run_item i.
Proof. cbn. apply bind_ret_r. Qed.

Lemma length_item_ok {B} (l : list B) : short l = true ->
  push_length_impl (Z.of_nat (length l)) ≃ run_items (length_item need_length (length l)).
Proof.
  unfold short, push_length_impl, length_item. intros H. bool_props.
  destruct need_length; [|done]. rewrite run_item_single. cbn.
  by rewrite u32_small by lia.
Qed.

Lemma push_each_ok (g : value -> M unit) (it : value -> list item) l :
  (forall v, v ∈ l -> g v ≃ run_items (it v)) ->
  push_each g l ≃ run_items (mjoin (it <$> l)).
Proof.
  induction l as [|v l IH]; intros H; [done|]. cbn.
  rewrite run_items_app. apply bind_proper; [apply H; set_solver|].
  intros []. apply IH. set_solver.
Qed.

Lemma seq_push_ok (g : value -> M unit) it l : short l = true ->
  (forall v, v ∈ l -> g v ≃ run_items (it v)) ->
  (push_length_impl (Z.of_nat (length l)) ;;; push_each g l)
  ≃ run_items (length_item need_length (length l) ++ mjoin (it <$> l)).
Proof.
  intros Hs H. rewrite run_items_app, length_item_ok by done.
  apply bind_proper; [done|]. intros []. by apply push_each_ok.
Qed.

Lemma block_push_length_ok n (xs : list Z) : short xs = true ->
  (push_length_impl (Z.of_nat (length xs)) ;;;
   ar_push_pointer n xs (u32 (Z.of_nat (length xs))))
  ≃ run_items (length_item need_length (length xs) ++ [IBlock n xs]).
Proof.
  intros Hs. rewrite run_items_app, length_item_ok by done.
  apply bind_proper; [done|]. intros []. rewrite run_item_single. cbn.
  unfold short in Hs. bool_props. by rewrite u32_small by lia.
Qed.

Definition push_ok (f : nat) (g : ty -> value -> M unit) (t : ty) : Prop :=
  forall v, well_typed szt less t v = true -> (depth t < f)%nat ->
    g t v ≃ run_items (items szt need_length t v).

Definition op_push_ok (t : ty) : Prop := forall f, push_ok f (op_in szt f) t.

Definition container_push_ok (t : ty) : Prop :=
  forall f, push_ok (f + if is_container_t t then 1 else 0)
    (container_push szt (op_in szt f)) t.

Lemma op_of_container t : is_container_t t = true ->
  container_push_ok t -> op_push_ok t.
Proof.
  intros Hc H [|f] v Hv Hf; [lia|]. specialize (H f v Hv).
  rewrite Hc in H. cbn [op_in].
  rewrite <- H by lia. by destruct t; destruct v; try discriminate Hc.
Qed.

Lemma container_of_op t : is_container_t t = false ->
  op_push_ok t -> container_push_ok t.
Proof.
  intros Hc H f v Hv Hf. rewrite Hc in Hf. specialize (H f v Hv).
  rewrite <- H by lia. by destruct t; destruct v; try discriminate Hc.
Qed.
Definition both_ok (t : ty) : Prop := op_push_ok t /\ container_push_ok t.

Lemma both_leaf t : is_container_t t = false -> op_push_ok t -> both_ok t.
Proof. split; [done | by apply container_of_op]. Qed.

Lemma both_container t : is_container_t t = true -> container_push_ok t -> both_ok t.
Proof. split; [by apply op_of_container | done]. Qed.

Lemma elements_ok (t : ty) f l : container_push_ok t ->
  forallb (well_typed szt less t) l = true -> (depth t < f)%nat ->
  forall v, v ∈ l -> container_push szt (op_in szt f) t v ≃ run_items (items szt need_length t v).
Proof.
  intros H Hl Hf v Hv. apply H; [|lia].
  rewrite forallb_forall in Hl. apply Hl. by apply list_elem_of_In.
Qed.

Lemma pairs_ok k e f l : container_push_ok k -> container_push_ok e ->
  forallb (fun kv => match kv with
                     | VPair x y => well_typed szt less k x && well_typed szt less e y
                     | _ => false end) l = true ->
  (depth k `max` depth e < f)%nat ->
  forall v, v ∈ l ->
    (match v with
     | VPair x y => container_push szt (op_in szt f) k x ;;; container_push szt (op_in szt f) e y
     | _ => ub end)
    ≃ run_items (match v with
                 | VPair x y => items szt need_length k x ++ items szt need_length e y
                 | _ => [] end).
Proof.
  intros Hk He Hl Hf v Hv. rewrite forallb_forall in Hl.
  apply list_elem_of_In in Hv. apply Hl in Hv. destruct v; try discriminate.
  bool_props. rewrite run_items_app. apply bind_proper; [apply Hk; [done|lia]|].
  intros []. apply He; [done|lia].
Qed.

Lemma tuple_ok ts : Forall both_ok ts -> container_push_ok (TTuple ts).
Proof.
  intros Hts f v. destruct v as [| | |vs| |]; try discriminate.
  cbn [well_typed depth is_container_t container_push items]. intros Hv Hf.
  assert (max_list (depth <$> ts) < f)%nat as Hd by lia. clear Hf.
  revert vs Hv Hd. induction Hts as [|t ts [_ Ht] _ IH]; intros [|v vs] Hv Hd;
    try discriminate; [done|].
  bool_props. cbn in Hd. rewrite run_items_app.
  apply bind_proper; [apply Ht; [done|lia]|]. intros []. apply IH; [done|].
  change (foldr max 0%nat) with max_list in Hd. lia.
Qed.

Lemma vector_ok t : both_ok t -> container_push_ok (TVector t).
Proof.
  intros [_ Ht] f v Hv Hf. destruct v as [| | |l| |]; try discriminate.
  cbn in Hv, Hf |- *. unfold_traits. bool_props. destruct (is_pod t) eqn:Ep.
  - rewrite <- (length_fmap pod_value l). apply block_push_length_ok.
    unfold short. by rewrite length_fmap.
  - apply seq_push_ok; [done|]. apply elements_ok; [done..|lia].
Qed.

Lemma not_wild t : well_typed szt less t VWild = false /\ well_typed szt less t VNull = false.
Proof. by induction t using ty_ind'. Qed.

Lemma pointer_ok t p : both_ok t -> p = TPtr t \/ p = TShared t -> both_ok p.
Proof.
  intros [Ht _] Hp. apply both_leaf; [by destruct Hp as [->| ->]|].
  intros [|f] v Hv Hf; [lia|].
  assert (v <> VWild /\ v <> VNull) as [? ?].
  { destruct (not_wild p) as [Hw Hn]. split; intros ->; congruence. }
  destruct Hp as [->| ->]; cbn in Hv, Hf; (etrans; [|apply (Ht f); [done|lia]]);
    by destruct v.
Qed.

Lemma push_items t : both_ok t.
Proof.
  induction t using ty_ind'.
  all: try (by eapply pointer_ok; eauto).
  all: try (by apply both_container, vector_ok).
  all: try (by apply both_container, tuple_ok).
  all: try (apply both_container; [done|]; intros f v Hv Hf;
            destruct v; try discriminate; cbn in Hv, Hf |- *; unfold_traits; bool_props;
            solve [ apply seq_push_ok; [done|]; apply elements_ok; [apply IHt|done|lia]
                  | apply seq_push_ok; [done|]; apply pairs_ok;
                    [apply IHt1|apply IHt2|done|lia]
                  | rewrite run_items_app; apply bind_proper;
                    [apply IHt1; [done|lia]|intros []; apply IHt2; [done|lia]] ]).
  all: try (apply both_leaf; [done|]; intros [|f] v Hv Hf; [lia|];
            destruct v; try discriminate; cbn in Hv, Hf |- *; bool_props).
  all: try by rewrite bind_ret_r.
  - destruct (is_pod t); [by rewrite run_item_single|].
    apply push_each_ok. intros v Hv. apply IHt; [|lia].
    rewrite forallb_forall in *. apply H0. by apply list_elem_of_In.
  - by apply block_push_length_ok.
Qed.
End Push.

(** The binary writer turns the calls into the bytes of the wire format. *)

Lemma bytes_of_app a b : bytes_of (a ++ b) = bytes_of a ++ bytes_of b.
Proof. unfold bytes_of. by rewrite fmap_app, join_app. Qed.

Lemma bytes_of_nil : bytes_of [] = [].
Proof. done. Qed.

Lemma bytes_of_cons i l : bytes_of (i :: l) = item_bytes i ++ bytes_of l.
Proof. done. Qed.


Section Binary.
Context (szt : nat) (Hszt : (4 <= szt)%nat).

Lemma run_item_binary i s : wf s -> room s (Z.of_nat (length (item_bytes i))) ->
  run_item (A := binary_in_t szt) i s = Ret tt (emit (item_bytes i) s).
Proof.
  intros Hwf Hr. destruct i; cbn in Hr |- *;
    rewrite ?length_le_bytes, ?length_flat in Hr.
  - by apply binary_push_ok.
  - by apply binary_push_array_ok.
  - by apply binary_push_pointer_ok.
Qed.

End Binary.

(** ** Reading inverts the wire format *)













Section Pop.
Context (less : ty -> value -> value -> bool).

Abbreviation op_out4 := (op_out 4 less).
Abbreviation container_pop4 := (container_pop 4 less).




























End Pop.

(** ** Round trip and bounds of the binary format *)

Section Theorems.
Context (less : ty -> value -> value -> bool).

Lemma op_in_run {A : InArchive} szt f t v : well_typed szt less t v = true -> (depth t < f)%nat ->
  op_in szt f t v ≃ run_items (items szt need_length t v).
Proof. intros. by apply (proj1 (push_items szt less t)). Qed.



(** A sequence of calls that does not fit stops with [out_of_range] at the first
    call that does not; what the calls before it wrote stays. *)
Lemma run_items_throws szt l s : (4 <= szt)%nat -> wf s ->
  ~ room s (Z.of_nat (length (bytes_of l))) ->
  in_pos s + Z.of_nat (length (bytes_of l)) < 4294967296 ->
  exists k, run_items (A := binary_in_t szt) l s
            = Throw out_of_range (emit (bytes_of (take k l)) s)
            /\ room s (Z.of_nat (length (bytes_of (take k l)))).
Proof.
  intros Hszt. revert s. induction l as [|i l IH]; intros s Hwf Hr Hb.
  { destruct Hr. rewrite bytes_of_nil. unfold room. cbn. pose proof (wf_in _ Hwf). lia. }
  rewrite bytes_of_cons, length_app in Hr, Hb. unfold room in Hr.
  destruct (decide (room s (Z.of_nat (length (item_bytes i))))) as [Hi|Hi];
    unfold room in Hi.
  - destruct (IH (emit (item_bytes i) s)) as (k & Hk & Hroom).
    + apply wf_emit; [done|unfold room; lia].
    + unfold room. cbn. lia.
    + cbn. lia.
    + unfold room in Hroom. cbn in Hroom.
      assert (room s (Z.of_nat (length (item_bytes i ++ bytes_of (take k l))))) as Hr2
        by (unfold room; rewrite length_app; lia).
      exists (S k). cbn [take run_items]. rewrite bytes_of_cons. split; [|done].
      erewrite bind_ret by by apply run_item_binary.
      rewrite Hk, emit_app by done. done.
  - exists 0%nat. cbn [take run_items]. rewrite bytes_of_nil, emit_nil by apply Hwf.
    split; [|unfold room; cbn; pose proof (wf_in _ Hwf); lia].
    pose proof (wf_in _ Hwf). apply bind_throw. destruct i; cbn in *;
      rewrite ?length_le_bytes, ?length_flat in *.
    + apply binary_push_throws; [done..|unfold room; lia|lia].
    + unfold binary_push_array. rewrite block_len' by (done || lia).
      rewrite u32_small by lia.
      destruct (buf_len s <? _) eqn:E; [done|bool_props; lia].
    + unfold binary_push_pointer. rewrite block_len' by (done || lia).
      rewrite u32_small by lia.
      destruct (buf_len s <? _) eqn:E; [done|bool_props; lia].
Qed.


(** [C9] Refinement of the dispatch: for every writer (binary, text, empty), either
    size of [std::size_t] and in every state, [os << v] behaves exactly as the
    sequence of writer calls the wire format prescribes for the well-typed value
    [v], whatever the calls do (return, throw or worse); the template recursion
    terminates within the nesting depth of the type. A vector or an array of PODs,
    pointers included, is one block of the elements' object representations. *)
Theorem dispatch_refines_format {A : InArchive} szt f t v s :
  well_typed szt less t v = true -> (depth t < f)%nat ->
  op_in szt f t v s = run_items (items szt need_length t v) s.
Proof. intros. by apply op_in_run. Qed.

(** [C11] Overflow of the window: if the encoding of a well-typed value does not fit,
    and the position plus the length of the encoding is below [2^32], [os << v]
    throws [std::out_of_range] after a prefix of the writer calls, and leaves a
    stream whose memory outside the written prefix is untouched; nothing is
    written past the window. (Beyond [2^32] the 32 bit sum [len + in_pos_] of
    [push_pointer] and [push_array] wraps and the test passes:
    [push_length_wraps].) *)
Theorem push_out_of_range f t v s :
  well_typed 4 less t v = true -> (depth t < f)%nat -> wf s ->
  ~ room s (Z.of_nat (length (encode 4 t v))) ->
  in_pos s + Z.of_nat (length (encode 4 t v)) < 4294967296 ->
  exists bs, op_in (A := binary_in_t 4) 4 f t v s = Throw out_of_range (emit bs s)
             /\ bs `prefix_of` encode 4 t v /\ room s (Z.of_nat (length bs)) /\ wf (emit bs s).
Proof.
  intros Ht Hf Hwf Hr Hb. rewrite (op_in_run (A := binary_in_t 4)) by done.
  destruct (run_items_throws 4 (items 4 true t v) s) as (k & Hrun & Hk); [lia|done..|].
  change (items 4 need_length t v) with (items 4 true t v). rewrite Hrun.
  eexists. split_and!; [done| |done|by apply wf_emit].
  exists (bytes_of (drop k (items 4 true t v))).
  unfold encode. by rewrite <- bytes_of_app, take_drop.
Qed.
End Theorems.

(** ** The types the operators are not inverse on, and the unprotected paths *)

Section Divergences.
Context (less : ty -> value -> value -> bool).

Lemma char_array_written f n xs s : length xs = n ->
  (char_length xs < n)%nat -> wf s -> room s (Z.of_nat (4 + char_length xs)) ->
  Z.of_nat n < 4294967296 ->
  op_in (A := binary_in_t 4) 4 (S f) (TCharArr 1 n) (VStr xs) s
  = Ret tt (emit (le_bytes 4 (Z.of_nat n) ++ flat 1 (take (char_length xs) xs)) s).
Proof.
  intros Hn Hc Hwf Hr Hb. cbn [op_in select_push]. unfold push_length_impl, room in *.
  cbn [need_length binary_in_t ar_push ar_push_pointer].
  rewrite u32_small by lia.
  erewrite bind_ret by (apply binary_push_ok; [lia|done|unfold room; lia]).
  replace (char_length xs =? length xs)%nat with false
    by (symmetry; apply Nat.eqb_neq; lia).
  assert (length (le_bytes 4 (Z.of_nat n)) = 4%nat) as Hl4 by done.
  assert (length (flat 1 (take (char_length xs) xs)) = char_length xs) as Hlc
    by (rewrite length_flat, length_take; lia).
  rewrite u32_small by lia. rewrite emit_app; [|done|unfold room; rewrite length_app; lia].
  apply binary_push_pointer_prefix; [lia|apply wf_emit; [done|unfold room; lia]|lia|].
  unfold room. cbn [in_pos buf_len emit]. lia.
Qed.

(** [char v[N]]: the writer announces [N] characters and writes
    [strlen(v)] of them, the reader consumes [N]. Read back from where it was
    written, a character array either fails or leaves the reader beyond the
    position where the writer stopped: the next value is misread. *)
Theorem char_array_desynchronises f n xs old s s1 v s2 :
  length xs = n -> (char_length xs < n)%nat ->
  wf s -> room s (Z.of_nat (4 + char_length xs)) ->
  in_pos s + 4 + Z.of_nat n < 4294967296 ->
  op_in (A := binary_in_t 4) 4 (S f) (TCharArr 1 n) (VStr xs) s = Ret tt s1 ->
  op_out 4 less (S f) (TCharArr 1 n) old (set_out_pos (in_pos s) s1) = Ret v s2 ->
  in_pos s1 = in_pos s + 4 + Z.of_nat (char_length xs) /\
  out_pos s2 = in_pos s + 4 + Z.of_nat n.
Proof.
  intros Hn Hc Hwf Hr Hb Hin Hout. pose proof Hwf as [_ _ ? _].
  rewrite char_array_written in Hin by (done || lia).
  assert (s1 = emit (le_bytes 4 (Z.of_nat n) ++ flat 1 (take (char_length xs) xs)) s)
    as -> by congruence. clear Hin.
  assert (length (flat 1 (take (char_length xs) xs)) = char_length xs) as Hlc
    by (rewrite length_flat, length_take; lia).
  set (bs := le_bytes 4 (Z.of_nat n) ++ _) in *.
  assert (length bs = (4 + char_length xs)%nat) as Hlb
    by (unfold bs; rewrite length_app, length_le_bytes; lia).
  split; [cbn [in_pos emit]; lia|].
  assert (room s (Z.of_nat (length bs))) as Hrb by by rewrite Hlb.
  set (s' := set_out_pos (in_pos s) (emit bs s)) in *.
  assert (wf s') as Hwf'.
  { destruct (wf_emit bs s Hwf Hrb) as []. destruct Hwf. unfold room in Hr.
    split; cbn in *; lia. }
  assert (avail s' bs) as Ha by by apply (avail_emit bs s).
  apply avail_app in Ha as [Ha _]; [|done].
  cbn [op_out select_pop] in Hout. unfold bind at 1 in Hout.
  rewrite (binary_pop_ok 4 ltac:(lia) 4 (Z.of_nat n)) in Hout; [|done| |done].
  2: { change (2 ^ (8 * Z.of_nat 4)) with 4294967296. lia. }
  apply bind_Ret_inv in Hout as (xs' & s3 & Hp & Hout). injection Hout as _ <-.
  apply binary_pop_pointer_Ret in Hp; [|lia|lia].
  rewrite Hp, Nat.mul_1_l. cbn [out_pos advance set_out_pos s'].
  rewrite u32_small by lia. lia.
Qed.

(** The unordered containers are classified as containers and have no
    [container_traits_t] of their own: [operator<<] on one calls itself for ever
    and never returns, for any writer, value and depth of recursion. *)
Theorem unordered_never_returns {A : InArchive} szt f t v s :
  op_in szt f (TUnordered t) v s = OutOfFuel /\
  op_out 4 less f (TUnordered t) v s = OutOfFuel.
Proof. split; by induction f as [|f IH]; [|destruct v]. Qed.

(** A [size_t] of 8 bytes (the x64 configuration): the writer sends a length
    of 4 bytes and the reader takes [sizeof(size_type) = 8]; an empty list written
    at the end of the window cannot be read back. *)
Theorem size_t_mismatch f t old s :
  wf s -> room s 4 -> buf_len s < in_pos s + 8 -> in_pos s + 8 < 4294967296 ->
  exists s1, op_in (A := binary_in_t 8) 8 (S f) (TList t) (VSeq []) s = Ret tt s1 /\
    op_out 8 less (S f) (TList t) old (set_out_pos (in_pos s) s1)
    = Throw out_of_range (set_out_pos (in_pos s) s1).
Proof.
  intros Hwf Hr Hb H8. exists (emit (le_bytes 4 0) s). split.
  - cbn [op_in select_push is_container_t container_push]. unfold_traits.
    erewrite bind_ret; [|by apply (binary_push_ok 8 ltac:(lia) 4 0)]. done.
  - cbn [op_out select_pop is_container_t container_pop]. unfold_traits.
    apply bind_throw, binary_pop_throws; [lia| |cbn; lia|cbn; lia].
    destruct (wf_emit (le_bytes 4 0) s Hwf Hr) as []. destruct Hwf.
    unfold room in Hr. split; cbn in *; lia.
Qed.

(** A string length close to [2^32] on the wire defeats the reader's bounds
    test: the 32 bit sum wraps and the read leaves the memory. *)
Theorem string_length_wraps f old s :
  wf s -> out_pos s + 4 <= buf_len s -> Z.of_nat (length (mem s)) < 4294967296 ->
  avail s (le_bytes 4 (4294967296 - (out_pos s + 4))) ->
  op_out 4 less (S f) (TString 1) old s = UB.
Proof.
  intros Hwf Ho Hm Ha. cbn [op_out select_pop]. pose proof Hwf as [].
  unfold bind at 1.
  rewrite (binary_pop_ok 4 ltac:(lia) 4 (4294967296 - (out_pos s + 4))); [|done| |done].
  2: { change (2 ^ (8 * Z.of_nat 4)) with 4294967296. lia. }
  unfold bind. change (out_pos s + 4) with (out_pos (advance 4 s)).
  rewrite binary_pop_pointer_wraps; [done|lia| |cbn; lia|done].
  apply wf_advance; [done|lia].
Qed.
(** The writer's test wraps in the same way: a string that reaches past [2^32]
    passes it and is written outside the memory. *)
Theorem push_length_wraps f xs s :
  wf s -> room s 4 -> short xs = true -> Z.of_nat (length (mem s)) < 4294967296 ->
  4294967296 <= in_pos s + 4 + Z.of_nat (length xs) ->
  in_pos s + 4 + Z.of_nat (length xs) - 4294967296 <= buf_len s ->
  op_in (A := binary_in_t 4) 4 (S f) (TString 1) (VStr xs) s = UB.
Proof.
  unfold short. intros Hwf Hr Hs Hm Hw Hb. bool_props. pose proof Hwf as [].
  cbn [op_in select_push]. unfold push_length_impl, room in *.
  cbn [need_length binary_in_t ar_push ar_push_pointer]. rewrite u32_small by lia.
  set (L := Z.of_nat (length xs)) in *.
  erewrite bind_ret by (apply binary_push_ok; [lia|done|unfold room; lia]).
  assert (in_pos (emit (le_bytes 4 L) s) = in_pos s + 4) as Hp by done.
  assert (buf_len (emit (le_bytes 4 L) s) = buf_len s) as Hbl by done.
  assert (length (mem (emit (le_bytes 4 L) s)) = length (mem s)) as Hml
    by (apply length_emit; [done|unfold room; rewrite length_le_bytes; lia]).
  unfold binary_push_pointer. rewrite Hp, Hbl.
  replace (u32 (size_t 4 (Z.of_nat 1 * L))) with L
    by (rewrite size_t_small by lia; rewrite Z.mul_1_l, u32_small; lia).
  replace (u32 (L + (in_pos s + 4))) with (in_pos s + 4 + L - 4294967296).
  2: { unfold u32. apply (Z.mod_unique _ _ 1); lia. }
  destruct (buf_len s <? _) eqn:E1; [bool_props; lia|]. clear E1.
  destruct (Z.of_nat (1 * length xs) <? L) eqn:E2; [bool_props; lia|]. clear E2.
  unfold bind, memory_write. rewrite Hml, length_take, length_flat.
  destruct (_ && _) eqn:E; [|done]. bool_props. lia.
Qed.

(** The readers of the containers declare [value_type element;] and pop into it: of
    a pointer type it is uninitialised, and [os >> *val] writes through it. A
    [std::list<T *>] that was written cannot be read back unless it is empty. *)
Theorem pointer_elements_undefined f t s n :
  wf s -> avail s (le_bytes 4 n) -> 0 < n < 4294967296 ->
  op_out 4 less (S (S f)) (TList (TPtr t)) (VSeq []) s = UB /\
  op_out 4 less (S (S f)) (TDeque (TPtr t)) (VSeq []) s = UB /\
  op_out 4 less (S (S f)) (TSet (TPtr t)) (VSeq []) s = UB.
Proof.
  intros Hwf Ha Hn.
  assert (binary_pop 4 4 s = Ret n (advance 4 s)) as Hp.
  { apply (binary_pop_ok 4 ltac:(lia) 4 n); [done| |done].
    change (2 ^ (8 * Z.of_nat 4)) with 4294967296. lia. }
  assert (exists k, Z.to_nat n = S k) as [k Hk] by (exists (Z.to_nat (n - 1)); lia).
  cbn [op_out select_pop is_container_t container_pop]. unfold_traits. unfold pop_size, bind.
  rewrite Hp, Hk. by split_and!.
Qed.

(** A vector of pointers is taken for a vector of PODs: what is written is the
    length and the addresses, at the writer's pointer size, and not what they
    point to. *)
Theorem pointer_vector_writes_addresses {A : InArchive} szt f t (addrs : list Z) s :
  short addrs = true -> forallb (in_range szt) addrs = true ->
  op_in szt (S (S (S (depth t + f)))) (TVector (TPtr t)) (VSeq (VPod <$> addrs)) s
  = run_items (length_item need_length (length addrs) ++ [IBlock szt addrs]) s.
Proof.
  intros Hs Hr.
  assert (forallb (pod_element szt (TPtr t)) (VPod <$> addrs) = true) as Hp
    by (clear Hs; induction addrs as [|z l IH]; [done|]; cbn in *; bool_props;
        apply andb_true_iff; auto).
  rewrite (op_in_run less szt); [|cbn; rewrite Hp; unfold short in *; by rewrite length_fmap, Hs|cbn; lia].
  cbn [items is_pod pod_size]. rewrite length_fmap, <- list_fmap_compose.
  replace (pod_value ∘ VPod <$> addrs) with addrs; [done|].
  symmetry. apply list_fmap_id.
Qed.
End Divergences.

(** ** Instances of the theorems *)

(** [std::less] on scalars and on strings. *)
Fixpoint lex_less (a b : list Z) : bool :=
  match a, b with
  | _, [] => false
  | [], _ :: _ => true
  | x :: a', y :: b' => (x <? y) || ((x =? y) && lex_less a' b')
  end.

Definition std_less (t : ty) (a b : value) : bool :=
  match a, b with
  | VPod x, VPod y => x <? y
  | VStr x, VStr y => lex_less x y
  | _, _ => false
  end.

(** A [std::map<std::string, std::vector<short>>] next to an [int *]. *)
Definition demo_ty : ty := TPair (TPtr (TPod 4)) (TMap (TString 1) (TVector (TPod 2))).
Definition demo_value : value :=
  VPair (VPod 305419896)
    (VSeq [VPair (VStr [97]) (VSeq [VPod 1; VPod 65535]);
           VPair (VStr [97; 98]) (VSeq [])]).
Definition demo_stream (n : nat) : stream := serialize_t (replicate n 0) (Z.of_nat n).

Lemma demo_wf n : Z.of_nat n < 4294967296 -> wf (demo_stream n).
Proof.
  intros. split; cbn [demo_stream serialize_t mem buf_len in_pos out_pos];
    rewrite ?length_replicate; lia.
Qed.


Lemma dispatch_refines_format_witness :
  op_in (A := text_in_t 4) 4 5 demo_ty demo_value (demo_stream 4)
  = run_items (A := text_in_t 4) (items 4 false demo_ty demo_value) (demo_stream 4).
Proof.
  apply (dispatch_refines_format (A := text_in_t 4) std_less 4 5 demo_ty demo_value);
    [reflexivity|cbn; lia].
Defined.

Lemma push_out_of_range_witness :
  exists bs, op_in (A := binary_in_t 4) 4 5 demo_ty demo_value (demo_stream 10)
             = Throw out_of_range (emit bs (demo_stream 10))
             /\ bs `prefix_of` encode 4 demo_ty demo_value
             /\ room (demo_stream 10) (Z.of_nat (length bs))
             /\ wf (emit bs (demo_stream 10)).
Proof.
  apply (push_out_of_range std_less 5 demo_ty demo_value (demo_stream 10));
    [reflexivity|cbn; lia|apply demo_wf; lia|vm_compute; intros H; by apply H|].
  vm_compute. reflexivity.
Defined.

(** [char a[4] = "ab"] followed by four more bytes. *)
Definition demo_array_written : stream :=
  emit (le_bytes 4 4 ++ [97; 98]) (demo_stream 16).
Definition demo_array_read : stream := set_out_pos 8 demo_array_written.

Lemma char_array_desynchronises_witness :
  in_pos demo_array_written = 0 + 4 + 2 /\ out_pos demo_array_read = 0 + 4 + 4.
Proof.
  apply (char_array_desynchronises std_less 0 4 [97; 98; 0; 0] (VStr [0; 0; 0; 0])
           (demo_stream 16) demo_array_written (VStr [97; 98; 0; 0]) demo_array_read);
    [reflexivity|cbn; lia|apply demo_wf; lia|vm_compute; discriminate
    |vm_compute; reflexivity|vm_compute; reflexivity|vm_compute; reflexivity].
Defined.

Lemma size_t_mismatch_witness :
  exists s1, op_in (A := binary_in_t 8) 8 1 (TList (TPod 4)) (VSeq []) (demo_stream 4) = Ret tt s1 /\
    op_out 8 std_less 1 (TList (TPod 4)) (VSeq []) (set_out_pos 0 s1)
    = Throw out_of_range (set_out_pos 0 s1).
Proof.
  apply (size_t_mismatch std_less 0 (TPod 4) (VSeq []) (demo_stream 4));
    [apply demo_wf; lia|vm_compute; discriminate|reflexivity|reflexivity].
Defined.

(** A window of 8 bytes that starts with the length 0xFFFFFFFC. *)
Definition demo_attack : stream := Stream [252; 255; 255; 255; 0; 0; 0; 0] 8 0 0.

Lemma string_length_wraps_witness :
  avail demo_attack (le_bytes 4 4294967292) /\
  op_out 4 std_less 1 (TString 1) (VStr []) demo_attack = UB.
Proof.
  assert (avail demo_attack (le_bytes 4 4294967292)) as Ha
    by (split; [vm_compute; discriminate|reflexivity]).
  split; [exact Ha|].
  apply (string_length_wraps std_less 0 (VStr []) demo_attack);
    [split; vm_compute; intuition discriminate|vm_compute; discriminate|reflexivity|exact Ha].
Defined.
