(* ===== verification/Memory.v ===== *)
(** * Memory blocks and intrusive free lists

    Shared by the two pools of include/memory_pool: a byte-addressed memory, the
    accounting of address ranges ([cover]), the chains of free blocks linked
    through their own first word, and rounding up to an alignment. *)

From S2P Require Import Prelude.

(** ** Byte-addressed memory *)

Definition heap : Type := Z -> Z.

Definition store (a : Z) (bs : list Z) (m : heap) : heap := fun x =>
  if (a <=? x) && (x <? a + Z.of_nat (length bs))
  then nth (Z.to_nat (x - a)) bs 0
  else m x.

Definition load (a : Z) (n : nat) (m : heap) : list Z :=
  (fun i => m (a + Z.of_nat i)) <$> seq 0 n.

(** [::memmove(dst, src, n)]. *)
Definition memmove (dst src : Z) (n : nat) (m : heap) : heap :=
  store dst (load src n m) m.

Lemma store_in a bs m x : a <= x < a + Z.of_nat (length bs) ->
  store a bs m x = nth (Z.to_nat (x - a)) bs 0.
Proof.
  intros. unfold store. destruct ((a <=? x) && _) eqn:E; [done|].
  bool_props. destruct E; bool_props; lia.
Qed.

Lemma store_out a bs m x : x < a \/ a + Z.of_nat (length bs) <= x ->
  store a bs m x = m x.
Proof.
  intros. unfold store. destruct ((a <=? x) && _) eqn:E; [bool_props; lia|done].
Qed.

Lemma length_load a n m : length (load a n m) = n.
Proof. unfold load. by rewrite length_fmap, length_seq. Qed.

Lemma load_lookup a n m i : (i < n)%nat -> load a n m !! i = Some (m (a + Z.of_nat i)).
Proof. intros. unfold load. by rewrite list_lookup_fmap, lookup_seq_lt. Qed.

Lemma load_ext a n m m' : (forall x, a <= x < a + Z.of_nat n -> m x = m' x) ->
  load a n m = load a n m'.
Proof.
  intros H. apply list_fmap_ext. intros i j Hj. apply lookup_seq in Hj as [-> ?]. apply H. lia.
Qed.

Lemma load_store_eq a bs m : load a (length bs) (store a bs m) = bs.
Proof.
  apply list_eq. intros i. destruct (decide (i < length bs)%nat) as [Hi|Hi].
  - rewrite load_lookup by done. rewrite store_in by lia.
    replace (Z.to_nat (a + Z.of_nat i - a)) with i by lia.
    rewrite nth_lookup. destruct (lookup_lt_is_Some_2 bs i Hi) as [b ->]. done.
  - rewrite !lookup_ge_None_2; [done|lia|rewrite length_load; lia].
Qed.

Lemma load_store_ne a b n bs m :
  b + Z.of_nat n <= a \/ a + Z.of_nat (length bs) <= b ->
  load b n (store a bs m) = load b n m.
Proof. intros. apply load_ext. intros x Hx. apply store_out. lia. Qed.

(** ** Address ranges

    A block is an address and a size. [cover x l] counts the blocks of [l] that
    contain the byte [x]: splitting, joining and reordering blocks are equations
    between counts, and "no two blocks overlap" is [cover x l <= 1]. *)

Definition block : Type := Z * Z.

Definition contains (x : Z) (b : block) : bool := (b.1 <=? x) && (x <? b.1 + b.2).

Definition hit (x : Z) (b : block) : nat := if contains x b then 1 else 0.

Fixpoint cover (x : Z) (l : list block) : nat :=
  match l with
  | [] => 0
  | b :: l' => hit x b + cover x l'
  end.

Lemma cover_app x a b : cover x (a ++ b) = (cover x a + cover x b)%nat.
Proof. induction a as [|c a IH]; cbn; [done|]. rewrite IH. lia. Qed.

#[export] Instance cover_perm x : Proper ((≡ₚ) ==> eq) (cover x).
Proof. intros l1 l2 H. induction H; cbn; lia. Qed.

Lemma hit_true x b : contains x b = true -> hit x b = 1%nat.
Proof. unfold hit. by intros ->. Qed.

Lemma hit_in x a n : a <= x < a + n -> hit x (a, n) = 1%nat.
Proof.
  intros. apply hit_true. unfold contains. cbn. apply andb_true_iff. split.
  - apply Z.leb_le. lia.
  - apply Z.ltb_lt. lia.
Qed.

Lemma hit_out x a n : x < a \/ a + n <= x -> hit x (a, n) = 0%nat.
Proof.
  intros. unfold hit, contains. cbn. destruct ((a <=? x) && _) eqn:E; [bool_props; lia|done].
Qed.

Lemma hit_cases x a n :
  (a <= x < a + n /\ hit x (a, n) = 1%nat) \/ ((x < a \/ a + n <= x) /\ hit x (a, n) = 0%nat).
Proof.
  destruct (decide (a <= x < a + n)); [left|right]; split; try lia.
  - by apply hit_in.
  - apply hit_out. lia.
Qed.

(** A block is as good as its two parts. *)
Lemma hit_split x a n k : 0 <= k <= n ->
  hit x (a, n) = (hit x (a, k) + hit x (a + k, n - k)%Z)%nat.
Proof.
  intros. destruct (hit_cases x a n) as [[? ->]|[? ->]],
    (hit_cases x a k) as [[? ->]|[? ->]], (hit_cases x (a + k) (n - k)) as [[? ->]|[? ->]]; lia.
Qed.

Lemma hit_empty x a : hit x (a, 0) = 0%nat.
Proof. apply hit_out. lia. Qed.

Lemma cover_elem x b l : b ∈ l -> (hit x b <= cover x l)%nat.
Proof. induction 1; cbn; lia. Qed.

(** The consecutive blocks [a, a + n, ..., a + (k-1) n]. *)
Fixpoint run (a n : Z) (k : nat) : list Z :=
  match k with
  | O => []
  | S k' => a :: run (a + n) n k'
  end.

Definition sized (n : Z) (l : list Z) : list block := (fun a => (a, n)) <$> l.

Lemma cover_run x a n k : 0 <= n ->
  cover x (sized n (run a n k)) = hit x (a, Z.of_nat k * n).
Proof.
  intros Hn. revert a. induction k as [|k IH]; intros a.
  - cbn. by rewrite hit_empty.
  - cbn [run sized fmap list_fmap cover]. change (fmap _ (run _ _ _)) with (sized n (run (a + n) n k)).
    rewrite IH. rewrite (hit_split x a (Z.of_nat (S k) * n) n) by nia.
    do 2 f_equal. f_equal. lia.
Qed.

Lemma elem_of_run b a n k : 0 <= n -> b ∈ run a n k -> a <= b /\ b + n <= a + Z.of_nat k * n.
Proof.
  intros Hn. revert a. induction k as [|k IH]; intros a Hb; [set_solver|].
  cbn in Hb. apply elem_of_cons in Hb as [->|Hb]; [nia|]. apply IH in Hb. nia.
Qed.

Lemma run_mod b a n k : b ∈ run a n k -> (b - a) mod n = 0.
Proof.
  revert a. induction k as [|k IH]; intros a Hb; [set_solver|].
  cbn in Hb. apply elem_of_cons in Hb as [->|Hb]; [by rewrite Z.sub_diag|].
  apply IH in Hb. replace (b - a) with (b - (a + n) + 1 * n) by lia.
  destruct (decide (n = 0)) as [->|]; [|by rewrite Z.mod_add].
  rewrite Zmod_0_r in *. lia.
Qed.

(** ** Chains of free blocks

    [union obj { union obj *pFreeListLink; char clientData[1]; }]: the first word
    of a free block points to the next one, 0 ends the chain. *)

Section Chain.
Context (psz : nat).   (* sizeof(void * ) *)

Definition load_ptr (m : heap) (a : Z) : Z := le_value (load a psz m).
Definition store_ptr (a v : Z) (m : heap) : heap := store a (le_bytes psz v) m.

Lemma load_store_ptr a v m : 0 <= v < 2 ^ (8 * Z.of_nat psz) ->
  load_ptr (store_ptr a v m) a = v.
Proof.
  intros. unfold load_ptr, store_ptr.
  rewrite <- (length_le_bytes psz v) at 1. rewrite load_store_eq.
  by apply le_value_bytes_small.
Qed.

Lemma store_ptr_out a v m x : x < a \/ a + Z.of_nat psz <= x -> store_ptr a v m x = m x.
Proof. intros. apply store_out. by rewrite length_le_bytes. Qed.

Lemma load_store_ptr_ne a b v m :
  b + Z.of_nat psz <= a \/ a + Z.of_nat psz <= b ->
  load_ptr (store_ptr a v m) b = load_ptr m b.
Proof.
  intros. unfold load_ptr, store_ptr. by rewrite load_store_ne by by rewrite length_le_bytes.
Qed.

Fixpoint chain (m : heap) (h : Z) (l : list Z) : Prop :=
  match l with
  | [] => h = 0
  | a :: l' => h = a /\ a <> 0 /\ chain m (load_ptr m a) l'
  end.

(** A chain only depends on the first words of its blocks. *)
Lemma chain_ext m m' h l :
  (forall a x, a ∈ l -> a <= x < a + Z.of_nat psz -> m x = m' x) ->
  chain m h l -> chain m' h l.
Proof.
  revert h. induction l as [|a l IH]; intros h Hx Hc; [done|].
  destruct Hc as (-> & Ha & Hc). split_and!; [done..|].
  unfold load_ptr in *. rewrite <- (load_ext a psz m m').
  - apply IH; [|done]. intros. eapply Hx; [|done]. set_solver.
  - intros x Hin. eapply Hx; [|done]. set_solver.
Qed.

End Chain.

(** ** Rounding up

    [((bytes) + A - 1) & ~(A - 1)] at type [size_t], [A] a power of two. *)

Section Round.
Context (w k : Z) (Hk : 0 <= k <= w).

Definition round_up (bytes : Z) : Z :=
  Z.land (wrap w (bytes + 2 ^ k - 1)) (wrap w (Z.lnot (2 ^ k - 1))).

Lemma round_up_spec bytes : 0 <= bytes -> bytes + 2 ^ k - 1 < 2 ^ w ->
  round_up bytes = 2 ^ k * ((bytes + 2 ^ k - 1) / 2 ^ k).
Proof.
  intros H0 Hb. assert (0 < 2 ^ k) by (apply Z.pow_pos_nonneg; lia).
  unfold round_up. rewrite wrap_small by lia.
  unfold wrap. rewrite <- Z.land_ones by lia.
  rewrite (Z.land_comm (Z.lnot _)), Z.land_assoc, Z.land_ones by lia.
  rewrite (Z.mod_small (bytes + 2 ^ k - 1)) by lia.
  rewrite <- Z.ldiff_land. replace (2 ^ k - 1) with (Z.ones k)
    by (rewrite Z.ones_equiv; lia).
  rewrite Z.ldiff_ones_r, Z.shiftl_mul_pow2, Z.shiftr_div_pow2 by lia.
  apply Z.mul_comm.
Qed.

Lemma round_up_bounds bytes : 0 <= bytes -> bytes + 2 ^ k - 1 < 2 ^ w ->
  bytes <= round_up bytes < bytes + 2 ^ k /\ round_up bytes mod 2 ^ k = 0.
Proof.
  intros H0 Hb. assert (0 < 2 ^ k) by (apply Z.pow_pos_nonneg; lia).
  rewrite round_up_spec by done. split.
  - pose proof (Z.div_mod (bytes + 2 ^ k - 1) (2 ^ k)).
    pose proof (Z.mod_pos_bound (bytes + 2 ^ k - 1) (2 ^ k)). lia.
  - rewrite Z.mul_comm. by apply Z.mod_mul; lia.
Qed.
End Round.
