(* ===== verification/MallocPool.v ===== *)
(** * The C allocator and [malloc_pool]

    include/memory_pool/sgi_malloc_pool.hpp. The C functions [malloc], [free] and
    [realloc] are an interface, [Libc], with the promises of the C standard as the
    laws [LibcLaws]; [malloc_pool] is modelled over it, with its out-of-memory
    handler, a global pointer to client code. *)

From S2P Require Import Prelude Memory.

(** ** The C allocator *)

(** [owned] is the list of the blocks handed out and not yet given back (the
    reserve an out-of-memory handler may release is not counted). *)
Class Libc (O : Type) := {
  owned : O -> list block;
  malloc : Z -> heap * O -> Z * (heap * O);
  free : Z -> heap * O -> option (heap * O);
  realloc : Z -> Z -> heap * O -> option (Z * (heap * O));
}.

(** [m'] has the bytes of [m] on the blocks [l]. *)
Definition agree (l : list block) (m m' : heap) : Prop :=
  forall x, (1 <= cover x l)%nat -> m' x = m x.

(** A block a [w]-bit allocator may return. *)
Definition placed (w p n : Z) : Prop := 0 < p /\ p + n < 2 ^ w /\ p mod 8 = 0.

Class LibcLaws (w : Z) (O : Type) `{Libc O} := {
  valid : O -> Prop;
  valid_disjoint o x : valid o -> (cover x (owned o) <= 1)%nat;
  malloc_law n m o p m' o' :
    valid o -> 0 < n < 2 ^ w -> malloc n (m, o) = (p, (m', o')) ->
    valid o' /\ agree (owned o) m m' /\
    ((p = 0 /\ owned o' ≡ₚ owned o) \/ (placed w p n /\ owned o' ≡ₚ (p, n) :: owned o));
  free_law p n r m o :
    valid o -> owned o ≡ₚ (p, n) :: r ->
    exists m' o', free p (m, o) = Some (m', o') /\ valid o' /\ owned o' ≡ₚ r /\ agree r m m';
  realloc_law p n n' r m o :
    valid o -> owned o ≡ₚ (p, n) :: r -> 0 < n' < 2 ^ w ->
    exists q m' o', realloc p n' (m, o) = Some (q, (m', o')) /\ valid o' /\
      ((q = 0 /\ owned o' ≡ₚ owned o /\ agree (owned o) m m') \/
       (placed w q n' /\ owned o' ≡ₚ (q, n') :: r /\ agree r m m' /\
        load q (Z.to_nat (Z.min n n')) m' = load p (Z.to_nat (Z.min n n')) m));
}.
Arguments valid w {O _ _} _.

Lemma agree_refl l m : agree l m m.
Proof. done. Qed.

Lemma agree_trans l m1 m2 m3 : agree l m1 m2 -> agree l m2 m3 -> agree l m1 m3.
Proof. intros H1 H2 x Hx. by rewrite H2, H1. Qed.

Lemma agree_weaken l l' m m' :
  (forall x, (cover x l <= cover x l')%nat) -> agree l' m m' -> agree l m m'.
Proof. intros Hl H x Hx. apply H. specialize (Hl x). lia. Qed.

#[export] Instance agree_perm : Proper ((≡ₚ) ==> eq ==> eq ==> iff) agree.
Proof. intros l l' Hl m ? <- m' ? <-. unfold agree. by setoid_rewrite Hl. Qed.

(** ** A bump allocator

    A concrete [Libc]: addresses grow, a block is never reused. It witnesses that
    the laws can hold and runs the pools on concrete inputs. *)

Module Bump.

Record t := Mk { next : Z; limit : Z; blocks : list block }.

Definition step (n : Z) : Z := (n + 7) / 8 * 8.

Definition alloc (n : Z) (s : heap * t) : Z * (heap * t) :=
  let '(m, o) := s in
  if next o + step n <? limit o
  then (next o, (m, Mk (next o + step n) (limit o) ((next o, n) :: blocks o)))
  else (0, s).

Fixpoint size_of (p : Z) (l : list block) : option Z :=
  match l with
  | [] => None
  | (a, n) :: l' => if p =? a then Some n else size_of p l'
  end.

Fixpoint remove (p : Z) (l : list block) : list block :=
  match l with
  | [] => []
  | (a, n) :: l' => if p =? a then l' else (a, n) :: remove p l'
  end.

Definition release (p : Z) (s : heap * t) : option (heap * t) :=
  let '(m, o) := s in
  match size_of p (blocks o) with
  | Some _ => Some (m, Mk (next o) (limit o) (remove p (blocks o)))
  | None => None
  end.

Definition resize (p n : Z) (s : heap * t) : option (Z * (heap * t)) :=
  match size_of p (blocks s.2) with
  | None => None
  | Some n0 =>
      let '(q, (m, o)) := alloc n s in
      if q =? 0 then Some (q, (m, o))
      else
        let m' := memmove q p (Z.to_nat (Z.min n0 n)) m in
        match release p (m', o) with
        | Some s' => Some (q, s')
        | None => None
        end
  end.

#[export] Instance libc : Libc t :=
  {| owned := blocks; malloc := alloc; free := release; realloc := resize |}.

Definition good (w : Z) (o : t) : Prop :=
  0 < next o /\ next o mod 8 = 0 /\ limit o <= 2 ^ w /\
  (forall b, b ∈ blocks o -> b.1 + b.2 <= next o /\ 0 < b.2) /\
  (forall x, (cover x (blocks o) <= 1)%nat).

Lemma step_ok n : 0 < n -> n <= step n /\ step n mod 8 = 0.
Proof.
  intros. unfold step. split; [|by apply Z.mod_mul].
  pose proof (Z.div_mod (n + 7) 8). pose proof (Z.mod_pos_bound (n + 7) 8). lia.
Qed.

Lemma above l x a : (forall b, b ∈ l -> b.1 + b.2 <= a) -> a <= x -> cover x l = 0%nat.
Proof.
  induction l as [|[p n] l IH]; intros Hl Hx; [done|]. cbn [cover].
  rewrite IH by (try done; intros; apply Hl; set_solver).
  rewrite hit_out; [done|]. specialize (Hl (p, n) ltac:(set_solver)). cbn in Hl. lia.
Qed.

(** Two distinct live blocks start at distinct addresses. *)
Lemma remove_perm p n r l :
  (forall x, (cover x l <= 1)%nat) -> (forall b, b ∈ l -> 0 < b.2) ->
  l ≡ₚ (p, n) :: r -> size_of p l = Some n /\ remove p l ≡ₚ r.
Proof.
  revert r. induction l as [|[a k] l IH]; intros r Hd Hs Hp.
  - by apply Permutation_nil_cons in Hp.
  - cbn [size_of remove]. assert (Hin : (p, n) ∈ (a, k) :: l) by (rewrite Hp; set_solver).
    destruct (p =? a) eqn:E; bool_props.
    + subst a. assert (k = n) as ->.
      { apply elem_of_cons in Hin as [[= ?]|Hin]; [done|].
        specialize (Hd p). cbn [cover] in Hd. apply (cover_elem p) in Hin as Hc.
        pose proof (Hs (p, k) ltac:(set_solver)). pose proof (Hs (p, n) ltac:(set_solver)).
        cbn in *. rewrite !hit_in in * by lia. lia. }
      split; [done|]. by apply (Permutation_cons_inv (a := (p, n))).
    + apply elem_of_cons in Hin as [[= -> ->]|Hin]; [done|].
      apply elem_of_Permutation in Hin as [l' Hl'].
      destruct (IH l') as [-> Hr]; [|set_solver|done|].
      { intros x. specialize (Hd x). cbn [cover] in Hd. lia. }
      split; [done|]. rewrite Hr.
      apply (Permutation_cons_inv (a := (p, n))). rewrite <- Hp, Hl'. constructor.
Qed.

Lemma alloc_ok w n m o p m' o' :
  good w o -> 0 < n -> alloc n (m, o) = (p, (m', o')) ->
  good w o' /\ m' = m /\
  ((p = 0 /\ o' = o) \/
   (placed w p n /\ p = next o /\ blocks o' = (p, n) :: blocks o)).
Proof.
  intros (H0 & H8 & Hl & Hb & Hd) Hn Ha. unfold alloc in Ha.
  destruct (step_ok n Hn) as [Hs1 Hs2].
  destruct (_ <? _) eqn:E; simplify_eq; bool_props; [|by split_and!; [done..|left]].
  split_and!; [|done|right; split_and!; [unfold placed; split_and!; lia|done..]].
  unfold good. cbn. split_and!.
  - lia.
  - by rewrite Z.add_mod, H8, Hs2.
  - done.
  - intros b Hb'. apply elem_of_cons in Hb' as [->|Hb']; cbn; [lia|].
    apply Hb in Hb'. lia.
  - intros x. destruct (hit_cases x (next o) n) as [[? ->]|[? ->]]; [|apply Hd].
    rewrite (above _ _ (next o)); [done| |lia]. intros b ?. by apply Hb.
Qed.

Lemma release_ok w p n r m o :
  good w o -> blocks o ≡ₚ (p, n) :: r ->
  exists o', release p (m, o) = Some (m, o') /\ good w o' /\ blocks o' ≡ₚ r.
Proof.
  intros (H0 & H8 & Hl & Hb & Hd) Hp. cbn.
  destruct (remove_perm p n r (blocks o)) as [-> Hr]; [done|intros; by apply Hb|done|].
  eexists. split_and!; [done| |done]. unfold good. cbn. split_and!; [done..| |].
  - intros b Hb'. apply Hb. rewrite Hp. rewrite Hr in Hb'. set_solver.
  - intros x. specialize (Hd x). rewrite Hp in Hd. rewrite Hr. cbn in Hd. lia.
Qed.

Lemma agree_store l q bs m :
  (forall x, q <= x < q + Z.of_nat (length bs) -> cover x l = 0%nat) ->
  agree l m (store q bs m).
Proof.
  intros H x Hx. apply store_out.
  destruct (decide (q <= x < q + Z.of_nat (length bs))) as [Hi|]; [|lia].
  rewrite H in Hx by done. lia.
Qed.

Lemma resize_ok w p n n' r m o :
  good w o -> blocks o ≡ₚ (p, n) :: r -> 0 < n' ->
  exists q m' o', resize p n' (m, o) = Some (q, (m', o')) /\ good w o' /\
    ((q = 0 /\ blocks o' ≡ₚ blocks o /\ agree (blocks o) m m') \/
     (placed w q n' /\ blocks o' ≡ₚ (q, n') :: r /\ agree r m m' /\
      load q (Z.to_nat (Z.min n n')) m' = load p (Z.to_nat (Z.min n n')) m)).
Proof.
  intros Hg Hp Hn. pose proof Hg as (H0 & _ & _ & Hb & Hd). unfold resize. cbn [snd].
  destruct (remove_perm p n r (blocks o)) as [-> _]; [done|intros; by apply Hb|done|].
  destruct (alloc n' (m, o)) as [q [m' o1]] eqn:Ea.
  destruct (alloc_ok w _ _ _ _ _ _ Hg Hn Ea) as (Hg1 & -> & [[-> ->]|(Hpl & -> & Ho1)]).
  - rewrite Z.eqb_refl. eexists _, _, _. split_and!; [done..|]. left. by split_and!.
  - destruct (next o =? 0) eqn:E; [bool_props; unfold placed in Hpl; lia|].
    destruct (release_ok w p n ((next o, n') :: r) (memmove (next o) p (Z.to_nat (Z.min n n')) m) o1)
      as (o2 & -> & Hg2 & Ho2); [done|rewrite Ho1, Hp; constructor|].
    eexists _, _, _. split_and!; [done..|]. right. split_and!; [done..| |].
    + apply agree_store. rewrite length_load. intros x Hx.
      apply (above _ _ (next o)); [|lia]. intros b Hin. apply Hb. rewrite Hp. set_solver.
    + unfold memmove.
      rewrite <- (length_load p (Z.to_nat (Z.min n n')) m) at 1. apply load_store_eq.
Qed.

#[export] Instance laws w : LibcLaws w t.
Proof.
  refine {| valid := good w |}.
  - intros o x Hg. apply Hg.
  - intros n m o p m' o' Hg Hn Ha.
    destruct (alloc_ok w _ _ _ _ _ _ Hg (proj1 Hn) Ha) as (Hg' & -> & Hc).
    split_and!; [done..|]. destruct Hc as [[-> ->]|(? & -> & Hb)]; [by left|right].
    split; [done|]. cbn. by rewrite Hb.
  - intros p n r m o Hg Hp. destruct (release_ok w p n r m o Hg Hp) as (o' & Hr & Hg' & Ho').
    by exists m, o'.
  - intros p n n' r m o Hg Hp [Hn _]. by apply resize_ok.
Defined.

End Bump.
#[export] Existing Instance Bump.libc.
#[export] Existing Instance Bump.laws.

(** ** [malloc_pool] *)

Section MallocPool.
Context {Os : Type} `{Libc Os} {Handler : Type}.

(** The memory, the allocator's state, and [m_pFuncOOMHandler] (line 118). *)
Record machine := Machine {
  mem : heap;
  os : Os;
  oom : option Handler
}.

(** A call through [pHandler]: client code. *)
Context (run_handler : Handler -> prog machine unit).

Definition libc_malloc (sz : Z) : prog machine Z := fun s =>
  let '(p, (m, o)) := malloc sz (mem s, os s) in Ret p (Machine m o (oom s)).

Definition libc_free (p : Z) : prog machine unit := fun s =>
  match free p (mem s, os s) with
  | Some (m, o) => Ret tt (Machine m o (oom s))
  | None => UB
  end.

Definition libc_realloc (p sz : Z) : prog machine Z := fun s =>
  match realloc p sz (mem s, os s) with
  | Some (q, (m, o)) => Ret q (Machine m o (oom s))
  | None => UB
  end.

(** [out_of_malloc]: the fuel bounds the rounds of the loop. *)
Fixpoint out_of_malloc (fuel : nat) (sz : Z) : prog machine Z :=
  match fuel with
  | O => diverge
  | S f => fun s =>
      match oom s with
      | None => Throw bad_alloc s
      | Some pHandler =>
          (run_handler pHandler ;;;
           let* pResult := libc_malloc sz in
           if pResult =? 0 then out_of_malloc f sz else ret pResult) s
      end
  end.

Fixpoint out_of_realloc (fuel : nat) (p sz : Z) : prog machine Z :=
  match fuel with
  | O => diverge
  | S f => fun s =>
      match oom s with
      | None => Throw bad_alloc s
      | Some pHandler =>
          (run_handler pHandler ;;;
           let* pResult := libc_realloc p sz in
           if pResult =? 0 then out_of_realloc f p sz else ret pResult) s
      end
  end.

Definition allocate (fuel : nat) (sz : Z) : prog machine Z :=
  let* pResult := libc_malloc sz in
  if pResult =? 0 then out_of_malloc fuel sz else ret pResult.

Definition deallocate (p sz : Z) : prog machine unit := libc_free p.

Definition reallocate (fuel : nat) (p szOld szNew : Z) : prog machine Z :=
  let* pResult := libc_realloc p szNew in
  if pResult =? 0 then out_of_realloc fuel p szNew else ret pResult.

Definition pFuncSetOOMHandler (pFunc : option Handler) : prog machine (option Handler) := fun s =>
  Ret (oom s) (Machine (mem s) (os s) pFunc).

(** ** What the clients rely on *)

Context (w : Z) `{!LibcLaws w Os}.

(** Every block handed out is still there, with its bytes. *)
Definition kept (s s' : machine) : Prop :=
  valid w (os s') /\ owned (os s') ≡ₚ owned (os s) /\ agree (owned (os s)) (mem s) (mem s').

(** [p] is a new block of [n] bytes. *)
Definition fresh (p n : Z) (s s' : machine) : Prop :=
  valid w (os s') /\ placed w p n /\ owned (os s') ≡ₚ (p, n) :: owned (os s) /\
  agree (owned (os s)) (mem s) (mem s').

Lemma kept_refl s : valid w (os s) -> kept s s.
Proof. done. Qed.

Lemma kept_trans s1 s2 s3 : kept s1 s2 -> kept s2 s3 -> kept s1 s3.
Proof.
  intros (_ & Ho & Ha) (Hv & Ho' & Ha'). split_and!; [done|by rewrite Ho', Ho|].
  eapply agree_trans; [done|]. by rewrite <- Ho.
Qed.

Lemma kept_fresh p n s1 s2 s3 : kept s1 s2 -> fresh p n s2 s3 -> fresh p n s1 s3.
Proof.
  intros (_ & Ho & Ha) (Hv & Hp & Ho' & Ha'). split_and!; [done..|by rewrite Ho', Ho|].
  eapply agree_trans; [done|]. by rewrite <- Ho.
Qed.

(** The handler's contract: it may release its own reserve, change the handler or
    throw [bad_alloc]; it does not touch the blocks of others. *)
Definition handler_contract : Prop := forall h s, valid w (os s) ->
  match run_handler h s with
  | Ret _ s' => kept s s'
  | Throw e s' => e = bad_alloc /\ kept s s'
  | UB | OutOfFuel => False
  end.

Lemma libc_malloc_ok sz s : valid w (os s) -> 0 < sz < 2 ^ w ->
  exists p s', libc_malloc sz s = Ret p s' /\ oom s' = oom s /\
    ((p = 0 /\ kept s s') \/ (p <> 0 /\ fresh p sz s s')).
Proof.
  intros Hv Hn. unfold libc_malloc.
  destruct (malloc sz (mem s, os s)) as [p [m o]] eqn:E.
  destruct (malloc_law _ _ _ _ _ _ Hv Hn E) as (Hv' & Ha & [[-> Ho]|[Hp Ho]]).
  - eexists _, _. split_and!; [done..|]. left. by split_and!.
  - eexists _, _. split_and!; [done..|]. right. unfold placed in Hp. split_and!; [lia|done..].
Qed.

(** What a call that asks for a block may do. *)
Definition alloc_post (n : Z) (s : machine) (r : outcome machine Z) : Prop :=
  match r with
  | Ret p s' => fresh p n s s'
  | Throw e s' => e = bad_alloc /\ kept s s'
  | UB => False
  | OutOfFuel => True
  end.

Lemma alloc_post_kept n s s' r : kept s s' -> alloc_post n s' r -> alloc_post n s r.
Proof.
  intros Hk. destruct r; cbn; [by apply kept_fresh| |done..].
  intros [-> Hk']. split; [done|]. by eapply kept_trans.
Qed.

Lemma out_of_malloc_post fuel sz s : handler_contract ->
  valid w (os s) -> 0 < sz < 2 ^ w -> alloc_post sz s (out_of_malloc fuel sz s).
Proof.
  intros Hh. revert s. induction fuel as [|f IH]; intros s Hv Hn; [done|].
  cbn [out_of_malloc]. destruct (oom s) as [h|]; [|by split].
  unfold bind at 1. specialize (Hh h s Hv). destruct (run_handler h s) as [[] s1|e s1| |]; try done.
  apply (alloc_post_kept _ _ s1); [done|].
  destruct (libc_malloc_ok sz s1) as (p & s2 & Hm & _ & Hc); [apply Hh|done|].
  rewrite (bind_ret _ _ _ _ _ Hm).
  destruct Hc as [[-> Hk]|[Hp Hf]]; cbn [Z.eqb].
  - apply (alloc_post_kept _ _ s2); [done|]. apply IH; [apply Hk|done].
  - by apply Z.eqb_neq in Hp as ->.
Qed.

(** [malloc_pool::allocate] never returns null and never loses a block: it
    returns a new, aligned block of the requested size, or throws [bad_alloc] with
    every block in place; a handler that keeps its contract cannot make it do
    anything else. *)
Theorem allocate_spec fuel sz s : handler_contract ->
  valid w (os s) -> 0 < sz < 2 ^ w -> alloc_post sz s (allocate fuel sz s).
Proof.
  intros Hh Hv Hn. unfold allocate.
  destruct (libc_malloc_ok sz s) as (p & s1 & Hm & _ & Hc); [done..|].
  rewrite (bind_ret _ _ _ _ _ Hm). destruct Hc as [[-> Hk]|[Hp Hf]]; cbn [Z.eqb].
  - apply (alloc_post_kept _ _ s1); [done|]. apply out_of_malloc_post; [done|apply Hk|done].
  - by apply Z.eqb_neq in Hp as ->.
Qed.

(** A handler makes progress when each call lowers [reserve] or takes the handler
    away, as the C++ standard asks of a new handler. *)
Definition progress (reserve : machine -> nat) : Prop := forall h s s',
  run_handler h s = Ret tt s' -> oom s' <> None -> (reserve s' < reserve s)%nat.

(** [malloc] does not refill the reserve. *)
Definition reserve_mono (reserve : machine -> nat) : Prop := forall sz s p s',
  libc_malloc sz s = Ret p s' -> (reserve s' <= reserve s)%nat.

Lemma out_of_malloc_terminates reserve sz fuel s :
  handler_contract -> progress reserve -> reserve_mono reserve ->
  valid w (os s) -> 0 < sz < 2 ^ w -> (reserve s + 1 < fuel)%nat ->
  out_of_malloc fuel sz s <> OutOfFuel.
Proof.
  intros Hh Hp Hr. revert s. induction fuel as [|f IH]; intros s Hv Hn Hf; [lia|].
  cbn [out_of_malloc]. destruct (oom s) as [h|] eqn:Eo; [|done].
  unfold bind at 1. specialize (Hh h s Hv) as Hc.
  destruct (run_handler h s) as [[] s1|e s1| |] eqn:Eh; try done.
  destruct (libc_malloc_ok sz s1) as (p & s2 & Hm & Ho & Hc'); [apply Hc|done|].
  rewrite (bind_ret _ _ _ _ _ Hm).
  destruct (p =? 0) eqn:Ep; [|done].
  destruct Hc' as [[-> Hk]|[? _]]; [|by bool_props].
  pose proof (Hr _ _ _ _ Hm). destruct (oom s1) as [h1|] eqn:Eo1.
  - apply IH; [apply Hk|done|]. pose proof (Hp _ _ _ Eh). rewrite Eo1 in *.
    enough (reserve s1 < reserve s)%nat by lia. auto.
  - destruct f as [|f]; [lia|]. cbn. by rewrite Ho.
Qed.

(** [C34] The loop of [out_of_malloc] ends when the handler makes progress: as many
    rounds as the reserve is deep are enough. *)
Theorem allocate_terminates reserve sz fuel s :
  handler_contract -> progress reserve -> reserve_mono reserve ->
  valid w (os s) -> 0 < sz < 2 ^ w -> (reserve s + 1 < fuel)%nat ->
  allocate fuel sz s <> OutOfFuel.
Proof.
  intros Hh Hp Hr Hv Hn Hf. unfold allocate.
  destruct (libc_malloc_ok sz s) as (p & s1 & Hm & _ & Hc); [done..|].
  rewrite (bind_ret _ _ _ _ _ Hm). destruct (p =? 0) eqn:Ep; [|done].
  destruct Hc as [[-> Hk]|[? _]]; [|by bool_props].
  pose proof (Hr _ _ _ _ Hm).
  apply (out_of_malloc_terminates reserve); try done; [apply Hk|lia].
Qed.

(** Without a handler the call ends at once, and leaves none. *)
Lemma allocate_no_handler fuel sz s : (1 <= fuel)%nat ->
  valid w (os s) -> 0 < sz < 2 ^ w -> oom s = None ->
  exists s', oom s' = None /\
    ((exists p, allocate fuel sz s = Ret p s' /\ fresh p sz s s') \/
     (allocate fuel sz s = Throw bad_alloc s' /\ kept s s')).
Proof.
  intros Hf Hv Hn Ho. unfold allocate.
  destruct (libc_malloc_ok sz s) as (p & s1 & Hm & Ho1 & Hc); [done..|].
  rewrite (bind_ret _ _ _ _ _ Hm). exists s1. rewrite Ho1. split; [done|].
  destruct Hc as [[-> Hk]|[Hp Hfr]]; cbn [Z.eqb].
  - right. destruct fuel; [lia|]. cbn. by rewrite Ho1, Ho.
  - left. exists p. apply Z.eqb_neq in Hp as ->. done.
Qed.

(** [n'] bytes at [q] instead of the [n] bytes at [p]; [r] is everything else. *)
Definition moved (p n q n' : Z) (r : list block) (s s' : machine) : Prop :=
  valid w (os s') /\ placed w q n' /\ owned (os s') ≡ₚ (q, n') :: r /\
  agree r (mem s) (mem s') /\
  load q (Z.to_nat (Z.min n n')) (mem s') = load p (Z.to_nat (Z.min n n')) (mem s).

Definition realloc_post (p n n' : Z) (r : list block) (s : machine) (o : outcome machine Z) : Prop :=
  match o with
  | Ret q s' => moved p n q n' r s s'
  | Throw e s' => e = bad_alloc /\ kept s s'
  | UB => False
  | OutOfFuel => True
  end.

Lemma libc_realloc_ok p n n' r s : valid w (os s) -> owned (os s) ≡ₚ (p, n) :: r ->
  0 < n' < 2 ^ w ->
  exists q s', libc_realloc p n' s = Ret q s' /\ oom s' = oom s /\
    ((q = 0 /\ kept s s') \/ (q <> 0 /\ moved p n q n' r s s')).
Proof.
  intros Hv Ho Hn. unfold libc_realloc.
  destruct (realloc_law p n n' r (mem s) (os s) Hv Ho Hn)
    as (q & m' & o' & -> & Hv' & [(-> & Ho' & Ha)|(Hp & Ho' & Ha & Hl)]).
  - eexists _, _. split_and!; [done..|]. left. by split_and!.
  - eexists _, _. split_and!; [done..|]. right. unfold placed in Hp. split_and!; [lia|done..].
Qed.

Lemma kept_moved p n q n' r s1 s2 s3 : owned (os s1) ≡ₚ (p, n) :: r -> 0 <= n ->
  kept s1 s2 -> moved p n q n' r s2 s3 -> moved p n q n' r s1 s3.
Proof.
  intros Ho1 Hn (_ & Ho & Ha) (Hv & Hp & Ho' & Ha' & Hl). split_and!; [done..| |].
  - eapply agree_trans; [|done]. eapply agree_weaken; [|apply Ha].
    intros x. rewrite Ho1. cbn. lia.
  - rewrite Hl. apply load_ext. intros x Hx. apply Ha. rewrite Ho1. cbn.
    rewrite hit_in by lia. lia.
Qed.

Lemma realloc_post_kept p n n' r s s' o : owned (os s) ≡ₚ (p, n) :: r -> 0 <= n ->
  kept s s' -> realloc_post p n n' r s' o -> realloc_post p n n' r s o.
Proof.
  intros Ho Hn Hk. destruct o; cbn; [by apply kept_moved| |done..].
  intros [-> Hk']. split; [done|]. by eapply kept_trans.
Qed.

Lemma out_of_realloc_post fuel p n n' r s : handler_contract ->
  valid w (os s) -> owned (os s) ≡ₚ (p, n) :: r -> 0 <= n -> 0 < n' < 2 ^ w ->
  realloc_post p n n' r s (out_of_realloc fuel p n' s).
Proof.
  intros Hh. revert s. induction fuel as [|f IH]; intros s Hv Ho Hn Hn'; [done|].
  cbn [out_of_realloc]. destruct (oom s) as [h|]; [|by split].
  unfold bind at 1. specialize (Hh h s Hv). destruct (run_handler h s) as [[] s1|e s1| |]; try done.
  apply (realloc_post_kept _ _ _ _ _ s1); [done..|]. destruct Hh as (Hv1 & Ho1 & _).
  rewrite Ho in Ho1.
  destruct (libc_realloc_ok p n n' r s1) as (q & s2 & Hm & _ & Hc); [done..|].
  rewrite (bind_ret _ _ _ _ _ Hm).
  destruct Hc as [[-> Hk]|[Hp Hf]]; cbn [Z.eqb].
  - apply (realloc_post_kept _ _ _ _ _ s2); [done..|]. destruct Hk as (? & Ho2 & _).
    apply IH; [done|by rewrite Ho2|done..].
  - by apply Z.eqb_neq in Hp as ->.
Qed.

(** [malloc_pool::reallocate] gives the block back resized, with its first
    bytes, up to the smaller of the two sizes, and everything else untouched; when
    it throws, the old block is still there. *)
Theorem reallocate_spec fuel p n n' r s : handler_contract ->
  valid w (os s) -> owned (os s) ≡ₚ (p, n) :: r -> 0 <= n -> 0 < n' < 2 ^ w ->
  realloc_post p n n' r s (reallocate fuel p n n' s).
Proof.
  intros Hh Hv Ho Hn Hn'. unfold reallocate.
  destruct (libc_realloc_ok p n n' r s) as (q & s1 & Hm & _ & Hc); [done..|].
  rewrite (bind_ret _ _ _ _ _ Hm). destruct Hc as [[-> Hk]|[Hp Hf]]; cbn [Z.eqb].
  - apply (realloc_post_kept _ _ _ _ _ s1); [done..|]. destruct Hk as (? & Ho2 & _).
    apply out_of_realloc_post; [done|done|by rewrite Ho2|done..].
  - by apply Z.eqb_neq in Hp as ->.
Qed.

Lemma reallocate_no_handler fuel p n n' r s : (1 <= fuel)%nat ->
  valid w (os s) -> owned (os s) ≡ₚ (p, n) :: r -> 0 < n' < 2 ^ w -> oom s = None ->
  exists s', oom s' = None /\
    ((exists q, reallocate fuel p n n' s = Ret q s' /\ moved p n q n' r s s') \/
     (reallocate fuel p n n' s = Throw bad_alloc s' /\ kept s s')).
Proof.
  intros Hf Hv Hp Hn Ho. unfold reallocate.
  destruct (libc_realloc_ok p n n' r s) as (q & s1 & Hm & Ho1 & Hc); [done..|].
  rewrite (bind_ret _ _ _ _ _ Hm). exists s1. rewrite Ho1. split; [done|].
  destruct Hc as [[-> Hk]|[Hq Hfr]]; cbn [Z.eqb].
  - right. destruct fuel; [lia|]. cbn. by rewrite Ho1, Ho.
  - left. exists q. apply Z.eqb_neq in Hq as ->. done.
Qed.

Lemma libc_free_ok p n r s : valid w (os s) -> owned (os s) ≡ₚ (p, n) :: r ->
  exists s', libc_free p s = Ret tt s' /\ oom s' = oom s /\ valid w (os s') /\
    owned (os s') ≡ₚ r /\ agree r (mem s) (mem s').
Proof.
  intros Hv Ho. unfold libc_free.
  destruct (free_law p n r (mem s) (os s) Hv Ho) as (m' & o' & -> & ?). eauto.
Qed.

(** Setting a handler answers the one it replaces: putting that one back
    restores the pool. *)
Theorem set_handler_restores f s :
  (let* old := pFuncSetOOMHandler f in pFuncSetOOMHandler old) s = Ret f s.
Proof. by destruct s. Qed.

End MallocPool.
Arguments machine Os Handler : clear implicits.

(** ** A handler with a reserve

    The handler raises the limit of a full heap once and takes itself away. *)
Module Handler.

Definition grow (h : unit) : prog (machine Bump.t unit) unit := fun s =>
  Ret tt (Machine (mem s) (Bump.Mk (Bump.next (os s)) 65536 (Bump.blocks (os s))) None).

Definition full : machine Bump.t unit := Machine (fun _ => 0) (Bump.Mk 8 16 []) (Some tt).

Lemma grow_contract : handler_contract grow 32.
Proof.
  intros h s (H0 & H8 & Hl & Hb & Hd). cbn. split_and!; [|done|done].
  unfold Bump.good. cbn. by split_and!.
Qed.

Lemma full_valid : valid 32 (os full).
Proof. cbn. unfold Bump.good. cbn. split_and!; try lia; try done; set_solver. Qed.

Lemma allocate_spec_witness :
  handler_contract grow 32 /\ valid 32 (os full) /\
  (exists s', allocate grow 2 100 full = Ret 8 s') /\
  alloc_post 32 100 full (allocate grow 2 100 full).
Proof.
  split; [apply grow_contract|split; [apply full_valid|split]]; [by eexists|].
  exact (allocate_spec grow 32 2 100 full grow_contract full_valid ltac:(done)).
Defined.

Lemma grow_progress : progress grow (fun _ => 0%nat).
Proof. intros h s s' [= <-] Hn. done. Qed.

Lemma allocate_terminates_witness :
  progress grow (fun _ => 0%nat) /\ allocate grow 2 100 full <> OutOfFuel.
Proof.
  split; [apply grow_progress|].
  refine (allocate_terminates grow 32 (fun _ => 0%nat) 100 2 full grow_contract grow_progress
    _ full_valid ltac:(done) ltac:(cbn; lia)).
  intros sz s p s' _. apply le_n.
Defined.

(** One block of 8 bytes at address 8. *)
Definition one : machine Bump.t unit := Machine (fun x => x) (Bump.Mk 16 32 [(8, 8)]) (Some tt).

Lemma one_valid : valid 32 (os one).
Proof.
  cbn. unfold Bump.good. cbn. split_and!; try lia; try done.
  - intros b ->%list_elem_of_singleton. cbn. lia.
  - intros x. destruct (hit_cases x 8 8) as [[_ ->]|[_ ->]]; lia.
Qed.

Lemma reallocate_spec_witness :
  valid 32 (os one) /\ (exists s', reallocate grow 2 8 8 100 one = Ret 16 s') /\
  realloc_post 32 8 8 100 [] one (reallocate grow 2 8 8 100 one).
Proof.
  split; [apply one_valid|split]; [by eexists|].
  exact (reallocate_spec grow 32 2 8 8 100 [] one grow_contract one_valid (reflexivity _)
    ltac:(done) ltac:(done)).
Defined.

End Handler.
