(* ===== verification/FreeList.v ===== *)
(** * Free lists in the machine's memory

    What sgi_memory_pool.hpp and fixed_memory_pool.hpp share: reading and writing
    the link of a free block ([pFreeListLink]), which is undefined behaviour
    outside the blocks the program owns, and the loop of [re_fill] that links the
    blocks of a fresh chunk. *)

From S2P Require Import Prelude Memory MallocPool.

Section FreeList.
Context {Os : Type} `{Libc Os} {Handler : Type}.
Context (psz : nat).
Notation machine := (machine Os Handler).

(** The [k] bytes at [p] belong to blocks the program owns. *)
Definition accessible (p : Z) (k : nat) (s : machine) : bool :=
  forallb (fun i => (1 <=? cover (p + Z.of_nat i) (owned (os s)))%nat) (seq 0 k).

Definition get_link (p : Z) : prog machine Z := fun s =>
  if accessible p psz s then Ret (load_ptr psz (mem s) p) s else UB.

Definition set_link (p v : Z) : prog machine unit := fun s =>
  if accessible p psz s
  then Ret tt (Machine (store_ptr psz p v (mem s)) (os s) (oom s)) else UB.

(** [::memmove(dst, src, n)]. *)
Definition machine_memmove (dst src n : Z) : prog machine unit := fun s =>
  let k := Z.to_nat n in
  if accessible dst k s && accessible src k s
  then Ret tt (Machine (memmove dst src k (mem s)) (os s) (oom s)) else UB.

(** The loop [for(size_t i = 1; ; ++i)] of [re_fill]; the fuel bounds its rounds. *)
Fixpoint link_objs (fuel : nat) (n nObjs i pNextObj : Z) : prog machine unit :=
  match fuel with
  | O => diverge
  | S f =>
      let pCurObj := pNextObj in
      let pNextObj' := pNextObj + n in
      if nObjs =? i then set_link pCurObj 0
      else set_link pCurObj pNextObj' ;;; link_objs f n nObjs (i + 1) pNextObj'
  end.

Lemma accessible_true p k s :
  (forall x, p <= x < p + Z.of_nat k -> (1 <= cover x (owned (os s)))%nat) ->
  accessible p k s = true.
Proof.
  intros Hx. unfold accessible. apply forallb_forall. intros i Hi%in_seq.
  apply Nat.leb_le. apply Hx. lia.
Qed.

(** The loop ends, the blocks from [next] on form a chain, and no byte outside
    them changes. *)
Lemma link_objs_ok f k n i next s :
  (k < f)%nat -> Z.of_nat psz <= n -> 0 < n -> 0 < next ->
  next + Z.of_nat (S k) * n <= 2 ^ (8 * Z.of_nat psz) ->
  (forall x, next <= x < next + Z.of_nat (S k) * n -> (1 <= cover x (owned (os s)))%nat) ->
  exists m', link_objs f n (i + Z.of_nat k) i next s = Ret tt (Machine m' (os s) (oom s)) /\
    chain psz m' next (run next n (S k)) /\
    (forall x, x < next \/ next + Z.of_nat (S k) * n <= x -> m' x = mem s x).
Proof.
  intros Hf Hn Hn0. revert f Hf i next s.
  induction k as [|k IH]; intros [|f] Hf i next s Hp Hb Ho; try lia.
  - cbn [link_objs]. rewrite Z.add_0_r, Z.eqb_refl. unfold set_link.
    rewrite accessible_true by (intros; apply Ho; lia). eexists. split; [done|].
    cbn. split_and!; [done|lia| |].
    + apply load_store_ptr. split; [done|]. apply Z.pow_pos_nonneg; lia.
    + intros x Hx. apply store_ptr_out. lia.
  - remember (S k) as k1 eqn:Ek. cbn [link_objs].
    destruct (i + Z.of_nat k1 =? i) eqn:E; [bool_props; lia|].
    unfold bind at 1. unfold set_link.
    rewrite accessible_true by (intros; apply Ho; nia).
    destruct (IH f ltac:(lia) (i + 1) (next + n)
        (Machine (store_ptr psz next (next + n) (mem s)) (os s) (oom s)))
      as (m' & Hl & Hc & Hout); [lia|subst k1; lia|intros; apply Ho; subst k1; lia|].
    cbn [os oom mem] in *. exists m'. split_and!.
    + rewrite <- Hl. f_equal. lia.
    + cbn [run chain]. split; [done|split; [lia|]].
      assert (load_ptr psz m' next = load_ptr psz (store_ptr psz next (next + n) (mem s)) next) as ->.
      { unfold load_ptr. f_equal. apply load_ext. intros x Hx. apply Hout. lia. }
      rewrite load_store_ptr by (subst k1; nia). done.
    + intros x Hx. rewrite Hout by (subst k1; nia). apply store_ptr_out. subst k1. nia.
Qed.

End FreeList.
