(* ===== verification/SgiPool.v ===== *)
(** * The SGI memory pool

    include/memory_pool/sgi_memory_pool.hpp: blocks of up to [__MAX_BYTES] bytes
    come from free lists, one per multiple of 8, refilled from chunks that are cut
    from large buffers; larger blocks go to [malloc_pool]. The critical sections of
    [mutex_] make each operation atomic: a state is what a thread sees when it has
    the lock. *)

From S2P Require Import Prelude Memory MallocPool FreeList.

(** ** [AllocT], the source of the buffers *)

Class AllocTraits (M : Type) := {
  at_allocate : Z -> prog M Z;
  at_deallocate : Z -> Z -> prog M unit
}.

#[export] Instance malloc_traits_t {Os} `{Libc Os} {Handler} : AllocTraits (machine Os Handler) :=
  {| at_allocate := libc_malloc; at_deallocate p size := libc_free p |}.

Definition ALIGN : Z := 8.
Definition NUM_NODE : Z := 20.

Record pool := Pool {
  start_free : Z;
  end_free : Z;
  heap_size : Z;
  buffers : list (Z * Z);
  free_lists : list Z
}.

(** ** The state of the pool

    [fblocks n fs]: the free blocks, list after list; the blocks of the [i]-th list
    have [n + 8 i] bytes. *)
Fixpoint fblocks (n : Z) (fs : list (list Z)) : list block :=
  match fs with
  | [] => []
  | l :: fs' => sized n l ++ fblocks (n + ALIGN) fs'
  end.

Lemma cover_sized_cons x n a l : cover x (sized n (a :: l)) = (hit x (a, n) + cover x (sized n l))%nat.
Proof. done. Qed.

Lemma fblocks_insert x n fs i l l' : fs !! i = Some l ->
  (cover x (fblocks n (<[i := l']> fs)) + cover x (sized (n + ALIGN * Z.of_nat i) l) =
   cover x (fblocks n fs) + cover x (sized (n + ALIGN * Z.of_nat i) l'))%nat.
Proof.
  revert n i. induction fs as [|k fs IH]; intros n i Hi; [done|].
  destruct i as [|i]; cbn in Hi; cbn [insert list_insert fblocks]; rewrite !cover_app.
  - simplify_eq. rewrite Z.mul_0_r, Z.add_0_r. lia.
  - specialize (IH (n + ALIGN) i Hi).
    replace (n + ALIGN * Z.of_nat (S i)) with (n + ALIGN + ALIGN * Z.of_nat i) by lia.
    rewrite <- !Nat.add_assoc. f_equal. exact IH.
Qed.

Lemma elem_of_sized a n b l : (a, n) ∈ sized b l <-> n = b /\ a ∈ l.
Proof.
  unfold sized. rewrite list_elem_of_fmap. split.
  - by intros (y & [= -> ->] & ?).
  - intros [-> ?]. by exists a.
Qed.

Lemma elem_of_fblocks a s n fs : (a, s) ∈ fblocks n fs <->
  exists i l, fs !! i = Some l /\ s = n + ALIGN * Z.of_nat i /\ a ∈ l.
Proof.
  revert n. induction fs as [|k fs IH]; intros n; cbn.
  - split; [set_solver|]. by intros (i & l & ? & _).
  - rewrite elem_of_app, elem_of_sized, IH. split.
    + intros [[-> Ha]|(i & l & Hi & -> & Ha)].
      * exists 0%nat, k. split_and!; [done|lia|done].
      * exists (S i), l. split_and!; [done|lia|done].
    + intros (i & l & Hi & -> & Ha). destruct i as [|i]; cbn in Hi; simplify_eq.
      * left. split; [lia|done].
      * right. exists i, l. split_and!; [done|lia|done].
Qed.

(** A write that spares the free blocks spares their chains. *)
Lemma chains_frame psz n fs hs m m' : Z.of_nat psz <= n ->
  agree (fblocks n fs) m m' -> Forall2 (chain psz m) hs fs -> Forall2 (chain psz m') hs fs.
Proof.
  intros Hn Ha Hc. revert n Hn Ha. induction Hc as [|h l hs fs Hc Hcs IH]; intros n Hn Ha; [done|].
  constructor.
  - eapply chain_ext; [|done]. intros a x Hin Hx. symmetry. apply Ha. cbn [fblocks].
    rewrite cover_app. assert (Hb : (a, n) ∈ sized n l) by (by apply elem_of_sized).
    pose proof (cover_elem x _ _ Hb) as Hle. rewrite hit_in in Hle by lia. lia.
  - apply (IH (n + ALIGN)); [unfold ALIGN; lia|].
    eapply agree_weaken; [|done]. intros x. cbn [fblocks]. rewrite cover_app. lia.
Qed.

(** ** The operations *)

Section SgiPool.
Context {Os : Type} `{Libc Os} {Handler : Type}.
Notation machine := (machine Os Handler).
Context (run_handler : Handler -> prog machine unit) `{AllocTraits machine}.
Context (psz : nat).            (* sizeof(void * ), 4 or 8 *)
Context (max_bytes : Z).        (* __MAX_BYTES *)
Context (fuel : nat).           (* of the loops of malloc_pool *)
Notation w := (8 * Z.of_nat psz).

Record state := State { pl : pool; mc : machine }.

Definition on_machine {A} (m : prog machine A) : prog state A := fun s =>
  match m (mc s) with
  | Ret a m' => Ret a (State (pl s) m')
  | Throw e m' => Throw e (State (pl s) m')
  | UB => UB
  | OutOfFuel => OutOfFuel
  end.

Definition get : prog state pool := fun s => Ret (pl s) s.

Definition modify (f : pool -> pool) : prog state unit := fun s =>
  Ret tt (State (f (pl s)) (mc s)).

Definition set_start (p : Z) (q : pool) : pool :=
  Pool p (end_free q) (heap_size q) (buffers q) (free_lists q).
Definition set_end (p : Z) (q : pool) : pool :=
  Pool (start_free q) p (heap_size q) (buffers q) (free_lists q).

Definition NUM_FREE_LISTS : Z := max_bytes / ALIGN.

Definition sgi_memory_pool_t : pool := Pool 0 0 0 [] (replicate (Z.to_nat NUM_FREE_LISTS) 0).

Definition ROUNDUP (bytes : Z) : Z := round_up w 3 bytes.

Definition FREELISTINDEX (bytes : Z) : Z :=
  wrap w (wrap w (bytes + ALIGN - 1) / ALIGN - 1).

(** [*(free_lists_ + i)]: an index beyond the array is undefined behaviour. *)
Definition get_list (i : Z) : prog state Z := fun s =>
  if i <? Z.of_nat (length (free_lists (pl s)))
  then Ret (free_lists (pl s) !!! Z.to_nat i) s else UB.

Definition set_list (i h : Z) : prog state unit := fun s =>
  if i <? Z.of_nat (length (free_lists (pl s)))
  then modify (fun q => Pool (start_free q) (end_free q) (heap_size q) (buffers q)
                             (<[Z.to_nat i := h]> (free_lists q))) s
  else UB.

(** Put the block [p] at the head of the free list [i]. *)
Definition push_free (i p : Z) : prog state unit :=
  let* head := get_list i in
  on_machine (set_link psz p head) ;;;
  set_list i p.

(** The new buffer of [chunk_alloc], lines 403-440. *)
Definition new_chunk (szTotal : Z) : prog state unit :=
  let* q := get in
  let szGet := wrap w (2 * szTotal + ROUNDUP (Z.shiftr (heap_size q) 4)) in
  let* p := on_machine (at_allocate szGet) in
  modify (set_start p) ;;;
  (if p =? 0 then
     modify (set_end 0) ;;;
     let* p' := on_machine (MallocPool.allocate run_handler fuel szGet) in
     modify (set_start p')
   else ret tt) ;;;
  modify (fun q => Pool (start_free q) (start_free q + szGet) (wrap w (heap_size q + szGet))
                        (buffers q ++ [(start_free q, szGet)]) (free_lists q)).

(** [chunk_alloc]: answers the chunk and the number of blocks in it. The fuel
    bounds the recursion. *)
Fixpoint chunk_alloc (f : nat) (sz nObjs : Z) : prog state (Z * Z) :=
  match f with
  | O => diverge
  | S f =>
      let* q := get in
      let szTotal := wrap w (sz * nObjs) in
      let szLeft := wrap w (end_free q - start_free q) in
      if szTotal <=? szLeft then
        modify (set_start (start_free q + szTotal)) ;;; ret (start_free q, nObjs)
      else if sz <=? szLeft then
        let nObjs' := szLeft / sz in
        let szTotal' := wrap w (sz * nObjs') in
        modify (set_start (start_free q + szTotal')) ;;; ret (start_free q, nObjs')
      else
        (if 0 <? szLeft then push_free (FREELISTINDEX szLeft) (start_free q) else ret tt) ;;;
        new_chunk szTotal ;;;
        chunk_alloc f sz nObjs
  end.

Definition re_fill (n : Z) : prog state Z :=
  let* c := chunk_alloc 2 n NUM_NODE in
  let '(pChunk, nObjs) := c in
  if nObjs =? 1 then ret pChunk
  else
    set_list (FREELISTINDEX n) (pChunk + n) ;;;
    on_machine (link_objs psz (Z.to_nat NUM_NODE) n (nObjs - 1) 1 (pChunk + n)) ;;;
    ret pChunk.

Definition allocate (n : Z) : prog state Z :=
  if max_bytes <? n then on_machine (MallocPool.allocate run_handler fuel n)
  else
    let* pResult := get_list (FREELISTINDEX n) in
    if pResult =? 0 then re_fill (ROUNDUP n)
    else
      let* pFreeListLink := on_machine (get_link psz pResult) in
      set_list (FREELISTINDEX n) pFreeListLink ;;;
      ret pResult.

Definition deallocate (p n : Z) : prog state unit :=
  if max_bytes <? n then on_machine (MallocPool.deallocate p n)
  else push_free (FREELISTINDEX n) p.

Definition reallocate (p szOld szNew : Z) : prog state Z :=
  if (max_bytes <? szOld) && (max_bytes <? szNew) then
    on_machine (MallocPool.reallocate run_handler fuel p szOld szNew)
  else if ROUNDUP szOld =? ROUNDUP szNew then ret p
  else
    let* pResult := allocate szNew in
    let szcopy := if szOld <? szNew then szOld else szNew in
    on_machine (machine_memmove pResult p szcopy) ;;;
    deallocate p szOld ;;;
    ret pResult.

(** [for(iter = buffers_.begin(); ...)]: the buffers are released in order. *)
Fixpoint release_buffers (l : list (Z * Z)) : prog state unit :=
  match l with
  | [] => ret tt
  | (p, n) :: l' => on_machine (at_deallocate p n) ;;; release_buffers l'
  end.

Definition clear : prog state unit :=
  let* q := get in
  release_buffers (buffers q) ;;;
  modify (fun q => Pool (start_free q) (end_free q) (heap_size q) [] (free_lists q)).

(** ** The invariant

    [sm]: the blocks clients hold from the free lists; [bg]: the ones they hold
    from [malloc_pool]; [fs]: the free lists; [rest]: what others own. Every byte of
    the buffers is in exactly one place: in the reserve [r], in the hands of one
    client, or in one free block. *)

Context `{!LibcLaws w Os} (ready : machine -> Prop).

(** What the pool relies on. *)
Class PoolLaws : Prop := {
  psz_range : (0 < psz <= 8)%nat;
  max_bytes_range : 0 < max_bytes /\ max_bytes mod 8 = 0 /\ 64 * max_bytes < 2 ^ w;
  ready_oom s s' : oom s' = oom s -> ready s -> ready s';
  at_allocate_law n s : ready s -> valid w (os s) -> 0 < n < 2 ^ w ->
    exists p s', at_allocate n s = Ret p s' /\ ready s' /\
      ((p = 0 /\ kept w s s') \/ (p <> 0 /\ fresh w p n s s'));
  fallback_law n s : ready s -> valid w (os s) -> 0 < n < 2 ^ w ->
    exists s', ready s' /\
      ((exists p, MallocPool.allocate run_handler fuel n s = Ret p s' /\ fresh w p n s s') \/
       (MallocPool.allocate run_handler fuel n s = Throw bad_alloc s' /\ kept w s s'));
  fallback_realloc_law p n n' r s : ready s -> valid w (os s) ->
    owned (os s) ≡ₚ (p, n) :: r -> 0 < n' < 2 ^ w ->
    exists s', ready s' /\
      ((exists q, MallocPool.reallocate run_handler fuel p n n' s = Ret q s' /\
          moved w p n q n' r s s') \/
       (MallocPool.reallocate run_handler fuel p n n' s = Throw bad_alloc s' /\ kept w s s'))
}.
Context `{!PoolLaws}.

Record inv (r : block) (s : state) (sm bg : list block) (fs : list (list Z))
    (rest : list block) : Prop := {
  inv_valid : valid w (os (mc s));
  inv_ready : ready (mc s);
  inv_len : length (free_lists (pl s)) = Z.to_nat NUM_FREE_LISTS;
  inv_chains : Forall2 (chain psz (mem (mc s))) (free_lists (pl s)) fs;
  inv_cover x : (hit x r + cover x sm + cover x (fblocks ALIGN fs))%nat = cover x (buffers (pl s));
  inv_owned : owned (os (mc s)) ≡ₚ buffers (pl s) ++ bg ++ rest;
  inv_aligned b : b ∈ sm ++ fblocks ALIGN fs -> 0 < b.1 /\ b.1 mod 8 = 0 /\ b.1 + b.2 < 2 ^ w;
  inv_heap : 0 <= heap_size (pl s) < 2 ^ w
}.

Definition spares (l : list block) (s s' : state) : Prop := agree l (mem (mc s)) (mem (mc s')).

Lemma inv_disjoint r s sm bg fs rest x : inv r s sm bg fs rest ->
  (hit x r + cover x sm + cover x (fblocks ALIGN fs) + cover x bg <= 1)%nat /\
  (hit x r + cover x sm + cover x (fblocks ALIGN fs) + cover x bg <= cover x (owned (os (mc s))))%nat.
Proof.
  intros I. pose proof (valid_disjoint _ x (inv_valid _ _ _ _ _ _ I)) as Hd.
  rewrite (inv_owned _ _ _ _ _ _ I), !cover_app in *. rewrite <- (inv_cover _ _ _ _ _ _ I) in *. lia.
Qed.

Lemma inv_agree r s sm bg fs rest m' : inv r s sm bg fs rest ->
  agree (owned (os (mc s))) (mem (mc s)) m' ->
  agree (sm ++ bg) (mem (mc s)) m' /\ Forall2 (chain psz m') (free_lists (pl s)) fs.
Proof.
  intros I Ha. split.
  - eapply agree_weaken; [|done]. intros x. rewrite cover_app.
    pose proof (inv_disjoint _ _ _ _ _ _ x I). lia.
  - eapply (chains_frame psz ALIGN); [pose proof psz_range; unfold ALIGN; lia| |apply I].
    eapply agree_weaken; [|done]. intros x. pose proof (inv_disjoint _ _ _ _ _ _ x I). lia.
Qed.

(** The machine may change as long as the blocks stay. *)
Lemma inv_kept r s sm bg fs rest m' : inv r s sm bg fs rest ->
  kept w (mc s) m' -> ready m' ->
  inv r (State (pl s) m') sm bg fs rest /\ spares (sm ++ bg) s (State (pl s) m').
Proof.
  intros I (Hv & Ho & Ha) Hr. destruct (inv_agree _ _ _ _ _ _ _ I Ha) as [Hs Hc].
  split; [|done]. destruct I; split; cbn; try done. by rewrite Ho.
Qed.

Lemma inv_fresh r s sm bg fs rest p n m' : inv r s sm bg fs rest ->
  fresh w p n (mc s) m' -> ready m' ->
  inv r (State (pl s) m') sm ((p, n) :: bg) fs rest /\ spares (sm ++ bg) s (State (pl s) m').
Proof.
  intros I (Hv & Hp & Ho & Ha) Hr. destruct (inv_agree _ _ _ _ _ _ _ I Ha) as [Hs Hc].
  split; [|done]. destruct I; split; cbn; try done.
  rewrite Ho, inv_owned0. by rewrite Permutation_middle.
Qed.

(** Bytes the free blocks do not use may be written. *)
Lemma inv_write r s sm bg fs rest m' : inv r s sm bg fs rest ->
  agree (fblocks ALIGN fs) (mem (mc s)) m' ->
  inv r (State (pl s) (Machine m' (os (mc s)) (oom (mc s)))) sm bg fs rest.
Proof.
  intros I Ha. pose proof psz_range. destruct I; split; cbn; try done.
  - by apply (ready_oom (mc s)).
  - by eapply (chains_frame psz ALIGN); [unfold ALIGN; lia| |].
Qed.

(** ** Free lists *)

Definition with_list (i : nat) (h : Z) (q : pool) : pool :=
  Pool (start_free q) (end_free q) (heap_size q) (buffers q) (<[i := h]> (free_lists q)).

Lemma index_range r s sm bg fs rest i : inv r s sm bg fs rest -> (i < Z.to_nat NUM_FREE_LISTS)%nat ->
  exists h l, free_lists (pl s) !! i = Some h /\ fs !! i = Some l /\ chain psz (mem (mc s)) h l /\
    get_list (Z.of_nat i) s = Ret h s /\
    forall v m, set_list (Z.of_nat i) v (State (pl s) m) = Ret tt (State (with_list i v (pl s)) m).
Proof.
  intros I Hi. destruct (lookup_lt_is_Some_2 (free_lists (pl s)) i) as [h Hh];
    [by rewrite (inv_len _ _ _ _ _ _ I)|].
  destruct (Forall2_lookup_l _ _ _ _ _ (inv_chains _ _ _ _ _ _ I) Hh) as (l & Hl & Hc).
  exists h, l. split_and!; [done..| |].
  - unfold get_list. rewrite (proj2 (Z.ltb_lt _ _)) by (rewrite (inv_len _ _ _ _ _ _ I); lia).
    rewrite Nat2Z.id. by rewrite (list_lookup_total_correct _ _ _ Hh).
  - intros v m. unfold set_list, modify, with_list. cbn [pl mc].
    rewrite (proj2 (Z.ltb_lt _ _)) by (rewrite (inv_len _ _ _ _ _ _ I); lia). by rewrite Nat2Z.id.
Qed.

(** Moving a block between the clients and a free list. *)
Lemma inv_with_list r s sm sm' bg fs rest i h l l' : inv r s sm bg fs rest ->
  fs !! i = Some l -> chain psz (mem (mc s)) h l' ->
  (forall x, cover x sm + cover x (sized (ALIGN + ALIGN * Z.of_nat i) l) =
             cover x sm' + cover x (sized (ALIGN + ALIGN * Z.of_nat i) l'))%nat ->
  (forall b, b ∈ sm' ++ sized (ALIGN + ALIGN * Z.of_nat i) l' ->
     0 < b.1 /\ b.1 mod 8 = 0 /\ b.1 + b.2 < 2 ^ w) ->
  inv r (State (with_list i h (pl s)) (mc s)) sm' bg (<[i := l']> fs) rest.
Proof.
  intros I Hl Hc Hx Ha. destruct I; split; cbn; try done.
  - by rewrite length_insert.
  - by apply Forall2_insert.
  - intros x. rewrite <- inv_cover0. specialize (Hx x).
    pose proof (fblocks_insert x ALIGN fs i l l' Hl). lia.
  - intros [a n] [Hb|Hb]%elem_of_app; [apply Ha; set_solver|].
    apply elem_of_fblocks in Hb as (j & k & Hj & -> & Hk). destruct (decide (i = j)) as [<-|Hij].
    + rewrite list_lookup_insert_eq in Hj by (by eapply lookup_lt_Some). simplify_eq.
      apply Ha, elem_of_app. right. by apply elem_of_sized.
    + rewrite list_lookup_insert_ne in Hj by done.
      apply inv_aligned0, elem_of_app. right. apply elem_of_fblocks. eauto.
Qed.

Lemma chain_head r s sm bg fs rest i l h : inv r s sm bg fs rest ->
  fs !! i = Some l -> chain psz (mem (mc s)) h l -> 0 <= h < 2 ^ w.
Proof.
  intros I Hl Hc. pose proof psz_range. destruct l as [|a l].
  - cbn in Hc. subst. split; [done|]. apply Z.pow_pos_nonneg; lia.
  - destruct Hc as (-> & _ & _).
    assert (Ha : (a, ALIGN + ALIGN * Z.of_nat i) ∈ sm ++ fblocks ALIGN fs).
    { apply elem_of_app. right. apply elem_of_fblocks. exists i, (a :: l). set_solver. }
    apply (inv_aligned _ _ _ _ _ _ I) in Ha. cbn in Ha. unfold ALIGN in *. lia.
Qed.

(** Giving the block [p] back to the list [i]. *)
Lemma push_free_ok r s sm bg fs rest i p : 
  inv r s ((p, ALIGN + ALIGN * Z.of_nat i) :: sm) bg fs rest ->
  (i < Z.to_nat NUM_FREE_LISTS)%nat ->
  exists m' l, fs !! i = Some l /\
    let s' := State (with_list i p (pl s)) (Machine m' (os (mc s)) (oom (mc s))) in
    push_free (Z.of_nat i) p s = Ret tt s' /\
    inv r s' sm bg (<[i := p :: l]> fs) rest /\ spares (sm ++ bg) s s'.
Proof.
  intros I Hi. pose proof psz_range as Hp.
  destruct (index_range _ _ _ _ _ _ i I Hi) as (h & l & Hh & Hl & Hc & Hget & Hset).
  assert (Hblk : 0 < p /\ p mod 8 = 0 /\ p + (ALIGN + ALIGN * Z.of_nat i) < 2 ^ w).
  { apply (inv_aligned _ _ _ _ _ _ I (p, _)). set_solver. }
  assert (Hin : forall x, p <= x < p + Z.of_nat psz ->
    (1 <= cover x (owned (os (mc s))) /\ cover x (sm ++ bg ++ fblocks ALIGN fs) = 0)%nat).
  { intros x Hx. pose proof (inv_disjoint _ _ _ _ _ _ x I) as Hd. cbn [cover] in Hd.
    rewrite hit_in in Hd by (unfold ALIGN; lia). rewrite !cover_app. lia. }
  set (m' := store_ptr psz p h (mem (mc s))).
  assert (Hag : agree (sm ++ bg ++ fblocks ALIGN fs) (mem (mc s)) m').
  { intros x Hx. apply store_ptr_out.
    destruct (decide (p <= x < p + Z.of_nat psz)) as [Hx'|]; [|lia]. apply Hin in Hx'. lia. }
  assert (I' : inv r (State (pl s) (Machine m' (os (mc s)) (oom (mc s))))
    ((p, ALIGN + ALIGN * Z.of_nat i) :: sm) bg fs rest).
  { apply inv_write; [done|]. eapply agree_weaken; [|done]. intros x. rewrite !cover_app. lia. }
  exists m', l. split; [done|]. cbn zeta. split_and!.
  - unfold push_free. rewrite (bind_ret _ _ _ _ _ Hget).
    unfold bind, on_machine, set_link. rewrite accessible_true by (intros; by apply Hin).
    apply Hset.
  - apply (inv_with_list _ _ _ _ _ _ _ _ _ _ _ I' Hl).
    + cbn. split_and!; [done|lia|]. unfold m'.
      rewrite load_store_ptr by exact (chain_head _ _ _ _ _ _ _ _ _ I Hl Hc).
      destruct (index_range _ _ _ _ _ _ i I' Hi) as (h' & l' & Hh' & Hl' & Hc' & _).
      cbn [pl] in Hh'. by simplify_eq.
    + intros x. rewrite cover_sized_cons. cbn [cover]. lia.
    + intros b [Hb|Hb]%elem_of_app; [apply (inv_aligned _ _ _ _ _ _ I); set_solver|].
      unfold sized in Hb. rewrite fmap_cons in Hb. apply elem_of_cons in Hb as [->|Hb]; [done|].
      apply (inv_aligned _ _ _ _ _ _ I), elem_of_app. right. destruct b as [a n].
      apply elem_of_sized in Hb as [-> Hb]. apply elem_of_fblocks. eauto.
  - eapply agree_weaken; [|apply Hag]. intros x. rewrite !cover_app. lia.
Qed.

(** Taking the head of a non-empty list. *)
Lemma pop_ok r s sm bg fs rest i h : inv r s sm bg fs rest ->
  (i < Z.to_nat NUM_FREE_LISTS)%nat -> free_lists (pl s) !! i = Some h -> h <> 0 ->
  exists v fs', on_machine (get_link psz h) s = Ret v s /\
    let s' := State (with_list i v (pl s)) (mc s) in
    set_list (Z.of_nat i) v s = Ret tt s' /\
    inv r s' ((h, ALIGN + ALIGN * Z.of_nat i) :: sm) bg fs' rest.
Proof.
  intros I Hi Hh H0'. pose proof psz_range as Hp.
  destruct (index_range _ _ _ _ _ _ i I Hi) as (h' & l & Hh' & Hl & Hc & _ & Hset). simplify_eq.
  destruct l as [|a l]; [done|]. destruct Hc as (<- & _ & Hc).
  assert (Hb : (h, ALIGN + ALIGN * Z.of_nat i) ∈ fblocks ALIGN fs).
  { apply elem_of_fblocks. exists i, (h :: l). set_solver. }
  exists (load_ptr psz (mem (mc s)) h), (<[i := l]> fs). split; [|cbn zeta; split].
  - unfold on_machine, get_link. rewrite accessible_true; [by destruct s|].
    intros x Hx. pose proof (cover_elem x _ _ Hb) as Hle. rewrite hit_in in Hle by (unfold ALIGN; lia).
    pose proof (inv_disjoint _ _ _ _ _ _ x I). lia.
  - destruct s as [q m]. apply Hset.
  - eapply (inv_with_list _ _ _ _ _ _ _ _ _ _ _ I Hl); [done| |].
    + intros x. rewrite cover_sized_cons. cbn [cover]. lia.
    + intros b Hb'. cbn in Hb'. apply elem_of_cons in Hb' as [->|Hb'].
      * apply (inv_aligned _ _ _ _ _ _ I). set_solver.
      * apply elem_of_app in Hb' as [Hb'|Hb']; [apply (inv_aligned _ _ _ _ _ _ I); set_solver|].
        destruct b as [b n]. apply elem_of_sized in Hb' as [-> Hb'].
        apply (inv_aligned _ _ _ _ _ _ I), elem_of_app. right. apply elem_of_fblocks.
        exists i, (h :: l). set_solver.
Qed.

(** ** Sizes *)

Lemma pow_w : 512 <= 2 ^ w.
Proof. pose proof max_bytes_range as (? & Hm & ?). pose proof (Z.div_mod max_bytes 8). lia. Qed.

Lemma roundup_ok n : 0 <= n -> n + 7 < 2 ^ w ->
  n <= ROUNDUP n < n + 8 /\ ROUNDUP n mod 8 = 0.
Proof.
  intros. pose proof psz_range. apply (round_up_bounds w 3); [lia|done|].
  change (2 ^ 3) with 8. lia.
Qed.

(** The list of a size: 8 (i + 1) is the size rounded up, and it fits. *)
Lemma class_of n : 0 < n <= max_bytes ->
  exists i, (i < Z.to_nat NUM_FREE_LISTS)%nat /\ FREELISTINDEX n = Z.of_nat i /\
    ROUNDUP n = ALIGN + ALIGN * Z.of_nat i /\ n <= ROUNDUP n <= max_bytes.
Proof.
  intros Hn. pose proof max_bytes_range as (Hm0 & Hm & Hw). pose proof psz_range.
  pose proof (Z.div_mod max_bytes 8 ltac:(done)) as Hd.
  exists (Z.to_nat ((n - 1) / 8)).
  pose proof (Z.div_mod (n - 1) 8 ltac:(done)). pose proof (Z.mod_pos_bound (n - 1) 8 ltac:(done)).
  assert (Hr : ROUNDUP n = 8 + 8 * ((n - 1) / 8)).
  { unfold ROUNDUP. rewrite round_up_spec by (change (2 ^ 3) with 8; lia).
    change (2 ^ 3) with 8. replace (n + 8 - 1) with (n - 1 + 1 * 8) by lia.
    rewrite Z.div_add by done. lia. }
  rewrite Hr. unfold NUM_FREE_LISTS, FREELISTINDEX, ALIGN. split_and!; try lia.
  rewrite (wrap_small w (n + 8 - 1)) by lia.
  replace (n + 8 - 1) with (n - 1 + 1 * 8) by lia. rewrite Z.div_add by done.
  rewrite wrap_small; lia.
Qed.

Lemma class_mono n n' i i' : 0 < n < n' -> n' <= max_bytes -> n mod 8 = 0 ->
  FREELISTINDEX n = Z.of_nat i -> FREELISTINDEX n' = Z.of_nat i' -> i <> i'.
Proof.
  intros Hn Hn' Hm Hi Hi' ->.
  destruct (class_of n) as (j & _ & Hj & Hr & Hl); [lia|].
  destruct (class_of n') as (j' & _ & Hj' & Hr' & Hl'); [lia|].
  pose proof max_bytes_range.
  pose proof (roundup_ok n ltac:(lia) ltac:(lia)) as [? Hrm].
  pose proof (Z.div_mod n 8 ltac:(done)). pose proof (Z.div_mod (ROUNDUP n) 8 ltac:(done)). lia.
Qed.

(** ** Chunks *)

(** The reserve [start_free_, end_free_) lies in the address space. *)
Definition tight (q : pool) : Prop :=
  0 <= start_free q <= end_free q /\ end_free q < 2 ^ w /\
  start_free q mod 8 = 0 /\ end_free q mod 8 = 0 /\ (0 < start_free q \/ end_free q = 0).

Definition reserve (q : pool) : block := (start_free q, end_free q - start_free q).

(** The whole invariant. *)
Definition holds (s : state) (sm bg rest : list block) : Prop :=
  tight (pl s) /\ exists fs, inv (reserve (pl s)) s sm bg fs rest.

(** The invariant only sees the reserve through [r]. *)
Lemma inv_reserve r r' a e s sm sm' bg fs rest : inv r s sm bg fs rest ->
  (forall x, hit x r + cover x sm = hit x r' + cover x sm')%nat ->
  (forall b, b ∈ sm' -> b ∈ sm \/ (0 < b.1 /\ b.1 mod 8 = 0 /\ b.1 + b.2 < 2 ^ w)) ->
  inv r' (State (Pool a e (heap_size (pl s)) (buffers (pl s)) (free_lists (pl s))) (mc s)) sm' bg fs rest.
Proof.
  intros I Hx Ha. destruct I; split; cbn; try done.
  - intros x. rewrite <- inv_cover0. specialize (Hx x). lia.
  - intros b [Hb|Hb]%elem_of_app; [|apply inv_aligned0; set_solver].
    destruct (Ha b Hb); [apply inv_aligned0; set_solver|done].
Qed.

Lemma inv_move r r' s sm sm' bg fs rest : inv r s sm bg fs rest ->
  (forall x, hit x r + cover x sm = hit x r' + cover x sm')%nat ->
  (forall b, b ∈ sm' -> b ∈ sm \/ (0 < b.1 /\ b.1 mod 8 = 0 /\ b.1 + b.2 < 2 ^ w)) ->
  inv r' s sm' bg fs rest.
Proof.
  intros I Hx Ha. pose proof (inv_reserve _ _ (start_free (pl s)) (end_free (pl s)) _ _ _ _ _ _ I Hx Ha).
  by destruct s as [[] ?].
Qed.

(** A new buffer becomes the reserve. *)
Lemma inv_buffer s sm bg fs rest p n m' : inv (0, 0) s sm bg fs rest ->
  fresh w p n (mc s) m' -> ready m' -> 0 < n -> n mod 8 = 0 ->
  let s' := State (Pool p (p + n) (wrap w (heap_size (pl s) + n))
                        (buffers (pl s) ++ [(p, n)]) (free_lists (pl s))) m' in
  tight (pl s') /\ inv (reserve (pl s')) s' sm bg fs rest /\ spares (sm ++ bg) s s'.
Proof.
  intros I (Hv & (Hp & Hpn & Hp8) & Ho & Ha) Hr Hn Hn8.
  destruct (inv_agree _ _ _ _ _ _ _ I Ha) as [Hs Hc]. cbn zeta. split; [|split; [|done]].
  - unfold tight. cbn. split_and!; try lia. by rewrite Z.add_mod, Hp8, Hn8.
  - destruct I; split; cbn; try done.
    + intros x. rewrite cover_app. cbn. specialize (inv_cover0 x).
      rewrite hit_empty in inv_cover0. unfold reserve. cbn.
      replace (p + n - p) with n by lia. lia.
    + rewrite Ho, inv_owned0. rewrite <- (app_assoc (buffers (pl s))). apply Permutation_middle.
    + apply wrap_range. lia.
Qed.

Lemma new_chunk_ok szTotal s sm bg fs rest :
  inv (0, 0) s sm bg fs rest -> 0 < szTotal <= 20 * max_bytes -> szTotal mod 8 = 0 ->
  match new_chunk szTotal s with
  | Ret _ s' => tight (pl s') /\ inv (reserve (pl s')) s' sm bg fs rest /\
                szTotal <= (reserve (pl s')).2 /\ spares (sm ++ bg) s s'
  | Throw e s' => e = bad_alloc /\ holds s' sm bg rest /\ spares (sm ++ bg) s s'
  | UB | OutOfFuel => False
  end.
Proof.
  intros I Hsz H8. pose proof max_bytes_range as (Hm0 & Hm & Hw). pose proof pow_w.
  destruct (roundup_ok (Z.shiftr (heap_size (pl s)) 4)) as [Hru Hru8].
  { apply Z.shiftr_nonneg, I. }
  { rewrite Z.shiftr_div_pow2 by done. change (2 ^ 4) with 16.
    pose proof (inv_heap _ _ _ _ _ _ I). pose proof (Z.div_mod (heap_size (pl s)) 16 ltac:(done)).
    pose proof (Z.mod_pos_bound (heap_size (pl s)) 16 ltac:(done)). lia. }
  rewrite Z.shiftr_div_pow2 in * by done. change (2 ^ 4) with 16 in *.
  pose proof (inv_heap _ _ _ _ _ _ I). pose proof (Z.div_mod (heap_size (pl s)) 16 ltac:(done)).
  pose proof (Z.mod_pos_bound (heap_size (pl s)) 16 ltac:(done)).
  set (szGet := 2 * szTotal + ROUNDUP (heap_size (pl s) / 16)) in *.
  assert (Hg : 0 < szGet < 2 ^ w) by lia.
  assert (Hg8 : szGet mod 8 = 0).
  { unfold szGet. rewrite Z.add_mod, Z.mul_mod, H8, Hru8 by done. done. }
  assert (Hcode : new_chunk szTotal s =
    (let* p := on_machine (at_allocate szGet) in
     modify (set_start p) ;;;
     (if p =? 0 then
        modify (set_end 0) ;;;
        let* p' := on_machine (MallocPool.allocate run_handler fuel szGet) in
        modify (set_start p')
      else ret tt) ;;;
     modify (fun q => Pool (start_free q) (start_free q + szGet) (wrap w (heap_size q + szGet))
                           (buffers q ++ [(start_free q, szGet)]) (free_lists q))) s).
  { unfold new_chunk, bind at 1, get. rewrite Z.shiftr_div_pow2 by done. change (2 ^ 4) with 16.
    fold szGet. by rewrite (wrap_small w szGet) by lia. }
  rewrite Hcode. clear Hcode.
  destruct (at_allocate_law szGet (mc s)) as (p & m1 & Ha & Hr1 & Hc); [apply I|apply I|done|].
  unfold bind at 1. unfold on_machine at 1. rewrite Ha.
  destruct Hc as [[-> Hk]|[Hp Hf]].
  - destruct (inv_kept _ _ _ _ _ _ _ I Hk Hr1) as [I1 Hs1]. cbn [Z.eqb].
    destruct (fallback_law szGet m1) as (m2 & Hr2 & [(p & Hc & Hf)|(Hc & Hk2)]);
      [done|apply Hk|done| |]; unfold bind, modify, on_machine; cbn [mc]; rewrite Hc.
    + destruct (inv_buffer _ _ _ _ _ _ _ _ I1 Hf Hr2) as (Ht & I2 & Hs2); [lia|done|].
      cbn. split_and!; [apply Ht|apply I2|lia|]. by eapply agree_trans.
    + destruct (inv_kept _ _ _ _ _ _ _ I1 Hk2 Hr2) as [I2 Hs2].
      cbn. split_and!; [done| |by eapply agree_trans]. split.
      * unfold tight. cbn. pose proof pow_w. split_and!; (done || lia || by right).
      * exists fs. by eapply (inv_reserve _ _ 0 0 _ _ _ _ _ _ I2); [|left].
  - apply Z.eqb_neq in Hp as ->. unfold bind, modify, ret. cbn.
    destruct (inv_buffer _ _ _ _ _ _ _ _ I Hf Hr1) as (Ht & I2 & Hs2); [lia|done|].
    split_and!; [apply Ht|apply I2|lia|done].
Qed.

(** Cutting [n] bytes off the reserve. *)
Lemma take_ok s sm bg fs rest n : tight (pl s) -> inv (reserve (pl s)) s sm bg fs rest ->
  0 < n <= end_free (pl s) - start_free (pl s) -> n mod 8 = 0 ->
  let s' := State (set_start (start_free (pl s) + n) (pl s)) (mc s) in
  tight (pl s') /\ inv (reserve (pl s')) s' ((start_free (pl s), n) :: sm) bg fs rest.
Proof.
  intros (Ht1 & Ht2 & Ht3 & Ht4 & Ht5) I Hn Hn8. cbn zeta. split.
  - unfold tight, set_start. cbn. split_and!; try lia. by rewrite Z.add_mod, Ht3, Hn8.
  - eapply (inv_reserve _ _ (start_free (pl s) + n) (end_free (pl s)) _ _ _ _ _ _ I).
    + intros x. unfold reserve. cbn [cover start_free end_free pl set_start].
      rewrite (hit_split x (start_free (pl s)) (end_free (pl s) - start_free (pl s)) n) by lia.
      replace (end_free (pl s) - (start_free (pl s) + n))
        with (end_free (pl s) - start_free (pl s) - n) by lia. lia.
    + intros b [->|Hb]%elem_of_cons; [right; cbn; lia|by left].
Qed.

(** What [chunk_alloc] answers: [k] blocks of [sz] bytes. *)
Definition chunk_post (sz : Z) (s : state) (sm bg : list block) (fs : list (list Z))
    (rest : list block) (r : outcome state (Z * Z)) : Prop :=
  match r with
  | Ret (p, k) s' =>
      1 <= k <= NUM_NODE /\ tight (pl s') /\ spares (sm ++ bg) s s' /\
      exists fs', inv (reserve (pl s')) s' ((p, k * sz) :: sm) bg fs' rest /\
        forall i, FREELISTINDEX sz = Z.of_nat i -> fs' !! i = fs !! i
  | Throw e s' => e = bad_alloc /\ holds s' sm bg rest /\ spares (sm ++ bg) s s'
  | UB | OutOfFuel => False
  end.

Lemma chunk_alloc_enough f sz s sm bg fs rest :
  tight (pl s) -> inv (reserve (pl s)) s sm bg fs rest ->
  0 < sz <= max_bytes -> sz mod 8 = 0 -> sz <= end_free (pl s) - start_free (pl s) ->
  chunk_post sz s sm bg fs rest (chunk_alloc (S f) sz NUM_NODE s).
Proof.
  intros Ht I Hsz H8 Hl. pose proof max_bytes_range as (Hm0 & Hm & Hw).
  assert (Hk : forall k, 0 < k <= NUM_NODE -> k * sz <= end_free (pl s) - start_free (pl s) ->
    chunk_post sz s sm bg fs rest
      (Ret (start_free (pl s), k) (State (set_start (start_free (pl s) + k * sz) (pl s)) (mc s)))).
  { intros k Hk Hks. destruct (take_ok s sm bg fs rest (k * sz)) as [Ht' I']; [done..|nia| |].
    - by rewrite Z.mul_mod, H8, Z.mul_0_r by done.
    - cbn. split_and!; [lia|lia|apply Ht'|done|]. by exists fs. }
  unfold NUM_NODE in *. pose proof Ht as (Ht1 & Ht2 & _).
  cbn [chunk_alloc]. unfold bind at 1, get.
  rewrite (wrap_small w (sz * 20)) by lia.
  rewrite (wrap_small w (_ - _)) by lia.
  destruct (_ <=? _) eqn:E1; bool_props.
  { unfold bind, modify, ret. replace (sz * 20) with (20 * sz) by lia. apply Hk; lia. }
  rewrite (proj2 (Z.leb_le sz _)) by done.
  set (n := (end_free (pl s) - start_free (pl s)) / sz).
  pose proof (Z.div_mod (end_free (pl s) - start_free (pl s)) sz ltac:(lia)) as Hd. fold n in Hd.
  pose proof (Z.mod_pos_bound (end_free (pl s) - start_free (pl s)) sz ltac:(lia)).
  assert (1 <= n < 20) by nia.
  rewrite (wrap_small w (sz * n)) by nia. unfold bind, modify, ret.
  replace (sz * n) with (n * sz) by lia. apply Hk; lia.
Qed.

(** The bytes left, fewer than a block, go to the list of their size. *)
Lemma leftover_ok sz s sm bg fs rest :
  tight (pl s) -> inv (reserve (pl s)) s sm bg fs rest ->
  0 < sz <= max_bytes -> let left := end_free (pl s) - start_free (pl s) in left < sz ->
  exists s1 fs1, (if 0 <? left then push_free (FREELISTINDEX left) (start_free (pl s))
    else ret tt) s = Ret tt s1 /\ inv (0, 0) s1 sm bg fs1 rest /\ spares (sm ++ bg) s s1 /\
    forall i, FREELISTINDEX sz = Z.of_nat i -> fs1 !! i = fs !! i.
Proof.
  intros (Ht1 & Ht2 & Ht3 & Ht4 & Ht5) I Hsz left Hl.
  destruct (0 <? left) eqn:E; bool_props.
  - destruct (class_of left) as (i & Hi & Hfi & Hru & _); [lia|].
    assert (Hl8 : left mod 8 = 0) by (unfold left; by rewrite Zminus_mod, Ht3, Ht4).
    pose proof (roundup_ok left) as [Hr1 Hr2]; [lia|pose proof max_bytes_range; lia|].
    assert (Hsame : left = ALIGN + ALIGN * Z.of_nat i).
    { rewrite <- Hru. pose proof (Z.div_mod left 8 ltac:(done)).
      pose proof (Z.div_mod (ROUNDUP left) 8 ltac:(done)). lia. }
    assert (I0 : inv (0, 0) s ((start_free (pl s), ALIGN + ALIGN * Z.of_nat i) :: sm) bg fs rest).
    { eapply inv_move; [done| |].
      - intros x. unfold reserve. fold left. rewrite <- Hsame, hit_empty. cbn [cover]. lia.
      - intros b [->|Hb]%elem_of_cons; [right; cbn; lia|by left]. }
    destruct (push_free_ok _ _ _ _ _ _ _ _ I0 Hi) as (m' & l & Hlk & Hp & I1 & Hs).
    eexists _, _. split_and!; [by rewrite Hfi|done|done|].
    intros j Hj. apply list_lookup_insert_ne.
    by apply (class_mono left sz i j); [lia|lia| | |].
  - exists s, fs. split_and!; [done| |done|done].
    eapply inv_move; [done| |by left].
    intros x. unfold reserve. fold left. replace left with 0 by lia. by rewrite !hit_empty.
Qed.

Lemma chunk_alloc_ok f sz s sm bg fs rest :
  tight (pl s) -> inv (reserve (pl s)) s sm bg fs rest ->
  0 < sz <= max_bytes -> sz mod 8 = 0 ->
  chunk_post sz s sm bg fs rest (chunk_alloc (S (S f)) sz NUM_NODE s).
Proof.
  intros Ht I Hsz H8. pose proof max_bytes_range as (Hm0 & Hm & Hw).
  set (left := end_free (pl s) - start_free (pl s)).
  destruct (decide (sz <= left)) as [Hl|Hl]; [by apply chunk_alloc_enough|].
  pose proof Ht as (Ht1 & Ht2 & Ht3 & Ht4 & Ht5).
  assert (Hcode : chunk_alloc (S (S f)) sz NUM_NODE s =
    ((if 0 <? left then push_free (FREELISTINDEX left) (start_free (pl s)) else ret tt) ;;;
     new_chunk (NUM_NODE * sz) ;;; chunk_alloc (S f) sz NUM_NODE) s).
  { remember (S f) as f1. cbn [chunk_alloc]. unfold bind at 1, get. unfold NUM_NODE.
    rewrite (wrap_small w (sz * 20)) by lia.
    rewrite (wrap_small w (_ - _)) by lia. fold left.
    rewrite (proj2 (Z.leb_gt _ left)) by lia. rewrite (proj2 (Z.leb_gt sz left)) by lia.
    by rewrite (Z.mul_comm sz). }
  rewrite Hcode. clear Hcode.
  destruct (leftover_ok sz s sm bg fs rest Ht I Hsz ltac:(fold left; lia))
    as (s1 & fs1 & Hp & I1 & Hs1 & Hfs1).
  fold left in Hp. rewrite (bind_ret _ _ _ _ _ Hp).
  pose proof (new_chunk_ok (NUM_NODE * sz) s1 sm bg fs1 rest I1) as Hn.
  unfold bind. destruct (new_chunk (NUM_NODE * sz) s1) as [[] s2|e s2| |].
  - destruct Hn as (Ht2' & I2 & Hr & Hs2); [unfold NUM_NODE; lia|by rewrite Z.mul_mod, H8 by done|].
    pose proof (chunk_alloc_enough f sz s2 sm bg fs1 rest Ht2' I2 Hsz H8) as Hc.
    unfold reserve, NUM_NODE in Hr, Hc. cbn [snd] in Hr. specialize (Hc ltac:(lia)).
    unfold NUM_NODE. destruct (chunk_alloc (S f) sz 20 s2) as [[p k] s3|e s3| |]; cbn in *; try done.
    + destruct Hc as (Hk & Ht3' & Hs3 & fs' & I3 & Hfs). split_and!; [lia|lia|done| |].
      * do 2 (eapply agree_trans; [done|]). done.
      * exists fs'. split; [done|]. intros i Hi. by rewrite Hfs, Hfs1.
    + destruct Hc as (-> & Hh & Hs3). split_and!; [done..|]. do 2 (eapply agree_trans; [done|]). done.
  - destruct Hn as (-> & Hh & Hs2); [unfold NUM_NODE; lia|by rewrite Z.mul_mod, H8 by done|].
    cbn. split_and!; [done..|]. by eapply agree_trans.
  - apply Hn; [unfold NUM_NODE; lia|by rewrite Z.mul_mod, H8 by done].
  - apply Hn; [unfold NUM_NODE; lia|by rewrite Z.mul_mod, H8 by done].
Qed.

(** ** The operations keep the pool *)

(** A block of [n] bytes for a client: from the free lists or from [malloc_pool]. *)
Definition given (n p : Z) (s : state) (sm bg rest : list block) : Prop :=
  if max_bytes <? n then holds s sm ((p, n) :: bg) rest
  else holds s ((p, ROUNDUP n) :: sm) bg rest.

Definition allocate_post (n : Z) (s : state) (sm bg rest : list block) (r : outcome state Z) : Prop :=
  match r with
  | Ret p s' => 0 < p /\ p mod 8 = 0 /\ given n p s' sm bg rest /\ spares (sm ++ bg) s s'
  | Throw e s' => e = bad_alloc /\ holds s' sm bg rest /\ spares (sm ++ bg) s s'
  | UB | OutOfFuel => False
  end.

Lemma refill_link sz k p i s sm bg fs rest :
  tight (pl s) -> inv (reserve (pl s)) s ((p, k * sz) :: sm) bg fs rest ->
  (i < Z.to_nat NUM_FREE_LISTS)%nat -> FREELISTINDEX sz = Z.of_nat i ->
  sz = ALIGN + ALIGN * Z.of_nat i -> fs !! i = Some [] -> 1 < k <= NUM_NODE ->
  exists s', (set_list (FREELISTINDEX sz) (p + sz) ;;;
      on_machine (link_objs psz (Z.to_nat NUM_NODE) sz (k - 1) 1 (p + sz)) ;;; ret p) s = Ret p s' /\
    holds s' ((p, sz) :: sm) bg rest /\ spares (sm ++ bg) s s'.
Proof.
  intros Ht I Hi Hf Hsz Hfs Hk. pose proof psz_range as Hp. unfold NUM_NODE in Hk.
  assert (Hblk : 0 < p /\ p mod 8 = 0 /\ p + k * sz < 2 ^ w).
  { apply (inv_aligned _ _ _ _ _ _ I (p, _)). set_solver. }
  assert (Hsz0 : 8 <= sz) by (unfold ALIGN in Hsz; lia).
  destruct (index_range _ _ _ _ _ _ i I Hi) as (h & l & Hh & Hl & Hc & _ & Hset).
  assert (l = []) as -> by congruence.
  assert (Hin : forall x, p <= x < p + k * sz ->
    (1 <= cover x (owned (os (mc s))) /\ cover x (sm ++ bg ++ fblocks ALIGN fs) = 0)%nat).
  { intros x Hx. pose proof (inv_disjoint _ _ _ _ _ _ x I) as Hd. cbn [cover] in Hd.
    rewrite hit_in in Hd by lia. rewrite !cover_app. lia. }
  destruct (link_objs_ok psz (Z.to_nat 20) (Z.to_nat (k - 2)) sz 1 (p + sz) (mc s))
    as (m' & Hlink & Hchain & Hout); [lia|lia|lia|lia|nia|intros; apply Hin; nia|].
  replace (1 + Z.of_nat (Z.to_nat (k - 2))) with (k - 1) in Hlink by lia.
  replace (S (Z.to_nat (k - 2))) with (Z.to_nat (k - 1)) in * by lia.
  assert (Hag : agree (sm ++ bg ++ fblocks ALIGN fs) (mem (mc s)) m').
  { intros x Hx. apply Hout. destruct (decide (p <= x < p + k * sz)) as [Hx'|]; [|nia].
    apply Hin in Hx'. lia. }
  exists (State (with_list i (p + sz) (pl s)) (Machine m' (os (mc s)) (oom (mc s)))).
  split; [|split; [split|]].
  - rewrite Hf. destruct s as [q m]. rewrite (bind_ret _ _ _ _ _ (Hset (p + sz) m)).
    unfold bind, on_machine, ret. cbn [mc pl]. unfold NUM_NODE. cbn [mc] in Hlink.
    by rewrite Hlink.
  - exact Ht.
  - exists (<[i := run (p + sz) sz (Z.to_nat (k - 1))]> fs).
    apply (inv_with_list _ (State (pl s) (Machine m' (os (mc s)) (oom (mc s))))
      ((p, k * sz) :: sm) _ _ _ _ _ _ [] (run (p + sz) sz (Z.to_nat (k - 1)))); [|done|done| |].
    + apply inv_write; [done|]. eapply agree_weaken; [|done]. intros x. rewrite !cover_app. lia.
    + intros x. rewrite <- Hsz, cover_run by lia. cbn [cover sized fmap list_fmap].
      rewrite (hit_split x p (k * sz) sz) by nia.
      replace (Z.of_nat (Z.to_nat (k - 1)) * sz) with (k * sz - sz) by lia. lia.
    + rewrite <- Hsz. intros b Hb. rewrite <- app_comm_cons in Hb.
      apply elem_of_cons in Hb as [->|[Hb|Hb]%elem_of_app]; [cbn; nia| |].
      * apply (inv_aligned _ _ _ _ _ _ I). set_solver.
      * destruct b as [b n]. apply elem_of_sized in Hb as [-> Hb]. cbn.
        pose proof (run_mod _ _ _ _ Hb) as Hm. apply elem_of_run in Hb; [|lia].
        split_and!; [lia| |lia]. unfold ALIGN in Hsz.
        apply Z.mod_divide in Hm as [c Hm]; [|lia].
        destruct Hblk as (_ & Hp8 & _). apply Z.mod_divide in Hp8 as [d Hd]; [|done].
        apply Z.mod_divide; [done|]. exists (d + (1 + c) * (1 + Z.of_nat i)). nia.
  - unfold spares. cbn. eapply agree_weaken; [|done]. intros x. rewrite !cover_app. lia.
Qed.

Lemma re_fill_ok i s sm bg fs rest : let sz := ALIGN + ALIGN * Z.of_nat i in
  tight (pl s) -> inv (reserve (pl s)) s sm bg fs rest ->
  (i < Z.to_nat NUM_FREE_LISTS)%nat -> FREELISTINDEX sz = Z.of_nat i -> sz <= max_bytes ->
  fs !! i = Some [] ->
  match re_fill sz s with
  | Ret p s' => 0 < p /\ p mod 8 = 0 /\ holds s' ((p, sz) :: sm) bg rest /\ spares (sm ++ bg) s s'
  | Throw e s' => e = bad_alloc /\ holds s' sm bg rest /\ spares (sm ++ bg) s s'
  | UB | OutOfFuel => False
  end.
Proof.
  intros sz Ht I Hi Hf Hmax Hfs.
  assert (Hsz8 : sz mod 8 = 0)
    by (unfold sz, ALIGN; replace (8 + 8 * Z.of_nat i) with ((1 + Z.of_nat i) * 8) by lia;
        by apply Z.mod_mul).
  pose proof (chunk_alloc_ok 0 sz s sm bg fs rest Ht I ltac:(unfold sz, ALIGN in *; lia) Hsz8) as Hc.
  unfold re_fill, bind at 1. destruct (chunk_alloc 2 sz NUM_NODE s) as [[p k] s1|e s1| |];
    cbn in Hc; try done.
  destruct Hc as (Hk & Ht1 & Hs1 & fs1 & I1 & Hfs1).
  specialize (Hfs1 i Hf). rewrite Hfs in Hfs1.
  assert (Hblk : 0 < p /\ p mod 8 = 0).
  { pose proof (inv_aligned _ _ _ _ _ _ I1 (p, k * sz) ltac:(set_solver)) as (? & ? & _). done. }
  destruct (k =? 1) eqn:Ek; bool_props.
  - subst k. rewrite Z.mul_1_l in I1. cbn. split_and!; [apply Hblk..| |done]. split; [done|eauto].
  - destruct (refill_link sz k p i s1 sm bg fs1 rest Ht1 I1 Hi Hf eq_refl Hfs1 ltac:(lia))
      as (s2 & -> & Hh & Hs2).
    split_and!; [apply Hblk..|done|]. by eapply agree_trans.
Qed.

Lemma allocate_core n s sm bg rest :
  holds s sm bg rest -> 0 < n < 2 ^ w -> allocate_post n s sm bg rest (allocate n s).
Proof.
  intros [Ht [fs I]] Hn. unfold allocate, allocate_post, given. destruct (max_bytes <? n) eqn:E.
  - unfold on_machine.
    destruct (fallback_law n (mc s)) as (m' & Hr & [(p & -> & Hf)|(-> & Hk)]); try done; try apply I.
    + destruct (inv_fresh _ _ _ _ _ _ _ _ _ I Hf Hr) as [I' Hs].
      destruct Hf as (_ & (? & _ & ?) & _). split_and!; [done..| |done]. split; [done|eauto].
    + destruct (inv_kept _ _ _ _ _ _ _ I Hk Hr) as [I' Hs]. split_and!; [done| |done].
      split; [done|eauto].
  - bool_props. destruct (class_of n) as (i & Hi & Hf & Hru & Hle); [lia|].
    destruct (index_range _ _ _ _ _ _ i I Hi) as (h & l & Hh & Hl & Hc & Hget & _).
    rewrite Hf, (bind_ret _ _ _ _ _ Hget), Hru. destruct (h =? 0) eqn:E0; bool_props.
    + subst h. destruct l as [|a l]; [|by destruct Hc as (<- & ? & _)].
      apply (re_fill_ok i s sm bg fs rest); try done; [|lia].
      destruct (class_of (ALIGN + ALIGN * Z.of_nat i)) as (j & _ & Hj & Hrj & _); [lia|].
      assert (j = i) as ->; [|done]. rewrite <- Hru in Hrj.
      destruct (roundup_ok (ROUNDUP n)) as [? Hm]; [lia|pose proof max_bytes_range; lia|].
      pose proof (Z.div_mod (ROUNDUP (ROUNDUP n)) 8 ltac:(done)). unfold ALIGN in *. lia.
    + destruct (pop_ok _ _ _ _ _ _ _ _ I Hi Hh E0) as (v & fs' & Hg & Hs & I').
      rewrite (bind_ret _ _ _ _ _ Hg), (bind_ret _ _ _ _ _ Hs). unfold ret.
      destruct (inv_aligned _ _ _ _ _ _ I' (h, ALIGN + ALIGN * Z.of_nat i)) as (? & ? & _); [set_solver|].
      split_and!; [done..| |done]. split; [done|]. by exists fs'.
Qed.

(** [C5] [allocate] never returns null and never fails otherwise than by
    [bad_alloc]: it returns an 8-aligned block of the size class of [n] that
    overlaps no other block, and on every outcome each byte of the buffers is
    still in exactly one place (the reserve, one client, one free list) and the
    clients' bytes are untouched. *)
Theorem allocate_ok n s sm bg rest :
  holds s sm bg rest -> 0 < n < 2 ^ w -> allocate_post n s sm bg rest (allocate n s).
Proof. apply allocate_core. Qed.

Lemma deallocate_core n p s sm bg rest :
  given n p s sm bg rest -> 0 < n < 2 ^ w ->
  exists s', deallocate p n s = Ret tt s' /\ holds s' sm bg rest /\ spares (sm ++ bg) s s'.
Proof.
  intros Hg Hn. unfold deallocate, given in *. destruct (max_bytes <? n) eqn:E; bool_props;
    destruct Hg as [Ht [fs I]].
  - unfold on_machine, MallocPool.deallocate.
    destruct (libc_free_ok w p n (buffers (pl s) ++ bg ++ rest) (mc s))
      as (m' & -> & Ho & Hv & Hr & Ha); [apply I|rewrite (inv_owned _ _ _ _ _ _ I); symmetry;
        rewrite <- app_comm_cons; apply Permutation_middle|].
    exists (State (pl s) m'). pose proof psz_range.
    assert (Hag : forall l, (forall x, (cover x l <= cover x (buffers (pl s)) + cover x bg)%nat) ->
      agree l (mem (mc s)) (mem m')).
    { intros l Hl. eapply agree_weaken; [|done]. intros x. rewrite !cover_app. specialize (Hl x). lia. }
    split_and!; [done| |].
    + split; [done|]. exists fs. destruct I; split; cbn; try done; [by apply (ready_oom (mc s))|].
      eapply (chains_frame psz ALIGN); [unfold ALIGN; lia| |done].
      apply Hag. intros x. rewrite <- inv_cover0. lia.
    + apply Hag. intros x. rewrite cover_app, <- (inv_cover _ _ _ _ _ _ I). lia.
  - destruct (class_of n) as (i & Hi & Hf & Hru & _); [lia|]. rewrite Hru in I.
    destruct (push_free_ok _ _ _ _ _ _ _ _ I Hi) as (m' & l & _ & Hp & I' & Hs).
    rewrite Hf. eexists. split_and!; [done| |done]. split; [done|eauto].
Qed.

(** [deallocate] of a block a client holds takes it back: the pool keeps its
    invariant without that block and the other clients' bytes are untouched. *)
Theorem deallocate_ok n p s sm bg rest :
  given n p s sm bg rest -> 0 < n < 2 ^ w ->
  exists s', deallocate p n s = Ret tt s' /\ holds s' sm bg rest /\ spares (sm ++ bg) s s'.
Proof. apply deallocate_core. Qed.

(** ** Reallocation *)

Definition sm_of (n p : Z) (sm : list block) : list block :=
  if max_bytes <? n then sm else (p, ROUNDUP n) :: sm.
Definition bg_of (n p : Z) (bg : list block) : list block :=
  if max_bytes <? n then (p, n) :: bg else bg.

Lemma given_eq n p s sm bg rest :
  given n p s sm bg rest = holds s (sm_of n p sm) (bg_of n p bg) rest.
Proof. unfold given, sm_of, bg_of. by destruct (_ <? _). Qed.

Lemma of_covers n p sm bg x : 0 < n < 2 ^ w -> exists N, n <= N /\
  (cover x (sm_of n p sm) + cover x (bg_of n p bg) = hit x (p, N) + cover x sm + cover x bg)%nat.
Proof.
  intros Hn. unfold sm_of, bg_of. destruct (max_bytes <? n) eqn:E; bool_props; cbn [cover].
  - exists n. lia.
  - destruct (class_of n) as (_ & _ & _ & _ & ?); [lia|]. exists (ROUNDUP n). lia.
Qed.

(** A client's block is its own. *)
Lemma given_own n p s sm bg rest x fs r : inv r s (sm_of n p sm) (bg_of n p bg) fs rest ->
  0 < n < 2 ^ w -> p <= x < p + n ->
  (1 <= cover x (owned (os (mc s))))%nat /\ cover x (sm ++ bg ++ fblocks ALIGN fs) = 0%nat.
Proof.
  intros I Hn Hx. pose proof (inv_disjoint _ _ _ _ _ _ x I) as Hd.
  destruct (of_covers n p sm bg x Hn) as (N & HN & Hc). rewrite hit_in in Hc by lia.
  rewrite !cover_app. lia.
Qed.

Lemma holds_perm s sm sm' bg bg' rest : sm ≡ₚ sm' -> bg ≡ₚ bg' ->
  holds s sm bg rest -> holds s sm' bg' rest.
Proof.
  intros Hs Hb [Ht [fs I]]. split; [done|]. exists fs. destruct I; split; try done.
  - intros x. rewrite <- Hs. apply inv_cover0.
  - by rewrite <- Hb.
  - intros b. rewrite <- Hs. apply inv_aligned0.
Qed.

(** Two blocks in turn, in either order. *)
Lemma given_swap n p n' p' s sm bg rest :
  given n p s (sm_of n' p' sm) (bg_of n' p' bg) rest ->
  given n' p' s (sm_of n p sm) (bg_of n p bg) rest.
Proof.
  rewrite !given_eq. apply holds_perm; unfold sm_of, bg_of;
    destruct (_ <? n), (_ <? n'); try done; constructor.
Qed.

(** A client may write into its block. *)
Lemma given_write n p s sm bg rest m' : given n p s sm bg rest -> 0 < n < 2 ^ w ->
  (forall x, x < p \/ p + n <= x -> m' x = mem (mc s) x) ->
  let s' := State (pl s) (Machine m' (os (mc s)) (oom (mc s))) in
  given n p s' sm bg rest /\ spares (sm ++ bg) s s'.
Proof.
  rewrite given_eq. intros [Ht [fs I]] Hn Hm.
  assert (Ha : agree (sm ++ bg ++ fblocks ALIGN fs) (mem (mc s)) m').
  { intros x Hx. apply Hm. destruct (decide (p <= x < p + n)) as [Hi|]; [|lia].
    apply (given_own _ _ _ _ _ _ _ _ _ I Hn) in Hi as [_ Hi]. lia. }
  cbn zeta. rewrite given_eq. split.
  - split; [done|]. exists fs. apply inv_write; [done|]. eapply agree_weaken; [|done].
    intros x. rewrite !cover_app. lia.
  - eapply agree_weaken; [|done]. intros x. rewrite !cover_app. lia.
Qed.

(** The first [k] bytes of a client's block move with [spares]. *)
Lemma spares_load n p sm bg s s' k : 0 < n < 2 ^ w -> Z.of_nat k <= n ->
  spares (sm_of n p sm ++ bg_of n p bg) s s' -> load p k (mem (mc s')) = load p k (mem (mc s)).
Proof.
  intros Hn Hk Hs. apply load_ext. intros x Hx. apply Hs. rewrite cover_app.
  destruct (of_covers n p sm bg x Hn) as (N & HN & Hc). rewrite hit_in in Hc by lia. lia.
Qed.

Lemma spares_sub n p sm bg s s' :
  spares (sm_of n p sm ++ bg_of n p bg) s s' -> spares (sm ++ bg) s s'.
Proof.
  apply agree_weaken. intros x. rewrite !cover_app. unfold sm_of, bg_of.
  destruct (_ <? _); cbn [cover]; lia.
Qed.

Lemma roundup_same n n' : 0 < n -> 0 < n' -> n + 7 < 2 ^ w -> n' + 7 < 2 ^ w ->
  ROUNDUP n = ROUNDUP n' -> (max_bytes <? n) = (max_bytes <? n').
Proof.
  intros ???? Hr. pose proof (roundup_ok n ltac:(lia) ltac:(lia)) as [? _].
  pose proof (roundup_ok n' ltac:(lia) ltac:(lia)) as [? _].
  destruct (max_bytes <? n) eqn:E, (max_bytes <? n') eqn:E'; try done; bool_props.
  - destruct (class_of n') as (? & _ & _ & _ & ?); lia.
  - destruct (class_of n) as (? & _ & _ & _ & ?); lia.
Qed.

(** The memory move of [reallocate]: source and target are two clients' blocks. *)
Lemma move_ok n n' p q k s sm bg rest : 0 < n < 2 ^ w -> 0 < n' < 2 ^ w ->
  0 <= k <= Z.min n n' -> given n' q s (sm_of n p sm) (bg_of n p bg) rest ->
  exists s', on_machine (machine_memmove q p k) s = Ret tt s' /\
    given n' q s' (sm_of n p sm) (bg_of n p bg) rest /\ spares (sm ++ bg) s s' /\
    load q (Z.to_nat k) (mem (mc s')) = load p (Z.to_nat k) (mem (mc s)).
Proof.
  intros Hn Hn' Hk Hg.
  set (m' := memmove q p (Z.to_nat k) (mem (mc s))).
  destruct (given_write n' q s _ _ rest m' Hg Hn') as [Hg' Hs].
  { intros x Hx. apply store_out. rewrite length_load. lia. }
  eexists. split_and!; [|exact Hg'|by eapply spares_sub|].
  - unfold on_machine, machine_memmove.
    pose proof Hg as Hp. rewrite given_eq in Hp. destruct Hp as [_ [fs I]].
    apply given_swap in Hg as Hq. rewrite given_eq in Hq. destruct Hq as [_ [fs' I']].
    rewrite !accessible_true; [done| |].
    + intros x Hx. apply (given_own n p s _ _ rest x fs' _ I'); lia.
    + intros x Hx. apply (given_own n' q s _ _ rest x fs _ I); lia.
  - cbn. unfold m', memmove. rewrite <- (length_load p (Z.to_nat k) (mem (mc s))) at 1.
    apply load_store_eq.
Qed.

Definition reallocate_post (p szOld szNew : Z) (s : state) (sm bg rest : list block)
    (r : outcome state Z) : Prop :=
  let k := Z.to_nat (Z.min szOld szNew) in
  match r with
  | Ret q s' => given szNew q s' sm bg rest /\ spares (sm ++ bg) s s' /\
      load q k (mem (mc s')) = load p k (mem (mc s))
  | Throw e s' => e = bad_alloc /\ given szOld p s' sm bg rest /\ spares (sm ++ bg) s s' /\
      load p k (mem (mc s')) = load p k (mem (mc s))
  | UB | OutOfFuel => False
  end.

(** Two large blocks go through [malloc_pool::reallocate]. *)
Lemma reallocate_large p szOld szNew s sm bg rest :
  given szOld p s sm bg rest -> 0 < szOld < 2 ^ w -> 0 < szNew < 2 ^ w ->
  max_bytes < szOld -> max_bytes < szNew ->
  reallocate_post p szOld szNew s sm bg rest (reallocate p szOld szNew s).
Proof.
  intros Hg Ho Hn Hmo Hmn. unfold reallocate, reallocate_post, given in *.
  rewrite (proj2 (Z.ltb_lt _ szOld)), (proj2 (Z.ltb_lt _ szNew)) in * by lia. cbn [andb].
  destruct Hg as [Ht [fs I]]. pose proof psz_range.
  assert (Hown : owned (os (mc s)) ≡ₚ (p, szOld) :: buffers (pl s) ++ bg ++ rest).
  { rewrite (inv_owned _ _ _ _ _ _ I). rewrite <- app_comm_cons. symmetry. apply Permutation_middle. }
  unfold on_machine.
  destruct (fallback_realloc_law p szOld szNew _ (mc s) (inv_ready _ _ _ _ _ _ I)
    (inv_valid _ _ _ _ _ _ I) Hown Hn)
    as (m' & Hr & [(q & -> & Hv & Hq & Ho' & Ha & Hl)|(-> & Hk)]).
  - assert (Hag : forall l, (forall x, (cover x l <= cover x (buffers (pl s)) + cover x bg)%nat) ->
      agree l (mem (mc s)) (mem m')).
    { intros l Hl'. eapply agree_weaken; [|done]. intros x. rewrite !cover_app. specialize (Hl' x). lia. }
    split_and!; [|apply Hag; intros x; rewrite cover_app, <- (inv_cover _ _ _ _ _ _ I); lia|done].
    split; [done|]. exists fs. destruct I; split; cbn; try done.
    + eapply (chains_frame psz ALIGN); [unfold ALIGN; lia| |done].
      apply Hag. intros x. rewrite <- inv_cover0. lia.
    + rewrite Ho'. apply Permutation_middle.
  - destruct (inv_kept _ _ _ _ _ _ _ I Hk Hr) as [I' Hs]. split_and!; [done|split; [done|eauto]| |].
    + eapply agree_weaken; [|done]. intros x. rewrite !cover_app. cbn. lia.
    + apply load_ext. intros x Hx. apply Hs. rewrite cover_app. cbn. rewrite hit_in by lia. lia.
Qed.

Lemma reallocate_core p szOld szNew s sm bg rest :
  given szOld p s sm bg rest -> 0 < szOld -> szOld + 7 < 2 ^ w ->
  0 < szNew -> szNew + 7 < 2 ^ w ->
  reallocate_post p szOld szNew s sm bg rest (reallocate p szOld szNew s).
Proof.
  intros Hg Ho0 Ho Hn0 Hn.
  destruct ((max_bytes <? szOld) && (max_bytes <? szNew)) eqn:E.
  { bool_props. by apply reallocate_large; try lia. }
  unfold reallocate, reallocate_post. rewrite E.
  destruct (ROUNDUP szOld =? ROUNDUP szNew) eqn:Er; bool_props.
  { unfold ret, given in *. pose proof (roundup_same szOld szNew) as Hs.
    rewrite Hs in Hg, E by done. destruct (max_bytes <? szNew); [by destruct E|].
    rewrite <- Er. by split_and!. }
  rewrite given_eq in Hg.
  pose proof (allocate_core szNew s _ _ rest Hg ltac:(lia)) as Ha.
  unfold bind at 1. destruct (allocate szNew s) as [q s1|e s1| |]; cbn in Ha; try done.
  - destruct Ha as (_ & _ & Hg1 & Hs1).
    set (szcopy := if szOld <? szNew then szOld else szNew).
    assert (szcopy = Z.min szOld szNew) as Hk by (unfold szcopy; destruct (szOld <? szNew) eqn:E1; bool_props; lia).
    destruct (move_ok szOld szNew p q szcopy s1 sm bg rest) as (s2 & Hm & Hg2 & Hs2 & Hl2);
      [lia|lia|lia|done|]. rewrite (bind_ret _ _ _ _ _ Hm).
    destruct (deallocate_core szOld p s2 (sm_of szNew q sm) (bg_of szNew q bg) rest)
      as (s3 & Hd & Hg3 & Hs3); [by apply given_swap|lia|].
    rewrite (bind_ret _ _ _ _ _ Hd). unfold ret. rewrite given_eq. split_and!; [done| |].
    + eapply agree_trans; [by eapply spares_sub|]. eapply agree_trans; [done|].
      by eapply spares_sub.
    + rewrite (spares_load szNew q sm bg s2 s3), <- Hk, Hl2 by (done || lia).
      apply (spares_load szOld p sm bg); [lia|lia|done].
  - destruct Ha as (-> & Hh & Hs). rewrite given_eq. split_and!; [done..|by eapply spares_sub|].
    apply (spares_load szOld p sm bg); [lia|lia|done].
Qed.

(** [C13] [reallocate] gives the block back resized: the first bytes, up to the
    smaller size, are the old ones, the other clients' bytes are untouched, the
    pool keeps its invariant, and when it throws [bad_alloc] the old block is still
    the client's, unchanged. *)
Theorem reallocate_ok p szOld szNew s sm bg rest :
  given szOld p s sm bg rest -> 0 < szOld -> szOld + 7 < 2 ^ w ->
  0 < szNew -> szNew + 7 < 2 ^ w ->
  reallocate_post p szOld szNew s sm bg rest (reallocate p szOld szNew s).
Proof. apply reallocate_core. Qed.

(** ** The pool's life *)

Lemma cover_heads_nil x n k : cover x (fblocks n (replicate k [])) = 0%nat.
Proof. revert n. induction k as [|k IH]; intros n; cbn; [done|apply IH]. Qed.

Lemma holds_init m : valid w (os m) -> ready m ->
  holds (State sgi_memory_pool_t m) [] [] (owned (os m)).
Proof.
  intros Hv Hr. pose proof pow_w. split.
  - unfold tight. cbn. split_and!; (done || lia || by right).
  - exists (replicate (Z.to_nat NUM_FREE_LISTS) []). split; cbn; try done.
    + by rewrite length_replicate.
    + apply Forall2_replicate. done.
    + intros x. rewrite cover_heads_nil. change (reserve _) with (0, 0). by rewrite hit_empty.
    + intros [a n] (i & l & Hi & _ & Ha)%elem_of_fblocks.
      apply lookup_replicate in Hi as [-> _]. by apply not_elem_of_nil in Ha.
    + lia.
Qed.

(** The calls of the clients and their own writes; [sm] and [bg] are the blocks
    they hold. *)
Definition config : Type := state * list block * list block.

Inductive client_step : config -> config -> Prop :=
| step_allocate n p s s' sm bg : 0 < n < 2 ^ w -> allocate n s = Ret p s' ->
    client_step (s, sm, bg) (s', sm_of n p sm, bg_of n p bg)
| step_no_memory n e s s' sm bg : 0 < n < 2 ^ w -> allocate n s = Throw e s' ->
    client_step (s, sm, bg) (s', sm, bg)
| step_deallocate n p s s' sm bg sm' bg' : 0 < n < 2 ^ w ->
    sm ≡ₚ sm_of n p sm' -> bg ≡ₚ bg_of n p bg' -> deallocate p n s = Ret tt s' ->
    client_step (s, sm, bg) (s', sm', bg')
| step_reallocate n n' p q s s' sm bg sm' bg' : 0 < n -> n + 7 < 2 ^ w -> 0 < n' ->
    n' + 7 < 2 ^ w ->
    sm ≡ₚ sm_of n p sm' -> bg ≡ₚ bg_of n p bg' -> reallocate p n n' s = Ret q s' ->
    client_step (s, sm, bg) (s', sm_of n' q sm', bg_of n' q bg')
| step_write n p m s sm bg sm' bg' : 0 < n < 2 ^ w ->
    sm ≡ₚ sm_of n p sm' -> bg ≡ₚ bg_of n p bg' ->
    (forall x, x < p \/ p + n <= x -> m x = mem (mc s) x) ->
    client_step (s, sm, bg) (State (pl s) (Machine m (os (mc s)) (oom (mc s))), sm, bg).

Lemma client_step_holds rest c c' : client_step c c' ->
  holds c.1.1 c.1.2 c.2 rest -> holds c'.1.1 c'.1.2 c'.2 rest.
Proof.
  intros Hs. destruct Hs as [n p s s' sm bg Hn Ha|n e s s' sm bg Hn Ha
    |n p s s' sm bg sm' bg' Hn Hp Hp' Hd|n n' p q s s' sm bg sm' bg' H1' H2' H3' H4' Hp Hp' Hr
    |n p m s sm bg sm' bg' Hn Hp Hp' Hm]; cbn; intros Hh.
  - pose proof (allocate_core n s sm bg rest Hh Hn) as Hc. rewrite Ha in Hc.
    destruct Hc as (_ & _ & Hg & _). by rewrite given_eq in Hg.
  - pose proof (allocate_core n s sm bg rest Hh Hn) as Hc. rewrite Ha in Hc. apply Hc.
  - eapply holds_perm in Hh; [|done..]. rewrite <- given_eq in Hh.
    destruct (deallocate_core n p s sm' bg' rest Hh Hn) as (s2 & Hd2 & Hh2 & _). congruence.
  - eapply holds_perm in Hh; [|done..]. rewrite <- given_eq in Hh.
    pose proof (reallocate_core p n n' s sm' bg' rest Hh H1' H2' H3' H4') as Hc.
    rewrite Hr in Hc. destruct Hc as (Hg & _). by rewrite given_eq in Hg.
  - eapply holds_perm in Hh; [|done..]. rewrite <- given_eq in Hh.
    destruct (given_write n p s sm' bg' rest m Hh Hn Hm) as [Hg _]. rewrite given_eq in Hg.
    by eapply holds_perm.
Qed.

(** [C8] After any sequence of calls on a new pool, by any number of clients that
    write into their blocks as they like, no byte belongs to two live blocks. *)
Theorem live_blocks_disjoint m s sm bg x : valid w (os m) -> ready m ->
  rtc client_step (State sgi_memory_pool_t m, [], []) (s, sm, bg) ->
  (cover x (sm ++ bg) <= 1)%nat.
Proof.
  intros Hv Hr Hs.
  assert (Hh : holds s sm bg (owned (os m))).
  { refine (rtc_invariant client_step (fun c => holds c.1.1 c.1.2 c.2 (owned (os m)))
      (State sgi_memory_pool_t m, [], []) (s, sm, bg)
      (fun a b Ha Hab => client_step_holds _ a b Hab Ha) _ Hs).
    by apply holds_init. }
  destruct Hh as [_ [fs I]]. pose proof (inv_disjoint _ _ _ _ _ _ x I). rewrite cover_app. lia.
Qed.

(** [n] must not be 0, as the comment of line 207 says: the index wraps. *)
Lemma allocate_zero s sm bg rest : holds s sm bg rest -> allocate 0 s = UB.
Proof.
  intros [_ [fs I]]. pose proof max_bytes_range. pose proof psz_range. pose proof pow_w.
  unfold allocate. destruct (max_bytes <? 0) eqn:E; bool_props; [lia|].
  unfold bind at 1, get_list. rewrite (inv_len _ _ _ _ _ _ I).
  replace (FREELISTINDEX 0) with (2 ^ w - 1).
  - rewrite (proj2 (Z.ltb_ge _ _)); [done|]. unfold NUM_FREE_LISTS, ALIGN.
    pose proof (Z.div_mod max_bytes 8 ltac:(done)). lia.
  - unfold FREELISTINDEX. rewrite (wrap_small w (0 + ALIGN - 1)) by (unfold ALIGN; lia).
    change (0 + ALIGN - 1) with 7. change (7 / ALIGN - 1) with (-1). unfold wrap.
    replace (-1) with (2 ^ w - 1 + -1 * 2 ^ w) by lia. rewrite Z.mod_add by lia.
    rewrite Z.mod_small; lia.
Qed.

(** Releasing the buffers. *)
Class DeallocLaw : Prop := dealloc_law p n r m : valid w (os m) ->
  owned (os m) ≡ₚ (p, n) :: r ->
  exists m', at_deallocate p n m = Ret tt m' /\ valid w (os m') /\ owned (os m') ≡ₚ r /\
    agree r (mem m) (mem m').

Lemma release_buffers_ok `{!DeallocLaw} l r s : valid w (os (mc s)) ->
  owned (os (mc s)) ≡ₚ l ++ r ->
  exists m', release_buffers l s = Ret tt (State (pl s) m') /\ owned (os m') ≡ₚ r /\
    agree r (mem (mc s)) (mem m').
Proof.
  revert s. induction l as [|[p n] l IH]; intros s Hv Ho.
  - exists (mc s). cbn. by destruct s.
  - destruct (dealloc_law p n (l ++ r) (mc s) Hv Ho) as (m1 & Hd & Hv1 & Ho1 & Ha1).
    cbn [release_buffers]. unfold bind at 1, on_machine. rewrite Hd.
    destruct (IH (State (pl s) m1) Hv1 Ho1) as (m' & Hr & Ho' & Ha'). exists m'.
    split_and!; [done..|]. eapply agree_trans; [|done]. eapply agree_weaken; [|done].
    intros x. rewrite cover_app. lia.
Qed.

(** The destructor gives every buffer back to [AllocT], once, and nothing
    else: what is still owned afterwards are the blocks from [malloc_pool] and what
    others own, untouched. *)
Theorem clear_ok `{!DeallocLaw} s sm bg rest : holds s sm bg rest ->
  exists s', clear s = Ret tt s' /\ buffers (pl s') = [] /\
    owned (os (mc s')) ≡ₚ bg ++ rest /\ agree (bg ++ rest) (mem (mc s)) (mem (mc s')).
Proof.
  intros [_ [fs I]].
  destruct (release_buffers_ok (buffers (pl s)) (bg ++ rest) s) as (m' & Hr & Ho & Ha);
    [apply I|apply I|].
  unfold clear, bind, get. rewrite Hr. eexists. by split_and!.
Qed.

End SgiPool.

(** ** The default configuration

    [malloc_traits_t] over the C allocator, no out-of-memory handler. *)

Section Default.
Context {Os : Type} `{Libc Os} {Handler : Type}.
Context (run_handler : Handler -> prog (machine Os Handler) unit).
Context (psz : nat) `{!LibcLaws (8 * Z.of_nat psz) Os}.

Lemma default_laws max_bytes fuel : (0 < psz <= 8)%nat ->
  0 < max_bytes /\ max_bytes mod 8 = 0 /\ 64 * max_bytes < 2 ^ (8 * Z.of_nat psz) ->
  (1 <= fuel)%nat ->
  PoolLaws run_handler psz max_bytes fuel (fun m => oom m = None).
Proof.
  intros Hp Hm Hf. split; try done.
  - by intros s s' ->.
  - intros n s Hr Hv Hn. destruct (libc_malloc_ok (8 * Z.of_nat psz) n s Hv Hn)
      as (p & s' & Ha & Ho & Hc). exists p, s'. by rewrite Ho.
  - intros n s Hr Hv Hn.
    destruct (allocate_no_handler run_handler _ fuel n s Hf Hv Hn Hr) as (s' & Ho & Hc). eauto.
  - intros p n n' r s Hr Hv Hown Hn.
    destruct (reallocate_no_handler run_handler _ fuel p n n' r s Hf Hv Hown Hn Hr)
      as (s' & Ho & Hc). eauto.
Qed.

#[export] Instance default_dealloc : DeallocLaw (Handler := Handler) psz.
Proof.
  intros p n r m Hv Ho.
  destruct (libc_free_ok _ p n r m Hv Ho) as (m' & ? & _ & ?). eauto.
Qed.
End Default.

(** A 32-bit program: [mt_malloc_memory_pool] over the bump allocator. *)
Module Demo.
Definition no_handler (h : unit) : prog (machine Bump.t unit) unit := ret tt.
Definition machine0 : machine Bump.t unit := Machine (fun _ => 0) (Bump.Mk 8 65536 []) None.
Definition state0 : state := State (sgi_memory_pool_t 256) machine0.
Notation ready := (fun m : machine Bump.t unit => oom m = None).

Lemma laws : PoolLaws no_handler 4 256 1 ready.
Proof. by apply default_laws; try lia. Qed.

Lemma valid0 : valid 32 (os machine0).
Proof. cbn. unfold Bump.good. cbn. split_and!; try lia; try done; set_solver. Qed.

Lemma holds0 : holds 4 256 ready state0 [] [] [].
Proof. pose proof laws. exact (holds_init no_handler 4 256 1 ready machine0 valid0 eq_refl). Qed.

(** Two blocks of the same class, then the first again after it was given back. *)
Definition run3 : outcome state (Z * Z * Z) :=
  (let* a := allocate no_handler 4 256 1 10 in
   let* b := allocate no_handler 4 256 1 16 in
   deallocate 4 256 a 10 ;;;
   let* c := allocate no_handler 4 256 1 12 in
   ret (a, b, c)) state0.

Example reuse : exists s, run3 = Ret (8, 24, 8) s.
Proof. vm_compute. eexists. reflexivity. Qed.

(** The default pool on its first allocation. *)
Lemma allocate_ok_witness :
  holds 4 256 ready state0 [] [] [] /\ 0 < 10 < 2 ^ (8 * Z.of_nat 4) /\
  allocate_post 4 256 ready 10 state0 [] [] [] (allocate no_handler 4 256 1 10 state0).
Proof.
  split; [apply holds0|split; [done|]]. pose proof laws.
  exact (allocate_ok no_handler 4 256 1 ready 10 state0 [] [] [] holds0 ltac:(done)).
Defined.

(** The state after [allocate(10)], with the block at address 8. *)
Definition state1 : state :=
  match allocate no_handler 4 256 1 10 state0 with Ret _ s => s | _ => state0 end.

Lemma first_allocation : allocate no_handler 4 256 1 10 state0 = Ret 8 state1.
Proof.
  assert (Hb : match allocate no_handler 4 256 1 10 state0 with Ret p _ => p =? 8 | _ => false end
    = true) by (vm_compute; reflexivity).
  unfold state1. destruct (allocate no_handler 4 256 1 10 state0) as [p s| | |]; try done.
  by bool_props; subst p.
Qed.

Lemma given1 : given 4 256 ready 10 8 state1 [] [] [].
Proof.
  pose proof laws.
  pose proof (allocate_core no_handler 4 256 1 ready 10 state0 [] [] [] holds0 ltac:(done)) as H'.
  rewrite first_allocation in H'. destruct H' as (_ & _ & H' & _). exact H'.
Qed.

Lemma deallocate_ok_witness :
  given 4 256 ready 10 8 state1 [] [] [] /\
  exists s', deallocate 4 256 8 10 state1 = Ret tt s' /\ holds 4 256 ready s' [] [] [] /\
    spares ([] ++ []) state1 s'.
Proof.
  split; [apply given1|]. pose proof laws.
  exact (deallocate_ok no_handler 4 256 1 ready 10 8 state1 [] [] [] given1 ltac:(done)).
Defined.

Lemma reallocate_ok_witness :
  given 4 256 ready 10 8 state1 [] [] [] /\
  reallocate_post 4 256 ready 8 10 300 state1 [] [] []
    (reallocate no_handler 4 256 1 8 10 300 state1).
Proof.
  split; [apply given1|]. pose proof laws.
  exact (reallocate_ok no_handler 4 256 1 ready 8 10 300 state1 [] [] [] given1
    ltac:(done) ltac:(done) ltac:(done) ltac:(done)).
Defined.

Lemma live_blocks_disjoint_witness :
  client_step no_handler 4 256 1 (state0, [], []) (state1, sm_of 4 256 10 8 [], bg_of 256 10 8 []) /\
  (cover 8 (sm_of 4 256 10 8 [] ++ bg_of 256 10 8 []) <= 1)%nat.
Proof.
  assert (Hs : client_step no_handler 4 256 1 (state0, [], [])
    (state1, sm_of 4 256 10 8 [], bg_of 256 10 8 [])).
  { apply step_allocate; [done|]. apply first_allocation. }
  split; [exact Hs|]. pose proof laws.
  exact (live_blocks_disjoint no_handler 4 256 1 ready machine0 state1 _ _ 8 valid0 eq_refl
    (rtc_once _ _ Hs)).
Defined.

Lemma clear_ok_witness : exists s', clear state0 = Ret tt s' /\ buffers (pl s') = [] /\
    owned (os (mc s')) ≡ₚ [] ++ [] /\ agree ([] ++ []) (mem (mc state0)) (mem (mc s')).
Proof. pose proof laws. exact (clear_ok 4 256 ready state0 [] [] [] holds0). Defined.

(** [clear] gives every buffer to [AllocT], also the ones [chunk_alloc] got from
    [malloc_pool] when [AllocT::allocate] failed. A heap of its own that is full
    and rejects blocks it did not hand out, as [HeapFree] does: *)
Definition full_heap : AllocTraits (machine Bump.t unit) :=
  {| at_allocate n := ret 0; at_deallocate p n := ub |}.

(** A pool over such a heap still serves allocations, from [malloc_pool], and
    its destructor then gives [malloc_pool]'s buffer to the wrong heap. *)
Theorem clear_foreign_buffer :
  match allocate no_handler (H0 := full_heap) 4 256 1 10 state0 with
  | Ret p s => p <> 0 /\ clear (H0 := full_heap) s = UB
  | _ => False
  end.
Proof. vm_compute. by split. Qed.

End Demo.
