(* ===== verification/FixedPool.v ===== *)
(** * The fixed-size memory pool

    include/memory_pool/fixed_memory_pool.hpp: blocks of one size, [ROUND], from one
    free list that is refilled from chunks cut from large buffers. The critical
    sections of [mutex_] make each operation atomic. What is left of a buffer when
    the next one is taken is not used any more. *)

From S2P Require Import Prelude Memory MallocPool FreeList SgiPool.

Definition ALIGN : Z := 4.
Definition NUM_NODE : Z := 20.

Record pool := Pool {
  start_free_ : Z;
  end_free_ : Z;
  heap_size_ : Z;
  buffers_ : list (Z * Z);
  free_list_ : Z                (* free_lists_[0] *)
}.

Section FixedPool.
Context {Os : Type} `{Libc Os} {Handler : Type}.
Notation machine := (machine Os Handler).
Context (run_handler : Handler -> prog machine unit) `{AllocTraits machine}.
Context (psz : nat).            (* sizeof(void * ) *)
Context (BYTES : Z).            (* __BYTES *)
Context (fuel : nat).           (* of the loops of malloc_pool *)
Notation w := (8 * Z.of_nat psz).

Record state := State { pl : pool; mc : machine }.

Definition on_machine {A} (m : prog machine A) : prog state A := fun s =>
  match m (mc s) with
  | Ret a m' => Ret a (State (pl s) m')
  | Throw e m' => Throw e (State (pl s) m')
  | UB => UB
  | OutOfFuel => OutOfFuel
  end.

Definition get : prog state pool := fun s => Ret (pl s) s.
Definition modify (f : pool -> pool) : prog state unit := fun s => Ret tt (State (f (pl s)) (mc s)).

Definition set_start (p : Z) (q : pool) : pool := Pool p (end_free_ q) (heap_size_ q) (buffers_ q) (free_list_ q).
Definition set_end (p : Z) (q : pool) : pool := Pool (start_free_ q) p (heap_size_ q) (buffers_ q) (free_list_ q).
Definition set_free (p : Z) (q : pool) : pool := Pool (start_free_ q) (end_free_ q) (heap_size_ q) (buffers_ q) p.

Definition fixed_memory_pool_t : pool := Pool 0 0 0 [] 0.

Definition ROUNDUP (bytes : Z) : Z := round_up w 2 bytes.
Definition ROUND : Z := ROUNDUP BYTES.

(** The new buffer of [chunk_alloc]. *)
Definition new_chunk (szTotal : Z) : prog state unit :=
  let* q := get in
  let szGet := wrap w (2 * szTotal + ROUNDUP (Z.shiftr (heap_size_ q) 4)) in
  let* p := on_machine (at_allocate szGet) in
  modify (set_start p) ;;;
  (if p =? 0 then
     modify (set_end 0) ;;;
     let* p' := on_machine (MallocPool.allocate run_handler fuel szGet) in
     modify (set_start p')
   else ret tt) ;;;
  modify (fun q => Pool (start_free_ q) (start_free_ q + szGet) (wrap w (heap_size_ q + szGet))
                        (buffers_ q ++ [(start_free_ q, szGet)]) (free_list_ q)).

(** [chunk_alloc]: answers the chunk and the number of blocks in it. The fuel
    bounds the recursion. *)
Fixpoint chunk_alloc (f : nat) (sz nObjs : Z) : prog state (Z * Z) :=
  match f with
  | O => diverge
  | S f =>
      let* q := get in
      let szTotal := wrap w (sz * nObjs) in
      let szLeft := wrap w (end_free_ q - start_free_ q) in
      if szTotal <=? szLeft then
        modify (set_start (start_free_ q + szTotal)) ;;; ret (start_free_ q, nObjs)
      else if sz <=? szLeft then
        let nObjs' := szLeft / sz in
        modify (set_start (start_free_ q + wrap w (sz * nObjs'))) ;;; ret (start_free_ q, nObjs')
      else new_chunk szTotal ;;; chunk_alloc f sz nObjs
  end.

Definition re_fill (n : Z) : prog state Z :=
  let* c := chunk_alloc 2 n NUM_NODE in
  let '(pChunk, nObjs) := c in
  if nObjs =? 1 then ret pChunk
  else
    modify (set_free (pChunk + n)) ;;;
    on_machine (link_objs psz (Z.to_nat NUM_NODE) n (nObjs - 1) 1 (pChunk + n)) ;;;
    ret pChunk.

(** [assert(n <= __BYTES)] is the caller's duty; the size is not used. *)
Definition allocate (n : Z) : prog state Z :=
  let* q := get in
  let pResult := free_list_ q in
  if pResult =? 0 then re_fill ROUND
  else
    let* pFreeListLink := on_machine (get_link psz pResult) in
    modify (set_free pFreeListLink) ;;;
    ret pResult.

Definition deallocate (p n : Z) : prog state unit :=
  let* q := get in
  on_machine (set_link psz p (free_list_ q)) ;;;
  modify (set_free p).

Fixpoint release_buffers (l : list (Z * Z)) : prog state unit :=
  match l with
  | [] => ret tt
  | (p, n) :: l' => on_machine (at_deallocate p n) ;;; release_buffers l'
  end.

Definition clear : prog state unit :=
  let* q := get in
  release_buffers (buffers_ q) ;;;
  modify (fun q => Pool (start_free_ q) (end_free_ q) (heap_size_ q) [] (free_list_ q)).

(** ** The invariant

    [sm]: the blocks clients hold; [fs]: the free blocks; [lost]: what was left of
    buffers; [rest]: what others own. Every byte of the buffers is in exactly one
    of these or in the reserve [r]. *)

Context `{!LibcLaws w Os} (ready : machine -> Prop).

(** What the pool relies on: blocks that hold a link, and the sources of memory. *)
Class FixedLaws : Prop := {
  psz_range : (0 < psz <= 8)%nat;
  bytes_range : 0 < BYTES /\ Z.of_nat psz <= ROUND /\ 64 * (BYTES + 4) < 2 ^ w;
  ready_oom s s' : oom s' = oom s -> ready s -> ready s';
  at_allocate_law n s : ready s -> valid w (os s) -> 0 < n < 2 ^ w ->
    exists p s', at_allocate n s = Ret p s' /\ ready s' /\
      ((p = 0 /\ kept w s s') \/ (p <> 0 /\ fresh w p n s s'));
  fallback_law n s : ready s -> valid w (os s) -> 0 < n < 2 ^ w ->
    exists s', ready s' /\
      ((exists p, MallocPool.allocate run_handler fuel n s = Ret p s' /\ fresh w p n s s') \/
       (MallocPool.allocate run_handler fuel n s = Throw bad_alloc s' /\ kept w s s'))
}.
Context `{!FixedLaws}.

Definition block_ok (b : block) : Prop := 0 < b.1 /\ b.1 mod 4 = 0 /\ b.1 + b.2 < 2 ^ w.

Record inv (r : block) (s : state) (sm lost : list block) (fs : list Z) (rest : list block) : Prop := {
  inv_valid : valid w (os (mc s));
  inv_ready : ready (mc s);
  inv_chain : chain psz (mem (mc s)) (free_list_ (pl s)) fs;
  inv_cover x : (hit x r + cover x sm + cover x (sized ROUND fs) + cover x lost)%nat =
                cover x (buffers_ (pl s));
  inv_owned : owned (os (mc s)) ≡ₚ buffers_ (pl s) ++ rest;
  inv_aligned b : b ∈ sm ++ sized ROUND fs -> block_ok b;
  inv_heap : 0 <= heap_size_ (pl s) < 2 ^ w
}.

Definition spares (l : list block) (s s' : state) : Prop := agree l (mem (mc s)) (mem (mc s')).

Lemma round_ok n : 0 <= n -> n + 3 < 2 ^ w -> n <= ROUNDUP n < n + 4 /\ ROUNDUP n mod 4 = 0.
Proof.
  intros. pose proof psz_range. apply (round_up_bounds w 2); [lia|done|]. change (2 ^ 2) with 4. lia.
Qed.

Lemma ROUND_ok : Z.of_nat psz <= ROUND /\ BYTES <= ROUND /\ 0 < ROUND /\ ROUND mod 4 = 0 /\ 64 * ROUND < 2 ^ w.
Proof. pose proof bytes_range. pose proof (round_ok BYTES). unfold ROUND in *. lia. Qed.

(** A write that spares the free blocks spares their chain. *)
Lemma chain_frame h fs m m' : agree (sized ROUND fs) m m' -> chain psz m h fs -> chain psz m' h fs.
Proof.
  intros Ha. pose proof ROUND_ok. apply chain_ext. intros a x Hin Hx. symmetry. apply Ha.
  assert (Hb : (a, ROUND) ∈ sized ROUND fs) by (by apply elem_of_sized).
  pose proof (cover_elem x _ _ Hb) as Hle. rewrite hit_in in Hle by lia. lia.
Qed.

Lemma fixed_inv_disjoint r s sm lost fs rest x : inv r s sm lost fs rest ->
  (hit x r + cover x sm + cover x (sized ROUND fs) + cover x lost <= 1)%nat /\
  (hit x r + cover x sm + cover x (sized ROUND fs) + cover x lost <= cover x (owned (os (mc s))))%nat.
Proof.
  intros I. pose proof (valid_disjoint _ x (inv_valid _ _ _ _ _ _ I)) as Hd.
  rewrite (inv_owned _ _ _ _ _ _ I), !cover_app in *. rewrite <- (inv_cover _ _ _ _ _ _ I) in *. lia.
Qed.

Lemma fixed_inv_agree r s sm lost fs rest m' : inv r s sm lost fs rest ->
  agree (owned (os (mc s))) (mem (mc s)) m' ->
  agree sm (mem (mc s)) m' /\ chain psz m' (free_list_ (pl s)) fs.
Proof.
  intros I Ha. split.
  - eapply agree_weaken; [|done]. intros x. pose proof (fixed_inv_disjoint _ _ _ _ _ _ x I). lia.
  - eapply chain_frame; [|apply I].
    eapply agree_weaken; [|done]. intros x. pose proof (fixed_inv_disjoint _ _ _ _ _ _ x I). lia.
Qed.

(** The machine may change as long as the blocks stay. *)
Lemma fixed_inv_kept r s sm lost fs rest m' : inv r s sm lost fs rest ->
  kept w (mc s) m' -> ready m' ->
  inv r (State (pl s) m') sm lost fs rest /\ spares sm s (State (pl s) m').
Proof.
  intros I (Hv & Ho & Ha) Hr. destruct (fixed_inv_agree _ _ _ _ _ _ _ I Ha) as [Hs Hc].
  split; [|done]. destruct I; split; cbn; try done. by rewrite Ho.
Qed.

(** Bytes the free blocks do not use may be written. *)
Lemma fixed_inv_write r s sm lost fs rest m' : inv r s sm lost fs rest ->
  agree (sized ROUND fs) (mem (mc s)) m' ->
  inv r (State (pl s) (Machine m' (os (mc s)) (oom (mc s)))) sm lost fs rest.
Proof.
  intros I Ha. destruct I; split; cbn; try done.
  - by apply (ready_oom (mc s)).
  - by eapply chain_frame.
Qed.

(** Moving blocks between the clients, the free list, the reserve and what is lost. *)
Lemma fixed_inv_move r r' s q sm sm' lost lost' fs fs' rest : inv r s sm lost fs rest ->
  heap_size_ q = heap_size_ (pl s) -> buffers_ q = buffers_ (pl s) ->
  chain psz (mem (mc s)) (free_list_ q) fs' ->
  (forall x, hit x r + cover x sm + cover x (sized ROUND fs) + cover x lost =
             hit x r' + cover x sm' + cover x (sized ROUND fs') + cover x lost')%nat ->
  (forall b, b ∈ sm' ++ sized ROUND fs' -> b ∈ sm ++ sized ROUND fs \/ block_ok b) ->
  inv r' (State q (mc s)) sm' lost' fs' rest.
Proof.
  intros I Hh Hb Hc Hx Ha. destruct I; split; cbn; rewrite ?Hh, ?Hb; try done.
  - intros x. by rewrite <- Hx.
  - intros b Hin. destruct (Ha b Hin); [by apply inv_aligned0|done].
Qed.

Lemma fixed_chain_head r s sm lost fs rest : inv r s sm lost fs rest -> 0 <= free_list_ (pl s) < 2 ^ w.
Proof.
  intros I. pose proof psz_range. pose proof ROUND_ok.
  pose proof (inv_chain _ _ _ _ _ _ I) as Hc. destruct fs as [|a fs].
  - cbn in Hc. rewrite Hc. split; [done|]. apply Z.pow_pos_nonneg; lia.
  - destruct Hc as (-> & _ & _). destruct (inv_aligned _ _ _ _ _ _ I (a, ROUND)) as (? & ? & ?); cbn in *; [set_solver|lia].
Qed.

(** A client's block is its own. *)
Lemma block_own r s sm lost fs rest p x : inv r s ((p, ROUND) :: sm) lost fs rest -> p <= x < p + ROUND ->
  (1 <= cover x (owned (os (mc s))))%nat /\ cover x (sm ++ sized ROUND fs) = 0%nat.
Proof.
  intros I Hx. pose proof (fixed_inv_disjoint _ _ _ _ _ _ x I) as Hd. cbn [cover] in Hd.
  rewrite hit_in in Hd by lia. rewrite cover_app. lia.
Qed.

Lemma deallocate_inv r s sm lost fs rest p n : inv r s ((p, ROUND) :: sm) lost fs rest ->
  exists m', let s' := State (set_free p (pl s)) (Machine m' (os (mc s)) (oom (mc s))) in
    deallocate p n s = Ret tt s' /\ inv r s' sm lost (p :: fs) rest /\ spares sm s s'.
Proof.
  intros I. pose proof psz_range. pose proof ROUND_ok as (Hpsz & _).
  set (m' := store_ptr psz p (free_list_ (pl s)) (mem (mc s))).
  assert (Hag : agree (sm ++ sized ROUND fs) (mem (mc s)) m').
  { intros x Hx. apply store_ptr_out.
    destruct (decide (p <= x < p + Z.of_nat psz)) as [Hx'|]; [|lia].
    destruct (block_own _ _ _ _ _ _ p x I); lia. }
  assert (I' : inv r (State (pl s) (Machine m' (os (mc s)) (oom (mc s)))) ((p, ROUND) :: sm) lost fs rest).
  { apply fixed_inv_write; [done|]. eapply agree_weaken; [|done]. intros x. rewrite cover_app. lia. }
  pose proof (inv_aligned _ _ _ _ _ _ I (p, ROUND) ltac:(set_solver)) as (Hp & Hp4 & Hpw). cbn in *.
  exists m'. cbn zeta. split_and!.
  - unfold deallocate, bind, get, on_machine, set_link. rewrite accessible_true; [done|].
    intros x Hx. apply (block_own _ _ _ _ _ _ p x I). lia.
  - eapply (fixed_inv_move _ _ _ _ _ _ _ _ _ _ _ I'); [done..| | |].
    + cbn. split_and!; [done|lia|]. unfold m'.
      rewrite load_store_ptr by exact (fixed_chain_head _ _ _ _ _ _ I). apply (inv_chain _ _ _ _ _ _ I').
    + intros x. rewrite cover_sized_cons. cbn [cover]. lia.
    + intros b Hb. left. unfold sized in *. rewrite fmap_cons in Hb. set_solver.
  - eapply agree_weaken; [|apply Hag]. intros x. rewrite cover_app. lia.
Qed.

(** Taking the head of a non-empty list. *)
Lemma fixed_pop_ok r s sm lost fs rest n : inv r s sm lost fs rest -> free_list_ (pl s) <> 0 ->
  let h := free_list_ (pl s) in
  exists v fs', allocate n s = Ret h (State (set_free v (pl s)) (mc s)) /\
    inv r (State (set_free v (pl s)) (mc s)) ((h, ROUND) :: sm) lost fs' rest.
Proof.
  intros I H0' h. pose proof ROUND_ok as (Hpsz & _).
  pose proof (inv_chain _ _ _ _ _ _ I) as Hc. destruct fs as [|a fs]; [done|].
  destruct Hc as (Ha & _ & Hc). fold h in Ha. subst a.
  exists (load_ptr psz (mem (mc s)) h), fs. split.
  - unfold allocate, bind at 1, get. fold h. rewrite (proj2 (Z.eqb_neq h 0)) by done.
    unfold bind, on_machine, get_link. rewrite accessible_true; [done|].
    intros x Hx. assert (Hb : (h, ROUND) ∈ sized ROUND (h :: fs)) by (apply elem_of_sized; set_solver).
    pose proof (cover_elem x _ _ Hb) as Hle. rewrite hit_in in Hle by lia.
    pose proof (fixed_inv_disjoint _ _ _ _ _ _ x I). lia.
  - eapply (fixed_inv_move _ _ _ _ _ _ _ _ _ _ _ I); [done..| |].
    + intros x. rewrite cover_sized_cons. cbn [cover]. lia.
    + intros b Hb. left. unfold sized in *. rewrite fmap_cons. set_solver.
Qed.

(** ** Chunks *)

(** The reserve [start_free_, end_free_) lies in the address space. *)
Definition tight (q : pool) : Prop :=
  0 <= start_free_ q <= end_free_ q /\ end_free_ q < 2 ^ w /\
  start_free_ q mod 4 = 0 /\ (0 < start_free_ q \/ end_free_ q = 0).

Definition reserve (q : pool) : block := (start_free_ q, end_free_ q - start_free_ q).

(** The whole invariant. *)
Definition holds (s : state) (sm rest : list block) : Prop :=
  tight (pl s) /\ exists lost fs, inv (reserve (pl s)) s sm lost fs rest.

(** A new buffer becomes the reserve. *)
Lemma fixed_inv_buffer s sm lost fs rest p n m' : inv (0, 0) s sm lost fs rest ->
  fresh w p n (mc s) m' -> ready m' -> 0 < n ->
  let s' := State (Pool p (p + n) (wrap w (heap_size_ (pl s) + n))
                        (buffers_ (pl s) ++ [(p, n)]) (free_list_ (pl s))) m' in
  tight (pl s') /\ inv (reserve (pl s')) s' sm lost fs rest /\ spares sm s s'.
Proof.
  intros I (Hv & (Hp & Hpn & Hp8) & Ho & Ha) Hr Hn.
  destruct (fixed_inv_agree _ _ _ _ _ _ _ I Ha) as [Hs Hc]. cbn zeta. split; [|split; [|done]].
  - unfold tight. cbn. split_and!; try lia. apply Z.mod_divide in Hp8 as [k ->]; [|done].
    change 8 with (2 * 4). by rewrite Z.mul_assoc, Z.mod_mul.
  - destruct I; split; cbn; try done.
    + intros x. rewrite cover_app. cbn. specialize (inv_cover0 x).
      rewrite hit_empty in inv_cover0. unfold reserve. cbn.
      replace (p + n - p) with n by lia. lia.
    + rewrite Ho, inv_owned0. rewrite <- (app_assoc (buffers_ (pl s))). apply Permutation_middle.
    + apply wrap_range. lia.
Qed.

(** The size of a new buffer: at least two chunks, without overflow. *)
Lemma szGet_ok heap szTotal : 0 <= heap < 2 ^ w -> 0 < szTotal <= 20 * ROUND ->
  let szGet := 2 * szTotal + ROUNDUP (Z.shiftr heap 4) in 2 * szTotal <= szGet < 2 ^ w.
Proof.
  intros Hh Hs. pose proof ROUND_ok. rewrite Z.shiftr_div_pow2 by done. change (2 ^ 4) with 16.
  pose proof (Z.div_mod heap 16 ltac:(done)). pose proof (Z.mod_pos_bound heap 16 ltac:(done)).
  destruct (round_ok (heap / 16)) as [? _]; [lia|lia|]. cbn zeta. lia.
Qed.

Lemma fixed_new_chunk_ok szTotal s sm lost fs rest :
  inv (0, 0) s sm lost fs rest -> 0 < szTotal <= 20 * ROUND ->
  match new_chunk szTotal s with
  | Ret _ s' => tight (pl s') /\ inv (reserve (pl s')) s' sm lost fs rest /\
                szTotal <= (reserve (pl s')).2 /\ spares sm s s'
  | Throw e s' => e = bad_alloc /\ holds s' sm rest /\ spares sm s s'
  | UB | OutOfFuel => False
  end.
Proof.
  intros I Hsz. pose proof (szGet_ok _ szTotal (inv_heap _ _ _ _ _ _ I) Hsz) as Hg. cbn zeta in Hg.
  unfold new_chunk, bind at 1, get. rewrite (wrap_small w (_ + _)) by lia.
  set (szGet := 2 * szTotal + _) in *.
  destruct (at_allocate_law szGet (mc s)) as (p & m1 & Ha & Hr1 & Hc); [apply I|apply I|lia|].
  unfold bind at 1. unfold on_machine at 1. rewrite Ha.
  destruct Hc as [[-> Hk]|[Hp Hf]].
  - destruct (fixed_inv_kept _ _ _ _ _ _ _ I Hk Hr1) as [I1 Hs1]. cbn [Z.eqb].
    destruct (fallback_law szGet m1) as (m2 & Hr2 & [(p & Hc & Hf)|(Hc & Hk2)]);
      [done|apply Hk|lia| |]; unfold bind, modify, on_machine; cbn [mc]; rewrite Hc.
    + destruct (fixed_inv_buffer _ _ _ _ _ _ _ _ I1 Hf Hr2) as (Ht & I2 & Hs2); [lia|].
      cbn. split_and!; [apply Ht|apply I2|lia|]. by eapply agree_trans.
    + destruct (fixed_inv_kept _ _ _ _ _ _ _ I1 Hk2 Hr2) as [I2 Hs2].
      cbn. split_and!; [done| |by eapply agree_trans]. split.
      * unfold tight. cbn. pose proof ROUND_ok. split_and!; (done || lia || by right).
      * exists lost, fs. eapply (fixed_inv_move _ _ _ _ _ _ _ _ _ _ _ I2); [done..|apply I2|done|by left].
  - apply Z.eqb_neq in Hp as ->. unfold bind, modify, ret. cbn.
    destruct (fixed_inv_buffer _ _ _ _ _ _ _ _ I Hf Hr1) as (Ht & I2 & Hs2); [lia|].
    split_and!; [apply Ht|apply I2|lia|done].
Qed.

(** Cutting [k] blocks off the reserve; they are the client's for a moment. *)
Lemma fixed_take_ok s sm lost fs rest k : tight (pl s) -> inv (reserve (pl s)) s sm lost fs rest ->
  0 < k -> k * ROUND <= end_free_ (pl s) - start_free_ (pl s) ->
  let s' := State (set_start (start_free_ (pl s) + k * ROUND) (pl s)) (mc s) in
  tight (pl s') /\ inv (reserve (pl s')) s' ((start_free_ (pl s), k * ROUND) :: sm) lost fs rest.
Proof.
  intros (Ht1 & Ht2 & Ht3 & Ht4) I Hk Hn. pose proof ROUND_ok as (? & ? & ? & HR & _). cbn zeta. split.
  - unfold tight, set_start. cbn. split_and!; try nia.
    by rewrite Z.add_mod, Ht3, Z.mul_mod, HR, Z.mul_0_r.
  - eapply (fixed_inv_move _ _ _ _ _ _ _ _ _ _ _ I); [done..|apply I| |].
    + intros x. unfold reserve. cbn [cover start_free_ end_free_ pl set_start].
      rewrite (hit_split x (start_free_ (pl s)) (end_free_ (pl s) - start_free_ (pl s)) (k * ROUND)) by nia.
      replace (end_free_ (pl s) - (start_free_ (pl s) + k * ROUND))
        with (end_free_ (pl s) - start_free_ (pl s) - k * ROUND) by lia. lia.
    + intros b Hb. cbn in Hb. apply elem_of_cons in Hb as [->|Hb]; [right|by left].
      unfold block_ok. cbn. nia.
Qed.

(** What [chunk_alloc] answers: [k] blocks. *)
Definition chunk_post (s : state) (sm : list block) (fs : list Z)
    (rest : list block) (r : outcome state (Z * Z)) : Prop :=
  match r with
  | Ret (p, k) s' =>
      1 <= k <= NUM_NODE /\ tight (pl s') /\ spares sm s s' /\
      exists lost', inv (reserve (pl s')) s' ((p, k * ROUND) :: sm) lost' fs rest
  | Throw e s' => e = bad_alloc /\ holds s' sm rest /\ spares sm s s'
  | UB | OutOfFuel => False
  end.

Lemma fixed_chunk_alloc_enough f s sm lost fs rest :
  tight (pl s) -> inv (reserve (pl s)) s sm lost fs rest ->
  ROUND <= end_free_ (pl s) - start_free_ (pl s) ->
  chunk_post s sm fs rest (chunk_alloc (S f) ROUND NUM_NODE s).
Proof.
  intros Ht I Hl. pose proof ROUND_ok as (? & ? & HR0 & HR & HRw).
  assert (Hk : forall k, 0 < k <= NUM_NODE -> k * ROUND <= end_free_ (pl s) - start_free_ (pl s) ->
    chunk_post s sm fs rest
      (Ret (start_free_ (pl s), k) (State (set_start (start_free_ (pl s) + k * ROUND) (pl s)) (mc s)))).
  { intros k Hk Hks. destruct (fixed_take_ok s sm lost fs rest k) as [Ht' I']; [done..|lia|done|].
    cbn. split_and!; [lia|lia|apply Ht'|done|]. by exists lost. }
  unfold NUM_NODE in *. pose proof Ht as (Ht1 & Ht2 & _).
  cbn [chunk_alloc]. unfold bind at 1, get.
  rewrite (wrap_small w (ROUND * 20)) by lia. rewrite (wrap_small w (_ - _)) by lia.
  destruct (_ <=? _) eqn:E1; bool_props.
  { unfold bind, modify, ret. replace (ROUND * 20) with (20 * ROUND) by lia. apply Hk; lia. }
  rewrite (proj2 (Z.leb_le ROUND _)) by done.
  set (n := (end_free_ (pl s) - start_free_ (pl s)) / ROUND).
  pose proof (Z.div_mod (end_free_ (pl s) - start_free_ (pl s)) ROUND ltac:(lia)) as Hd. fold n in Hd.
  pose proof (Z.mod_pos_bound (end_free_ (pl s) - start_free_ (pl s)) ROUND ltac:(lia)).
  assert (1 <= n < 20) by nia.
  rewrite (wrap_small w (ROUND * n)) by nia. unfold bind, modify, ret.
  replace (ROUND * n) with (n * ROUND) by lia. apply Hk; lia.
Qed.

Lemma fixed_chunk_alloc_ok f s sm lost fs rest :
  tight (pl s) -> inv (reserve (pl s)) s sm lost fs rest ->
  chunk_post s sm fs rest (chunk_alloc (S (S f)) ROUND NUM_NODE s).
Proof.
  intros Ht I. pose proof ROUND_ok as (? & ? & HR0 & HR & HRw).
  destruct (decide (ROUND <= end_free_ (pl s) - start_free_ (pl s))) as [Hl|Hl];
    [by eapply fixed_chunk_alloc_enough|].
  pose proof Ht as (Ht1 & Ht2 & _).
  assert (Hcode : chunk_alloc (S (S f)) ROUND NUM_NODE s =
    (new_chunk (NUM_NODE * ROUND) ;;; chunk_alloc (S f) ROUND NUM_NODE) s).
  { remember (S f) as f1. cbn [chunk_alloc]. unfold bind at 1, get. unfold NUM_NODE.
    rewrite (wrap_small w (ROUND * 20)) by lia. rewrite (wrap_small w (_ - _)) by lia.
    rewrite !(proj2 (Z.leb_gt _ _)) by lia. by rewrite (Z.mul_comm ROUND). }
  rewrite Hcode. clear Hcode.
  assert (I0 : inv (0, 0) s sm (reserve (pl s) :: lost) fs rest).
  { destruct s as [q m]. eapply (fixed_inv_move _ _ _ _ _ _ _ _ _ _ _ I); [done..|apply I| |by left].
    intros x. rewrite hit_empty. cbn [cover pl]. lia. }
  pose proof (fixed_new_chunk_ok (NUM_NODE * ROUND) s sm _ fs rest I0 ltac:(unfold NUM_NODE; lia)) as Hn.
  unfold bind. destruct (new_chunk (NUM_NODE * ROUND) s) as [[] s2|e s2| |]; [|by cbn|done..].
  destruct Hn as (Ht2' & I2 & Hr & Hs2). unfold reserve, NUM_NODE in Hr. cbn [snd] in Hr.
  pose proof (fixed_chunk_alloc_enough f s2 sm _ fs rest Ht2' I2 ltac:(lia)) as Hc.
  destruct (chunk_alloc (S f) ROUND NUM_NODE s2) as [[p k] s3|e s3| |]; cbn in *; try done.
  - destruct Hc as (Hk & Ht3' & Hs3 & I3). split_and!; try done; [lia|lia|]. by eapply agree_trans.
  - destruct Hc as (-> & Hh & Hs3). split_and!; [done..|]. by eapply agree_trans.
Qed.

(** ** Refilling *)

Lemma fixed_refill_link k p s sm lost rest :
  tight (pl s) -> inv (reserve (pl s)) s ((p, k * ROUND) :: sm) lost [] rest ->
  1 < k <= NUM_NODE ->
  exists s', (modify (set_free (p + ROUND)) ;;;
      on_machine (link_objs psz (Z.to_nat NUM_NODE) ROUND (k - 1) 1 (p + ROUND)) ;;; ret p) s = Ret p s' /\
    holds s' ((p, ROUND) :: sm) rest /\ spares sm s s'.
Proof.
  intros Ht I Hk. pose proof ROUND_ok as (Hpsz & ? & HR0 & HR & _). unfold NUM_NODE in Hk.
  pose proof (inv_aligned _ _ _ _ _ _ I (p, k * ROUND) ltac:(set_solver)) as (Hp & Hp4 & Hpw). cbn in Hp, Hp4, Hpw.
  assert (Hin : forall x, p <= x < p + k * ROUND ->
    (1 <= cover x (owned (os (mc s))) /\ cover x sm = 0)%nat).
  { intros x Hx. pose proof (fixed_inv_disjoint _ _ _ _ _ _ x I) as Hd. cbn [cover] in Hd.
    rewrite hit_in in Hd by lia. lia. }
  destruct (link_objs_ok psz (Z.to_nat 20) (Z.to_nat (k - 2)) ROUND 1 (p + ROUND) (mc s))
    as (m' & Hlink & Hchain & Hout); [lia|lia|lia|lia|nia|intros; apply Hin; nia|].
  replace (1 + Z.of_nat (Z.to_nat (k - 2))) with (k - 1) in Hlink by lia.
  replace (S (Z.to_nat (k - 2))) with (Z.to_nat (k - 1)) in * by lia.
  exists (State (set_free (p + ROUND) (pl s)) (Machine m' (os (mc s)) (oom (mc s)))).
  split; [|split; [split|]].
  - unfold bind, modify, on_machine, ret, NUM_NODE. cbn [mc pl]. by rewrite Hlink.
  - exact Ht.
  - exists lost, (run (p + ROUND) ROUND (Z.to_nat (k - 1))).
    apply (fixed_inv_move (reserve (pl s)) _ (State (pl s) (Machine m' (os (mc s)) (oom (mc s)))) _
      ((p, k * ROUND) :: sm) _ lost _ []); [|done|done|done| |].
    + apply fixed_inv_write; [done|]. intros x Hx. cbn in Hx. lia.
    + intros x. rewrite cover_run by lia. cbn [cover sized fmap list_fmap].
      rewrite (hit_split x p (k * ROUND) ROUND) by nia.
      replace (Z.of_nat (Z.to_nat (k - 1)) * ROUND) with (k * ROUND - ROUND) by lia.
      change (reserve (pl (State _ _))) with (reserve (pl s)). lia.
    + intros b Hb. rewrite <- app_comm_cons in Hb.
      apply elem_of_cons in Hb as [->|[Hb|Hb]%elem_of_app]; [right|left; set_solver|right].
      { unfold block_ok. cbn. nia. }
      destruct b as [b n]. apply elem_of_sized in Hb as [-> Hb].
      pose proof (run_mod _ _ _ _ Hb) as Hm. apply elem_of_run in Hb; [|lia].
      unfold block_ok. cbn. split_and!; [lia| |lia].
      apply Z.mod_divide in Hm as [c Hm]; [|lia]. apply Z.mod_divide in Hp4 as [d Hd]; [|done].
      apply Z.mod_divide in HR as [e He]; [|done].
      apply Z.mod_divide; [done|]. exists (d + (1 + c) * e). nia.
  - eapply agree_weaken; [|intros x Hx; apply Hout; destruct (decide (p <= x < p + k * ROUND)) as [Hx'|]; [|nia]].
    + intros x. exact (Nat.le_refl (cover x sm)).
    + apply Hin in Hx'. lia.
Qed.

(** ** The operations keep the pool *)

Definition allocate_post (s : state) (sm rest : list block) (r : outcome state Z) : Prop :=
  match r with
  | Ret p s' => 0 < p /\ p mod 4 = 0 /\ holds s' ((p, ROUND) :: sm) rest /\ spares sm s s'
  | Throw e s' => e = bad_alloc /\ holds s' sm rest /\ spares sm s s'
  | UB | OutOfFuel => False
  end.

Lemma fixed_re_fill_ok s sm lost rest : tight (pl s) -> inv (reserve (pl s)) s sm lost [] rest ->
  allocate_post s sm rest (re_fill ROUND s).
Proof.
  intros Ht I. pose proof (fixed_chunk_alloc_ok 0 s sm lost [] rest Ht I) as Hc.
  unfold re_fill, bind at 1. destruct (chunk_alloc 2 ROUND NUM_NODE s) as [[p k] s1|e s1| |];
    cbn in Hc; try done.
  destruct Hc as (Hk & Ht1 & Hs1 & lost1 & I1).
  pose proof (inv_aligned _ _ _ _ _ _ I1 (p, k * ROUND) ltac:(set_solver)) as (Hp & Hp4 & _). cbn in Hp, Hp4.
  destruct (k =? 1) eqn:Ek; bool_props.
  - subst k. rewrite Z.mul_1_l in I1. cbn. split_and!; [done..| |done]. split; [done|eauto].
  - destruct (fixed_refill_link k p s1 sm lost1 rest Ht1 I1 ltac:(lia)) as (s2 & -> & Hh & Hs2).
    cbn. split_and!; [done..|]. by eapply agree_trans.
Qed.

Lemma fixed_allocate_core n s sm rest : holds s sm rest -> allocate_post s sm rest (allocate n s).
Proof.
  intros [Ht (lost & fs & I)]. destruct (Z.eq_dec (free_list_ (pl s)) 0) as [E|E].
  - assert (fs = []) as ->.
    { pose proof (inv_chain _ _ _ _ _ _ I) as Hc. rewrite E in Hc.
      destruct fs as [|a fs]; [done|]. by destruct Hc as (<- & ? & _). }
    unfold allocate, bind at 1, get. rewrite E. by eapply fixed_re_fill_ok.
  - destruct (fixed_pop_ok _ _ _ _ _ _ n I E) as (v & fs' & -> & I').
    pose proof (inv_aligned _ _ _ _ _ _ I' (free_list_ (pl s), ROUND) ltac:(set_solver)) as (Hp & Hp4 & _).
    cbn. split_and!; [done..| |done]. split; [exact Ht|]. by exists lost, fs'.
Qed.

Lemma fixed_deallocate_core p n s sm rest : holds s ((p, ROUND) :: sm) rest ->
  exists s', deallocate p n s = Ret tt s' /\ holds s' sm rest /\ spares sm s s'.
Proof.
  intros [Ht (lost & fs & I)]. destruct (deallocate_inv _ _ _ _ _ _ p n I) as (m' & Hd & I' & Hs).
  eexists. split; [exact Hd|]. split; [|done]. split; [exact Ht|]. by exists lost, (p :: fs).
Qed.

(** A client may write into its block. *)
Lemma write_ok p m s sm rest : holds s ((p, ROUND) :: sm) rest ->
  (forall x, x < p \/ p + ROUND <= x -> m x = mem (mc s) x) ->
  holds (State (pl s) (Machine m (os (mc s)) (oom (mc s)))) ((p, ROUND) :: sm) rest.
Proof.
  intros [Ht (lost & fs & I)] Hm. split; [done|]. exists lost, fs. apply fixed_inv_write; [done|].
  intros x Hx. apply Hm. destruct (decide (p <= x < p + ROUND)) as [Hx'|]; [|lia].
  apply (block_own _ _ _ _ _ _ p x I) in Hx' as [_ Hc]. rewrite cover_app in Hc. lia.
Qed.

Lemma fixed_holds_perm s sm sm' rest : sm ≡ₚ sm' -> holds s sm rest -> holds s sm' rest.
Proof.
  intros Hs [Ht (lost & fs & I)]. split; [done|]. exists lost, fs. destruct I; split; try done.
  - intros x. rewrite <- Hs. apply inv_cover0.
  - intros b. rewrite <- Hs. apply inv_aligned0.
Qed.

Lemma fixed_holds_init m : valid w (os m) -> ready m ->
  holds (State fixed_memory_pool_t m) [] (owned (os m)).
Proof.
  intros Hv Hr. pose proof ROUND_ok. split.
  - unfold tight. cbn. split_and!; (done || lia || by right).
  - exists [], []. split; cbn; try done; [|set_solver|lia].
    intros x. change (reserve _) with (0, 0). by rewrite hit_empty.
Qed.

(** The calls of the clients and their own writes; [sm] are the blocks they hold. *)
Inductive client_step : state * list block -> state * list block -> Prop :=
| step_allocate n p s s' sm : allocate n s = Ret p s' -> client_step (s, sm) (s', (p, ROUND) :: sm)
| step_no_memory n e s s' sm : allocate n s = Throw e s' -> client_step (s, sm) (s', sm)
| step_deallocate n p s s' sm sm' : sm ≡ₚ (p, ROUND) :: sm' -> deallocate p n s = Ret tt s' ->
    client_step (s, sm) (s', sm')
| step_write p m s sm sm' : sm ≡ₚ (p, ROUND) :: sm' ->
    (forall x, x < p \/ p + ROUND <= x -> m x = mem (mc s) x) ->
    client_step (s, sm) (State (pl s) (Machine m (os (mc s)) (oom (mc s))), sm).

Lemma fixed_client_step_holds rest c c' : client_step c c' -> holds c.1 c.2 rest -> holds c'.1 c'.2 rest.
Proof.
  intros Hs. destruct Hs as [n p s s' sm Ha|n e s s' sm Ha|n p s s' sm sm' Hp Hd|p m s sm sm' Hp Hm];
    cbn; intros Hh.
  - pose proof (fixed_allocate_core n s sm rest Hh) as Hc. rewrite Ha in Hc. apply Hc.
  - pose proof (fixed_allocate_core n s sm rest Hh) as Hc. rewrite Ha in Hc. apply Hc.
  - eapply fixed_holds_perm in Hh; [|done]. destruct (fixed_deallocate_core p n s sm' rest Hh) as (s2 & Hd2 & Hh2 & _).
    congruence.
  - eapply fixed_holds_perm; [symmetry; done|]. eapply write_ok; [|done]. by eapply fixed_holds_perm.
Qed.

Class DeallocLaw : Prop := dealloc_law p n r m : valid w (os m) ->
  owned (os m) ≡ₚ (p, n) :: r ->
  exists m', at_deallocate p n m = Ret tt m' /\ valid w (os m') /\ owned (os m') ≡ₚ r /\
    agree r (mem m) (mem m').

Lemma fixed_release_buffers_ok `{!DeallocLaw} l r s : valid w (os (mc s)) ->
  owned (os (mc s)) ≡ₚ l ++ r ->
  exists m', release_buffers l s = Ret tt (State (pl s) m') /\ owned (os m') ≡ₚ r /\
    agree r (mem (mc s)) (mem m').
Proof.
  revert s. induction l as [|[p n] l IH]; intros s Hv Ho.
  - exists (mc s). cbn. by destruct s.
  - destruct (dealloc_law p n (l ++ r) (mc s) Hv Ho) as (m1 & Hd & Hv1 & Ho1 & Ha1).
    cbn [release_buffers]. unfold bind at 1, on_machine. rewrite Hd.
    destruct (IH (State (pl s) m1) Hv1 Ho1) as (m' & Hr & Ho' & Ha'). exists m'.
    split_and!; [done..|]. eapply agree_trans; [|done]. eapply agree_weaken; [|done].
    intros x. rewrite cover_app. lia.
Qed.

(** ** The properties *)

(** [allocate] never returns null and fails only by [bad_alloc]: it answers a
    4-aligned block of [ROUND] bytes, whatever the size asked for, that overlaps no
    other block; on every outcome each byte of the buffers is still in exactly one
    place and the clients' bytes are untouched. *)
Theorem fixed_allocate_ok n s sm rest : holds s sm rest -> allocate_post s sm rest (allocate n s).
Proof. apply fixed_allocate_core. Qed.

(** [deallocate] of a client's block takes it back, whatever the size it is told:
    the pool keeps its invariant and the other clients' bytes are untouched; the
    next [allocate] answers that block. *)
Theorem fixed_deallocate_ok p n n' s sm rest : holds s ((p, ROUND) :: sm) rest ->
  exists s', deallocate p n s = Ret tt s' /\ holds s' sm rest /\ spares sm s s' /\
    exists s2, allocate n' s' = Ret p s2.
Proof.
  intros [Ht (lost & fs & I)]. destruct (deallocate_inv _ _ _ _ _ _ p n I) as (m' & Hd & I' & Hs).
  eexists. split; [exact Hd|]. split_and!; [split; [exact Ht|]; by exists lost, (p :: fs)|done|].
  pose proof (inv_aligned _ _ _ _ _ _ I (p, ROUND) ltac:(set_solver)) as (Hp & _). cbn in Hp.
  destruct (fixed_pop_ok _ _ _ _ _ _ n' I') as (v & fs' & Ha & _); [cbn; lia|]. eexists. exact Ha.
Qed.

(** [C14] After any sequence of calls on a new pool, by any number of clients that write
    into their blocks as they like, no byte belongs to two live blocks. *)
Theorem fixed_blocks_disjoint m s sm x : valid w (os m) -> ready m ->
  rtc client_step (State fixed_memory_pool_t m, []) (s, sm) -> (cover x sm <= 1)%nat.
Proof.
  intros Hv Hr Hs.
  assert (Hh : holds s sm (owned (os m))).
  { refine (rtc_invariant client_step (fun c => holds c.1 c.2 (owned (os m)))
      (State fixed_memory_pool_t m, []) (s, sm)
      (fun a b Ha Hab => fixed_client_step_holds _ a b Hab Ha) _ Hs).
    by apply fixed_holds_init. }
  destruct Hh as [_ (lost & fs & I)]. pose proof (fixed_inv_disjoint _ _ _ _ _ _ x I). lia.
Qed.

(** The destructor gives every buffer back to [AllocT], once, and nothing else. *)
Theorem fixed_clear_ok `{!DeallocLaw} s sm rest : holds s sm rest ->
  exists s', clear s = Ret tt s' /\ buffers_ (pl s') = [] /\
    owned (os (mc s')) ≡ₚ rest /\ agree rest (mem (mc s)) (mem (mc s')).
Proof.
  intros [_ (lost & fs & I)].
  destruct (fixed_release_buffers_ok (buffers_ (pl s)) rest s) as (m' & Hr & Ho & Ha); [apply I..|].
  unfold clear, bind, get. rewrite Hr. eexists. by split_and!.
Qed.

End FixedPool.

(** ** The default configuration *)

Section Default.
Context {Os : Type} `{Libc Os} {Handler : Type}.
Context (run_handler : Handler -> prog (machine Os Handler) unit).
Context (psz : nat) `{!LibcLaws (8 * Z.of_nat psz) Os}.

Lemma fixed_default_laws BYTES fuel : (0 < psz <= 8)%nat ->
  0 < BYTES /\ Z.of_nat psz <= ROUND psz BYTES /\ 64 * (BYTES + 4) < 2 ^ (8 * Z.of_nat psz) ->
  (1 <= fuel)%nat ->
  FixedLaws run_handler psz BYTES fuel (fun m => oom m = None).
Proof.
  intros Hp Hm Hf. split; try done.
  - by intros s s' ->.
  - intros n s Hr Hv Hn. destruct (libc_malloc_ok (8 * Z.of_nat psz) n s Hv Hn)
      as (p & s' & Ha & Ho & Hc). exists p, s'. by rewrite Ho.
  - intros n s Hr Hv Hn.
    destruct (allocate_no_handler run_handler _ fuel n s Hf Hv Hn Hr) as (s' & Ho & Hc). eauto.
Qed.

#[export] Instance default_dealloc : DeallocLaw (Handler := Handler) psz.
Proof.
  intros p n r m Hv Ho.
  destruct (libc_free_ok _ p n r m Hv Ho) as (m' & ? & _ & ?). eauto.
Qed.
End Default.

(** A 32-bit program with blocks of 10 bytes, and a 64-bit one with blocks of 4. *)
Module Demo.
Definition no_handler (h : unit) : prog (machine Bump.t unit) unit := ret tt.
Definition machine0 : machine Bump.t unit := Machine (fun _ => 0) (Bump.Mk 8 65536 []) None.
Definition state0 : state := State fixed_memory_pool_t machine0.
Notation ready := (fun m : machine Bump.t unit => oom m = None).

Lemma fixed_laws : FixedLaws no_handler 4 10 1 ready.
Proof. by apply fixed_default_laws; try lia. Qed.

Lemma fixed_valid0 : valid 32 (os machine0).
Proof. cbn. unfold Bump.good. cbn. split_and!; try lia; try done; set_solver. Qed.

Lemma fixed_holds0 : holds 4 10 ready state0 [] [].
Proof. pose proof fixed_laws. exact (fixed_holds_init no_handler 4 10 1 ready machine0 fixed_valid0 eq_refl). Qed.

Lemma fixed_allocate_ok_witness : allocate_post 4 10 ready state0 [] [] (allocate no_handler 4 10 1 10 state0).
Proof. pose proof fixed_laws. exact (fixed_allocate_ok no_handler 4 10 1 ready 10 state0 [] [] fixed_holds0). Defined.

(** The state after [allocate(10)], with the block at address 8. *)
Definition state1 : state :=
  match allocate no_handler 4 10 1 10 state0 with Ret _ s => s | _ => state0 end.

Lemma fixed_first_allocation : allocate no_handler 4 10 1 10 state0 = Ret 8 state1.
Proof.
  assert (Hb : match allocate no_handler 4 10 1 10 state0 with Ret p _ => p =? 8 | _ => false end
    = true) by (vm_compute; reflexivity).
  unfold state1. destruct (allocate no_handler 4 10 1 10 state0) as [p s| | |]; try done.
  by bool_props; subst p.
Qed.

Definition held : list block := [(8, ROUND 4 10)].

Lemma holds1 : holds 4 10 ready state1 held [].
Proof.
  pose proof fixed_laws. pose proof (fixed_allocate_core no_handler 4 10 1 ready 10 state0 [] [] fixed_holds0) as H'.
  rewrite fixed_first_allocation in H'. apply H'.
Qed.

Lemma fixed_deallocate_ok_witness : exists s', deallocate 4 8 10 state1 = Ret tt s' /\
  holds 4 10 ready s' [] [] /\ spares [] state1 s' /\ exists s2, allocate no_handler 4 10 1 3 s' = Ret 8 s2.
Proof. pose proof fixed_laws. exact (fixed_deallocate_ok no_handler 4 10 1 ready 8 10 3 state1 [] [] holds1). Defined.

Lemma fixed_blocks_disjoint_witness :
  client_step no_handler 4 10 1 (state0, []) (state1, held) /\ (cover 8 held <= 1)%nat.
Proof.
  assert (Hs : client_step no_handler 4 10 1 (state0, []) (state1, held))
    by (eapply step_allocate, fixed_first_allocation).
  split; [exact Hs|]. pose proof fixed_laws.
  exact (fixed_blocks_disjoint no_handler 4 10 1 ready machine0 state1 _ 8 fixed_valid0 eq_refl (rtc_once _ _ Hs)).
Defined.

Lemma fixed_clear_ok_witness : exists s', clear state1 = Ret tt s' /\ buffers_ (pl s') = [] /\
    owned (os (mc s')) ≡ₚ [] /\ agree [] (mem (mc state1)) (mem (mc s')).
Proof. pose proof fixed_laws. exact (fixed_clear_ok 4 10 ready state1 _ [] holds1). Defined.

(** Blocks smaller than a pointer: the link of a block overlaps the next block, and
    the third allocation follows a link that is none. *)
Theorem narrow_blocks_break :
  (allocate no_handler 8 4 1 4 ;;; allocate no_handler 8 4 1 4 ;;; allocate no_handler 8 4 1 4) state0 = UB.
Proof. by vm_compute. Qed.

End Demo.
