(* ===== verification/Allocators.v ===== *)
(** * Allocators and small containers

    extend_stl/allocator/stack_allocator.hpp and container_allocator.hpp,
    performance/pingpong/pingpong/handler_allocator.hpp and utility/circular_buffer.hpp.
    [w] is the width of [size_t]. *)

From S2P Require Import Prelude.

(** A block: where it begins and how many bytes it has; blocks are apart when they
    share no byte. *)
Abbreviation block := (Z * Z)%type.
Definition apart (a b : block) : Prop := a.1 + a.2 <= b.1 \/ b.1 + b.2 <= a.1.

Module Stack.
Section Stack.
Context (w n_stack_elements : Z).

(** ** [stack_storage_t] and [stack_allocator_t]

    The state is [pos_]; a block is an offset into [array_]. *)
Definition stack_storage_t : Z := 0.

(** Without the assertion of a debug build; [None] is a null pointer. *)
Definition allocate (sizeof_value_type n_elements : Z) : prog Z (option Z) := fun pos_ =>
  if n_stack_elements <? wrap w (pos_ + wrap w (n_elements * sizeof_value_type)) then Ret None pos_
  else Ret (Some pos_) (u32 (pos_ + wrap w (n_elements * sizeof_value_type))).

Definition deallocate : prog Z unit := ret tt.

(** The calls of a client, with the size of an element and the number of elements, and
    the blocks they gave. *)
Fixpoint run (calls : list (Z * Z)) : prog Z (list block) :=
  match calls with
  | [] => ret []
  | (size, n) :: calls' =>
      let* p := allocate size n in
      let* l := run calls' in
      ret (match p with Some a => (a, n * size) :: l | None => l end)
  end.

Definition valid : Prop := 0 <= n_stack_elements < 2 ^ 32 /\ 32 <= w.

(** A call whose size in bytes does not wrap around [size_t]. *)
Definition sane (c : Z * Z) : Prop := 0 <= c.1 * c.2 /\ c.2 * c.1 < 2 ^ w - n_stack_elements.

Lemma stack_allocate_ok pos size n : valid -> 0 <= pos <= n_stack_elements -> sane (size, n) ->
  allocate size n pos =
    if n_stack_elements <? pos + n * size then Ret None pos else Ret (Some pos) (pos + n * size).
Proof.
  intros [Hn Hw] Hp [H0 H1]. cbn in *. rewrite Z.mul_comm in H0. unfold allocate, wrap.
  assert (2 ^ 32 <= 2 ^ w) by (apply Z.pow_le_mono_r; lia).
  rewrite (Z.mod_small (n * size)), (Z.mod_small (pos + n * size)) by lia.
  destruct (Z.ltb_spec n_stack_elements (pos + n * size)); [done|]. by rewrite Z.mod_small by lia.
Qed.

Lemma stack_run_ok calls : valid -> Forall sane calls -> forall pos, 0 <= pos <= n_stack_elements ->
  exists blocks pos', run calls pos = Ret blocks pos' /\ pos <= pos' <= n_stack_elements /\
    Forall (fun b => pos <= b.1 /\ 0 <= b.2 /\ b.1 + b.2 <= pos') blocks /\ ForallOrdPairs apart blocks.
Proof.
  intros V. induction 1 as [|[size n] calls Hs _ IH]; intros pos Hp; cbn [run].
  - exists [], pos. split_and!; [done|lia|lia|constructor|constructor].
  - pose proof (stack_allocate_ok pos size n V Hp Hs) as Ha. destruct Hs as [Hs _]. cbn in Hs.
    destruct (Z.ltb_spec n_stack_elements (pos + n * size)); rewrite (bind_ret _ _ _ _ _ Ha).
    + destruct (IH pos Hp) as (l & pos' & Hr & Hle & Hl & Hd). rewrite (bind_ret _ _ _ _ _ Hr).
      by exists l, pos'.
    + destruct (IH (pos + n * size) ltac:(lia)) as (l & pos' & Hr & Hle & Hl & Hd). rewrite (bind_ret _ _ _ _ _ Hr).
      exists ((pos, n * size) :: l), pos'. split_and!; [done|lia|lia| |].
      * constructor; [cbn; lia|]. eapply Forall_impl; [exact Hl|]. cbn. intros b ?. lia.
      * constructor; [|done]. eapply Forall_impl; [exact Hl|]. unfold apart. cbn. intros b ?. lia.
Qed.

(** The blocks of any sequence of calls lie inside the array and share no byte, as long
    as no size wraps around. *)
Theorem stack_blocks_apart calls : valid -> Forall sane calls ->
  exists blocks pos, run calls stack_storage_t = Ret blocks pos /\
    Forall (fun b => 0 <= b.1 /\ b.1 + b.2 <= n_stack_elements) blocks /\ ForallOrdPairs apart blocks.
Proof.
  intros V Hs. destruct (stack_run_ok calls V Hs 0) as (l & pos & Hr & Hle & Hl & Hd); [destruct V; lia|].
  exists l, pos. split_and!; [done| |done]. eapply Forall_impl; [exact Hl|]. cbn. intros b ?. lia.
Qed.

(** A number of elements whose size in bytes wraps to nothing is granted: the block the
    client was promised runs out of the array. *)
Theorem stack_size_wraps pos k n : valid -> 0 <= k <= w -> 0 <= pos <= n_stack_elements -> 0 < n ->
  allocate (2 ^ k) (n * 2 ^ (w - k)) pos = Ret (Some pos) pos /\
  n_stack_elements < pos + n * 2 ^ (w - k) * 2 ^ k.
Proof.
  intros [Hn Hw] Hk Hp H0.
  assert (E : n * 2 ^ (w - k) * 2 ^ k = n * 2 ^ w) by (rewrite <- Z.mul_assoc, <- Z.pow_add_r by lia; do 2 f_equal; lia).
  assert (2 ^ 32 <= 2 ^ w) by (apply Z.pow_le_mono_r; lia). split; [|nia].
  unfold allocate, wrap. rewrite E, Z.mod_mul, Z.add_0_r, (Z.mod_small pos) by lia.
  rewrite (proj2 (Z.ltb_ge _ _)) by lia. by rewrite Z.mod_small by lia.
Qed.
End Stack.
End Stack.

Module Handler.

(** ** [handler_allocator]

    The storage inside the object serves one block at a time; [heap] are the live
    blocks of [operator new], which answers an address. *)
Record allocator : Type := Allocator { in_use_ : bool; heap : list Z }.

Inductive pointer : Type := Storage | Heap (a : Z).

#[export] Instance pointer_eq_dec : EqDecision pointer.
Proof. solve_decision. Defined.

Definition handler_allocator : allocator := Allocator false [].

(** [fresh]: what [operator new] answers. *)
Definition allocate (size : Z) (fresh : option Z) : prog allocator pointer := fun s =>
  if negb (in_use_ s) && (size <? 1024) then Ret Storage (Allocator true (heap s))
  else match fresh with
       | Some a => Ret (Heap a) (Allocator (in_use_ s) (a :: heap s))
       | None => Throw bad_alloc s
       end.

(** Giving back what [operator new] did not answer is undefined. *)
Definition deallocate (p : pointer) : prog allocator unit := fun s =>
  match p with
  | Storage => Ret tt (Allocator false (heap s))
  | Heap a => if decide (a ∈ heap s) then Ret tt (Allocator (in_use_ s) (List.remove Z.eq_dec a (heap s))) else UB
  end.

(** The clients: the pointers they hold. *)
Inductive client_step : allocator * list pointer -> allocator * list pointer -> Prop :=
| client_allocate size fresh s held p s' : (forall a, fresh = Some a -> a ∉ heap s) ->
    allocate size fresh s = Ret p s' -> client_step (s, held) (s', p :: held)
| client_deallocate p s held1 held2 s' :
    deallocate p s = Ret tt s' -> client_step (s, held1 ++ p :: held2) (s', held1 ++ held2).

Record holds (s : allocator) (held : list pointer) : Prop := {
  hd_apart : NoDup held;
  hd_storage : Storage ∈ held <-> in_use_ s = true;
  hd_heap : forall a, Heap a ∈ held <-> a ∈ heap s
}.

Lemma allocate_holds size fresh s held p s' : holds s held -> (forall a, fresh = Some a -> a ∉ heap s) ->
  allocate size fresh s = Ret p s' -> holds s' (p :: held).
Proof.
  intros [Hd Hs Hh] Hf. unfold allocate. destruct (in_use_ s) eqn:E; cbn [negb andb].
  2: destruct (size <? 1024); [intros [= <- <-]; split; cbn; [constructor; [naive_solver|done]|set_solver|set_solver]|].
  all: destruct fresh as [a|]; [|done]; intros [= <- <-]; specialize (Hf a eq_refl).
  all: split; cbn; [constructor; [by rewrite Hh|done]|rewrite elem_of_cons, <- Hs; naive_solver|set_solver].
Qed.

Lemma deallocate_holds p s held1 held2 : holds s (held1 ++ p :: held2) ->
  exists s', deallocate p s = Ret tt s' /\ holds s' (held1 ++ held2).
Proof.
  intros [Hd Hs Hh]. assert (Hp : p ∉ held1 ++ held2 /\ NoDup (held1 ++ held2)).
  { rewrite <- Permutation_middle in Hd. by apply NoDup_cons in Hd. }
  assert (He : forall q, q ∈ held1 ++ p :: held2 <-> q = p \/ q ∈ held1 ++ held2) by set_solver.
  destruct Hp as [Hp Hnd]. destruct p as [|a]; cbn [deallocate].
  - eexists. split; [done|]. split; cbn; [done|by split|]. intros b. rewrite <- Hh, He. naive_solver.
  - rewrite decide_True by (apply Hh; set_solver). eexists. split; [done|]. split; cbn; [done| |].
    + rewrite <- Hs, He. naive_solver.
    + intros b. rewrite (list_elem_of_In _ b).
      assert (Hb : In b (List.remove Z.eq_dec a (heap s)) <-> b ∈ heap s /\ b <> a).
      { rewrite list_elem_of_In. split; [intros H%in_remove; naive_solver|intros [? ?]; by apply in_in_remove]. }
      rewrite Hb, <- Hh, He. naive_solver.
Qed.

Lemma client_step_safe x y : client_step x y -> holds x.1 x.2 -> holds y.1 y.2.
Proof.
  intros [size fresh s held p s' Hf Ha|p s held1 held2 s' Hd] H; cbn in *; [by eapply allocate_holds|].
  destruct (deallocate_holds p s held1 held2 H) as (s2 & H2 & Hh). congruence.
Qed.

(** Whatever the clients do, no two of them hold the same block, the storage is held by
    at most one of them and marked exactly while it is held, and everything they hold
    can be given back. *)
Theorem handler_blocks_distinct s held : rtc client_step (handler_allocator, []) (s, held) ->
  NoDup held /\ (in_use_ s = true <-> Storage ∈ held) /\
  forall held1 p held2, held = held1 ++ p :: held2 -> exists s', deallocate p s = Ret tt s'.
Proof.
  intros Hr. assert (H : holds s held).
  { apply (rtc_invariant client_step (fun x => holds x.1 x.2) _ _ (fun x y Hx Hs => client_step_safe x y Hs Hx)) in Hr; [done|].
    split; cbn; [constructor|set_solver|set_solver]. }
  pose proof H as [Hd Hs Hh]. split_and!; [done|by rewrite Hs|].
  intros held1 p held2 ->. destruct (deallocate_holds p s held1 held2 H) as (s' & Hs' & _). eauto.
Qed.
End Handler.

Module Pool.
Section Pool.
(** ** [pool_allocator_t]

    Over a pool: its state, [allocate] of a number of bytes and [deallocate]. *)
Context (w : Z) {S : Type} (pool_allocate : Z -> prog S Z) (pool_deallocate : Z -> Z -> prog S unit).
Context (sizeof_value_type : Z).

Definition max_size : Z := (2 ^ w - 1) / sizeof_value_type.
Definition allocate (n : Z) : prog S Z := pool_allocate (wrap w (n * sizeof_value_type)).
Definition deallocate (ptr n : Z) : prog S unit :=
  if (ptr =? 0) || (n =? 0) then ret tt else pool_deallocate ptr (wrap w (n * sizeof_value_type)).

(** Up to [max_size] the pool is asked for the bytes of [n] elements; one more element
    and the number wraps around: the pool is asked for less than one element. *)
Theorem pool_sizes n : 0 < sizeof_value_type < 2 ^ w -> 0 < w -> 0 <= n ->
  (n <= max_size <-> n * sizeof_value_type < 2 ^ w) /\
  (n <= max_size -> allocate n = pool_allocate (n * sizeof_value_type)) /\
  exists bytes, allocate (max_size + 1) = pool_allocate bytes /\ 0 <= bytes < sizeof_value_type.
Proof.
  intros Hs Hw Hn. unfold max_size.
  pose proof (Z.div_mod (2 ^ w - 1) sizeof_value_type ltac:(lia)) as E.
  pose proof (Z.mod_pos_bound (2 ^ w - 1) sizeof_value_type ltac:(lia)) as Hm.
  set (q := (2 ^ w - 1) / sizeof_value_type) in *.
  assert (Hq : n <= q <-> n * sizeof_value_type < 2 ^ w) by (split; intros; nia).
  split_and!; [done| |].
  - intros Hle%Hq. unfold allocate. rewrite wrap_small; [done|nia].
  - exists ((q + 1) * sizeof_value_type - 2 ^ w). split; [|nia]. unfold allocate, wrap. f_equal.
    symmetry. apply (Z.mod_unique_pos _ _ 1); nia.
Qed.
End Pool.
End Pool.

Module Circular.
Section Circular.
Context {T : Type} `{Inhabited T} (N : Z).

(** ** [cicular_buffer_t] *)

Record buffer : Type := Buffer { buffer_ : list T; index_ : Z }.

(** The elements of a new array are default constructed. *)
Definition cicular_buffer_t (initial : T) : buffer := Buffer (replicate (Z.to_nat N) initial) 0.

(** An access outside the array is undefined. *)
Definition back (s : buffer) : option T :=
  buffer_ s !! Z.to_nat (if index_ s =? 0 then u32 (N - 1) else u32 (index_ s - 1)).

Definition push_back (val : T) : prog buffer unit := fun s =>
  if bool_decide (is_Some (buffer_ s !! Z.to_nat (index_ s))) then
    let index := u32 (index_ s + 1) in
    Ret tt (Buffer (<[Z.to_nat (index_ s) := val]> (buffer_ s)) (if N <=? index then 0 else index))
  else UB.

Fixpoint pushes (vals : list T) : prog buffer unit :=
  match vals with [] => ret tt | v :: vals' => push_back v ;;; pushes vals' end.

(** The values of the buffer, the latest first. *)
Definition latest (s : buffer) : list T :=
  reverse (take (Z.to_nat (index_ s)) (buffer_ s)) ++ reverse (drop (Z.to_nat (index_ s)) (buffer_ s)).

Record inv (s : buffer) : Prop := { iv_length : Z.of_nat (length (buffer_ s)) = N; iv_index : 0 <= index_ s < N }.

Lemma push_ok v s : 0 < N < 2 ^ 32 -> inv s -> exists s', push_back v s = Ret tt s' /\ inv s' /\
  back s' = Some v /\ latest s' = v :: take (Z.to_nat N - 1) (latest s).
Proof.
  intros HN [Hl Hi]. unfold push_back. rewrite bool_decide_eq_true_2 by (apply lookup_lt_is_Some; lia).
  eexists. split; [done|]. rewrite u32_small by lia.
  set (i := Z.to_nat (index_ s)). assert (Hilt : (i < length (buffer_ s))%nat) by lia.
  assert (Hlat : forall j, j = S i -> take j (<[i := v]> (buffer_ s)) = take i (buffer_ s) ++ [v]).
  { intros j ->. rewrite (take_S_r _ _ v) by by apply list_lookup_insert_eq. by rewrite take_insert_ge by lia. }
  assert (Hdrop : forall j, j = S i -> drop j (<[i := v]> (buffer_ s)) = drop j (buffer_ s)) by (intros j ->; apply drop_insert_lt; lia).
  assert (Hold : latest s = reverse (take i (buffer_ s)) ++ reverse (drop (S i) (buffer_ s)) ++ [buffer_ s !!! i]).
  { unfold latest. fold i. destruct (lookup_lt_is_Some_2 _ _ Hilt) as [x Hx].
    rewrite (drop_S _ x) by done. by rewrite reverse_cons, (list_lookup_total_correct _ _ _ Hx). }
  assert (Hlen : length (reverse (take i (buffer_ s)) ++ reverse (drop (S i) (buffer_ s))) = (Z.to_nat N - 1)%nat).
  { rewrite length_app, !length_reverse, length_take, length_drop. lia. }
  rewrite Hold, app_assoc, take_app_length' by done.
  destruct (Z.leb_spec N (index_ s + 1)); (split; [split; cbn; [by rewrite length_insert|lia]|]).
  - assert (Hj : Z.to_nat N = S i) by lia. split.
    + unfold back. cbn. rewrite u32_small by lia. replace (Z.to_nat (N - 1)) with i by lia. by apply list_lookup_insert_eq.
    + unfold latest. cbn. rewrite drop_0. rewrite <- (take_drop (S i) (<[i:=v]> (buffer_ s))), (Hlat _ eq_refl), (Hdrop _ eq_refl).
      rewrite (drop_ge (buffer_ s)) by lia. rewrite !app_nil_r. by rewrite reverse_app, reverse_singleton.
  - assert (Hj : Z.to_nat (index_ s + 1) = S i) by lia. split.
    + unfold back. cbn. rewrite (proj2 (Z.eqb_neq _ _)), u32_small by lia.
      replace (Z.to_nat (index_ s + 1 - 1)) with i by lia. by apply list_lookup_insert_eq.
    + unfold latest. cbn. rewrite Hj, (Hlat _ eq_refl), (Hdrop _ eq_refl). by rewrite reverse_app, reverse_singleton.
Qed.

(** The buffer keeps the last [N] values, and [back] is the last of all. *)
Theorem circular_keeps_latest initial vals v : 0 < N < 2 ^ 32 ->
  exists s, pushes (vals ++ [v]) (cicular_buffer_t initial) = Ret tt s /\ back s = Some v /\
    latest s = take (Z.to_nat N) (reverse (vals ++ [v]) ++ replicate (Z.to_nat N) initial).
Proof.
  intros HN.
  assert (Hgen : forall l s, inv s -> exists s', pushes l s = Ret tt s' /\ inv s' /\ latest s' = take (Z.to_nat N) (reverse l ++ latest s)).
  { intros l. induction l as [|x l IH]; intros s I; cbn [pushes].
    - exists s. split_and!; try done. cbn. rewrite take_ge; [done|]. destruct I. unfold latest.
      rewrite length_app, !length_reverse, length_take, length_drop. lia.
    - destruct (push_ok x s HN I) as (s1 & H1 & I1 & _ & L1). destruct (IH s1 I1) as (s2 & H2 & I2 & L2).
      exists s2. rewrite (bind_ret _ _ _ _ _ H1). split_and!; [done|done|]. rewrite L2, L1, reverse_cons, <- app_assoc. cbn.
      rewrite !take_app. f_equal.
      destruct (Z.to_nat N - length (reverse l))%nat as [|k] eqn:Ek; [done|]. cbn. f_equal. rewrite take_take. f_equal. lia. }
  assert (I0 : inv (cicular_buffer_t initial)) by (split; cbn; rewrite ?length_replicate; lia).
  assert (Hrun : forall l, pushes (l ++ [v]) ≃ (pushes l ;;; push_back v)).
  { induction l as [|x l IH]; cbn [app pushes]; [intros s; apply bind_ret_r|].
    rewrite bind_assoc. apply bind_proper; [done|]. intros []. exact IH. }
  destruct (Hgen vals _ I0) as (s1 & H1 & I1 & L1). destruct (push_ok v s1 HN I1) as (s2 & H2 & _ & B2 & L2).
  exists s2. rewrite (Hrun vals), (bind_ret _ _ _ _ _ H1). split_and!; [done|done|].
  assert (L0 : latest (cicular_buffer_t initial) = replicate (Z.to_nat N) initial).
  { unfold latest, cicular_buffer_t. cbn [buffer_ index_]. change (Z.to_nat 0) with 0%nat.
    by rewrite take_0, drop_0, reverse_replicate. }
  rewrite L2, L1, L0, reverse_snoc. cbn [app]. destruct (Z.to_nat N) as [|m] eqn:Em; [lia|].
  replace (S m - 1)%nat with m by lia. rewrite take_take, Nat.min_l by lia. done.
Qed.
End Circular.
End Circular.

Module Demo.
Lemma stack_blocks_apart_witness : exists blocks pos,
  Stack.run 32 64 [(4, 5); (8, 3); (8, 3); (1, 7)] Stack.stack_storage_t = Ret blocks pos /\
  Forall (fun b => 0 <= b.1 /\ b.1 + b.2 <= 64) blocks /\ ForallOrdPairs apart blocks.
Proof.
  apply (Stack.stack_blocks_apart 32 64); [by split|].
  repeat constructor; cbn; lia.
Defined.

Lemma stack_size_wraps_witness : Stack.allocate 32 64 4 1073741824 20 = Ret (Some 20) 20.
Proof. apply (Stack.stack_size_wraps 32 64 20 2 1); [by split|lia|lia|lia]. Defined.

Definition two_handlers : Handler.allocator * list Handler.pointer := (Handler.Allocator true [4096], [Handler.Heap 4096; Handler.Storage]).

Lemma handler_blocks_distinct_witness : NoDup (two_handlers.2).
Proof.
  refine (proj1 (Handler.handler_blocks_distinct two_handlers.1 two_handlers.2 _)).
  eapply rtc_l; [by apply (Handler.client_allocate 100 None)|].
  eapply rtc_l; [|apply rtc_refl]. apply (Handler.client_allocate 100 (Some 4096)); [|done].
  intros a [= <-]. by apply not_elem_of_nil.
Defined.

Lemma pool_sizes_witness : Pool.allocate (S := unit) 32 ret 12 5 = ret 60.
Proof. apply (proj1 (proj2 (Pool.pool_sizes 32 ret 12 5 ltac:(lia) ltac:(lia) ltac:(lia)))). by vm_compute. Defined.

Lemma circular_keeps_latest_witness : exists s,
  Circular.pushes 3 [1; 2; 3; 4; 5] (Circular.cicular_buffer_t 3 0) = Ret tt s /\ Circular.back 3 s = Some 5 /\
  Circular.latest s = [5; 4; 3].
Proof. exact (Circular.circular_keeps_latest 3 0 [1; 2; 3; 4] 5 ltac:(lia)). Defined.
End Demo.
