(* ===== verification/AssocVector.v ===== *)
(** * [assoc_vector_t], a map kept in a sorted vector

    include/extend_stl/container/assio_vector.hpp. The vector is a list, an
    iterator an index into it. The comparator [C] is any strict weak order: two
    keys are the same key when neither is less than the other. *)

From S2P Require Import Prelude.

Class StrictWeakOrder {K} (lt : K -> K -> bool) : Prop := {
  lt_irrefl a : lt a a = false;
  lt_trans a b c : lt a b = true -> lt b c = true -> lt a c = true;
  (* not being less is transitive *)
  nlt_trans a b c : lt a b = false -> lt b c = false -> lt a c = false
}.

Section AssocVector.
Context {K V : Type} (C : K -> K -> bool) `{!StrictWeakOrder C}.

Notation value_type := (K * V)%type.
Notation assoc_vector_t := (list value_type).
Notation iterator := nat.

(** ** [detail::assoc_vector_compare_t] *)

Definition comp_key (lhs rhs : K) : bool := C lhs rhs.
Definition comp_data (lhs rhs : value_type) : bool := comp_key lhs.1 rhs.1.
Definition comp_data_key (lhs : value_type) (rhs : K) : bool := comp_key lhs.1 rhs.
Definition comp_key_data (lhs : K) (rhs : value_type) : bool := comp_key lhs rhs.1.

(** ** Searching

    [std::lower_bound] and [std::upper_bound]: the partition points of the
    sequence. *)
Fixpoint std_lower_bound (l : assoc_vector_t) (k : K) : iterator :=
  match l with
  | [] => 0%nat
  | e :: l' => if comp_data_key e k then S (std_lower_bound l' k) else 0%nat
  end.

Fixpoint std_upper_bound (l : assoc_vector_t) (k : K) : iterator :=
  match l with
  | [] => 0%nat
  | e :: l' => if comp_key_data k e then 0%nat else S (std_upper_bound l' k)
  end.

Definition end_ (l : assoc_vector_t) : iterator := length l.
Definition empty (l : assoc_vector_t) : bool := (length l =? 0)%nat.
Definition size (l : assoc_vector_t) : nat := length l.

Definition lower_bound (k : K) (l : assoc_vector_t) : iterator := std_lower_bound l k.
Definition upper_bound (k : K) (l : assoc_vector_t) : iterator := std_upper_bound l k.
Definition equal_range (k : K) (l : assoc_vector_t) : iterator * iterator :=
  (std_lower_bound l k, std_upper_bound l k).

Definition find (k : K) (l : assoc_vector_t) : iterator :=
  let i := lower_bound k l in
  match l !! i with
  | Some e => if comp_key k e.1 then end_ l else i
  | None => i
  end.

Definition count (k : K) (l : assoc_vector_t) : nat :=
  if (find k l =? end_ l)%nat then 0 else 1.

(** ** Changing the vector

    [Base::insert] and [Base::erase] are undefined behaviour for an iterator
    beyond the vector. *)
Definition base_insert (i : iterator) (val : value_type) : prog assoc_vector_t iterator := fun l =>
  if (i <=? length l)%nat then Ret i (take i l ++ val :: drop i l) else UB.

Definition base_erase (i : iterator) : prog assoc_vector_t unit := fun l =>
  if (i <? length l)%nat then Ret tt (delete i l) else UB.

Definition insert (val : value_type) : prog assoc_vector_t (iterator * bool) := fun l =>
  let i := lower_bound val.1 l in
  match l !! i with
  | Some e =>
      if comp_key val.1 e.1 then (let* i' := base_insert i val in ret (i', true)) l
      else Ret (i, false) l
  | None => (let* i' := base_insert i val in ret (i', true)) l
  end.

(** [insert(pos, val)]: the hint is used when [val] fits just before [pos]. *)
Definition insert_hint (pos : iterator) (val : value_type) : prog assoc_vector_t iterator := fun l =>
  if (length l <? pos)%nat then UB
  else
    let before := match pos with
                  | O => true
                  | S p => match l !! p with Some e => comp_data e val | None => false end
                  end in
    let after := if (pos =? end_ l)%nat then true
                 else match l !! pos with Some e => comp_data val e | None => false end in
    if before && after then base_insert pos val l
    else (let* r := insert val in ret r.1) l.

Fixpoint insert_range (vals : list value_type) : prog assoc_vector_t unit :=
  match vals with
  | [] => ret tt
  | v :: vals' => let* r := insert v in insert_range vals'
  end.

Definition erase_key (k : K) : prog assoc_vector_t nat := fun l =>
  let i := find k l in
  if (i =? end_ l)%nat then Ret 0%nat l else (base_erase i ;;; ret 1%nat) l.

Definition erase_range (first last : iterator) : prog assoc_vector_t unit := fun l =>
  if (first <=? last)%nat && (last <=? length l)%nat
  then Ret tt (take first l ++ drop last l) else UB.

Definition clear : prog assoc_vector_t unit := fun l => Ret tt [].

(** [operator[]]: the reference is the index of the element; [mapped_default] is
    [mapped_type()]. *)
Definition subscript (mapped_default : V) (key : K) : prog assoc_vector_t iterator :=
  let* r := insert (key, mapped_default) in ret r.1.

(** [me[key] = v]. *)
Definition assign (i : iterator) (v : V) : prog assoc_vector_t unit := fun l =>
  match l !! i with
  | Some e => Ret tt (<[i := (e.1, v)]> l)
  | None => UB
  end.

(** [std::map]'s insertion, for the temporary of the range constructor: it keeps
    the element already there. *)
Fixpoint std_map_insert (val : value_type) (temp : list value_type) : list value_type :=
  match temp with
  | [] => [val]
  | e :: t =>
      if C val.1 e.1 then val :: temp
      else if C e.1 val.1 then e :: std_map_insert val t
      else temp
  end.

Definition range_constructor (vals : list value_type) : assoc_vector_t :=
  let temp := foldl (fun t v => std_map_insert v t) [] vals in
  foldl (fun target e => target ++ [e]) [] temp.

(** [swap] exchanges the two vectors; [operator=] swaps with a copy. *)
Definition swap (l r : assoc_vector_t) : assoc_vector_t * assoc_vector_t := (r, l).
Definition operator_assign (l rhs : assoc_vector_t) : assoc_vector_t :=
  let copy := rhs in (swap copy l).2.

(** ** The invariant: strictly increasing keys *)

Fixpoint sorted (l : assoc_vector_t) : Prop :=
  match l with
  | [] => True
  | e :: l' => Forall (fun e' => C e.1 e'.1 = true) l' /\ sorted l'
  end.

(** The same key. *)
Definition same (a b : K) : bool := negb (C a b) && negb (C b a).

(** What the vector promises: a map from keys, up to [same], to values. *)
Fixpoint contents (l : assoc_vector_t) (k : K) : option V :=
  match l with
  | [] => None
  | e :: l' => if same e.1 k then Some e.2 else contents l' k
  end.

#[local] Notation C_irrefl := (lt_irrefl (lt := C)).
#[local] Notation C_trans := (lt_trans (lt := C)).
#[local] Notation C_nlt_trans := (nlt_trans (lt := C)).

Lemma same_refl a : same a a = true.
Proof. unfold same. by rewrite C_irrefl. Qed.

Lemma same_sym a b : same a b = same b a.
Proof. unfold same. apply andb_comm. Qed.

Lemma same_trans a b c : same a b = true -> same b c = true -> same a c = true.
Proof.
  unfold same. rewrite !andb_true_iff, !negb_true_iff. intros [H1 H2] [H3 H4].
  split; eapply C_nlt_trans; eauto.
Qed.

(** Comparing only depends on the key up to [same]. *)
Lemma same_lt_l a b c : same a b = true -> C a c = C b c.
Proof.
  unfold same. rewrite andb_true_iff, !negb_true_iff. intros [H1 H2].
  destruct (C a c) eqn:E1, (C b c) eqn:E2; try done.
  - by rewrite (C_nlt_trans a b c) in E1.
  - by rewrite (C_nlt_trans b a c) in E2.
Qed.

Lemma same_lt_r a b c : same a b = true -> C c a = C c b.
Proof.
  unfold same. rewrite andb_true_iff, !negb_true_iff. intros [H1 H2].
  destruct (C c a) eqn:E1, (C c b) eqn:E2; try done.
  - by rewrite (C_nlt_trans c b a) in E1.
  - by rewrite (C_nlt_trans c a b) in E2.
Qed.

Lemma lt_asym a b : C a b = true -> C b a = false.
Proof.
  intros H. destruct (C b a) eqn:E; [|done].
  pose proof (C_trans _ _ _ H E) as Hc. by rewrite C_irrefl in Hc.
Qed.

Lemma lt_not_same a b : C a b = true -> same a b = false.
Proof. unfold same. by intros ->. Qed.

#[local] Instance same_equiv : Equivalence (fun a b => same a b = true).
Proof.
  split; [intros a; apply same_refl|intros a b; by rewrite same_sym|
    intros a b c; apply same_trans].
Qed.

Lemma contents_same l a b : same a b = true -> contents l a = contents l b.
Proof.
  intros Hab. induction l as [|e l IH]; cbn; [done|]. rewrite IH.
  assert (same e.1 a = same e.1 b) as ->; [|done].
  unfold same. by rewrite (same_lt_l a b e.1), (same_lt_r a b e.1).
Qed.

Lemma contents_above l k : Forall (fun e => C k e.1 = true) l -> contents l k = None.
Proof.
  induction 1 as [|e l He _ IH]; cbn; [done|]. by rewrite same_sym, lt_not_same.
Qed.

(** ** The partition points *)

(** Where a sorted vector splits at [k]: everything before [lower_bound] is less
    than [k], everything from there on is not. *)
Lemma lower_bound_split l k : sorted l ->
  exists a b, l = a ++ b /\ lower_bound k l = length a /\
    Forall (fun e => C e.1 k = true) a /\ Forall (fun e => C e.1 k = false) b.
Proof.
  intros Hs. induction l as [|e l IH]; [by exists [], []|].
  destruct Hs as [He Hs]. cbn. unfold comp_data_key, comp_key. destruct (C e.1 k) eqn:E.
  - destruct (IH Hs) as (a & b & -> & Hi & Ha & Hb). exists (e :: a), b.
    split_and!; [done| |by constructor|done]. cbn. by rewrite <- Hi.
  - exists [], (e :: l). split_and!; [done..|]. constructor; [done|].
    eapply Forall_impl; [exact He|]. intros e' He'. destruct (C e'.1 k) eqn:E'; [|done].
    by rewrite (C_trans _ _ _ He' E') in E.
Qed.

Lemma sorted_app a b : sorted (a ++ b) <->
  sorted a /\ sorted b /\ (forall x y, x ∈ a -> y ∈ b -> C x.1 y.1 = true).
Proof.
  induction a as [|e a IH]; cbn.
  - split; [|tauto]. intros H. split_and!; [done..|]. intros x y Hx. by apply not_elem_of_nil in Hx.
  - rewrite Forall_app, IH. split.
    + intros [[Ha Hb] (Hs1 & Hs2 & Hs3)]. split_and!; [done..|].
      intros x y [->|Hx]%elem_of_cons Hy; [by eapply Forall_forall in Hb|by apply Hs3].
    + intros ((Ha & Hs1) & Hs2 & Hs3). split_and!; [done| |done|done|].
      * apply Forall_forall. intros y Hy. apply Hs3; [apply elem_of_cons; by left|done].
      * intros x y Hx Hy. apply Hs3; [apply elem_of_cons; by right|done].
Qed.

Lemma contents_app a b k :
  contents (a ++ b) k = match contents a k with Some v => Some v | None => contents b k end.
Proof. induction a as [|e a IH]; cbn; [done|]. by destruct (same e.1 k). Qed.

Lemma contents_below l k : Forall (fun e => C e.1 k = true) l -> contents l k = None.
Proof. induction 1 as [|e l He _ IH]; cbn; [done|]. by rewrite lt_not_same. Qed.

(** The element at [lower_bound] has the key [k], or no element has. *)
Lemma lower_bound_key l k : sorted l ->
  exists a b, l = a ++ b /\ lower_bound k l = length a /\
    Forall (fun e => C e.1 k = true) a /\
    match b with
    | e :: b' => if C k e.1 then contents l k = None /\ Forall (fun e' => C k e'.1 = true) b
                 else same k e.1 = true /\ contents l k = Some e.2
    | [] => contents l k = None
    end.
Proof.
  intros Hs. destruct (lower_bound_split l k Hs) as (a & b & -> & Hi & Ha & Hb).
  exists a, b. split_and!; [done..|]. rewrite contents_app, contents_below by done.
  destruct b as [|e b]; [done|]. inversion Hb as [|? ? He Hb']; subst.
  apply sorted_app in Hs as (_ & [Hlt _] & _). cbn. destruct (C k e.1) eqn:E.
  - assert (Hall : Forall (fun e' => C k e'.1 = true) (e :: b)).
    { constructor; [done|]. eapply Forall_impl; [exact Hlt|]. intros. by eapply C_trans. }
    split; [|done]. by apply (contents_above (e :: b)).
  - assert (same k e.1 = true) as Hk by (unfold same; by rewrite E, He).
    by rewrite (same_sym e.1 k), Hk.
Qed.

Lemma lookup_split (a b : assoc_vector_t) : (a ++ b) !! length a = head b.
Proof. rewrite lookup_app_r by lia. rewrite Nat.sub_diag. by destruct b. Qed.

(** ** Insertion *)

Lemma contents_insert a b val k :
  Forall (fun e => C e.1 val.1 = true) a ->
  contents (a ++ val :: b) k = if same val.1 k then Some val.2 else contents (a ++ b) k.
Proof.
  intros Ha. rewrite !contents_app. cbn. destruct (same val.1 k) eqn:E; [|done].
  assert (contents a k = None) as ->; [|done].
  rewrite <- (contents_same a val.1 k) by done. by apply contents_below.
Qed.

Lemma sorted_insert a b val : sorted (a ++ b) ->
  Forall (fun e => C e.1 val.1 = true) a -> Forall (fun e => C val.1 e.1 = true) b ->
  sorted (a ++ val :: b).
Proof.
  intros (Hs1 & Hs2 & Hs3)%sorted_app Ha Hb. apply sorted_app. split_and!; [done| |].
  - by split.
  - intros x y Hx [->|Hy]%elem_of_cons; [by eapply Forall_forall in Ha|by apply Hs3].
Qed.

(** What [insert] does to the map. *)
Definition inserted (val : value_type) (l : assoc_vector_t) (i : iterator) (b : bool)
    (l' : assoc_vector_t) : Prop :=
  sorted l' /\
  (exists e, l' !! i = Some e /\ same val.1 e.1 = true) /\
  (forall k, contents l' k =
     if same val.1 k then Some (default val.2 (contents l val.1)) else contents l k) /\
  match contents l val.1 with
  | None => b = true /\ length l' = S (length l)
  | Some _ => b = false /\ l' = l
  end.

Lemma base_insert_ok (a b : assoc_vector_t) val :
  base_insert (length a) val (a ++ b) = Ret (length a) (a ++ val :: b).
Proof.
  unfold base_insert. rewrite (proj2 (Nat.leb_le _ _)) by (rewrite length_app; lia).
  by rewrite take_app_length, drop_app_length.
Qed.

Lemma insert_new a b val : sorted (a ++ b) -> contents (a ++ b) val.1 = None ->
  Forall (fun e => C e.1 val.1 = true) a -> Forall (fun e => C val.1 e.1 = true) b ->
  inserted val (a ++ b) (length a) true (a ++ val :: b).
Proof.
  intros Hs Hc Ha Hb. split_and!.
  - by apply sorted_insert.
  - exists val. split; [by rewrite lookup_split|apply same_refl].
  - intros k. rewrite Hc. by apply contents_insert.
  - rewrite Hc. split; [done|]. rewrite !length_app. cbn. lia.
Qed.

Lemma insert_core val l : sorted l ->
  exists i b l', insert val l = Ret (i, b) l' /\ inserted val l i b l'.
Proof.
  intros Hs. destruct (lower_bound_key l val.1 Hs) as (a & b & -> & Hi & Ha & Hb).
  unfold insert. rewrite Hi, lookup_split. destruct b as [|e b]; cbn [head].
  - unfold bind. rewrite base_insert_ok. eexists _, _, _. split; [done|]. by apply insert_new.
  - unfold comp_key. destruct (C val.1 e.1) eqn:E.
    + unfold bind. rewrite base_insert_ok. destruct Hb as [Hc Hb].
      eexists _, _, _. split; [done|]. by apply insert_new.
    + destruct Hb as [Hk Hc]. eexists _, _, _. split; [done|]. split_and!; [done| | |].
      * exists e. by rewrite lookup_split.
      * intros k. rewrite Hc. cbn. destruct (same val.1 k) eqn:E'; [|done].
        by rewrite <- (contents_same _ val.1 k).
      * by rewrite Hc.
Qed.

(** [C38] [insert] implements a map's insertion: the result is sorted, an absent key
    is added with its value, a present one keeps its old value and the vector does
    not change, every other key is unaffected, and the iterator points to the
    element with the key. *)
Theorem insert_refines val l : sorted l ->
  exists i b l', insert val l = Ret (i, b) l' /\ inserted val l i b l'.
Proof. apply insert_core. Qed.

Lemma find_core k l : sorted l ->
  match contents l k with
  | Some v => exists e, l !! find k l = Some e /\ same k e.1 = true /\ e.2 = v
  | None => find k l = end_ l
  end.
Proof.
  intros Hs. destruct (lower_bound_key l k Hs) as (a & b & -> & Hi & Ha & Hb).
  unfold find. rewrite Hi, lookup_split. destruct b as [|e b]; cbn [head].
  - rewrite Hb. unfold end_. rewrite length_app. cbn. lia.
  - unfold comp_key. destruct (C k e.1) eqn:E.
    + by destruct Hb as [-> _].
    + destruct Hb as [Hk ->]. exists e. by rewrite lookup_split.
Qed.

(** [find] answers the element with the key when the map has one, and [end()]
    otherwise; [count] is 1 or 0 accordingly. *)
Theorem find_refines k l : sorted l ->
  match contents l k with
  | Some v => (exists e, l !! find k l = Some e /\ same k e.1 = true /\ e.2 = v) /\ count k l = 1%nat
  | None => find k l = end_ l /\ count k l = 0%nat
  end.
Proof.
  intros Hs. pose proof (find_core k l Hs) as Hf. unfold count.
  destruct (contents l k) as [v|].
  - split; [done|]. destruct Hf as (e & He & _). apply lookup_lt_Some in He.
    destruct (_ =? _)%nat eqn:E; [|done]. apply Nat.eqb_eq in E. unfold end_ in *. lia.
  - rewrite Hf, Nat.eqb_refl. done.
Qed.

(** Where [insert] puts a key that separates the vector. *)
Lemma insert_between a b val :
  Forall (fun e => C e.1 val.1 = true) a -> Forall (fun e => C val.1 e.1 = true) b ->
  insert val (a ++ b) = Ret (length a, true) (a ++ val :: b).
Proof.
  intros Ha Hb.
  assert (Hl : lower_bound val.1 (a ++ b) = length a).
  { unfold lower_bound. induction Ha as [|e a He _ IH]; cbn.
    - destruct Hb as [|e b He _]; [done|]. cbn. unfold comp_data_key, comp_key. by rewrite lt_asym.
    - unfold comp_data_key, comp_key. by rewrite He, IH. }
  unfold insert. rewrite Hl, lookup_split. destruct Hb as [|e b He Hb]; cbn [head].
  - unfold bind. by rewrite base_insert_ok.
  - unfold comp_key. rewrite He. unfold bind. by rewrite base_insert_ok.
Qed.

Lemma hint_before (l : assoc_vector_t) p (e val : value_type) : sorted l -> l !! p = Some e -> C e.1 val.1 = true ->
  Forall (fun e => C e.1 val.1 = true) (take (S p) l).
Proof.
  intros Hs He Hc. rewrite <- (take_drop (S p) l) in Hs. apply sorted_app in Hs as (Hs & _).
  rewrite (take_S_r _ _ _ He) in *. apply sorted_app in Hs as (_ & _ & Hle).
  apply Forall_app. split; [|by repeat constructor].
  apply Forall_forall. intros x Hx. eapply C_trans; [|exact Hc].
  apply (Hle x e Hx). by apply list_elem_of_singleton.
Qed.

Lemma hint_after (l : assoc_vector_t) p (e val : value_type) : sorted l -> l !! p = Some e -> C val.1 e.1 = true ->
  Forall (fun e => C val.1 e.1 = true) (drop p l).
Proof.
  intros Hs He Hc. rewrite <- (take_drop p l) in Hs. apply sorted_app in Hs as (_ & Hs & _).
  rewrite (drop_S _ _ _ He) in *. destruct Hs as [Hlt _]. constructor; [done|].
  eapply Forall_impl; [exact Hlt|]. intros. by eapply C_trans.
Qed.

Lemma insert_hint_core (pos : iterator) val l : sorted l -> (pos <= length l)%nat ->
  exists i b l', insert val l = Ret (i, b) l' /\ insert_hint pos val l = Ret i l'.
Proof.
  intros Hs Hpos. unfold insert_hint. rewrite (proj2 (Nat.ltb_ge _ _)) by done.
  match goal with |- context [if ?c then base_insert _ _ _ else _] => destruct c eqn:E end.
  - apply andb_true_iff in E as [E1 E2].
    assert (Ha : Forall (fun e => C e.1 val.1 = true) (take pos l)).
    { destruct pos as [|p]; [constructor|]. destruct (l !! p) as [e|] eqn:Ee; [|done].
      by eapply hint_before. }
    assert (Hb : Forall (fun e => C val.1 e.1 = true) (drop pos l)).
    { destruct (pos =? end_ l)%nat eqn:Ep.
      - apply Nat.eqb_eq in Ep. unfold end_ in Ep. by rewrite drop_ge by lia.
      - destruct (l !! pos) as [e|] eqn:Ee; [|done].
        by eapply hint_after. }
    pose proof (insert_between _ _ val Ha Hb) as Hi. rewrite take_drop in Hi.
    pose proof (base_insert_ok (take pos l) (drop pos l) val) as Hbi.
    rewrite take_drop in Hbi. rewrite length_take_le in * by done. eauto.
  - destruct (insert_core val l Hs) as (i & b & l' & Hi & _). exists i, b, l'.
    split; [done|]. by rewrite (bind_ret _ _ _ _ _ Hi).
Qed.

(** [C40] A hint never matters for what [insert] does: whatever valid iterator is
    passed, the vector and the answer are those of [insert] without it. *)
Theorem insert_hint_equiv (pos : iterator) val l : sorted l -> (pos <= length l)%nat ->
  exists i b l', insert val l = Ret (i, b) l' /\ insert_hint pos val l = Ret i l'.
Proof. apply insert_hint_core. Qed.

(** ** Erasing *)

Lemma sorted_erase (a m b : assoc_vector_t) : sorted (a ++ m ++ b) -> sorted (a ++ b).
Proof.
  intros (Hs1 & (_ & Hs2 & _)%sorted_app & Hs3)%sorted_app. apply sorted_app.
  split_and!; [done..|]. intros x y Hx Hy. apply Hs3; [done|]. apply elem_of_app. by right.
Qed.

(** [erase(k)] implements a map's removal: the key is gone, every other key is
    unaffected, the vector stays sorted, and the answer is the number of elements
    removed. *)
Theorem erase_key_refines k l : sorted l ->
  exists l', erase_key k l = Ret (count k l) l' /\ sorted l' /\
    (forall k', contents l' k' = if same k k' then None else contents l k') /\
    length l = (count k l + length l')%nat.
Proof.
  intros Hs. destruct (lower_bound_key l k Hs) as (a & b & Hl & Hi & Ha & Hb).
  pose proof (find_core k l Hs) as Hf. unfold erase_key, count.
  destruct (contents l k) as [v|] eqn:Ec.
  - destruct Hf as (e & He & Hk & _). pose proof (lookup_lt_Some _ _ _ He) as Hlt.
    destruct (find k l =? end_ l)%nat eqn:E.
    { apply Nat.eqb_eq in E. unfold end_ in E. lia. }
    unfold bind, base_erase. rewrite (proj2 (Nat.ltb_lt _ _)) by done.
    rewrite (delete_take_drop l).
    pose proof (take_drop_middle _ _ _ He) as Hmid.
    set (x := take (find k l) l) in *. set (y := drop (S (find k l)) l) in *.
    eexists. split; [done|]. rewrite <- Hmid in Hs |- *. split_and!.
    + by apply (sorted_erase x [e] y).
    + intros k'. rewrite !contents_app. cbn. rewrite (same_sym e.1 k') .
      apply sorted_app in Hs as (_ & [Hlt' _] & Hx).
      assert (Hxk : same k k' = true -> contents x k' = None).
      { intros Hkk. rewrite (contents_same x k' e.1)
          by (rewrite same_sym in Hkk; by eapply same_trans).
        apply contents_below. apply Forall_forall. intros z Hz. apply Hx; [done|].
        apply elem_of_cons. by left. }
      destruct (same k k') eqn:Ek.
      * rewrite Hxk by done. rewrite (contents_same y k' e.1)
          by (rewrite same_sym in Ek; by eapply same_trans). by apply contents_above.
      * destruct (contents x k'); [done|]. destruct (same k' e.1) eqn:E'; [|done].
        rewrite same_sym in E'. rewrite (same_trans k e.1 k') in Ek; done.
    + rewrite !length_app. cbn. lia.
  - rewrite Hf, Nat.eqb_refl. eexists. split; [done|]. split_and!; [done| |done].
    intros k'. destruct (same k k') eqn:Ek; [|done]. by rewrite <- (contents_same _ k).
Qed.

(** ** The range constructor *)

Lemma insert_std_map val l : sorted l ->
  exists i b, insert val l = Ret (i, b) (std_map_insert val l).
Proof.
  intros Hs. destruct (lower_bound_key l val.1 Hs) as (a & b & -> & Hi & Ha & Hb).
  unfold insert. rewrite Hi, lookup_split. clear Hi.
  assert (Hmap : forall r, std_map_insert val b = r -> std_map_insert val (a ++ b) = a ++ r).
  { intros r <-. clear Hs Hb. induction Ha as [|e a He _ IH]; [done|]. cbn.
    by rewrite (lt_asym e.1 val.1), He, IH. }
  destruct b as [|e b]; cbn [head].
  - unfold bind. rewrite base_insert_ok, (Hmap _ eq_refl). by eexists _, _.
  - unfold comp_key. cbn in Hmap. destruct (C val.1 e.1) eqn:E.
    + unfold bind. rewrite base_insert_ok, (Hmap _ eq_refl). by eexists _, _.
    + destruct Hb as [Hk _]. apply andb_true_iff in Hk as [_ Hk]. apply negb_true_iff in Hk.
      rewrite Hk in Hmap. rewrite (Hmap _ eq_refl). by eexists _, _.
Qed.

Lemma foldl_snoc (temp acc : list value_type) :
  foldl (fun target e => target ++ [e]) acc temp = acc ++ temp.
Proof.
  revert acc. induction temp as [|e t IH]; intros acc; cbn; [by rewrite app_nil_r|].
  rewrite IH. by rewrite <- app_assoc.
Qed.

Lemma insert_range_core vals l : sorted l ->
  let l' := foldl (fun t v => std_map_insert v t) l vals in
  insert_range vals l = Ret tt l' /\ sorted l' /\
  forall k, contents l' k = match contents l k with Some v => Some v | None => contents vals k end.
Proof.
  revert l. induction vals as [|v vals IH]; intros l Hs; cbn.
  - split_and!; [done..|]. intros k. by destruct (contents l k).
  - destruct (insert_std_map v l Hs) as (i & b & Hi).
    destruct (insert_core v l Hs) as (i' & b' & l' & Hi' & Hs' & _ & Hc & _).
    rewrite Hi in Hi'. injection Hi' as <- <- <-. unfold bind. rewrite Hi.
    destruct (IH _ Hs') as (Hr & Hs2 & Hc2). split_and!; [done..|].
    intros k. rewrite Hc2, Hc. destruct (same v.1 k) eqn:E; [|done].
    rewrite (contents_same l v.1 k) by done. by destruct (contents l k).
Qed.

(** Building the vector from a range, through a temporary [std::map], gives
    what inserting the elements one by one gives: a sorted vector in which the first
    element of each key wins. *)
Theorem range_constructor_equiv vals :
  insert_range vals [] = Ret tt (range_constructor vals) /\
  sorted (range_constructor vals) /\
  forall k, contents (range_constructor vals) k = contents vals k.
Proof.
  unfold range_constructor. rewrite foldl_snoc.
  by destruct (insert_range_core vals [] I) as (Hr & Hs & Hc).
Qed.

(** ** Ranges and references *)

Lemma upper_bound_split a b k : Forall (fun e => C k e.1 = false) a ->
  Forall (fun e => C k e.1 = true) b -> upper_bound k (a ++ b) = length a.
Proof.
  intros Ha Hb. unfold upper_bound. induction Ha as [|e a He _ IH]; cbn.
  - destruct Hb as [|e b He _]; [done|]. cbn. unfold comp_key_data, comp_key. by rewrite He.
  - unfold comp_key_data, comp_key. by rewrite He, IH.
Qed.

Lemma ordered_not_same k (e : value_type) : C e.1 k = true \/ C k e.1 = true ->
  same k e.1 = true -> False.
Proof.
  intros [He|He] Hsm; unfold same in Hsm; rewrite He in Hsm; cbn in Hsm;
    rewrite ?andb_false_r in Hsm; done.
Qed.

(** The elements before and after the place of a key are not of that key. *)
Lemma absent_range k a b : Forall (fun e : value_type => C e.1 k = true) a ->
  Forall (fun e => C k e.1 = false) a -> Forall (fun e => C k e.1 = true) b ->
  upper_bound k (a ++ b) = (length a + 0)%nat /\
  forall (i : nat) e, (a ++ b) !! i = Some e ->
    (same k e.1 = true <-> (length a <= i < upper_bound k (a ++ b))%nat).
Proof.
  intros Ha Hna Hall. rewrite upper_bound_split by done. split; [lia|]. intros i e He. split; [|lia].
  intros Hsm. exfalso. apply (ordered_not_same k e); [|done]. apply list_elem_of_lookup_2 in He.
  apply elem_of_app in He as [He|He]; [left; by eapply Forall_forall in Ha|right].
  by eapply Forall_forall in Hall.
Qed.

Lemma present_range k a (e : value_type) b : Forall (fun e => C e.1 k = true) a ->
  Forall (fun e => C k e.1 = true) b -> same k e.1 = true ->
  forall (i : nat) e', (a ++ e :: b) !! i = Some e' ->
    (same k e'.1 = true <-> (length a <= i < length a + 1)%nat).
Proof.
  intros Ha Hlt Hsame i e' He'. split.
  - intros Hsm. destruct (decide (i = length a)); [lia|]. exfalso.
    apply (ordered_not_same k e'); [|done]. destruct (decide (i < length a)%nat).
    + rewrite lookup_app_l in He' by done. left. apply list_elem_of_lookup_2 in He'.
      by eapply Forall_forall in Ha.
    + rewrite lookup_app_r in He' by lia. right.
      destruct (i - length a)%nat eqn:Ed; [lia|]. cbn in He'.
      apply list_elem_of_lookup_2 in He'. by eapply Forall_forall in Hlt.
  - intros Hr. assert (i = length a) as -> by lia.
    rewrite lookup_app_r, Nat.sub_diag in He' by lia. by injection He' as <-.
Qed.

(** [equal_range] is the range of the elements with the key: [count] of them,
    from [lower_bound] to [upper_bound]. *)
Theorem equal_range_refines k l : sorted l ->
  equal_range k l = (lower_bound k l, upper_bound k l) /\
  upper_bound k l = (lower_bound k l + count k l)%nat /\
  forall (i : nat) e, l !! i = Some e ->
    (same k e.1 = true <-> (lower_bound k l <= i < upper_bound k l)%nat).
Proof.
  intros Hs. split; [done|].
  destruct (lower_bound_key l k Hs) as (a & b & -> & Hi & Ha & Hb).
  assert (Hna : Forall (fun e => C k e.1 = false) a)
    by (eapply Forall_impl; [exact Ha|]; intros; by apply lt_asym).
  pose proof (find_core k _ Hs) as Hf. unfold count, find in *. rewrite Hi, lookup_split in *.
  pose proof (absent_range k a b Ha Hna) as Hno.
  destruct b as [|e b]; cbn [head] in *.
  - unfold end_ in *. rewrite length_app in *. cbn [length] in *.
    destruct Hno as [Hu Hno]; [constructor|]. split; [|exact Hno].
    rewrite Hu. destruct (_ =? _)%nat eqn:Ex; [done|]. apply Nat.eqb_neq in Ex. lia.
  - unfold comp_key in *. destruct (C k e.1) eqn:E.
    + rewrite Nat.eqb_refl. by apply Hno, Hb.
    + destruct Hb as [Hk _]. assert (Hlt : Forall (fun e' => C k e'.1 = true) b).
      { apply sorted_app in Hs as (_ & [Hlt _] & _). eapply Forall_impl; [exact Hlt|].
        intros e' He'. cbn in He'. by rewrite (same_lt_l k e.1). }
      assert (length a =? end_ (a ++ e :: b) = false)%nat as ->.
      { apply Nat.eqb_neq. unfold end_. rewrite length_app. cbn. lia. }
      assert (Hu : upper_bound k (a ++ e :: b) = (length a + 1)%nat).
      { replace (a ++ e :: b) with ((a ++ [e]) ++ b) by (by rewrite <- app_assoc).
        rewrite upper_bound_split; [rewrite length_app; cbn; lia| |done].
        apply Forall_app. split; [done|]. by repeat constructor. }
      rewrite Hu. split; [done|]. apply present_range; try done.
Qed.

(** Writing through a reference changes the value of its key. *)
Lemma assign_ok (l : assoc_vector_t) i e k v : sorted l -> l !! i = Some e -> same k e.1 = true ->
  exists l', assign i v l = Ret tt l' /\ sorted l' /\
    forall k', contents l' k' = if same k k' then Some v else contents l k'.
Proof.
  intros Hs He Hk. unfold assign. rewrite He. eexists. split; [done|].
  pose proof (take_drop_middle _ _ _ He) as Hmid. pose proof (lookup_lt_Some _ _ _ He).
  rewrite insert_take_drop by done. rewrite <- Hmid in Hs at 1.
  set (x := take i l) in *. set (y := drop (S i) l) in *.
  apply sorted_app in Hs as (Hs1 & Hs2 & Hs3).
  assert (Hx : Forall (fun z => C z.1 e.1 = true) x).
  { apply Forall_forall. intros z Hz. apply Hs3; [done|]. apply elem_of_cons. by left. }
  split.
  - apply sorted_app. split_and!; [done|done|].
    intros z z' Hz [->|Hz']%elem_of_cons; [cbn; by eapply Forall_forall in Hx|].
    apply Hs3; [done|]. apply elem_of_cons. by right.
  - intros k'. rewrite (contents_insert x y (e.1, v) k') by done. cbn.
    rewrite <- Hmid, (contents_insert x y e k') by done.
    destruct (same k k') eqn:E.
    + rewrite (same_trans e.1 k k'); [done| |done]. by rewrite same_sym.
    + destruct (same e.1 k') eqn:E'; [|done]. by rewrite (same_trans k e.1 k') in E.
Qed.

(** [me[k]] refers to the value of [k], a default one when the key was absent,
    and [me[k] = v] makes [v] the value of [k] and of no other key. *)
Theorem subscript_refines mapped_default k v l : sorted l ->
  exists i l1 l2, subscript mapped_default k l = Ret i l1 /\ sorted l1 /\
    contents l1 k = Some (default mapped_default (contents l k)) /\
    assign i v l1 = Ret tt l2 /\ sorted l2 /\
    forall k', contents l2 k' = if same k k' then Some v else contents l k'.
Proof.
  intros Hs. destruct (insert_core (k, mapped_default) l Hs) as (i & b & l1 & Hi & Hs1 & (e & He & Hk) & Hc & _).
  destruct (assign_ok l1 i e k v Hs1 He Hk) as (l2 & Ha & Hs2 & Hc2).
  exists i, l1, l2. split_and!; [by unfold subscript, bind; rewrite Hi|done| |done|done|].
  - rewrite Hc. cbn. by rewrite same_refl.
  - intros k'. rewrite Hc2, Hc. cbn. by destruct (same k k').
Qed.

(** ** Histories *)

Inductive operation : Type :=
| Insert (val : value_type)
| InsertHint (pos : iterator) (val : value_type)
| InsertRange (vals : list value_type)
| EraseKey (k : K)
| Erase (i : iterator)
| EraseRange (first last : iterator)
| SetAt (k : K) (mapped_default v : V)
| Clear.

Definition exec (o : operation) : prog assoc_vector_t unit :=
  match o with
  | Insert val => insert val ;;; ret tt
  | InsertHint pos val => insert_hint pos val ;;; ret tt
  | InsertRange vals => insert_range vals
  | EraseKey k => erase_key k ;;; ret tt
  | Erase i => base_erase i
  | EraseRange first last => erase_range first last
  | SetAt k mapped_default v => let* i := subscript mapped_default k in assign i v
  | Clear => clear
  end.

(** The iterators an operation takes are those of the vector. *)
Definition valid (o : operation) (l : assoc_vector_t) : Prop :=
  match o with
  | InsertHint pos _ => (pos <= length l)%nat
  | Erase i => (i < length l)%nat
  | EraseRange first last => (first <= last <= length l)%nat
  | _ => True
  end.

Inductive history : assoc_vector_t -> Prop :=
| history_constructed vals : history (range_constructor vals)
| history_step o l l' : history l -> valid o l -> exec o l = Ret tt l' -> history l'.

Lemma sorted_delete i l : sorted l -> sorted (delete i l).
Proof.
  intros Hs. rewrite delete_take_drop. apply (sorted_erase _ (take 1 (drop i l))).
  replace (drop (S i) l) with (drop 1 (drop i l)) by (rewrite drop_drop; f_equal; lia).
  by rewrite !take_drop.
Qed.

Lemma exec_sorted o l : sorted l -> valid o l -> exists l', exec o l = Ret tt l' /\ sorted l'.
Proof.
  intros Hs Hv. destruct o as [val|pos val|vals|k|i|first last|k d v|]; cbn [exec].
  - destruct (insert_core val l Hs) as (i & b & l' & Hi & Hs' & _). rewrite (bind_ret _ _ _ _ _ Hi). eauto.
  - destruct (insert_hint_core pos val l Hs Hv) as (i & b & l' & Hi & Hh).
    destruct (insert_core val l Hs) as (i2 & b2 & l2 & Hi2 & Hs2 & _). rewrite Hi in Hi2. injection Hi2 as <- <- <-.
    rewrite (bind_ret _ _ _ _ _ Hh). eauto.
  - destruct (insert_range_core vals l Hs) as (Hr & Hs' & _). eauto.
  - pose proof (find_core k l Hs) as Hf. unfold bind, erase_key.
    destruct (find k l =? end_ l)%nat eqn:E; [eauto|]. unfold base_erase, bind.
    destruct (contents l k); [|rewrite Hf, Nat.eqb_refl in E; done].
    destruct Hf as (e & He & _). rewrite (proj2 (Nat.ltb_lt _ _)) by by eapply lookup_lt_Some.
    eexists. split; [done|]. by apply sorted_delete.
  - unfold base_erase. cbn in Hv. rewrite (proj2 (Nat.ltb_lt _ _)) by done.
    eexists. split; [done|]. by apply sorted_delete.
  - unfold erase_range. cbn in Hv. rewrite !(proj2 (Nat.leb_le _ _)) by lia. eexists. split; [done|].
    apply (sorted_erase _ (take (last - first) (drop first l))).
    replace (drop last l) with (drop (last - first) (drop first l)) by (rewrite drop_drop; f_equal; lia).
    by rewrite !take_drop.
  - destruct (insert_core (k, d) l Hs) as (i & b & l1 & Hi & Hs1 & (e & He & Hk) & _).
    destruct (assign_ok l1 i e k v Hs1 He Hk) as (l2 & Ha & Hs2 & _).
    assert (Hsub : subscript d k l = Ret i l1) by (unfold subscript; by rewrite (bind_ret _ _ _ _ _ Hi)).
    rewrite (bind_ret _ _ _ _ _ Hsub). eauto.
  - by exists [].
Qed.

(** [C39] Whatever operations made a vector, its keys are strictly increasing, and every
    operation with iterators of the vector is defined and keeps them so. *)
Theorem history_sorted l : history l ->
  sorted l /\ forall o, valid o l -> exists l', exec o l = Ret tt l' /\ history l'.
Proof.
  intros H. assert (Hs : sorted l).
  { induction H as [vals|o l l' _ IH Hv He].
    - unfold range_constructor. rewrite foldl_snoc. apply (insert_range_core vals [] I).
    - destruct (exec_sorted o l IH Hv) as (l2 & H2 & Hs2). congruence. }
  split; [done|]. intros o Hv. destruct (exec_sorted o l Hs Hv) as (l' & He & _). exists l'.
  split; [done|]. by eapply history_step.
Qed.

End AssocVector.

(** ** Comparisons

    [std::vector]'s, element by element, with the operators of the
    keys and values and not with [C]. *)
Section Comparisons.
Context {K V : Type}.
Notation value_type := (K * V)%type.
Notation assoc_vector_t := (list value_type).
Context (eqK : K -> K -> bool) (eqV : V -> V -> bool).
Context (ltK : K -> K -> bool) (ltV : V -> V -> bool).

Definition pair_eq (a b : value_type) : bool := eqK a.1 b.1 && eqV a.2 b.2.
Definition pair_lt (a b : value_type) : bool :=
  ltK a.1 b.1 || (negb (ltK b.1 a.1) && ltV a.2 b.2).

Fixpoint operator_eq (l r : assoc_vector_t) : bool :=
  match l, r with
  | [], [] => true
  | a :: l', b :: r' => pair_eq a b && operator_eq l' r'
  | _, _ => false
  end.

Fixpoint operator_lt (l r : assoc_vector_t) : bool :=
  match l, r with
  | _, [] => false
  | [], _ :: _ => true
  | a :: l', b :: r' => pair_lt a b || (negb (pair_lt b a) && operator_lt l' r')
  end.

Definition operator_ne (l r : assoc_vector_t) : bool := negb (operator_eq l r).
Definition operator_gt (l r : assoc_vector_t) : bool := operator_lt r l.
Definition operator_ge (l r : assoc_vector_t) : bool := negb (operator_lt l r).
Definition operator_le (l r : assoc_vector_t) : bool := negb (operator_lt r l).

(** The comparison operators are consistent: when the operators of keys and
    values are total orders with their equalities, exactly one of [<], [==], [>]
    holds of two vectors, and [<=] and [>=] are what they say. *)
Theorem comparisons_trichotomy (l r : assoc_vector_t) :
  (forall a b, eqK a b = negb (ltK a b) && negb (ltK b a)) -> (forall a b, ltK a b && ltK b a = false) ->
  (forall a b, eqV a b = negb (ltV a b) && negb (ltV b a)) -> (forall a b, ltV a b && ltV b a = false) ->
  (operator_lt l r && operator_gt l r = false) /\
  operator_eq l r = negb (operator_lt l r) && negb (operator_gt l r) /\
  operator_le l r = operator_lt l r || operator_eq l r /\
  operator_ge l r = operator_gt l r || operator_eq l r.
Proof.
  intros HK HK' HV HV'. unfold operator_le, operator_ge, operator_gt.
  assert (Hp : forall a b, pair_lt a b && pair_lt b a = false /\
    pair_eq a b = negb (pair_lt a b) && negb (pair_lt b a)).
  { intros a b. unfold pair_lt, pair_eq. rewrite HK, HV.
    specialize (HK' a.1 b.1). specialize (HV' a.2 b.2).
    destruct (ltK a.1 b.1), (ltK b.1 a.1), (ltV a.2 b.2), (ltV b.2 a.2); done. }
  assert (H2 : operator_lt l r && operator_lt r l = false /\
    operator_eq l r = negb (operator_lt l r) && negb (operator_lt r l)).
  { revert r. induction l as [|a l IH]; intros [|b r]; cbn; try done.
    destruct (Hp a b) as [Hp1 ->], (IH r) as [IH1 ->].
    destruct (pair_lt a b), (pair_lt b a), (operator_lt l r), (operator_lt r l); done. }
  destruct H2 as [H1 ->]. split_and!; [done|done| |];
    destruct (operator_lt l r), (operator_lt r l); done.
Qed.

End Comparisons.

(** ** Integers as keys *)

Module Demo.

#[export] Instance ltb_strict : StrictWeakOrder Z.ltb.
Proof. split; [intros; lia|intros; lia|intros a b c; rewrite !Z.ltb_ge; lia]. Qed.

Definition vec : list (Z * Z) := [(1, 10); (3, 30); (5, 50)].

Lemma vec_sorted : sorted Z.ltb vec.
Proof. cbn. repeat (split || constructor). Qed.

Lemma insert_refines_witness : sorted Z.ltb vec /\
  insert Z.ltb (3, 0) vec = Ret (1%nat, false) vec /\
  exists i b l', insert Z.ltb (4, 40) vec = Ret (i, b) l' /\ inserted Z.ltb (4, 40) vec i b l'.
Proof. split; [apply vec_sorted|split; [done|]]. exact (insert_refines Z.ltb (4, 40) vec vec_sorted). Defined.

Lemma range_constructor_equiv_witness :
  insert_range Z.ltb [(3, 1); (1, 2); (3, 9)] [] = Ret tt [(1, 2); (3, 1)] /\
  forall k, contents Z.ltb [(1, 2); (3, 1)] k = contents Z.ltb [(3, 1); (1, 2); (3, 9)] k.
Proof.
  destruct (range_constructor_equiv Z.ltb [(3, 1); (1, 2); (3, 9)]) as (H1 & _ & H2).
  by split.
Defined.

Lemma find_refines_witness : sorted Z.ltb vec /\
  (exists e, vec !! find Z.ltb 3 vec = Some e /\ same Z.ltb 3 e.1 = true /\ e.2 = 30) /\
  count Z.ltb 3 vec = 1%nat.
Proof. split; [apply vec_sorted|]. exact (find_refines Z.ltb 3 vec vec_sorted). Defined.

Lemma insert_hint_equiv_witness : sorted Z.ltb vec /\
  exists i b l', insert Z.ltb (4, 40) vec = Ret (i, b) l' /\ insert_hint Z.ltb 0 (4, 40) vec = Ret i l'.
Proof.
  split; [apply vec_sorted|].
  exact (insert_hint_equiv Z.ltb 0 (4, 40) vec vec_sorted ltac:(cbn; lia)).
Defined.

Lemma erase_key_refines_witness : sorted Z.ltb vec /\
  erase_key Z.ltb 3 vec = Ret 1%nat [(1, 10); (5, 50)] /\
  exists l', erase_key Z.ltb 3 vec = Ret (count Z.ltb 3 vec) l' /\ sorted Z.ltb l' /\
    (forall k', contents Z.ltb l' k' = if same Z.ltb 3 k' then None else contents Z.ltb vec k') /\
    length vec = (count Z.ltb 3%Z vec + length l')%nat.
Proof.
  split; [apply vec_sorted|split; [done|]]. exact (erase_key_refines Z.ltb 3 vec vec_sorted).
Defined.

Lemma equal_range_refines_witness : sorted Z.ltb vec /\
  equal_range Z.ltb 3 vec = (1%nat, 2%nat) /\
  upper_bound Z.ltb 3 vec = (lower_bound Z.ltb 3%Z vec + count Z.ltb 3%Z vec)%nat.
Proof.
  split; [apply vec_sorted|split; [done|]].
  exact (proj1 (proj2 (equal_range_refines Z.ltb 3 vec vec_sorted))).
Defined.

Lemma subscript_refines_witness : sorted Z.ltb vec /\
  exists i l1 l2, subscript Z.ltb 0 4 vec = Ret i l1 /\ sorted Z.ltb l1 /\
    contents Z.ltb l1 4 = Some (default 0 (contents Z.ltb vec 4)) /\
    assign i 44 l1 = Ret tt l2 /\ sorted Z.ltb l2 /\
    forall k', contents Z.ltb l2 k' = if same Z.ltb 4 k' then Some 44 else contents Z.ltb vec k'.
Proof. split; [apply vec_sorted|]. exact (subscript_refines Z.ltb 0 4 44 vec vec_sorted). Defined.

Lemma comparisons_trichotomy_witness :
  let lt := operator_lt Z.ltb Z.ltb in let eq := operator_eq Z.eqb Z.eqb in
  lt vec [(1, 10); (4, 0)] = true /\
  eq vec vec = negb (lt vec vec) && negb (operator_gt Z.ltb Z.ltb vec vec).
Proof.
  split; [done|].
  refine (proj1 (proj2 (comparisons_trichotomy Z.eqb Z.eqb Z.ltb Z.ltb vec vec _ _ _ _)));
    intros a b; lia.
Defined.


Lemma history_sorted_witness : sorted Z.ltb [(1, 10); (3, 31)].
Proof.
  apply (history_sorted Z.ltb). eapply (history_step Z.ltb (SetAt 3 0 31) [(1, 10); (3, 30)]); [|done|by vm_compute].
  eapply (history_step Z.ltb (EraseKey 5) vec); [|done|by vm_compute].
  exact (history_constructed Z.ltb [(3, 30); (1, 10); (5, 50); (3, 0)]).
Defined.
End Demo.
