(* ===== verification/Queues.v ===== *)
(** * The blocking queues

    include/extend_stl/container/blocking_queue.hpp and bounded_block_queue.hpp:
    a deque under a mutex, with a condition variable on which [get] waits while it
    is empty and, in the bounded one, a second on which [put] waits while it is
    full. A step is one critical section, one call of [notify_one], or one wake-up;
    the threads' steps interleave freely. *)

From S2P Require Import Prelude.

Section Queues.
Context {T : Type}.
(* None: blocking_queue_t; Some m: bounded_block_queue_t(m) *)
Context (max_size : option Z).

(** ** The critical sections *)

Definition empty (queue : list T) : bool := Z.of_nat (length queue) =? 0.
Definition full (queue : list T) : bool :=
  match max_size with
  | None => false
  | Some m => Z.of_nat (length queue) =? m
  end.
Definition size (queue : list T) : nat := length queue.

(** One round of [put]'s loop under the lock: [None] when it has to wait. *)
Definition put_section (x : T) (queue : list T) : option (list T) :=
  if full queue then None else Some (queue ++ [x]).

Definition get_section (queue : list T) : option (T * list T) :=
  match queue with
  | [] => None
  | front :: queue' => Some (front, queue')
  end.

Definition clear (queue : list T) : list T := [].

(** [for_each]: the calls of [func], in order. *)
Definition for_each {S} (func : T -> S -> S) (queue : list T) (s : S) : S :=
  foldl (fun s x => func x s) s queue.

(** ** Threads *)

Inductive pc : Type :=
| Idle
| Putting (x : T)        (* in put, about to take the lock *)
| Put_waiting (x : T)    (* in not_full_.wait_for *)
| Put_notify             (* before not_empty_.notify_one() *)
| Getting                (* in get, about to take the lock *)
| Get_waiting            (* in not_empty_.wait *)
| Get_notify (v : T).    (* before not_full_.notify_one() *)

(** Where a [get] that took [v] goes on: only the bounded queue notifies. *)
Definition after_get (v : T) : pc :=
  match max_size with None => Idle | Some _ => Get_notify v end.

(** [puts]: what was pushed, in order; [taken]: what left the queue, in order. *)
Record state := State {
  queue : list T;
  threads : list pc;
  puts : list T;
  taken : list T
}.

Definition at_pc (s : state) (i : nat) (p : pc) : Prop := threads s !! i = Some p.
Definition goto (i : nat) (p : pc) (s : state) : state :=
  State (queue s) (<[i := p]> (threads s)) (puts s) (taken s).

Definition is_get_waiting (p : pc) : bool := match p with Get_waiting => true | _ => false end.
Definition is_put_waiting (p : pc) : bool := match p with Put_waiting _ => true | _ => false end.

(** [notify_one] wakes some waiting thread, and nobody when none waits. *)
Inductive notify (waiting : pc -> bool) (wake : pc -> pc) (s : state) : state -> Prop :=
| notify_some j p : at_pc s j p -> waiting p = true -> notify waiting wake s (goto j (wake p) s)
| notify_none : (forall j p, at_pc s j p -> waiting p = false) -> notify waiting wake s s.

Definition wake (p : pc) : pc :=
  match p with
  | Put_waiting x => Putting x
  | Get_waiting => Getting
  | _ => p
  end.

Inductive step : state -> state -> Prop :=
| start_put i x s : at_pc s i Idle -> step s (goto i (Putting x) s)
| put_push i x q s : at_pc s i (Putting x) -> put_section x (queue s) = Some q ->
    step s (State q (<[i := Put_notify]> (threads s)) (puts s ++ [x]) (taken s))
| put_wait i x s : at_pc s i (Putting x) -> put_section x (queue s) = None ->
    step s (goto i (Put_waiting x) s)
| put_done i s s' : at_pc s i Put_notify -> notify is_get_waiting wake (goto i Idle s) s' ->
    step s s'
| start_get i s : at_pc s i Idle -> step s (goto i Getting s)
| get_pop i v q s : at_pc s i Getting -> get_section (queue s) = Some (v, q) ->
    step s (State q (<[i := after_get v]> (threads s)) (puts s) (taken s ++ [v]))
| get_wait i s : at_pc s i Getting -> get_section (queue s) = None ->
    step s (goto i Get_waiting s)
| get_done i v s s' : at_pc s i (Get_notify v) -> notify is_put_waiting wake (goto i Idle s) s' ->
    step s s'
| wake_up i p s : at_pc s i p -> is_get_waiting p || is_put_waiting p = true ->
    step s (goto i (wake p) s)                  (* a timeout or a spurious wake-up *)
| do_clear s : max_size = None ->
    step s (State (clear (queue s)) (threads s) (puts s) (taken s ++ queue s)).

Definition init (n : nat) : state := State [] (replicate n Idle) [] [].

(** ** First in, first out *)

Lemma notify_queue w k s s' : notify w k s s' ->
  queue s' = queue s /\ puts s' = puts s /\ taken s' = taken s.
Proof. by intros []. Qed.

Lemma step_fifo s s' : step s s' -> puts s = taken s ++ queue s -> puts s' = taken s' ++ queue s'.
Proof.
  intros Hs Hf. destruct Hs as [i x s|i x q s Hi Hp|i x s|i s s' Hi Hn|i s|i v q s Hi Hg|i s
    |i v s s' Hi Hn|i p s|s]; cbn; try done.
  - unfold put_section in Hp. destruct (full (queue s)); simplify_eq. by rewrite Hf, app_assoc.
  - apply notify_queue in Hn as (-> & -> & ->). done.
  - destruct (queue s) as [|v' q'] eqn:Eq; cbn in Hg; simplify_eq. by rewrite Hf, <- app_assoc.
  - apply notify_queue in Hn as (-> & -> & ->). done.
  - by rewrite Hf, app_nil_r.
Qed.

(** Both queues are first in, first out under every interleaving: what left
    the queue, followed by what is in it, is exactly what was put, in the order of
    the critical sections. No element is lost, duplicated or reordered. *)
Theorem fifo n s : rtc step (init n) s -> puts s = taken s ++ queue s.
Proof.
  intros Hr. refine (rtc_invariant step (fun s => puts s = taken s ++ queue s) (init n) s _ _ Hr).
  - intros a b Ha Hab. by apply (step_fifo a b).
  - done.
Qed.

Lemma step_bound m s s' : max_size = Some m -> step s s' ->
  Z.of_nat (length (queue s)) <= m -> Z.of_nat (length (queue s')) <= m.
Proof.
  intros Hm Hs Hb. destruct Hs as [i x s|i x q s Hi Hp|i x s|i s s' Hi Hn|i s|i v q s Hi Hg|i s
    |i v s s' Hi Hn|i p s|s Hc]; cbn; try done.
  - unfold put_section, full in Hp. rewrite Hm in Hp.
    destruct (_ =? m) eqn:E; simplify_eq. bool_props. rewrite length_app. cbn. lia.
  - by apply notify_queue in Hn as (-> & _).
  - destruct (queue s); cbn in *; simplify_eq. lia.
  - by apply notify_queue in Hn as (-> & _).
  - congruence.
Qed.

Lemma bounded_core m n s : max_size = Some m -> 0 <= m -> rtc step (init n) s ->
  Z.of_nat (length (queue s)) <= m.
Proof.
  intros Hm H0 Hr.
  refine (rtc_invariant step (fun s => Z.of_nat (length (queue s)) <= m) (init n) s _ _ Hr).
  - intros a b Ha Hab. by apply (step_bound m a b).
  - done.
Qed.

(** The bounded queue never holds more than [maxSize] elements. *)
Theorem bounded m n s : max_size = Some m -> 0 <= m -> rtc step (init n) s ->
  Z.of_nat (length (queue s)) <= m.
Proof. apply bounded_core. Qed.

(** ** No lost wake-up

    A getter that may take an element is one about to lock; a [notify_one] still to
    come will make another. Waiting getters are covered when there are at least as
    many of these as elements; likewise putters and free places. *)

Definition get_tokens (p : pc) : nat := match p with Put_notify | Getting => 1 | _ => 0 end.
Definition put_tokens (p : pc) : nat := match p with Get_notify _ | Putting _ => 1 | _ => 0 end.
Definition get_waits (p : pc) : nat := if is_get_waiting p then 1 else 0.
Definition put_waits (p : pc) : nat := if is_put_waiting p then 1 else 0.

Definition getters_covered (s : state) : Prop :=
  total get_waits (threads s) = 0%nat \/
  (length (queue s) <= total get_tokens (threads s))%nat.

Definition putters_covered (m : Z) (s : state) : Prop :=
  total put_waits (threads s) = 0%nat \/
  m - Z.of_nat (length (queue s)) <= Z.of_nat (total put_tokens (threads s)).

Lemma total_goto (f : pc -> nat) i p p' s : at_pc s i p ->
  (total f (threads (goto i p' s)) + f p = total f (threads s) + f p')%nat.
Proof. apply total_insert. Qed.

(** Both counts after a thread has gone to [p]. *)
Ltac goto_counts Hi f g p :=
  pose proof (total_goto f _ _ p _ Hi); pose proof (total_goto g _ _ p _ Hi).

(** What a notification does to a count. *)
Lemma notify_total (f : pc -> nat) w s s' : notify w wake s s' ->
  threads s' = threads s /\ (forall j p, at_pc s j p -> w p = false) \/
  exists j p, at_pc s j p /\ w p = true /\
    (total f (threads s') + f p = total f (threads s) + f (wake p))%nat.
Proof.
  intros [j p Hj Hw|Hn]; [right|by left]. exists j, p. split_and!; [done..|]. by apply total_goto.
Qed.

Lemma step_getters s s' : step s s' -> getters_covered s -> getters_covered s'.
Proof.
  unfold getters_covered. intros Hs Hg.
  destruct Hs as [i x s Hi|i x q s Hi Hp|i x s Hi|i s s' Hi Hn|i s Hi|i v q s Hi Hq|i s Hi Hq
    |i v s s' Hi Hn|i p s Hi Hw|s Hc].
  - goto_counts Hi get_waits get_tokens (Putting x). cbn in *. lia.
  - goto_counts Hi get_waits get_tokens Put_notify. unfold put_section in Hp.
    destruct (full (queue s)); simplify_eq. cbn in *. rewrite length_app. cbn. lia.
  - goto_counts Hi get_waits get_tokens (Put_waiting x). cbn in *. lia.
  - goto_counts Hi get_waits get_tokens Idle.
    pose proof (notify_queue _ _ _ _ Hn) as (Hq & _). rewrite Hq. cbn [queue goto].
    destruct (notify_total get_waits _ _ _ Hn) as [[Ht Hnone]|(j & p & Hj & Hw & H3)].
    + left. rewrite Ht. apply total_zero. intros j p Hj. unfold get_waits. by rewrite (Hnone j p).
    + destruct (notify_total get_tokens _ _ _ Hn) as [[_ Hnone]|(j' & p' & Hj' & Hw' & H4)].
      { specialize (Hnone j p Hj). congruence. }
      destruct p; try done. destruct p'; try done. cbn in *. lia.
  - goto_counts Hi get_waits get_tokens Getting. cbn in *. lia.
  - goto_counts Hi get_waits get_tokens (after_get v).
    destruct (queue s) as [|v' q']; cbn in Hq; simplify_eq.
    unfold after_get in *. destruct max_size; cbn in *; lia.
  - right. cbn [queue goto]. destruct (queue s); [cbn; lia|done].
  - goto_counts Hi get_waits get_tokens Idle.
    pose proof (notify_queue _ _ _ _ Hn) as (Hq & _). rewrite Hq. cbn [queue goto].
    destruct (notify_total get_waits _ _ _ Hn) as [[Ht _]|(j & p & Hj & Hw & H3)].
    + rewrite Ht. cbn in *. lia.
    + destruct (notify_total get_tokens _ _ _ Hn) as [[_ Hnone]|(j' & p' & Hj' & Hw' & H4)].
      { specialize (Hnone j p Hj). congruence. }
      destruct p; try done. destruct p'; try done. cbn in *. lia.
  - goto_counts Hi get_waits get_tokens (wake p).
    destruct p; try done; cbn in *; lia.
  - right. cbn. lia.
Qed.

Lemma step_putters m s s' : max_size = Some m -> step s s' ->
  putters_covered m s -> putters_covered m s'.
Proof.
  unfold putters_covered. intros Hm Hs Hg.
  destruct Hs as [i x s Hi|i x q s Hi Hp|i x s Hi Hp|i s s' Hi Hn|i s Hi|i v q s Hi Hq|i s Hi Hq
    |i v s s' Hi Hn|i p s Hi Hw|s Hc].
  - goto_counts Hi put_waits put_tokens (Putting x). cbn in *. lia.
  - goto_counts Hi put_waits put_tokens Put_notify. unfold put_section in Hp.
    destruct (full (queue s)); simplify_eq. cbn in *. rewrite length_app. cbn. lia.
  - right. unfold put_section, full in Hp. rewrite Hm in Hp. cbn [queue goto].
    destruct (_ =? m) eqn:E; simplify_eq. bool_props. lia.
  - goto_counts Hi put_waits put_tokens Idle.
    pose proof (notify_queue _ _ _ _ Hn) as (Hq & _). rewrite Hq. cbn [queue goto].
    destruct (notify_total put_waits _ _ _ Hn) as [[Ht _]|(j & p & Hj & Hw & H3)].
    + rewrite Ht. cbn in *. lia.
    + destruct (notify_total put_tokens _ _ _ Hn) as [[_ Hnone]|(j' & p' & Hj' & Hw' & H4)].
      { specialize (Hnone j p Hj). congruence. }
      destruct p; try done. destruct p'; try done. cbn in *. lia.
  - goto_counts Hi put_waits put_tokens Getting. cbn in *. lia.
  - goto_counts Hi put_waits put_tokens (after_get v).
    destruct (queue s) as [|v' q']; cbn in Hq; simplify_eq.
    unfold after_get in *. rewrite Hm in *. cbn in *. lia.
  - goto_counts Hi put_waits put_tokens Get_waiting. cbn in *. lia.
  - goto_counts Hi put_waits put_tokens Idle.
    pose proof (notify_queue _ _ _ _ Hn) as (Hq & _). rewrite Hq. cbn [queue goto].
    destruct (notify_total put_waits _ _ _ Hn) as [[Ht Hnone]|(j & p & Hj & Hw & H3)].
    + left. rewrite Ht. apply total_zero. intros j p Hj. unfold put_waits. by rewrite (Hnone j p).
    + destruct (notify_total put_tokens _ _ _ Hn) as [[_ Hnone]|(j' & p' & Hj' & Hw' & H4)].
      { specialize (Hnone j p Hj). congruence. }
      destruct p; try done. destruct p'; try done. cbn in *. lia.
  - goto_counts Hi put_waits put_tokens (wake p).
    destruct p; try done; cbn in *; lia.
  - congruence.
Qed.

Lemma total_init (f : pc -> nat) n : f Idle = 0%nat -> total f (replicate n Idle) = 0%nat.
Proof. intros H. induction n as [|n IH]; cbn; [done|]. by rewrite H, IH. Qed.

Lemma reachable_getters n s : rtc step (init n) s -> getters_covered s.
Proof.
  intros Hr. refine (rtc_invariant step getters_covered (init n) s _ _ Hr).
  - intros a b Ha Hab. by apply (step_getters a b).
  - left. by apply total_init.
Qed.

Lemma reachable_putters m n s : max_size = Some m -> rtc step (init n) s -> putters_covered m s.
Proof.
  intros Hm Hr. refine (rtc_invariant step (putters_covered m) (init n) s _ _ Hr).
  - intros a b Ha Hab. by apply (step_putters m a b).
  - left. by apply total_init.
Qed.

(** Nothing is on its way: every thread is outside, or asleep on a condition. *)
Definition quiet (s : state) : Prop := forall i p, at_pc s i p ->
  p = Idle \/ is_get_waiting p = true \/ is_put_waiting p = true.

(** [C25] No wake-up is lost: when every thread is outside the queue or asleep, a
    sleeping [get] means that the queue is empty, and a sleeping [put] that it is
    full. A queue for at least one element never has both asleep, so it never
    deadlocks, and no timeout or spurious wake-up is needed for that. *)
Theorem no_lost_wakeup n s : rtc step (init n) s -> quiet s ->
  (forall i, at_pc s i Get_waiting -> queue s = []) /\
  (forall m i x, max_size = Some m -> 0 < m -> at_pc s i (Put_waiting x) ->
     Z.of_nat (length (queue s)) = m /\ forall j, ~ at_pc s j Get_waiting).
Proof.
  intros Hr Hq.
  assert (Hget : forall i, at_pc s i Get_waiting -> queue s = []).
  { intros i Hi. destruct (reachable_getters n s Hr) as [Hz|Hle].
    - rewrite total_zero in Hz. by specialize (Hz i _ Hi).
    - assert (total get_tokens (threads s) = 0%nat) as Hz.
      { apply total_zero. intros j p Hj. by destruct (Hq j p Hj) as [->|[H|H]]; [|destruct p|destruct p]. }
      rewrite Hz in Hle. destruct (queue s); [done|cbn in Hle; lia]. }
  split; [done|]. intros m i x Hm H0 Hi.
  assert (Hle : Z.of_nat (length (queue s)) <= m) by (apply (bounded_core m n s); (done || lia)).
  assert (Heq : Z.of_nat (length (queue s)) = m).
  { destruct (reachable_putters m n s Hm Hr) as [Hz|Hle'].
    - rewrite total_zero in Hz. by specialize (Hz i _ Hi).
    - assert (total put_tokens (threads s) = 0%nat) as Hz.
      { apply total_zero. intros j p Hj. by destruct (Hq j p Hj) as [->|[H|H]]; [|destruct p|destruct p]. }
      rewrite Hz in Hle'. lia. }
  split; [done|]. intros j Hj. rewrite (Hget j Hj) in Heq. cbn in Heq. lia.
Qed.

End Queues.

(** ** Two producers, a queue for one element *)

Module Demo.

(** Thread 0 has put 7 and left, thread 1 waits with 8. *)
Definition crowded : state (T := Z) := State [7] [Idle; Put_waiting 8] [7] [].

Lemma crowded_reachable : rtc (step (Some 1)) (init 2) crowded.
Proof.
  eapply rtc_l; [apply (start_put (Some 1) 0 7); reflexivity|].
  eapply rtc_l; [eapply (put_push (Some 1) 0 7); reflexivity|].
  eapply rtc_l; [eapply (put_done (Some 1) 0); [reflexivity|apply notify_none]|].
  { intros [|[|j]] p Hp; unfold at_pc in Hp; cbn in Hp; by simplify_eq. }
  eapply rtc_l; [apply (start_put (Some 1) 1 8); reflexivity|].
  eapply rtc_l; [apply (put_wait (Some 1) 1 8); reflexivity|].
  apply rtc_refl.
Qed.

Lemma crowded_quiet : quiet crowded.
Proof. intros [|[|i]] p Hp; unfold at_pc in Hp; cbn in Hp; simplify_eq; [by left|by right; right]. Qed.

Lemma fifo_witness : rtc (step (Some 1)) (init 2) crowded /\ puts crowded = taken crowded ++ queue crowded.
Proof. split; [apply crowded_reachable|]. exact (fifo (Some 1) 2 crowded crowded_reachable). Defined.

Lemma bounded_witness : rtc (step (Some 1)) (init 2) crowded /\ Z.of_nat (length (queue crowded)) <= 1.
Proof.
  split; [apply crowded_reachable|].
  exact (bounded (Some 1) 1 2 crowded eq_refl ltac:(lia) crowded_reachable).
Defined.

Lemma no_lost_wakeup_witness : quiet crowded /\ at_pc crowded 1 (Put_waiting 8) /\
  Z.of_nat (length (queue crowded)) = 1 /\ forall j, ~ at_pc crowded j Get_waiting.
Proof.
  split; [apply crowded_quiet|split; [reflexivity|]].
  exact (proj2 (no_lost_wakeup (Some 1) 2 crowded crowded_reachable crowded_quiet)
    1 1%nat 8 eq_refl ltac:(lia) eq_refl).
Defined.

End Demo.
