(* ===== verification/Buffers.v ===== *)
(** * Buffers, completion conditions and the synchronous transfers

    include/async_io/service/read_write_buffer.hpp, condition.hpp, read.hpp and
    write.hpp (the blocking [read] and [write]). The stream is an interface; the
    socket of Socket.v implements it. *)

From S2P Require Import Prelude Memory.

(** ** Buffers

    A buffer is a pointer and a size; both kinds have the same operations. *)

Record buffer_t := Buffer { data_ : Z; size_ : Z }.

Definition mutable_buffer_t : Type := buffer_t.
Definition const_buffer_t : Type := buffer_t.

Definition begin_ (b : buffer_t) : Z := data_ b.
Definition end_ (b : buffer_t) : Z := data_ b + size_ b.

(** [operator+]: the rest of the buffer from [sz] on. *)
Definition mutable_plus {S} (b : mutable_buffer_t) (sz : Z) : prog S mutable_buffer_t :=
  if size_ b <? sz then throw network_exception
  else ret (Buffer (data_ b + sz) (size_ b - sz)).

Definition const_plus {S} (b : const_buffer_t) (sz : Z) : prog S const_buffer_t :=
  if size_ b <? sz then throw network_exception
  else ret (Buffer (data_ b + sz) (size_ b - sz)).

(** The [buffer] helpers: an array of [n] elements of [size] bytes, and a pointer
    with its length, which is passed as a [std::uint32_t]. *)
Definition buffer_of_array (data n size : Z) : buffer_t := Buffer data (n * size).
Definition buffer_of_pointer (data sz : Z) : buffer_t := Buffer data (u32 sz).

(** The bytes of a buffer lie in it, and so do those of what [operator+] gives. *)
Lemma mutable_plus_inside {S} (b : mutable_buffer_t) sz (s : S) : 0 <= sz ->
  match mutable_plus b sz s with
  | Ret b' s' => s' = s /\ begin_ b <= begin_ b' /\ end_ b' = end_ b /\ size_ b' = size_ b - sz
  | Throw e s' => e = network_exception /\ s' = s /\ size_ b < sz
  | UB | OutOfFuel => False
  end.
Proof.
  intros H. unfold mutable_plus. destruct (_ <? _) eqn:E; bool_props; cbn; [done|].
  unfold begin_, end_. cbn. split_and!; [done|lia..].
Qed.

(** ** Completion conditions *)

Section Conditions.
Context (w : Z).   (* the width of size_t *)

Definition MAX_BUFFER_LEN : Z := 64 * 1024.

Definition transfer_all (transfers : Z) : Z := 2 ^ w - 1.
Definition transfer_at_least (min : Z) (transfers : Z) : Z := min.

End Conditions.

(** ** Streams *)

Class SyncStream (S : Type) := {
  stream_read : mutable_buffer_t -> prog S Z;
  stream_write : const_buffer_t -> prog S Z;
  stream_close : prog S unit
}.

(** ** [service::read] and [service::write] *)

Section Transfer.
Context {S : Type} `{SyncStream S}.
Context (condition : Z -> Z) (callback : Z -> prog S unit).

(** The loop of [read], line 37: [transfers <= condition(transfers)]. The fuel
    bounds its rounds. *)
Fixpoint read_loop (fuel : nat) (buffer : mutable_buffer_t) (bufSize transfers : Z) : prog S Z :=
  match fuel with
  | O => diverge
  | Datatypes.S f =>
      if transfers <=? condition transfers then
        if bufSize <=? transfers then ret transfers
        else
          let* b := mutable_plus buffer transfers in
          let* n := stream_read b in
          (if n =? 0 then stream_close else ret tt) ;;;
          callback (u32 (transfers + n)) ;;;
          read_loop f buffer bufSize (u32 (transfers + n))
      else ret transfers
  end.

Definition read (fuel : nat) (buffer : mutable_buffer_t) : prog S Z :=
  read_loop fuel buffer (u32 (size_ buffer)) 0.

(** The loop of [write], line 36: [transfers < condition(transfers)]. *)
Fixpoint write_loop (fuel : nat) (buffer : const_buffer_t) (bufSize transfers : Z) : prog S Z :=
  match fuel with
  | O => diverge
  | Datatypes.S f =>
      if transfers <? condition transfers then
        if bufSize <=? transfers then ret transfers
        else
          let* b := const_plus buffer transfers in
          let* n := stream_write b in
          (if n =? 0 then stream_close else ret tt) ;;;
          callback (u32 (transfers + n)) ;;;
          write_loop f buffer bufSize (u32 (transfers + n))
      else ret transfers
  end.

Definition write (fuel : nat) (buffer : const_buffer_t) : prog S Z :=
  write_loop fuel buffer (u32 (size_ buffer)) 0.

End Transfer.

(** The overloads without a condition or a callback. *)
Definition read_all {S} `{SyncStream S} (w : Z) (fuel : nat) (buffer : mutable_buffer_t) : prog S Z :=
  read (transfer_all w) (fun _ => ret tt) fuel buffer.
Definition write_all {S} `{SyncStream S} (w : Z) (fuel : nat) (buffer : const_buffer_t) : prog S Z :=
  write (transfer_all w) (fun _ => ret tt) fuel buffer.

(** ** What a stream promises

    [incoming]: the bytes still to be received; [sent]: the bytes given to the
    peer; [smem]: the program's memory. *)
Class StreamLaws (S : Type) `{SyncStream S} := {
  stream_ok : S -> Prop;
  smem : S -> heap;
  incoming : S -> list Z;
  sent : S -> list Z;
  opened : S -> bool;
  read_law b s : stream_ok s -> opened s = true -> 0 < size_ b ->
    match stream_read b s with
    | Ret n s' => stream_ok s' /\ 0 <= n <= size_ b /\ n <= Z.of_nat (length (incoming s)) /\
        smem s' = store (data_ b) (take (Z.to_nat n) (incoming s)) (smem s) /\
        incoming s' = drop (Z.to_nat n) (incoming s) /\ sent s' = sent s /\ opened s' = true
    | Throw e s' => smem s' = smem s /\ incoming s' = incoming s /\ sent s' = sent s
    | UB | OutOfFuel => False
    end;
  read_closed b s : opened s = false -> stream_read b s = Throw network_exception s;
  write_law b s : stream_ok s -> opened s = true -> 0 < size_ b ->
    match stream_write b s with
    | Ret n s' => stream_ok s' /\ 0 <= n <= size_ b /\ smem s' = smem s /\
        incoming s' = incoming s /\
        sent s' = sent s ++ load (data_ b) (Z.to_nat n) (smem s) /\ opened s' = true
    | Throw e s' => smem s' = smem s /\ incoming s' = incoming s /\ sent s' = sent s
    | UB | OutOfFuel => False
    end;
  write_closed b s : opened s = false -> stream_write b s = Throw network_exception s;
  close_law s : stream_ok s -> exists s', stream_close s = Ret tt s' /\ stream_ok s' /\
    opened s' = false /\ smem s' = smem s /\ incoming s' = incoming s /\ sent s' = sent s
}.

Section Spec.
Context {S : Type} `{StreamLaws S}.

(** The callback leaves the stream alone. *)
Definition quiet_callback (callback : Z -> prog S unit) : Prop := forall n s, stream_ok s ->
  exists s', callback n s = Ret tt s' /\ smem s' = smem s /\ incoming s' = incoming s /\
    sent s' = sent s /\ opened s' = opened s /\ stream_ok s'.

(** [s'] is [s] after [k] bytes have arrived at [p]. *)
Definition received (p : Z) (k : nat) (s s' : S) : Prop :=
  (k <= length (incoming s))%nat /\
  (forall x, smem s' x = store p (take k (incoming s)) (smem s) x) /\
  incoming s' = drop k (incoming s) /\ sent s' = sent s.

Lemma store_nil p m : forall x, store p [] m x = m x.
Proof. intros x. apply store_out. cbn. lia. Qed.

Lemma store_ext p bs m m' x : (forall y, m y = m' y) -> store p bs m x = store p bs m' x.
Proof. intros H'. unfold store. by destruct (_ && _). Qed.

Lemma store_app p (a b : list Z) m x :
  store (p + Z.of_nat (length a)) b (store p a m) x = store p (a ++ b) m x.
Proof.
  destruct (decide (p <= x < p + Z.of_nat (length a))) as [Hi|Ho].
  - rewrite (store_out _ b) by lia. rewrite (store_in p a), (store_in p (a ++ b)) by
      (rewrite ?length_app; lia). rewrite app_nth1; [done|lia].
  - destruct (decide (p + Z.of_nat (length a) <= x < p + Z.of_nat (length a) + Z.of_nat (length b))).
    + rewrite (store_in _ b), (store_in p (a ++ b)) by (rewrite ?length_app; lia).
      rewrite app_nth2 by lia. f_equal. lia.
    + rewrite (store_out _ b), (store_out p a), (store_out p (a ++ b)); rewrite ?length_app; lia || done.
Qed.

Lemma received_refl p s : received p 0 s s.
Proof. split_and!; [lia| |by rewrite drop_0|done]. intros x. by rewrite take_0, store_nil. Qed.

Lemma received_trans p k n s0 s s' : received p k s0 s -> (n <= length (incoming s))%nat ->
  smem s' = store (p + Z.of_nat k) (take n (incoming s)) (smem s) ->
  incoming s' = drop n (incoming s) -> sent s' = sent s -> received p (k + n) s0 s'.
Proof.
  intros (Hk & Hm & Hi & Hs) Hn Hm' Hi' Hs'. rewrite Hi in *. rewrite length_drop in Hn.
  split_and!; [lia| |by rewrite Hi', drop_drop|congruence].
  intros x. rewrite Hm'.
  assert (Hlen : length (take k (incoming s0)) = k) by (rewrite length_take; lia).
  rewrite <- Hlen at 1. rewrite <- take_take_drop, <- store_app, !Hlen.
  by apply store_ext.
Qed.

Lemma received_ext p k s0 s s' : received p k s0 s -> smem s' = smem s ->
  incoming s' = incoming s -> sent s' = sent s -> received p k s0 s'.
Proof.
  intros (? & Hm & Hi & ?) Hm' Hi' Hs'. split_and!; [done| |congruence|congruence].
  by rewrite Hm'.
Qed.

(** What the blocking [read] of a whole buffer of [n] bytes may end in. *)
Definition read_post (b : mutable_buffer_t) (s0 : S) (r : outcome S Z) : Prop :=
  match r with
  | Ret n s' => n = size_ b /\ received (data_ b) (Z.to_nat (size_ b)) s0 s' /\ opened s' = opened s0
  | Throw e s' => exists k, Z.of_nat k < size_ b /\ received (data_ b) k s0 s'
  | UB | OutOfFuel => False
  end.

Lemma read_loop_closed condition callback f b k s0 s : opened s = false ->
  Z.of_nat k < size_ b < 4294967296 -> Z.of_nat k <= condition (Z.of_nat k) ->
  received (data_ b) k s0 s ->
  read_post b s0 (read_loop condition callback (Datatypes.S f) b (size_ b) (Z.of_nat k) s).
Proof.
  intros Ho Hk Hc Hr. cbn [read_loop]. rewrite (proj2 (Z.leb_le _ _)) by done.
  rewrite (proj2 (Z.leb_gt _ _)) by lia. unfold mutable_plus.
  rewrite (proj2 (Z.ltb_ge _ _)) by lia. unfold bind, ret. rewrite read_closed by done.
  exists k. split; [lia|done].
Qed.

Lemma read_loop_ok condition callback f b k s0 s :
  quiet_callback callback -> (forall t, 0 <= t <= size_ b -> t <= condition t) ->
  opened s0 = true -> stream_ok s -> opened s = true -> size_ b < 4294967296 -> Z.of_nat k <= size_ b ->
  size_ b - Z.of_nat k + 1 < Z.of_nat f -> received (data_ b) k s0 s ->
  read_post b s0 (read_loop condition callback f b (size_ b) (Z.of_nat k) s).
Proof.
  intros Hcb Hc Ho0. revert k s. induction f as [|f IH]; intros k s Hok Ho Hsz Hk Hf Hr; [lia|].
  cbn [read_loop]. rewrite (proj2 (Z.leb_le _ _)) by (apply Hc; lia).
  destruct (size_ b <=? Z.of_nat k) eqn:E; bool_props.
  { cbn. split_and!; [lia| |congruence]. by replace (Z.to_nat (size_ b)) with k by lia. }
  unfold mutable_plus. rewrite (proj2 (Z.ltb_ge _ _)) by lia. unfold bind at 1, ret.
  pose proof (read_law (Buffer (data_ b + Z.of_nat k) (size_ b - Z.of_nat k)) s Hok Ho) as Hrd.
  cbn [data_ size_] in Hrd. specialize (Hrd ltac:(lia)). unfold bind at 1.
  destruct (stream_read _ s) as [n s1|e s1| |]; try done.
  - destruct Hrd as (Hok1 & Hn & Hn' & Hm & Hi & Hs & Ho1).
    assert (Hr1 : received (data_ b) (k + Z.to_nat n) s0 s1).
    { eapply received_trans; [done|lia|done|done|done]. }
    rewrite (u32_small (Z.of_nat k + n)) by lia.
    destruct (n =? 0) eqn:En; bool_props.
    + subst n. destruct (close_law s1 Hok1) as (s2 & Hcl & Hok2 & Ho2 & Hm2 & Hi2 & Hs2).
      rewrite (bind_ret _ _ _ _ _ Hcl).
      destruct (Hcb (Z.of_nat k + 0) s2 Hok2) as (s3 & Hcb3 & Hm3 & Hi3 & Hs3 & Ho3 & Hok3).
      rewrite (bind_ret _ _ _ _ _ Hcb3). rewrite Z.add_0_r. destruct f as [|f]; [lia|].
      apply read_loop_closed; [congruence|lia|apply Hc; lia|].
      rewrite Nat.add_0_r in Hr1. apply (received_ext _ _ _ s1); [done|congruence..].
    + unfold bind at 1, ret.
      destruct (Hcb (Z.of_nat k + n) s1 Hok1) as (s3 & Hcb3 & Hm3 & Hi3 & Hs3 & Ho3 & Hok3).
      rewrite (bind_ret _ _ _ _ _ Hcb3).
      replace (Z.of_nat k + n) with (Z.of_nat (k + Z.to_nat n)) by lia.
      apply IH; [done|congruence|done|lia|lia|]. by apply (received_ext _ _ _ s1).
  - destruct Hrd as (Hm & Hi & Hs). exists k. split; [lia|]. by apply (received_ext _ _ _ s).
Qed.

(** [C17] The blocking [read] with [transfer_all] is exact: when it returns, the
    buffer holds exactly the next [size] bytes of the stream, whatever the sizes of
    the partial reads, and the result is that size; in every other case (an error,
    or the peer closing early) it throws, and the bytes received so far are in the
    buffer. It never returns a short count and never runs for ever. *)
Theorem read_exact w callback fuel b s : quiet_callback callback -> stream_ok s -> opened s = true ->
  0 <= size_ b < 4294967296 -> size_ b < 2 ^ w -> size_ b + 1 < Z.of_nat fuel ->
  read_post b s (read (transfer_all w) callback fuel b s).
Proof.
  intros Hcb Hok Ho Hsz Hw Hf. unfold read. rewrite u32_small by done.
  apply (read_loop_ok _ _ fuel b 0%nat s s); try done; try lia;
    [intros t Ht; unfold transfer_all; lia|apply received_refl].
Qed.

(** ** Writing *)

(** [s'] is [s] after [k] bytes at [p] have been given to the peer. *)
Definition delivered (p : Z) (k : nat) (s s' : S) : Prop :=
  sent s' = sent s ++ load p k (smem s) /\ smem s' = smem s /\ incoming s' = incoming s.

Lemma delivered_refl p s : delivered p 0 s s.
Proof. split_and!; [by rewrite app_nil_r|done..]. Qed.

Lemma load_app p k n m : load p (k + n) m = load p k m ++ load (p + Z.of_nat k) n m.
Proof.
  apply list_eq. intros i. destruct (decide (i < k)%nat).
  - rewrite lookup_app_l by (rewrite length_load; lia). rewrite !load_lookup by lia. done.
  - destruct (decide (i < k + n)%nat).
    + rewrite lookup_app_r by (rewrite length_load; lia). rewrite length_load, !load_lookup by lia.
      do 2 f_equal. lia.
    + rewrite !lookup_ge_None_2; [done|rewrite length_app, !length_load; lia|rewrite length_load; lia].
Qed.

Lemma delivered_trans p k n s0 s s' : delivered p k s0 s ->
  sent s' = sent s ++ load (p + Z.of_nat k) n (smem s) -> smem s' = smem s ->
  incoming s' = incoming s -> delivered p (k + n) s0 s'.
Proof.
  intros (Hs & Hm & Hi) Hs' Hm' Hi'. split_and!; [|congruence..].
  by rewrite Hs', Hs, Hm, load_app, app_assoc.
Qed.

Lemma delivered_ext p k s0 s s' : delivered p k s0 s -> sent s' = sent s -> smem s' = smem s ->
  incoming s' = incoming s -> delivered p k s0 s'.
Proof. intros (? & ? & ?) ???. split_and!; congruence. Qed.

Definition write_post (b : const_buffer_t) (s0 : S) (r : outcome S Z) : Prop :=
  match r with
  | Ret n s' => n = size_ b /\ delivered (data_ b) (Z.to_nat (size_ b)) s0 s' /\ opened s' = opened s0
  | Throw e s' => exists k, Z.of_nat k < size_ b /\ delivered (data_ b) k s0 s'
  | UB | OutOfFuel => False
  end.

Lemma write_loop_closed condition callback f b k s0 s : opened s = false ->
  Z.of_nat k < size_ b < 4294967296 -> Z.of_nat k < condition (Z.of_nat k) ->
  delivered (data_ b) k s0 s ->
  write_post b s0 (write_loop condition callback (Datatypes.S f) b (size_ b) (Z.of_nat k) s).
Proof.
  intros Ho Hk Hc Hr. cbn [write_loop]. rewrite (proj2 (Z.ltb_lt _ _)) by done.
  rewrite (proj2 (Z.leb_gt _ _)) by lia. unfold const_plus.
  rewrite (proj2 (Z.ltb_ge _ _)) by lia. unfold bind, ret. rewrite write_closed by done.
  exists k. split; [lia|done].
Qed.

Lemma write_loop_ok condition callback f b k s0 s :
  quiet_callback callback -> (forall t, 0 <= t < size_ b -> t < condition t) ->
  opened s0 = true -> stream_ok s -> opened s = true -> size_ b < 4294967296 -> Z.of_nat k <= size_ b ->
  size_ b - Z.of_nat k + 1 < Z.of_nat f -> delivered (data_ b) k s0 s ->
  write_post b s0 (write_loop condition callback f b (size_ b) (Z.of_nat k) s).
Proof.
  intros Hcb Hc Ho0. revert k s. induction f as [|f IH]; intros k s Hok Ho Hsz Hk Hf Hr; [lia|].
  cbn [write_loop].
  assert (Hend : size_ b = Z.of_nat k -> write_post b s0 (Ret (Z.of_nat k) s)).
  { intros He. cbn. split_and!; [lia| |congruence]. by replace (Z.to_nat (size_ b)) with k by lia. }
  destruct (size_ b <=? Z.of_nat k) eqn:E; bool_props.
  { destruct (_ <? _); apply Hend; lia. }
  rewrite (proj2 (Z.ltb_lt (Z.of_nat k) _)) by (apply Hc; lia).
  unfold const_plus. rewrite (proj2 (Z.ltb_ge _ _)) by lia. unfold bind at 1, ret.
  pose proof (write_law (Buffer (data_ b + Z.of_nat k) (size_ b - Z.of_nat k)) s Hok Ho) as Hw.
  cbn [data_ size_] in Hw. specialize (Hw ltac:(lia)). unfold bind at 1.
  destruct (stream_write _ s) as [n s1|e s1| |]; try done.
  - destruct Hw as (Hok1 & Hn & Hm & Hi & Hs & Ho1).
    assert (Hr1 : delivered (data_ b) (k + Z.to_nat n) s0 s1) by (by eapply delivered_trans).
    rewrite (u32_small (Z.of_nat k + n)) by lia.
    destruct (n =? 0) eqn:En; bool_props.
    + subst n. destruct (close_law s1 Hok1) as (s2 & Hcl & Hok2 & Ho2 & Hm2 & Hi2 & Hs2).
      rewrite (bind_ret _ _ _ _ _ Hcl).
      destruct (Hcb (Z.of_nat k + 0) s2 Hok2) as (s3 & Hcb3 & Hm3 & Hi3 & Hs3 & Ho3 & Hok3).
      rewrite (bind_ret _ _ _ _ _ Hcb3). rewrite Z.add_0_r. destruct f as [|f]; [lia|].
      apply write_loop_closed; [congruence|lia|apply Hc; lia|].
      rewrite Nat.add_0_r in Hr1. apply (delivered_ext _ _ _ s1); [done|congruence..].
    + unfold bind at 1, ret.
      destruct (Hcb (Z.of_nat k + n) s1 Hok1) as (s3 & Hcb3 & Hm3 & Hi3 & Hs3 & Ho3 & Hok3).
      rewrite (bind_ret _ _ _ _ _ Hcb3).
      replace (Z.of_nat k + n) with (Z.of_nat (k + Z.to_nat n)) by lia.
      apply IH; [done|congruence|done|lia|lia|]. by apply (delivered_ext _ _ _ s1).
  - destruct Hw as (Hm & Hi & Hs). exists k. split; [lia|]. by apply (delivered_ext _ _ _ s).
Qed.

(** The blocking [write] with [transfer_all] is exact: it returns only when the
    peer was given exactly the bytes of the buffer, in order, and otherwise throws
    after a prefix of them. *)
Theorem write_exact w callback fuel b s : quiet_callback callback -> stream_ok s -> opened s = true ->
  0 <= size_ b < 4294967296 -> size_ b < 2 ^ w -> size_ b + 1 < Z.of_nat fuel ->
  write_post b s (write (transfer_all w) callback fuel b s).
Proof.
  intros Hcb Hok Ho Hsz Hw Hf. unfold write. rewrite u32_small by done.
  apply (write_loop_ok _ _ fuel b 0%nat s s); try done; try lia;
    [intros t Ht; unfold transfer_all; lia|apply delivered_refl].
Qed.

(** ** [transfer_at_least] *)

(** [read] and [write] disagree on [transfer_at_least(min)]: when the first
    call moves exactly [min] bytes, [write] returns [min], but [read], whose loop
    tests [<=], asks the stream again, and fails when that fails, with the bytes it
    was asked for already in the buffer. *)
Theorem at_least_disagree fuel min b s s1 e s2 :
  0 < min < size_ b -> size_ b < 4294967296 ->
  (stream_write b s = Ret min s1 ->
   write (transfer_at_least min) (fun _ => ret tt) (2 + fuel) b s = Ret min s1) /\
  (stream_read b s = Ret min s1 ->
   stream_read (Buffer (data_ b + min) (size_ b - min)) s1 = Throw e s2 ->
   read (transfer_at_least min) (fun _ => ret tt) (2 + fuel) b s = Throw e s2).
Proof.
  intros Hmin Hsz. destruct b as [p n]. cbn [data_ size_] in *.
  unfold write, read, transfer_at_least. cbn [data_ size_]. rewrite (u32_small n) by lia.
  assert (T0 : min =? 0 = false) by (apply Z.eqb_neq; lia).
  assert (T1 : 0 <? min = true) by (apply Z.ltb_lt; lia).
  assert (T2 : 0 <=? min = true) by (apply Z.leb_le; lia).
  assert (T3 : n <=? 0 = false) by (apply Z.leb_gt; lia).
  assert (T4 : n <? 0 = false) by (apply Z.ltb_ge; lia).
  assert (T5 : n <=? min = false) by (apply Z.leb_gt; lia).
  assert (T6 : n <? min = false) by (apply Z.ltb_ge; lia).
  split.
  - intros Hw. cbn [write_loop Nat.add]. rewrite T1, T3. unfold const_plus, bind, ret. cbn [data_ size_].
    rewrite T4, Z.add_0_r, Z.sub_0_r, Hw, T0. rewrite Z.add_0_l, (u32_small min) by lia.
    by rewrite Z.ltb_irrefl.
  - intros Hr Hr2. cbn [read_loop Nat.add]. rewrite T2, T3. unfold mutable_plus, bind, ret.
    cbn [data_ size_]. rewrite T4, Z.add_0_r, Z.sub_0_r, Hr, T0, Z.add_0_l.
    rewrite (u32_small min) by lia. by rewrite Z.leb_refl, T5, T6, Hr2.
Qed.

End Spec.
