(* ===== verification/Socket.v ===== *)
(** * Sockets

    include/async_io/network/socket.cpp and basic_stream_socket.hpp: the socket
    handle and its blocking operations, over the calls of Winsock, which are an
    interface with laws. The socket implements the stream of Buffers.v. *)

From S2P Require Import Prelude Memory Buffers.

(** ** Winsock

    [None] is [SOCKET_ERROR]. Handles are numbers. *)
Class Winsock (O : Type) := {
  WSASocket : Z -> Z -> Z -> O -> Z * O;
  closesocket : Z -> O -> O;
  os_shutdown : Z -> Z -> O -> option Z * O;
  os_bind : Z -> Z -> Z -> O -> option Z * O;
  os_listen : Z -> Z -> O -> option Z * O;
  os_connect : Z -> Z -> Z -> O -> option Z * O;
  set_reuse_addr : Z -> O -> option Z * O;
  (* io_.bind: CreateIoCompletionPort *)
  associate_device : Z -> O -> option Z * O;
  SetFileCompletionNotificationModes : Z -> O -> option Z * O;
  cancel_io : Z -> O -> O;
  (* the number of bytes moved *)
  WSARecv : Z -> buffer_t -> heap * O -> option Z * (heap * O);
  WSASend : Z -> list Z -> O -> option Z * O
}.

Section Socket.
Context (w : Z) {O : Type} `{Winsock O}.

Record sock := Sock {
  socket_ : Z;
  memory : heap;
  net : O
}.

Definition INVALID_SOCKET : Z := 2 ^ w - 1.

Definition is_open (s : sock) : bool := negb (socket_ s =? INVALID_SOCKET).

Definition require_open : prog sock unit := fun s =>
  if is_open s then Ret tt s else Throw network_exception s.

(** A call that fails with a win32_exception_t. *)
Definition checked (call : Z -> O -> option Z * O) : prog sock unit := fun s =>
  match call (socket_ s) (net s) with
  | (Some _, o) => Ret tt (Sock (socket_ s) (memory s) o)
  | (None, o) => Throw win32_exception (Sock (socket_ s) (memory s) o)
  end.

(** A call whose result is not looked at. *)
Definition unchecked (call : Z -> O -> O) : prog sock unit := fun s =>
  Ret tt (Sock (socket_ s) (memory s) (call (socket_ s) (net s))).

Definition open (family nType nProtocol : Z) : prog sock unit := fun s =>
  if is_open s then Throw network_exception s
  else
    let '(h, o) := WSASocket family nType nProtocol (net s) in
    let s' := Sock h (memory s) o in
    if h =? INVALID_SOCKET then Throw win32_exception s'
    else (checked associate_device ;;; checked SetFileCompletionNotificationModes) s'.

Definition shutdown (shut : Z) : prog sock unit := fun s =>
  if is_open s then unchecked (fun h o => (os_shutdown h shut o).2) s else Ret tt s.

Definition close : prog sock unit := fun s =>
  if is_open s
  then (unchecked closesocket ;;; fun s' => Ret tt (Sock INVALID_SOCKET (memory s') (net s'))) s
  else Ret tt s.

Definition cancel : prog sock unit :=
  require_open ;;; unchecked cancel_io.

Definition bind_ (addr port : Z) : prog sock unit :=
  require_open ;;; checked (fun h => os_bind h addr port).

Definition listen (nMax : Z) : prog sock unit :=
  require_open ;;; checked (fun h => os_listen h nMax).

Definition connect (addr port : Z) : prog sock unit :=
  require_open ;;; checked (fun h => os_connect h addr port).

Definition dis_connect (shut : Z) (bReuseSocket : bool) : prog sock unit :=
  require_open ;;;
  unchecked (fun h o => (os_shutdown h shut o).2) ;;;
  if bReuseSocket then unchecked (fun h o => (set_reuse_addr h o).2) else close.

(** [socket_handle_t::read]. *)
Definition read (buffer : mutable_buffer_t) : prog sock Z :=
  require_open ;;;
  if size_ buffer =? 0 then throw network_exception
  else fun s =>
    match WSARecv (socket_ s) buffer (memory s, net s) with
    | (Some dwSize, (m, o)) => Ret dwSize (Sock (socket_ s) m o)
    | (None, (m, o)) => Throw win32_exception (Sock (socket_ s) m o)
    end.

Definition write (buffer : const_buffer_t) : prog sock Z :=
  require_open ;;;
  if size_ buffer =? 0 then throw network_exception
  else fun s =>
    match WSASend (socket_ s) (load (data_ buffer) (Z.to_nat (size_ buffer)) (memory s)) (net s) with
    | (Some dwSize, o) => Ret dwSize (Sock (socket_ s) (memory s) o)
    | (None, o) => Throw win32_exception (Sock (socket_ s) (memory s) o)
    end.

(** [basic_stream_socket_t::close]: SD_BOTH is 2. *)
Definition stream_socket_close : prog sock unit := shutdown 2 ;;; close.

#[export] Instance socket_stream : SyncStream sock :=
  {| stream_read := read; stream_write := write; stream_close := stream_socket_close |}.

(** ** What Winsock promises

    [inbox h] and [outbox h]: the bytes that will arrive on a connection and the
    bytes it was given. *)
Class WinsockLaws := {
  inbox : Z -> O -> list Z;
  outbox : Z -> O -> list Z;
  recv_law h b m o : h <> INVALID_SOCKET -> 0 < size_ b ->
    match WSARecv h b (m, o) with
    | (Some n, (m', o')) => 0 <= n <= size_ b /\ n <= Z.of_nat (length (inbox h o)) /\
        m' = store (data_ b) (take (Z.to_nat n) (inbox h o)) m /\
        inbox h o' = drop (Z.to_nat n) (inbox h o) /\ outbox h o' = outbox h o
    | (None, (m', o')) => m' = m /\ inbox h o' = inbox h o /\ outbox h o' = outbox h o
    end;
  send_law h l o : h <> INVALID_SOCKET ->
    match WSASend h l o with
    | (Some n, o') => 0 <= n <= Z.of_nat (length l) /\ inbox h o' = inbox h o /\
        outbox h o' = outbox h o ++ take (Z.to_nat n) l
    | (None, o') => inbox h o' = inbox h o /\ outbox h o' = outbox h o
    end;
  (* closing and shutting down move no byte *)
  shutdown_law h shut o : inbox h (os_shutdown h shut o).2 = inbox h o /\
    outbox h (os_shutdown h shut o).2 = outbox h o;
  close_socket_law h o : inbox h (closesocket h o) = inbox h o /\ outbox h (closesocket h o) = outbox h o
}.
Context `{WinsockLaws}.

(** The bytes of the connection the object stands for: [h] is its handle. *)
Section Connection.
Context (h : Z) (Hh : h <> INVALID_SOCKET).

Lemma take_load p n m k : (k <= n)%nat -> take k (load p n m) = load p k m.
Proof.
  intros Hk. apply list_eq. intros i. destruct (decide (i < k)%nat).
  - rewrite lookup_take_lt by done. by rewrite !load_lookup by lia.
  - rewrite !lookup_ge_None_2; [done|rewrite length_load; lia|rewrite length_take, length_load; lia].
Qed.

(** [socket_handle_t] with [basic_stream_socket_t::close] is a stream: this is what
    the transfers of Buffers.v rely on. *)
#[export] Instance socket_stream_laws : StreamLaws sock.
Proof using H0 Hh.
  refine {| stream_ok s := socket_ s = h \/ socket_ s = INVALID_SOCKET;
            smem := memory; incoming s := inbox h (net s); sent s := outbox h (net s);
            opened := is_open |}.
  - intros b s Hok Ho Hb. cbn. unfold read, bind, require_open. rewrite Ho.
    rewrite (proj2 (Z.eqb_neq _ _)) by lia.
    assert (socket_ s = h) as -> by
      (destruct Hok as [|E]; [done|]; unfold is_open in Ho; by rewrite E, Z.eqb_refl in Ho).
    pose proof (recv_law h b (memory s) (net s) Hh Hb) as Hr.
    destruct (WSARecv h b (memory s, net s)) as [[n|] [m' o']]; cbn; [|done].
    destruct Hr as (? & ? & -> & -> & ->). split_and!; try done; [by left|lia|lia|].
    unfold is_open. cbn. by apply Z.eqb_neq in Hh as ->.
  - intros b s Ho. cbn. unfold read, bind, require_open. by rewrite Ho.
  - intros b s Hok Ho Hb. cbn. unfold write, bind, require_open. rewrite Ho.
    rewrite (proj2 (Z.eqb_neq _ _)) by lia.
    assert (socket_ s = h) as -> by
      (destruct Hok as [|E]; [done|]; unfold is_open in Ho; by rewrite E, Z.eqb_refl in Ho).
    pose proof (send_law h (load (data_ b) (Z.to_nat (size_ b)) (memory s)) (net s) Hh) as Hr.
    destruct (WSASend h _ (net s)) as [[n|] o']; cbn; [|done].
    rewrite length_load in Hr. destruct Hr as (? & -> & ->).
    split_and!; try done; [by left|lia|lia| |].
    + by rewrite take_load by lia.
    + unfold is_open. cbn. by apply Z.eqb_neq in Hh as ->.
  - intros b s Ho. cbn. unfold write, bind, require_open. by rewrite Ho.
  - intros s Hok. cbn. unfold stream_socket_close, shutdown, close, bind.
    destruct (is_open s) eqn:Ho.
    + assert (socket_ s = h) as Hs by
        (destruct Hok as [|E]; [done|]; unfold is_open in Ho; by rewrite E, Z.eqb_refl in Ho).
      unfold unchecked. unfold is_open at 1. cbn [socket_ net memory]. unfold is_open in Ho. rewrite Ho.
      eexists. split; [done|]. cbn. rewrite Hs. destruct (shutdown_law h 2 (net s)) as [Hi Hu].
      destruct (close_socket_law h (os_shutdown h 2 (net s)).2) as [Hi' Hu'].
      rewrite Hi', Hu', Hi, Hu. split_and!; try done; [by right|].
      unfold is_open. cbn. by rewrite Z.eqb_refl.
    + rewrite Ho. by exists s.
Defined.

End Connection.

(** ** Life of a handle *)

(** The copy constructor copies the handle; the destructor closes what is open. *)
Definition copy (rhs : Z) : Z := rhs.
Definition destroy : prog sock unit := close.

(** The constructor that opens: when [open] throws, the object does not exist and
    its destructor does not run. *)
Definition construct_open (family nType nProtocol : Z) : prog sock unit := fun s =>
  open family nType nProtocol (Sock INVALID_SOCKET (memory s) (net s)).

(** [basic_stream_socket_t(socket_handle_t &&sck)]: the class has no move
    constructor, so [impl_(std::move(sck))] copies the handle, and the destructor of
    the argument closes it. *)
Definition construct_from (sck : Z) : prog sock unit := fun s =>
  match destroy (Sock sck (memory s) (net s)) with
  | Ret _ s' => Ret tt (Sock (copy sck) (memory s') (net s'))
  | r => r
  end.

(** A socket taken over from a handle object refers to a handle that the
    destructor of that object closes: the new socket looks open, its handle is
    closed, and its own destructor closes the same handle again. *)
Theorem take_over_closes sck s : sck <> INVALID_SOCKET ->
  exists s1, construct_from sck s = Ret tt s1 /\ is_open s1 = true /\
    net s1 = closesocket sck (net s) /\
    exists s2, destroy s1 = Ret tt s2 /\ net s2 = closesocket sck (closesocket sck (net s)).
Proof.
  intros Hs. assert (Ho : forall m o, is_open (Sock sck m o) = true).
  { intros m o. unfold is_open. cbn. by apply Z.eqb_neq in Hs as ->. }
  unfold construct_from, destroy, close, copy. rewrite Ho. cbn.
  eexists. split_and!; [done|apply Ho|done|]. rewrite Ho. cbn. by eexists.
Qed.

(** [open] either leaves an open socket or throws; when it throws after the
    handle was made, the handle stays in the object, open, so that the constructor,
    whose object is never destroyed, leaks it. *)
Theorem construct_open_leaks family nType nProtocol s h o :
  WSASocket family nType nProtocol (net s) = (h, o) -> h <> INVALID_SOCKET ->
  (associate_device h o).1 = None ->
  exists s', construct_open family nType nProtocol s = Throw win32_exception s' /\
    socket_ s' = h /\ is_open s' = true.
Proof.
  intros Hw Hh Ha. unfold construct_open, open. cbn [socket_ memory net].
  assert (is_open (Sock INVALID_SOCKET (memory s) (net s)) = false) as ->.
  { unfold is_open. cbn. by rewrite Z.eqb_refl. }
  rewrite Hw. apply Z.eqb_neq in Hh as Hh'. rewrite Hh'.
  unfold bind, checked. cbn [socket_ net memory].
  destruct (associate_device h o) as [[n|] o']; [done|].
  eexists. split_and!; [done|done|]. unfold is_open. cbn. by rewrite Hh'.
Qed.

End Socket.

(** ** A scripted network

    One connection, handle 1: the sizes of the partial transfers are given, a
    negative one is an error. *)
Module Script.

Record t := Mk { arriving : list Z; given : list Z; sizes : list Z; closed : nat }.

Definition next (len avail : Z) (o : t) : option Z * t :=
  match sizes o with
  | [] => (Some (Z.min len avail), o)
  | k :: ks =>
      let o' := Mk (arriving o) (given o) ks (closed o) in
      if k <? 0 then (None, o') else (Some (Z.min k (Z.min len avail)), o')
  end.

Definition recv (h : Z) (b : buffer_t) (s : heap * t) : option Z * (heap * t) :=
  let '(m, o) := s in
  match next (size_ b) (Z.of_nat (length (arriving o))) o with
  | (Some n, o') =>
      let k := Z.to_nat n in
      (Some n, (store (data_ b) (take k (arriving o)) m,
                Mk (drop k (arriving o)) (given o) (sizes o') (closed o)))
  | (None, o') => (None, (m, o'))
  end.

Definition send (h : Z) (l : list Z) (o : t) : option Z * t :=
  match next (Z.of_nat (length l)) (Z.of_nat (length l)) o with
  | (Some n, o') => (Some n, Mk (arriving o) (given o ++ take (Z.to_nat n) l) (sizes o') (closed o))
  | (None, o') => (None, o')
  end.

Definition fine (o : t) : option Z * t := (Some 0, o).

#[export] Instance winsock : Winsock t := {|
  WSASocket _ _ _ o := (1, o);
  closesocket _ o := Mk (arriving o) (given o) (sizes o) (S (closed o));
  os_shutdown _ _ := fine; os_bind _ _ _ := fine; os_listen _ _ := fine;
  os_connect _ _ _ := fine; set_reuse_addr _ := fine;
  associate_device _ o :=
    match sizes o with [] => (Some 0, o) | k :: _ => (if k <? 0 then None else Some 0, o) end;
  SetFileCompletionNotificationModes _ := fine;
  cancel_io _ o := o;
  WSARecv := recv; WSASend := send
|}.

Lemma next_ok len avail o : 0 <= len -> 0 <= avail ->
  match next len avail o with
  | (Some n, o') => 0 <= n <= len /\ n <= avail
  | (None, o') => True
  end /\ arriving (next len avail o).2 = arriving o /\ given (next len avail o).2 = given o.
Proof.
  intros. unfold next. destruct (sizes o) as [|k ks]; cbn; [split; [lia|done]|].
  destruct (k <? 0) eqn:E; bool_props; cbn; [done|split; [lia|done]].
Qed.

#[export] Instance winsock_laws w : WinsockLaws w (O := t).
Proof.
  refine {| inbox h o := arriving o; outbox h o := given o |}.
  - intros h b m o _ Hb. unfold WSARecv. cbn.
    destruct (next_ok (size_ b) (Z.of_nat (length (arriving o))) o) as (Hn & Ha & Hg); [lia..|].
    destruct (next _ _ o) as [[n|] o']; cbn in *; [|done]. split_and!; try done; lia.
  - intros h l o _. unfold WSASend. cbn. unfold send.
    destruct (next_ok (Z.of_nat (length l)) (Z.of_nat (length l)) o) as (Hn & Ha & Hg); [lia..|].
    destruct (next _ _ o) as [[n|] o']; cbn in *; [|done]. split_and!; try done; lia.
  - done.
  - done.
Defined.

End Script.
#[export] Existing Instance Script.winsock.
#[export] Existing Instance Script.winsock_laws.

Module Demo.

Notation socket := (sock (O := Script.t)).

(** Five bytes arrive, in pieces of at most 2 bytes. *)
Definition s0 : socket := Sock 1 (fun x => x) (Script.Mk [10; 20; 30; 40; 50] [] [2; 1; 2] 0).

Lemma handle_ok : 1 <> INVALID_SOCKET 32.
Proof. unfold INVALID_SOCKET. lia. Qed.

#[local] Instance stream32 : SyncStream socket := socket_stream 32.
#[local] Instance laws : StreamLaws socket := socket_stream_laws 32 1 handle_ok.

Lemma quiet : quiet_callback (fun _ => ret tt : prog socket unit).
Proof. intros n s Hs. by exists s. Qed.

Lemma read_exact_witness :
  stream_ok s0 /\ opened s0 = true /\
  read_post (Buffer 100 5) s0 (Buffers.read (transfer_all 32) (fun _ => ret tt) 10 (Buffer 100 5) s0).
Proof.
  split; [by left|split; [done|]].
  refine (read_exact 32 (fun _ => ret tt) 10 (Buffer 100 5) s0 quiet _ _ _ _ _);
    [by left|done|cbn; lia|cbn; lia|cbn; lia].
Defined.

Lemma write_exact_witness :
  stream_ok s0 /\ opened s0 = true /\
  write_post (Buffer 100 5) s0 (Buffers.write (transfer_all 32) (fun _ => ret tt) 10 (Buffer 100 5) s0).
Proof.
  split; [by left|split; [done|]].
  refine (write_exact 32 (fun _ => ret tt) 10 (Buffer 100 5) s0 quiet _ _ _ _ _);
    [by left|done|cbn; lia|cbn; lia|cbn; lia].
Defined.

(** Two bytes arrive and then the connection breaks. *)
Definition s2 : socket := Sock 1 (fun x => x) (Script.Mk [10; 20] [] [2; -1] 0).
Definition s2' : socket :=
  match stream_read (Buffer 100 5) s2 with Ret _ s => s | _ => s2 end.
Definition s2'' : socket :=
  match stream_read (Buffer 102 3) s2' with Throw _ s => s | _ => s2 end.

Lemma at_least_disagree_witness :
  stream_read (Buffer 100 5) s2 = Ret 2 s2' /\
  Buffers.read (transfer_at_least 2) (fun _ => ret tt) 2 (Buffer 100 5) s2 = Throw win32_exception s2''.
Proof.
  split; [reflexivity|].
  refine (proj2 (at_least_disagree 0 2 (Buffer 100 5) s2 s2' win32_exception s2'' _ _) _ _);
    try reflexivity; cbn; lia.
Defined.

Lemma take_over_closes_witness : 1 <> INVALID_SOCKET 32 /\
  exists s1, construct_from 32 1 s0 = Ret tt s1 /\ is_open 32 s1 = true /\
    net s1 = closesocket 1 (net s0) /\
    exists s2, destroy 32 s1 = Ret tt s2 /\ net s2 = closesocket 1 (closesocket 1 (net s0)).
Proof. split; [apply handle_ok|]. exact (take_over_closes 32 1 s0 handle_ok). Defined.

Definition broken : socket := Sock 0 (fun x => x) (Script.Mk [] [] [-1] 0).

Lemma construct_open_leaks_witness :
  exists s', construct_open 32 2 1 6 broken = Throw win32_exception s' /\
    socket_ s' = 1 /\ is_open 32 s' = true.
Proof. exact (construct_open_leaks 32 2 1 6 broken 1 (net broken) eq_refl handle_ok eq_refl). Defined.

End Demo.
