(* ===== verification/Datagram.v ===== *)
(** * Datagrams and acceptors

    include/async_io/network/socket.cpp: [send_to] and [recv_from], over two calls of
    Winsock that are an interface with laws; include/async_io/network/basic_acceptor.hpp:
    the constructor that opens, binds and listens. *)

From S2P Require Import Prelude Memory Buffers Socket.

(** ** The calls

    [None] is a failure. The address of a call is null or the place of a [SOCKADDR_IN]. *)
Class DatagramCalls (O : Type) := {
  WSASendTo : Z -> list Z -> option (list Z) -> O -> option Z * O;
  WSARecvFrom : Z -> buffer_t -> option Z -> heap * O -> option Z * (heap * O)
}.

Definition sockaddr_size : nat := 16.
Definition pointer (p : Z) : option Z := if p =? 0 then None else Some p.
Definition put (p : option Z) (bs : list Z) (m : heap) : heap := match p with Some a => store a bs m | None => m end.

(** The buffer and the address do not overlap. *)
Definition apart (b : buffer_t) (addr : Z) : Prop :=
  addr + Z.of_nat sockaddr_size <= data_ b \/ data_ b + size_ b <= addr.

Section Datagram.
Context (w : Z) {O : Type} `{DatagramCalls O}.

Definition send_to (buf : const_buffer_t) (addr : Z) : prog (sock (O := O)) Z :=
  require_open w ;;;
  if size_ buf =? 0 then throw network_exception
  else fun s =>
    match WSASendTo (socket_ s) (load (data_ buf) (Z.to_nat (size_ buf)) (memory s))
            ((fun a => load a sockaddr_size (memory s)) <$> pointer addr) (net s) with
    | (Some dwSize, o) => Ret dwSize (Sock (socket_ s) (memory s) o)
    | (None, o) => Throw win32_exception (Sock (socket_ s) (memory s) o)
    end.

Definition recv_from (buf : mutable_buffer_t) (addr : Z) : prog (sock (O := O)) Z :=
  require_open w ;;;
  if size_ buf =? 0 then throw win32_exception
  else fun s =>
    match WSARecvFrom (socket_ s) buf (pointer addr) (memory s, net s) with
    | (Some dwSize, (m, o)) => Ret dwSize (Sock (socket_ s) m o)
    | (None, (m, o)) => Throw win32_exception (Sock (socket_ s) m o)
    end.

(** ** What Winsock promises

    [queue h]: the datagrams that will arrive, with their senders; [outgoing h]: what was
    sent, with its address. A datagram is sent whole or not at all; one that is longer
    than the buffer is lost, and the call fails (WSAEMSGSIZE). *)
Class DatagramLaws := {
  queue : Z -> O -> list (list Z * list Z);
  outgoing : Z -> O -> list (list Z * option (list Z));
  send_to_law h l a o :
    match WSASendTo h l a o with
    | (Some n, o') => n = Z.of_nat (length l) /\ queue h o' = queue h o /\ outgoing h o' = outgoing h o ++ [(l, a)]
    | (None, o') => queue h o' = queue h o /\ outgoing h o' = outgoing h o
    end;
  recv_from_law h b addr m o : 0 < size_ b ->
    match WSARecvFrom h b (pointer addr) (m, o) with
    | (Some n, (m', o')) => exists bytes from, queue h o = (bytes, from) :: queue h o' /\ length from = sockaddr_size /\
        n = Z.of_nat (length bytes) /\ n <= size_ b /\ outgoing h o' = outgoing h o /\
        (apart b addr -> m' = store (data_ b) bytes (put (pointer addr) from m))
    | (None, (m', o')) => outgoing h o' = outgoing h o /\
        (m' = m /\ queue h o' = queue h o \/
         exists bytes from, queue h o = (bytes, from) :: queue h o' /\ size_ b < Z.of_nat (length bytes))
    end
}.
Context `{DatagramLaws}.

Definition arriving (s : sock) : list (list Z * list Z) := queue (socket_ s) (net s).
Definition departed (s : sock) : list (list Z * option (list Z)) := outgoing (socket_ s) (net s).

(** What [recv_from] has written. *)
Definition received (buf : buffer_t) (addr n : Z) (s : sock (O := O)) : list Z * option (list Z) :=
  (load (data_ buf) (Z.to_nat n) (memory s), (fun a => load a sockaddr_size (memory s)) <$> pointer addr).

Lemma received_put b addr bytes from (s : sock (O := O)) m : apart b addr -> length from = sockaddr_size ->
  Z.of_nat (length bytes) <= size_ b -> memory s = store (data_ b) bytes (put (pointer addr) from m) ->
  received b addr (Z.of_nat (length bytes)) s = (bytes, (fun _ => from) <$> pointer addr).
Proof.
  intros Ha Hf Hl Hm. unfold received. rewrite Hm, Nat2Z.id, load_store_eq. f_equal. unfold apart in Ha.
  assert (He : load addr sockaddr_size (store (data_ b) bytes (store addr from m)) = from).
  { rewrite load_store_ne by lia. rewrite <- Hf at 1. apply load_store_eq. }
  unfold pointer, put. destruct (addr =? 0); [done|]. exact (f_equal Some He).
Qed.

(** The one case where [recv_from] returns. *)
Lemma recv_from_ok buf addr s : is_open w s = true -> 0 < size_ buf -> apart buf addr ->
  match recv_from buf addr s with
  | Ret n s' => is_open w s' = true /\ exists bytes from, arriving s = (bytes, from) :: arriving s' /\ n = Z.of_nat (length bytes) /\
      received buf addr n s' = (bytes, (fun _ => from) <$> pointer addr) /\ departed s' = departed s
  | Throw e s' => e = win32_exception /\ departed s' = departed s /\
      (memory s' = memory s /\ arriving s' = arriving s \/
       exists bytes from, arriving s = (bytes, from) :: arriving s' /\ size_ buf < Z.of_nat (length bytes))
  | _ => False
  end.
Proof.
  intros Ho Hs Ha. unfold recv_from, bind, require_open. rewrite Ho, (proj2 (Z.eqb_neq _ _)) by lia.
  pose proof (recv_from_law (socket_ s) buf addr (memory s) (net s) Hs) as Hr. unfold arriving, departed.
  destruct (WSARecvFrom _ _ _ _) as [[n|] [m o]]; cbn; [|tauto].
  destruct Hr as (bytes & from & Hq & Hf & -> & Hn & Hd & Hm). split; [done|]. exists bytes, from. split_and!; [done|done| |done].
  apply (received_put _ _ _ _ _ (memory s)); [done|done|done|]. by apply Hm.
Qed.

(** An open socket receives the next datagram whole, with its sender, or fails; then
    nothing has happened or the datagram was longer than the buffer, and is lost. *)
Theorem recv_from_whole buf addr s : is_open w s = true -> 0 < size_ buf -> apart buf addr ->
  match recv_from buf addr s with
  | Ret n s' => exists bytes from, arriving s = (bytes, from) :: arriving s' /\ n = Z.of_nat (length bytes) /\
      received buf addr n s' = (bytes, (fun _ => from) <$> pointer addr) /\ departed s' = departed s
  | Throw e s' => e = win32_exception /\ departed s' = departed s /\
      (memory s' = memory s /\ arriving s' = arriving s \/
       exists bytes from, arriving s = (bytes, from) :: arriving s' /\ size_ buf < Z.of_nat (length bytes))
  | _ => False
  end.
Proof.
  intros Ho Hs Ha. pose proof (recv_from_ok buf addr s Ho Hs Ha) as Hr.
  destruct (recv_from buf addr s); [by destruct Hr as [_ Hr]|done..].
Qed.

(** An open socket sends its buffer as one datagram, or fails and sends nothing. *)
Theorem send_to_whole buf addr s : is_open w s = true -> 0 < size_ buf ->
  match send_to buf addr s with
  | Ret n s' => n = size_ buf /\ departed s' = departed s ++ [received buf addr n s] /\
      arriving s' = arriving s /\ memory s' = memory s
  | Throw e s' => e = win32_exception /\ departed s' = departed s /\ arriving s' = arriving s /\ memory s' = memory s
  | _ => False
  end.
Proof.
  intros Ho Hs. unfold send_to, bind, require_open. rewrite Ho, (proj2 (Z.eqb_neq _ _)) by lia.
  pose proof (send_to_law (socket_ s) (load (data_ buf) (Z.to_nat (size_ buf)) (memory s))
    ((fun a => load a sockaddr_size (memory s)) <$> pointer addr) (net s)) as Hr. unfold arriving, departed.
  destruct (WSASendTo _ _ _ _) as [[n|] o]; cbn; [|tauto]. rewrite length_load in Hr.
  assert (n = size_ buf) as -> by lia. destruct Hr as (_ & -> & ->). done.
Qed.

(** [n] calls with one buffer. *)
Fixpoint recv_many (n : nat) (buf : buffer_t) (addr : Z) : prog (sock (O := O)) (list (list Z * option (list Z))) :=
  match n with
  | 0%nat => ret []
  | S n =>
      let* k := recv_from buf addr in
      let* x := (fun s => Ret (received buf addr k s) s) in
      let* l := recv_many n buf addr in ret (x :: l)
  end.

(** Calls that return have received consecutive datagrams, in order: none is skipped,
    cut or joined with another. *)
Theorem datagrams_in_order n buf addr s : is_open w s = true -> 0 < size_ buf -> apart buf addr -> forall l s',
  recv_many n buf addr s = Ret l s' -> length l = n /\
  ((fun x => (x.1, (fun _ => x.2) <$> pointer addr)) <$> arriving s) =
  l ++ ((fun x => (x.1, (fun _ => x.2) <$> pointer addr)) <$> arriving s').
Proof.
  intros Ho Hs Ha. revert s Ho. induction n as [|n IH]; intros s Ho l s' Hr; cbn [recv_many] in Hr.
  - by injection Hr as <- <-.
  - apply bind_Ret_inv in Hr as (k & s1 & H1 & Hr). apply bind_Ret_inv in Hr as (x & s2 & H2 & Hr).
    injection H2 as <- <-. apply bind_Ret_inv in Hr as (t & s3 & H3 & Hr). injection Hr as <- <-.
    pose proof (recv_from_ok buf addr s Ho Hs Ha) as Hk. rewrite H1 in Hk.
    destruct Hk as (Ho1 & bytes & from & -> & _ & -> & _). destruct (IH s1 Ho1 t s3 H3) as [<- Hq].
    split; [done|]. cbn. by rewrite Hq.
Qed.

(** Nothing to send and nowhere to receive are refused with different exceptions. *)
Theorem empty_buffers buf addr s : size_ buf = 0 ->
  send_to buf addr s = Throw network_exception s /\
  recv_from buf addr s = Throw (if is_open w s then win32_exception else network_exception) s.
Proof. intros E. unfold send_to, recv_from, bind, require_open, throw. rewrite E. by destruct (is_open w s). Qed.

End Datagram.

(** ** basic_acceptor_t *)

Section Acceptor.
Context (w : Z) {O : Type} `{Winsock O}.

Definition SOMAXCONN : Z := 2147483647.

(** The members that follow when the handle object is complete: what they throw destroys
    it. *)
Definition destroyed_on_throw {A} (m : prog sock A) : prog sock A := fun s =>
  match m s with
  | Throw e s1 => match destroy w s1 with Ret _ s2 => Throw e s2 | _ => UB end
  | r => r
  end.

(** The answer of [set_option] is dropped. *)
Definition basic_acceptor (family nType nProtocol port addr : Z) (reuseAddr : bool) : prog sock unit :=
  construct_open w family nType nProtocol ;;;
  destroyed_on_throw (
    (fun s => if reuseAddr && is_open w s then unchecked (fun h o => (set_reuse_addr h o).2) s else Ret tt s) ;;;
    bind_ w addr port ;;; listen w SOMAXCONN).

Lemma construct_open_ok family nType nProtocol s s' :
  construct_open w family nType nProtocol s = Ret tt s' -> is_open w s' = true /\ memory s' = memory s.
Proof.
  unfold construct_open, open. cbn [socket_ memory net].
  replace (is_open w (Sock (INVALID_SOCKET w) (memory s) (net s))) with false
    by (unfold is_open; cbn; by rewrite Z.eqb_refl).
  destruct (WSASocket _ _ _ _) as [h o]. destruct (h =? INVALID_SOCKET w) eqn:E; [done|].
  unfold bind, checked. cbn [socket_ memory net]. intros Hr. repeat case_match; simplify_eq; unfold is_open; cbn. by rewrite E.
Qed.

(** Once its handle is open the constructor either listens on it, or throws and has
    closed it; what opening it throws, it throws. *)
Theorem acceptor_listens_or_closes family nType nProtocol port addr reuseAddr s :
  match construct_open w family nType nProtocol s with
  | Ret _ s1 => let h := socket_ s1 in
      (exists r o o', basic_acceptor family nType nProtocol port addr reuseAddr s = Ret tt (Sock h (memory s) o') /\
         h <> INVALID_SOCKET w /\ os_listen h SOMAXCONN o = (Some r, o')) \/
      (exists o, basic_acceptor family nType nProtocol port addr reuseAddr s =
         Throw win32_exception (Sock (INVALID_SOCKET w) (memory s) (closesocket h o)))
  | r => basic_acceptor family nType nProtocol port addr reuseAddr s = r
  end.
Proof.
  destruct (construct_open w family nType nProtocol s) as [[] s1|e s1| |] eqn:E; [|unfold basic_acceptor, bind; by rewrite E..].
  destruct (construct_open_ok _ _ _ _ _ E) as [Ho <-]. unfold basic_acceptor. rewrite (bind_ret _ _ _ _ _ E). clear E.
  destruct s1 as [h m o]. assert (Ho' : forall m (o : O), is_open w (Sock h m o) = true) by done.
  assert (Hh : h <> INVALID_SOCKET w) by (unfold is_open in Ho; cbn in Ho; by apply negb_true_iff, Z.eqb_neq in Ho).
  assert (Hb : forall o, bind_ w addr port (Sock h m o) =
    match os_bind h addr port o with (Some _, o') => Ret tt (Sock h m o') | (None, o') => Throw win32_exception (Sock h m o') end)
    by (intros; unfold bind_, bind, require_open; by rewrite Ho').
  assert (Hl : forall o, listen w SOMAXCONN (Sock h m o) =
    match os_listen h SOMAXCONN o with (Some _, o') => Ret tt (Sock h m o') | (None, o') => Throw win32_exception (Sock h m o') end)
    by (intros; unfold listen, bind, require_open; by rewrite Ho').
  assert (Hd : forall o, destroy w (Sock h m o) = Ret tt (Sock (INVALID_SOCKET w) m (closesocket h o)))
    by (intros; unfold destroy, close; by rewrite Ho').
  cbn [socket_ memory]. unfold destroyed_on_throw, bind. rewrite Ho', andb_true_r.
  set (o1 := if reuseAddr then (set_reuse_addr h o).2 else o).
  replace (if reuseAddr then _ else _) with (Ret tt (Sock h m o1)) by (unfold o1; by destruct reuseAddr).
  rewrite Hb. destruct (os_bind h addr port o1) as [[r|] o2]; [rewrite Hl|rewrite Hd; right; by eexists].
  destruct (os_listen h SOMAXCONN o2) as [[r'|] o3] eqn:E; [left; by eexists _, _, _|rewrite Hd; right; by eexists].
Qed.

End Acceptor.

(** ** A mailbox

    The datagrams that arrive are given, with the numbers of their senders; those that
    are too long are lost. *)
Module Mailbox.

Record t := Mk { waiting : list (list Z * Z); out : list (list Z * option (list Z)) }.

Definition address : Z -> list Z := le_bytes sockaddr_size.

Definition recv (h : Z) (b : buffer_t) (addr : option Z) (s : heap * t) : option Z * (heap * t) :=
  match waiting s.2 with
  | (bytes, from) :: rest =>
      if Z.of_nat (length bytes) <=? size_ b
      then (Some (Z.of_nat (length bytes)), (store (data_ b) bytes (put addr (address from) s.1), Mk rest (out s.2)))
      else (None, (s.1, Mk rest (out s.2)))
  | [] => (None, s)
  end.

#[export] Instance calls : DatagramCalls t := {|
  WSASendTo h l a o := (Some (Z.of_nat (length l)), Mk (waiting o) (out o ++ [(l, a)]));
  WSARecvFrom := recv
|}.

#[export] Instance calls_laws : DatagramLaws (O := t).
Proof.
  refine {| queue h o := (fun x => (x.1, address x.2)) <$> waiting o; outgoing h o := out o |}; [done|].
  intros h b addr m o _. cbn. unfold recv. cbn. destruct (waiting o) as [|[bytes from] rest] eqn:E; cbn; [by rewrite E; auto|].
  destruct (Z.leb_spec (Z.of_nat (length bytes)) (size_ b)); cbn.
  - exists bytes, (address from). by split_and!.
  - split; [done|]. right. by exists bytes, (address from).
Defined.

End Mailbox.
#[local] Existing Instance Mailbox.calls.
#[local] Existing Instance Mailbox.calls_laws.

Module Demo.

Notation socket := (sock (O := Mailbox.t)).

(** Three datagrams for a buffer of 4 bytes at 100; the sender's address goes to 200. *)
Definition s0 : socket := Sock 1 (fun x => x mod 256) (Mailbox.Mk [([1; 2; 3], 7); ([4], 8); ([5; 6; 7; 8; 9], 7)] []).
Definition buf : buffer_t := Buffer 100 4.

Lemma buf_apart : apart buf 200.
Proof. right. cbn. lia. Qed.

(** The first two are received, the third is too long. *)
Lemma recv_from_whole_witness :
  match recv_from 32 buf 200 s0 with
  | Ret n s' => exists bytes from, arriving s0 = (bytes, from) :: arriving s' /\ n = Z.of_nat (length bytes) /\
      received buf 200 n s' = (bytes, (fun _ => from) <$> pointer 200) /\ departed s' = departed s0
  | _ => False
  end.
Proof.
  pose proof (recv_from_whole 32 buf 200 s0 ltac:(done) ltac:(done) buf_apart) as H.
  destruct (recv_from 32 buf 200 s0) as [n s'|e s'| |] eqn:E; [exact H|discriminate E|discriminate E|discriminate E].
Defined.

Lemma send_to_whole_witness :
  match send_to 32 buf 0 s0 with
  | Ret n s' => n = 4 /\ departed s' = departed s0 ++ [([100; 101; 102; 103], None)] /\
      arriving s' = arriving s0 /\ memory s' = memory s0
  | Throw _ _ => True
  | _ => False
  end.
Proof.
  pose proof (send_to_whole 32 buf 0 s0 ltac:(done) ltac:(done)) as H. destruct (send_to 32 buf 0 s0) as [n s'|e s'| |]; [|exact I|done..].
  destruct H as (-> & H). exact (conj eq_refl H).
Defined.

Lemma datagrams_in_order_witness : exists l s', recv_many 32 2 buf 200 s0 = Ret l s' /\ length l = 2%nat /\
  l = [([1; 2; 3], Some (Mailbox.address 7)); ([4], Some (Mailbox.address 8))].
Proof.
  destruct (recv_many 32 2 buf 200 s0) as [l s'|e s'| |] eqn:E; [|exfalso; vm_compute in E; discriminate E..].
  exists l, s'. split; [done|]. split; [exact (proj1 (datagrams_in_order 32 2 buf 200 s0 ltac:(done) ltac:(done) buf_apart l s' E))|].
  apply (f_equal (fun r => match r with Ret l _ => l | _ => [] end)) in E. vm_compute in E. by rewrite <- E.
Defined.

Lemma empty_buffers_witness : send_to 32 (Buffer 100 0) 0 s0 = Throw network_exception s0 /\
  recv_from 32 (Buffer 100 0) 0 s0 = Throw (if is_open 32 s0 then win32_exception else network_exception) s0.
Proof. apply (empty_buffers 32 (Buffer 100 0) 0 s0). done. Defined.

(** Over a network that answers. *)
Example acceptor_listens :
  match basic_acceptor 32 2 1 6 80 0 true (Sock 0 (fun x => x) (Script.Mk [] [] [] 0)) with
  | Ret _ s => is_open 32 s = true
  | _ => False
  end.
Proof. done. Defined.

End Demo.
