(* ===== verification/Files.v ===== *)
(** * Files and directory monitors

    include/async_io/file: file.cpp (the file handle), file_monitor.hpp and .cpp, and the
    hook of detail/file_change_notify_hook.hpp. These sources include an older form of
    the service; of it only the callback objects are used. The calls of Windows are an
    interface with laws. *)

From S2P Require Import Prelude Memory Buffers.

(** ** The calls of Windows *)

Class FileCalls (O : Type) : Type := {
  (* path, access, share mode, disposition, flags *)
  CreateFile : list Z -> Z -> Z -> Z -> Z -> O -> option Z * O;
  CloseHandle : Z -> O -> O;
  (* io_.bind *)
  bind_port : Z -> O -> bool * O;
  FlushFileBuffers : Z -> O -> bool * O;
  CancelIo : Z -> O -> bool * O;
  SetFilePointerEx : Z -> Z -> O -> bool * O;
  SetEndOfFile : Z -> O -> bool * O;
  (* at most so many bytes *)
  ReadFile : Z -> Z -> O -> option (list Z) * O;
  WriteFile : Z -> list Z -> O -> option Z * O
}.

(** Writing bytes at a position: a gap before them is filled with zeros. *)
Definition write_at (off : nat) (l c : list Z) : list Z :=
  take off c ++ replicate (off - length c) 0 ++ l ++ drop (off + length l) c.

(** The bytes of the file behind a handle and its position. *)
Class FileLaws (O : Type) `{FileCalls O} : Type := {
  content : Z -> O -> list Z;
  position : Z -> O -> Z;
  set_pointer_law h off o o' : SetFilePointerEx h off o = (true, o') ->
    content h o' = content h o /\ position h o' = off;
  end_of_file_law h o o' : SetEndOfFile h o = (true, o') -> position h o' = position h o /\
    content h o' = take (Z.to_nat (position h o)) (content h o) ++
                   replicate (Z.to_nat (position h o) - length (content h o)) 0;
  read_law h n o l o' : ReadFile h n o = (Some l, o') -> content h o' = content h o /\
    l = take (Z.to_nat n) (drop (Z.to_nat (position h o)) (content h o));
  write_law h l o k o' : WriteFile h l o = (Some k, o') ->
    k = Z.of_nat (length l) /\ content h o' = write_at (Z.to_nat (position h o)) l (content h o)
}.

Section File.
Context (w : Z) {O : Type} `{FileCalls O}.

(** ** [file_handle] *)

Record file : Type := File { file_ : Z; memory : heap; disk : O }.

Definition INVALID_HANDLE_VALUE : Z := 2 ^ w - 1.
Definition is_open (s : file) : bool := negb (file_ s =? INVALID_HANDLE_VALUE).

(** A call on the handle that throws a win32_exception when it fails. *)
Definition checked (f : Z -> O -> bool * O) : prog file unit := fun s =>
  match f (file_ s) (disk s) with
  | (true, o) => Ret tt (File (file_ s) (memory s) o)
  | (false, o) => Throw win32_exception (File (file_ s) (memory s) o)
  end.

Definition answered (f : Z -> O -> bool * O) : prog file bool := fun s =>
  let '(b, o) := f (file_ s) (disk s) in Ret b (File (file_ s) (memory s) o).

Definition FILE_FLAG_NO_BUFFERING : Z := 536870912.
Definition FILE_FLAG_OVERLAPPED : Z := 1073741824.

(** [open] takes the new handle whatever the object holds. *)
Definition open (path : list Z) (access share create flag : Z) : prog file unit := fun s =>
  match CreateFile path access share create flag (disk s) with
  | (None, o) => Throw win32_exception (File INVALID_HANDLE_VALUE (memory s) o)
  | (Some h, o) =>
      (if negb (Z.land flag FILE_FLAG_NO_BUFFERING =? 0) || negb (Z.land flag FILE_FLAG_OVERLAPPED =? 0)
       then checked bind_port else ret tt) (File h (memory s) o)
  end.

Definition close : prog file unit := fun s =>
  if is_open s then Ret tt (File INVALID_HANDLE_VALUE (memory s) (CloseHandle (file_ s) (disk s))) else Ret tt s.

(** Without the assertions of a debug build. *)
Definition flush : prog file bool := answered FlushFileBuffers.
Definition cancel : prog file bool := answered CancelIo.

Definition set_file_size (size : Z) : prog file unit :=
  checked (fun h => SetFilePointerEx h size) ;;; checked SetEndOfFile.

Definition require_open : prog file unit := fun s =>
  if is_open s then Ret tt s else Throw base_exception s.

Definition read (buffer : mutable_buffer_t) (offset : Z) : prog file Z :=
  require_open ;;; checked (fun h => SetFilePointerEx h offset) ;;;
  fun s =>
    match ReadFile (file_ s) (size_ buffer) (disk s) with
    | (Some l, o) => Ret (Z.of_nat (length l)) (File (file_ s) (store (data_ buffer) l (memory s)) o)
    | (None, o) => Throw win32_exception (File (file_ s) (memory s) o)
    end.

Definition write (buffer : const_buffer_t) (offset : Z) : prog file Z :=
  require_open ;;; checked (fun h => SetFilePointerEx h offset) ;;;
  fun s =>
    match WriteFile (file_ s) (load (data_ buffer) (Z.to_nat (size_ buffer)) (memory s)) (disk s) with
    | (Some n, o) => Ret n (File (file_ s) (memory s) o)
    | (None, o) => Throw win32_exception (File (file_ s) (memory s) o)
    end.

(** The offset of an overlapped request: what [async_read] and [async_write] put into
    the OVERLAPPED, and what the system takes from it. *)
Definition Offset (offset : Z) : Z := Z.land offset 4294967295.
Definition OffsetHigh (offset : Z) : Z := Z.land (Z.shiftr offset 32) 4294967295.

(** ** What is written is read *)

Context `{!FileLaws O}.

Lemma seek_ok off s s' : (require_open ;;; checked (fun h => SetFilePointerEx h off)) s = Ret tt s' ->
  is_open s = true /\ file_ s' = file_ s /\ memory s' = memory s /\
  content (file_ s) (disk s') = content (file_ s) (disk s) /\ position (file_ s) (disk s') = off.
Proof.
  unfold bind, require_open, checked. destruct (is_open s); [|done].
  destruct (SetFilePointerEx _ _ _) as [[] o] eqn:E; [|done]. intros [= <-].
  destruct (set_pointer_law _ _ _ _ E). done.
Qed.

Lemma file_read_ok buffer offset s n s' : read buffer offset s = Ret n s' ->
  file_ s' = file_ s /\ content (file_ s) (disk s') = content (file_ s) (disk s) /\
  exists l, l = take (Z.to_nat (size_ buffer)) (drop (Z.to_nat offset) (content (file_ s) (disk s))) /\
    n = Z.of_nat (length l) /\ memory s' = store (data_ buffer) l (memory s).
Proof.
  unfold read. intros Hr. rewrite <- (bind_assoc _ _ _ s) in Hr. apply bind_Ret_inv in Hr as ([] & s1 & Hs & Hr).
  apply seek_ok in Hs as (_ & Hf & Hm & Hc & Hp). rewrite Hf in Hr.
  destruct (ReadFile _ _ _) as [[l|] o] eqn:E; [|done]. injection Hr as <- <-. cbn.
  destruct (read_law _ _ _ _ _ E) as [Hc' Hl]. rewrite Hp, Hc in Hl. split_and!; [done|congruence|].
  exists l. by rewrite Hm.
Qed.

Lemma file_write_ok buffer offset s n s' : write buffer offset s = Ret n s' ->
  let l := load (data_ buffer) (Z.to_nat (size_ buffer)) (memory s) in
  is_open s = true /\ file_ s' = file_ s /\ memory s' = memory s /\ n = Z.of_nat (length l) /\
  content (file_ s) (disk s') = write_at (Z.to_nat offset) l (content (file_ s) (disk s)).
Proof.
  unfold write. intros Hr. rewrite <- (bind_assoc _ _ _ s) in Hr. apply bind_Ret_inv in Hr as ([] & s1 & Hs & Hr).
  apply seek_ok in Hs as (Ho & Hf & Hm & Hc & Hp). rewrite Hf, Hm in Hr.
  destruct (WriteFile _ _ _) as [[k|] o] eqn:E; [|done]. injection Hr as <- <-. cbn.
  destruct (write_law _ _ _ _ _ E) as [Hk Hc']. rewrite Hp, Hc in Hc'. done.
Qed.

Lemma read_back off l c : take (length l) (drop off (write_at off l c)) = l.
Proof.
  unfold write_at. rewrite app_assoc, drop_app_length', take_app_length; [done|].
  rewrite length_app, length_take, length_replicate. lia.
Qed.

(** What was written at an offset is what a read of as many bytes at that offset
    brings, into any buffer; the offset of an overlapped request is the one given, for
    every offset of 64 bits. *)
Theorem file_write_read buffer buffer' offset s n s1 m s2 : size_ buffer' = size_ buffer -> 0 <= size_ buffer ->
  write buffer offset s = Ret n s1 -> read buffer' offset s1 = Ret m s2 ->
  n = size_ buffer /\ m = size_ buffer /\
  load (data_ buffer') (Z.to_nat (size_ buffer)) (memory s2) = load (data_ buffer) (Z.to_nat (size_ buffer)) (memory s) /\
  (0 <= offset < 2 ^ 64 -> Offset offset + 2 ^ 32 * OffsetHigh offset = offset).
Proof.
  intros Hs Hn Hw Hr. apply file_write_ok in Hw as (_ & Hf & Hm & -> & Hc). apply file_read_ok in Hr as (_ & _ & l & Hl & -> & Hm2).
  set (bytes := load _ _ _) in *. assert (Hlen : length bytes = Z.to_nat (size_ buffer)) by apply length_load.
  assert (l = bytes) as ->.
  { rewrite Hl, Hf, Hc, Hs, <- Hlen. apply read_back. }
  split_and!; [lia|lia| |].
  - rewrite Hm2, <- Hlen. apply load_store_eq.
  - intros Ho. unfold Offset, OffsetHigh. change 4294967295 with (Z.ones 32). rewrite !Z.land_ones, Z.shiftr_div_pow2 by lia.
    rewrite (Z.mod_small (offset / 2 ^ 32)) by (split; [apply Z.div_pos|apply Z.div_lt_upper_bound]; lia).
    pose proof (Z.div_mod offset (2 ^ 32) ltac:(lia)). lia.
Qed.

(** [set_file_size] cuts the file or fills it with zeros. *)
Theorem file_size_set size s s' : 0 <= size -> set_file_size size s = Ret tt s' ->
  file_ s' = file_ s /\ length (content (file_ s) (disk s')) = Z.to_nat size /\
  forall i b, content (file_ s) (disk s) !! i = Some b -> (i < Z.to_nat size)%nat ->
    content (file_ s) (disk s') !! i = Some b.
Proof.
  unfold set_file_size, bind, checked. intros Hz.
  destruct (SetFilePointerEx _ _ _) as [[] o] eqn:E; [|done]. cbn.
  destruct (SetEndOfFile _ _) as [[] o'] eqn:E'; [|done]. intros [= <-]. cbn.
  destruct (set_pointer_law _ _ _ _ E) as [Hc Hp]. destruct (end_of_file_law _ _ _ E') as [_ Hc']. rewrite Hp, Hc in Hc'.
  rewrite Hc'. split_and!; [done|rewrite length_app, length_take, length_replicate; lia|].
  intros i b Hi Hlt. pose proof (lookup_lt_Some _ _ _ Hi).
  rewrite lookup_app_l by (rewrite length_take; lia). by rewrite lookup_take_lt.
Qed.

End File.

Module Monitor.

(** ** [change_monitor] *)

(** A notification of the system, and the bytes of a list of them: the offset of the
    next one, which begins at a multiple of four, the action, the bytes of the name and
    the name, two bytes a character. *)
Record notification : Type := Notification { Action : Z; FileName : list Z }.

Definition name_bytes (name : list Z) : list Z := concat (map (le_bytes 2) name).
Definition padding (name : list Z) : nat := if Nat.even (length name) then 0 else 2.
Definition entry_size (e : notification) : nat := 12 + 2 * length (FileName e) + padding (FileName e).
Definition entry_bytes (next : Z) (e : notification) : list Z :=
  le_bytes 4 next ++ le_bytes 4 (Action e) ++ le_bytes 4 (2 * Z.of_nat (length (FileName e))) ++ name_bytes (FileName e).

Fixpoint encode (l : list notification) : list Z :=
  match l with
  | [] => []
  | [e] => entry_bytes 0 e
  | e :: l' => entry_bytes (Z.of_nat (entry_size e)) e ++ replicate (padding (FileName e)) 0 ++ encode l'
  end.

(** A field of a structure in the buffer; outside of the buffer the access is
    undefined. *)
Definition u32_at (buffer : list Z) (p : nat) : option Z :=
  if (p + 4 <=? length buffer)%nat then Some (le_value (take 4 (drop p buffer))) else None.

Fixpoint characters (n : nat) (bytes : list Z) : list Z :=
  match n, bytes with
  | S n', a :: b :: bytes' => (a + 256 * b) :: characters n' bytes'
  | _, _ => []
  end.

(** The loop of the hook from [notify]: the calls of the handler. *)
Fixpoint walk (fuel : nat) (buffer : list Z) (notify : nat) : outcome unit (list notification) :=
  match fuel with
  | O => OutOfFuel
  | S f =>
      match u32_at buffer notify, u32_at buffer (notify + 4), u32_at buffer (notify + 8) with
      | Some NextEntryOffset, Some action, Some FileNameLength =>
          let e := Notification action (characters (Z.to_nat (FileNameLength / 2)) (drop (notify + 12) buffer)) in
          if NextEntryOffset =? 0 then Ret [e] tt
          else match walk f buffer (notify + Z.to_nat NextEntryOffset) with
               | Ret l _ => Ret (e :: l) tt
               | r => r
               end
      | _, _, _ => UB
      end
  end.

(** The monitor: whether its handle is open, the requests the system has with their
    [sub_dir], the callback objects that exist and the notifications handled. *)
Record monitor : Type := MkMonitor {
  opened : bool;
  requests : list bool;
  alive : nat;
  handled : list notification
}.

(** [monitor(handler, sub_dir)]: [accepted] is what [ReadDirectoryChangesW] answers. *)
Definition start_monitor (sub_dir accepted : bool) : prog monitor unit := fun s =>
  if opened s then
    if accepted then Ret tt (MkMonitor (opened s) (requests s ++ [sub_dir]) (S (alive s)) (handled s))
    else Throw win32_exception s
  else Throw win32_exception s.

(** [file_change_handle_t::operator()]: the monitor is started again, for the
    subdirectories too, before the notifications are handled. *)
Definition hook (fuel : nat) (size : Z) (accepted : bool) (buffer : list Z) : prog monitor unit := fun s =>
  if size =? 0 then Ret tt s
  else match start_monitor true accepted s with
       | Ret _ s' =>
           match walk fuel buffer 0 with
           | Ret l _ => Ret tt (MkMonitor (opened s') (requests s') (alive s') (handled s' ++ l))
           | Throw e _ => Throw e s'
           | UB => UB
           | OutOfFuel => OutOfFuel
           end
       | r => r
       end.

(** [file_change_callback::invoke]: the callback object is freed after the hook, unless
    the hook throws. *)
Definition invoke (fuel : nat) (size : Z) (accepted : bool) (buffer : list Z) : prog monitor unit :=
  hook fuel size accepted buffer ;;;
  fun s => Ret tt (MkMonitor (opened s) (requests s) (alive s - 1) (handled s)).

(** A request completes. *)
Definition complete (fuel : nat) (size : Z) (accepted : bool) (buffer : list Z) : prog monitor unit := fun s =>
  match requests s with
  | [] => Ret tt s
  | _ :: l => invoke fuel size accepted buffer (MkMonitor (opened s) l (alive s) (handled s))
  end.

(** ** Reading the notifications *)

Definition wf_entry (e : notification) : Prop :=
  0 <= Action e < 2 ^ 32 /\ Forall (fun c => 0 <= c < 65536) (FileName e) /\ Z.of_nat (length (FileName e)) < 2 ^ 30.

Lemma u32_at_app a b c z p : 0 <= z < 2 ^ 32 -> p = length a -> b = le_bytes 4 z -> u32_at (a ++ b ++ c) p = Some z.
Proof.
  intros Hz -> ->. unfold u32_at. rewrite (proj2 (Nat.leb_le _ _)) by (rewrite !length_app, length_le_bytes; lia).
  rewrite drop_app_length, take_app_length' by by rewrite length_le_bytes. by rewrite le_value_bytes_4.
Qed.

Lemma length_name_bytes name : length (name_bytes name) = (2 * length name)%nat.
Proof. induction name as [|c name IH]; [done|]. unfold name_bytes in *. cbn [map concat]. rewrite length_app, IH, length_le_bytes. cbn. lia. Qed.

Lemma characters_bytes name rest : Forall (fun c => 0 <= c < 65536) name ->
  characters (length name) (name_bytes name ++ rest) = name.
Proof.
  induction 1 as [|c name Hc _ IH]; [done|].
  change (name_bytes (c :: name)) with (c mod 256 :: (c / 256) mod 256 :: name_bytes name).
  cbn [length app characters]. rewrite IH. f_equal. rewrite (Z.mod_small (c / 256)) by (split; [apply Z.div_pos|apply Z.div_lt_upper_bound]; lia).
  pose proof (Z.div_mod c 256 ltac:(lia)). lia.
Qed.

Lemma length_entry next e : length (entry_bytes next e) = (12 + 2 * length (FileName e))%nat.
Proof. unfold entry_bytes. rewrite !length_app, !length_le_bytes, length_name_bytes. lia. Qed.

(** One entry of the buffer. *)
Lemma walk_entry f before next e rest : wf_entry e -> 0 <= next < 2 ^ 32 ->
  walk (S f) (before ++ entry_bytes next e ++ rest) (length before) =
  if next =? 0 then Ret [e] tt
  else match walk f (before ++ entry_bytes next e ++ rest) (length before + Z.to_nat next) with
       | Ret l _ => Ret (e :: l) tt
       | r => r
       end.
Proof.
  intros (Ha & Hn & Hl) Hx. cbn [walk]. set (buffer := before ++ entry_bytes next e ++ rest).
  set (nb := name_bytes (FileName e) ++ rest).
  set (len := le_bytes 4 (2 * Z.of_nat (length (FileName e)))).
  assert (E0 : buffer = before ++ le_bytes 4 next ++ le_bytes 4 (Action e) ++ len ++ nb)
    by (unfold buffer, entry_bytes, nb, len; by rewrite <- !app_assoc).
  assert (E4 : buffer = (before ++ le_bytes 4 next) ++ le_bytes 4 (Action e) ++ len ++ nb) by (by rewrite E0, <- !app_assoc).
  assert (E8 : buffer = (before ++ le_bytes 4 next ++ le_bytes 4 (Action e)) ++ len ++ nb) by (by rewrite E0, <- !app_assoc).
  assert (E12 : drop (length before + 12) buffer = nb).
  { rewrite E0, !app_assoc. apply drop_app_length'. rewrite !length_app. unfold len. rewrite !length_le_bytes. lia. }
  assert (H0 : u32_at buffer (length before) = Some next) by (rewrite E0; by apply u32_at_app).
  assert (H4 : u32_at buffer (length before + 4) = Some (Action e)).
  { rewrite E4. apply u32_at_app; [done| |done]. by rewrite length_app, length_le_bytes. }
  assert (H8 : u32_at buffer (length before + 8) = Some (2 * Z.of_nat (length (FileName e)))).
  { rewrite E8. apply u32_at_app; [lia| |done]. rewrite !length_app, !length_le_bytes. lia. }
  rewrite H0, H4, H8, E12, (Z.mul_comm 2), Z.div_mul, Nat2Z.id by lia. unfold nb. rewrite characters_bytes by done.
  by destruct e.
Qed.

Lemma entry_size_bound e : wf_entry e -> 0 < Z.of_nat (entry_size e) < 2 ^ 32.
Proof. intros (_ & _ & Hl). unfold entry_size, padding. destruct (Nat.even _); lia. Qed.

(** The loop over a buffer of the system calls the handler for each notification, in
    order. *)
Lemma walk_encode l : forall fuel before rest, Forall wf_entry l -> l <> [] -> (length l <= fuel)%nat ->
  walk fuel (before ++ encode l ++ rest) (length before) = Ret l tt.
Proof.
  induction l as [|e l IH]; intros fuel before rest Hl Hne Hf; [done|]. apply Forall_cons in Hl as [He Hl].
  destruct fuel as [|f]; [cbn in Hf; lia|]. destruct l as [|e2 l].
  - cbn [encode]. by rewrite walk_entry by done.
  - change (encode (e :: e2 :: l)) with (entry_bytes (Z.of_nat (entry_size e)) e ++ replicate (padding (FileName e)) 0 ++ encode (e2 :: l)).
    pose proof (entry_size_bound e He) as Hsz. rewrite <- app_assoc, walk_entry by (done || lia).
    rewrite (proj2 (Z.eqb_neq _ _)), Nat2Z.id by lia. rewrite <- !app_assoc.
    set (head := before ++ entry_bytes (Z.of_nat (entry_size e)) e ++ replicate (padding (FileName e)) 0).
    assert (Hh : (length before + entry_size e)%nat = length head).
    { unfold head, entry_size. rewrite !length_app, length_entry, length_replicate. lia. }
    assert (Hb : before ++ entry_bytes (Z.of_nat (entry_size e)) e ++ replicate (padding (FileName e)) 0 ++ encode (e2 :: l) ++ rest =
      head ++ encode (e2 :: l) ++ rest) by (unfold head; by rewrite <- !app_assoc).
    rewrite Hb, Hh, IH by (done || cbn in *; lia). done.
Qed.

(** A completion with notifications hands each of them to the handler, in order, and
    leaves one request behind, which watches the subdirectories whatever the client had
    asked for. *)
Theorem notifications_handled l rest fuel size sub_dir s : Forall wf_entry l -> l <> [] -> (length l <= fuel)%nat ->
  opened s = true -> requests s = [sub_dir] -> (1 <= alive s)%nat -> size <> 0 ->
  exists s', complete fuel size true (encode l ++ rest) s = Ret tt s' /\
    handled s' = handled s ++ l /\ requests s' = [true] /\ alive s' = alive s.
Proof.
  intros Hl Hne Hf Ho Hr Ha Hs. unfold complete, invoke, hook, bind, start_monitor. rewrite Hr. cbn [opened].
  rewrite (proj2 (Z.eqb_neq _ _)), Ho by done. pose proof (walk_encode l fuel [] rest Hl Hne Hf) as Hw.
  cbn [app length] in Hw. rewrite Hw. cbn. eexists. split; [done|]. cbn. split_and!; [done|done|lia].
Qed.

(** Two completions end the monitoring: an empty one, which the system sends when its
    buffer overflowed, and one after which the monitor cannot be started again; the
    second leaks the callback object and its notifications are not handled. *)
Theorem monitoring_ends fuel size accepted buffer sub_dir s : opened s = true -> requests s = [sub_dir] ->
  (size = 0 -> exists s', complete fuel size accepted buffer s = Ret tt s' /\ requests s' = [] /\ handled s' = handled s) /\
  (size <> 0 -> accepted = false -> exists s', complete fuel size accepted buffer s = Throw win32_exception s' /\
     requests s' = [] /\ handled s' = handled s /\ alive s' = alive s).
Proof.
  intros Ho Hr. unfold complete, invoke, hook, bind, start_monitor. rewrite Hr. cbn [opened]. split.
  - intros ->. by eexists.
  - intros Hs ->. rewrite (proj2 (Z.eqb_neq _ _)), Ho by done. by eexists.
Qed.
End Monitor.

(** ** A disk with one file, and a directory with changes *)

Module Demo.
(** The content and the position. *)
#[export] Instance one_file : FileCalls (list Z * Z) := {
  CreateFile p a sh c f o := (Some 7, o);
  CloseHandle h o := o;
  bind_port h o := (true, o);
  FlushFileBuffers h o := (true, o);
  CancelIo h o := (true, o);
  SetFilePointerEx h off o := (true, (o.1, off));
  SetEndOfFile h o := (true, (take (Z.to_nat o.2) o.1 ++ replicate (Z.to_nat o.2 - length o.1) 0, o.2));
  ReadFile h n o := let l := take (Z.to_nat n) (drop (Z.to_nat o.2) o.1) in (Some l, (o.1, o.2 + Z.of_nat (length l)));
  WriteFile h l o := (Some (Z.of_nat (length l)), (write_at (Z.to_nat o.2) l o.1, o.2 + Z.of_nat (length l)))
}.

#[export] Instance one_file_laws : FileLaws (list Z * Z).
Proof.
  refine {| content h o := o.1; position h o := o.2 |}.
  - by intros h off o o' [= <-].
  - by intros h o o' [= <-].
  - by intros h n o l o' [= <- <-].
  - by intros h l o k o' [= <- <-].
Defined.

Definition ones : heap := fun x => if x <? 100 then 1 else 0.
Definition file0 : file := File 7 ones ([5; 6], 0).

Lemma file_write_read_witness : exists s1 s2, write 32 (Buffer 0 4) 3 file0 = Ret 4 s1 /\ read 32 (Buffer 200 4) 3 s1 = Ret 4 s2 /\
  load 200 4 (memory s2) = [1; 1; 1; 1].
Proof.
  do 2 eexists. split; [reflexivity|]. split; [reflexivity|].
  refine (proj1 (proj2 (proj2 (file_write_read 32 (Buffer 0 4) (Buffer 200 4) 3 file0 4 _ 4 _ eq_refl _ eq_refl eq_refl)))).
  cbn. lia.
Defined.

Lemma file_size_set_witness : exists s', set_file_size 4 file0 = Ret tt s' /\ length (content 7 (disk s')) = 4%nat.
Proof.
  eexists. split; [reflexivity|]. refine (proj1 (proj2 (file_size_set 4 file0 _ _ eq_refl))). lia.
Defined.

Import Monitor.
Definition changes : list notification := [Notification 1 [97; 46; 116]; Notification 3 [98; 120]].

Lemma changes_wf : Forall wf_entry changes.
Proof. repeat constructor; cbn; lia. Qed.

Lemma notifications_handled_witness : exists s', complete 2 30 true (encode changes ++ [9; 9]) (MkMonitor true [false] 1 []) = Ret tt s' /\
  handled s' = changes /\ requests s' = [true] /\ alive s' = 1%nat.
Proof. apply (notifications_handled changes [9; 9] 2 30 false (MkMonitor true [false] 1 [])); try done. exact changes_wf. Defined.

Lemma monitoring_ends_witness : exists s', complete 2 0 true [] (MkMonitor true [true] 1 []) = Ret tt s' /\ requests s' = [] /\ handled s' = [].
Proof. by apply (monitoring_ends 2 0 true [] true (MkMonitor true [true] 1 [])). Defined.
End Demo.
