(* ===== verification/BasicFile.v ===== *)
(** * The file class of clients

    include/async_io/file/basic_file.hpp: the flags a file is opened with, and [basic_file]
    over the handle of Files.v. Its calls without an offset are those at the offset 0, so
    that a file has no position that moves. *)

From S2P Require Import Prelude Memory Buffers Files.

Section BasicFile.
Context (w : Z) {O : Type} `{FileCalls O}.

(** ** The flags *)

Definition GENERIC_READ : Z := 2147483648.
Definition GENERIC_WRITE : Z := 1073741824.
Definition FILE_SHARE_READ : Z := 1.
Definition FILE_SHARE_WRITE : Z := 2.
Definition CREATE_ALWAYS : Z := 2.
Definition OPEN_EXISTING : Z := 3.
Definition OPEN_ALWAYS : Z := 4.
Definition FILE_ATTRIBUTE_ARCHIVE : Z := 32.
Definition FILE_ATTRIBUTE_NORMAL : Z := 128.

Record flag : Type := Flag { access_right : Z; shared_mode : Z; creation_flag : Z; attribute : Z }.

#[export] Instance flag_eq_dec : EqDecision flag.
Proof. solve_decision. Defined.

Definition readwrite : flag :=
  Flag (Z.lor GENERIC_READ GENERIC_WRITE) (Z.lor FILE_SHARE_READ FILE_SHARE_WRITE) OPEN_ALWAYS
    (Z.lor FILE_ATTRIBUTE_NORMAL FILE_ATTRIBUTE_ARCHIVE).
Definition readonly : flag :=
  Flag GENERIC_READ FILE_SHARE_READ OPEN_EXISTING (Z.lor FILE_ATTRIBUTE_NORMAL FILE_ATTRIBUTE_ARCHIVE).
Definition overlapped_read : flag :=
  Flag GENERIC_READ FILE_SHARE_READ OPEN_EXISTING (Z.lor FILE_ATTRIBUTE_NORMAL FILE_FLAG_OVERLAPPED).
Definition overlapped_write : flag :=
  Flag (Z.lor GENERIC_READ GENERIC_WRITE) FILE_SHARE_READ CREATE_ALWAYS (Z.lor FILE_ATTRIBUTE_NORMAL FILE_FLAG_OVERLAPPED).

(** ** [basic_file] *)

Definition open (path : list Z) (f : flag) : prog file unit :=
  Files.open w path (access_right f) (shared_mode f) (creation_flag f) (attribute f).

Definition write (buffer : const_buffer_t) : prog file Z := Files.write w buffer 0.
Definition read (buffer : mutable_buffer_t) : prog file Z := Files.read w buffer 0.

Inductive call := Read (b : mutable_buffer_t) | Write (b : const_buffer_t).
Definition exec (c : call) : prog file unit :=
  match c with Read b => read b ;;; ret tt | Write b => write b ;;; ret tt end.
Fixpoint run (l : list call) : prog file unit := match l with [] => ret tt | c :: l => exec c ;;; run l end.

(** ** Opening *)

(** A file is bound to the port of its dispatcher, without which no overlapped request on
    it is ever completed, when it is opened with an overlapped flag and only then. *)
Theorem opened_bound path f s : f ∈ [readwrite; readonly; overlapped_read; overlapped_write] ->
  open path f s =
    match CreateFile path (access_right f) (shared_mode f) (creation_flag f) (attribute f) (disk s) with
    | (None, o) => Throw win32_exception (File (INVALID_HANDLE_VALUE w) (memory s) o)
    | (Some h, o) =>
        if bool_decide (f ∈ [overlapped_read; overlapped_write]) then
          let '(bound, o') := bind_port h o in
          if bound then Ret tt (File h (memory s) o') else Throw win32_exception (File h (memory s) o')
        else Ret tt (File h (memory s) o)
    end.
Proof.
  intros Hf. unfold open, Files.open.
  repeat (apply elem_of_cons in Hf as [-> |Hf]); [..|by apply not_elem_of_nil in Hf];
    destruct (CreateFile _ _ _ _ _ _) as [[h|] o]; cbn; try done; unfold checked; cbn; by destruct (bind_port h o) as [[] o'].
Qed.

(** ** No position *)

Context `{!FileLaws O}.

(** The bytes of a buffer. *)
Definition bytes (b : const_buffer_t) (m : heap) : list Z := load (data_ b) (Z.to_nat (size_ b)) m.

Definition reads (l : list mutable_buffer_t) : prog file unit := run (map Read l).
Definition writes (l : list const_buffer_t) : prog file unit := run (map Write l).

Lemma exec_read b s s' : exec (Read b) s = Ret tt s' -> file_ s' = file_ s /\
  content (file_ s) (disk s') = content (file_ s) (disk s) /\
  memory s' = store (data_ b) (take (Z.to_nat (size_ b)) (content (file_ s) (disk s))) (memory s).
Proof.
  intros Hr. apply bind_Ret_inv in Hr as (n & s1 & H1 & [= <-]).
  destruct (file_read_ok w b 0 s n s1 H1) as (Hf & Hc & l & -> & _ & Hm). done.
Qed.

Lemma exec_write b s s' : exec (Write b) s = Ret tt s' -> file_ s' = file_ s /\ memory s' = memory s /\
  content (file_ s) (disk s') = bytes b (memory s) ++ drop (length (bytes b (memory s))) (content (file_ s) (disk s)).
Proof.
  intros Hr. apply bind_Ret_inv in Hr as (n & s1 & H1 & [= <-]).
  destruct (file_write_ok w b 0 s n s1 H1) as (_ & Hf & Hm & _ & Hc). done.
Qed.

(** However often a file was read without an offset, the next read brings its beginning
    again. *)
Theorem reads_repeat l b s s' : (reads l ;;; exec (Read b)) s = Ret tt s' ->
  content (file_ s) (disk s') = content (file_ s) (disk s) /\
  exists m, memory s' = store (data_ b) (take (Z.to_nat (size_ b)) (content (file_ s) (disk s))) m.
Proof.
  revert s. induction l as [|x l IH]; intros s Hr.
  - destruct (exec_read b s s' Hr) as (_ & Hc & Hm). split; [done|]. by eexists.
  - unfold reads in *. cbn [map run] in Hr. rewrite (bind_assoc _ _ _ s) in Hr. apply bind_Ret_inv in Hr as ([] & s1 & H1 & Hr).
    destruct (exec_read x s s1 H1) as (Hf & Hc & _). destruct (IH s1 Hr) as [H2 H3]. by rewrite Hf, Hc in H2, H3.
Qed.

(** Every write without an offset goes over the one before: of writes of the same length
    the file has the last, followed by what it had there. *)
Theorem writes_overwrite l s s' : writes l s = Ret tt s' ->
  content (file_ s) (disk s') =
    foldl (fun c b => bytes b (memory s) ++ drop (length (bytes b (memory s))) c) (content (file_ s) (disk s)) l /\
  forall b k, last l = Some b -> Forall (fun x => Z.to_nat (size_ x) = k) l ->
    content (file_ s) (disk s') = bytes b (memory s) ++ drop k (content (file_ s) (disk s)).
Proof.
  assert (Hlen : forall b m, length (bytes b m) = Z.to_nat (size_ b)) by (intros; apply length_load).
  intros Hw. assert (H1 : content (file_ s) (disk s') =
    foldl (fun c b => bytes b (memory s) ++ drop (length (bytes b (memory s))) c) (content (file_ s) (disk s)) l).
  { revert s Hw. induction l as [|x l IH]; intros s Hw; [by injection Hw as <-|].
    unfold writes in *. cbn [map run] in Hw. apply bind_Ret_inv in Hw as ([] & s1 & Hx & Hw).
    destruct (exec_write x s s1 Hx) as (Hf & Hm & Hc). specialize (IH s1 Hw). rewrite Hf, Hm, Hc in IH. exact IH. }
  split; [exact H1|]. rewrite H1. clear Hw H1. generalize (content (file_ s) (disk s)). intros c b k Hl Hk. revert c.
  induction l as [|x l IH]; intros c; [done|]. apply Forall_cons in Hk as [Hx Hk]. cbn [foldl].
  destruct l as [|y l]; [injection Hl as ->; by rewrite Hlen, Hx|]. rewrite IH; [|done|done].
  rewrite Hlen, Hx, drop_app_length'; [done|]. by rewrite Hlen.
Qed.

End BasicFile.

Module Demo.
Import Files.Demo.

Lemma opened_bound_witness : open 32 [] readonly file0 = Ret tt (File 7 ones ([5; 6], 0)).
Proof. rewrite (opened_bound 32 [] readonly file0); [reflexivity|]. apply elem_of_cons. right. apply elem_of_cons. by left. Defined.

Definition after_reads : file := File 7 (store 200 [5; 6] (store 300 [5] ones)) ([5; 6], 2).

Lemma reads_repeat_witness : exists m, memory after_reads = store 200 (take 2 [5; 6]) m.
Proof. refine (proj2 (reads_repeat 32 [Buffer 300 1] (Buffer 200 2) file0 after_reads _)). reflexivity. Defined.

Lemma writes_overwrite_witness :
  content 7 (disk (File 7 ones ([1; 1; 6], 2))) = bytes (Buffer 10 2) ones ++ drop 2 [5; 5; 6].
Proof.
  refine (proj2 (writes_overwrite 32 [Buffer 99 2; Buffer 10 2] (File 7 ones ([5; 5; 6], 0)) _ _) (Buffer 10 2) 2%nat _ _); [reflexivity|reflexivity|].
  by repeat constructor.
Defined.

End Demo.
