(* ===== verification/Offsets.v ===== *)
(** * Transfers at an offset

    The overloads of include/async_io/service/read.hpp and write.hpp that take an offset,
    over the files of Files.v: [read] and [write], and [async_write] with its handler
    [write_offset_handler_t]. None of them moves the offset. *)

From S2P Require Import Prelude Memory Buffers Files.

Section Blocking.
Context (w : Z) {D : Type} `{FileCalls D}.
Context (condition : Z -> Z).

Fixpoint read_at_loop (fuel : nat) (buffer : mutable_buffer_t) (offset bufSize transfers : Z) : prog file Z :=
  match fuel with
  | O => diverge
  | S f =>
      if transfers <=? condition transfers then
        if bufSize <=? transfers then ret transfers
        else
          let* b := mutable_plus buffer transfers in
          let* n := Files.read w b offset in
          (if n =? 0 then Files.close w else ret tt) ;;;
          read_at_loop f buffer offset bufSize (u32 (transfers + n))
      else ret transfers
  end.

Definition read_at (fuel : nat) (buffer : mutable_buffer_t) (offset : Z) : prog file Z :=
  read_at_loop fuel buffer offset (u32 (size_ buffer)) 0.

Fixpoint write_at_loop (fuel : nat) (buffer : const_buffer_t) (offset bufSize transfers : Z) : prog file Z :=
  match fuel with
  | O => diverge
  | S f =>
      if transfers <=? condition transfers then
        if bufSize <=? transfers then ret transfers
        else
          let* b := const_plus buffer transfers in
          let* n := Files.write w b offset in
          (if n =? 0 then Files.close w else ret tt) ;;;
          write_at_loop f buffer offset bufSize (u32 (transfers + n))
      else ret transfers
  end.

Definition write_all_at (fuel : nat) (buffer : const_buffer_t) (offset : Z) : prog file Z :=
  write_at_loop fuel buffer offset (u32 (size_ buffer)) 0.

(** ** Reading

    [available]: what the file has from the offset on. *)
Context `{!FileLaws D}.

Definition available (offset : Z) (s : file) : list Z := drop (Z.to_nat offset) (content (file_ s) (disk s)).

(** The first [k] bytes of the buffer repeat what is available. *)
Definition repeated (buffer : buffer_t) (l : list Z) (k : Z) (m : heap) : Prop :=
  forall i, 0 <= i < k -> l !! Z.to_nat (i mod Z.of_nat (length l)) = Some (m (data_ buffer + i)).

Lemma repeated_more buffer l k n m : 0 <= k -> k mod Z.of_nat (length l) = 0 -> l <> [] ->
  repeated buffer l k m ->
  repeated buffer l (k + Z.of_nat (length (take n l))) (store (data_ buffer + k) (take n l) m).
Proof.
  intros Hk Hm Hl Hr i Hi. assert (0 < Z.of_nat (length l)) by (destruct l; [done|cbn; lia]).
  destruct (decide (i < k)).
  - rewrite store_out by lia. apply Hr. lia.
  - rewrite length_take in Hi. rewrite store_in by (rewrite length_take; lia).
    replace (data_ buffer + i - (data_ buffer + k)) with (i - k) by lia.
    replace i with (i - k + k) at 1 by lia. rewrite Zplus_mod, Hm, Z.add_0_r, Zmod_mod, Z.mod_small by lia.
    destruct (lookup_lt_is_Some_2 (take n l) (Z.to_nat (i - k))) as [b Hb]; [rewrite length_take; lia|].
    rewrite nth_lookup, Hb. by apply lookup_take_Some in Hb as [-> _].
Qed.

Definition read_at_post (buffer : buffer_t) (l : list Z) (r : outcome (@file D) Z) : Prop :=
  match r with
  | Ret n s' => n = size_ buffer /\ repeated buffer l n (memory s')
  | Throw _ _ => 0 < size_ buffer
  | UB | OutOfFuel => False
  end.

(** A file that is closed is not read. *)
Lemma read_closed_file b offset s : is_open w s = false -> Files.read w b offset s = Throw base_exception s.
Proof. intros Ho. unfold Files.read, bind, require_open. by rewrite Ho. Qed.

Lemma close_closes s : exists s', Files.close w s = Ret tt s' /\ is_open w s' = false.
Proof.
  unfold Files.close. destruct (is_open w s) eqn:E; eexists; (split; [done|]); [|done].
  unfold is_open. cbn [file_]. by rewrite Z.eqb_refl.
Qed.

Lemma read_no_ub b offset s : match Files.read w b offset s with UB | OutOfFuel => False | _ => True end.
Proof.
  unfold Files.read, bind, require_open, checked. destruct (is_open w s); [|done].
  destruct (SetFilePointerEx _ _ _) as [[] o]; [|done]. by destruct (ReadFile _ _ _) as [[] ?].
Qed.

Lemma read_at_closed buffer offset l fuel k s (Hc : forall t, 0 <= t <= size_ buffer -> t <= condition t) :
  is_open w s = false -> 0 <= k < size_ buffer ->
  read_at_post buffer l (read_at_loop (S fuel) buffer offset (size_ buffer) k s).
Proof.
  intros Ho Hk. cbn [read_at_loop]. rewrite (proj2 (Z.leb_le _ _)) by (apply Hc; lia).
  rewrite (proj2 (Z.leb_gt _ _)) by lia. unfold mutable_plus. rewrite (proj2 (Z.ltb_ge _ _)) by lia.
  unfold bind, ret. rewrite read_closed_file by done. cbn. lia.
Qed.

Lemma read_at_loop_ok buffer offset l (Hc : forall t, 0 <= t <= size_ buffer -> t <= condition t) :
  size_ buffer < 4294967296 -> forall fuel k s, available offset s = l ->
  0 <= k <= size_ buffer -> (k < size_ buffer -> k mod Z.of_nat (length l) = 0) ->
  repeated buffer l k (memory s) -> size_ buffer - k + 1 < Z.of_nat fuel ->
  read_at_post buffer l (read_at_loop fuel buffer offset (size_ buffer) k s).
Proof.
  intros Hsz. induction fuel as [|f IH]; intros k s Hl Hk Hm Hr Hf; [lia|].
  cbn [read_at_loop]. rewrite (proj2 (Z.leb_le _ _)) by (apply Hc; lia).
  destruct (Z.leb_spec (size_ buffer) k) as [|Hlt]; [assert (k = size_ buffer) as -> by lia; done|].
  unfold mutable_plus. rewrite (proj2 (Z.ltb_ge _ _)) by lia. unfold bind at 1, ret.
  set (b := Buffer (data_ buffer + k) (size_ buffer - k)). pose proof (read_no_ub b offset s) as Hub.
  unfold bind at 1. destruct (Files.read w b offset s) as [n s1|e s1| |] eqn:E; try done; [|cbn; lia].
  destruct (file_read_ok w b offset s n s1 E) as (Hf1 & Hc1 & l' & Hl' & -> & Hm1). fold (available offset s) in Hl'. rewrite Hl in Hl'.
  destruct (decide (l = [])) as [-> |Hne].
  - rewrite take_nil in Hl'. subst l'. destruct f as [|f]; [lia|]. cbn [length]. rewrite Z.add_0_r, u32_small by lia.
    destruct (close_closes s1) as (s2 & Hcl & Ho2). change (Z.of_nat 0 =? 0) with true. cbv iota.
    rewrite (bind_ret _ _ _ _ _ Hcl). apply read_at_closed; [done..|lia].
  - assert (length l <> 0%nat) by (by destruct l). assert (length l' = Nat.min (Z.to_nat (size_ buffer - k)) (length l)) by (by rewrite Hl', length_take; cbn; lia).
    rewrite (proj2 (Z.eqb_neq _ 0)), u32_small by lia. unfold bind, ret. apply IH; [|lia| | |lia].
    + unfold available. by rewrite Hf1, Hc1.
    + intros Hlt'. rewrite Zplus_mod, Hm by lia. replace (length l') with (length l) by lia.
      by rewrite Z_mod_same_full.
    + rewrite Hm1, Hl'. apply repeated_more; [lia|by apply Hm|done|done].
Qed.

(** [read] at an offset never runs for ever. When it returns it has filled the buffer:
    if the file ends before, with what is available again and again, and the count is
    the size of the buffer. At the end of the file it closes the file and throws. *)
Theorem read_at_repeats fuel buffer offset s : (forall t, 0 <= t <= size_ buffer -> t <= condition t) ->
  0 <= size_ buffer < 4294967296 -> size_ buffer + 1 < Z.of_nat fuel ->
  read_at_post buffer (available offset s) (read_at fuel buffer offset s).
Proof.
  intros Hc Hsz Hf. unfold read_at. rewrite u32_small by lia.
  apply read_at_loop_ok; [done|lia|done|lia|intros; by rewrite Zmod_0_l|intros i Hi; lia|lia].
Qed.

(** ** Writing *)

Lemma write_no_ub b offset s : match Files.write w b offset s with UB | OutOfFuel => False | _ => True end.
Proof.
  unfold Files.write, bind, require_open, checked. destruct (is_open w s); [|done].
  destruct (SetFilePointerEx _ _ _) as [[] o]; [|done]. by destruct (WriteFile _ _ _) as [[] ?].
Qed.

(** A file takes the whole buffer in one write: [write] at an offset is exact. *)
Theorem write_at_exact fuel buffer offset s : (forall t, 0 <= t <= size_ buffer -> t <= condition t) ->
  0 < size_ buffer < 4294967296 -> (1 < fuel)%nat ->
  match write_all_at fuel buffer offset s with
  | Ret n s' => n = size_ buffer /\ memory s' = memory s /\
      content (file_ s) (disk s') =
        write_at (Z.to_nat offset) (load (data_ buffer) (Z.to_nat (size_ buffer)) (memory s)) (content (file_ s) (disk s))
  | Throw _ _ => True
  | UB | OutOfFuel => False
  end.
Proof.
  intros Hc Hsz Hf. destruct fuel as [|[|f]]; [lia..|]. unfold write_all_at. rewrite u32_small by lia.
  cbn [write_at_loop]. rewrite (proj2 (Z.leb_le 0 _)) by (apply Hc; lia). rewrite (proj2 (Z.leb_gt _ 0)) by lia.
  unfold const_plus at 1. rewrite (proj2 (Z.ltb_ge _ _)) by lia. unfold bind at 1, ret. rewrite Z.add_0_r, Z.sub_0_r.
  set (b := Buffer _ _). pose proof (write_no_ub b offset s) as Hub.
  unfold bind at 1. destruct (Files.write w b offset s) as [n s1|e s1| |] eqn:E; try done.
  destruct (file_write_ok w b offset s n s1 E) as (_ & _ & Hm1 & -> & Hc1). rewrite length_load. cbn [b size_].
  rewrite Z.add_0_l, Z2Nat.id, u32_small, (proj2 (Z.eqb_neq _ 0)) by lia. unfold bind at 1.
  rewrite (proj2 (Z.leb_le _ (condition _))) by (apply Hc; lia). by rewrite Z.leb_refl.
Qed.

End Blocking.

(** ** [async_write] at an offset *)

Module Async.

(** [handler_]: the client's handler is still here, and has not been moved into the
    next object of the chain. [condition_]: what [condition_()] answers. *)
Record write_offset_handler_t := Handler {
  buffer_ : const_buffer_t;
  condition_ : Z;
  offset_ : Z;
  transfers_ : Z;
  total_ : Z;
  handler_ : bool
}.

(** [answers]: what [WriteFile] answers, [None] for ERROR_IO_PENDING, and an error
    otherwise; [outstanding]: the request the system has; [told]: the calls of the
    client's handler. *)
Record async_file := AsyncFile {
  amemory : heap;
  bytes : list Z;
  opened : bool;
  answers : list (option Z);
  last_error : Z;
  outstanding : option (const_buffer_t * Z * write_offset_handler_t);
  told : list (Z * Z)
}.

Definition set_outstanding r (s : async_file) : async_file :=
  AsyncFile (amemory s) (bytes s) (opened s) (answers s) (last_error s) r (told s).

(** [file_handle::async_write]. *)
Definition file_async_write (buffer : const_buffer_t) (offset : Z) (handler : write_offset_handler_t) : prog async_file unit := fun s =>
  if negb (opened s) then Throw base_exception s
  else
    match answers s with
    | Some e :: l => Throw win32_exception (AsyncFile (amemory s) (bytes s) (opened s) l e (outstanding s) (told s))
    | None :: l =>
        Ret tt (AsyncFile (amemory s) (bytes s) (opened s) l (last_error s) (Some (buffer, offset, handler)) (told s))
    | [] => Ret tt (set_outstanding (Some (buffer, offset, handler)) s)
    end.

(** A handler that was moved away is called with undefined behaviour. *)
Definition call_handler (there : bool) (error transfers : Z) : prog async_file unit := fun s =>
  if there then Ret tt (AsyncFile (amemory s) (bytes s) (opened s) (answers s) (last_error s) (outstanding s) (told s ++ [(error, transfers)]))
  else UB.

(** [e.code()]: the default code of an exception_base, or the system's error. *)
Definition code_of (e : exn) (s : async_file) : Z :=
  match e with base_exception => 0 | network_exception => 5 | _ => last_error s end.
Definition is_exception_base (e : exn) : bool :=
  match e with network_exception | win32_exception | base_exception => true | _ => false end.

(** [write_offset_handler_t::operator()]: the rest of the buffer goes to the same
    offset. *)
Definition operator (h : write_offset_handler_t) (error size : Z) : prog async_file unit :=
  let transfers := u32 (transfers_ h + size) in
  if (transfers <? total_ h) && negb (size =? 0) && (error =? 0) then
    if transfers <? condition_ h then fun s =>
      match const_plus (buffer_ h) size s with
      | Throw e s' => if is_exception_base e then call_handler (handler_ h) (code_of e s') transfers s' else Throw e s'
      | Ret b s' =>
          match file_async_write b (offset_ h) (Handler b (condition_ h) (offset_ h) transfers (total_ h) (handler_ h)) s' with
          | Throw e s'' => if is_exception_base e then call_handler false (code_of e s'') transfers s'' else Throw e s''
          | r => r
          end
      | UB => UB
      | OutOfFuel => OutOfFuel
      end
    else call_handler (handler_ h) error transfers
  else call_handler (handler_ h) error transfers.

Definition async_write_at (buffer : const_buffer_t) (offset condition : Z) : prog async_file unit :=
  file_async_write buffer offset (Handler buffer condition offset 0 (u32 (size_ buffer)) true).

(** A completion: the system has written the first [n] bytes of the request's buffer at
    its offset. *)
Definition complete (n error : Z) : prog async_file unit := fun s =>
  match outstanding s with
  | None => Ret tt s
  | Some (b, off, h) =>
      if (0 <=? n) && (n <=? size_ b) then
        operator h error n (AsyncFile (amemory s) (write_at (Z.to_nat off) (load (data_ b) (Z.to_nat n) (amemory s)) (bytes s))
                             (opened s) (answers s) (last_error s) None (told s))
      else UB
  end.

Fixpoint deliver (ns : list Z) : prog async_file unit :=
  match ns with
  | [] => ret tt
  | n :: ns' => complete n 0 ;;; deliver ns'
  end.

(** The parts of the memory from [p] on, each written at the offset. *)
Fixpoint overlaid (m : heap) (off : nat) (p : Z) (ns : list Z) (c : list Z) : list Z :=
  match ns with
  | [] => c
  | n :: ns' => overlaid m off (p + n) ns' (write_at off (load p (Z.to_nat n) m) c)
  end.

Lemma write_at_beyond off l c i : (off + length l <= i)%nat -> write_at off l c !! i = c !! i.
Proof.
  intros Hi. unfold write_at. rewrite app_assoc, lookup_app_r by (rewrite length_app, length_take, length_replicate; lia).
  rewrite lookup_app_r by (rewrite length_app, length_take, length_replicate; lia). rewrite lookup_drop.
  rewrite length_app, length_take, length_replicate.
  destruct (decide (off <= length c)%nat); [f_equal; lia|].
  rewrite !lookup_ge_None_2; [done|lia..].
Qed.

Lemma overlaid_beyond m off i : forall ns p c, Forall (fun n => 0 <= n /\ (off + Z.to_nat n <= i)%nat) ns ->
  overlaid m off p ns c !! i = c !! i.
Proof.
  induction ns as [|n ns IH]; intros p c Hn; [done|]. apply Forall_cons in Hn as [[Hn Hi] Hns].
  cbn [overlaid]. rewrite IH by done. apply write_at_beyond. by rewrite length_load.
Qed.

Definition sum (ns : list Z) : Z := foldr Z.add 0 ns.

Lemma sum_nonneg ns : Forall (fun n => 0 < n) ns -> 0 <= sum ns.
Proof. induction 1; cbn; unfold sum in *; lia. Qed.

Lemma operator_next b cond off t total n s : opened s = true -> Forall (fun a => a = None) (answers s) ->
  0 < n < size_ b -> t + size_ b = total -> 0 <= t -> total < 4294967296 -> total <= cond ->
  exists l, Forall (fun a => a = None) l /\
    operator (Handler b cond off t total true) 0 n s =
    Ret tt (AsyncFile (amemory s) (bytes s) true l (last_error s)
      (Some (Buffer (data_ b + n) (size_ b - n), off,
             Handler (Buffer (data_ b + n) (size_ b - n)) cond off (t + n) total true)) (told s)).
Proof.
  intros Ho Ha Hn Ht Htp Htot Hc. unfold operator. cbn [transfers_ total_ condition_ buffer_ offset_ handler_].
  rewrite u32_small by lia. rewrite (proj2 (Z.ltb_lt _ total)), (proj2 (Z.eqb_neq n 0)), (proj2 (Z.ltb_lt _ cond)) by lia.
  cbn [negb andb Z.eqb]. unfold const_plus. rewrite (proj2 (Z.ltb_ge _ _)) by lia. unfold ret, file_async_write.
  rewrite Ho. cbn [negb]. destruct s as [m c o [|a l] e r tl]; cbn in *; subst o; [by exists []|].
  apply Forall_cons in Ha as [-> Ha]. by exists l.
Qed.

Lemma operator_last b cond off t total n s : t + n = total -> 0 <= t -> 0 < n -> total < 4294967296 ->
  operator (Handler b cond off t total true) 0 n s =
  Ret tt (AsyncFile (amemory s) (bytes s) (opened s) (answers s) (last_error s) (outstanding s) (told s ++ [(0, total)])).
Proof.
  intros Ht Htp Hn Htot. unfold operator. cbn [transfers_ total_ handler_]. rewrite u32_small by lia.
  by rewrite (proj2 (Z.ltb_ge _ total)), Ht by lia.
Qed.

Lemma deliver_parts off total cond : 0 <= off -> total < 4294967296 -> total <= cond -> forall ns b t s,
  opened s = true -> Forall (fun a => a = None) (answers s) -> Forall (fun n => 0 < n) ns -> sum ns = size_ b -> 0 < size_ b ->
  0 <= t -> t + size_ b = total -> outstanding s = Some (b, off, Handler b cond off t total true) ->
  exists s', deliver ns s = Ret tt s' /\ told s' = told s ++ [(0, total)] /\ outstanding s' = None /\
    bytes s' = overlaid (amemory s) (Z.to_nat off) (data_ b) ns (bytes s).
Proof.
  intros Hoff Htot Hc. induction ns as [|n ns IH]; intros b t s Ho Ha Hn Hs Hb Ht Hr Hout; [cbn in Hs; lia|].
  apply Forall_cons in Hn as [Hn Hns]. pose proof (sum_nonneg ns Hns) as Hp. cbn [sum foldr] in Hs. fold (sum ns) in Hs.
  cbn [deliver overlaid]. unfold bind, complete. rewrite Hout, (proj2 (Z.leb_le 0 n)), (proj2 (Z.leb_le n (size_ b))) by lia.
  cbn [andb]. set (s1 := AsyncFile _ _ _ _ _ None _). destruct ns as [|n2 ns].
  - cbn in Hs. rewrite (operator_last b cond off t total n s1) by lia. by eexists.
  - assert (0 < sum (n2 :: ns)) by (apply Forall_cons in Hns as [? Hns]; cbn; pose proof (sum_nonneg ns Hns); unfold sum in *; lia).
    destruct (operator_next b cond off t total n s1) as (l & Hl & ->); [done|done|lia..|].
    match goal with |- context [deliver _ ?s2] => destruct (IH (Buffer (data_ b + n) (size_ b - n)) (t + n) s2) as (s' & Hd & Hto & Hou & Hby) end;
      try done; cbn [size_]; try lia. by eexists.
Qed.

(** When the system takes an overlapped write at an offset in parts, every part lands at
    the same offset: the client is told the size of its buffer, and the file beyond the
    longest part is as it was. *)
Theorem async_write_overlaps b off cond ns s : opened s = true -> Forall (fun a => a = None) (answers s) ->
  0 <= off -> 0 < size_ b < 4294967296 -> size_ b <= cond -> Forall (fun n => 0 < n) ns -> sum ns = size_ b ->
  exists s', (async_write_at b off cond ;;; deliver ns) s = Ret tt s' /\
    told s' = told s ++ [(0, size_ b)] /\ outstanding s' = None /\
    bytes s' = overlaid (amemory s) (Z.to_nat off) (data_ b) ns (bytes s) /\
    forall i, Forall (fun n => off + n <= Z.of_nat i) ns -> bytes s' !! i = bytes s !! i.
Proof.
  intros Ho Ha Hoff Hb Hc Hns Hs. unfold bind, async_write_at, file_async_write. rewrite Ho, u32_small by lia. cbn [negb].
  assert (exists l, Forall (fun a => a = None) l /\ match answers s with [] => answers s | _ :: l' => l' end = l) as (l & Hl & El).
  { eexists. split; [|done]. destruct Ha; [constructor|done]. }
  destruct (deliver_parts off (size_ b) cond Hoff ltac:(lia) Hc ns b 0
    (AsyncFile (amemory s) (bytes s) true l (last_error s) (Some (b, off, Handler b cond off 0 (size_ b) true)) (told s)))
    as (s' & Hd & Hto & Hou & Hby); try done; try lia.
  exists s'. split.
  - rewrite <- Hd, <- El. destruct s as [m c o [|[e|] l0] e0 r tl]; cbn in *; subst o; try done.
    by apply Forall_cons in Ha as [[=] _].
  - split_and!; try done. intros i Hi. rewrite Hby. apply overlaid_beyond.
    apply Forall_forall. intros n Hin. rewrite Forall_forall in Hi, Hns. specialize (Hi n Hin). specialize (Hns n Hin).
    cbn beta in *. lia.
Qed.

End Async.

(** ** A file of two bytes, and a write in two parts *)

Module Demo.
Import Files.Demo.

(** Five bytes are read from a file of two. *)
Lemma read_at_repeats_witness :
  read_at_post (Buffer 200 5) (available 0 file0) (read_at 32 (transfer_all 32) 7 (Buffer 200 5) 0 file0) /\
  match read_at 32 (transfer_all 32) 7 (Buffer 200 5) 0 file0 with
  | Ret n s => n = 5 /\ load 200 5 (memory s) = [5; 6; 5; 6; 5]
  | _ => False
  end.
Proof.
  split; [|by vm_compute].
  apply (read_at_repeats 32 (transfer_all 32) 7 (Buffer 200 5) 0 file0); [|cbn; lia..].
  intros t Ht. unfold transfer_all. cbn in Ht. lia.
Defined.

Lemma write_at_exact_witness :
  match write_all_at 32 (transfer_all 32) 2 (Buffer 0 3) 1 file0 with
  | Ret n s' => n = 3 /\ memory s' = ones /\ content 7 (disk s') = write_at 1 (load 0 3 ones) (content 7 (disk file0))
  | Throw _ _ => True
  | UB | OutOfFuel => False
  end.
Proof.
  apply (write_at_exact 32 (transfer_all 32) 2 (Buffer 0 3) 1 file0); [|cbn; lia..].
  intros t Ht. unfold transfer_all. cbn in Ht. lia.
Defined.

Definition alphabet : heap := fun x => if (0 <=? x) && (x <? 100) then x + 1 else 0.
Definition open_file : Async.async_file := Async.AsyncFile alphabet [90; 90] true [] 0 None [].

Lemma async_write_overlaps_witness : exists s',
  (Async.async_write_at (Buffer 0 5) 1 4294967295 ;;; Async.deliver [3; 2]) open_file = Ret tt s' /\
  Async.told s' = [(0, 5)] /\ Async.bytes s' = [90; 4; 5; 3].
Proof.
  destruct (Async.async_write_overlaps (Buffer 0 5) 1 4294967295 [3; 2] open_file) as (s' & Hr & Ht & _ & Hb & _);
    [done|constructor|lia|cbn; lia|cbn; lia|repeat constructor|done|].
  exists s'. split; [done|]. split; [by rewrite Ht|]. rewrite Hb. by vm_compute.
Defined.

End Demo.
