(* ===== verification/FileCopy.v ===== *)
(** * Copying a file

    Example/File/File/Impl/FileImpl.h: [file_async_rw], which copies a file block by block,
    each block an asynchronous read and an asynchronous write at [offset_] that start one
    another. The transfers are used by what they are asked for: a read of at least [left]
    bytes at an offset, a write of all of them. *)

From S2P Require Import Prelude Memory.

Section FileCopy.
Context (w : Z) (Hw : 32 <= w <= 64).   (* the bits of size_t *)

(** [round]: up to whole sectors. *)
Definition round (m : Z) : Z := round_up w 9 m.

Definition block : Z := 8192.

(** The operation that is under way. *)
Inductive operation := Reading (len at_least : Z) | Writing (bytes : list Z).

(** [src], [dst]: what the two files hold; [fileSize_] is the size the first had when the
    object was made. *)
Record file_async_rw := Rw {
  src : list Z;
  dst : list Z;
  offset_ : Z;
  fileSize_ : Z;
  op : option operation;
  open_ : bool
}.

Definition set_op o s := Rw (src s) (dst s) (offset_ s) (fileSize_ s) o (open_ s).

Definition stop (s : file_async_rw) : file_async_rw := Rw (src s) (dst s) (offset_ s) (fileSize_ s) (op s) false.

(** [accepted]: the system took the request; otherwise it throws, which is printed. *)
Definition start (accepted : bool) (s : file_async_rw) : file_async_rw :=
  let left := wrap w (Z.min (wrap 64 (fileSize_ s - offset_ s)) block) in
  if left =? 0 then stop s
  else if accepted then set_op (Some (Reading (round left) left)) s else s.

Definition _on_read (error accepted : bool) (bytes : list Z) (s : file_async_rw) : file_async_rw :=
  if error then s else if accepted then set_op (Some (Writing bytes)) s else s.

Definition _on_write (error accepted : bool) (size : Z) (s : file_async_rw) : file_async_rw :=
  if error then s
  else start accepted (Rw (src s) (dst s) (wrap 64 (offset_ s + size)) (fileSize_ s) (op s) (open_ s)).

Definition bytes_at (l : list Z) (p n : nat) : list Z := take n (drop p l).

(** What can happen: the read gives [n] bytes, at least as many as it was asked for, at
    most those of its buffer and of the file, or fails; the write ends or fails; the
    source grows. *)
Inductive event := Read (n : Z) (accepted : bool) | ReadFails | Written (accepted : bool) | WriteFails | Grows (bytes : list Z).

Definition exec (e : event) (s : file_async_rw) : file_async_rw :=
  match e, op s with
  | Read n accepted, Some (Reading len at_least) =>
      let avail := Z.of_nat (length (src s)) - offset_ s in
      if (at_least <=? n) && (n <=? Z.min len avail)
      then _on_read false accepted (bytes_at (src s) (Z.to_nat (offset_ s)) (Z.to_nat n)) (set_op None s)
      else s
  | ReadFails, Some (Reading _ _) => _on_read true true [] (set_op None s)
  | Written accepted, Some (Writing bytes) =>
      let p := Z.to_nat (offset_ s) in
      _on_write false accepted (Z.of_nat (length bytes))
        (Rw (src s) (take p (dst s) ++ bytes ++ drop (p + length bytes) (dst s)) (offset_ s) (fileSize_ s) None (open_ s))
  | WriteFails, Some (Writing _) => _on_write true true 0 (set_op None s)
  | Grows bytes, _ => Rw (src s ++ bytes) (dst s) (offset_ s) (fileSize_ s) (op s) (open_ s)
  | _, _ => s
  end.

Definition run (l : list event) (s : file_async_rw) : file_async_rw := foldl (fun s e => exec e s) s l.

(** The constructor, after which [start] is called. *)
Definition opened (bytes old : list Z) : file_async_rw := Rw bytes old 0 (Z.of_nat (length bytes)) None true.

(** ** A copy is complete *)

Lemma round_bounds left : 0 <= left <= block -> left <= round left <= block /\ round left mod 512 = 0.
Proof.
  intros H. unfold round, block in *. assert (2 ^ 32 <= 2 ^ w) by (apply Z.pow_le_mono_r; lia).
  destruct (round_up_bounds w 9 ltac:(lia) left ltac:(lia) ltac:(lia)) as [H1 H2]. split; [|done]. split; [lia|].
  change (2 ^ 9) with 512 in *. pose proof (Z.div_mod (round_up w 9 left) 512 ltac:(lia)).
  pose proof (Z.div_mod 8192 512 ltac:(lia)) as H5. change (8192 mod 512) with 0 in H5. change (8192 / 512) with 16 in H5. nia.
Qed.

(** The source is as long as [fileSize_]; so far it is copied, and the rest of the other
    file is as it was. *)
Definition copied (bytes old : list Z) (s : file_async_rw) : Prop :=
  src s = bytes /\ fileSize_ s = Z.of_nat (length bytes) /\
  exists k, offset_ s = Z.of_nat k /\ (k <= length bytes)%nat /\ dst s = take k bytes ++ drop k old /\
  match op s with
  | None => open_ s = false -> k = length bytes
  | Some (Reading len want) => open_ s = true /\ want = Z.min (Z.of_nat (length bytes) - Z.of_nat k) block /\ 0 < want /\ want <= len <= block
  | Some (Writing bs) => open_ s = true /\ bs = bytes_at bytes k (length bs) /\ (length bs <> 0)%nat /\ (k + length bs <= length bytes)%nat
  end.

Lemma start_copied bytes old accepted s k : Z.of_nat (length bytes) < 2 ^ 63 -> src s = bytes -> fileSize_ s = Z.of_nat (length bytes) ->
  offset_ s = Z.of_nat k -> (k <= length bytes)%nat -> dst s = take k bytes ++ drop k old -> op s = None -> open_ s = true ->
  copied bytes old (start accepted s) /\
  (k = length bytes -> open_ (start accepted s) = false /\ op (start accepted s) = None) /\
  ((k < length bytes)%nat -> accepted = true -> exists len want, op (start accepted s) = Some (Reading len want)).
Proof.
  intros Hl Hs Hf Ho Hk Hd Hop Hopen. unfold start. rewrite Hf, Ho.
  assert (2 ^ 32 <= 2 ^ w) by (apply Z.pow_le_mono_r; lia).
  rewrite (wrap_small 64) by lia. unfold block. rewrite (wrap_small w) by lia.
  destruct (Z.eqb_spec (Z.min (Z.of_nat (length bytes) - Z.of_nat k) 8192) 0) as [E|E].
  - split; [|split; [done|lia]]. split; [done|]. split; [done|]. exists k. cbn. rewrite Hop. split_and!; try done. intros _. lia.
  - split; [|split; [lia|]].
    + destruct accepted; (split; [done|]; split; [done|]; exists k); cbn; rewrite ?Hop; [|split_and!; try done; intros; congruence].
      split_and!; try done; [lia|apply round_bounds; unfold block; lia..].
    + intros _ ->. by eexists _, _.
Qed.

Lemma copied_next bytes old k bs : bs = bytes_at bytes k (length bs) -> (k + length bs <= length bytes)%nat ->
  take k (take k bytes ++ drop k old) ++ bs ++ drop (k + length bs) (take k bytes ++ drop k old) =
  take (k + length bs) bytes ++ drop (k + length bs) old.
Proof.
  intros Hbs Hl. assert (Hlen : length (take k bytes) = k) by (rewrite length_take; lia).
  assert (Ht : take k (take k bytes ++ drop k old) = take k bytes) by (rewrite take_app_le by lia; apply take_ge; lia).
  assert (Hd : drop (k + length bs) (take k bytes ++ drop k old) = drop (k + length bs) old).
  { rewrite drop_app_ge by lia. rewrite Hlen, drop_drop. f_equal. lia. }
  rewrite Ht, Hd, app_assoc. f_equal. rewrite Hbs at 1. unfold bytes_at. apply take_take_drop.
Qed.

(** Events that are not failures of the system. *)
Definition fine (e : event) : Prop :=
  match e with Read _ a | Written a => a = true | ReadFails | WriteFails | Grows _ => False end.

Lemma exec_copied bytes old e s : Z.of_nat (length bytes) < 2 ^ 63 -> (forall l, e <> Grows l) -> copied bytes old s ->
  copied bytes old (exec e s).
Proof.
  intros Hl He (Hs & Hf & k & Ho & Hk & Hd & Hop). assert (Hid : copied bytes old s) by (split; [done|]; split; [done|]; by exists k).
  destruct e as [n a| |a| |l]; cbn [exec]; [| | | |by destruct (He l)].
  - destruct (op s) as [[len want|bs]|] eqn:E; try done. destruct Hop as (Hopen & Hwant & H0 & Hlen).
    destruct (_ && _) eqn:En; [|done]. apply andb_true_iff in En as [H1 H2]. bool_props. rewrite Hs, Ho in *. unfold _on_read.
    assert (Hblen : length (bytes_at bytes k (Z.to_nat n)) = Z.to_nat n) by (unfold bytes_at; rewrite length_take, length_drop; lia).
    destruct a; (split; [done|]; split; [done|]; exists k; cbn; split_and!; try done; try (intros; congruence)); rewrite ?Nat2Z.id, ?Hblen; done || lia.
  - destruct (op s) as [[len want|bs]|] eqn:E; try done. split; [done|]. split; [done|]. exists k. cbn. split_and!; try done. destruct Hop. intros; congruence.
  - destruct (op s) as [[len want|bs]|] eqn:E; try done. destruct Hop as (Hopen & Hbs & H0 & Hlen). unfold _on_write.
    rewrite Ho, Nat2Z.id. cbn [src dst offset_ fileSize_ op open_].
    eapply start_copied with (k := (k + length bs)%nat); cbn [src dst offset_ fileSize_ op open_]; try done.
    + rewrite wrap_small by lia. lia.
    + rewrite Hd. by apply copied_next.
  - destruct (op s) as [[len want|bs]|] eqn:E; try done. split; [done|]. split; [done|]. exists k. cbn. split_and!; try done. destruct Hop. intros; congruence.
Qed.

Lemma start_opened bytes old accepted : Z.of_nat (length bytes) < 2 ^ 63 -> copied bytes old (start accepted (opened bytes old)).
Proof. intros Hl. destruct (start_copied bytes old accepted (opened bytes old) 0) as [H _]; cbn; try done; lia. Qed.

(** Whatever fails or is refused, the file that is written has a beginning of the source
    followed by what it held before, and when the files are closed the copy is whole. *)
Theorem copy_is_prefix bytes old accepted l : Z.of_nat (length bytes) < 2 ^ 63 -> Forall (fun e => forall g, e <> Grows g) l ->
  let s := run l (start accepted (opened bytes old)) in
  exists k, dst s = take k bytes ++ drop k old /\ (k <= length bytes)%nat /\ (open_ s = false -> k = length bytes).
Proof.
  intros Hl Hg. cbn zeta. assert (H : copied bytes old (run l (start accepted (opened bytes old)))).
  { pose proof (start_opened bytes old accepted Hl) as Hc. revert Hc. generalize (start accepted (opened bytes old)). unfold run.
    induction Hg as [|e l He _ IH]; intros s Hc; [done|]. cbn [foldl]. by apply IH, exec_copied. }
  destruct H as (_ & _ & k & _ & Hk & Hd & Hop). exists k. split; [done|]. split; [done|]. intros Ho.
  destruct (op _) as [[len want|bs]|]; [by destruct Hop as [? _]; congruence..|by apply Hop].
Qed.

(** What the system does when nothing fails and the source stays as it is: the operation
    that is under way ends in the only way it can. *)
Definition next (s : file_async_rw) : file_async_rw :=
  match op s with
  | Some (Reading _ want) => exec (Read want true) s
  | Some (Writing _) => exec (Written true) s
  | None => s
  end.
Fixpoint steps (n : nat) (s : file_async_rw) : file_async_rw := match n with O => s | S n => steps n (next s) end.

Lemma two_steps bytes old s k len want : Z.of_nat (length bytes) < 2 ^ 63 -> copied bytes old s -> offset_ s = Z.of_nat k ->
  op s = Some (Reading len want) ->
  let s2 := next (next s) in let k2 := (k + Z.to_nat want)%nat in
  copied bytes old s2 /\ offset_ s2 = Z.of_nat k2 /\
  (k2 = length bytes -> open_ s2 = false /\ op s2 = None) /\
  ((k2 < length bytes)%nat -> exists len' want', op s2 = Some (Reading len' want')).
Proof.
  intros Hl Hc Ho Hop. cbn zeta.
  assert (H1 : next s = exec (Read want true) s) by (unfold next; by rewrite Hop).
  pose proof Hc as (Hs & Hf & k' & Ho' & Hk & Hd & Hop'). rewrite Hop in Hop'. destruct Hop' as (Hopen & Hwant & H0 & Hlen).
  assert (k' = k) as -> by lia.
  assert (Hb : length (bytes_at bytes k (Z.to_nat want)) = Z.to_nat want) by (unfold bytes_at; rewrite length_take, length_drop; lia).
  assert (H2 : next s = set_op (Some (Writing (bytes_at bytes k (Z.to_nat want)))) s).
  { rewrite H1. cbn [exec]. rewrite Hop, Hs, Ho, (proj2 (Z.leb_le want want)), (proj2 (Z.leb_le _ _)) by lia.
    unfold _on_read. cbn [andb]. by rewrite Nat2Z.id. }
  rewrite H2. unfold next. cbn [op set_op]. cbn [exec op set_op src dst offset_ fileSize_ open_]. unfold _on_write. rewrite Ho, Nat2Z.id, Hb.
  cbn [op set_op src dst offset_ fileSize_ open_].
  rewrite (wrap_small 64) by lia.
  destruct (start_copied bytes old true (Rw (src s) (take k (dst s) ++ bytes_at bytes k (Z.to_nat want) ++ drop (k + Z.to_nat want) (dst s))
    (Z.of_nat k + Z.of_nat (Z.to_nat want)) (fileSize_ s) None (open_ s)) (k + Z.to_nat want)) as (Hc2 & Hend & Hgo); cbn; try done; try lia.
  { rewrite Hd. pose proof (copied_next bytes old k (bytes_at bytes k (Z.to_nat want))) as Hn. rewrite Hb in Hn. apply Hn; [done|lia]. }
  split; [exact Hc2|]. split; [|split; [exact Hend|intros H3; by apply Hgo]].
  unfold start. cbn [offset_ fileSize_]. destruct (_ =? 0); cbn; lia.
Qed.

Lemma finished_steps n s : op s = None -> steps n s = s.
Proof. intros H. induction n as [|n IH]; [done|]. cbn [steps]. unfold next. by rewrite H. Qed.

Lemma blocks_copied bytes old n : Z.of_nat (length bytes) < 2 ^ 63 -> forall s k len want, copied bytes old s -> offset_ s = Z.of_nat k ->
  op s = Some (Reading len want) -> Z.of_nat (length bytes) <= Z.of_nat k + Z.of_nat n * block ->
  let s' := steps (2 * n) s in copied bytes old s' /\ open_ s' = false.
Proof.
  intros Hl. induction n as [|n IH]; intros s k len want Hc Ho Hop Hn; cbn zeta.
  - pose proof Hc as (_ & _ & k' & Ho' & _ & _ & Hop'). rewrite Hop in Hop'. lia.
  - replace (2 * S n)%nat with (S (S (2 * n))) by lia. cbn [steps].
    destruct (two_steps bytes old s k len want Hl Hc Ho Hop) as (Hc2 & Ho2 & Hend & Hgo).
    pose proof Hc as (_ & _ & k' & Ho' & Hk & _ & Hop'). rewrite Hop in Hop'. assert (k' = k) as -> by lia.
    destruct (decide ((k + Z.to_nat want)%nat = length bytes)) as [E|E].
    + destruct (Hend E) as [H1 H2]. rewrite finished_steps by done. done.
    + destruct Hgo as (len' & want' & Hop2); [lia|]. apply (IH _ (k + Z.to_nat want)%nat len' want'); [done..|].
      destruct Hop' as (_ & Hwant & _). unfold block in *. lia.
Qed.

Definition blocks (bytes : list Z) : nat := Z.to_nat ((Z.of_nat (length bytes) + 8191) / 8192).

(** When nothing fails and the source does not change, a read and a write for each
    started block of 8192 bytes copy all of it and close the files. *)
Theorem copy_completes bytes old : Z.of_nat (length bytes) < 2 ^ 63 ->
  let s := steps (2 * blocks bytes) (start true (opened bytes old)) in
  dst s = bytes ++ drop (length bytes) old /\ open_ s = false /\ op s = None.
Proof.
  intros Hl. cbn zeta. set (n := blocks bytes).
  assert (Hn : Z.of_nat (length bytes) <= Z.of_nat n * block).
  { unfold n, blocks, block. pose proof (Z.div_mod (Z.of_nat (length bytes) + 8191) 8192 ltac:(lia)).
    pose proof (Z.mod_pos_bound (Z.of_nat (length bytes) + 8191) 8192 ltac:(lia)). lia. }
  assert (H : let s := steps (2 * n) (start true (opened bytes old)) in copied bytes old s /\ open_ s = false).
  { destruct (start_copied bytes old true (opened bytes old) 0) as (Hc & Hend & Hgo); cbn; try done; try lia.
    destruct (decide (length bytes = 0%nat)) as [E|E].
    - destruct (Hend (eq_sym E)) as [H1 H2]. rewrite finished_steps by done. done.
    - destruct Hgo as (len & want & Hop); [lia|done|]. apply (blocks_copied bytes old n Hl _ 0 len want Hc); [|done|lia].
      unfold start. cbn [opened offset_ fileSize_]. by destruct (_ =? 0). }
  destruct H as [(_ & _ & k & _ & Hk & Hd & Hop) Ho].
  destruct (op _) as [[len want|bs]|]; [by destruct Hop as [? _]; congruence..|].
  rewrite (Hop Ho) in Hd. rewrite firstn_all in Hd. done.
Qed.

(** ** A source that grows *)

(** More than [fileSize_] has been copied. *)
Definition beyond (s : file_async_rw) : Prop :=
  open_ s = true /\ 0 <= fileSize_ s < offset_ s /\ offset_ s <= Z.of_nat (length (src s)) /\
  match op s with Some (Writing bs) => offset_ s + Z.of_nat (length bs) <= Z.of_nat (length (src s)) | _ => True end.

Lemma exec_src e s : exists l, src (exec e s) = src s ++ l.
Proof.
  destruct e; cbn [exec]; repeat case_match; unfold _on_read, _on_write, start;
    repeat case_match; cbn; (by eexists) || (exists []; by rewrite app_nil_r).
Qed.

Lemma run_src l s : Z.of_nat (length (src s)) <= Z.of_nat (length (src (run l s))).
Proof.
  revert s. unfold run. induction l as [|e l IH]; intros s; [cbn; lia|]. cbn [foldl].
  destruct (exec_src e s) as [t Ht]. specialize (IH (exec e s)). rewrite Ht, length_app in IH. lia.
Qed.

Lemma start_beyond accepted s : open_ s = true -> 0 <= fileSize_ s < offset_ s -> offset_ s <= Z.of_nat (length (src s)) ->
  Z.of_nat (length (src s)) < 2 ^ 63 -> op s = None -> beyond (start accepted s).
Proof.
  intros Ho Hf Hl Hb Hop. unfold start. assert (2 ^ 32 <= 2 ^ w) by (apply Z.pow_le_mono_r; lia).
  assert (H64 : wrap 64 (fileSize_ s - offset_ s) = 2 ^ 64 + (fileSize_ s - offset_ s)).
  { unfold wrap. symmetry. apply (Z.mod_unique _ _ (-1)); lia. }
  rewrite H64. unfold block. rewrite Z.min_r by lia. rewrite (wrap_small w) by lia. cbn [Z.eqb].
  destruct accepted; unfold beyond; cbn; rewrite ?Hop; done.
Qed.

Lemma exec_beyond e s : beyond s -> Z.of_nat (length (src (exec e s))) < 2 ^ 63 -> beyond (exec e s).
Proof.
  intros (Ho & Hf & Hl & Hop) Hb. assert (Hid : beyond s) by done.
  destruct e as [n a| |a| |l]; cbn [exec] in *.
  - destruct (op s) as [[len want|bs]|] eqn:E; try done. destruct (_ && _) eqn:En; [|done].
    apply andb_true_iff in En as [H1 H2]. bool_props. unfold _on_read. destruct a; unfold beyond; cbn; [|done].
    split_and!; try done; try lia. unfold bytes_at. rewrite length_take, length_drop. lia.
  - by destruct (op s) as [[len want|bs]|].
  - destruct (op s) as [[len want|bs]|] eqn:E; try done. unfold _on_write in *.
    assert (Hs : Z.of_nat (length (src s)) < 2 ^ 63).
    { unfold start in Hb. destruct (_ =? 0) in Hb; [|destruct a in Hb]; cbn in Hb; done. }
    cbn [offset_ src dst fileSize_ op open_]. rewrite (wrap_small 64) by lia. apply start_beyond; cbn; done || lia.
  - by destruct (op s) as [[len want|bs]|].
  - cbn in Hb. unfold beyond. cbn. rewrite length_app in *. destruct (op s) as [[]|]; split_and!; try done; lia.
Qed.

(** When the last block was read while the source grew, [offset_] goes beyond [fileSize_]:
    their difference wraps, the copy goes on, and whatever happens then the files are
    never closed. *)
Theorem growing_never_closes l s : beyond s -> Z.of_nat (length (src (run l s))) < 2 ^ 63 -> open_ (run l s) = true.
Proof.
  intros Hs Hb. assert (H : beyond (run l s)); [|by destruct H]. revert s Hs Hb. unfold run.
  induction l as [|e l IH]; intros s Hs Hb; [done|]. cbn [foldl] in *. apply IH; [|done]. apply exec_beyond; [done|].
  pose proof (run_src l (exec e s)). unfold run in *. lia.
Qed.

End FileCopy.

Module Demo.

Lemma width : 32 <= 32 <= 64.
Proof. lia. Qed.

Definition source : list Z := [1; 2; 3].

Lemma copy_completes_witness :
  dst (steps 32 (2 * blocks source) (start 32 true (opened source [9; 9; 9; 9]))) = [1; 2; 3; 9].
Proof. exact (proj1 (copy_completes 32 width source [9; 9; 9; 9] ltac:(cbn; lia))). Defined.

Lemma copy_is_prefix_witness :
  exists k, dst (run 32 [Read 3 true; WriteFails] (start 32 true (opened source []))) = take k source ++ drop k [] /\ (k <= length source)%nat.
Proof.
  destruct (copy_is_prefix 32 width source [] true [Read 3 true; WriteFails]) as (k & H1 & H2 & _); [cbn; lia|repeat constructor; done|].
  exists k. exact (conj H1 H2).
Defined.

(** The file grows while its only block is read. *)
Definition grown : file_async_rw := run 32 [Grows [4; 5]; Read 5 true; Written true] (start 32 true (opened source [])).

Lemma growing_never_closes_witness : offset_ grown = 5 /\ fileSize_ grown = 3 /\
  open_ (run 32 [ReadFails; Read 1 true] grown) = true.
Proof.
  split; [by vm_compute|]. split; [by vm_compute|]. apply (growing_never_closes 32 width); [|by vm_compute].
  unfold beyond. split; [by vm_compute|]. split; [split; [by vm_compute|by vm_compute]|]. split; [by vm_compute|by vm_compute].
Defined.

End Demo.
