(* ===== verification/AsyncTransfer.v ===== *)
(** * Asynchronous transfers

    include/async_io/service/async_result.hpp, read.hpp and write.hpp (the handlers
    [read_handler_t] and [write_handler_t], [async_read], [async_write]), and the
    requests of socket.hpp. A transfer is a chain of requests: each completion,
    delivered inline when the request succeeds at once or by the dispatcher when it
    was pending, starts the next request or calls the client's handler. *)

From S2P Require Import Prelude Memory Buffers.

(** ** State *)

(** What the system answers to a request. *)
Inductive answer : Type :=
| Done (n : Z)          (* 0: completed at once, with n bytes *)
| IoPending             (* WSA_IO_PENDING: a completion will be delivered *)
| Failed (error : Z).   (* any other error *)

(** [read_handler_t] and [write_handler_t]. [handler_]: the client's handler is
    still here, and has not been moved into the next object of the chain.
    [condition_]: what [condition_()] answers. *)
Record transfer_handler := Handler {
  buffer_ : buffer_t;
  condition_ : Z;
  transfers_ : Z;
  total_ : Z;
  handler_ : bool
}.

(** [pending]: the callback object released to the system, with its request;
    [alive]: the callback objects that exist; [completions]: the calls of the
    client's handler. *)
Record state := State {
  amem : heap;
  arriving : list Z;
  given : list Z;
  answers : list answer;
  last_error : Z;
  pending : option (transfer_handler * buffer_t);
  alive : Z;
  completions : list (Z * Z)
}.

Definition set_pending (p : option (transfer_handler * buffer_t)) (s : state) : state :=
  State (amem s) (arriving s) (given s) (answers s) (last_error s) p (alive s) (completions s).
Definition set_alive (n : Z) (s : state) : state :=
  State (amem s) (arriving s) (given s) (answers s) (last_error s) (pending s) n (completions s).
Definition set_answers (l : list answer) (err : Z) (s : state) : state :=
  State (amem s) (arriving s) (given s) l err (pending s) (alive s) (completions s).
Definition set_completions (l : list (Z * Z)) (s : state) : state :=
  State (amem s) (arriving s) (given s) (answers s) (last_error s) (pending s) (alive s) l.

(** The system moves up to [n] bytes: into the buffer, as far as bytes have
    arrived, or from it to the peer. *)
Definition recv_size (n : Z) (b : buffer_t) (s : state) : Z :=
  Z.max 0 (Z.min n (Z.min (size_ b) (Z.of_nat (length (arriving s))))).
Definition receive (n : Z) (b : buffer_t) (s : state) : state :=
  let k := Z.to_nat (recv_size n b s) in
  State (store (data_ b) (take k (arriving s)) (amem s)) (drop k (arriving s)) (given s)
    (answers s) (last_error s) (pending s) (alive s) (completions s).

Definition send_size (n : Z) (b : buffer_t) : Z := Z.max 0 (Z.min n (size_ b)).
Definition transmit (n : Z) (b : buffer_t) (s : state) : state :=
  State (amem s) (arriving s) (given s ++ load (data_ b) (Z.to_nat (send_size n b)) (amem s))
    (answers s) (last_error s) (pending s) (alive s) (completions s).

(** ** Callback objects *)

Definition make_async_callback : prog state unit := fun s => Ret tt (set_alive (alive s + 1) s).
Definition deallocate : prog state unit := fun s => Ret tt (set_alive (alive s - 1) s).

(** [unique_ptr]: the object is freed on every way out. *)
Definition guarded (m : prog state unit) : prog state unit := fun s =>
  match m s with
  | Ret _ s' => deallocate s'
  | Throw e s' => Throw e (set_alive (alive s' - 1) s')
  | r => r
  end.

(** A call of the client's handler. In an object it was moved out of it is whatever
    the move has left, an empty [std::function] or a null pointer: calling it is
    undefined here. *)
Definition call_handler (h : transfer_handler) (error size : Z) : prog state unit := fun s =>
  if handler_ h then Ret tt (set_completions (completions s ++ [(error, size)]) s) else UB.

Definition moved (h : transfer_handler) : transfer_handler :=
  Handler (buffer_ h) (condition_ h) (transfers_ h) (total_ h) false.

(** [e.code()]: [io_error], or the system's last error. *)
Definition code_of (e : exn) (s : state) : Z :=
  match e with network_exception => 5 | _ => last_error s end.

(** [catch(::exception::exception_base &e)]. *)
Definition is_exception_base (e : exn) : bool :=
  match e with network_exception | win32_exception | base_exception => true | _ => false end.

(** ** Reading *)

(** [read_handler_t::operator()]; [async_read] is the stream's. *)
Definition read_operator (async_read : buffer_t -> transfer_handler -> prog state unit)
    (h : transfer_handler) (error size : Z) : prog state unit :=
  let transfers := u32 (transfers_ h + size) in
  let left := u32 (total_ h - transfers) in
  let finish (h : transfer_handler) (error : Z) :=
    call_handler h error (if size =? 0 then 0 else transfers) in
  if (transfers <? total_ h) && negb (size =? 0) && (error =? 0) then
    if transfers <? condition_ h then
      let read_len := if MAX_BUFFER_LEN <? left then MAX_BUFFER_LEN else left in
      fun s =>
        match mutable_plus (buffer_ h) transfers s with
        | Throw e s' => if is_exception_base e then finish h (code_of e s') s' else Throw e s'
        | Ret b s' =>
            let mutable_buf := Buffer (data_ b) (u32 read_len) in
            let this_val := Handler (buffer_ h) (condition_ h) transfers (total_ h) (handler_ h) in
            match async_read mutable_buf this_val s' with
            | Throw e s'' =>
                if is_exception_base e then finish (moved h) (code_of e s'') s'' else Throw e s''
            | r => r
            end
        | UB => UB
        | OutOfFuel => OutOfFuel
        end
    else finish h error
  else finish h error.

(** [socket_handle_t::async_read] with [read_handler_t] as the callback. The fuel
    bounds the depth of the inline completions. *)
Fixpoint socket_async_read (fuel : nat) (buf : buffer_t) (callback : transfer_handler) : prog state unit :=
  match fuel with
  | O => diverge
  | S f => make_async_callback ;;; fun s =>
      match answers s with
      | Failed error :: l =>
          guarded (throw win32_exception) (set_answers l error s)
      | Done n :: l =>
          let s' := set_answers l (last_error s) s in
          guarded (read_operator (socket_async_read f) callback 0 (recv_size n buf s'))
                  (receive n buf s')
      | IoPending :: l => Ret tt (set_pending (Some (callback, buf)) (set_answers l (last_error s) s))
      | [] => Ret tt (set_pending (Some (callback, buf)) s)
      end
  end.

(** [service::async_read]. *)
Definition async_read (fuel : nat) (buf : buffer_t) (condition : Z) : prog state unit :=
  let hook_handler := Handler buf condition 0 (u32 (size_ buf)) true in
  socket_async_read fuel (buffer_ hook_handler) hook_handler.

(** The dispatcher's [call] for the completion of the pending request, with up to
    [n] bytes and a status. *)
Definition complete_read (fuel : nat) (n error : Z) : prog state unit := fun s =>
  match pending s with
  | None => UB
  | Some (h, buf) =>
      let s' := set_pending None s in
      guarded (read_operator (socket_async_read fuel) h error (recv_size n buf s')) (receive n buf s')
  end.

(** ** Writing *)

Definition write_operator (async_write : buffer_t -> transfer_handler -> prog state unit)
    (h : transfer_handler) (error size : Z) : prog state unit :=
  let transfers := u32 (transfers_ h + size) in
  let left := u32 (total_ h - transfers) in
  if (transfers <? total_ h) && negb (size =? 0) && (error =? 0) then
    if transfers <? condition_ h then
      let write_len := if MAX_BUFFER_LEN <? left then MAX_BUFFER_LEN else left in
      fun s =>
        match const_plus (buffer_ h) transfers s with
        | Throw e s' =>
            if is_exception_base e then call_handler h (code_of e s') transfers s' else Throw e s'
        | Ret b s' =>
            let const_buf := Buffer (data_ b) (u32 write_len) in
            let this_val := Handler (buffer_ h) (condition_ h) transfers (total_ h) (handler_ h) in
            match async_write const_buf this_val s' with
            | Throw e s'' =>
                if is_exception_base e
                then call_handler (moved h) (code_of e s'') transfers s'' else Throw e s''
            | r => r
            end
        | UB => UB
        | OutOfFuel => OutOfFuel
        end
    else call_handler h error transfers
  else call_handler h error transfers.

Fixpoint socket_async_write (fuel : nat) (buf : buffer_t) (callback : transfer_handler) : prog state unit :=
  match fuel with
  | O => diverge
  | S f => make_async_callback ;;; fun s =>
      match answers s with
      | Failed error :: l =>
          guarded (throw win32_exception) (set_answers l error s)
      | Done n :: l =>
          let s' := set_answers l (last_error s) s in
          guarded (write_operator (socket_async_write f) callback 0 (send_size n buf))
                  (transmit n buf s')
      | IoPending :: l => Ret tt (set_pending (Some (callback, buf)) (set_answers l (last_error s) s))
      | [] => Ret tt (set_pending (Some (callback, buf)) s)
      end
  end.

Definition async_write (fuel : nat) (buf : buffer_t) (condition : Z) : prog state unit :=
  socket_async_write fuel buf (Handler buf condition 0 (u32 (size_ buf)) true).

Definition complete_write (fuel : nat) (n error : Z) : prog state unit := fun s =>
  match pending s with
  | None => UB
  | Some (h, buf) =>
      let s' := set_pending None s in
      guarded (write_operator (socket_async_write fuel) h error (send_size n buf)) (transmit n buf s')
  end.

(** ** Completions in sequence

    The system delivers completions until the transfer has ended. *)
Fixpoint deliver (complete : Z -> Z -> prog state unit) (events : list (Z * Z)) : prog state unit :=
  match events with
  | [] => ret tt
  | (n, error) :: events' => fun s =>
      match pending s with
      | None => Ret tt s
      | Some _ => (complete n error ;;; deliver complete events') s
      end
  end.

(** ** Chains of requests

    What reading and writing share: [operator] is the completion handler, [moved_by]
    the bytes a request moves, [move] their effect. *)

Section Chain.
Context (operator : (buffer_t -> transfer_handler -> prog state unit) ->
                    transfer_handler -> Z -> Z -> prog state unit).
Context (moved_by : Z -> buffer_t -> state -> Z) (move : Z -> buffer_t -> state -> state).

Fixpoint socket_async (fuel : nat) (buf : buffer_t) (callback : transfer_handler) : prog state unit :=
  match fuel with
  | O => diverge
  | S f => make_async_callback ;;; fun s =>
      match answers s with
      | Failed error :: l =>
          guarded (throw win32_exception) (set_answers l error s)
      | Done n :: l =>
          let s' := set_answers l (last_error s) s in
          guarded (operator (socket_async f) callback 0 (moved_by n buf s')) (move n buf s')
      | IoPending :: l => Ret tt (set_pending (Some (callback, buf)) (set_answers l (last_error s) s))
      | [] => Ret tt (set_pending (Some (callback, buf)) s)
      end
  end.

Definition complete (fuel : nat) (n error : Z) : prog state unit := fun s =>
  match pending s with
  | None => UB
  | Some (h, buf) =>
      let s' := set_pending None s in
      guarded (operator (socket_async fuel) h error (moved_by n buf s')) (move n buf s')
  end.

(* the state before, the client's buffer, and the answer of its condition *)
Context (s0 : state) (b : buffer_t) (c : Z) (Hb : 0 < size_ b < 4294967296).
Notation total := (size_ b).

(* [got t]: t bytes have been moved, and nothing else; [final]: what the client's
   handler may be told; [ok_n]: with how many bytes a request may complete at once;
   [ok_e]: with how many bytes and which error a pending one may; [good]: what the
   completion handler is told then *)
Context (got : nat -> state -> Prop) (final : Z -> Z -> nat -> Prop) (ok_n : Z -> Prop).
Context (ok_e good : Z -> Z -> Prop).

Definition ok_answer (a : answer) : Prop :=
  match a with Done n => ok_n n | IoPending => True | Failed _ => False end.

(** A request for the rest of the buffer, or a part of it, is out. *)
Definition running (t : nat) (s : state) : Prop :=
  exists len, pending s = Some (Handler b c (Z.of_nat t) total true,
                                Buffer (data_ b + Z.of_nat t) len) /\
    0 < len <= total - Z.of_nat t /\ got t s /\ completions s = completions s0.

(** The handler was called, once. *)
Definition finished (s : state) : Prop :=
  pending s = None /\
  exists error n t, completions s = completions s0 ++ [(error, n)] /\
    Z.of_nat t <= total /\ got t s /\ final error n t.

Definition chain_post (m : nat) (a : Z) (t : nat) (r : outcome state unit) : Prop :=
  match r with
  | Ret _ s' => (Forall ok_answer (answers s') /\ (length (answers s') <= m)%nat) /\
      ((exists t', (t <= t')%nat /\ running t' s' /\ alive s' = a + 1) \/
       (finished s' /\ alive s' = a))
  | _ => False
  end.

(** What a request finds. *)
Definition ready (t : nat) (s : state) : Prop :=
  got t s /\ completions s = completions s0 /\ pending s = None /\ Forall ok_answer (answers s).

(** What the next request of a chain does. *)
Definition next_ok (as_next : buffer_t -> transfer_handler -> prog state unit)
    (t m : nat) (a : Z) (s : state) : Prop := forall t' len s',
  ready t' s' -> 0 < len <= total - Z.of_nat t' -> (t < t')%nat ->
  answers s' = answers s -> alive s' = a ->
  chain_post m a t' (as_next (Buffer (data_ b + Z.of_nat t') len)
                             (Handler b c (Z.of_nat t') total true) s').

Class ChainLaws : Prop := {
  got_frame t s s' : got t s -> amem s' = amem s -> arriving s' = arriving s ->
    given s' = given s -> got t s';
  move_frame n buf s : pending (move n buf s) = pending s /\ answers (move n buf s) = answers s /\
    alive (move n buf s) = alive s /\ completions (move n buf s) = completions s;
  ok_at_once n : ok_n n -> ok_e n 0;
  move_ok t len n error s : got t s -> ok_e n error -> 0 < len -> Z.of_nat t + len <= total ->
    let buf := Buffer (data_ b + Z.of_nat t) len in let k := moved_by n buf s in
    got (t + Z.to_nat k) (move n buf s) /\ 0 <= k <= len /\ good k error;
  operator_ok as_next t error size m a s : next_ok as_next t m a s ->
    ready (t + Z.to_nat size) s -> 0 <= size <= total - Z.of_nat t -> good size error ->
    alive s = a -> (length (answers s) <= m)%nat ->
    chain_post m a (S t) (operator as_next (Handler b c (Z.of_nat t) total true) error size s)
}.
Context `{!ChainLaws}.

(** A completion with the handler of an object of the chain. *)
Lemma invoke_ok as_next t error n len m a s : got t s -> completions s = completions s0 ->
  pending s = None -> Forall ok_answer (answers s) -> ok_e n error -> 0 < len <= total - Z.of_nat t ->
  alive s = a + 1 -> (length (answers s) <= m)%nat ->
  (forall s', answers s' = answers s -> next_ok as_next t m (a + 1) s') ->
  let buf := Buffer (data_ b + Z.of_nat t) len in
  chain_post m a (S t)
    (guarded (operator as_next (Handler b c (Z.of_nat t) total true) error (moved_by n buf s))
             (move n buf s)).
Proof.
  intros Hg Hc Hp Ha Hn Hlen Hal Hm Hnext buf.
  destruct (move_ok t len n error s Hg Hn) as (Hg2 & Hk & Hgood); [lia|lia|].
  destruct (move_frame n buf s) as (Fp & Fa & Fal & Fc). fold buf in Hg2, Hk, Hgood.
  assert (Hready : ready (t + Z.to_nat (moved_by n buf s)) (move n buf s))
    by (split_and!; [done|congruence|congruence|by rewrite Fa]).
  pose proof (operator_ok as_next t error (moved_by n buf s) m (a + 1) (move n buf s)
    (Hnext _ Fa) Hready ltac:(lia) Hgood ltac:(lia) ltac:(by rewrite Fa)) as Hop.
  unfold guarded. destruct (operator _ _ _ _ _) as [[] s3|e s3| |]; try done.
  destruct Hop as [Ha3 [(t' & Ht' & Hr & Hal')|[Hfin Hal']]]; (split; [done|]); [left|right].
  - exists t'. split; [done|]. split; [|cbn; lia]. destruct Hr as (l & ? & ? & Hgot & ?).
    exists l. split_and!; try done; try lia. by apply (got_frame _ s3).
  - split; [|cbn; lia]. destruct Hfin as (? & err & n' & t' & ? & ? & Hgot & ?).
    split; [done|]. exists err, n', t'. split_and!; try done. by apply (got_frame _ s3).
Qed.

(** A request, and the inline completions that follow it. *)
Lemma socket_async_ok f t len s : ready t s -> 0 < len <= total - Z.of_nat t ->
  (length (answers s) < f)%nat ->
  chain_post (length (answers s)) (alive s) t
    (socket_async f (Buffer (data_ b + Z.of_nat t) len) (Handler b c (Z.of_nat t) total true) s).
Proof.
  revert t len s. induction f as [|f IH]; intros t len s (Hg & Hc & Hp & Ha) Hlen Hf; [lia|].
  cbn [socket_async]. unfold bind, make_async_callback.
  assert (Hpend : forall s', Forall ok_answer (answers s') ->
    (length (answers s') <= length (answers s))%nat -> got t s' -> completions s' = completions s0 ->
    alive s' = alive s + 1 -> chain_post (length (answers s)) (alive s) t
    (Ret tt (set_pending (Some (Handler b c (Z.of_nat t) total true,
       Buffer (data_ b + Z.of_nat t) len)) s'))).
  { intros s' Ha' Hl' Hg' Hc' Hal'. split; [done|left]. exists t. split; [lia|split; [|done]].
    exists len. split_and!; try done; try lia. by apply (got_frame _ s'). }
  cbn [answers set_alive last_error]. destruct (answers s) as [|x l] eqn:Eans.
  - apply Hpend; cbn; rewrite ?Eans; try done. by apply (got_frame _ s).
  - inversion Ha as [|? ? Hx Hl]; subst. destruct x as [n| |]; [| |done].
    + pose proof (invoke_ok (socket_async f) t 0 n len (length l) (alive s)
        (set_answers l (last_error s) (set_alive (alive s + 1) s))) as Hinv.
      assert (Hpost : chain_post (length l) (alive s) (S t) (guarded
        (operator (socket_async f) (Handler b c (Z.of_nat t) total true) 0
          (moved_by n (Buffer (data_ b + Z.of_nat t) len)
             (set_answers l (last_error s) (set_alive (alive s + 1) s))))
        (move n (Buffer (data_ b + Z.of_nat t) len)
          (set_answers l (last_error s) (set_alive (alive s + 1) s))))).
      { apply Hinv; try done; [by apply (got_frame _ s)|by apply ok_at_once|].
        intros s' Hs' t' len' s'' Hr Hl' _ Ha' Hal'. cbn in Hs'.
        specialize (IH t' len' s'' Hr Hl'). rewrite Ha', Hal', Hs' in IH. apply IH.
        cbn in Hf. lia. }
      destruct (guarded _ _) as [[] s3|e s3| |]; try done.
      destruct Hpost as [[Ha3 Hm3] [(t' & Ht' & Hr)|Hfin]]; (split; [split; [done|cbn; lia]|]);
        [left|by right]. exists t'. split; [lia|done].
    + apply Hpend; cbn; try done; [lia|by apply (got_frame _ s)].
Qed.

(** One completion ends the transfer or brings it on by at least one byte. *)
Lemma complete_ok f t n error s : running t s -> Forall ok_answer (answers s) -> ok_e n error ->
  (length (answers s) < f)%nat ->
  chain_post (length (answers s)) (alive s - 1) (S t) (complete f n error s).
Proof.
  intros (len & Hp & Hlen & Hg & Hc) Ha Hn Hf. unfold complete. rewrite Hp.
  apply invoke_ok; try done; [by apply (got_frame _ s)|cbn; lia|].
  intros s' Hs' t' len' s'' Hr Hl' _ Ha' Hal'. cbn in Hs'.
  pose proof (socket_async_ok f t' len' s'' Hr Hl') as IH.
  rewrite Ha', Hal', Hs' in IH. by apply IH.
Qed.

Lemma deliver_none f events s : pending s = None -> deliver (complete f) events s = Ret tt s.
Proof. intros Hp. destruct events as [|[n e] ev]; [done|]. cbn. by rewrite Hp. Qed.

Lemma deliver_ok f events t s : running t s -> Forall ok_answer (answers s) ->
  Forall (fun e => ok_e e.1 e.2) events -> (length (answers s) < f)%nat -> alive s = alive s0 + 1 ->
  match deliver (complete f) events s with
  | Ret _ s' =>
      (Forall ok_answer (answers s') /\ (length (answers s') <= length (answers s))%nat) /\
      ((exists t', (t + length events <= t')%nat /\ running t' s' /\ alive s' = alive s0 + 1) \/
       (finished s' /\ alive s' = alive s0))
  | _ => False
  end.
Proof.
  intros Hr Ha Hev. revert t s Hr Ha.
  induction Hev as [|[n error] events Hn Hev IH]; intros t s Hr Ha Hf Hal; cbn [deliver].
  - split; [done|]. left. exists t. split; [cbn; lia|done].
  - pose proof Hr as (len & Hp & _). rewrite Hp. unfold bind.
    pose proof (complete_ok f t n error s Hr Ha Hn Hf) as Hc.
    destruct (complete f n error s) as [[] s1|e s1| |]; try done.
    destruct Hc as [[Ha1 Hm1] [(t' & Ht' & Hr1 & Hal1)|[Hfin Hal1]]].
    + specialize (IH t' s1 Hr1 Ha1 ltac:(lia) ltac:(lia)).
      destruct (deliver _ _ s1) as [[] s2|e s2| |]; try done.
      destruct IH as [[Ha2 Hm2] IH]. split; [split; [done|lia]|].
      destruct IH as [(t2 & Ht2 & Hr2)|?]; [left|by right]. exists t2. split; [cbn; lia|done].
    + rewrite deliver_none by apply Hfin. split; [split; [done|lia]|]. right. split; [done|lia].
Qed.

(** What the client sees of a transfer it has started. *)
Definition chain_outcome (events : list (Z * Z)) (r : outcome state unit) : Prop :=
  match r with
  | Ret _ s' =>
      ((exists t, running t s' /\ alive s' = alive s0 + 1) \/
       (finished s' /\ alive s' = alive s0)) /\
      (total <= Z.of_nat (length events) -> finished s')
  | _ => False
  end.

(** The answers that are left after a transfer. *)
Definition answers_left (r : outcome state unit) : Prop :=
  match r with
  | Ret _ s' => Forall ok_answer (answers s') /\ (length (answers s') <= length (answers s0))%nat
  | _ => False
  end.

Lemma chain_full fuel events : got 0 s0 -> pending s0 = None -> Forall ok_answer (answers s0) ->
  Forall (fun e => ok_e e.1 e.2) events -> (length (answers s0) < fuel)%nat ->
  let r := (socket_async fuel b (Handler b c 0 (u32 total) true) ;;; deliver (complete fuel) events) s0 in
  chain_outcome events r /\ answers_left r.
Proof.
  intros Hg Hp Ha Hev Hf.
  pose proof (socket_async_ok fuel 0 total s0 ltac:(done) ltac:(lia) Hf) as Hr.
  unfold bind. rewrite u32_small by lia.
  rewrite Z.add_0_r in Hr. replace (Buffer (data_ b) total) with b in Hr by (by destruct b).
  change (Z.of_nat 0) with 0 in Hr.
  destruct (socket_async fuel b (Handler b c 0 total true) s0) as [[] s1|e s1| |]; try done.
  destruct Hr as [[Ha1 Hm1] [(t & _ & Hr & Hal)|[Hfin Hal]]].
  - pose proof (deliver_ok fuel events t s1 Hr Ha1 Hev ltac:(lia) Hal) as Hd. cbn zeta.
    unfold chain_outcome. destruct (deliver _ _ s1) as [[] s2|e s2| |]; try done.
    destruct Hd as [[Ha2 Hm2] Hd]. split; [|split; [done|lia]].
    destruct Hd as [(t' & Ht' & Hr' & Hal')|Hfin]; [|split; [by right|intros; apply Hfin]].
    split; [left; by exists t'|]. intros Hle. destruct Hr' as (len & _ & Hlen & _). lia.
  - cbn zeta. rewrite deliver_none by apply Hfin. split; [split; [by right|done]|done].
Qed.

End Chain.


(** ** The read chain *)

Section ReadChain.
Context (s0 : state) (b : buffer_t) (c : Z) (Hb : 0 < size_ b < 4294967296).
Notation total := (size_ b).

(** The first [k] bytes that arrived are in the buffer, and nothing else has
    changed. *)
Definition read_got (k : nat) (s : state) : Prop :=
  (k <= length (arriving s0))%nat /\
  (forall x, amem s x = store (data_ b) (take k (arriving s0)) (amem s0) x) /\
  arriving s = drop k (arriving s0) /\ given s = given s0.

(** Without an error, the client is told 0, the end of the stream, or at least what
    its condition asks for. *)
Definition read_final (error n : Z) (t : nat) : Prop :=
  (n = 0 \/ n = Z.of_nat t) /\ (error = 0 -> n <> 0 -> Z.min c total <= n).

Lemma read_operator_ok ok_n as_read t error size m a s :
  next_ok s0 b c read_got read_final ok_n as_read t m a s ->
  ready s0 read_got ok_n (t + Z.to_nat size) s ->
  0 <= size <= total - Z.of_nat t -> alive s = a -> (length (answers s) <= m)%nat ->
  chain_post s0 b c read_got read_final ok_n m a (S t)
    (read_operator as_read (Handler b c (Z.of_nat t) total true) error size s).
Proof.
  intros Hnext (Hg & Hc & Hp & Ha) Hs Hal Hm. unfold read_operator.
  cbn [transfers_ total_ buffer_ condition_ handler_].
  rewrite (u32_small (Z.of_nat t + size)), (u32_small (total - _)) by lia.
  assert (Hfin : forall err, (err = 0 -> size <> 0 -> Z.min c total <= Z.of_nat t + size) ->
    chain_post s0 b c read_got read_final ok_n m a (S t)
      (call_handler (Handler b c (Z.of_nat t) total true) err
         (if size =? 0 then 0 else Z.of_nat t + size) s)).
  { intros err He. cbn. split; [done|right]. split; [|done]. split; [done|].
    exists err, (if size =? 0 then 0 else Z.of_nat t + size), (t + Z.to_nat size)%nat.
    split_and!; [by rewrite Hc|lia|done|].
    unfold read_final. destruct (size =? 0) eqn:E; bool_props; (split; [lia|]); [done|].
    intros Herr _. by apply He. }
  destruct ((_ <? total) && _ && _) eqn:E.
  - apply andb_true_iff in E as [E E3]. apply andb_true_iff in E as [E1 E2]. bool_props.
    destruct (_ <? c) eqn:Ec; bool_props; [|apply Hfin; lia].
    unfold mutable_plus. rewrite (proj2 (Z.ltb_ge _ _)) by lia. unfold ret. cbn [data_].
    set (len := if MAX_BUFFER_LEN <? _ then _ else _).
    assert (Hlen : 0 < len <= total - (Z.of_nat t + size)).
    { unfold len. destruct (_ <? _) eqn:El; bool_props; unfold MAX_BUFFER_LEN in *; lia. }
    rewrite (u32_small len) by lia.
    replace (Z.of_nat t + size) with (Z.of_nat (t + Z.to_nat size)) in * by lia.
    specialize (Hnext (t + Z.to_nat size)%nat len s ltac:(done) Hlen ltac:(lia) eq_refl Hal).
    destruct (as_read _ _ s) as [[] s1|e s1| |]; try done.
    destruct Hnext as [Ha1 [(t' & Ht' & Hr & Hal1)|Hf]]; split; try done; [left|by right].
    exists t'. split; [lia|done].
  - apply Hfin. intros Herr Hne.
    destruct (Z.of_nat t + size <? total) eqn:El, (size =? 0) eqn:E0, (error =? 0) eqn:E4;
      try done; clear E; bool_props; lia.
Qed.

#[local] Instance read_laws ok_n : ChainLaws read_operator recv_size receive s0 b c read_got read_final
  ok_n (fun _ _ => True) (fun _ _ => True).
Proof.
  split.
  - intros t s s' (? & Hm & ? & ?) E1 E2 E3. unfold read_got. rewrite E1, E2, E3. by split_and!.
  - done.
  - done.
  - intros t len n error s (Hk & Hm & Hi & Hg) _ H0 Hlen. unfold receive, recv_size. cbn [size_ data_].
    rewrite Hi, length_drop.
    set (k := Z.max 0 (Z.min n (Z.min len (Z.of_nat (length (arriving s0) - t))))).
    split; [|lia]. split_and!; [lia| |cbn; by rewrite drop_drop|done].
    intros x. cbn [amem].
    assert (Hl : length (take t (arriving s0)) = t) by (rewrite length_take; lia).
    rewrite <- Hl at 1. rewrite <- take_take_drop, <- store_app, !Hl. by apply store_ext.
  - intros as_next t error size m a s Hn Hr Hs _. by apply read_operator_ok.
Qed.

Lemma async_read_core ok_n fuel events : pending s0 = None ->
  Forall (ok_answer ok_n) (answers s0) -> (length (answers s0) < fuel)%nat ->
  let r := (async_read fuel b c ;;; deliver (complete_read fuel) events) s0 in
  chain_outcome s0 b c read_got read_final events r /\ answers_left s0 ok_n r.
Proof.
  intros Hp Ha Hf.
  refine (chain_full read_operator recv_size receive s0 b c Hb read_got read_final ok_n
    (fun _ _ => True) (fun _ _ => True) fuel events _ Hp Ha _ Hf); [|by apply Forall_true].
  unfold read_got. split_and!; [lia| |by rewrite drop_0|done].
  intros x. by rewrite take_0, store_nil.
Qed.

(** [C15] An asynchronous read calls the client's handler at most once, and exactly
    once after at most as many completions as the buffer has bytes, however the
    system splits the data and mixes immediate and pending completions. The bytes
    are in the buffer in order and nothing else is written; without an error the
    handler is told at least the condition's minimum (all of the buffer for
    [transfer_all]) or 0, the end of the stream; and every callback object is freed.
    (The system refuses none of the requests: see [first_request_fails] and
    [later_request_fails].) *)
Theorem async_read_once fuel events : pending s0 = None ->
  Forall (ok_answer (fun _ => True)) (answers s0) -> (length (answers s0) < fuel)%nat ->
  chain_outcome s0 b c read_got read_final events
    ((async_read fuel b c ;;; deliver (complete_read fuel) events) s0).
Proof. intros Hp Ha Hf. by apply (async_read_core (fun _ => True)). Qed.

End ReadChain.

(** ** The write chain *)

Section WriteChain.
Context (s0 : state) (b : buffer_t) (c : Z) (Hb : 0 < size_ b < 4294967296).
Notation total := (size_ b).

(** The first [k] bytes of the buffer have been given to the peer. *)
Definition write_got (k : nat) (s : state) : Prop :=
  given s = given s0 ++ load (data_ b) k (amem s0) /\ amem s = amem s0 /\
  arriving s = arriving s0.

Definition write_final (error n : Z) (t : nat) : Prop :=
  n = Z.of_nat t /\ (error = 0 -> Z.min c total <= n).

Notation positive := (fun n : Z => 0 < n).

(** A request that succeeds moves at least one byte; one that fails may move some. *)
Notation moves := (fun n error : Z => error = 0 -> 0 < n).

Lemma write_operator_ok as_write t error size m a s :
  next_ok s0 b c write_got write_final positive as_write t m a s ->
  ready s0 write_got positive (t + Z.to_nat size) s ->
  0 <= size <= total - Z.of_nat t -> (error = 0 -> 0 < size) -> alive s = a -> (length (answers s) <= m)%nat ->
  chain_post s0 b c write_got write_final positive m a (S t)
    (write_operator as_write (Handler b c (Z.of_nat t) total true) error size s).
Proof.
  intros Hnext (Hg & Hc & Hp & Ha) Hs Hpos Hal Hm. unfold write_operator.
  cbn [transfers_ total_ buffer_ condition_ handler_].
  rewrite (u32_small (Z.of_nat t + size)), (u32_small (total - _)) by lia.
  assert (Hfin : forall err, (err = 0 -> Z.min c total <= Z.of_nat t + size) ->
    chain_post s0 b c write_got write_final positive m a (S t)
      (call_handler (Handler b c (Z.of_nat t) total true) err (Z.of_nat t + size) s)).
  { intros err He. cbn. split; [done|right]. split; [|done]. split; [done|].
    exists err, (Z.of_nat t + size), (t + Z.to_nat size)%nat.
    split_and!; [by rewrite Hc|lia|done|]. split; [lia|]. intros Herr. by apply He. }
  destruct ((_ <? total) && _ && _) eqn:E.
  - apply andb_true_iff in E as [E E3]. apply andb_true_iff in E as [E1 E2]. bool_props.
    destruct (_ <? c) eqn:Ec; bool_props; [|apply Hfin; lia].
    unfold const_plus. rewrite (proj2 (Z.ltb_ge _ _)) by lia. unfold ret. cbn [data_].
    set (len := if MAX_BUFFER_LEN <? _ then _ else _).
    assert (Hlen : 0 < len <= total - (Z.of_nat t + size)).
    { unfold len. destruct (_ <? _) eqn:El; bool_props; unfold MAX_BUFFER_LEN in *; lia. }
    rewrite (u32_small len) by lia.
    replace (Z.of_nat t + size) with (Z.of_nat (t + Z.to_nat size)) in * by lia.
    specialize (Hnext (t + Z.to_nat size)%nat len s ltac:(done) Hlen ltac:(lia) eq_refl Hal).
    destruct (as_write _ _ s) as [[] s1|e s1| |]; try done.
    destruct Hnext as [Ha1 [(t' & Ht' & Hr & Hal1)|Hf]]; split; try done; [left|by right].
    exists t'. split; [lia|done].
  - apply Hfin. intros Herr.
    destruct (Z.of_nat t + size <? total) eqn:El, (size =? 0) eqn:E0, (error =? 0) eqn:E4;
      try done; clear E; bool_props; lia.
Qed.

#[local] Instance write_laws : ChainLaws write_operator (fun n b _ => send_size n b) transmit s0 b c
  write_got write_final positive moves moves.
Proof.
  split.
  - intros t s s' (? & ? & ?) E1 E2 E3. unfold write_got. rewrite E1, E2, E3. by split_and!.
  - done.
  - done.
  - intros t len n error s (Hg & Hm & Hi) Hn H0 Hlen. unfold transmit, send_size. cbn [size_ data_].
    split; [|cbn; lia]. unfold write_got. cbn [given amem arriving].
    by rewrite Hg, Hm, load_app, <- app_assoc.
  - intros as_next t error size m a s Hn Hr Hs ?. by apply write_operator_ok.
Qed.

Lemma async_write_core fuel events : pending s0 = None ->
  Forall (ok_answer positive) (answers s0) -> Forall (fun e => e.2 = 0 -> 0 < e.1) events ->
  (length (answers s0) < fuel)%nat ->
  let r := (async_write fuel b c ;;; deliver (complete_write fuel) events) s0 in
  chain_outcome s0 b c write_got write_final events r /\ answers_left s0 positive r.
Proof.
  intros Hp Ha He Hf.
  refine (chain_full write_operator (fun n b _ => send_size n b) transmit s0 b c Hb write_got
    write_final positive moves moves fuel events _ Hp Ha He Hf).
  unfold write_got. by rewrite app_nil_r.
Qed.

(** [C16] An asynchronous write calls the client's handler at most once, and exactly
    once after at most as many completions as the buffer has bytes: the peer is
    given a prefix of the buffer, in order and once, of the length the handler is
    told, which without an error is at least the condition's minimum; and every
    callback object is freed. The system refuses none of the requests (see
    [first_request_fails] and [later_request_fails]), and a request that succeeds
    sends at least one byte; one that fails may send none. *)
Theorem async_write_once fuel events : pending s0 = None ->
  Forall (ok_answer positive) (answers s0) -> Forall (fun e => e.2 = 0 -> 0 < e.1) events ->
  (length (answers s0) < fuel)%nat ->
  chain_outcome s0 b c write_got write_final events
    ((async_write fuel b c ;;; deliver (complete_write fuel) events) s0).
Proof. intros Hp Ha He Hf. by apply async_write_core. Qed.

End WriteChain.

(** ** Requests that fail at once *)

Lemma make_deallocate_same s l e :
  set_alive (alive s + 1 - 1) (set_answers l e (set_alive (alive s + 1) s)) = set_answers l e s.
Proof. destruct s. unfold set_alive, set_answers. cbn. f_equal. lia. Qed.

Lemma socket_async_read_failed f buf h e l s : answers s = Failed e :: l ->
  socket_async_read (S f) buf h s = Throw win32_exception (set_answers l e s).
Proof.
  intros E. cbn [socket_async_read]. unfold bind, make_async_callback. cbn [answers set_alive].
  rewrite E. unfold guarded, throw. f_equal. apply make_deallocate_same.
Qed.

Lemma socket_async_write_failed f buf h e l s : answers s = Failed e :: l ->
  socket_async_write (S f) buf h s = Throw win32_exception (set_answers l e s).
Proof.
  intros E. cbn [socket_async_write]. unfold bind, make_async_callback. cbn [answers set_alive].
  rewrite E. unfold guarded, throw. f_equal. apply make_deallocate_same.
Qed.

(** When the system refuses the first request, the call throws to its client,
    the callback object is freed and the handler is never called. *)
Theorem first_request_fails f buf c e l s : answers s = Failed e :: l ->
  async_read (S f) buf c s = Throw win32_exception (set_answers l e s) /\
  async_write (S f) buf c s = Throw win32_exception (set_answers l e s).
Proof.
  intros E. unfold async_read, async_write.
  by rewrite (socket_async_read_failed _ _ _ e l), (socket_async_write_failed _ _ _ e l).
Qed.

Lemma read_operator_continues f h k e l s :
  let t := u32 (transfers_ h + k) in
  0 < k -> t < total_ h -> t < condition_ h -> t <= size_ (buffer_ h) ->
  answers s = Failed e :: l -> read_operator (socket_async_read (S f)) h 0 k s = UB.
Proof.
  intros t Hk Ht Hc Hb E. unfold read_operator. fold t.
  rewrite (proj2 (Z.ltb_lt _ _) Ht), (proj2 (Z.eqb_neq k 0)), (proj2 (Z.ltb_lt _ _) Hc) by lia.
  cbn [andb negb Z.eqb]. unfold mutable_plus. rewrite (proj2 (Z.ltb_ge _ _) Hb).
  unfold ret. by rewrite (socket_async_read_failed _ _ _ e l).
Qed.

Lemma write_operator_continues f h k e l s :
  let t := u32 (transfers_ h + k) in
  0 < k -> t < total_ h -> t < condition_ h -> t <= size_ (buffer_ h) ->
  answers s = Failed e :: l -> write_operator (socket_async_write (S f)) h 0 k s = UB.
Proof.
  intros t Hk Ht Hc Hb E. unfold write_operator. fold t.
  rewrite (proj2 (Z.ltb_lt _ _) Ht), (proj2 (Z.eqb_neq k 0)), (proj2 (Z.ltb_lt _ _) Hc) by lia.
  cbn [andb negb Z.eqb]. unfold const_plus. rewrite (proj2 (Z.ltb_ge _ _) Hb).
  unfold ret. by rewrite (socket_async_write_failed _ _ _ e l).
Qed.

(** When the system refuses a later request of a chain, the completion handler
    catches the exception and calls the client's handler, which it has already moved
    into the request's callback object, now freed. *)
Theorem later_request_fails f h buf n e l s : pending s = Some (h, buf) ->
  answers s = Failed e :: l -> total_ h <= size_ (buffer_ h) ->
  (let k := recv_size n buf s in let t := u32 (transfers_ h + k) in
   0 < k -> t < total_ h -> t < condition_ h -> complete_read (S f) n 0 s = UB) /\
  (let k := send_size n buf in let t := u32 (transfers_ h + k) in
   0 < k -> t < total_ h -> t < condition_ h -> complete_write (S f) n 0 s = UB).
Proof.
  intros Hp E Hb. unfold complete_read, complete_write, guarded. rewrite Hp.
  split; intros Hk Ht Hc.
  - by rewrite (read_operator_continues f h (recv_size n buf s) e l) by first [done | lia].
  - by rewrite (write_operator_continues f h (send_size n buf) e l) by first [done | lia].
Qed.

(** ** Witnesses *)

Module Demo.

(** A 20-byte buffer at 100, and 30 bytes on the way. *)
Definition b : buffer_t := Buffer 100 20.
Definition bytes : list Z := map (fun n => 65 + Z.of_nat n) (seq 0 30).
Definition start (l : list answer) : state := State (fun _ => 0) bytes [] l 0 None 0 [].

Lemma async_read_once_witness :
  chain_outcome (start [Done 4; IoPending]) b 20 (read_got (start [Done 4; IoPending]) b)
    (read_final b 20) [(7, 0); (30, 0)]
    ((async_read 3 b 20 ;;; deliver (complete_read 3) [(7, 0); (30, 0)]) (start [Done 4; IoPending]))
  /\ match (async_read 3 b 20 ;;; deliver (complete_read 3) [(7, 0); (30, 0)]) (start [Done 4; IoPending]) with
     | Ret _ s => completions s = [(0, 20)] /\ load 100 20 (amem s) = take 20 bytes /\ alive s = 0
     | _ => False
     end.
Proof.
  split; [|vm_compute; done].
  apply (async_read_once (start [Done 4; IoPending]) b 20 ltac:(cbn; lia) 3 [(7, 0); (30, 0)]);
    [done|repeat constructor|cbn; lia].
Defined.

(** One write that succeeds, and one that fails without sending anything more. *)
Lemma async_write_once_witness :
  chain_outcome (start [Done 4]) b 20 (write_got (start [Done 4]) b) (write_final b 20) [(7, 0); (0, 64)]
    ((async_write 3 b 20 ;;; deliver (complete_write 3) [(7, 0); (0, 64)]) (start [Done 4]))
  /\ match (async_write 3 b 20 ;;; deliver (complete_write 3) [(7, 0); (0, 64)]) (start [Done 4]) with
     | Ret _ s => completions s = [(64, 11)] /\ length (given s) = 11%nat /\ alive s = 0
     | _ => False
     end.
Proof.
  split; [|vm_compute; done].
  apply (async_write_once (start [Done 4]) b 20 ltac:(cbn; lia) 3 [(7, 0); (0, 64)]);
    [done|repeat constructor|repeat constructor; cbn; lia|cbn; lia].
Defined.

Lemma first_request_fails_witness :
  async_read 1 b 20 (start [Failed 10054]) = Throw win32_exception (set_answers [] 10054 (start [Failed 10054]))
  /\ async_write 1 b 20 (start [Failed 10054]) = Throw win32_exception (set_answers [] 10054 (start [Failed 10054])).
Proof. by apply (first_request_fails 0 b 20 10054 []). Defined.

(** Four bytes arrive, and the next request meets a closed connection. *)
Definition underway : state :=
  set_pending (Some (Handler b 20 0 20 true, Buffer 100 20)) (start [Failed 10054]).

Lemma later_request_fails_witness :
  complete_read 1 4 0 underway = UB /\ complete_write 1 4 0 underway = UB.
Proof.
  destruct (later_request_fails 0 (Handler b 20 0 20 true) (Buffer 100 20) 4 10054 [] underway)
    as [Hr Hw]; [done|done|cbn; lia|].
  split; [apply Hr|apply Hw]; by vm_compute.
Defined.

End Demo.
