(* ===== verification/Gather.v ===== *)
(** * Sending several buffers at once

    include/async_io/service/multi_buffer.hpp, the buffers of const_buffer_t in
    read_write_buffer.hpp, and the third [async_write] of include/async_io/network/
    socket.hpp, which hands all its arguments to one WSASend. The callback objects and
    the answers of the system are those of AsyncTransfer.v. *)

From S2P Require Import Prelude Memory Buffers AsyncTransfer.

(** An argument of [async_write]: a value of a POD type, a [std::vector] or
    [std::array] of POD elements, or a [std::string]. *)
Inductive arg : Type :=
| Pod (address sizeof : Z)
| Vector (address count sizeof : Z)
| String (address length : Z)
| Const (buffer : const_buffer_t).

Definition buffer (a : arg) : const_buffer_t :=
  match a with
  | Pod p n => Buffer p n
  | Vector p count n => Buffer p (count * n)
  | String p n => Buffer p n
  | Const b => b
  end.

(** A WSABUF is the buffer it names; its length is an ULONG. *)
Fixpoint unpack (args : list arg) : list const_buffer_t :=
  match args with
  | [] => []
  | val :: args' =>
      let buffer_val := buffer val in
      Buffer (data_ buffer_val) (u32 (size_ buffer_val)) :: unpack args'
  end.

(** [requested]: the buffers of the request the system has, with its callback object;
    [told]: the calls of the client's handler, with the error and the size. *)
Record gather_state := Gathering {
  gmem : heap;
  gsent : list Z;
  ganswers : list answer;
  requested : option (list const_buffer_t);
  callbacks : Z;
  told : list (Z * Z)
}.

(** What the buffers hold. *)
Definition gathered (m : heap) (buffers : list const_buffer_t) : list Z :=
  concat (map (fun b => load (data_ b) (Z.to_nat (size_ b)) m) buffers).

(** The system sends up to [n] bytes of the buffers, and [invoke] calls the handler; the
    callback object is freed. *)
Definition sent_and_told (n error : Z) (buffers : list const_buffer_t) (callbacks' : Z) (s : gather_state) : gather_state :=
  let bytes := take (Z.to_nat n) (gathered (gmem s) buffers) in
  Gathering (gmem s) (gsent s ++ bytes) (ganswers s) None (callbacks' - 1) (told s ++ [(error, Z.of_nat (length bytes))]).

Definition gather_async_write (args : list arg) : prog gather_state unit := fun s =>
  let buffers := unpack args in
  match ganswers s with
  | Failed error :: l => Throw win32_exception (Gathering (gmem s) (gsent s) l (requested s) (callbacks s + 1 - 1) (told s))
  | Done n :: l => Ret tt (sent_and_told n 0 buffers (callbacks s + 1) (Gathering (gmem s) (gsent s) l (requested s) (callbacks s) (told s)))
  | IoPending :: l => Ret tt (Gathering (gmem s) (gsent s) l (Some buffers) (callbacks s + 1) (told s))
  | [] => Ret tt (Gathering (gmem s) (gsent s) [] (Some buffers) (callbacks s + 1) (told s))
  end.

(** The completion of a request that was pending: the system has read the buffers by
    then, not before. *)
Definition gather_complete (n error : Z) : prog gather_state unit := fun s =>
  match requested s with
  | None => UB
  | Some buffers => Ret tt (sent_and_told n error buffers (callbacks s) s)
  end.

Definition fits (a : arg) : Prop := 0 <= size_ (buffer a) < 4294967296.
Definition bytes_of (m : heap) (args : list arg) : list Z :=
  concat (map (fun a => load (data_ (buffer a)) (Z.to_nat (size_ (buffer a))) m) args).

Lemma gathered_unpack m args : Forall fits args -> gathered m (unpack args) = bytes_of m args.
Proof.
  induction 1 as [|a args Ha _ IH]; [done|]. unfold gathered, bytes_of in *. cbn [unpack map concat data_ size_].
  rewrite u32_small by apply Ha. by rewrite IH.
Qed.

Definition with_memory (m : heap) (s : gather_state) : gather_state :=
  Gathering m (gsent s) (ganswers s) (requested s) (callbacks s) (told s).

(** The handler was told of [n] bytes at most, the beginning of [bytes], in order. *)
Definition sent_once (bytes : list Z) (n error : Z) (s s' : gather_state) : Prop :=
  gsent s' = gsent s ++ take (Z.to_nat n) bytes /\ requested s' = None /\ callbacks s' = callbacks s /\
  told s' = told s ++ [(error, Z.of_nat (length (take (Z.to_nat n) bytes)))].

(** A request for several buffers: refused, it throws and frees its callback object;
    completed at once, the peer has the bytes of the arguments one after the other. A
    pending request sends what the memory of the arguments holds when the system gets to
    it, which need not be what they held when the call returned: the call does not keep
    its arguments. A request that is taken in part is not continued. *)
Theorem gather_sends args s : Forall fits args ->
  match ganswers s with
  | Failed _ :: _ => exists s', gather_async_write args s = Throw win32_exception s' /\
      gsent s' = gsent s /\ callbacks s' = callbacks s /\ told s' = told s
  | Done n :: _ => exists s', gather_async_write args s = Ret tt s' /\ sent_once (bytes_of (gmem s) args) n 0 s s'
  | _ => forall m n error, exists s1 s2, gather_async_write args s = Ret tt s1 /\
      gsent s1 = gsent s /\ told s1 = told s /\
      gather_complete n error (with_memory m s1) = Ret tt s2 /\ sent_once (bytes_of m args) n error s s2
  end.
Proof.
  intros Hf. unfold gather_async_write, gather_complete, sent_and_told, sent_once.
  destruct (ganswers s) as [|[n| |e] l]; cbn [requested with_memory gmem gsent callbacks told ganswers].
  - intros m n error. do 2 eexists. split; [done|]. cbn [gsent told requested with_memory]. split_and!; try done; cbn [gsent told callbacks requested gmem]; rewrite ?gathered_unpack by done; first [done|lia].
  - eexists. rewrite gathered_unpack by done. split_and!; try done. cbn. lia.
  - intros m n error. do 2 eexists. split; [done|]. cbn [gsent told requested with_memory]. split_and!; try done; cbn [gsent told callbacks requested gmem]; rewrite ?gathered_unpack by done; first [done|lia].
  - eexists. split_and!; try done. cbn. lia.
Qed.

Module Demo.

Definition memory : heap := fun x => if (10 <=? x) && (x <? 30) then x else 0.
(** The frame of the caller has been overwritten. *)
Definition later : heap := fun _ => 7.
Definition start (l : list answer) : gather_state := Gathering memory [] l None 0 [].

Lemma gather_sends_witness : exists s', gather_async_write [Pod 10 3; Vector 20 2 2] (start [Done 5]) = Ret tt s' /\
  gsent s' = [10; 11; 12; 20; 21] /\ callbacks s' = 0 /\ told s' = [(0, 5)].
Proof.
  destruct (gather_sends [Pod 10 3; Vector 20 2 2] (start [Done 5])) as (s' & Hr & Hg & _ & Hc & Ht);
    [repeat constructor; cbn; lia|].
  exists s'. split; [done|]. split_and!; [by rewrite Hg; vm_compute|done|by rewrite Ht; vm_compute].
Defined.

(** The local variable was gone when the system read it. *)
Example sent_late : exists s1 s2, gather_async_write [Pod 10 3] (start [IoPending]) = Ret tt s1 /\
  gather_complete 3 0 (with_memory later s1) = Ret tt s2 /\ gsent s2 = [7; 7; 7].
Proof. do 2 eexists. split; [reflexivity|]. by split. Qed.

End Demo.
