(* ===== verification/Connecting.v ===== *)
(** * Accepting, connecting and disconnecting

    The overlapped requests of include/async_io/network/socket.hpp that carry no data,
    with the callback objects of accept.hpp and connect.hpp. A socket that [open] made
    has FILE_SKIP_COMPLETION_PORT_ON_SUCCESS: a request that completes at once queues
    nothing. *)

From S2P Require Import Prelude.

(** What AcceptEx, ConnectEx and DisconnectEx answer. *)
Inductive answer : Type :=
| Success
| IoPending
| Failed.

Inductive request : Type := Accept | Connect | Disconnect.

(** [skip_]: the mode of [open]. [pending]: the callback objects the system has; [alive]:
    how many exist; [calls]: the calls of the clients' handlers, with their error;
    [contexts]: how often the context of the listening or connected socket was copied. *)
Record state : Type := State {
  opened : bool;
  skip_ : bool;
  pending : list request;
  alive : nat;
  calls : list (request * Z);
  contexts : nat
}.

Definition set_alive (n : nat) (s : state) : state := State (opened s) (skip_ s) (pending s) n (calls s) (contexts s).
Definition set_pending (l : list request) (s : state) : state := State (opened s) (skip_ s) l (alive s) (calls s) (contexts s).

(** A callback object is made, the call of the system, and the object is released to
    the system or freed with the exception. *)
Definition post (r : request) (a : answer) : prog state unit := fun s =>
  let s1 := set_alive (S (alive s)) s in
  match a with
  | Failed => Throw win32_exception (set_alive (alive s) s1)
  | IoPending => Ret tt (set_pending (pending s1 ++ [r]) s1)
  | Success => Ret tt (if skip_ s1 then s1 else set_pending (pending s1 ++ [r]) s1)
  end.

Definition async_accept (a : answer) : prog state unit := fun s =>
  if opened s then post Accept a s else Throw network_exception s.

(** [bound]: whether the socket could be bound to an address of the system's choice. *)
Definition async_connect (bound : bool) (a : answer) : prog state unit := fun s =>
  if opened s then if bound then post Connect a s else Throw win32_exception s
  else Throw network_exception s.

Definition async_disconnect (a : answer) : prog state unit := post Disconnect a.

(** [operator()] of the hooks: the options of the socket, then the client's handler. *)
Definition accept_operator (error : Z) (s : state) : state :=
  State (opened s) (skip_ s) (pending s) (alive s) (calls s ++ [(Accept, error)]) (S (contexts s)).
Definition connect_operator (error : Z) (s : state) : state :=
  State (opened s) (skip_ s) (pending s) (alive s) (calls s ++ [(Connect, error)]) (S (contexts s)).
Definition plain_operator (error : Z) (s : state) : state :=
  State (opened s) (skip_ s) (pending s) (alive s) (calls s ++ [(Disconnect, error)]) (contexts s).

Definition operator (r : request) : Z -> state -> state :=
  match r with Accept => accept_operator | Connect => connect_operator | Disconnect => plain_operator end.

(** The dispatcher has the completion of the [i]-th pending request. *)
Definition complete (i : nat) (error : Z) : prog state unit := fun s =>
  match pending s !! i with
  | None => Ret tt s
  | Some r =>
      let s1 := operator r error (set_pending (delete i (pending s)) s) in
      Ret tt (set_alive (alive s1 - 1) s1)
  end.

(** ** Sequences of requests and completions *)

Inductive event : Type :=
| EAccept (a : answer)
| EConnect (bound : bool) (a : answer)
| EDisconnect (a : answer)
| EComplete (i : nat) (error : Z).

Definition exec (e : event) : prog state unit :=
  match e with
  | EAccept a => async_accept a
  | EConnect bound a => async_connect bound a
  | EDisconnect a => async_disconnect a
  | EComplete i error => complete i error
  end.

(** The client goes on after an exception: the state, and how many requests were
    taken. *)
Fixpoint run (l : list event) (s : state) : state * nat :=
  match l with
  | [] => (s, 0%nat)
  | e :: l' =>
      match exec e s with
      | Ret _ s' => let '(t, n) := run l' s' in (t, match e with EComplete _ _ => n | _ => S n end)
      | Throw _ s' => run l' s'
      | _ => (s, 0%nat)
      end
  end.

(** The requests of a sequence that complete at once. *)
Definition at_once (e : event) : bool :=
  match e with EAccept Success | EConnect _ Success | EDisconnect Success => true | _ => false end.

(** Every object that exists is pending or lost. *)
Record accounted (taken lost : nat) (s : state) : Prop := {
  ac_alive : alive s = (length (pending s) + lost)%nat;
  ac_taken : (length (calls s) + length (pending s) + lost = taken)%nat
}.

Lemma post_accounted r a taken lost s : accounted taken lost s -> skip_ s = true ->
  match post r a s with
  | Ret _ s' => accounted (S taken) (match a with Success => S lost | _ => lost end) s' /\ skip_ s' = true /\ opened s' = opened s
  | Throw _ s' => accounted taken lost s' /\ skip_ s' = true /\ opened s' = opened s
  | _ => False
  end.
Proof.
  intros [Ha Ht] Hs. unfold post. destruct a; cbn; rewrite ?Hs; cbn; (split; [|done]); split; cbn;
    rewrite ?length_app; cbn; lia.
Qed.

Lemma complete_accounted i error taken lost s : accounted taken lost s ->
  exists s', complete i error s = Ret tt s' /\ accounted taken lost s' /\ skip_ s' = skip_ s /\ opened s' = opened s /\
    (is_Some (pending s !! i) -> S (length (pending s')) = length (pending s)).
Proof.
  intros [Ha Ht]. unfold complete. destruct (pending s !! i) as [r|] eqn:E.
  2: exists s; split_and!; try done; by intros [? ?].
  assert (Hl : length (delete i (pending s)) = (length (pending s) - 1)%nat) by (apply length_delete; by exists r).
  pose proof (lookup_lt_Some _ _ _ E). eexists. split; [done|]. destruct r; cbn; (split; [split|]);
    cbn; rewrite ?length_app, ?Hl; cbn; try lia; split_and!; try done; lia.
Qed.

Lemma requests_accounted l : forall taken lost s, accounted taken lost s -> skip_ s = true ->
  (forall e, e ∈ l -> at_once e = false) ->
  accounted (taken + (run l s).2) lost (run l s).1 /\ skip_ (run l s).1 = true.
Proof.
  induction l as [|e l IH]; intros taken lost s I Hs Hl; cbn [run]; [by rewrite Nat.add_0_r|].
  assert (Hl' : forall e, e ∈ l -> at_once e = false) by set_solver.
  assert (He : at_once e = false) by set_solver.
  assert (Hpost : forall r a, match a with Success => False | _ => True end ->
    match post r a s with
    | Ret _ s' => accounted (taken + S (run l s').2) lost (run l s').1 /\ skip_ (run l s').1 = true
    | Throw _ s' => accounted (taken + (run l s').2) lost (run l s').1 /\ skip_ (run l s').1 = true
    | _ => False
    end).
  { intros r a Ha. pose proof (post_accounted r a taken lost s I Hs) as Hp.
    destruct (post r a s) as [[] s'|x s'| |]; try done; destruct Hp as (I' & Hs' & _); destruct a; try done.
    all: destruct (IH _ _ s' I' Hs' Hl') as [? ?]; by rewrite ?Nat.add_succ_r. }
  assert (Hthrow : accounted (taken + (run l s).2) lost (run l s).1 /\ skip_ (run l s).1 = true) by by apply IH.
  destruct e as [a|bound a|a|i error]; cbn [exec].
  - unfold async_accept. destruct (opened s); [|done]. specialize (Hpost Accept a ltac:(by destruct a)).
    destruct (post Accept a s) as [[] s'| | |]; try done. by destruct (run l s').
  - unfold async_connect. destruct (opened s); [|done]. destruct bound; [|done]. specialize (Hpost Connect a ltac:(by destruct a)).
    destruct (post Connect a s) as [[] s'| | |]; try done. by destruct (run l s').
  - unfold async_disconnect. specialize (Hpost Disconnect a ltac:(by destruct a)).
    destruct (post Disconnect a s) as [[] s'| | |]; try done. by destruct (run l s').
  - destruct (complete_accounted i error taken lost s I) as (s' & -> & I' & Hs' & _).
    destruct (IH taken lost s' I' ltac:(congruence) Hl') as [? ?]. by destruct (run l s').
Qed.

Definition fresh : state := State true true [] 0 [] 0.

(** While the system leaves every request pending or refuses it, each request that was
    taken is pending or its handler was called, once; every callback object that exists
    is pending; and completing what is pending calls the rest. *)
Theorem requests_handled_once l : (forall e, e ∈ l -> at_once e = false) ->
  let '(s, taken) := run l fresh in
  (length (calls s) + length (pending s) = taken)%nat /\ alive s = length (pending s) /\
  forall error, let '(s', more) := run (replicate (length (pending s)) (EComplete 0 error)) s in
    pending s' = [] /\ length (calls s') = taken /\ alive s' = 0%nat.
Proof.
  intros Hl. assert (I0 : accounted 0 0 fresh) by done.
  destruct (requests_accounted l 0 0 fresh I0 eq_refl Hl) as [I Hs].
  destruct (run l fresh) as [s taken]. cbn in I, Hs. pose proof I as [Ha Ht].
  split_and!; [lia|lia|]. intros error.
  assert (Hdrain : forall k s, length (pending s) = k -> accounted taken 0 s ->
    exists s' more, run (replicate k (EComplete 0 error)) s = (s', more) /\ accounted taken 0 s' /\ pending s' = []).
  { intros k. induction k as [|k IH]; intros s2 Hk I2; cbn [replicate run exec].
    - apply nil_length_inv in Hk. by exists s2, 0%nat.
    - destruct (complete_accounted 0 error taken 0 s2 I2) as (s3 & -> & I3 & _ & _ & Hlen).
      destruct (IH s3) as (s4 & more & -> & I4 & E4); [|done|by exists s4, more].
      assert (is_Some (pending s2 !! 0%nat)) as H3%Hlen by (apply lookup_lt_is_Some; lia). lia. }
  destruct (Hdrain _ s eq_refl I) as (s' & more & -> & [Ha' Ht'] & E). rewrite E in *. cbn in *. split_and!; [done|lia|lia].
Qed.

Lemma completions_take l : forall s, (forall e, e ∈ l -> exists i x, e = EComplete i x) -> (run l s).2 = 0%nat.
Proof.
  induction l as [|e l IH]; intros s Hl; cbn [run]; [done|].
  destruct (Hl e) as (i & x & ->); [set_solver|]. cbn [exec]. unfold complete.
  assert (Hl' : forall e, e ∈ l -> exists i x, e = EComplete i x) by set_solver.
  destruct (pending s !! i) as [r|]; match goal with |- context [run l ?u] => specialize (IH u Hl'); by destruct (run l u) end.
Qed.

(** A request that completes at once is lost: the call returns, no completion is queued
    and none of the handlers is called, whatever follows, and the callback object stays
    allocated. *)
Theorem at_once_lost e l s taken : accounted taken 0 s -> opened s = true -> skip_ s = true ->
  at_once e = true -> (forall b a, e = EConnect b a -> b = true) -> (forall e', e' ∈ l -> exists i x, e' = EComplete i x) ->
  exists s1, exec e s = Ret tt s1 /\ calls s1 = calls s /\ pending s1 = pending s /\
    (length (calls (run l s1).1) <= taken)%nat /\ (1 <= alive (run l s1).1)%nat.
Proof.
  intros I Ho Hs He Hb Hl.
  assert (Hex : exists r, exec e s = post r Success s).
  { destruct e as [[]|b []|[]|]; try done; cbn [exec].
    - exists Accept. unfold async_accept. by rewrite Ho.
    - exists Connect. unfold async_connect. by rewrite Ho, (Hb b Success).
    - by exists Disconnect. }
  destruct Hex as [r ->]. pose proof (post_accounted r Success taken 0 s I Hs) as Hp.
  unfold post in *. cbn in *. rewrite Hs in *. eexists. split; [done|]. split_and!; [done|done| |].
  all: destruct Hp as (I1 & Hs1 & _); destruct (requests_accounted l _ _ _ I1 Hs1) as [[Ha' Ht'] _];
    [intros e' (i & x & ->)%Hl; done|]; rewrite (completions_take l _ Hl) in Ht'; lia.
Qed.

Module Demo.
Lemma requests_handled_once_witness :
  let '(s, taken) := run [EAccept IoPending; EConnect true Failed; EComplete 0 0; EAccept IoPending; EDisconnect IoPending] fresh in
  (length (calls s) + length (pending s) = taken)%nat /\ alive s = length (pending s) /\
  forall error, let '(s', more) := run (replicate (length (pending s)) (EComplete 0 error)) s in
    pending s' = [] /\ length (calls s') = taken /\ alive s' = 0%nat.
Proof.
  apply (requests_handled_once [EAccept IoPending; EConnect true Failed; EComplete 0 0; EAccept IoPending; EDisconnect IoPending]).
  intros e He. repeat (apply elem_of_cons in He as [-> |He]; [done|]). by apply elem_of_nil in He.
Defined.

Lemma at_once_lost_witness : exists s1, exec (EAccept Success) fresh = Ret tt s1 /\ calls s1 = [] /\ pending s1 = [] /\
  (length (calls (run [EComplete 0 0] s1).1) <= 0)%nat /\ (1 <= alive (run [EComplete 0 0] s1).1)%nat.
Proof.
  apply (at_once_lost (EAccept Success) [EComplete 0 0] fresh 0); try done.
  intros e' ->%list_elem_of_singleton. by do 2 eexists.
Defined.
End Demo.
