(* ===== verification/SocketOption.v ===== *)
(** * Socket options

    include/async_io/network/socket_option.hpp and the calls of socket.hpp that take
    options: [set_option], [get_option] and [io_control]. The option calls of Winsock are
    an interface; an option is the bytes behind its [data()]. *)

From S2P Require Import Prelude.

(** ** The options *)

Class SocketOption (T : Type) : Type := {
  level : T -> Z;
  name : T -> Z;
  data : T -> list Z;
  (* writing through [data()] *)
  with_data : T -> list Z -> T;
  resize : nat -> prog T unit
}.

(** The fields keep their ranges, and the bytes determine them. *)
Class OptionLaws (T : Type) `{SocketOption T} : Type := {
  wf : T -> Prop;
  same_kind : T -> T -> Prop;
  with_data_data t t' : wf t' -> same_kind t t' -> with_data t (data t') = t';
  resize_same t : resize (length (data t)) t = Ret tt t
}.

Section Integers.
Context (_Level _Name : Z).

(** [boolean_t]: an [int] of 0 or 1. Its [resize] does not compile. *)
Record boolean_t : Type := Boolean { boolean_value_ : Z }.
Definition boolean (val : bool) : boolean_t := Boolean (if val then 1 else 0).
Definition boolean_value (t : boolean_t) : bool := negb (boolean_value_ t =? 0).
Definition boolean_not (t : boolean_t) : bool := boolean_value_ t =? 0.
Definition boolean_data (t : boolean_t) : list Z := le_bytes 4 (u32 (boolean_value_ t)).

(** [integer_t]: its [value()] answers a [bool]. *)
Record integer_t : Type := Integer { integer_value_ : Z }.
Definition integer_value (t : integer_t) : bool := negb (integer_value_ t =? 0).

#[export] Instance integer_option : SocketOption integer_t := {
  level _ := _Level;
  name _ := _Name;
  data t := le_bytes 4 (u32 (integer_value_ t));
  with_data t l := Integer (s32 (le_value (l ++ drop (length l) (le_bytes 4 (u32 (integer_value_ t))))));
  resize n t := if (n =? 4)%nat then Ret tt t else Throw network_exception t
}.

#[export] Instance integer_laws : OptionLaws integer_t.
Proof.
  refine {| wf t := -2147483648 <= integer_value_ t < 2147483648; same_kind _ _ := True |}.
  - intros t [v] Hv _. cbn [data with_data integer_option integer_value_] in *.
    rewrite length_le_bytes, drop_ge by by rewrite length_le_bytes. rewrite app_nil_r, le_value_bytes_4 by apply u32_range.
    f_equal. unfold s32, wrap. rewrite Zplus_mod_idemp_l, Z.mod_small by lia. lia.
  - done.
Defined.
End Integers.

Definition SOL_SOCKET : Z := 65535.
Definition SO_LINGER : Z := 128.

(** [linger]: two fields of 16 bits. *)
Record linger : Type := Linger { l_onoff : Z; l_linger : Z }.
Definition linger_off : linger := Linger 0 0.
Definition set_enabled (val : bool) (t : linger) : linger := Linger (if val then 1 else 0) (l_linger t).
Definition enabled (t : linger) : bool := negb (l_onoff t =? 0).
Definition set_timeout (val : Z) (t : linger) : linger := Linger (l_onoff t) (wrap 16 val).
Definition timeout (t : linger) : Z := l_linger t.

(** The constructor; what it does not set is indeterminate before. *)
Definition make_linger (indeterminate : linger) (bOn : bool) (nTime : Z) : linger :=
  set_timeout nTime (set_enabled bOn indeterminate).

#[export] Instance linger_option : SocketOption linger := {
  level _ := SOL_SOCKET;
  name _ := SO_LINGER;
  data t := le_bytes 2 (l_onoff t) ++ le_bytes 2 (l_linger t);
  with_data t l :=
    let l' := l ++ drop (length l) (le_bytes 2 (l_onoff t) ++ le_bytes 2 (l_linger t)) in
    Linger (le_value (take 2 l')) (le_value (take 2 (drop 2 l')));
  resize n t := if (n =? 4)%nat then Ret tt t else Throw network_exception t
}.

#[export] Instance linger_laws : OptionLaws linger.
Proof.
  refine {| wf t := 0 <= l_onoff t < 65536 /\ 0 <= l_linger t < 65536; same_kind _ _ := True |}.
  - intros t [a b] [Ha Hb] _. cbn [data with_data linger_option l_onoff l_linger] in *.
    rewrite drop_ge, app_nil_r by (rewrite !length_app, !length_le_bytes; lia).
    rewrite take_app_length', drop_app_length', take_ge by by rewrite length_le_bytes.
    by rewrite !le_value_bytes_small by (change (2 ^ (8 * Z.of_nat 2)) with 65536; lia).
  - done.
Defined.

(** ** Controls *)

(** A control: its command, its input and the bytes there is room for. *)
Class IoControl (T : Type) : Type := {
  cmd : T -> Z;
  in_buffer : T -> list Z;
  out_buffer_size : T -> nat
}.

Definition FIONBIO : Z := 2147772030.
Definition SIO_KEEPALIVE_VALS : Z := 2550136836.

Record non_blocking_io : Type := NonBlockingIo { enable_ : Z }.
Definition make_non_blocking_io (enable : bool) : non_blocking_io := NonBlockingIo (if enable then 1 else 0).
#[export] Instance non_blocking_control : IoControl non_blocking_io := {
  cmd _ := FIONBIO;
  in_buffer t := le_bytes 4 (enable_ t);
  out_buffer_size _ := 0%nat
}.

(** [tcp_keepalive] *)
Record tcp_keepalive : Type := TcpKeepalive { onoff : Z; keepalivetime : Z; keepaliveinterval : Z }.
Definition set_onoff (b : Z) (t : tcp_keepalive) : tcp_keepalive := TcpKeepalive b (keepalivetime t) (keepaliveinterval t).

Record io_keepalive : Type := IoKeepalive { inAlive_ : tcp_keepalive; outAlive_ : tcp_keepalive }.

(** The constructor: [garbage] is what the [onoff] of the output holds, which nothing
    sets. *)
Definition make_io_keepalive (garbage inTime : Z) : io_keepalive :=
  let inAlive := TcpKeepalive (if inTime =? 0 then 0 else 1) (u32 (inTime * 1000)) (2 * 1000) in
  IoKeepalive (set_onoff 0 inAlive) (TcpKeepalive garbage 0 0).

#[export] Instance keepalive_control : IoControl io_keepalive := {
  cmd _ := SIO_KEEPALIVE_VALS;
  in_buffer t := le_bytes 4 (onoff (inAlive_ t)) ++ le_bytes 4 (keepalivetime (inAlive_ t)) ++ le_bytes 4 (keepaliveinterval (inAlive_ t));
  out_buffer_size _ := 12%nat
}.

(** ** The calls of a socket *)

Class OptionCalls (O : Type) : Type := {
  setsockopt : Z -> Z -> Z -> list Z -> O -> bool * O;
  (* the bytes written, at most as many as there is room for; None: SOCKET_ERROR *)
  getsockopt : Z -> Z -> Z -> nat -> O -> option (list Z) * O;
  WSAIoctl : Z -> Z -> list Z -> nat -> O -> bool * O
}.

(** An option that was set can be read back. *)
Class OptionCallsLaws (O : Type) `{OptionCalls O} : Prop := {
  get_after_set h l n d o o' : setsockopt h l n d o = (true, o') ->
    exists o'', getsockopt h l n (length d) o' = (Some d, o'')
}.

Section Calls.
Context (w : Z) {O : Type} `{OptionCalls O}.

Record handle : Type := Handle { socket_ : Z; system : O }.
Definition INVALID_SOCKET : Z := 2 ^ w - 1.
Definition is_open (s : handle) : bool := negb (socket_ s =? INVALID_SOCKET).

Definition set_option {T} `{SocketOption T} (option : T) : prog handle bool := fun s =>
  if is_open s then
    let '(ok, o) := setsockopt (socket_ s) (level option) (name option) (data option) (system s) in
    Ret ok (Handle (socket_ s) o)
  else Ret false s.

(** The state holds the option; a call that fails leaves [sz] as it was. *)
Definition get_option {T} `{SocketOption T} : prog (handle * T) bool := fun '(s, option) =>
  if is_open s then
    let sz := length (data option) in
    match getsockopt (socket_ s) (level option) (name option) sz (system s) with
    | (Some bytes, o) => Ret false (Handle (socket_ s) o, with_data option bytes)
    | (None, o) =>
        match resize sz option with
        | Ret _ option' => Ret true (Handle (socket_ s) o, option')
        | Throw e option' => Throw e (Handle (socket_ s) o, option')
        | UB => UB
        | OutOfFuel => OutOfFuel
        end
    end
  else Ret false (s, option).

Definition io_control {T} `{IoControl T} (ioCtrl : T) : prog handle bool := fun s =>
  if is_open s then
    match WSAIoctl (socket_ s) (cmd ioCtrl) (in_buffer ioCtrl) (out_buffer_size ioCtrl) (system s) with
    | (true, o) => Ret true (Handle (socket_ s) o)
    | (false, o) => Throw win32_exception (Handle (socket_ s) o)
    end
  else Ret false s.

(** ** Reading back what was set *)

(** An option that was set is read back with its value, but [get_option] answers
    [false]; it answers [true] when the system refused, and then the option is as it
    was. *)
Theorem get_option_inverted {T} `{OptionLaws T} `{!OptionCallsLaws O} (t t' : T) s s' :
  wf t' -> same_kind t t' -> level t = level t' -> name t = name t' -> length (data t) = length (data t') ->
  is_open s = true -> is_open s' = true ->
  (set_option t' s = Ret true s' -> exists s2, get_option (s', t) = Ret false (s2, t')) /\
  (forall o, getsockopt (socket_ s) (level t) (name t) (length (data t)) (system s) = (None, o) ->
     get_option (s, t) = Ret true (Handle (socket_ s) o, t)).
Proof.
  intros Hwf Hk Hl Hn Hlen Ho Ho'. unfold set_option, get_option. rewrite Ho, Ho'. split.
  - destruct (setsockopt _ _ _ _ _) as [ok o] eqn:E. intros [= -> <-]. cbn [socket_ system].
    destruct (get_after_set _ _ _ _ _ _ E) as [o2 E2]. rewrite Hl, Hn, Hlen, E2, with_data_data by done. by eexists.
  - intros o ->. by rewrite resize_same.
Qed.
End Calls.

(** The options keep what they are given: a boolean its truth, [linger] its switch, and
    the time modulo 2^16, so that 65536 seconds are none. *)
Theorem option_values b on n indeterminate v :
  boolean_value (boolean b) = b /\ boolean_not (boolean b) = negb b /\
  enabled (make_linger indeterminate on n) = on /\ timeout (make_linger indeterminate on n) = n mod 65536 /\
  integer_value (Integer v) = negb (v =? 0).
Proof. by destruct b, on. Qed.

(** What [io_keepalive] asks for: keep-alive is off whatever the time, which is taken
    modulo 2^32 milliseconds. *)
Theorem keepalive_always_off garbage inTime : 0 <= inTime < 2 ^ 32 ->
  in_buffer (make_io_keepalive garbage inTime) =
    [0; 0; 0; 0] ++ le_bytes 4 (u32 (inTime * 1000)) ++ le_bytes 4 2000 /\
  (keepalivetime (inAlive_ (make_io_keepalive garbage inTime)) = inTime * 1000 <-> inTime <= 4294967).
Proof.
  intros Ht. split; [done|]. cbn. unfold wrap. split.
  - intros E. pose proof (Z.mod_pos_bound (inTime * 1000) (2 ^ 32) ltac:(lia)). lia.
  - intros Hle. rewrite Z.mod_small; lia.
Qed.

(** ** A system that keeps the bytes of every option *)

Module Demo.
Definition store := list (Z * Z * Z * list Z).

#[export] Instance store_calls : OptionCalls store := {
  setsockopt h l n d o := (true, (h, l, n, d) :: o);
  getsockopt h l n cap o :=
    match List.find (fun e => bool_decide (e.1 = (h, l, n))) o with
    | Some e => (Some (take cap e.2), o)
    | None => (None, o)
    end;
  WSAIoctl h c i n o := (true, o)
}.

#[export] Instance store_laws : OptionCallsLaws store.
Proof.
  split. intros h l n d o o' [= <-]. cbn. rewrite bool_decide_eq_true_2 by done. eexists. cbn. by rewrite firstn_all.
Qed.

Lemma get_option_inverted_witness : exists s2,
  get_option (O := store) 32 (Handle 5 [(5, SOL_SOCKET, SO_LINGER, [1; 0; 10; 0])], linger_off) = Ret false (s2, Linger 1 10).
Proof.
  apply (get_option_inverted (O := store) 32 linger_off (Linger 1 10) (Handle 5 [])
    (Handle 5 [(5, SOL_SOCKET, SO_LINGER, [1; 0; 10; 0])])); try done; cbn; lia.
Defined.

Lemma keepalive_always_off_witness :
  in_buffer (make_io_keepalive 0 60) = [0; 0; 0; 0] ++ le_bytes 4 (u32 60000) ++ le_bytes 4 2000.
Proof. apply (keepalive_always_off 0 60). lia. Defined.
End Demo.
