(* ===== verification/StringAlgo.v ===== *)
(** * The string algorithms

    include/extend_stl/string/algorithm.hpp. A string is its list of characters, a
    [char] its value; [w] is the width of [size_t]. What the source takes from the
    standard library is written out: [basic_string]'s searches and replacements,
    [std::search], [std::remove_if], [getline] and the stream extractions. *)

From S2P Require Import Prelude.

Abbreviation str := (list Z).
Abbreviation len s := (Z.of_nat (length s)).

(** ** Characters *)

Definition space : Z := 32.
Definition isspace (c : Z) : bool := (c =? 32) || ((9 <=? c) && (c <=? 13)).
Definition isdigit (c : Z) : bool := (48 <=? c) && (c <=? 57).

(** [::tolower] and [::toupper] take the value of an [unsigned char] or [EOF];
    anything else is undefined. *)
Definition is_ctype (c : Z) : bool := (-1 <=? c) && (c <=? 255).
Definition lower (c : Z) : Z := if (65 <=? c) && (c <=? 90) then c + 32 else c.
Definition upper (c : Z) : Z := if (97 <=? c) && (c <=? 122) then c - 32 else c.
Definition tolower (c : Z) : option Z := if is_ctype c then Some (lower c) else None.
Definition toupper (c : Z) : option Z := if is_ctype c then Some (upper c) else None.

Section Algorithms.
Context (w : Z).

(** ** [basic_string] *)

Definition npos : Z := 2 ^ w - 1.

Fixpoint find_first_not_of (c : Z) (i : Z) (s : str) : Z :=
  match s with
  | [] => npos
  | x :: s' => if x =? c then find_first_not_of c (i + 1) s' else i
  end.

Fixpoint find_last_not_of (c : Z) (i last : Z) (s : str) : Z :=
  match s with
  | [] => last
  | x :: s' => find_last_not_of c (i + 1) (if x =? c then last else i) s'
  end.

(** [erase(pos, n)] and [replace(pos, n, new_value)]. *)
Definition str_replace (pos n : Z) (new_value : str) : prog str unit := fun s =>
  if len s <? pos then Throw out_of_range s
  else Ret tt (take (Z.to_nat pos) s ++ new_value ++
               drop (Z.to_nat (pos + Z.min n (len s - pos))) s).
Definition str_erase (pos n : Z) : prog str unit := str_replace pos n [].

(** [compare(pos, n, src) == 0] *)
Definition compare_equal (pos n : Z) (src : str) : prog str bool := fun s =>
  if len s <? pos then Throw out_of_range s
  else Ret (bool_decide (take (Z.to_nat n) (drop (Z.to_nat pos) s) = src)) s.

Fixpoint starts (p s : str) : bool :=
  match p, s with
  | [], _ => true
  | c :: p', x :: s' => (c =? x) && starts p' s'
  | _, [] => false
  end.

(** [str.find(p)]; [None] is [npos]. *)
Fixpoint find (p s : str) : option nat :=
  if starts p s then Some 0%nat
  else match s with [] => None | _ :: s' => S <$> find p s' end.

(** ** Trimming *)

Definition trim_left : prog str unit := fun s =>
  str_erase 0 (find_first_not_of space 0 s) s.
Definition trim_right : prog str unit := fun s =>
  str_erase (wrap w (find_last_not_of space 0 npos s + 1)) npos s.
Definition trim : prog str unit :=
  (fun s => str_erase 0 (find_first_not_of space 0 s) s) ;;;
  (fun s => str_erase (wrap w (find_last_not_of space 0 npos s + 1)) npos s).

Definition fits (s : str) : Prop := len s < npos.

Lemma find_first_not_of_spec c i s :
  exists n, s = replicate n c ++ drop n s /\ (n <= length s)%nat /\
    (drop n s = [] /\ find_first_not_of c i s = npos \/
     hd_error (drop n s) <> Some c /\ find_first_not_of c i s = i + Z.of_nat n).
Proof.
  revert i. induction s as [|x s IH]; intros i; cbn.
  - exists 0%nat. cbn. split_and!; [done|lia|by left].
  - destruct (x =? c) eqn:E; bool_props.
    + subst. destruct (IH (i + 1)) as (n & Hs & Hn & Hc). exists (S n). cbn.
      split_and!; [by f_equal|lia|]. destruct Hc as [[? ?]|[? ?]]; [left|right]; split; try done. lia.
    + exists 0%nat. cbn. split_and!; [done|lia|right]. split; [congruence|lia].
Qed.

Lemma find_last_not_of_spec c i acc s :
  exists n, s = take n s ++ replicate (length s - n) c /\ (n <= length s)%nat /\
    (n = 0%nat /\ find_last_not_of c i acc s = acc \/
     (0 < n)%nat /\ last (take n s) <> Some c /\ find_last_not_of c i acc s = i + Z.of_nat n - 1).
Proof.
  revert i acc. induction s as [|x s IH]; intros i acc; cbn.
  - exists 0%nat. split_and!; [done|done|by left].
  - destruct (IH (i + 1) (if x =? c then acc else i)) as (n & Hs & Hn & Hc).
    destruct (decide (n = 0%nat)) as [->|Hn0].
    + destruct Hc as [[_ Hf]|[? _]]; [|lia]. rewrite Nat.sub_0_r, take_0 in Hs. cbn in Hs.
      rewrite Hf. destruct (x =? c) eqn:E; bool_props.
      * subst. exists 0%nat. cbn. split_and!; [by f_equal|lia|by left].
      * exists 1%nat. cbn. rewrite take_0, Nat.sub_0_r.
        split_and!; [by f_equal|lia|right; split_and!; [lia|by intros [= ?]|lia]].
    + destruct Hc as [[? _]|(_ & Hl & Hf)]; [lia|]. exists (S n). cbn.
      split_and!; [by f_equal|lia|right]. split_and!; [lia| |lia].
      destruct (take n s) eqn:Et; [|done]. apply (f_equal length) in Et.
      rewrite length_take in Et. cbn in Et. lia.
Qed.

Lemma trim_left_core s : fits s ->
  exists n t, trim_left s = Ret tt t /\ s = replicate n space ++ t /\ hd_error t <> Some space /\
    (length t <= length s)%nat.
Proof.
  intros Hf. unfold fits in Hf. destruct (find_first_not_of_spec space 0 s) as (n & Hs & Hn & Hc).
  exists n, (drop n s). unfold trim_left, str_erase, str_replace.
  rewrite (proj2 (Z.ltb_ge _ _)) by lia. split_and!; [|done| |rewrite length_drop; lia].
  - change (Z.to_nat 0) with 0%nat. rewrite take_0. cbn [app]. f_equal.
    destruct Hc as [[-> ->]|[_ ->]]; [|f_equal; lia]. rewrite drop_ge; [done|lia].
  - destruct Hc as [[-> _]|[? _]]; [done|done].
Qed.

Lemma trim_right_core s : fits s ->
  exists n t, trim_right s = Ret tt t /\ s = t ++ replicate n space /\ last t <> Some space /\
    (t = [] \/ hd_error t = hd_error s).
Proof.
  intros Hf. unfold fits in Hf.
  destruct (find_last_not_of_spec space 0 npos s) as (n & Hs & Hn & Hc).
  exists (length s - n)%nat, (take n s). unfold trim_right, str_erase, str_replace.
  assert (Hw : wrap w (find_last_not_of space 0 npos s + 1) = Z.of_nat n).
  { destruct Hc as [[-> ->]|(_ & _ & ->)]; unfold npos, wrap in *.
    - replace (2 ^ w - 1 + 1) with (2 ^ w) by lia. apply Z.mod_same. lia.
    - replace (0 + Z.of_nat n - 1 + 1) with (Z.of_nat n) by lia. apply Z.mod_small. lia. }
  rewrite Hw, (proj2 (Z.ltb_ge _ _)) by lia. split_and!; [|done| |].
  - rewrite (drop_ge s), app_nil_r by lia. by rewrite Nat2Z.id.
  - destruct Hc as [[-> _]|(_ & ? & _)]; [done|done].
  - destruct s as [|x s]; [left; by destruct n|]. destruct n; [by left|by right].
Qed.

(** [trim] never throws and removes exactly the leading and the trailing
    spaces; a string of spaces becomes empty although [npos] goes through the index
    arithmetic. *)
Theorem trim_spec s : fits s -> exists a t b, trim s = Ret tt t /\
  s = replicate a space ++ t ++ replicate b space /\
  hd_error t <> Some space /\ last t <> Some space.
Proof.
  intros Hf. destruct (trim_left_core s Hf) as (a & t & Hl & Hs & Hh & Hle).
  destruct (trim_right_core t) as (b & u & Hr & Ht & Hlast & Hhd); [unfold fits in *; lia|].
  exists a, u, b. split_and!; [|by rewrite <- Ht| |done].
  - unfold trim, bind. unfold trim_left in Hl. by rewrite Hl.
  - destruct Hhd as [-> | ->]; [done|done].
Qed.

(** ** Searching and replacing *)

Definition is_start_with (src : str) : prog str bool := compare_equal 0 (len src) src.
Definition is_end_with (src : str) : prog str bool := fun s =>
  compare_equal (wrap w (len s - len src)) (len src) src s.

(** [is_start_with] and [is_end_with] decide prefix and suffix, except that
    [is_end_with] throws when the suffix is longer than the string. *)
Theorem start_end_spec s src : fits s -> fits src ->
  (exists b, is_start_with src s = Ret b s /\ (b = true <-> exists t, s = src ++ t)) /\
  (len src <= len s -> exists b, is_end_with src s = Ret b s /\
     (b = true <-> exists t, s = t ++ src)) /\
  (len s < len src -> is_end_with src s = Throw out_of_range s).
Proof.
  intros Hf Hf2. unfold fits, npos in *. split_and!.
  - eexists. split; [unfold is_start_with, compare_equal; by rewrite (proj2 (Z.ltb_ge _ _)) by lia|].
    rewrite bool_decide_eq_true. cbn. rewrite drop_0, Nat2Z.id. split.
    + intros H. exists (drop (length src) s). rewrite <- H at 1. by rewrite take_drop.
    + intros [t ->]. by rewrite take_app_length.
  - intros Hle. unfold is_end_with, compare_equal, wrap. rewrite Z.mod_small by lia.
    rewrite (proj2 (Z.ltb_ge _ _)) by lia. eexists. split; [done|].
    rewrite bool_decide_eq_true, Nat2Z.id. replace (Z.to_nat (len s - len src)) with (length s - length src)%nat by lia.
    split.
    + rewrite take_ge by (rewrite length_drop; lia). intros H.
      exists (take (length s - length src) s).
      etrans; [symmetry; apply (take_drop (length s - length src))|by rewrite H].
    + intros [t ->]. rewrite length_app, Nat.add_sub, drop_app_length. by rewrite take_ge.
  - intros Hlt. unfold is_end_with, compare_equal, wrap.
    replace (len s - len src) with (len s - len src + 2 ^ w + (-1) * 2 ^ w) by lia.
    rewrite Z.mod_add, Z.mod_small by lia. by rewrite (proj2 (Z.ltb_lt _ _)) by lia.
Qed.

Fixpoint replace_all (fuel : nat) (old_value new_value : str) : prog str unit := fun s =>
  match fuel with
  | O => OutOfFuel
  | S f =>
      match find old_value s with
      | Some pos =>
          (str_replace (Z.of_nat pos) (len old_value) new_value ;;;
           replace_all f old_value new_value) s
      | None => Ret tt s
      end
  end.

(** [p] is in [s] at position [i]. *)
Definition occurs (p s : str) (i : nat) : Prop :=
  (i <= length s)%nat /\ forall k c, p !! k = Some c -> s !! (i + k)%nat = Some c.

Lemma starts_occurs p s : starts p s = true <-> occurs p s 0.
Proof.
  unfold occurs. revert s. induction p as [|x p IH]; intros s; cbn.
  - split; [|done]. intros _. split; [lia|]. by intros k c Hk.
  - destruct s as [|y s]; cbn.
    + split; [done|]. intros [_ H]. by specialize (H 0%nat x eq_refl).
    + rewrite andb_true_iff, IH. split.
      * intros [-> % Z.eqb_eq [_ H]]. split; [lia|]. intros [|k] c Hk; [done|]. by apply H.
      * intros [_ H]. split; [|split; [lia|]].
        -- apply Z.eqb_eq. specialize (H 0%nat x eq_refl). by injection H.
        -- intros k c Hk. by apply (H (S k)).
Qed.

Lemma occurs_cons p x s i : occurs p (x :: s) (S i) <-> occurs p s i.
Proof. unfold occurs. cbn. split; intros [? H]; (split; [lia|done]). Qed.

Lemma find_spec p s :
  match find p s with
  | Some i => occurs p s i /\ forall j, (j < i)%nat -> ~ occurs p s j
  | None => forall j, ~ occurs p s j
  end.
Proof.
  induction s as [|x s IH]; cbn [find].
  - destruct (starts p []) eqn:E.
    + apply starts_occurs in E. split; [done|lia].
    + intros j Hj. assert (j = 0%nat) as -> by (destruct Hj; cbn in *; lia).
      apply starts_occurs in Hj. congruence.
  - destruct (starts p (x :: s)) eqn:E; [by apply starts_occurs in E; split; [|lia]|].
    assert (H0 : ~ occurs p (x :: s) 0) by (rewrite <- starts_occurs; congruence).
    destruct (find p s) as [i|]; cbn.
    + destruct IH as [Hi Hj]. split; [by apply occurs_cons|]. intros [|j] ?; [done|].
      rewrite occurs_cons. apply Hj. lia.
    + intros [|j]; [done|]. by rewrite occurs_cons.
Qed.

Lemma occurs_split p s i : occurs p s i -> s = take i s ++ p ++ drop (i + length p) s.
Proof.
  intros [Hi H]. rewrite <- (take_drop i s) at 1. f_equal. rewrite <- drop_drop.
  rewrite <- (take_drop (length p) (drop i s)) at 1. f_equal.
  apply list_eq. intros k. destruct (p !! k) eqn:E.
  - rewrite lookup_take_lt by (by apply lookup_lt_Some in E). rewrite lookup_drop. by apply H.
  - apply lookup_ge_None in E. apply lookup_take_ge. lia.
Qed.

Lemma occurs_app p a c : occurs p (a ++ p ++ c) (length a).
Proof.
  split; [rewrite length_app; lia|]. intros k x Hk. rewrite lookup_app_r by lia.
  replace (length a + k - length a)%nat with k by lia. by apply lookup_app_l_Some.
Qed.

Lemma find_occurs p s i : occurs p s i -> exists j, find p s = Some j.
Proof. intros Hi. pose proof (find_spec p s) as H. destruct (find p s); [by eexists|by destruct (H i)]. Qed.

(** One round of the loop. *)
Lemma replace_all_step f old new s i : find old s = Some i ->
  replace_all (S f) old new s =
  replace_all f old new (take i s ++ new ++ drop (i + length old) s) /\
  s = take i s ++ old ++ drop (i + length old) s.
Proof.
  intros E. pose proof (find_spec old s) as H. rewrite E in H. destruct H as [Ho _].
  pose proof (occurs_split _ _ _ Ho) as Hs. split; [|done].
  apply (f_equal length) in Hs as Hl. rewrite !length_app, length_take, length_drop in Hl.
  destruct Ho as [Hi _]. cbn [replace_all]. rewrite E. unfold bind, str_replace.
  rewrite (proj2 (Z.ltb_ge _ _)) by lia. rewrite Nat2Z.id.
  by replace (Z.to_nat (Z.of_nat i + _)) with (i + length old)%nat by lia.
Qed.

(** The characters of [s] that are characters of [old]. *)
Definition letters (old s : str) : nat := length (filter (fun c => c ∈ old) s).

Lemma letters_app old a b : letters old (a ++ b) = (letters old a + letters old b)%nat.
Proof. unfold letters. by rewrite filter_app, length_app. Qed.

Lemma letters_le old s : (letters old s <= length s)%nat.
Proof. apply length_filter. Qed.

Lemma letters_all old s : (forall c, c ∈ s -> c ∈ old) -> letters old s = length s.
Proof.
  unfold letters. induction s as [|x s IH]; intros H; [done|]. rewrite filter_cons_True.
  - cbn. f_equal. apply IH. intros c Hc. apply H. by right.
  - apply H. by left.
Qed.

(** [replace_all] returns, and nothing is left to replace, whenever the new
    value has fewer characters of the old value's than the old value itself; that
    covers every shorter new value and every one without a common character. *)
Theorem replace_all_terminates fuel old new s :
  (letters old new < length old)%nat -> (length s < fuel)%nat ->
  exists t, replace_all fuel old new s = Ret tt t /\ forall i, ~ occurs old t i.
Proof.
  intros Hlt Hf. assert (Hm : (letters old s < fuel)%nat) by (pose proof (letters_le old s); lia).
  clear Hf. revert s Hm. induction fuel as [|f IH]; intros s Hm; [lia|].
  destruct (find old s) as [i|] eqn:E.
  - destruct (replace_all_step f old new s i E) as [-> Hs]. apply IH.
    rewrite Hs in Hm. rewrite !letters_app in *. rewrite (letters_all old old) in Hm by done. lia.
  - exists s. cbn [replace_all]. rewrite E. split; [done|].
    pose proof (find_spec old s) as H. by rewrite E in H.
Qed.

(** [replace_all] never returns when the old value occurs in the string and in
    its own replacement, as in doubling a character, or when it is empty. *)
Theorem replace_all_diverges fuel old new s :
  (exists i, occurs old s i) -> (exists i, occurs old new i) ->
  replace_all fuel old new s = OutOfFuel.
Proof.
  intros Hs [k Hk]. revert s Hs. induction fuel as [|f IH]; intros s [i Hi]; [done|].
  destruct (find_occurs _ _ _ Hi) as [j E].
  destruct (replace_all_step f old new s j E) as [-> _]. apply IH.
  exists (length (take j s) + k)%nat. destruct Hk as [Hk1 Hk2].
  split; [rewrite !length_app; lia|]. intros m c Hm.
  rewrite lookup_app_r by lia. replace (_ + k + m - _)%nat with (k + m)%nat by lia.
  apply lookup_app_l_Some. by apply Hk2.
Qed.

(** Replacement in one pass, from left to right, that never rescans. *)
Fixpoint replaced (n : nat) (old new s : str) : str :=
  match n with
  | O => s
  | S n' =>
      match find old s with
      | Some i => take i s ++ new ++ replaced n' old new (drop (i + length old) s)
      | None => s
      end
  end.

(** A finished part that no occurrence can reach into. *)
Definition barrier (old p : str) : Prop := forall c j, occurs old (p ++ c) j -> (length p <= j)%nat.

Lemma occurs_after p a c j : occurs p (a ++ c) (length a + j) <-> occurs p c j.
Proof.
  unfold occurs. rewrite length_app. split; intros [? H]; (split; [lia|]); intros k x Hk.
  - specialize (H k x Hk). rewrite lookup_app_r in H by lia. rewrite <- H. f_equal. lia.
  - rewrite lookup_app_r by lia. rewrite <- (H k x Hk). f_equal. lia.
Qed.

Lemma barrier_find old p c : barrier old p ->
  find old (p ++ c) = (fun i => (length p + i)%nat) <$> find old c.
Proof.
  intros Hb. pose proof (find_spec old c) as H. pose proof (find_spec old (p ++ c)) as Hp.
  destruct (find old (p ++ c)) as [j|].
  - destruct Hp as [Hj Hl]. pose proof (Hb c j Hj) as Hle.
    replace j with (length p + (j - length p))%nat in Hj by lia. apply occurs_after in Hj.
    destruct (find old c) as [i|]; [|by destruct (H _ Hj)]. destruct H as [Hi Hil]. cbn. f_equal.
    assert (~ (length p + i < j)%nat) by (intros Hlt; by apply (Hl _ Hlt), occurs_after).
    assert (~ (j - length p < i)%nat) by (intros Hlt; by apply (Hil _ Hlt)). lia.
  - destruct (find old c) as [i|]; [|done]. destruct H as [Hi _]. exfalso. by apply (Hp (length p + i)%nat), occurs_after.
Qed.

Lemma barrier_step old new p c i : old <> [] -> new <> [] -> (forall x, x ∈ new -> x ∉ old) ->
  barrier old p -> find old c = Some i -> barrier old (p ++ take i c ++ new).
Proof.
  intros Ho Hn Hd Hb E d j [Hj Hocc]. apply Nat.nlt_ge. intros Hlt.
  pose proof (find_spec old c) as Hf. rewrite E in Hf. destruct Hf as [Hi Hfirst].
  set (q := p ++ take i c) in *. rewrite app_assoc in Hj, Hocc, Hlt. fold q in Hj, Hocc, Hlt.
  assert (Hlq : length q = (length p + i)%nat).
  { unfold q. rewrite length_app, length_take. destruct Hi. lia. }
  assert (Hclash : forall k, (k < length old)%nat ->
    ~ (length q <= j + k < length q + length new)%nat).
  { intros k Hk Hr. destruct (lookup_lt_is_Some_2 old k Hk) as [x Hx].
    pose proof (Hocc k x Hx) as Hnx. rewrite <- app_assoc, lookup_app_r, lookup_app_l in Hnx by lia.
    apply (Hd x); [by apply list_elem_of_lookup_2 in Hnx|by apply list_elem_of_lookup_2 in Hx]. }
  assert (0 < length old)%nat by (destruct old; [done|cbn; lia]).
  assert (0 < length new)%nat by (destruct new; [done|cbn; lia]).
  rewrite length_app in Hlt. destruct (decide (j + length old <= length q)%nat) as [Hin|Hout].
  - assert (Hpc : occurs old (p ++ c) j).
    { split; [rewrite length_app; destruct Hi; lia|]. intros k x Hx.
      pose proof (lookup_lt_Some _ _ _ Hx). pose proof (Hocc k x Hx) as Hnx.
      rewrite <- app_assoc, lookup_app_l in Hnx by lia.
      rewrite <- (take_drop i c), app_assoc. fold q. by apply lookup_app_l_Some. }
    pose proof (Hb c j Hpc). replace j with (length p + (j - length p))%nat in Hpc by lia.
    apply occurs_after in Hpc. apply (Hfirst (j - length p)%nat); [lia|done].
  - destruct (decide (length q <= j)%nat).
    + apply (Hclash 0%nat); lia.
    + apply (Hclash (length q - j)%nat); lia.
Qed.

Lemma replace_all_from f n old new p c : old <> [] -> new <> [] -> (forall x, x ∈ new -> x ∉ old) ->
  barrier old p -> (length c < f)%nat -> (length c <= n)%nat ->
  replace_all f old new (p ++ c) = Ret tt (p ++ replaced n old new c).
Proof.
  intros Ho Hn Hd. revert n p c. induction f as [|f IH]; intros n p c Hb Hf Hl; [lia|].
  destruct (find old c) as [i|] eqn:E.
  - pose proof (barrier_step old new p c i Ho Hn Hd Hb E) as Hb'.
    pose proof (find_spec old c) as Hs. rewrite E in Hs. destruct Hs as [Hs _].
    pose proof (occurs_split _ _ _ Hs) as Hsplit. apply (f_equal length) in Hsplit as Hlen.
    rewrite !length_app, length_take in Hlen.
    assert (0 < length old)%nat by (destruct old; [done|cbn; lia]).
    destruct (replace_all_step f old new (p ++ c) (length p + i)) as [-> _].
    { by rewrite barrier_find, E. }
    rewrite take_app_add, <- Nat.add_assoc, drop_app_add.
    destruct n as [|n]; [lia|]. cbn [replaced]. rewrite E.
    specialize (IH n (p ++ take i c ++ new) (drop (i + length old) c) Hb' ltac:(lia) ltac:(lia)).
    rewrite <- !app_assoc in *. exact IH.
  - cbn [replace_all]. rewrite barrier_find, E by done. cbn.
    destruct n as [|n]; cbn [replaced]; [done|]. by rewrite E.
Qed.

(** When the new value is not empty and shares no character with the old one,
    [replace_all] is the one-pass replacement, although it searches again from the
    start each time. *)
Theorem replace_all_once fuel old new s : old <> [] -> new <> [] ->
  (forall x, x ∈ new -> x ∉ old) -> (length s < fuel)%nat ->
  replace_all fuel old new s = Ret tt (replaced (length s) old new s).
Proof.
  intros Ho Hn Hd Hf. apply (replace_all_from fuel (length s) old new [] s); try done.
  intros c j _. cbn. lia.
Qed.

(** ** Erasing a character *)

(** [std::remove_if], in place: the characters that stay are moved to [result]. *)
Fixpoint remove_loop (charactor : Z) (n i result : nat) (s : str) : nat * str :=
  match n with
  | O => (result, s)
  | S n' =>
      match s !! i with
      | Some x => if x =? charactor then remove_loop charactor n' (S i) result s
                  else remove_loop charactor n' (S i) (S result) (<[result := x]> s)
      | None => (result, s)
      end
  end.

Fixpoint find_char (charactor : Z) (s : str) : nat :=
  match s with
  | [] => 0
  | x :: s' => if x =? charactor then 0%nat else S (find_char charactor s')
  end.

Definition remove_if (charactor : Z) (s : str) : nat * str :=
  let first := find_char charactor s in
  if (first =? length s)%nat then (first, s)
  else remove_loop charactor (length s - S first) (S first) first s.

Definition erase (charactor : Z) (s : str) : str :=
  let '(result, s') := remove_if charactor s in take result s'.

Definition kept (c : Z) (s : str) : str := filter (fun x => x <> c) s.

Lemma kept_snoc c s x : kept c (s ++ [x]) = kept c s ++ (if x =? c then [] else [x]).
Proof.
  unfold kept. rewrite filter_app. f_equal. destruct (x =? c) eqn:E; bool_props.
  - by rewrite filter_cons_False by (by intros ?).
  - by rewrite filter_cons_True.
Qed.

Lemma remove_loop_ok c s0 n i r s : (i + n = length s0)%nat -> (r <= i)%nat ->
  take r s = kept c (take i s0) -> drop i s = drop i s0 -> length s = length s0 ->
  let '(r', s') := remove_loop c n i r s in take r' s' = kept c s0.
Proof.
  revert i r s. induction n as [|n IH]; intros i r s Hi Hr Ht Hd Hl; cbn [remove_loop].
  - by rewrite Ht, take_ge by lia.
  - destruct (lookup_lt_is_Some_2 s0 i) as [x Hx]; [lia|].
    assert (Hs : s !! i = Some x).
    { rewrite <- (Nat.add_0_r i), <- lookup_drop, Hd, lookup_drop, Nat.add_0_r. done. }
    rewrite Hs. apply take_S_r in Hx as Ht2.
    assert (Hd2 : drop (S i) s = drop (S i) s0).
    { replace (S i) with (i + 1)%nat by lia. by rewrite <- !drop_drop, Hd. }
    destruct (x =? c) eqn:E; apply IH; try done; try lia; rewrite ?length_insert; try done.
    + by rewrite Ht2, kept_snoc, E, app_nil_r.
    + rewrite Ht2, kept_snoc, E, <- Ht. apply take_S_r_insert || idtac.
      rewrite (take_S_r _ r x) by (apply list_lookup_insert_eq; lia).
      by rewrite take_insert_ge by lia.
    + by rewrite drop_insert_lt by lia.
Qed.

Lemma find_char_kept c s : kept c (take (find_char c s) s) = take (find_char c s) s /\
  (find_char c s <= length s)%nat /\
  (find_char c s = length s \/ s !! find_char c s = Some c).
Proof.
  induction s as [|x s (IH1 & IH2 & IH3)]; cbn; [split_and!; auto|].
  destruct (x =? c) eqn:E; bool_props; cbn.
  - subst. split_and!; [done|lia|by right].
  - split_and!; [|lia|destruct IH3; [left; lia|by right]].
    unfold kept in *. rewrite decide_True by done. f_equal. exact IH1.
Qed.

(** [erase] removes every occurrence of the character and nothing else, in
    order, by moving the others down within the string. *)
Theorem erase_spec c s : erase c s = kept c s.
Proof.
  unfold erase, remove_if. destruct (find_char_kept c s) as (Hk & Hle & Hc).
  destruct (Nat.eqb_spec (find_char c s) (length s)) as [He|He].
  - rewrite He in *. by rewrite take_ge in * by done.
  - destruct Hc as [?|Hc]; [done|].
    pose proof (remove_loop_ok c s (length s - S (find_char c s)) (S (find_char c s))
      (find_char c s) s) as H.
    destruct (remove_loop _ _ _ _ _). apply H; try done; try lia.
    rewrite (take_S_r _ _ _ Hc), kept_snoc, Z.eqb_refl, app_nil_r. done.
Qed.

(** ** Searching without regard to case *)

Inductive match_result := Found | Mismatch | Exhausted.

(** One round of [std::search]; [None]: undefined. *)
Fixpoint search_at (val s : str) : option match_result :=
  match val, s with
  | [], _ => Some Found
  | _, [] => Some Exhausted
  | c :: val', x :: s' =>
      match tolower x, tolower c with
      | Some x', Some c' => if x' =? c' then search_at val' s' else Some Mismatch
      | _, _ => None
      end
  end.

(** The index found, or the end of the string. *)
Fixpoint search (val s : str) (i : nat) : option nat :=
  match search_at val s with
  | None => None
  | Some Found => Some i
  | Some Exhausted => Some (i + length s)%nat
  | Some Mismatch => match s with [] => Some i | _ :: s' => search val s' (S i) end
  end.

Definition find_nocase (s val : str) : option bool :=
  (fun iter => negb (iter =? length s)%nat) <$> search val s 0.

Lemma tolower_ok c : 0 <= c <= 255 -> tolower c = Some (lower c).
Proof. intros H. unfold tolower, is_ctype. by rewrite !(proj2 (Z.leb_le _ _)) by lia. Qed.

Definition chars (s : str) : Prop := Forall (fun c => 0 <= c <= 255) s.

Lemma search_at_ok val s : chars val -> chars s ->
  match search_at val s with
  | None => False
  | Some Found => exists m t, s = m ++ t /\ map lower m = map lower val
  | Some Mismatch => forall m t, s = m ++ t -> map lower m <> map lower val
  | Some Exhausted => (length s < length val)%nat
  end.
Proof.
  intros Hv. revert s. induction Hv as [|c val Hc Hv IH]; intros s Hs; cbn.
  - exists [], s. done.
  - destruct Hs as [|x s Hx Hs]; cbn; [lia|]. rewrite !tolower_ok by lia.
    destruct (lower x =? lower c) eqn:E; bool_props.
    + specialize (IH s Hs). destruct (search_at val s) as [[]|]; [| |cbn in *; lia|done].
      * destruct IH as (m & t & -> & Hm). exists (x :: m), t. cbn. by rewrite E, Hm.
      * intros [|y m] t; [done|]. cbn. intros [= -> ->] [= _ H]. by apply (IH m t).
    + intros [|y m] t; [done|]. cbn. intros [= -> ->] [= H _]. done.
Qed.

Lemma search_ok val s i : chars val -> chars s ->
  exists j, search val s i = Some j /\ (i <= j <= i + length s)%nat /\
    (((j < i + length s)%nat \/ val = []) <->
     exists a m t, s = a ++ m ++ t /\ map lower m = map lower val).
Proof.
  intros Hv Hs. revert i. induction Hs as [|x s Hx Hs IH]; intros i; cbn [search].
  - pose proof (search_at_ok val [] Hv ltac:(constructor)) as H. destruct val; cbn in *.
    + exists i. split_and!; [done|lia|lia|]. split; [by exists [], [], []|by right].
    + exists (i + 0)%nat. split_and!; [done|lia|lia|]. split; [intros [?|?]; [lia|done]|].
      intros (a & m & t & E & Hm). destruct a, m; done.
  - pose proof (search_at_ok val (x :: s) Hv ltac:(by constructor)) as H.
    destruct (search_at val (x :: s)) as [[]|]; [| | |done].
    + exists i. cbn. split_and!; [done|lia|lia|]. split; [|left; lia]. intros _.
      destruct H as (m & t & -> & Hm). by exists [], m, t.
    + destruct (IH (S i)) as (j & -> & Hj & Hiff). exists j. cbn. split_and!; [done|lia|lia|].
      replace (i + S (length s))%nat with (S i + length s)%nat by lia. rewrite Hiff. split.
      * intros (a & m & t & -> & Hm). by exists (x :: a), m, t.
      * intros ([|y a] & m & t & E & Hm); [by destruct (H m t)|]. injection E as -> ->. eauto.
    + exists (i + length (x :: s))%nat. split_and!; [done|lia|lia|]. split.
      * intros [? | ->]; cbn in *; lia.
      * intros (a & m & t & E & Hm). apply (f_equal length) in E, Hm.
        rewrite !length_app in E. rewrite !length_map in Hm. lia.
Qed.

(** [find_nocase] finds a value up to the case of the letters, wherever it is;
    an empty value is found in every string but the empty one. A character outside
    [unsigned char], as every byte of a multi-byte character is where [char] is
    signed, makes it undefined. *)
Theorem find_nocase_spec s val :
  (chars s -> chars val -> exists b, find_nocase s val = Some b /\
     (b = true <-> s <> [] /\ exists a m t, s = a ++ m ++ t /\ map lower m = map lower val)) /\
  (forall x c s' val', s = x :: s' -> val = c :: val' -> x < -1 -> find_nocase s val = None).
Proof.
  split.
  - intros Hs Hv. destruct (search_ok val s 0 Hv Hs) as (j & Hj & Hle & Hiff).
    exists (negb (j =? length s)%nat). unfold find_nocase. rewrite Hj. split; [done|].
    rewrite negb_true_iff, Nat.eqb_neq, <- Hiff. cbn in *. split.
    + intros Hne. split; [|left; lia]. intros ->. cbn in *. lia.
    + intros [Hne [? | ->]]; [lia|]. destruct s as [|x s]; [done|]. cbn in Hj. injection Hj as <-. done.
  - intros x c s' val' -> -> Hx. unfold find_nocase. cbn. unfold tolower at 1.
    unfold is_ctype. by rewrite (proj2 (Z.leb_gt _ _)) by lia.
Qed.

(** ** Splitting *)

(** [getline(iss, s, separator)]: the piece and what is left of the stream; [None]
    when nothing can be extracted. *)
Fixpoint until (separator : Z) (s : str) : str * str :=
  match s with
  | [] => ([], [])
  | x :: s' =>
      if x =? separator then ([], s')
      else let '(piece, rest) := until separator s' in (x :: piece, rest)
  end.
Definition getline (separator : Z) (iss : str) : option (str * str) :=
  match iss with [] => None | _ => Some (until separator iss) end.

(** [isss >> val] *)
Fixpoint skip_spaces (s : str) : str :=
  match s with x :: s' => if isspace x then skip_spaces s' else s | [] => [] end.
Fixpoint up_to_space (s : str) : str :=
  match s with x :: s' => if isspace x then [] else x :: up_to_space s' | [] => [] end.
Definition extract (isss : str) : str := up_to_space (skip_spaces isss).

Fixpoint split_loop (fuel : nat) (separator : Z) (iss : str) : prog (list str) unit :=
  match fuel with
  | O => diverge
  | S f =>
      match getline separator iss with
      | Some (s, iss') => fun seq => split_loop f separator iss' (seq ++ [extract s])
      | None => ret tt
      end
  end.

Definition split (fuel : nat) (s : str) (separator : Z) : prog (list str) unit :=
  match s with [] => ret tt | _ => split_loop fuel separator s end.

(** [split(str, separator, index)], without the assertion of a debug build. *)
Definition split_index (fuel : nat) (s : str) (separator : Z) (index : nat) : prog (list str) str :=
  fun seq =>
  match split fuel s separator [] with
  | Ret _ pieces =>
      Ret (if bool_decide (pieces = []) then []
           else if (length pieces <=? index)%nat then [] else default [] (pieces !! index)) seq
  | Throw e _ => Throw e seq
  | UB => UB
  | OutOfFuel => OutOfFuel
  end.

Fixpoint join (separator : Z) (pieces : list str) : str :=
  match pieces with
  | [] => []
  | [p] => p
  | p :: ps => p ++ separator :: join separator ps
  end.

Lemma until_ok sep s p rest : until sep s = (p, rest) ->
  sep ∉ p /\ (s = p /\ rest = [] \/ s = p ++ sep :: rest).
Proof.
  revert p rest. induction s as [|x s IH]; intros p rest; cbn.
  - intros [= <- <-]. split; [by apply not_elem_of_nil|by left].
  - destruct (x =? sep) eqn:E; bool_props.
    + intros [= <- <-]. subst. split; [by apply not_elem_of_nil|by right].
    + destruct (until sep s) as [q r]. intros [= <- <-].
      destruct (IH q r eq_refl) as [Hq Hc]. split; [|destruct Hc as [[-> ->]| ->]; [by left|by right]].
      by apply not_elem_of_cons.
Qed.

Lemma until_app sep p s : sep ∉ p -> until sep (p ++ sep :: s) = (p, s).
Proof.
  induction p as [|x p IH]; cbn; intros Hn; [by rewrite Z.eqb_refl|].
  apply not_elem_of_cons in Hn as [? ?]. rewrite (proj2 (Z.eqb_neq _ _)) by done. by rewrite IH.
Qed.

Lemma getline_app sep p s : sep ∉ p -> getline sep (p ++ sep :: s) = Some (p, s).
Proof. intros Hn. rewrite <- (until_app sep p s) by done. by destruct p. Qed.

Lemma until_end sep p : sep ∉ p -> until sep p = (p, []).
Proof.
  induction p as [|x p IH]; cbn; intros Hn; [done|].
  apply not_elem_of_cons in Hn as [? ?]. rewrite (proj2 (Z.eqb_neq _ _)) by done. by rewrite IH.
Qed.

Lemma split_loop_ok fuel sep s seq : (length s < fuel)%nat ->
  exists pieces, split_loop fuel sep s seq = Ret tt (seq ++ map extract pieces) /\
    Forall (fun p => sep ∉ p) pieces /\
    (s = join sep pieces \/ s = join sep pieces ++ [sep] /\ pieces <> []).
Proof.
  revert s seq. induction fuel as [|f IH]; intros s seq Hf; [lia|]. cbn [split_loop].
  destruct s as [|x s]; cbn [getline].
  - exists []. cbn. rewrite app_nil_r. split_and!; [done|constructor|by left].
  - destruct (until sep (x :: s)) as [p rest] eqn:E. apply until_ok in E as [Hp [[Hs ->]|Hs]].
    + exists [p]. split_and!; [|by repeat constructor|by left].
      destruct f; [cbn in Hf; lia|done].
    + apply (f_equal length) in Hs as Hl. rewrite length_app in Hl. cbn [length] in *.
      destruct (IH rest (seq ++ [extract p])) as (ps & -> & Hall & Hc); [lia|].
      exists (p :: ps). split_and!; [by rewrite <- app_assoc|by constructor|].
      rewrite Hs. destruct ps as [|p2 ps].
      * right. split; [|done]. destruct Hc as [->|[_ ?]]; done.
      * destruct Hc as [->|[-> _]]; [by left|right; split; [|done]].
        cbn [join]. by rewrite <- app_assoc.
Qed.

(** [split] appends, for each piece between separators, its first word; a
    separator at the end does not open another piece. *)
Theorem split_spec fuel s sep seq : (length s < fuel)%nat ->
  exists pieces, split fuel s sep seq = Ret tt (seq ++ map extract pieces) /\
    Forall (fun p => sep ∉ p) pieces /\
    (s = join sep pieces \/ s = join sep pieces ++ [sep] /\ pieces <> []).
Proof.
  intros Hf. destruct s as [|x s]; [|by apply split_loop_ok].
  exists []. cbn. rewrite app_nil_r. split_and!; [done|constructor|by left].
Qed.

Definition word (sep : Z) (p : str) : Prop :=
  p <> [] /\ sep ∉ p /\ Forall (fun c => isspace c = false) p.

Lemma extract_word sep p : word sep p -> extract p = p.
Proof.
  intros (Hne & _ & Hall). unfold extract.
  assert (skip_spaces p = p) as -> by (destruct Hall as [|x p Hx]; cbn; [done|by rewrite Hx]).
  clear Hne. induction Hall as [|x p Hx _ IH]; cbn; [done|]. by rewrite Hx, IH.
Qed.

Lemma split_loop_join fuel sep ps seq : Forall (word sep) ps ->
  (length (join sep ps) < fuel)%nat -> split_loop fuel sep (join sep ps) seq = Ret tt (seq ++ ps).
Proof.
  intros Hps. revert fuel seq. induction Hps as [|p ps Hp Hps IH]; intros fuel seq Hf.
  - destruct fuel; cbn in *; [lia|]. by rewrite app_nil_r.
  - destruct fuel as [|f]; [lia|]. pose proof Hp as (Hne & Hs & _). destruct ps as [|p2 ps].
    + cbn [join split_loop] in *. destruct p as [|x p]; [done|]. cbn [getline].
      rewrite until_end, (extract_word sep) by done. destruct f; [cbn in Hf; lia|done].
    + change (join sep (p :: p2 :: ps)) with (p ++ sep :: join sep (p2 :: ps)) in *.
      rewrite length_app in Hf. cbn [split_loop].
      rewrite getline_app by done. rewrite (extract_word sep) by done. rewrite IH by (cbn in *; lia). by rewrite <- app_assoc.
Qed.

(** Splitting what was joined gives the words back, and the indexed form gives
    each of them. *)
Theorem split_join fuel sep ps seq index : Forall (word sep) ps -> ps <> [] ->
  (length (join sep ps) < fuel)%nat ->
  split fuel (join sep ps) sep seq = Ret tt (seq ++ ps) /\
  split_index fuel (join sep ps) sep index seq = Ret (default [] (ps !! index)) seq.
Proof.
  intros Hps Hne Hf. unfold split_index.
  assert (H : forall seq', split fuel (join sep ps) sep seq' = Ret tt (seq' ++ ps)).
  { intros seq'. unfold split. destruct (join sep ps) eqn:E; [|rewrite <- E; apply split_loop_join; by rewrite ?E].
    destruct Hps as [|p [|p2 ps] [? _] _]; cbn in E; [done|done|].
    by destruct p. }
  split; [done|]. rewrite H. cbn. rewrite bool_decide_eq_false_2 by done.
  destruct (length ps <=? index)%nat eqn:E; [|done].
  apply Nat.leb_le in E. by rewrite lookup_ge_None_2.
Qed.

(** ** Numbers *)

(** The decimal digits of a number, before [acc]. *)
Fixpoint digits (fuel : nat) (n : Z) (acc : str) : str :=
  match fuel with
  | O => acc
  | S f =>
      let acc' := 48 + n mod 10 :: acc in
      if n / 10 =? 0 then acc' else digits f (n / 10) acc'
  end.

(** [os << val] of an integer, and [to_string]. *)
Definition to_string (val : Z) : str :=
  let magnitude := Z.abs val in
  let text := digits (S (Z.to_nat (Z.log2 magnitude))) magnitude [] in
  if val <? 0 then 45 :: text else text.

Definition to_string_bool (val : bool) : str :=
  if val then [116; 114; 117; 101] else [102; 97; 108; 115; 101].

(** [is >> val] of an integer of [bits] bits: the characters of a number, clamped to
    the type; 0 when there is none. *)
Fixpoint scan_digits (n : Z) (s : str) : Z :=
  match s with
  | x :: s' => if isdigit x then scan_digits (10 * n + (x - 48)) s' else n
  | [] => n
  end.
Definition scan_sign (s : str) : bool * str :=
  match s with
  | x :: s' => if x =? 45 then (true, s') else if x =? 43 then (false, s') else (false, s)
  | [] => (false, [])
  end.
Definition to_number (is_signed : bool) (bits : Z) (s : str) : Z :=
  let '(negative, s') := scan_sign (skip_spaces s) in
  let n := scan_digits 0 s' in
  if is_signed then
    if negative then Z.max (- n) (- 2 ^ (bits - 1)) else Z.min n (2 ^ (bits - 1) - 1)
  else if 2 ^ bits - 1 <? n then 2 ^ bits - 1
  else if negative then wrap bits (- n) else n.

(** [is >> std::boolalpha >> val] *)
Definition to_bool (s : str) : bool := starts (to_string_bool true) (skip_spaces s).

Lemma scan_digits_app fuel n acc k : 0 <= n -> n < 2 ^ Z.of_nat fuel -> (0 < fuel)%nat ->
  exists m, scan_digits k (digits fuel n acc) = scan_digits (m * k + n) acc /\ 0 < m /\
    (exists d rest, digits fuel n acc = d :: rest /\ isdigit d = true).
Proof.
  revert n acc k. induction fuel as [|f IH]; intros n acc k Hn Hlt Hf; [lia|]. cbn [digits].
  assert (Hd : isdigit (48 + n mod 10) = true).
  { unfold isdigit. pose proof (Z.mod_pos_bound n 10). rewrite !(proj2 (Z.leb_le _ _)) by lia. done. }
  pose proof (Z.div_mod n 10 ltac:(lia)) as Hdm.
  destruct (n / 10 =? 0) eqn:E; bool_props.
  - exists 10. cbn [scan_digits]. rewrite Hd. split_and!; [f_equal; lia|lia|by eexists _, _].
  - assert (0 <= n / 10) by (apply Z.div_pos; lia).
    replace (Z.of_nat (S f)) with (1 + Z.of_nat f) in Hlt by lia. rewrite Z.pow_add_r in Hlt by lia.
    assert (n / 10 < 2 ^ Z.of_nat f) by (apply Z.div_lt_upper_bound; lia).
    assert (0 < f)%nat by (destruct f; [cbn in *; lia|lia]).
    destruct (IH (n / 10) (48 + n mod 10 :: acc) k) as (m & Hm & Hpos & Hshape); [done..|].
    exists (10 * m). rewrite Hm. cbn [scan_digits]. rewrite Hd. split_and!; [f_equal; lia|lia|done].
Qed.

Lemma to_string_scan val :
  let '(negative, s) := scan_sign (skip_spaces (to_string val)) in
  negative = (val <? 0) /\ scan_digits 0 s = Z.abs val.
Proof.
  unfold to_string.
  destruct (scan_digits_app (S (Z.to_nat (Z.log2 (Z.abs val)))) (Z.abs val) [] 0) as
    (m & Hs & _ & d & rest & Hshape & Hd); [lia| |lia|].
  - rewrite Nat2Z.inj_succ, Z2Nat.id by apply Z.log2_nonneg.
    destruct (decide (val = 0)) as [->|]; [done|]. apply Z.log2_spec. lia.
  - rewrite Z.mul_0_r in Hs. cbn [scan_digits] in Hs. unfold isdigit in Hd.
    destruct (val <? 0) eqn:E; [cbn -[digits]; done|]. rewrite Hshape in *. bool_props.
    cbn [skip_spaces]. unfold isspace. rewrite (proj2 (Z.eqb_neq d 32)), (proj2 (Z.leb_gt d 13)), andb_false_r by lia.
    cbn. by rewrite (proj2 (Z.eqb_neq d 45)), (proj2 (Z.eqb_neq d 43)) by lia.
Qed.

Lemma digits_chars fuel n acc x : 0 <= n -> x ∈ digits fuel n acc -> 48 <= x <= 57 \/ x ∈ acc.
Proof.
  revert n acc. induction fuel as [|f IH]; intros n acc Hn; cbn [digits]; [by right|].
  pose proof (Z.mod_pos_bound n 10 ltac:(lia)). destruct (n / 10 =? 0).
  - intros [-> |?]%elem_of_cons; [left; lia|by right].
  - intros [?|[-> |?]%elem_of_cons]%IH; [by left|left; lia|by right|by apply Z.div_pos].
Qed.

Lemma to_string_chars val x : x ∈ to_string val -> x = 45 \/ 48 <= x <= 57.
Proof.
  unfold to_string. intros Hx. set (d := digits _ _ _) in Hx.
  assert (Hd : x ∈ d -> 48 <= x <= 57) by (intros [?|H%elem_of_nil]%digits_chars; [done|done|lia]).
  destruct (val <? 0); [apply elem_of_cons in Hx as [-> |Hx]; [by left|]|]; right; by apply Hd.
Qed.

(** [to_number] reads back what [to_string] wrote, for every integer type and
    for the booleans, and clamps what is out of the type's range. *)
Theorem to_number_to_string val bits :
  (0 < bits -> - 2 ^ (bits - 1) <= val < 2 ^ (bits - 1) -> to_number true bits (to_string val) = val) /\
  (0 <= val < 2 ^ bits -> to_number false bits (to_string val) = val) /\
  (2 ^ (bits - 1) <= val -> to_number true bits (to_string val) = 2 ^ (bits - 1) - 1) /\
  (forall b, to_bool (to_string_bool b) = b).
Proof.
  pose proof (to_string_scan val) as H. unfold to_number.
  destruct (scan_sign (skip_spaces (to_string val))) as [negative s]. destruct H as [-> ->].
  destruct (val <? 0) eqn:E; bool_props; split_and!; try (by intros []).
  all: intros; try (assert (0 <= 2 ^ (bits - 1)) by apply Z.pow_nonneg, Z.le_0_2; lia).
  all: rewrite ?(proj2 (Z.ltb_ge _ _)) by lia; lia.
Qed.

(** ** Case *)

Fixpoint transform (func : Z -> option Z) (s : str) : option str :=
  match s with
  | [] => Some []
  | x :: s' => y ← func x; ys ← transform func s'; Some (y :: ys)
  end.
Definition to_upper (s : str) : option str := transform toupper s.
Definition to_lower (s : str) : option str := transform tolower s.

Lemma transform_ok func f s : (forall c, 0 <= c <= 255 -> func c = Some (f c)) -> chars s ->
  transform func s = Some (map f s).
Proof. intros H. induction 1 as [|x s Hx Hs IH]; cbn; [done|]. by rewrite H, IH. Qed.

Lemma search_map f val s i : (forall c, 0 <= c <= 255 -> 0 <= f c <= 255 /\ lower (f c) = lower c) ->
  chars s -> search val (map f s) i = search val s i.
Proof.
  intros Hf Hs.
  assert (Hat : forall t, chars t -> search_at val (map f t) = search_at val t).
  { intros t Ht. revert val. induction Ht as [|x t Hx Ht IH]; intros [|c val]; try done.
    cbn. destruct (Hf x Hx) as [? E]. rewrite (tolower_ok (f x)), (tolower_ok x), E by lia.
    destruct (tolower c); [|done]. by rewrite IH. }
  revert i. induction Hs as [|x s Hx Hs IH]; intros i; [done|].
  cbn [search map]. pose proof (Hat (x :: s) ltac:(by constructor)) as E. cbn [map] in E.
  rewrite E, IH. cbn [length]. by rewrite length_map.
Qed.

Lemma lower_lower c : 0 <= c <= 255 -> 0 <= lower c <= 255 /\ lower (lower c) = lower c.
Proof. intros H. unfold lower. split_tests; bool_props; split; lia. Qed.
Lemma lower_upper c : 0 <= c <= 255 -> 0 <= upper c <= 255 /\ lower (upper c) = lower c.
Proof. intros H. unfold lower, upper. split_tests; bool_props; split; lia. Qed.

(** The case conversions are defined on the characters 0 to 255, keep the
    length, and do not change what [find_nocase] answers. *)
Theorem case_spec s val : chars s -> exists lo up,
  to_lower s = Some lo /\ to_upper s = Some up /\ length lo = length s /\ length up = length s /\
  find_nocase lo val = find_nocase s val /\ find_nocase up val = find_nocase s val /\
  to_lower up = Some lo.
Proof.
  intros Hs. exists (map lower s), (map upper s). unfold to_lower, to_upper, find_nocase.
  assert (Hu : chars (map upper s)).
  { apply Forall_map. eapply Forall_impl; [exact Hs|]. intros c Hc. by apply lower_upper. }
  rewrite !(transform_ok tolower lower), (transform_ok toupper upper)
    by (try done; intros c Hc; unfold tolower, toupper, is_ctype; by rewrite !(proj2 (Z.leb_le _ _)) by lia).
  rewrite !length_map, (search_map lower), (search_map upper) by (exact lower_lower || exact lower_upper || done).
  split_and!; try done. f_equal. rewrite map_map. clear Hu. induction Hs as [|x s Hx Hs IH]; cbn; [done|].
  f_equal; [by apply lower_upper|done].
Qed.

End Algorithms.

(** ** Witnesses *)

Module Demo.

Definition padded : str := [32; 32; 97; 32; 98; 32].   (* "  a b " *)

Lemma trim_spec_witness : fits 32 padded /\ trim 32 padded = Ret tt [97; 32; 98] /\
  exists a t b, trim 32 padded = Ret tt t /\ padded = replicate a space ++ t ++ replicate b space /\
    hd_error t <> Some space /\ last t <> Some space.
Proof. split; [done|split; [done|]]. by apply (trim_spec 32 padded). Defined.

Lemma start_end_spec_witness : is_end_with 32 [97; 98; 99] [98] = Throw out_of_range [98].
Proof. by apply (start_end_spec 32 [98] [97; 98; 99]). Defined.

(* "aXbX", X to YY *)
Lemma replace_all_terminates_witness :
  exists t, replace_all 5 [88] [89; 89] [97; 88; 98; 88] = Ret tt t /\ forall i, ~ occurs [88] t i.
Proof. by apply (replace_all_terminates 5 [88] [89; 89] [97; 88; 98; 88]); vm_compute; lia. Defined.

Lemma replace_all_diverges_witness : replace_all 100 [88] [88; 88] [97; 88] = OutOfFuel.
Proof.
  apply (replace_all_diverges 100 [88] [88; 88] [97; 88]).
  - exists 1%nat. apply (occurs_app [88] [97] []).
  - exists 0%nat. apply (occurs_app [88] [] [88]).
Defined.

Lemma replace_all_once_witness :
  replace_all 5 [88; 88] [89] [88; 88; 88; 88] = Ret tt (replaced 4 [88; 88] [89] [88; 88; 88; 88]).
Proof.
  apply (replace_all_once 5 [88; 88] [89] [88; 88; 88; 88]); [done|done| |cbn; lia].
  intros x Hx % list_elem_of_singleton. subst. rewrite !not_elem_of_cons. split_and!; [done|done|apply not_elem_of_nil].
Defined.

Lemma find_nocase_spec_witness :
  exists b, find_nocase [72; 69; 76] [101; 108] = Some b /\
     (b = true <-> [72; 69; 76] <> [] /\ exists a m t, [72; 69; 76] = a ++ m ++ t /\
        map lower m = map lower [101; 108]).
Proof.
  apply (find_nocase_spec [72; 69; 76] [101; 108]); repeat constructor; lia.
Defined.

(* "a,b c,", split at the comma: "a", "b" *)
Lemma split_spec_witness :
  split 7 [97; 44; 98; 32; 99; 44] 44 [] = Ret tt [[97]; [98]] /\
  exists pieces, split 7 [97; 44; 98; 32; 99; 44] 44 [] = Ret tt ([] ++ map extract pieces) /\
    Forall (fun p => 44 ∉ p) pieces /\
    ([97; 44; 98; 32; 99; 44] = join 44 pieces \/
     [97; 44; 98; 32; 99; 44] = join 44 pieces ++ [44] /\ pieces <> []).
Proof. split; [done|]. apply (split_spec 7 [97; 44; 98; 32; 99; 44] 44 []). cbn. lia. Defined.

Lemma split_join_witness :
  split 6 [97; 44; 98; 99] 44 [] = Ret tt [[97]; [98; 99]] /\
  split_index 6 [97; 44; 98; 99] 44 1 [] = Ret [98; 99] [].
Proof.
  apply (split_join 6 44 [[97]; [98; 99]] [] 1); [|done|cbn; lia].
  repeat (constructor || split); try done; rewrite ?not_elem_of_cons; split_and?; try done; apply not_elem_of_nil.
Defined.

Lemma to_number_to_string_witness : to_number true 16 (to_string (-305)) = -305 /\
  to_number true 16 (to_string 40000) = 32767.
Proof.
  split; [by apply (to_number_to_string (-305) 16)|by apply (to_number_to_string 40000 16)].
Defined.

Lemma case_spec_witness : exists lo up,
  to_lower [72; 105] = Some lo /\ to_upper [72; 105] = Some up /\ length lo = 2%nat /\
  length up = 2%nat /\ find_nocase lo [73] = find_nocase [72; 105] [73] /\
  find_nocase up [73] = find_nocase [72; 105] [73] /\ to_lower up = Some lo.
Proof. apply (case_spec [72; 105] [73]). repeat constructor; lia. Defined.

End Demo.
