(* ===== verification/Unicode.v ===== *)
(** * Conversions between characters and between numbers

    include/unicode/string.hpp: the conversions between narrow and wide strings, over the
    two conversions of ATL ([CW2A] and [CA2W]), whose tables are those of the system;
    include/unicode/converters.hpp: the conversions of numbers to the type they are kept
    in. *)

From S2P Require Import Prelude.

(** ** converters.hpp *)

Module Numbers.

(** The types [converter] is specialised for, but for the floating ones; [long] has 32
    bits, [wchar_t] is unsigned with 16. *)
Inductive arithmetic := bool_ | char_ | signed_char | unsigned_char | wchar_t | short | unsigned_short | int | unsigned_int
  | long | unsigned_long | long_long | unsigned_long_long.

#[export] Instance arithmetic_eq_dec : EqDecision arithmetic.
Proof. solve_decision. Defined.

Definition bits (t : arithmetic) : Z :=
  match t with
  | bool_ => 1
  | char_ | signed_char | unsigned_char => 8
  | wchar_t | short | unsigned_short => 16
  | int | unsigned_int | long | unsigned_long => 32
  | long_long | unsigned_long_long => 64
  end.
Definition is_signed (t : arithmetic) : bool :=
  match t with char_ | signed_char | short | int | long | long_long => true | _ => false end.

(** [converter<t>::base_type]. *)
Definition base_type (t : arithmetic) : arithmetic :=
  match t with long_long | unsigned_long_long => long_long | _ => int end.

Definition in_range (t : arithmetic) (z : Z) : Prop :=
  if is_signed t then - 2 ^ (bits t - 1) <= z < 2 ^ (bits t - 1) else 0 <= z < 2 ^ bits t.

(** [static_cast<t>]. *)
Definition static_cast (t : arithmetic) (z : Z) : Z :=
  match t with
  | bool_ => if z =? 0 then 0 else 1
  | _ => if is_signed t then wrap (bits t) (z + 2 ^ (bits t - 1)) - 2 ^ (bits t - 1) else wrap (bits t) z
  end.

Definition to (t : arithmetic) (u : Z) : Z := static_cast t u.
Definition from (t : arithmetic) (v : Z) : Z := static_cast (base_type t) v.

Lemma static_cast_id t z : in_range t z -> static_cast t z = z.
Proof.
  intros H. destruct t; unfold in_range in H; cbn in H |- *; try (rewrite wrap_small by (cbn; lia); lia).
  destruct (Z.eqb_spec z 0); lia.
Qed.

Lemma static_cast_range t z : in_range t (static_cast t z).
Proof.
  destruct t; unfold in_range; cbn; try (by destruct (z =? 0));
    match goal with |- context [wrap ?w ?x] => pose proof (wrap_range w x ltac:(lia)) as Hr; cbn in Hr end; lia.
Qed.

(** Casting to a type of the same width and back. *)
Lemma cast_same_width t u z : t <> bool_ -> bits t = bits u -> u <> bool_ -> in_range u z -> static_cast u (static_cast t z) = z.
Proof.
  intros Ht Hb Hu Hr. pose proof (static_cast_range t z) as Hc.
  assert (H : exists k, static_cast t z = z + k * 2 ^ bits t).
  { destruct t; try done; cbn; unfold wrap; eexists;
      match goal with |- ?a mod ?b - ?c = _ => rewrite (Z.mod_eq a b) by lia; instantiate (1 := - (a / b)); lia
                    | |- ?a mod ?b = _ => rewrite (Z.mod_eq a b) by lia; instantiate (1 := - (a / b)); lia end. }
  destruct H as (k & ->). destruct u; try done; unfold in_range in Hr; cbn in Hb, Hr |- *; rewrite Hb;
    first [rewrite <- Z.add_assoc, (Z.add_comm (k * _)), Z.add_assoc; unfold wrap; cbn; rewrite Z.mod_add by lia; rewrite Z.mod_small by lia; lia
          |unfold wrap; cbn; rewrite Z.mod_add by lia; by rewrite Z.mod_small by lia].
Qed.

(** A value of any of the types is got back from what it is kept in. *)
Theorem converter_roundtrip t v : in_range t v -> to t (from t v) = v /\ in_range (base_type t) (from t v).
Proof.
  intros H. split; [|apply static_cast_range]. unfold to, from.
  destruct (decide (bits t = bits (base_type t))) as [E|E]; [by apply cast_same_width; destruct t|].
  rewrite (static_cast_id (base_type t)); [by apply static_cast_id|].
  destruct t; unfold in_range in *; cbn in *; lia.
Qed.

(** The other way round holds for what the type can hold, and for every value where the
    widths agree; a [bool] keeps 0 and 1 only. *)
Theorem converter_narrows t u : in_range (base_type t) u ->
  (from t (to t u) = u <-> in_range t u \/ bits t = bits (base_type t)).
Proof.
  intros H. unfold to, from. split.
  - intros E. destruct (decide (bits t = bits (base_type t))) as [?|E']; [by right|left]. rewrite <- E.
    pose proof (static_cast_range t u) as Hc. rewrite (static_cast_id (base_type t)); [done|].
    destruct t; unfold in_range in *; cbn in *; lia.
  - intros [Hr|E].
    + rewrite (static_cast_id t) by done. by apply static_cast_id.
    + apply cast_same_width; try done; by destruct t.
Qed.

End Numbers.

(** ** string.hpp *)

Module Strings.

(** A narrow or a wide string, by its characters. *)
Inductive text := Narrow (s : list Z) | Wide (s : list Z).
Definition chars (t : text) : list Z := match t with Narrow s | Wide s => s end.

Definition CP_ACP : Z := 0.
Definition CP_UTF8 : Z := 65001.

Section Strings.
(** [CW2A] and [CA2W] of a code page, from characters without a NUL. *)
Context (CW2A CA2W : Z -> list Z -> list Z).

(** [translate_t<char>::utf] and [translate_t<wchar_t>::utf]. *)
Definition translate_char (src : text) (code : Z) : list Z :=
  match src with Narrow s => s | Wide s => CW2A code (c_str s) end.
Definition translate_wchar (src : text) (code : Z) : list Z :=
  match src with Wide s => s | Narrow s => CA2W code (c_str s) end.

(** [select_type<T, U>::convert]. *)
Definition select_convert (wide : bool) (str : text) (code : Z) : list Z :=
  match str, wide with
  | Narrow s, false | Wide s, true => s
  | Narrow s, true => CA2W code (c_str s)
  | Wide s, false => CW2A code (c_str s)
  end.

(** [to] and the conversions of its result. *)
Record ret_helper := RetHelper { str_ : text; code_ : Z }.
Definition to (str : text) (code : Z) : ret_helper := RetHelper str code.
Definition operator_string (h : ret_helper) : list Z := select_convert false (str_ h) (code_ h).
Definition operator_wstring (h : ret_helper) : list Z := select_convert true (str_ h) (code_ h).

Definition to_a (src : text) (code : Z) : list Z := translate_char src code.
Definition to_w (src : text) (code : Z) : list Z := translate_wchar src code.
Definition to_t (UNICODE : bool) (src : text) (code : Z) : list Z :=
  if UNICODE then translate_wchar src code else translate_char src code.

(** [converter<utf8_char>::utf] and [converter<utf16_char>::utf]; their [size] is not
    used. *)
Definition utf8_converter (str : text) : list Z :=
  match str with
  | Narrow s => CW2A CP_UTF8 (c_str (CA2W CP_ACP (c_str s)))
  | Wide s => CW2A CP_UTF8 (c_str s)
  end.
Definition utf16_converter (str : text) : list Z :=
  match str with
  | Narrow s => CA2W CP_UTF8 (c_str s)
  | Wide s => c_str s
  end.

(** What a code page can hold is read back from it; no character becomes a NUL. *)
Class CodePage (code : Z) (holds : list Z -> Prop) : Prop := {
  encode_decode s : holds s -> CA2W code (CW2A code s) = s;
  encode_no_nul s : holds s -> 0 ∉ s -> 0 ∉ CW2A code s
}.

(** Every way to the same width gives the same; what is already of that width stays as it
    is, and what is not ends at its first NUL. A wide string that the code page can hold
    is read back up to that NUL. *)
Theorem conversions_agree code holds `{!CodePage code holds} str UNICODE s : holds (c_str s) ->
  operator_string (to str code) = to_a str code /\ operator_wstring (to str code) = to_w str code /\
  to_t UNICODE str code = (if UNICODE then to_w str code else to_a str code) /\
  to_a (Narrow s) code = s /\ to_w (Wide s) code = s /\
  to_w (Narrow (to_a (Wide s) code)) code = c_str s.
Proof.
  intros Hs. destruct str; (split; [done|]); (split; [done|]); (split; [done|]); (split; [done|]); (split; [done|]);
    cbn; (rewrite c_str_id; [by apply encode_decode|]); (apply encode_no_nul; [done|]);
    by destruct (c_str_prefix s) as (? & _ & ?).
Qed.

(** A string in UTF-8 goes through the code page of the system: it is kept only when both
    read it alike. *)
Theorem utf8_reencoded holds `{!CodePage CP_UTF8 holds} s : holds s -> 0 ∉ s -> holds (c_str (CA2W CP_ACP (CW2A CP_UTF8 s))) ->
  (utf8_converter (Narrow (CW2A CP_UTF8 s)) = CW2A CP_UTF8 s <-> c_str (CA2W CP_ACP (CW2A CP_UTF8 s)) = s) /\
  utf8_converter (Wide s) = CW2A CP_UTF8 s /\ utf16_converter (Narrow (utf8_converter (Wide s))) = s.
Proof.
  intros Hs H0 Hh. cbn. rewrite (c_str_id s) by done.
  rewrite (c_str_id (CW2A _ s)) by (by apply (encode_no_nul (holds := holds))). split; [split|split; [done|by apply encode_decode]].
  - intros E. by rewrite <- (encode_decode (code := CP_UTF8) (holds := holds) _ Hh), E, encode_decode.
  - by intros ->.
Qed.
End Strings.
End Strings.

(** ** A system whose code page is Latin-1 *)

Module Demo.
Import Strings.

(** UTF-8 of the characters below 2048, which take one or two bytes. *)
Definition encode (c : Z) : list Z := if c <? 128 then [c] else [192 + c / 64; 128 + c mod 64].
Fixpoint decode (l : list Z) : list Z :=
  match l with
  | [] => []
  | a :: l =>
      if a <? 128 then a :: decode l
      else match l with [] => [] | b :: l => (a - 192) * 64 + (b - 128) :: decode l end
  end.

Definition CW2A (code : Z) (s : list Z) : list Z := if code =? CP_UTF8 then concat (map encode s) else s.
Definition CA2W (code : Z) (s : list Z) : list Z := if code =? CP_UTF8 then decode s else s.
Definition short_chars (s : list Z) : Prop := Forall (fun c => 0 <= c < 2048) s.

Lemma utf8_page : CodePage CW2A CA2W CP_UTF8 short_chars.
Proof.
  split; intros s Hs; induction Hs as [|c s Hc _ IH]; try done; unfold CW2A, CA2W in *; cbn in *; unfold encode at 1.
  - destruct (Z.ltb_spec c 128) as [H|H].
    + cbn [app decode]. rewrite (proj2 (Z.ltb_lt c 128)) by done. by rewrite IH.
    + cbn [app decode]. pose proof (Z.div_mod c 64 ltac:(lia)). pose proof (Z.mod_pos_bound c 64 ltac:(lia)).
      rewrite (proj2 (Z.ltb_ge _ 128)) by lia. rewrite IH. f_equal. lia.
  - rewrite not_elem_of_cons. intros [H0 H]. rewrite not_elem_of_app. split; [|by apply IH].
    pose proof (Z.mod_pos_bound c 64 ltac:(lia)). pose proof (Z.div_pos c 64).
    destruct (c <? 128); rewrite !not_elem_of_cons; split_and!; try lia; apply not_elem_of_nil.
Qed.

Lemma converter_roundtrip_witness : Numbers.to Numbers.unsigned_int (Numbers.from Numbers.unsigned_int 4294967295) = 4294967295 /\
  Numbers.in_range Numbers.int (Numbers.from Numbers.unsigned_int 4294967295).
Proof. apply (Numbers.converter_roundtrip Numbers.unsigned_int 4294967295). unfold Numbers.in_range. cbn. lia. Defined.

Lemma converter_narrows_witness : Numbers.from Numbers.short (Numbers.to Numbers.short 70000) <> 70000.
Proof.
  intros E. apply (Numbers.converter_narrows Numbers.short 70000) in E; unfold Numbers.in_range in *; cbn in *; [destruct E; lia|lia].
Defined.

Lemma conversions_agree_witness : to_w CA2W (Narrow (to_a CW2A (Wide [65; 233; 0; 66]) CP_UTF8)) CP_UTF8 = [65; 233].
Proof.
  refine (proj2 (proj2 (proj2 (proj2 (proj2 (conversions_agree CW2A CA2W CP_UTF8 short_chars (CodePage0 := utf8_page)
    (Wide []) true [65; 233; 0; 66] _)))))). repeat constructor; lia.
Defined.

Lemma utf8_reencoded_witness : utf8_converter CW2A CA2W (Narrow (CW2A CP_UTF8 [233])) <> CW2A CP_UTF8 [233].
Proof.
  intros E. apply (utf8_reencoded CW2A CA2W short_chars (CodePage0 := utf8_page) [233]) in E;
    [vm_compute in E; done|unfold short_chars; apply (bool_decide_unpack _); by vm_compute..].
Defined.

End Demo.
