(* ===== verification/Exceptions.v ===== *)
(** * The exceptions

    include/exception/exception_base.hpp and async_io/service/exception.cpp, of a release
    build. The other files name an exception by its class; here is what its object
    carries. *)

From Stdlib Require Import Ascii String.
From S2P Require Import Prelude StringAlgo.

Local Open Scope list_scope.

(** The characters of a literal. *)
Definition literal (s : string) : str := List.map (fun a => Z.of_N (N_of_ascii a)) (list_ascii_of_string s).

(** [std::error_code]: a default one is of the system category. *)
Inductive category : Type := generic_category | system_category.
Record error_code : Type := ErrorCode { value : Z; category_ : category }.
Definition no_error : error_code := ErrorCode 0 system_category.
Definition make_error_code (e : Z) : error_code := ErrorCode e generic_category.

Record exception_base : Type := ExceptionBase { code_ : error_code; msg_ : str }.

Definition append (val : str) (e : exception_base) : exception_base := ExceptionBase (code_ e) (msg_ e ++ val).

(** What may be streamed into an exception. *)
Inductive item : Type :=
| Integer (val : Z)
| Boolean (val : bool)
| CString (val : str)
| StdString (val : str).

Definition stream (i : item) : exception_base -> exception_base :=
  match i with
  | Integer val => append (to_string val)
  | Boolean val => append (to_string_bool val)
  | CString val => append (c_str val)
  | StdString val => append val
  end.

Definition what (e : exception_base) : str := c_str (msg_ e).
Definition code (e : exception_base) : error_code := code_ e.

(** The copy constructor takes the message of its argument and leaves the rest; the copy
    and what is left. *)
Definition copy (rhs : exception_base) : exception_base * exception_base :=
  (ExceptionBase no_error (msg_ rhs), ExceptionBase (code_ rhs) []).

(** [network_exception]: EIO is 5. *)
Definition network_exception (msg : str) : exception_base := ExceptionBase (make_error_code 5) msg.

(** [FormatMessageA] may fail; its null buffer is then written to the stream. *)
Definition win32_exception_t (FormatMessageA : Z -> option str) (msg : str) (error : Z) : outcome exception_base unit :=
  match FormatMessageA error with
  | None => UB
  | Some buffer =>
      Ret tt (ExceptionBase (make_error_code error)
        (literal "Win32 Error(" ++ to_string error ++ literal ") at " ++ msg ++ literal ": " ++ c_str buffer))
  end.

Definition text (i : item) : str :=
  match i with Integer n => to_string n | Boolean b => to_string_bool b | CString s => c_str s | StdString s => s end.

Lemma stream_all l : forall e, foldl (fun e i => stream i e) e l = ExceptionBase (code_ e) (msg_ e ++ concat (List.map text l)).
Proof.
  induction l as [|i l IH]; intros e; cbn.
  - rewrite app_nil_r. by destruct e.
  - rewrite IH. destruct i; cbn; by rewrite <- app_assoc.
Qed.

(** What is streamed into an exception is appended to its message and does not change
    its code; copying it keeps the message, which the original loses, and forgets the
    code. *)
Theorem exception_carries e l :
  let e' := foldl (fun e i => stream i e) e l in
  what e' = c_str (msg_ e ++ concat (List.map text l)) /\ code e' = code e /\
  (copy e').1 = ExceptionBase no_error (msg_ e') /\ what (copy e').2 = [] /\ what (copy e').1 = what e'.
Proof. cbn. by rewrite stream_all. Qed.

Lemma to_string_no_nul n : 0 ∉ to_string n.
Proof. intros [?|?]%to_string_chars; lia. Qed.

(** A win32 exception says where, which number and what the system says of it; its code
    has the number under the generic category. When the system has no text for the
    number the constructor writes a null pointer. *)
Theorem win32_says FormatMessageA msg error : 0 ∉ msg ->
  (forall buffer, FormatMessageA error = Some buffer ->
     exists e, win32_exception_t FormatMessageA msg error = Ret tt e /\
       what e = literal "Win32 Error(" ++ to_string error ++ literal ") at " ++ msg ++ literal ": " ++ c_str buffer /\
       code e = ErrorCode error generic_category) /\
  (FormatMessageA error = None -> win32_exception_t FormatMessageA msg error = UB).
Proof.
  intros Hm. unfold win32_exception_t. split; [|by intros ->]. intros buffer ->. eexists. split; [done|]. split; [|done].
  unfold what. cbn [msg_].
  assert (Hl : forall s, forallb (fun c => negb (c =? 0)) (literal s) = true -> 0 ∉ literal s).
  { intros s H Hin. rewrite List.forallb_forall in H. apply list_elem_of_In, H in Hin. done. }
  rewrite !c_str_app by (done || apply to_string_no_nul || (apply Hl; by vm_compute)). by rewrite c_str_c_str.
Qed.

Module Demo.
Definition FormatMessageA (e : Z) : option str := if e =? 2 then Some (literal "no file") else None.

Lemma win32_says_witness : exists e, win32_exception_t FormatMessageA (literal "open") 2 = Ret tt e /\
  what e = literal "Win32 Error(2) at open: no file" /\ code e = ErrorCode 2 generic_category.
Proof.
  assert (H : 0 ∉ literal "open") by (by apply (bool_decide_unpack _); vm_compute).
  exact (proj1 (win32_says FormatMessageA (literal "open") 2 H) (literal "no file") eq_refl).
Defined.
End Demo.
