(* ===== verification/NetworkHelper.v ===== *)
(** * The helpers of the network

    include/win32/network/network_helper.hpp, for [char]. Winsock and the IP helper
    functions are parameters, with what their documentation says of them as laws;
    the linked lists they fill are lists. *)

From S2P Require Import Prelude StringAlgo.

(** ** Winsock and the IP helper functions *)

Definition INADDR_NONE : Z := 4294967295.

(** [IP_ADAPTER_INFO], as far as it is read. An [IP_ADDR_STRING] is embedded and
    followed by the chain of its [Next]. *)
Record adapter : Type := Adapter {
  Type_ : Z;
  AddressLength : Z;
  Address : list Z;
  IpAddressList : str * list str;
  GatewayList : str * list str
}.

(** What [GetTcpTable] answers for a buffer of some bytes: the rows, or the bytes it
    needs, or another error. *)
Inductive tcp_answer : Type :=
| Rows (local_ports : list Z)
| Insufficient (table_size : Z)
| Failed.

Class Windows : Type := {
  inet_addr : str -> Z;
  inet_ntoa : Z -> str;
  ntohl : Z -> Z;
  ntohs : Z -> Z;
  GetAdaptersInfo : nat -> option (list adapter);
  GetNetworkParams : option (str * list str);
  gethostbyname : str -> option (list Z);
  GetTcpTable : Z -> tcp_answer
}.

(** The dotted text of an address of four bytes. *)
Definition dotted (bytes : list Z) : str := join 46 (map to_string bytes).

(** The documented behaviour, on a little-endian machine. *)
Class WindowsLaws (W : Windows) : Prop := {
  inet_addr_dotted bs : length bs = 4%nat -> Forall (fun b => 0 <= b < 256) bs ->
    inet_addr (dotted bs) = le_value bs;
  inet_ntoa_bytes ip : 0 <= ip < 2 ^ 32 -> inet_ntoa ip = dotted (le_bytes 4 ip);
  ntohl_swaps bs : length bs = 4%nat -> Forall (fun b => 0 <= b < 256) bs ->
    ntohl (le_value bs) = le_value (rev bs);
  ntohs_swaps lo hi : 0 <= lo < 256 -> 0 <= hi < 256 -> ntohs (lo + 256 * hi) = hi + 256 * lo;
  (** A row is 20 bytes, the count before the rows 4; what is asked for is what does not fit. *)
  table_fits size rows : GetTcpTable size = Rows rows -> 4 + 20 * len rows <= size;
  table_needs size n : GetTcpTable size = Insufficient n -> size < n
}.

Section Helpers.
Context `{W : Windows}.

(** ** Addresses *)

Definition ip_2_string (ip : Z) : str := inet_ntoa ip.
Definition string_2_ip (ip : str) : Z := ntohl (inet_addr (c_str ip)).

Definition zero : str := [48].
Definition all_ones : str := [50; 53; 53].

(** The loop over the four parts: [None] when one is out of range, the number of
    parts that are 255 otherwise. *)
Fixpoint check_parts (vecIP : list str) (nCount : Z) : option Z :=
  match vecIP with
  | [] => Some nCount
  | part :: vecIP' =>
      let nCount' := if decide (part = all_ones) then nCount + 1 else nCount in
      let nIP := to_number true 32 part in
      if (nIP <? 0) || (255 <? nIP) then None else check_parts vecIP' nCount'
  end.

(** The state is [vecIP]. *)
Definition is_valid_ip (ip : str) : prog (list str) bool :=
  split (S (length ip)) ip 46 ;;; fun vecIP =>
  let answer :=
    if negb (length vecIP =? 4)%nat then false
    else if bool_decide (head vecIP = Some zero) || bool_decide (last vecIP = Some zero) then false
    else match check_parts vecIP 0 with
         | None => false
         | Some nCount =>
             if nCount =? 4 then false else negb (inet_addr (c_str ip) =? INADDR_NONE)
         end in
  Ret answer vecIP.

(** ** Adapters *)

Definition addresses (l : str * list str) : list str := l.1 :: l.2.

Fixpoint push_addresses (pAddr : list str) : prog (list str) unit := fun IPs =>
  match pAddr with
  | [] => Ret tt IPs
  | a :: next => push_addresses next (IPs ++ [a])
  end.

Fixpoint push_adapters (field : adapter -> str * list str) (pAdapter : list adapter) : prog (list str) unit :=
  match pAdapter with
  | [] => ret tt
  | a :: next => push_addresses (addresses (field a)) ;;; push_adapters field next
  end.

Definition get_local_ips : prog (list str) bool :=
  match GetAdaptersInfo 16 with
  | None => ret false
  | Some info => push_adapters IpAddressList info ;;; ret true
  end.

Definition get_local_gate_ips : prog (list str) bool :=
  match GetAdaptersInfo 16 with
  | None => ret false
  | Some info => push_adapters GatewayList info ;;; ret true
  end.

Definition hex_digit (n : Z) : Z := if n <? 10 then 48 + n else 55 + n.

(** [sprintf_s] with [%02X] of a byte, and the whole format. *)
Definition hex_byte (b : Z) : str := [hex_digit (b / 16); hex_digit (b mod 16)].
Definition mac_format (bytes : list Z) : str := join 45 (map hex_byte bytes).

Definition MIB_IF_TYPE_ETHERNET : Z := 6.

Definition is_adapter_of (srcIP : str) (a : adapter) : bool :=
  (Type_ a =? MIB_IF_TYPE_ETHERNET) && (AddressLength a =? 6) && bool_decide (srcIP = (IpAddressList a).1).

(** Without the assertions of a debug build. *)
Definition get_mac_addr (ip : str) : str :=
  match GetAdaptersInfo 10 with
  | None => []
  | Some info =>
      match List.find (is_adapter_of ip) info with
      | Some a => mac_format (take 6 (Address a))
      | None => []
      end
  end.

(** ** Name servers *)

(** The loop reads the second entry of the list each time: [rest] is the chain after
    the first, [pIPAddr] what is left of it. *)
Fixpoint dns_loop (fuel : nat) (rest pIPAddr : list str) : prog (list str) unit := fun dns =>
  match fuel with
  | O => OutOfFuel
  | S f =>
      match pIPAddr with
      | [] => Ret tt dns
      | _ =>
          match rest with
          | [] => UB
          | a :: next => dns_loop f rest next (dns ++ [a])
          end
      end
  end.

Definition get_local_dns (fuel : nat) : prog (list str) bool :=
  match GetNetworkParams with
  | None => ret true
  | Some (first, rest) => fun dns => (dns_loop fuel rest rest ;;; ret true) (dns ++ [first])
  end.

(** ** Hardware addresses *)

(** An [int] stored in a [char]. *)
Definition to_char (z : Z) : Z := wrap 8 (z + 128) - 128.
Definition nibble (c : Z) : Z := c - (if 65 <=? c then 65 - 10 else 48).

Fixpoint mac_loop (n i : nat) (mac tmp : str) : str :=
  match n with
  | O => tmp
  | S n' =>
      mac_loop n' (S i) mac
        (tmp ++ [to_char (nibble (mac !!! (i * 3)%nat) * 16)] ++ [to_char (nibble (mac !!! (i * 3 + 1)%nat))])
  end.

Definition mac_string_to_binary (mac : str) : str :=
  if decide (mac = []) then []
  else if negb (length mac =? 17)%nat then []
  else mac_loop 6 0 mac [].

(** ** Local addresses *)

Definition any_address : str := [48; 46; 48; 46; 48; 46; 48].
Definition loopback : str := [49; 50; 55; 46; 48; 46; 48; 46; 49].

Definition is_local_by_ip (ip : str) : bool :=
  if decide (ip = any_address) then false
  else if decide (ip = loopback) then true
  else match get_local_ips [] with
       | Ret true IPs => bool_decide (ip ∈ IPs)
       | _ => false
       end.

(** [None]: [h_addr_list[0]] of a host without addresses is a null pointer. *)
Definition is_local_by_machine_name (name : str) : option bool :=
  match gethostbyname (c_str name) with
  | None => Some false
  | Some [] => None
  | Some (addr :: _) => Some (is_local_by_ip (inet_ntoa addr))
  end.

(** ** Ports *)

Fixpoint scan_ports (port : Z) (rows : list Z) : bool :=
  match rows with
  | [] => false
  | local_port :: rows' => if ntohs (wrap 16 local_port) =? port then true else scan_ports port rows'
  end.

Definition sizeof_MIB_TCPTABLE : Z := 24.

(** The second table is written for [table_size] bytes, whatever the vector holds. *)
Definition is_port_used (port : Z) : outcome unit bool :=
  match GetTcpTable (sizeof_MIB_TCPTABLE * 100) with
  | Insufficient table_size =>
      let capacity := sizeof_MIB_TCPTABLE * (table_size / sizeof_MIB_TCPTABLE) in
      match GetTcpTable table_size with
      | Rows rows => if capacity <? 4 + 20 * len rows then UB else Ret false tt
      | _ => Ret false tt
      end
  | Rows rows => Ret (scan_ports port rows) tt
  | Failed => Ret false tt
  end.
End Helpers.

(** ** Parts of an address *)

Definition part_checks (n : Z) : bool :=
  bool_decide (to_string n <> []) && forallb (fun c => negb (c =? 46) && negb (isspace c) && negb (c =? 0)) (to_string n)
  && (to_number true 32 (to_string n) =? n) && bool_decide (to_string n = zero <-> n = 0)
  && bool_decide (to_string n = all_ones <-> n = 255).

Lemma parts_checked n : 0 <= n < 256 -> part_checks n = true.
Proof.
  assert (H : forallb part_checks (seqZ 0 256) = true) by by vm_compute.
  rewrite List.forallb_forall in H. intros Hn. apply H, list_elem_of_In, elem_of_seqZ. lia.
Qed.

Lemma part_ok n : 0 <= n < 256 ->
  word 46 (to_string n) /\ 0 ∉ to_string n /\ to_number true 32 (to_string n) = n /\
  (to_string n = zero <-> n = 0) /\ (to_string n = all_ones <-> n = 255).
Proof.
  intros H%parts_checked. unfold part_checks in H.
  apply andb_true_iff in H as [H Hones%bool_decide_eq_true]. apply andb_true_iff in H as [H Hz%bool_decide_eq_true].
  apply andb_true_iff in H as [H Hn%Z.eqb_eq]. apply andb_true_iff in H as [Hne%bool_decide_eq_true H].
  rewrite List.forallb_forall in H.
  assert (Hc : forall c, c ∈ to_string n -> c <> 46 /\ isspace c = false /\ c <> 0).
  { intros c Hc%list_elem_of_In%H. bool_props. done. }
  split_and!; [split_and!; [done| |]|..|done|done|done].
  - by intros [? _]%Hc.
  - apply Forall_forall. by intros c (_ & ? & _)%Hc.
  - by intros (_ & _ & ?)%Hc.
Qed.

Lemma join_avoids x sep ps : x <> sep -> Forall (fun p => x ∉ p) ps -> x ∉ join sep ps.
Proof.
  intros Hx. induction 1 as [|p [|q ps] Hp Hps IH]; cbn [join]; [apply not_elem_of_nil|done|].
  intros [?|[?|?]%elem_of_cons]%elem_of_app; done.
Qed.

Lemma c_str_dotted bs : Forall (fun b => 0 <= b < 256) bs -> c_str (dotted bs) = dotted bs.
Proof.
  intros Hb. apply c_str_id, join_avoids; [done|]. apply Forall_map. eapply Forall_impl; [exact Hb|].
  intros b H%part_ok. apply H.
Qed.

Lemma split_dotted fuel bs seq : Forall (fun b => 0 <= b < 256) bs -> bs <> [] ->
  (length (dotted bs) < fuel)%nat -> split fuel (dotted bs) 46 seq = Ret tt (seq ++ map to_string bs).
Proof.
  intros Hb Hne Hf. apply (split_join fuel 46 (map to_string bs) seq 0); [|by destruct bs|done].
  apply Forall_map. eapply Forall_impl; [exact Hb|]. intros b H%part_ok. apply H.
Qed.

Lemma check_parts_bytes bs n : Forall (fun b => 0 <= b < 256) bs ->
  check_parts (map to_string bs) n = Some (n + Z.of_nat (length (filter (fun b => b = 255) bs))).
Proof.
  intros Hb. revert n. induction Hb as [|b bs Hb _ IH]; intros n; cbn [map check_parts].
  - cbn. f_equal. lia.
  - destruct (part_ok b Hb) as (_ & _ & -> & _ & Hones).
    rewrite (proj2 (Z.ltb_ge b 0)), (proj2 (Z.ltb_ge 255 b)) by lia. cbn [orb]. rewrite IH.
    destruct (decide (to_string b = all_ones)) as [->%Hones|H].
    + rewrite filter_cons_True by done. cbn [length]. f_equal. lia.
    + rewrite filter_cons_False by (by intros ?%Hones). done.
Qed.

Lemma check_parts_range parts n m : check_parts parts n = Some m ->
  Forall (fun p => 0 <= to_number true 32 p <= 255) parts.
Proof.
  revert n. induction parts as [|p parts IH]; intros n; cbn [check_parts]; [constructor|].
  destruct ((to_number true 32 p <? 0) || (255 <? to_number true 32 p)) eqn:E; [done|].
  intros H%IH. bool_props. constructor; [lia|done].
Qed.

Section Addresses.
Context {W : Windows} {L : WindowsLaws W}.

(** [is_valid_ip] of a dotted text answers as its comments say: the first and the
    last part are not 0 and the four are not all 255. *)
Theorem valid_ip_dotted a b c d : Forall (fun n => 0 <= n < 256) [a; b; c; d] ->
  is_valid_ip (dotted [a; b; c; d]) [] =
  Ret (negb ((a =? 0) || (d =? 0)) && negb ((a =? 255) && (b =? 255) && (c =? 255) && (d =? 255)))
      (map to_string [a; b; c; d]).
Proof.
  intros Hb. unfold is_valid_ip. rewrite (bind_ret _ _ _ _ _ (split_dotted _ _ [] Hb ltac:(done) (Nat.lt_succ_diag_r _))).
  cbn [app]. f_equal. rewrite check_parts_bytes, c_str_dotted, inet_addr_dotted by done.
  repeat (apply Forall_cons in Hb as [? Hb]).
  cbn [map length Nat.eqb negb head last].
  destruct (part_ok a) as (_ & _ & _ & Ha & _); [done|]. destruct (part_ok d) as (_ & _ & _ & Hd & _); [done|].
  assert (Hsome : forall n, 0 <= n < 256 -> bool_decide (Some (to_string n) = Some zero) = (n =? 0)).
  { intros n Hn. destruct (part_ok n Hn) as (_ & _ & _ & Hz & _).
    destruct (Z.eqb_spec n 0); [apply bool_decide_eq_true_2|apply bool_decide_eq_false_2]; naive_solver. }
  rewrite !Hsome by done. destruct ((a =? 0) || (d =? 0)); [done|].
  assert (Hnone : le_value [a; b; c; d] = INADDR_NONE <-> a = 255 /\ b = 255 /\ c = 255 /\ d = 255).
  { cbn [le_value]. unfold INADDR_NONE. lia. }
  cbn [negb andb]. destruct (Z.eqb_spec (le_value [a; b; c; d]) INADDR_NONE) as [E|E].
  - apply Hnone in E as (-> & -> & -> & ->). done.
  - rewrite !filter_cons, filter_nil. repeat case_decide; subst; cbn; repeat case_match; bool_props; try done; lia.
Qed.

(** Whatever text [is_valid_ip] accepts has four parts, the first words of what
    stands between its dots, each a number of a byte, and [inet_addr] takes it. *)
Theorem valid_ip_sound ip parts : is_valid_ip ip [] = Ret true parts ->
  length parts = 4%nat /\ Forall (fun p => 0 <= to_number true 32 p <= 255) parts /\
  head parts <> Some zero /\ last parts <> Some zero /\ inet_addr (c_str ip) <> INADDR_NONE /\
  exists pieces, parts = map extract pieces /\ (ip = join 46 pieces \/ ip = join 46 pieces ++ [46]).
Proof.
  destruct (split_spec (S (length ip)) ip 46 [] (Nat.lt_succ_diag_r _)) as (pieces & Hs & _ & Hip).
  unfold is_valid_ip. rewrite (bind_ret _ _ _ _ _ Hs). cbn [app]. intros [= H <-].
  destruct (length (map extract pieces) =? 4)%nat eqn:Hl; [|done]. apply Nat.eqb_eq in Hl. cbn [negb] in H.
  destruct (bool_decide (head _ = _)) eqn:Hh; [done|]. destruct (bool_decide (last _ = _)) eqn:Ht; [done|].
  cbn [orb] in H. apply bool_decide_eq_false in Hh, Ht.
  destruct (check_parts (map extract pieces) 0) as [n|] eqn:Hn; [|done].
  destruct (n =? 4); [done|]. bool_props. split_and!; [done|by eapply check_parts_range|done|done|done|].
  exists pieces. split; [done|]. destruct Hip as [?|[? _]]; auto.
Qed.

Lemma turned_around bs : length bs = 4%nat -> Forall (fun n => 0 <= n < 256) bs ->
  inet_ntoa (ntohl (inet_addr (dotted bs))) = dotted (rev bs) /\
  inet_ntoa (ntohl (ntohl (inet_addr (dotted bs)))) = dotted bs /\
  ntohl (ntohl (inet_addr (dotted bs))) = inet_addr (dotted bs).
Proof.
  intros Hl Hb. rewrite inet_addr_dotted by done.
  assert (Hb' : Forall (fun n => 0 <= n < 256) (rev bs)) by by apply Forall_rev.
  assert (Hl' : length (rev bs) = 4%nat) by by rewrite length_rev.
  rewrite ntohl_swaps by done. rewrite ntohl_swaps, rev_involutive by done.
  assert (H : forall l, length l = 4%nat -> Forall (fun n => 0 <= n < 256) l -> inet_ntoa (le_value l) = dotted l).
  { intros l Hn Hf. pose proof (le_bytes_value l Hf) as E. pose proof (le_value_range l Hf) as Hr.
    rewrite Hn in E, Hr. by rewrite inet_ntoa_bytes, E. }
  by rewrite !H.
Qed.

(** [ip_2_string] takes the network order of [inet_addr], [string_2_ip] answers the
    host order: one after the other turns the address around. *)
Theorem ip_turned_around bs : length bs = 4%nat -> Forall (fun n => 0 <= n < 256) bs ->
  ip_2_string (string_2_ip (dotted bs)) = dotted (rev bs) /\
  ip_2_string (ntohl (string_2_ip (dotted bs))) = dotted bs.
Proof.
  intros Hl Hb. unfold ip_2_string, string_2_ip. rewrite c_str_dotted by done.
  by destruct (turned_around bs Hl Hb) as (? & ? & _).
Qed.

(** ** [ip_address] (async_io/network/ip_address.cpp)

    The address is in the host order: [bind] and [connect] of socket.cpp hand
    [htonl] of it to Winsock; [htonl] is [ntohl]. *)
Definition ip_address_parse (s : str) : Z := ntohl (inet_addr (c_str s)).
Definition ip_address_print (address : Z) : str := inet_ntoa address.
Definition s_addr (address : Z) : Z := ntohl address.

(** What was parsed is bound and connected to as it was written, and printed the other
    way round. *)
Theorem ip_address_prints_reversed bs : length bs = 4%nat -> Forall (fun n => 0 <= n < 256) bs ->
  s_addr (ip_address_parse (dotted bs)) = inet_addr (dotted bs) /\
  ip_address_print (ip_address_parse (dotted bs)) = dotted (rev bs).
Proof.
  intros Hl Hb. unfold s_addr, ip_address_print, ip_address_parse. rewrite c_str_dotted by done.
  by destruct (turned_around bs Hl Hb) as (? & _ & ?).
Qed.
End Addresses.

(** ** What the loops over the adapters collect *)

Section Adapters.
Context {W : Windows}.

Lemma push_addresses_ok l IPs : push_addresses l IPs = Ret tt (IPs ++ l).
Proof.
  revert IPs. induction l as [|a l IH]; intros IPs; cbn; [by rewrite app_nil_r|].
  by rewrite IH, <- app_assoc.
Qed.

Lemma push_adapters_ok field l IPs :
  push_adapters field l IPs = Ret tt (IPs ++ concat (map (fun a => addresses (field a)) l)).
Proof.
  revert IPs. induction l as [|a l IH]; intros IPs; cbn [push_adapters map concat].
  - by rewrite app_nil_r.
  - rewrite (bind_ret _ _ _ _ _ (push_addresses_ok _ _)), IH. by rewrite <- app_assoc.
Qed.

(** An address is local when it is the loopback address or one of an adapter's; the
    address 0.0.0.0, which an adapter without a lease has, is not; and when the
    adapters cannot be listed only the loopback address is. *)
Theorem local_ip_spec ip : is_local_by_ip ip = true <->
  ip = loopback \/
  ip <> any_address /\ exists info a, GetAdaptersInfo 16 = Some info /\ a ∈ info /\ ip ∈ addresses (IpAddressList a).
Proof.
  unfold is_local_by_ip, get_local_ips.
  destruct (decide (ip = any_address)) as [->|H0]; [by split; [|intros [?|[? _]]]|].
  destruct (decide (ip = loopback)) as [->|H1]; [by split; [left|]|].
  destruct (GetAdaptersInfo 16) as [info|]; cbn [ret].
  - rewrite (bind_ret _ _ _ _ _ (push_adapters_ok _ _ _)). cbn. rewrite bool_decide_eq_true, list_elem_of_In, in_concat.
    setoid_rewrite in_map_iff. setoid_rewrite <- list_elem_of_In. naive_solver.
  - split; [done|]. intros [?|(_ & ? & ? & ? & _)]; done.
Qed.
End Adapters.

(** ** Hardware addresses *)

Lemma hex_digit_nibble n : 0 <= n < 16 -> nibble (hex_digit n) = n.
Proof.
  intros Hn. unfold nibble, hex_digit. destruct (Z.ltb_spec n 10); destruct (Z.leb_spec 65 (48 + n));
    destruct (Z.leb_spec 65 (55 + n)); lia.
Qed.

(** The two characters that [mac_string_to_binary] appends for a byte: the high
    nibble in its place, and the low one. *)
Definition two_characters (b : Z) : str := [to_char (b / 16 * 16); b mod 16].

(** The text [get_mac_addr] writes comes back as twelve characters, not six: the two
    halves of a byte are appended one after the other instead of being added. *)
Theorem mac_in_halves bs : length bs = 6%nat -> Forall (fun b => 0 <= b < 256) bs ->
  mac_string_to_binary (mac_format bs) = concat (map two_characters bs) /\
  length (mac_string_to_binary (mac_format bs)) = 12%nat /\
  Forall (fun b => wrap 8 (to_char (b / 16 * 16) + b mod 16) = b) bs.
Proof.
  intros Hl Hb. assert (H : mac_string_to_binary (mac_format bs) = concat (map two_characters bs)).
  { destruct bs as [|b1 [|b2 [|b3 [|b4 [|b5 [|b6 [|]]]]]]]; try done.
    assert (Hn : forall b, b ∈ [b1; b2; b3; b4; b5; b6] ->
      nibble (hex_digit (b / 16)) = b / 16 /\ nibble (hex_digit (b mod 16)) = b mod 16 /\ to_char (b mod 16) = b mod 16).
    { intros b Hin. pose proof (proj1 (Forall_forall _ _) Hb b Hin) as Hr. cbn beta in Hr.
      pose proof (Z.mod_pos_bound b 16). assert (0 <= b / 16 < 16) by (split; [apply Z.div_pos|apply Z.div_lt_upper_bound]; lia).
      rewrite !hex_digit_nibble by lia. split_and!; [done|done|]. unfold to_char. rewrite wrap_small; lia. }
    unfold mac_string_to_binary. rewrite decide_False by done.
    cbn -[nibble to_char Z.div Z.modulo Z.mul hex_digit]. unfold lookup_total.
    cbn -[nibble to_char Z.div Z.modulo Z.mul hex_digit].
    destruct (Hn b1) as (-> & -> & ->); [set_solver|]. destruct (Hn b2) as (-> & -> & ->); [set_solver|].
    destruct (Hn b3) as (-> & -> & ->); [set_solver|]. destruct (Hn b4) as (-> & -> & ->); [set_solver|].
    destruct (Hn b5) as (-> & -> & ->); [set_solver|]. by destruct (Hn b6) as (-> & -> & ->); [set_solver|]. }
  rewrite H. split_and!; [done| |].
  - rewrite length_concat, map_map. clear H Hb. by destruct bs as [|? [|? [|? [|? [|? [|? [|]]]]]]].
  - eapply Forall_impl; [exact Hb|]. intros b Hr. cbn beta in Hr. unfold to_char, wrap.
    rewrite Z.add_comm, Z.add_sub_assoc, Zminus_mod, Zplus_mod_idemp_r, <- Zminus_mod.
    replace (b mod 16 + (b / 16 * 16 + 128) - 128) with b; [apply Z.mod_small; lia|].
    pose proof (Z.div_mod b 16 ltac:(lia)). lia.
Qed.

(** ** Name servers and ports *)

Section Tables.
Context {W : Windows} {L : WindowsLaws W}.

Lemma dns_loop_stuck fuel : forall a b next pIPAddr dns, pIPAddr <> [] ->
  dns_loop fuel (a :: b :: next) pIPAddr dns = OutOfFuel.
Proof.
  induction fuel as [|f IH]; intros a b next [|p pIPAddr] dns Hp; try done. cbn [dns_loop]. by apply IH.
Qed.

(** [get_local_dns] collects one or two servers; with a third it does not return,
    because each round starts again at the second. *)
Theorem local_dns fuel dns first rest : GetNetworkParams = Some (first, rest) ->
  ((length rest <= 1)%nat -> (1 < fuel)%nat -> get_local_dns fuel dns = Ret true (dns ++ first :: rest)) /\
  ((2 <= length rest)%nat -> get_local_dns fuel dns = OutOfFuel).
Proof.
  intros H. unfold get_local_dns. rewrite H. unfold bind. split.
  - intros Hr Hf. destruct fuel as [|[|f]]; [lia|lia|]. destruct rest as [|a [|b rest]]; [done| |cbn in Hr; lia].
    cbn. by rewrite <- app_assoc.
  - intros Hr. destruct rest as [|a [|b rest]]; [cbn in Hr; lia|cbn in Hr; lia|]. by rewrite dns_loop_stuck.
Qed.

Lemma scan_ports_ok port rows : scan_ports port rows = true <-> exists r, r ∈ rows /\ ntohs (wrap 16 r) = port.
Proof.
  induction rows as [|r rows IH]; cbn [scan_ports]; [set_solver|].
  setoid_rewrite elem_of_cons. destruct (Z.eqb_spec (ntohs (wrap 16 r)) port); naive_solver.
Qed.

(** A port is used when a row of the first table has it, in host order although the
    comment asks for network order; a table that needs the larger buffer is not
    looked at. *)
Theorem port_scan lo hi : 0 <= lo < 256 -> 0 <= hi < 256 ->
  (forall rows, GetTcpTable (sizeof_MIB_TCPTABLE * 100) = Rows rows -> Forall (fun r => 0 <= r < 65536) rows ->
     exists b, is_port_used (lo + 256 * hi) = Ret b tt /\ (b = true <-> hi + 256 * lo ∈ rows)) /\
  (forall n, GetTcpTable (sizeof_MIB_TCPTABLE * 100) = Insufficient n -> is_port_used (lo + 256 * hi) <> Ret true tt).
Proof.
  intros Hlo Hhi. unfold is_port_used. split.
  - intros rows -> Hr. eexists. split; [done|]. rewrite scan_ports_ok. split.
    + intros (r & Hin & Hp). pose proof (proj1 (Forall_forall _ _) Hr r Hin) as Hb. cbn beta in Hb.
      unfold wrap in Hp. rewrite Z.mod_small in Hp by lia.
      pose proof (Z.div_mod r 256 ltac:(lia)) as E. pose proof (Z.mod_pos_bound r 256 ltac:(lia)).
      assert (0 <= r / 256 < 256) by (split; [apply Z.div_pos|apply Z.div_lt_upper_bound]; lia).
      replace r with (r mod 256 + 256 * (r / 256)) in Hp by lia. rewrite ntohs_swaps in Hp by lia.
      assert (r / 256 = lo) by lia. assert (r mod 256 = hi) by lia. by replace (hi + 256 * lo) with r by lia.
    + intros Hin. exists (hi + 256 * lo). split; [done|]. unfold wrap. rewrite Z.mod_small by lia.
      by apply ntohs_swaps.
  - intros n ->. destruct (GetTcpTable n); [|done..]. by destruct (_ <? _).
Qed.

(** A table of [k] connections that does not fit the first buffer is written past the
    end of the second one, whose size is rounded down to whole elements, unless it
    happens to fill them. *)
Theorem port_table_overflow port k rows : GetTcpTable (sizeof_MIB_TCPTABLE * 100) = Insufficient (4 + 20 * k) ->
  GetTcpTable (4 + 20 * k) = Rows rows -> len rows = k ->
  is_port_used port = if k mod 6 =? 1 then Ret false tt else UB.
Proof.
  intros H1 H2 Hk. unfold is_port_used. rewrite H1, H2, Hk. unfold sizeof_MIB_TCPTABLE.
  pose proof (Z.div_mod (4 + 20 * k) 24 ltac:(lia)). pose proof (Z.mod_pos_bound (4 + 20 * k) 24 ltac:(lia)).
  pose proof (Z.div_mod k 6 ltac:(lia)). pose proof (Z.mod_pos_bound k 6 ltac:(lia)).
  destruct (Z.ltb_spec (24 * ((4 + 20 * k) / 24)) (4 + 20 * k)), (Z.eqb_spec (k mod 6) 1); try done; lia.
Qed.
End Tables.

(** ** A machine with one adapter and many connections *)

Module Demo.
Definition connections (n : nat) : list Z := replicate n 20480.   (* port 80 *)
Definition here : adapter := Adapter 6 6 [0; 18; 239; 172; 10; 120] (dotted [10; 0; 0; 7], []) (dotted [10; 0; 0; 1], []).

#[export] Instance host : Windows := {
  inet_addr s := match split (S (length s)) s 46 [] with
                 | Ret _ parts => le_value (map (to_number true 32) parts)
                 | _ => INADDR_NONE
                 end;
  inet_ntoa ip := dotted (le_bytes 4 ip);
  ntohl z := le_value (rev (le_bytes 4 z));
  ntohs z := z / 256 + 256 * (z mod 256);
  GetAdaptersInfo n := if (1 <=? n)%nat then Some [here] else None;
  GetNetworkParams := Some (dotted [8; 8; 8; 8], [dotted [8; 8; 4; 4]; dotted [1; 1; 1; 1]]);
  gethostbyname name := None;
  GetTcpTable size := if 4 + 20 * 150 <=? size then Rows (connections 150) else Insufficient (4 + 20 * 150)
}.

#[export] Instance host_laws : WindowsLaws host.
Proof.
  split.
  - intros bs Hl Hb. cbn [inet_addr host]. assert (Hne : bs <> []) by by destruct bs. rewrite split_dotted by (done || lia).
    cbn [app]. rewrite map_map. f_equal. clear Hl Hne. induction Hb as [|b bs Hb _ IH]; [done|].
    cbn [map]. destruct (part_ok b Hb) as (_ & _ & -> & _). by rewrite IH.
  - done.
  - intros bs Hl Hb. cbn [ntohl host]. pose proof (le_bytes_value bs Hb) as E. rewrite Hl in E. by rewrite E.
  - intros lo hi Hlo Hhi. cbn [ntohs host]. rewrite (Z.mul_comm 256), Z.mod_add, Z.div_add by lia.
    rewrite Z.mod_small, Z.div_small by lia. lia.
  - intros size rows. cbn [GetTcpTable host]. destruct (Z.leb_spec (4 + 20 * 150) size); [|done].
    intros [= <-]. cbn. lia.
  - intros size n. cbn [GetTcpTable host]. destruct (Z.leb_spec (4 + 20 * 150) size); [done|]. intros [= <-]. lia.
Qed.

Lemma valid_ip_dotted_witness :
  is_valid_ip (dotted [192; 168; 1; 10]) [] = Ret true (map to_string [192; 168; 1; 10]).
Proof. apply (valid_ip_dotted 192 168 1 10). by apply (bool_decide_unpack _); vm_compute. Defined.

Lemma valid_ip_sound_witness : length (map to_string [1; 2; 3; 4]) = 4%nat.
Proof. apply (valid_ip_sound (dotted [1; 2; 3; 4] ++ [46]) (map to_string [1; 2; 3; 4])). by vm_compute. Defined.

Lemma ip_turned_around_witness : ip_2_string (string_2_ip (dotted [192; 168; 1; 10])) = dotted (rev [192; 168; 1; 10]).
Proof.
  assert (Hb : Forall (fun n => 0 <= n < 256) [192; 168; 1; 10]) by (by apply (bool_decide_unpack _); vm_compute).
  exact (proj1 (ip_turned_around (W:=host) [192; 168; 1; 10] eq_refl Hb)).
Defined.

Lemma ip_address_prints_reversed_witness :
  ip_address_print (ip_address_parse (dotted [10; 0; 0; 7])) = dotted (rev [10; 0; 0; 7]).
Proof.
  assert (Hb : Forall (fun n => 0 <= n < 256) [10; 0; 0; 7]) by (by apply (bool_decide_unpack _); vm_compute).
  exact (proj2 (ip_address_prints_reversed (W:=host) [10; 0; 0; 7] eq_refl Hb)).
Defined.

Lemma mac_in_halves_witness : length (mac_string_to_binary (get_mac_addr (dotted [10; 0; 0; 7]))) = 12%nat.
Proof.
  apply (mac_in_halves [0; 18; 239; 172; 10; 120]); [done|]. by apply (bool_decide_unpack _); vm_compute.
Defined.

Lemma local_dns_witness : get_local_dns 1000 [] = OutOfFuel.
Proof. apply (local_dns (W:=host) 1000 [] (dotted [8; 8; 8; 8]) [dotted [8; 8; 4; 4]; dotted [1; 1; 1; 1]] eq_refl). cbn. lia. Defined.

Lemma port_scan_witness : is_port_used 80 <> Ret true tt.
Proof. by apply (port_scan (W:=host) 80 0 ltac:(lia) ltac:(lia)) with (n := 3004). Defined.

Lemma port_table_overflow_witness : is_port_used 80 = UB.
Proof. by apply (port_table_overflow (W:=host) 80 150 (connections 150)). Defined.
End Demo.
