(* ===== verification/Dispatcher.v ===== *)
(** * The dispatcher

    include/async_io/service/dispatcher.hpp, dispatcher.cpp and iocp.hpp, the
    callback objects of async_result.hpp, and the requests of socket.hpp
    ([async_read], [async_write], [async_accept], [async_connect],
    [async_disconnect]) as the dispatcher sees them. A callback object is made for
    each request, handed to the system, called through the completion port by one
    of the worker threads, and freed. *)

From S2P Require Import Prelude.

(** ** State *)

(** [next]: the objects made so far, numbered in order. [flight]: with the system;
    [port]: queued at the completion port. [workers]: for each thread of [threads_],
    the entries [_thread_io] has still to call, [None] once it has left its loop;
    [entrys]: for each thread, the objects its array [entrys] names.
    [invoked], [failed], [freed]: the objects whose handler was called, whose
    request threw, that were deallocated. [dropped]: objects nobody will call.
    [errors]: calls of [error_handler_]. *)
Record state := State {
  next : nat;
  flight : list nat;
  port : list nat;
  workers : list (option (list nat));
  entrys : list (list nat);
  invoked : list nat;
  failed : list nat;
  freed : list nat;
  dropped : list nat;
  errors : nat
}.

Definition set_next n s := State n (flight s) (port s) (workers s) (entrys s) (invoked s) (failed s) (freed s) (dropped s) (errors s).
Definition set_flight l s := State (next s) l (port s) (workers s) (entrys s) (invoked s) (failed s) (freed s) (dropped s) (errors s).
Definition set_port l s := State (next s) (flight s) l (workers s) (entrys s) (invoked s) (failed s) (freed s) (dropped s) (errors s).
Definition set_workers l s := State (next s) (flight s) (port s) l (entrys s) (invoked s) (failed s) (freed s) (dropped s) (errors s).
Definition set_entrys l s := State (next s) (flight s) (port s) (workers s) l (invoked s) (failed s) (freed s) (dropped s) (errors s).
Definition set_invoked l s := State (next s) (flight s) (port s) (workers s) (entrys s) l (failed s) (freed s) (dropped s) (errors s).
Definition set_failed l s := State (next s) (flight s) (port s) (workers s) (entrys s) (invoked s) l (freed s) (dropped s) (errors s).
Definition set_freed l s := State (next s) (flight s) (port s) (workers s) (entrys s) (invoked s) (failed s) l (dropped s) (errors s).
Definition set_dropped l s := State (next s) (flight s) (port s) (workers s) (entrys s) (invoked s) (failed s) (freed s) l (errors s).
Definition set_errors n s := State (next s) (flight s) (port s) (workers s) (entrys s) (invoked s) (failed s) (freed s) (dropped s) n.

(** ** Callback objects *)

Definition make_async_callback : prog state nat := fun s => Ret (next s) (set_next (S (next s)) s).

(** Any use of a freed object is undefined. *)
Definition invoke (id : nat) : prog state unit := fun s =>
  if bool_decide (id ∈ freed s) then UB else Ret tt (set_invoked (invoked s ++ [id]) s).
Definition deallocate (id : nat) : prog state unit := fun s =>
  if bool_decide (id ∈ freed s) then UB else Ret tt (set_freed (freed s ++ [id]) s).

(** [call]: the object is freed when its handler returns and when it throws. *)
Definition call (id : nat) (throws : bool) : prog state unit :=
  invoke id ;;; deallocate id ;;; if throws then throw runtime_error else ret tt.

(** [asynResult.release()]: the object is the system's; with [queued] its packet is
    at the port, in flight otherwise, and with neither it will never come. *)
Inductive where_to := At_port | In_flight | Nowhere.
Definition release (to : where_to) (id : nat) : prog state unit := fun s =>
  Ret tt match to with
         | At_port => set_port (port s ++ [id]) s
         | In_flight => set_flight (flight s ++ [id]) s
         | Nowhere => set_dropped (dropped s ++ [id]) s
         end.

(** An exception that leaves a request: [unique_ptr] frees the object. *)
Definition refuse (id : nat) : prog state unit :=
  deallocate id ;;; (fun s => Ret tt (set_failed (failed s ++ [id]) s)) ;;; throw win32_exception.

(** ** Requests *)

Inductive answer := Done | IoPending | Failed.

Section Requests.
(** The handle skips the port for requests that complete at once
    ([FILE_SKIP_COMPLETION_PORT_ON_SUCCESS], which [socket_handle_t::open] sets). *)
Context (skip : bool).

(** [async_read] and [async_write] of a socket: a request that completes at once is
    called in place. *)
Definition transfer_request (a : answer) (throws : bool) : prog state unit :=
  let* id := make_async_callback in
  match a with
  | Failed => refuse id
  | Done => (if skip then ret tt else release At_port id) ;;; call id throws
  | IoPending => release In_flight id
  end.

(** [async_accept], [async_connect] and [async_disconnect]: the object is released
    unless the request failed. *)
Definition control_request (a : answer) : prog state unit :=
  let* id := make_async_callback in
  match a with
  | Failed => refuse id
  | Done => release (if skip then Nowhere else At_port) id
  | IoPending => release In_flight id
  end.

(** [io_dispatcher_t::post]. *)
Definition post (ok : bool) : prog state unit :=
  let* id := make_async_callback in if ok then release At_port id else refuse id.

(** ** Worker threads *)

Definition take_out (id : nat) (l : list nat) : list nat := filter (fun x => x <> id) l.

(** The system finishes a request and queues its packet. *)
Definition complete (id : nat) : prog state unit := fun s =>
  if bool_decide (id ∈ flight s)
  then Ret tt (set_port (port s ++ [id]) (set_flight (take_out id (flight s)) s))
  else Ret tt s.

(** [get_status_ex(entrys, ret_number)], for a thread that waits: up to 64 packets,
    which overwrite the front of the array; or the wait fails without an APC, the
    array is as it was and [ret_number] is what the system leaves there. The
    answer is not tested: the loop calls the first [ret_number] entries of the
    array, and one that was never filled holds a null pointer. *)
Inductive wait := Got (n : nat) | WaitFailed (ret_number : nat).
Definition get_status_ex (w : nat) (a : wait) : prog state unit := fun s =>
  match workers s !! w with
  | Some (Some []) =>
      let array := default [] (entrys s !! w) in
      match a with
      | Got n =>
          let n' := Nat.min n 64 in
          let got := take n' (port s) in
          Ret tt (set_entrys (<[w := got ++ drop (length got) array]> (entrys s))
                   (set_workers (<[w := Some got]> (workers s)) (set_port (drop n' (port s)) s)))
      | WaitFailed ret_number =>
          if (ret_number <=? length array)%nat
          then Ret tt (set_workers (<[w := Some (take ret_number array)]> (workers s)) s)
          else UB
      end
  | _ => Ret tt s
  end.

(** One round of the loop over [entrys]. An exception leaves the loop: the catch
    clauses report it, and the entries that were left are called by nobody. *)
Definition call_entry (w : nat) (throws : bool) : prog state unit := fun s =>
  match workers s !! w with
  | Some (Some (id :: rest)) =>
      let s' := set_workers (<[w := Some rest]> (workers s)) s in
      match call id throws s' with
      | Throw _ s'' =>
          Ret tt (set_errors (S (errors s'')) (set_dropped (dropped s'' ++ rest)
                   (set_workers (<[w := Some []]> (workers s'')) s'')))
      | r => r
      end
  | _ => Ret tt s
  end.

(** [WAIT_IO_COMPLETION], the APC of [stop]: a waiting thread leaves [_thread_io]. *)
Definition apc (w : nat) : prog state unit := fun s =>
  match workers s !! w with
  | Some (Some []) => Ret tt (set_workers (<[w := None]> (workers s)) s)
  | _ => Ret tt s
  end.

(** ** Interleavings *)

Inductive event :=
| Transfer (a : answer) (throws : bool)
| Control (a : answer)
| Post (ok : bool)
| Complete (id : nat)
| Get (w : nat) (a : wait)
| Call (w : nat) (throws : bool)
| Apc (w : nat).

Definition exec (e : event) : prog state unit :=
  match e with
  | Transfer a throws => transfer_request a throws
  | Control a => control_request a
  | Post ok => post ok
  | Complete id => complete id
  | Get w a => get_status_ex w a
  | Call w throws => call_entry w throws
  | Apc w => apc w
  end.

(** Any sequence of steps of the clients, the system and the workers; an exception
    goes to the client that made the request. *)
Fixpoint run (events : list event) (s : state) : option state :=
  match events with
  | [] => Some s
  | e :: events' =>
      match exec e s with
      | Ret _ s' | Throw _ s' => run events' s'
      | _ => None
      end
  end.

Definition init (numThreads : nat) : state :=
  State 0 [] [] (replicate numThreads (Some [])) (replicate numThreads []) [] [] [] [] 0.

(** ** Every object is somewhere, once *)

Definition entries (s : state) : list nat := concat (map (default []) (workers s)).
Definition places (s : state) : list nat := flight s ++ port s ++ entries s ++ freed s ++ dropped s.

Record wf (s : state) : Prop := {
  wf_places : places s ≡ₚ seq 0 (next s);
  wf_freed : freed s ≡ₚ invoked s ++ failed s
}.

Lemma places_nodup s : wf s -> NoDup (places s).
Proof. intros [-> _]. apply NoDup_seq. Qed.

Lemma places_fresh s : wf s -> next s ∉ places s.
Proof. intros [-> _]. rewrite elem_of_seq. lia. Qed.

Lemma freed_places s id : id ∈ freed s -> id ∈ places s.
Proof. unfold places. rewrite !elem_of_app. tauto. Qed.

Lemma entries_split s w l : workers s !! w = Some (Some l) ->
  exists rest, entries s ≡ₚ l ++ rest /\
    forall l', concat (map (default []) (<[w := l']> (workers s))) ≡ₚ default [] l' ++ rest.
Proof.
  unfold entries. generalize (workers s). intros ws. revert w.
  induction ws as [|x ws IH]; intros [|w]; cbn; try done.
  - intros [= ->]. by exists (concat (map (default []) ws)).
  - intros Hw. destruct (IH w Hw) as (rest & He & Hr). exists (default [] x ++ rest).
    split; [rewrite He; solve_Permutation|]. intros l'. rewrite Hr. solve_Permutation.
Qed.

Lemma take_out_perm id l : NoDup l -> id ∈ l -> l ≡ₚ id :: take_out id l.
Proof.
  unfold take_out. induction 1 as [|x l Hx Hl IH]; [by intros ? % elem_of_nil|].
  rewrite elem_of_cons. intros [<-|Hin].
  - rewrite filter_cons_False by (by intros []). f_equiv. symmetry.
    assert (filter (fun y => y <> id) l = l) as ->; [|done].
    clear IH Hl. induction l as [|y l IH]; [done|]. rewrite not_elem_of_cons in Hx.
    rewrite filter_cons_True by (intros ->; tauto). f_equal. apply IH. tauto.
  - rewrite filter_cons_True by (by intros ->). rewrite (IH Hin) at 1. apply perm_swap.
Qed.

(** The object just made, or taken from its place, is in none. *)
Definition holds (id : nat) (s : state) : Prop :=
  id :: places s ≡ₚ seq 0 (next s) /\ freed s ≡ₚ invoked s ++ failed s.

Lemma holds_live id s : holds id s -> id ∉ freed s.
Proof.
  intros [H _] Hin % freed_places.
  assert (NoDup (id :: places s)) as Hn by (rewrite H; apply NoDup_seq).
  by apply NoDup_cons in Hn as [? _].
Qed.

Lemma make_holds s : wf s -> holds (next s) (set_next (S (next s)) s).
Proof.
  intros [Hp Hf]. split; [|done]. cbn [next set_next]. rewrite seq_S. cbn.
  change (places _) with (places s). rewrite Hp. by rewrite Permutation_cons_append.
Qed.

(** Freeing the object in hand after a call, or with its request refused. *)
Lemma call_wf id throws s : holds id s ->
  match call id throws s with
  | Ret _ s' | Throw _ s' => wf s' /\ dropped s' = dropped s /\ workers s' = workers s
  | _ => False
  end.
Proof.
  intros H. pose proof (holds_live _ _ H) as Hl. destruct H as [Hp Hf].
  unfold call, bind, invoke, deallocate. rewrite bool_decide_eq_false_2 by done. cbn.
  rewrite bool_decide_eq_false_2 by done.
  assert (wf (set_freed (freed s ++ [id]) (set_invoked (invoked s ++ [id]) s))).
  { split; [|by cbn; rewrite Hf; solve_Permutation]. rewrite <- Hp. unfold places, entries. cbn.
    solve_Permutation. }
  by destruct throws.
Qed.

Lemma refuse_wf id s : holds id s ->
  match refuse id s with
  | Throw _ s' => wf s' /\ dropped s' = dropped s
  | _ => False
  end.
Proof.
  intros H. pose proof (holds_live _ _ H) as Hl. destruct H as [Hp Hf].
  unfold refuse, bind, deallocate. rewrite bool_decide_eq_false_2 by done. cbn. split; [|done].
  split; cbn; [|rewrite Hf; solve_Permutation]. rewrite <- Hp. unfold places, entries. cbn.
  solve_Permutation.
Qed.

Lemma release_wf to id s : holds id s ->
  exists s', release to id s = Ret tt s' /\ wf s' /\ (to <> Nowhere -> dropped s' = dropped s).
Proof.
  intros [Hp Hf]. eexists. split; [done|]. split.
  - split; [|by destruct to]. replace (next _) with (next s) by (by destruct to).
    rewrite <- Hp. destruct to; unfold places, entries; cbn; solve_Permutation.
  - by destruct to.
Qed.

(** A transfer that completes at once on a handle that does not skip the port is
    called twice, and so are the entries a failed wait leaves in the array. *)
Definition sound (e : event) : Prop :=
  match e with
  | Transfer Done _ => skip = true
  | Get _ (WaitFailed ret_number) => ret_number = 0%nat
  | _ => True
  end.

(** No request of the control kind completes at once on a handle that skips the
    port, and no handler called by a worker throws. *)
Definition smooth (e : event) : Prop :=
  match e with
  | Control Done => skip = false
  | Call _ throws => throws = false
  | _ => True
  end.

Definition good_result (e : event) (s : state) (r : outcome state unit) : Prop :=
  match r with
  | Ret _ s' | Throw _ s' => wf s' /\ (smooth e -> dropped s' = dropped s)
  | _ => False
  end.

Lemma transfer_ok a throws s : sound (Transfer a throws) -> wf s ->
  good_result (Transfer a throws) s (transfer_request a throws s).
Proof.
  intros Hs H. apply make_holds in H. unfold transfer_request, bind, make_async_callback.
  destruct a.
  - cbn in Hs. rewrite Hs. pose proof (call_wf (next s) throws _ H) as Hc. unfold ret.
    destruct (call _ _ _); try done; destruct Hc as (? & ? & _); by split.
  - destruct (release_wf In_flight _ _ H) as (s' & -> & ? & Hd). split; [done|]. intros _. by rewrite Hd.
  - pose proof (refuse_wf _ _ H) as Hc. destruct (refuse _ _); try done. destruct Hc. by split.
Qed.

Lemma control_ok a s : wf s -> good_result (Control a) s (control_request a s).
Proof.
  intros H. apply make_holds in H. unfold control_request, bind, make_async_callback. destruct a.
  - destruct (release_wf (if skip then Nowhere else At_port) _ _ H) as (s' & -> & ? & Hd).
    split; [done|]. cbn [smooth]. intros E. rewrite E in Hd. by rewrite Hd.
  - destruct (release_wf In_flight _ _ H) as (s' & -> & ? & Hd). split; [done|]. intros _. by rewrite Hd.
  - pose proof (refuse_wf _ _ H) as Hc. destruct (refuse _ _); try done. destruct Hc. by split.
Qed.

Lemma post_ok ok s : wf s -> good_result (Post ok) s (post ok s).
Proof.
  intros H. apply make_holds in H. unfold post, bind, make_async_callback. destruct ok.
  - destruct (release_wf At_port _ _ H) as (s' & -> & ? & Hd). split; [done|]. intros _. by rewrite Hd.
  - pose proof (refuse_wf _ _ H) as Hc. destruct (refuse _ _); try done. destruct Hc. by split.
Qed.

Lemma places_flight s id : id ∈ flight s -> id ∈ places s.
Proof. unfold places. rewrite !elem_of_app. tauto. Qed.

Lemma complete_wf id s : wf s -> good_result (Complete id) s (complete id s).
Proof.
  intros H. unfold complete. case_bool_decide as Hin; [|done]. split; [|done].
  pose proof (places_nodup s H) as Hn. destruct H as [Hp Hf]. split; [|done].
  change (next _) with (next s). rewrite <- Hp. unfold places, entries in *. cbn.
  apply NoDup_app in Hn as (Hn & _). rewrite (take_out_perm id (flight s)) at 2 by done.
  solve_Permutation.
Qed.

Lemma get_status_ex_wf w a s : sound (Get w a) -> wf s ->
  good_result (Get w a) s (get_status_ex w a s).
Proof.
  intros Hs H. unfold get_status_ex. destruct (workers s !! w) as [[[|]|]|] eqn:E; try done.
  destruct a as [n|k]; [|cbn in Hs; subst k; cbn [Nat.leb take]];
    (split; [|done]); destruct H as [Hp Hf]; (split; [|done]);
    (etrans; [|exact Hp]); destruct (entries_split s w [] E) as (rest & He & Hr);
    unfold places; rewrite He;
    cbn [flight port freed dropped set_workers set_port set_entrys];
    unfold entries; cbn [workers set_workers set_entrys]; rewrite Hr; cbn [default app].
  - rewrite <- (take_drop (Nat.min n 64) (port s)) at 3. solve_Permutation.
  - done.
Qed.

Lemma apc_wf w s : wf s -> good_result (Apc w) s (apc w s).
Proof.
  intros H. unfold apc. destruct (workers s !! w) as [[[|]|]|] eqn:E; try done.
  split; [|done]. destruct H as [Hp Hf]. split; [|done]. change (next _) with (next s).
  rewrite <- Hp. destruct (entries_split s w [] E) as (rest & He & Hr).
  unfold places. cbn [flight port freed dropped set_workers]. rewrite He.
  unfold entries. cbn [workers set_workers]. by rewrite Hr.
Qed.

Lemma call_entry_wf w throws s : wf s -> good_result (Call w throws) s (call_entry w throws s).
Proof.
  intros H. unfold call_entry. destruct (workers s !! w) as [[[|id l]|]|] eqn:E; try done.
  destruct (entries_split s w _ E) as (rest & He & Hr).
  set (s' := set_workers _ s).
  assert (Hh : holds id s').
  { destruct H as [Hp Hf]. split; [|done]. change (next s') with (next s). rewrite <- Hp.
    unfold places. rewrite He. unfold s', entries. cbn [workers set_workers flight port freed dropped].
    rewrite Hr. cbn [default]. solve_Permutation. }
  pose proof (call_wf id throws s' Hh) as Hc.
  destruct (call id throws s') as [u s2|e s2| |] eqn:Ec; try done; destruct Hc as (Hw & Hd & Hwk).
  - split; [done|]. intros _. by rewrite Hd.
  - assert (throws = true) as ->.
    { destruct throws; [done|]. unfold call, bind, invoke, deallocate in Ec.
      destruct (bool_decide _); [done|]. cbn in Ec. by destruct (bool_decide _). }
    split; [|done]. destruct Hw as [Hp Hf]. split; [|done]. cbn [next set_errors set_dropped set_workers].
    rewrite <- Hp. assert (E2 : workers s2 !! w = Some (Some l)).
    { rewrite Hwk. apply list_lookup_insert_eq. by eapply lookup_lt_Some. }
    destruct (entries_split s2 w l E2) as (rest2 & He2 & Hr2). unfold places at 2. rewrite He2.
    unfold places, entries. cbn [workers flight port freed dropped set_errors set_dropped set_workers].
    rewrite Hr2. cbn [default]. solve_Permutation.
Qed.

Lemma exec_ok e s : sound e -> wf s -> good_result e s (exec e s).
Proof.
  destruct e; intros Hs H; cbn [exec].
  - by apply transfer_ok.
  - by apply control_ok.
  - by apply post_ok.
  - by apply complete_wf.
  - by apply get_status_ex_wf.
  - by apply call_entry_wf.
  - by apply apc_wf.
Qed.

Lemma init_wf n : wf (init n).
Proof.
  split; [|done]. unfold places, entries. cbn. rewrite app_nil_r.
  induction n as [|n IH]; [done|]. exact IH.
Qed.

Lemma run_ok events s : Forall sound events -> wf s ->
  exists s', run events s = Some s' /\ wf s' /\ (Forall smooth events -> dropped s' = dropped s).
Proof.
  intros Hs. revert s. induction Hs as [|e events He Hs IH]; intros s H; cbn [run]; [by exists s|].
  pose proof (exec_ok e s He H) as Hr.
  destruct (exec e s) as [u s1|x s1| |]; try done; destruct Hr as [Hw Hd];
    destruct (IH s1 Hw) as (s2 & Hrun & Hw2 & Hd2); exists s2; (split; [done|split; [done|]]);
    intros Hall; inversion Hall; subst; by rewrite Hd2, Hd.
Qed.

(** [C2] However the clients' requests, the system's completions and the worker
    threads interleave, and whichever handlers throw, no callback object is used
    after it was freed, none is freed twice and none is called twice: each is with
    the system, at the port, with one worker, freed or lost, and freed objects are
    those called and those whose request threw. This holds when the handles skip
    the port for transfers that complete at once (as the library's sockets do) and
    a wait for packets that fails reports no packets ([sound]); without the second
    see [failed_wait_calls_again]. *)
Theorem never_twice events numThreads : Forall sound events ->
  exists s, run events (init numThreads) = Some s /\
    NoDup (flight s ++ port s ++ entries s ++ freed s ++ dropped s) /\
    freed s ≡ₚ invoked s ++ failed s.
Proof.
  intros Hs. destruct (run_ok events (init numThreads) Hs (init_wf _)) as (s & Hr & Hw & _).
  exists s. split_and!; [done|by apply (places_nodup s)|apply Hw].
Qed.

(** [C3] When no worker's handler throws and no accept, connect or disconnect
    completes at once on a handle that skips the port ([smooth]), and under the
    conditions of [never_twice] ([sound]: handles skip the port for transfers that
    complete at once, a wait that fails reports no packets), nothing is lost: once
    the system and the workers have nothing left, every object ever made was either
    called exactly once or its request threw, and all are freed. *)
Theorem exactly_once events numThreads : Forall sound events -> Forall smooth events ->
  exists s, run events (init numThreads) = Some s /\
    (flight s = [] -> port s = [] -> entries s = [] ->
     invoked s ++ failed s ≡ₚ seq 0 (next s) /\ freed s ≡ₚ seq 0 (next s)).
Proof.
  intros Hs Hm. destruct (run_ok events (init numThreads) Hs (init_wf _)) as (s & Hr & Hw & Hd).
  exists s. split; [done|]. intros E1 E2 E3. destruct Hw as [Hp Hf]. unfold places in Hp.
  rewrite E1, E2, E3, Hd in Hp by done. cbn in Hp. rewrite app_nil_r in Hp.
  split; [by rewrite <- Hf|done].
Qed.

(** What is dropped stays dropped. *)
Definition keeps {A} (m : prog state A) : Prop := forall s x, x ∈ dropped s ->
  match m s with Ret _ s' | Throw _ s' => x ∈ dropped s' | _ => True end.

Lemma keeps_bind {A B} (m : prog state A) (k : A -> prog state B) :
  keeps m -> (forall a, keeps (k a)) -> keeps (bind m k).
Proof.
  intros Hm Hk s x Hx. unfold bind. pose proof (Hm s x Hx) as H.
  destruct (m s); try done. by apply Hk.
Qed.

Lemma keeps_invoke id : keeps (invoke id).
Proof. intros s x Hx. unfold invoke. by destruct (bool_decide _). Qed.
Lemma keeps_deallocate id : keeps (deallocate id).
Proof. intros s x Hx. unfold deallocate. by destruct (bool_decide _). Qed.
Lemma keeps_call id throws : keeps (call id throws).
Proof.
  apply keeps_bind; [apply keeps_invoke|intros _]. apply keeps_bind; [apply keeps_deallocate|intros _].
  intros s x Hx. by destruct throws.
Qed.
Lemma keeps_release to id : keeps (release to id).
Proof. intros s x Hx. destruct to; cbn; try done. apply elem_of_app. by left. Qed.
Lemma keeps_refuse id : keeps (refuse id).
Proof.
  apply keeps_bind; [apply keeps_deallocate|intros _].
  apply keeps_bind; [|intros _]; by intros s x Hx.
Qed.
Create HintDb dropped.
#[local] Hint Resolve keeps_call keeps_release keeps_refuse keeps_bind : dropped.

Lemma exec_dropped e : keeps (exec e).
Proof.
  assert (Hm : keeps make_async_callback) by (by intros s x Hx).
  destruct e as [a t|a|ok|id|w n|w t|w]; cbn [exec].
  - apply keeps_bind; [done|]. intros id. destruct a; eauto with dropped.
    apply keeps_bind; [|eauto with dropped]. destruct skip; [by intros s x Hx|apply keeps_release].
  - apply keeps_bind; [done|]. intros id. destruct a; eauto with dropped.
  - apply keeps_bind; [done|]. intros id. destruct ok; eauto with dropped.
  - intros s x Hx. unfold complete. by destruct (bool_decide _).
  - intros s x Hx. unfold get_status_ex. destruct (workers s !! w) as [[[|]|]|]; try done.
    destruct n; [done|]. by destruct (_ <=? _)%nat.
  - intros s x Hx. unfold call_entry. destruct (workers s !! w) as [[[|id l]|]|]; try done.
    pose proof (keeps_call id t (set_workers (<[w:=Some l]> (workers s)) s) x Hx) as H.
    destruct (call _ _ _); try done. cbn. apply elem_of_app. by left.
  - intros s x Hx. unfold apc. by destruct (workers s !! w) as [[[|]|]|].
Qed.

Lemma run_dropped events s s' x : run events s = Some s' -> x ∈ dropped s -> x ∈ dropped s'.
Proof.
  revert s. induction events as [|e events IH]; intros s; cbn [run]; [by intros [= ->]|].
  intros Hr Hx. pose proof (exec_dropped e s x Hx) as Hd.
  destruct (exec e s); try done; by apply (IH _ Hr).
Qed.

Lemma dropped_forever events s s' x : Forall sound events -> wf s -> run events s = Some s' ->
  x ∈ dropped s -> x ∉ invoked s' /\ x ∉ freed s'.
Proof.
  intros Hs H Hr Hx. destruct (run_ok events s Hs H) as (s2 & Hr2 & Hw & _).
  rewrite Hr in Hr2. injection Hr2 as <-. pose proof (run_dropped _ _ _ _ Hr Hx) as Hd.
  assert (Hnf : x ∉ freed s').
  { pose proof (places_nodup s' Hw) as Hn. unfold places in Hn. rewrite !NoDup_app in Hn.
    destruct Hn as (_ & _ & _ & _ & _ & _ & _ & Hn & _). intros Hf. by apply (Hn x). }
  split; [|done]. intros Hi. apply Hnf. destruct Hw as [_ ->]. apply elem_of_app. by left.
Qed.

(** [C35] When a handler throws in a worker, the entries of its batch that come after it
    are never called and never freed, whatever happens later, as long as the handles skip
    the port for transfers that complete at once and a wait that fails reports no packets. *)
Theorem exception_drops_batch events numThreads before w id rest s s' :
  Forall sound before -> Forall sound events -> run before (init numThreads) = Some s ->
  workers s !! w = Some (Some (id :: rest)) ->
  run (Call w true :: events) s = Some s' ->
  forall x, x ∈ rest -> x ∉ invoked s' /\ x ∉ freed s'.
Proof.
  intros Hb Hs Hr E Hrun x Hx.
  destruct (run_ok before (init numThreads) Hb (init_wf _)) as (s2 & Hr2 & Hw & _).
  rewrite Hr in Hr2. injection Hr2 as <-. cbn [run] in Hrun.
  pose proof (call_entry_wf w true s Hw) as Hc. cbn [exec] in *.
  unfold call_entry in Hc, Hrun. rewrite E in Hc, Hrun.
  destruct (call id true _) as [u s2|e s2| |] eqn:Ec; try done.
  - unfold call, bind, invoke, deallocate in Ec. destruct (bool_decide _); [done|].
    cbn in Ec. by destruct (bool_decide _).
  - destruct Hc as [Hw2 _]. eapply dropped_forever; [exact Hs|exact Hw2|exact Hrun|].
    cbn. apply elem_of_app. by right.
Qed.

(** The answer of the wait is not tested: when a wait fails and leaves [ret_number] as
    the last one set it, the worker calls objects it has already called and freed. *)
Theorem failed_wait_calls_again w throws s id rest : wf s ->
  port s = id :: rest -> workers s !! w = Some (Some []) -> (w < length (entrys s))%nat ->
  run [Get w (Got 1); Call w false; Get w (WaitFailed 1); Call w throws] s = None.
Proof.
  intros Hw Hp Hk Hl. assert (Hlive : id ∉ freed s).
  { pose proof (places_nodup s Hw) as Hn. unfold places in Hn. rewrite Hp in Hn.
    rewrite (Permutation_app_comm (flight s)), <- !app_assoc in Hn. cbn in Hn.
    apply NoDup_cons in Hn as [Hn _]. intros Hin. apply Hn. rewrite !elem_of_app. tauto. }
  pose proof (lookup_lt_Some _ _ _ Hk) as Hlw.
  cbn [run exec]. unfold get_status_ex at 1. rewrite Hk, Hp.
  change (Nat.min 1 64) with 1%nat. change (take 1 (id :: rest)) with [id].
  change (drop 1 (id :: rest)) with rest. cbn [length].
  unfold call_entry at 1. cbn [workers set_entrys set_workers].
  rewrite list_lookup_insert_eq by done. unfold call at 1, bind, invoke, deallocate.
  cbn [freed set_entrys set_workers set_port set_invoked].
  rewrite bool_decide_eq_false_2 by done. cbn [freed set_entrys set_workers set_port set_invoked].
  rewrite bool_decide_eq_false_2 by done. unfold ret.
  unfold get_status_ex. cbn [workers entrys set_entrys set_workers set_port set_invoked set_freed].
  rewrite !list_insert_insert_eq, !list_lookup_insert_eq by done. 
  cbn [from_option Datatypes.id app length Nat.leb].
  change (take 1 (id :: ?l)) with [id].
  unfold call_entry. cbn [workers set_workers].
  rewrite list_lookup_insert_eq by done.
  unfold call, bind, invoke.
  cbn [freed set_entrys set_workers set_port set_invoked set_freed].
  rewrite bool_decide_eq_true_2 by (apply elem_of_app; right; by left). done.
Qed.

(** [C36] On a handle that skips the port, an accept, connect or disconnect that
    completes at once is lost: its handler is never called and its callback object
    never freed, whatever happens later, as long as a wait that fails reports no packets. *)
Theorem control_at_once_lost events numThreads before s s' : skip = true ->
  Forall sound before -> Forall sound events -> run before (init numThreads) = Some s ->
  run (Control Done :: events) s = Some s' -> next s ∉ invoked s' /\ next s ∉ freed s'.
Proof.
  intros Hskip Hb Hs Hr Hrun.
  destruct (run_ok before (init numThreads) Hb (init_wf _)) as (s2 & Hr2 & Hw & _).
  rewrite Hr in Hr2. injection Hr2 as <-. pose proof (control_ok Done s Hw) as Hc.
  cbn [run exec] in Hrun. unfold control_request, bind, make_async_callback, release in Hc, Hrun.
  rewrite Hskip in Hc, Hrun. cbn in Hc. destruct Hc as [Hc _].
  eapply dropped_forever; [exact Hs|exact Hc|exact Hrun|]. cbn. apply elem_of_app. right. by left.
Qed.

End Requests.

(** ** The completion port

    [iocp_handle] and the life of [io_dispatcher_t::impl]. The handle of the port and
    the answers of Windows are parameters. *)

Section Port.
Context (create_port : option Z).      (* CreateIoCompletionPort for a new port *)
Context (associate : Z -> Z -> Z).     (* and for a device: the port it returns *)

Record handle := Handle { iocp_ : Z; closed_handles : list Z; threads_ : nat; joined : nat }.

Definition is_open (h : handle) : bool := negb (iocp_ h =? 0).

Definition close : prog handle unit := fun h =>
  if negb (iocp_ h =? 0)
  then Ret tt (Handle 0 (closed_handles h ++ [iocp_ h]) (threads_ h) (joined h))
  else Ret tt h.

Definition create : prog handle bool := fun h =>
  let iocp := default 0 create_port in
  Ret (negb (iocp =? 0)) (Handle iocp (closed_handles h) (threads_ h) (joined h)).

Definition associate_device (hDevice : Z) : prog handle bool := fun h =>
  Ret (associate hDevice (iocp_ h) =? iocp_ h) h.

(** The constructor: the port, then the threads. *)
Definition construct (numThreads : nat) : prog handle unit :=
  let* ok := create in
  if negb ok then throw win32_exception
  else fun h => Ret tt (Handle (iocp_ h) (closed_handles h) numThreads (joined h)).

Definition bind_device (hHandle : Z) : prog handle unit :=
  let* ok := associate_device hHandle in
  if negb ok then throw win32_exception else ret tt.

(** [stop]: an APC for every thread, a join for every thread, [threads_.clear()]. *)
Definition stop : prog handle unit := fun h =>
  Ret tt (Handle (iocp_ h) (closed_handles h) 0 (joined h + threads_ h)).

(** [~io_dispatcher_t] stops, and [~impl] stops again and closes the port; the member
    [iocp_] closes it again. *)
Definition destruct : prog handle unit := stop ;;; stop ;;; close ;;; close.

(** A dispatcher that was constructed joins every thread once and closes its
    port once, however often it is stopped before it is destroyed; a port that cannot
    be created is an exception, and nothing is closed. *)
Theorem dispatcher_life numThreads stops h : h = Handle 0 [] 0 0 ->
  match construct numThreads h with
  | Ret _ h' =>
      is_open h' = true /\
      exists h2, (Nat.iter stops (fun m => stop ;;; m) destruct) h' = Ret tt h2 /\
        threads_ h2 = 0%nat /\ joined h2 = numThreads /\
        closed_handles h2 = [iocp_ h'] /\ is_open h2 = false
  | Throw e h' => e = win32_exception /\ closed_handles h' = [] /\ is_open h' = false
  | _ => False
  end.
Proof.
  intros ->. unfold construct, bind, create.
  destruct (negb (default 0 create_port =? 0)) eqn:E; cbn.
  - split; [done|]. set (p := default 0 create_port) in *.
    assert (Hd : forall k m, destruct (Handle p [] k m) = Ret tt (Handle 0 [p] 0 (m + k))).
    { intros k m. unfold destruct, bind, stop, close. cbn. rewrite E. cbn. do 2 f_equal. lia. }
    assert (Hi : forall n k m, (Nat.iter n (fun q => stop ;;; q) destruct) (Handle p [] k m) =
      Ret tt (Handle 0 [p] 0 (m + k))).
    { induction n as [|n IH]; intros k m; [apply Hd|]. cbn [Nat.iter nat_rect]. unfold bind at 1, stop at 1.
      cbn [iocp_ closed_handles threads_ joined]. etrans; [apply IH|]. do 2 f_equal. lia. }
    eexists. split; [apply Hi|]. by split_and!.
  - split_and!; [done|done|exact E].
Qed.

End Port.

(** ** Witnesses *)

Module Demo.

(** A read that completes at once, a write that is pending and is finished by worker
    1, and a posted handler. *)
Definition busy : list event :=
  [Transfer Done false; Transfer IoPending false; Post true; Transfer Failed false; Complete 1;
   Get 1 (Got 64); Call 1 false; Call 1 false; Apc 0].

Lemma never_twice_witness : exists s, run true busy (init 2) = Some s /\
    NoDup (flight s ++ port s ++ entries s ++ freed s ++ dropped s) /\
    freed s ≡ₚ invoked s ++ failed s.
Proof. apply (never_twice true busy 2). repeat constructor. Defined.

Lemma exactly_once_witness :
  (exists s, run true busy (init 2) = Some s /\ invoked s = [0; 2; 1]%nat /\ failed s = [3]%nat) /\
  exists s, run true busy (init 2) = Some s /\
    (flight s = [] -> port s = [] -> entries s = [] ->
     invoked s ++ failed s ≡ₚ seq 0 (next s) /\ freed s ≡ₚ seq 0 (next s)).
Proof.
  split; [eexists; by vm_compute|]. apply (exactly_once true busy 2); repeat constructor.
Defined.

(** Two posted handlers in one batch, the first of which throws. *)
Definition batch : state :=
  State 2 [] [] [Some [0; 1]%nat] [[0; 1]%nat] [] [] [] [] 0.

Lemma exception_drops_batch_witness : 1%nat ∉ [0%nat] /\ 1%nat ∉ [0%nat].
Proof.
  eapply (exception_drops_batch true [Get 0 (Got 64); Call 0 false; Apc 0] 1
    [Post true; Post true; Get 0 (Got 64)] 0 0 [1%nat] batch
    (State 2 [] [] [None] [[0; 1]%nat] [0%nat] [] [0%nat] [1%nat] 1)); try done; repeat constructor.
Defined.

Lemma control_at_once_lost_witness : (0 ∉ [] /\ 0 ∉ @nil nat)%nat.
Proof.
  apply (control_at_once_lost true [Get 0 (Got 64)] 1 [] (init 1)
    (State 1 [] [] [Some []] [[]] [] [] [] [0%nat] 0)); try done; repeat constructor.
Defined.

Lemma failed_wait_calls_again_witness :
  run true [Post true; Get 0 (Got 1); Call 0 false; Get 0 (WaitFailed 1); Call 0 false] (init 1) = None.
Proof.
  apply (failed_wait_calls_again true 0 false (State 1 [] [0%nat] [Some []] [[]] [] [] [] [] 0) 0 []);
    [split; reflexivity|reflexivity|reflexivity|cbn; lia].
Defined.

Lemma dispatcher_life_witness :
  match construct (Some 5) 4 (Handle 0 [] 0 0) with
  | Ret _ h' =>
      is_open h' = true /\
      exists h2, (Nat.iter 2 (fun m => stop ;;; m) destruct) h' = Ret tt h2 /\
        threads_ h2 = 0%nat /\ joined h2 = 4%nat /\ closed_handles h2 = [iocp_ h'] /\ is_open h2 = false
  | _ => False
  end.
Proof. exact (dispatcher_life (Some 5) 4 2 (Handle 0 [] 0 0) eq_refl). Defined.

End Demo.
