(* ===== verification/SyncContainer.v ===== *)
(** * Synchronised containers and the object pool

    include/extend_stl/container/sync_container.hpp, include/utility/object_pool.hpp
    and the pool of sockets of include/async_io/network.hpp. Every member function of
    a synchronised container is one critical section; what combines several of them,
    as the pool's [pop] does, is a sequence of steps other threads come between. *)

From stdpp Require Import sorting.
From S2P Require Import Prelude.

(** ** [sync_sequence_container_t] *)

Module Sequence.
Section Sequence.
Context {T : Type}.

Definition size : prog (list T) nat := fun container => Ret (length container) container.
Definition empty : prog (list T) bool := fun container => Ret (length container =? 0)%nat container.
Definition clear : prog (list T) unit := fun _ => Ret tt [].

(** [*iter] past the end and [front()] or [pop_front()] of an empty container are
    undefined. *)
Definition subscript (pos : nat) : prog (list T) T := fun container =>
  match container !! pos with Some x => Ret x container | None => UB end.
Definition top : prog (list T) T := fun container =>
  match container with x :: _ => Ret x container | [] => UB end.
Definition pop_top : prog (list T) unit := fun container =>
  match container with _ :: rest => Ret tt rest | [] => UB end.
Definition push_front (val : T) : prog (list T) unit := fun container => Ret tt (val :: container).
Definition push_back (val : T) : prog (list T) unit := fun container => Ret tt (container ++ [val]).

Definition for_each {S} (op : T -> S -> S) (s : S) : prog (list T) S := fun container =>
  Ret (foldl (fun s x => op x s) s container) container.

(** [std::sort] with a comparison, [operator<] in [sort()]: elements none of which is less
    than the other may end in any order, of which this is one. *)
Section Sort.
Context (op : T -> T -> bool).
Definition not_after (x y : T) : Prop := op y x = false.
#[local] Instance not_after_dec x y : Decision (not_after x y) := decide (op y x = false).
Definition sort : prog (list T) unit := fun container => Ret tt (merge_sort not_after container).

(** For a comparison that is a strict weak order, sorting keeps the elements and leaves
    none before one that is less. *)
Theorem sort_sorts container : (forall x y, op x y = true -> op y x = false) ->
  (forall x y z, op x y = false -> op y z = false -> op x z = false) ->
  exists l, sort container = Ret tt l /\ l ≡ₚ container /\ StronglySorted not_after l.
Proof.
  intros Ha Ht. exists (merge_sort not_after container). split; [done|]. split; [by apply merge_sort_Permutation|].
  apply StronglySorted_merge_sort; unfold not_after.
  - intros x y z H1 H2. by eapply Ht.
  - intros x y. destruct (op y x) eqn:E; [right; by apply Ha|by left].
Qed.
End Sort.

End Sequence.
End Sequence.

(** ** [sync_assoc_container_t] *)

Module Assoc.
Section Assoc.
Context {V : Type} (default_value : V).

(** The [std::map] from keys, kept in their order. *)
Notation container := (gmap Z V).

Definition size : prog container nat := fun m => Ret (base.size m) m.
Definition empty : prog container bool := fun m => Ret (base.size m =? 0)%nat m.
Definition clear : prog container unit := fun _ => Ret tt ∅.

(** [operator[]] gives a reference; the value it refers to. *)
Definition subscript (key : Z) : prog container V := fun m =>
  match m !! key with
  | Some v => Ret v m
  | None => Ret default_value (<[key := default_value]> m)
  end.

(** The constant [operator[]] dereferences [end()] for a missing key. *)
Definition const_subscript (key : Z) : prog container V := fun m =>
  match m !! key with Some v => Ret v m | None => UB end.

Definition exsit (key : Z) : prog container bool := fun m =>
  Ret (bool_decide (is_Some (m !! key))) m.

Definition insert (key : Z) (val : V) : prog container (Z * bool) := fun m =>
  match m !! key with
  | Some _ => Ret (key, false) m
  | None => Ret (key, true) (<[key := val]> m)
  end.

Definition erase_key (key : Z) : prog container bool := fun m =>
  Ret (bool_decide (is_Some (m !! key))) (delete key m).

(** [container_.erase(iter) != container_.cend()]: the iterator after the element. *)
Definition is_last (key : Z) (m : container) : bool :=
  forallb (fun kv => kv.1 <=? key) (map_to_list m).
Definition erase_iter (key : Z) : prog container bool := fun m =>
  match m !! key with
  | Some _ => Ret (negb (is_last key (delete key m))) (delete key m)
  | None => UB
  end.

(** [op] on the element of a key, under the lock. *)
Definition op_if (key : Z) (op : V -> V) : prog container bool := fun m =>
  match m !! key with Some v => Ret true (<[key := op v]> m) | None => Ret false m end.

(** The first half of [not_if_op]: the lock is given up before [op] is called. *)
Definition not_if (key : Z) : prog container bool := fun m =>
  Ret (bool_decide (m !! key = None)) m.

(** The two [erase] functions remove the same element and answer differently:
    by key the answer is whether there was one, by iterator whether one follows. *)
Theorem erase_answers key v (m : container) : m !! key = Some v ->
  erase_key key m = Ret true (delete key m) /\
  exists b, erase_iter key m = Ret b (delete key m) /\
    (b = true <-> exists key', key < key' /\ is_Some (m !! key')).
Proof.
  intros E. unfold erase_key, erase_iter. rewrite E. split.
  - by rewrite bool_decide_eq_true_2.
  - eexists. split; [done|]. unfold is_last. rewrite negb_true_iff, <- not_true_iff_false, forallb_forall.
    split.
    + intros Hn. destruct (decide (Exists (fun kv => key < kv.1) (map_to_list (delete key m)))) as [He|He].
      * apply Exists_exists in He as ([k x] & Hin & Hk). apply elem_of_map_to_list in Hin.
        apply lookup_delete_Some in Hin as [_ Hin]. exists k. cbn in Hk. by eauto.
      * exfalso. apply Hn. intros x Hx % list_elem_of_In. apply Z.leb_le.
        apply Z.nlt_ge. intros Hlt. apply He, Exists_exists. by exists x.
    + intros (k & Hk & [x Hx]) Hall. specialize (Hall (k, x)). cbn in Hall.
      assert (Hle : (k <=? key) = true).
      { apply Hall, list_elem_of_In, elem_of_map_to_list, lookup_delete_Some. split; [lia|done]. }
      apply Z.leb_le in Hle. lia.
Qed.

(** The table behaves as a finite map: what was inserted or created by
    [operator[]] is found, [insert] keeps an older value, and the other keys are
    untouched. *)
Theorem assoc_refines key val (m : container) :
  exists b m1 v m2, insert key val m = Ret (key, b) m1 /\ subscript key m1 = Ret v m2 /\
    m2 = m1 /\ const_subscript key m1 = Ret v m1 /\ exsit key m1 = Ret true m1 /\
    v = default val (m !! key) /\ (b = true <-> m !! key = None) /\
    (forall k, k <> key -> m1 !! k = m !! k) /\
    erase_key key m1 = Ret true (delete key m1) /\ exsit key (delete key m1) = Ret false (delete key m1).
Proof.
  unfold insert, subscript, const_subscript, exsit, erase_key.
  destruct (m !! key) as [v|] eqn:E.
  - exists false, m, v, m. rewrite E, lookup_delete_eq, bool_decide_eq_true_2, bool_decide_eq_false_2
      by (done || by intros []). by split_and!.
  - exists true, (<[key := val]> m), val, (<[key := val]> m).
    rewrite lookup_insert_eq, lookup_delete_eq, bool_decide_eq_true_2, bool_decide_eq_false_2
      by (done || by intros []). split_and!; try done. intros k Hk. by rewrite lookup_insert_ne.
Qed.

End Assoc.
End Assoc.

(** ** The object pool *)

(** [pop] of the pool's traits over a synchronised container: [empty], [top] and
    [pop_top] each take the lock. [At_top] and [At_pop] are where the others come in
    between. *)
Inductive pc :=
| Idle
| At_top
| At_pop (val : nat).

(** [container]: the objects in the pool. [held]: handed out. [made]: the objects
    [create_handler_] has made, numbered in order. [callers]: the threads inside
    [raw_aciquire]. *)
Record pool := Pool {
  container : list nat;
  held : list nat;
  made : nat;
  callers : list pc
}.

Definition goto (i : nat) (p : pc) (s : pool) : pool :=
  Pool (container s) (held s) (made s) (<[i := p]> (callers s)).
Definition hand_out (v : nat) (s : pool) : pool :=
  Pool (container s) (held s ++ [v]) (made s) (callers s).

(** A critical section of the container, run on the pool. *)
Definition on_container {A} (m : prog (list nat) A) : prog pool A := fun s =>
  match m (container s) with
  | Ret a l => Ret a (Pool l (held s) (made s) (callers s))
  | Throw e l => Throw e (Pool l (held s) (made s) (callers s))
  | UB => UB
  | OutOfFuel => OutOfFuel
  end.

(** [create_handler_()] *)
Definition create : prog pool unit := fun s =>
  Ret tt (Pool (container s) (held s ++ [made s]) (S (made s)) (callers s)).

(** The next critical section of [raw_aciquire] for thread [i]. *)
Definition acquire_step (i : nat) : prog pool unit := fun s =>
  match callers s !! i with
  | Some Idle =>
      (let* is_empty := on_container Sequence.empty in
       if is_empty then create else fun s => Ret tt (goto i At_top s)) s
  | Some At_top =>
      (let* val := on_container Sequence.top in fun s => Ret tt (goto i (At_pop val) s)) s
  | Some (At_pop val) =>
      (on_container Sequence.pop_top ;;; fun s => Ret tt (hand_out val (goto i Idle s))) s
  | None => Ret tt s
  end.

(** The whole of [raw_aciquire], as it runs when no other thread is in it. *)
Definition pop : prog pool (option nat) :=
  let* is_empty := on_container Sequence.empty in
  if is_empty then ret None
  else let* val := on_container Sequence.top in on_container Sequence.pop_top ;;; ret (Some val).
Definition raw_aciquire : prog pool nat :=
  let* obj := pop in
  match obj with
  | Some val => fun s => Ret val (hand_out val s)
  | None => fun s => Ret (made s) (Pool (container s) (held s ++ [made s]) (S (made s)) (callers s))
  end.

(** The first object of that number leaves the holders. *)
Fixpoint remove_one (v : nat) (l : list nat) : list nat :=
  match l with
  | [] => []
  | x :: l' => if (x =? v)%nat then l' else x :: remove_one v l'
  end.

(** [raw_release] of an object its holder gives back. *)
Definition raw_release (v : nat) : prog pool unit := fun s =>
  if bool_decide (v ∈ held s)
  then on_container (Sequence.push_back v) (Pool (container s) (remove_one v (held s)) (made s) (callers s))
  else Ret tt s.

Inductive event := Acquire (i : nat) | Release (v : nat).

Fixpoint run (events : list event) (s : pool) : option pool :=
  match events with
  | [] => Some s
  | e :: events' =>
      match (match e with Acquire i => acquire_step i | Release v => raw_release v end) s with
      | Ret _ s' => run events' s'
      | _ => None
      end
  end.

Definition init (n : nat) : pool := Pool [] [] 0 (replicate n Idle).

(** ** One acquiring thread *)

Record wf (s : pool) : Prop := {
  wf_objects : container s ++ held s ≡ₚ seq 0 (made s);
  wf_caller : match callers s with
              | [At_top] => container s <> []
              | [At_pop v] => head (container s) = Some v
              | [Idle] => True
              | _ => False
              end
}.

Lemma remove_one_perm v l : v ∈ l -> l ≡ₚ v :: remove_one v l.
Proof.
  induction l as [|x l IH]; [by intros ? % elem_of_nil|]. cbn. intros Hin.
  destruct (Nat.eqb_spec x v) as [->|]; [done|]. apply elem_of_cons in Hin as [->|Hin]; [done|].
  rewrite (IH Hin) at 1. apply perm_swap.
Qed.

Lemma acquire_wf i s : wf s -> exists s', acquire_step i s = Ret tt s' /\ wf s'.
Proof.
  intros [Hp Hc]. destruct s as [l h n cs]. cbn in *.
  destruct cs as [|c [|]]; try (by destruct Hc); [|by destruct c].
  destruct i as [|i]; [|by exists (Pool l h n [c])]. unfold acquire_step. cbn [callers lookup list_lookup].
  unfold bind, on_container, Sequence.empty, Sequence.top, Sequence.pop_top. cbn.
  destruct c as [| |v].
  - destruct l as [|x l]; cbn.
    + eexists. split; [done|]. split; [|done]. cbn in *. rewrite Hp, <- Permutation_cons_append.
      change (0 :: seq 1 n)%nat with (seq 0 (S n)). rewrite seq_S. by rewrite Permutation_cons_append.
    + eexists. split; [done|]. by split.
  - destruct l as [|x l]; [done|]. eexists. split; [done|]. by split.
  - destruct l as [|x l]; [done|]. injection Hc as ->. eexists. split; [done|].
    split; [|done]. cbn in *. rewrite <- Hp. by rewrite Permutation_middle, <- Permutation_cons_append.
Qed.

Lemma raw_release_wf v s : wf s -> exists s', raw_release v s = Ret tt s' /\ wf s'.
Proof.
  intros H. unfold raw_release. case_bool_decide as Hv; [|by exists s].
  destruct H as [Hp Hc]. eexists. split; [done|]. split; cbn.
  - rewrite <- Hp. pose proof (remove_one_perm v (held s) Hv) as Hr.
    rewrite <- app_assoc. f_equiv. by rewrite Hr at 2.
  - destruct (callers s) as [|[| |x] [|]]; try done.
    + by destruct (container s).
    + destruct (container s); [done|]. exact Hc.
Qed.

(** [C30] With one acquiring thread, as the server's accept thread is, the pool is
    sound although its [pop] takes the lock three times: however releases by other
    threads come in between, nothing undefined happens and every object is either
    in the pool or held by exactly one holder. *)
Theorem single_acquirer events : exists s, run events (init 1) = Some s /\
  NoDup (container s ++ held s) /\ container s ++ held s ≡ₚ seq 0 (made s).
Proof.
  assert (Hrun : forall s, wf s -> exists s', run events s = Some s' /\ wf s').
  { induction events as [|e events IH]; intros s H; [by exists s|]. cbn [run].
    destruct e as [i|v].
    - destruct (acquire_wf i s H) as (s' & -> & H'). by apply IH.
    - destruct (raw_release_wf v s H) as (s' & -> & H'). by apply IH. }
  destruct (Hrun (init 1)) as (s & Hr & Hp & _); [by split|].
  exists s. split_and!; [done| |done]. rewrite Hp. apply NoDup_seq.
Qed.

(** With two acquiring threads it is not: from every pool with an object, both
    can be handed the same one, or run into an empty container. *)
Theorem two_acquirers x l h n : exists trace1 trace2,
  (match run trace1 (Pool (x :: l) h n [Idle; Idle]) with
   | Some s => held s = h ++ [x; x] | None => l = [] end) /\
  run trace2 (Pool [x] h n [Idle; Idle]) = None.
Proof.
  exists [Acquire 0; Acquire 1; Acquire 0; Acquire 1; Acquire 0; Acquire 1],
    [Acquire 0; Acquire 1; Acquire 0; Acquire 0; Acquire 1].
  split; [|done]. destruct l; cbn; [done|]. by rewrite <- app_assoc.
Qed.

(** Run without interruption, the steps of the pool are [raw_aciquire]: the
    front object of the pool, or a new one when it is empty. *)
Theorem acquire_sequential s i : callers s !! i = Some Idle ->
  exists v k s', raw_aciquire s = Ret v s' /\
    Nat.iter k (fun m => acquire_step i ;;; m) (ret tt) s =
      Ret tt (Pool (container s') (held s') (made s') (<[i := Idle]> (callers s'))) /\
    held s' = held s ++ [v] /\
    (container s = [] /\ v = made s \/ container s = v :: container s').
Proof.
  intros Hi. destruct s as [l h n cs]. cbn in Hi.
  pose proof (lookup_lt_Some _ _ _ Hi) as Hlt.
  unfold raw_aciquire, pop, bind, on_container, Sequence.empty, Sequence.top, Sequence.pop_top.
  destruct l as [|x l]; cbn.
  - exists n, 1%nat. eexists. split; [done|]. split; [|by split; [|left]].
    cbn. unfold bind, acquire_step. cbn. rewrite Hi. unfold bind, on_container, Sequence.empty. cbn.
    unfold ret. by rewrite list_insert_id.
  - exists x, 3%nat. eexists. split; [done|]. split; [|by split; [|right]].
    cbn. unfold bind, acquire_step at 1. cbn. rewrite Hi.
    unfold bind, on_container, Sequence.empty. cbn.
    unfold acquire_step at 1. cbn. rewrite list_lookup_insert_eq by done. cbn.
    unfold bind, on_container, Sequence.top. cbn.
    unfold acquire_step at 1. cbn. rewrite list_lookup_insert_eq by (by rewrite length_insert). cbn.
    unfold bind, on_container, Sequence.pop_top, ret, hand_out. cbn.
    by rewrite !list_insert_insert_eq.
Qed.

(** ** Witnesses *)

Module Demo.

Lemma sort_sorts_witness : exists l, Sequence.sort Z.ltb [3; 1; 2] = Ret tt l /\ l ≡ₚ [3; 1; 2] /\ StronglySorted (Sequence.not_after Z.ltb) l.
Proof.
  apply (Sequence.sort_sorts Z.ltb [3; 1; 2]).
  - intros x y H. apply Z.ltb_ge. apply Z.ltb_lt in H. lia.
  - intros x y z H1 H2. apply Z.ltb_ge in H1, H2. apply Z.ltb_ge. lia.
Defined.

Lemma erase_answers_witness :
  Assoc.erase_key 2 ({[1 := 10; 2 := 20]} : gmap Z Z) = Ret true (delete 2 {[1 := 10; 2 := 20]}) /\
  exists b, Assoc.erase_iter 2 ({[1 := 10; 2 := 20]} : gmap Z Z) = Ret b (delete 2 {[1 := 10; 2 := 20]}) /\
    (b = true <-> exists key', 2 < key' /\ is_Some (({[1 := 10; 2 := 20]} : gmap Z Z) !! key')).
Proof. by apply (Assoc.erase_answers 2 20). Defined.

Lemma acquire_sequential_witness :
  exists v k s', raw_aciquire (Pool [4; 5] [] 6 [Idle])%nat = Ret v s' /\
    Nat.iter k (fun m => acquire_step 0 ;;; m) (ret tt) (Pool [4; 5] [] 6 [Idle])%nat =
      Ret tt (Pool (container s') (held s') (made s') (<[0%nat := Idle]> (callers s'))) /\
    held s' = [] ++ [v] /\
    ([4; 5]%nat = [] /\ v = 6%nat \/ [4; 5]%nat = v :: container s').
Proof. by apply (acquire_sequential (Pool [4; 5] [] 6 [Idle])%nat 0). Defined.

End Demo.
