(* ===== verification/Utility.v ===== *)
(** * Utilities

    include/utility/move_wrapper.hpp: a wrapper whose copies move, with which the library
    puts objects that cannot be copied into a [std::function]; include/utility/object_pool.hpp:
    [get], which hands out an object whose deleter gives it back; the data of a client that a
    session of include/async_io/network.hpp holds. *)

From S2P Require Import Prelude.

(** ** move_on_copy_wrapper_t *)

Module MoveOnCopy.
Section MoveOnCopy.
Context {T : Type}.

(** The wrappers by their addresses, with [value_]: [None] is what a move leaves. *)
Notation store := (gmap nat (option T)).

(** [move_on_copy_wrapper_t(T &&)], [make_move_obj]. *)
Definition construct (this : nat) (t : T) (m : store) : store := <[this := Some t]> m.

(** [std::move] of [other.value_] into [this]: nothing of it is left there. *)
Definition move_from (this other : nat) (m : store) : prog store unit := fun _ =>
  match m !! other with
  | Some v => Ret tt (<[this := v]> (<[other := None]> m))
  | None => UB
  end.

(** The copy and the move constructor are the same. *)
Definition copy (this other : nat) : prog store unit := fun m => move_from this other m m.
Definition move (this other : nat) : prog store unit := fun m => move_from this other m m.

(** Both assignments look for the wrapper itself. *)
Definition assign (this other : nat) : prog store unit := fun m =>
  if (this =? other)%nat then Ret tt m else move_from this other m m.

(** [operator T &]. *)
Definition value (this : nat) : prog store T := fun m =>
  match m !! this with Some (Some v) => Ret v m | _ => UB end.

Definition destroy (this : nat) : prog store unit := fun m => Ret tt (delete this m).

(** What a program does with wrappers of one type; a constructor gets an address that
    is not in use. *)
Inductive event := Construct (this : nat) (t : T) | Copy (this other : nat) | Move (this other : nat)
  | Assign (this other : nat) | Destroy (this : nat).

Definition exec (e : event) : prog store unit := fun m =>
  match e with
  | Construct this t => if decide (m !! this = None) then Ret tt (construct this t m) else UB
  | Copy this other => if decide (m !! this = None) then copy this other m else UB
  | Move this other => if decide (m !! this = None) then move this other m else UB
  | Assign this other => if decide (m !! this = None) then UB else assign this other m
  | Destroy this => destroy this m
  end.
Fixpoint run (l : list event) : prog store unit := match l with [] => ret tt | e :: l => exec e ;;; run l end.

Definition made (l : list event) : list T := omap (fun e => match e with Construct _ t => Some t | _ => None end) l.

(** [t] is in a wrapper of [m]. *)
Definition holds (m : store) (this : nat) (t : T) : Prop := m !! this = Some (Some t).
Definition one_owner (m : store) : Prop := forall a b t, holds m a t -> holds m b t -> a = b.

Lemma move_from_owner this other m m' : this <> other -> one_owner m -> move_from this other m m = Ret tt m' ->
  one_owner m' /\ (forall a t, holds m' a t -> exists b, holds m b t) /\ m' !! other = Some None /\
  (forall t, holds m other t -> holds m' this t).
Proof.
  unfold move_from, holds. intros Hne Ho Hm. destruct (m !! other) as [v|] eqn:E; [|done]. injection Hm as <-.
  assert (Hback : forall a t, <[this:=v]> (<[other:=None]> m) !! a = Some (Some t) ->
    m !! (if (a =? this)%nat then other else a) = Some (Some t)).
  { intros a t. destruct (Nat.eqb_spec a this) as [-> |Ha]; [rewrite lookup_insert_eq, E; by intros [= ->]|].
    rewrite lookup_insert_ne by done. destruct (decide (a = other)) as [-> |]; [by rewrite lookup_insert_eq|by rewrite lookup_insert_ne]. }
  assert (Hgone : forall t, <[this:=v]> (<[other:=None]> m) !! other <> Some (Some t))
    by (intros t; rewrite lookup_insert_ne, lookup_insert_eq by done; done).
  split; [|split; [|split]].
  - intros a b t Ha Hb. pose proof (Ho _ _ _ (Hback _ _ Ha) (Hback _ _ Hb)) as Hab.
    destruct (Nat.eqb_spec a this), (Nat.eqb_spec b this); subst; try done; exfalso; by eapply Hgone.
  - intros a t Ha. eexists. by apply Hback.
  - by rewrite lookup_insert_ne, lookup_insert_eq by done.
  - intros t [= ->]. by rewrite lookup_insert_eq.
Qed.

Lemma exec_owner e m m' : one_owner m -> (match e with Construct _ t => forall a, ~ holds m a t | _ => True end) ->
  exec e m = Ret tt m' -> one_owner m' /\
  forall a t, holds m' a t -> (exists b, holds m b t) \/ match e with Construct _ t' => t = t' | _ => False end.
Proof.
  intros Ho Hf He.
  assert (Hmv : forall this other, this <> other -> move_from this other m m = Ret tt m' ->
    one_owner m' /\ forall a t, holds m' a t -> (exists b, holds m b t) \/ False).
  { intros this other Hne Hm. destruct (move_from_owner _ _ _ _ Hne Ho Hm) as (H1 & H2 & _). split; [done|].
    intros a t Ha. left. by eapply H2. }
  destruct e as [this t|this other|this other|this other|this]; cbn [exec] in He; try (case_decide as Hn; [|done]).
  - injection He as <-. unfold construct, one_owner, holds in *. split.
    + intros a b u Ha Hb. destruct (decide (a = this)) as [-> |], (decide (b = this)) as [-> |]; try done.
      * rewrite lookup_insert_eq in Ha. injection Ha as <-. rewrite lookup_insert_ne in Hb by done. by destruct (Hf b).
      * rewrite lookup_insert_eq in Hb. injection Hb as <-. rewrite lookup_insert_ne in Ha by done. by destruct (Hf a).
      * rewrite lookup_insert_ne in Ha, Hb by done. by eapply Ho.
    + intros a u Ha. destruct (decide (a = this)) as [-> |]; [rewrite lookup_insert_eq in Ha; injection Ha as <-; by right|].
      rewrite lookup_insert_ne in Ha by done. left. by exists a.
  - unfold copy in He. destruct (decide (this = other)) as [-> |]; [|by apply (Hmv this other)].
    unfold move_from in He. by rewrite Hn in He.
  - unfold move in He. destruct (decide (this = other)) as [-> |]; [|by apply (Hmv this other)].
    unfold move_from in He. by rewrite Hn in He.
  - destruct (decide (m !! this = None)); [done|]. unfold assign in He. destruct (Nat.eqb_spec this other) as [-> |]; [|by apply (Hmv this other)].
    injection He as <-. split; [done|]. intros a t Ha. left. by exists a.
  - injection He as <-. unfold one_owner, holds in *. split.
    + intros a b t Ha Hb. apply lookup_delete_Some in Ha as [_ Ha]. apply lookup_delete_Some in Hb as [_ Hb]. by eapply Ho.
    + intros a t Ha. apply lookup_delete_Some in Ha as [_ Ha]. left. by exists a.
Qed.

(** However wrappers are copied, moved, assigned, also to themselves, and destroyed, an
    object that was put into one is in one wrapper at most: it is never shared. *)
Theorem one_holder l m : NoDup (made l) -> run l ∅ = Ret tt m ->
  one_owner m /\ forall a t, holds m a t -> t ∈ made l.
Proof.
  assert (H : forall l done m0 m, NoDup (done ++ made l) -> one_owner m0 -> (forall a t, holds m0 a t -> t ∈ done) ->
    run l m0 = Ret tt m -> one_owner m /\ forall a t, holds m a t -> t ∈ done ++ made l).
  { clear. induction l as [|e l IH]; intros old m0 m Hd Ho Hin Hr; cbn [run] in Hr.
    { injection Hr as <-. rewrite app_nil_r. done. }
    apply bind_Ret_inv in Hr as ([] & m1 & H1 & Hr).
    destruct (exec_owner e m0 m1 Ho) as [Ho1 Hin1]; [|done|].
    { destruct e; try done. intros a Ha. apply Hin in Ha. cbn in Hd. apply NoDup_app in Hd as (_ & Hd & _). apply (Hd _ Ha), elem_of_cons. by left. }
    set (new := match e with Construct _ t => [t] | _ => [] end).
    assert (Hm : made (e :: l) = new ++ made l) by by destruct e.
    rewrite Hm, app_assoc in *. apply (IH (old ++ new) m1 m Hd Ho1); [|done].
    intros a t Ha. destruct (Hin1 a t Ha) as [[b Hb]|He]; [apply elem_of_app; left; by eapply Hin|].
    apply elem_of_app. right. unfold new. destruct e; try done. subst. apply elem_of_cons. by left. }
  intros Hd Hr. apply (H l [] ∅ m Hd); [|intros a t Ha; unfold holds in Ha; by rewrite lookup_empty in Ha|done].
  intros a b t Ha. unfold holds in Ha. by rewrite lookup_empty in Ha.
Qed.

(** A copy leaves its source empty, although the source is constant: what uses it then is
    undefined, whichever of the two was meant to be kept. *)
Theorem copy_empties this other t m : one_owner m -> m !! this = None -> holds m other t ->
  exists m', copy this other m = Ret tt m' /\ value this m' = Ret t m' /\ value other m' = UB.
Proof.
  intros Ho Hn Hh. assert (Hne : this <> other) by (intros ->; unfold holds in Hh; congruence).
  assert (exists m', copy this other m = Ret tt m') as [m' Hm] by (unfold copy, move_from; rewrite Hh; by eexists).
  destruct (move_from_owner _ _ _ _ Hne Ho Hm) as (_ & _ & Hgone & Htaken). exists m'. split; [done|].
  unfold value. rewrite Hgone, (Htaken t Hh). done.
Qed.

End MoveOnCopy.
End MoveOnCopy.

(** ** object_pool_t::get *)

Module Handles.

(** [pool_]: [None] when the pool is gone; [out]: the objects handed out by [get], each
    with the number of pointers to it beyond the first; [made]: how many objects
    [create_handler_] has made. *)
Record state := State { pool_ : option (list nat); out : list (nat * nat); made : nat }.

(** [object_pool_traits_t] of a list; an empty pointer when there is nothing in it. *)
Definition pop (l : list nat) : option nat * list nat :=
  match l with [] => (None, []) | val :: l => (Some val, l) end.
Definition push (l : list nat) (val : nat) : list nat := l ++ [val].

(** The object is in the deleter of the pointer. *)
Definition get : prog state unit := fun s =>
  match pool_ s with
  | None => UB
  | Some l =>
      match pop l with
      | (Some obj, rest) => Ret tt (State (Some rest) (out s ++ [(obj, 0%nat)]) (made s))
      | (None, rest) => Ret tt (State (Some rest) (out s ++ [(made s, 0%nat)]) (S (made s)))
      end
  end.

Definition copy (i : nat) : prog state unit := fun s =>
  match out s !! i with
  | Some (obj, n) => Ret tt (State (pool_ s) (<[i := (obj, S n)]> (out s)) (made s))
  | None => UB
  end.

(** The last pointer runs the deleter, which reaches [pool_] through the [this] it
    captured. *)
Definition drop_pointer (i : nat) : prog state unit := fun s =>
  match out s !! i with
  | Some (obj, S n) => Ret tt (State (pool_ s) (<[i := (obj, n)]> (out s)) (made s))
  | Some (obj, O) =>
      match pool_ s with
      | Some l => Ret tt (State (Some (push l obj)) (delete i (out s)) (made s))
      | None => UB
      end
  | None => UB
  end.

Fixpoint drop_times (n i : nat) : prog state unit :=
  match n with O => ret tt | S n => drop_pointer i ;;; drop_times n i end.

Definition destroy : prog state unit := fun s => Ret tt (State None (out s) (made s)).

Inductive event := Get | CopyPointer (i : nat) | Drop (i : nat).
(** Clients use pointers they have. *)
Definition exec (e : event) : prog state unit := fun s =>
  match e with
  | Get => get s
  | CopyPointer i => if (i <? length (out s))%nat then copy i s else Ret tt s
  | Drop i => if (i <? length (out s))%nat then drop_pointer i s else Ret tt s
  end.
Fixpoint run (l : list event) : prog state unit := match l with [] => ret tt | e :: l => exec e ;;; run l end.

Definition wf (s : state) : Prop := exists l, pool_ s = Some l /\ l ++ (out s).*1 ≡ₚ seq 0 (made s).

Lemma handles_exec e s : wf s -> exists s', exec e s = Ret tt s' /\ wf s'.
Proof.
  intros (l & Hp & Hl). unfold wf. destruct e as [|i|i]; cbn [exec].
  - unfold get. rewrite Hp. destruct l as [|obj rest]; cbn [pop]; (eexists; split; [done|]); eexists; (split; [done|]); cbn [out made]; rewrite fmap_app.
    + rewrite seq_S. cbn [app] in *. by apply Permutation_app_tail.
    + rewrite <- Hl. cbn. solve_Permutation.
  - destruct (Nat.ltb_spec i (length (out s))) as [Hi|]; [|eexists; split; [done|by exists l]]. unfold copy.
    destruct (out s !! i) as [[obj n]|] eqn:E; [|apply lookup_ge_None in E; lia]. eexists. split; [done|]. cbn. exists l. split; [done|].
    rewrite list_fmap_insert. cbn. rewrite list_insert_id; [done|]. by rewrite list_lookup_fmap, E.
  - destruct (Nat.ltb_spec i (length (out s))) as [Hi|]; [|eexists; split; [done|by exists l]]. unfold drop_pointer.
    destruct (out s !! i) as [[obj [|n]]|] eqn:E; [| |apply lookup_ge_None in E; lia].
    + rewrite Hp. eexists. split; [done|]. cbn. eexists. split; [done|]. unfold push. rewrite <- Hl, <- app_assoc. apply Permutation_app_head.
      pose proof (delete_Permutation _ _ _ E) as Hd. apply (fmap_Permutation fst) in Hd. by rewrite Hd.
    + eexists. split; [done|]. cbn. exists l. split; [done|].
      rewrite list_fmap_insert. cbn. rewrite list_insert_id; [done|]. by rewrite list_lookup_fmap, E.
Qed.

(** While the pool exists every object is in it or with one group of pointers, whatever
    is got, copied and dropped in whatever order, and nothing is undefined. *)
Theorem handles_come_back l : exists s c, run l (State (Some []) [] 0) = Ret tt s /\
  pool_ s = Some c /\ c ++ (out s).*1 ≡ₚ seq 0 (made s).
Proof.
  assert (H : forall s, wf s -> exists s', run l s = Ret tt s' /\ wf s').
  { induction l as [|e l IH]; intros s Hw; [by exists s|]. destruct (handles_exec e s Hw) as (s1 & H1 & Hw1).
    cbn [run]. rewrite (bind_ret _ _ _ _ _ H1). by apply IH. }
  destruct (H (State (Some []) [] 0)) as (s & Hr & c & Hc & Hp); [by exists []|]. by exists s, c.
Qed.

(** A pointer that outlives the pool gives its object back to a pool that is gone, whatever
    other pointers do in between. *)
Theorem handle_outlives_pool s i obj n : out s !! i = Some (obj, n) ->
  (destroy ;;; drop_times (S n) i) s = UB.
Proof.
  set (s1 := State None (out s) (made s)). intros H.
  change (drop_times (S n) i s1 = UB).
  assert (Hs : out s1 !! i = Some (obj, n) /\ pool_ s1 = None) by done. clearbody s1. clear H.
  revert s1 Hs. induction n as [|n IH]; intros s1 [Ho Hp]; cbn [drop_times] in *.
  - unfold bind, drop_pointer. by rewrite Ho, Hp.
  - unfold bind at 1. unfold drop_pointer at 1. rewrite Ho. apply IH. cbn. split; [|done].
    apply list_lookup_insert_eq. by apply lookup_lt_Some in Ho.
Qed.

End Handles.

(** ** session::additional_data *)

Module AdditionalData.
Section AdditionalData.
(** The types of C++ that are used, and their values. *)
Context {type : Type} `{EqDecision type} (val : type -> Type).

(** [holder_impl_t]: its type is not looked at when the value is asked for. *)
Definition holder_t : Type := {T : type & val T}.
Notation data_ := (option holder_t).

Definition set_additional_data (T : type) (t : val T) : prog data_ unit := fun _ => Ret tt (Some (existT T t)).

(** The value the reference refers to: [static_cast] from [void *], after an assertion that
    there is one. *)
Definition additional_data (T : type) : prog data_ (val T) := fun d =>
  match d with
  | None => UB
  | Some (existT T' v) =>
      match decide (T' = T) with
      | left e => Ret (eq_rect T' val v T e) d
      | right _ => UB
      end
  end.

(** An assignment through the reference. *)
Definition assign_data (T : type) (v : val T) : prog data_ unit := additional_data T ;;; set_additional_data T v.

(** What was put in or assigned is got back at its type; at another type, or before
    anything was put in, asking is undefined. *)
Theorem data_typed T v d :
  (let* _ := set_additional_data T v in additional_data T) d = Ret v (Some (existT T v)) /\
  (forall T', T' <> T -> (let* _ := set_additional_data T v in additional_data T') d = UB) /\
  (forall T', additional_data T' None = UB) /\
  forall v', (let* _ := set_additional_data T v in let* _ := assign_data T v' in additional_data T) d = Ret v' (Some (existT T v')).
Proof.
  assert (H : forall v, additional_data T (Some (existT T v)) = Ret v (Some (existT T v))).
  { intros u. unfold additional_data. destruct (decide (T = T)) as [e|]; [|done].
    by rewrite (proof_irrel e eq_refl). }
  split; [exact (H v)|]. split; [|split; [done|]].
  - intros T' Hne. unfold bind, set_additional_data, additional_data. destruct (decide (T = T')); [by subst|done].
  - intros v'. unfold assign_data, bind, set_additional_data. by rewrite H, H.
Qed.

End AdditionalData.
End AdditionalData.

Module Demo.

Lemma one_holder_witness :
  match MoveOnCopy.run [MoveOnCopy.Construct 1 7; MoveOnCopy.Copy 2 1; MoveOnCopy.Assign 2 2; MoveOnCopy.Assign 1 2; MoveOnCopy.Destroy 2] ∅ with
  | Ret _ m => m !! 1%nat = Some (Some 7) /\ MoveOnCopy.one_owner m
  | _ => False
  end.
Proof.
  destruct (MoveOnCopy.run _ _) as [[] m|e m| |] eqn:E; [|exfalso; vm_compute in E; discriminate E..].
  split; [vm_compute in E; injection E as <-; reflexivity|].
  refine (proj1 (MoveOnCopy.one_holder _ m _ E)). repeat constructor. cbn. apply not_elem_of_nil.
Defined.

Lemma copy_empties_witness : exists m', MoveOnCopy.copy 2 1 ({[1%nat := Some 7]} : gmap nat (option Z)) = Ret tt m' /\
  MoveOnCopy.value 2 m' = Ret 7 m' /\ MoveOnCopy.value 1 m' = UB.
Proof.
  apply (MoveOnCopy.copy_empties 2 1 7 ({[1%nat := Some 7]} : gmap nat (option Z))); [|done|done].
  intros a b t Ha Hb. apply lookup_singleton_Some in Ha as [<- _]. by apply lookup_singleton_Some in Hb as [<- _].
Defined.

Lemma handle_outlives_pool_witness :
  (Handles.destroy ;;; Handles.drop_times 2 0) (Handles.State (Some []) [(0, 1)%nat] 1) = UB.
Proof. apply (Handles.handle_outlives_pool (Handles.State (Some []) [(0, 1)%nat] 1) 0 0 1). reflexivity. Defined.

End Demo.
