(* ===== verification/Network.v ===== *)
(** * Sessions, the server and the client

    include/async_io/network.hpp and network.cpp. The client's handlers are programs
    over the world [W], which may throw; an empty [std::function] is [None]. *)

From S2P Require Import Prelude Memory Buffers Socket AsyncTransfer SyncContainer.

(** What a handler is told. *)
Inductive message :=
| what (e : exn)                (* e.what() *)
| error_msg (code : Z)          (* the text of a system error *)
| has_exception.                (* "has an exception in ..." *)

(** [catch(::exception::exception_base &)] or [catch(std::exception &)]. *)
Definition is_std (e : exn) : bool := match e with foreign => false | _ => true end.

(** ** Sessions *)

Module Session.
Section Session.
Context {W : Type}.
Context (error_handler_ : option (message -> prog W unit)).
Context (disconnect_handler_ : option (prog W unit)).
Context (async_disconnect : prog W unit).     (* sck_->async_disconnect(true, ...) *)

(** [error_handler_(...)], and with its test. *)
Definition error_handler (m : message) : prog W unit :=
  match error_handler_ with Some h => h m | None => throw bad_function_call end.
Definition error_handler_if (m : message) : prog W unit :=
  match error_handler_ with Some h => h m | None => ret tt end.

Definition disconnect : prog W unit :=
  try_catch (match disconnect_handler_ with Some h => h | None => ret tt end)
            (fun _ => error_handler has_exception) ;;;
  try_catch async_disconnect
            (fun e => if is_std e then error_handler (what e) else throw e).

Definition _handle_read (error size : Z) (read_handler : Z -> prog W unit) : prog W unit :=
  try_catch
    (if error =? 0 then
       if size =? 0 then disconnect else read_handler size
     else
       (if negb (size =? 0) then error_handler_if (error_msg error) else ret tt) ;;; disconnect)
    (fun _ => error_handler has_exception).

Definition _handle_write (error size : Z) (write_handler : Z -> prog W unit) : prog W unit :=
  try_catch
    (if error =? 0 then
       if negb (size =? 0) then write_handler size else ret tt
     else error_handler_if (error_msg error))
    (fun _ => error_handler has_exception).

Definition _run_impl (handler : prog W unit) (is_read_op : bool) : prog W bool :=
  try_catch (handler ;;; ret true)
    (fun e =>
       if is_std e
       then error_handler_if (what e) ;;; (if is_read_op then disconnect else ret tt) ;;; ret false
       else throw e).

(** [shutdown]: [sck_->cancel()]. *)
Definition shutdown (cancel : prog W unit) : prog W unit := cancel.

(** ** What the handlers of a session see *)

(** A program that returns. *)
Definition returns (m : prog W unit) : Prop := forall s, exists s', m s = Ret tt s'.
(** A program that returns or throws. *)
Definition ends {A} (m : prog W A) : Prop := forall s,
  match m s with Ret _ _ | Throw _ _ => True | _ => False end.

Definition safe_error_handler : Prop := forall m, returns (error_handler m).

Lemma safe_if m : safe_error_handler -> returns (error_handler_if m).
Proof. intros H s. specialize (H m s). unfold error_handler_if, error_handler in *.
  destruct error_handler_; [done|by exists s]. Qed.

Lemma try_returns m h : ends m -> (forall e, returns (h e)) -> returns (try_catch m h).
Proof.
  intros Hm Hh s. unfold try_catch. specialize (Hm s). destruct (m s) as [[] s'|e s'| |]; try done.
  - by exists s'.
  - apply Hh.
Qed.

Lemma ends_bind {A} (m : prog W unit) (k : prog W A) : ends m -> ends k -> ends (m ;;; k).
Proof. intros Hm Hk s. unfold bind. specialize (Hm s). destruct (m s); try done. apply Hk. Qed.

Lemma returns_ends m : returns m -> ends m.
Proof. intros H s. by destruct (H s) as [s' ->]. Qed.

Lemma disconnect_ends : safe_error_handler -> ends async_disconnect ->
  (forall h, disconnect_handler_ = Some h -> ends h) -> ends disconnect.
Proof.
  intros He Ha Hd. apply ends_bind.
  - apply returns_ends, try_returns; [|intros e; apply He].
    destruct disconnect_handler_ as [h|]; [by apply Hd|by intros s].
  - intros s. unfold try_catch. specialize (Ha s). destruct (async_disconnect s) as [| e s'| |]; try done.
    destruct (is_std e); [|done]. by destruct (He (what e) s') as [s2 ->].
Qed.

(** [C37] When an error handler is registered that never throws, and the other handlers of
    the client and [async_disconnect] return or throw: nothing that they throw leaves the
    completion of a read or a write of a session, which returns, so that the worker goes on
    with its batch. Without such an error handler it may leave it ([no_error_handler]). *)
Theorem handlers_contained error size handler :
  safe_error_handler -> ends async_disconnect ->
  (forall h, disconnect_handler_ = Some h -> ends h) -> (forall n, ends (handler n)) ->
  returns (_handle_read error size handler) /\ returns (_handle_write error size handler).
Proof.
  intros He Ha Hd Hh. pose proof (disconnect_ends He Ha Hd) as Hdis.
  split; apply try_returns; try (intros e; apply He).
  - destruct (error =? 0); [by destruct (size =? 0)|]. apply ends_bind; [|done].
    destruct (negb _); [by apply returns_ends, safe_if|by intros s].
  - destruct (error =? 0); [|by apply returns_ends, safe_if].
    destruct (negb _); [done|by intros s].
Qed.

(** Without an error handler the containment fails: an exception of the read
    handler, or a disconnect that fails, becomes [bad_function_call], thrown into the
    worker. *)
Theorem no_error_handler size handler e s s' : error_handler_ = None -> size <> 0 ->
  handler size s = Throw e s' ->
  _handle_read 0 size handler s = Throw bad_function_call s' /\
  _handle_write 0 size handler s = Throw bad_function_call s'.
Proof.
  intros Hn Hs Hh. unfold _handle_read, _handle_write, try_catch, error_handler. rewrite Hn.
  cbn [Z.eqb]. apply Z.eqb_neq in Hs as ->. cbn [negb]. by rewrite Hh.
Qed.

(** A read that cannot be started: the error handler is told, the session is
    disconnected, and the call answers [false]; a write that cannot be started leaves
    the session connected. *)
Theorem run_impl_spec handler s :
  match handler s with
  | Ret _ s' => forall op, _run_impl handler op s = Ret true s'
  | Throw e s' => is_std e = true -> forall s1, error_handler_if (what e) s' = Ret tt s1 ->
      _run_impl handler false s = Ret false s1 /\
      _run_impl handler true s = (disconnect ;;; ret false) s1
  | _ => True
  end.
Proof.
  unfold _run_impl, try_catch, bind. destruct (handler s) as [[] s'|e s'| |]; try done.
  intros He s1 H1. by rewrite He, H1.
Qed.

End Session.
End Session.

(** ** A session's read, from the request to the handler *)

Section EndToEnd.
Context (s0 : state) (b : buffer_t) (Hb : 0 < size_ b < 4294967296).

(** [session::async_read] passes [transfer_all()] and [_handle_read]. *)
Definition session_async_read (fuel : nat) : prog state unit :=
  async_read fuel b (transfer_all 32 0).

(** [C6] The read handler of a session is called with the whole buffer filled or not
    at all: whatever the system splits the data into, the completion either passes
    the size of the buffer, all of whose bytes have arrived in order, or disconnects. *)
Theorem session_reads_all fuel events s' :
  pending s0 = None -> Forall (ok_answer (fun _ => True)) (answers s0) ->
  (length (answers s0) < fuel)%nat ->
  (session_async_read fuel ;;; deliver (complete_read fuel) events) s0 = Ret tt s' ->
  completions s' = completions s0 /\ pending s' <> None \/
  exists error n, completions s' = completions s0 ++ [(error, n)] /\ pending s' = None /\
    (error = 0 -> n <> 0 ->
       n = size_ b /\
       forall x, amem s' x = store (data_ b) (take (Z.to_nat n) (arriving s0)) (amem s0) x) /\
    forall (W : Type) eh dh ad (read_handler : Z -> prog W unit) w,
      Session._handle_read eh dh ad error n read_handler w =
      if (error =? 0) && negb (n =? 0)
      then try_catch (read_handler (size_ b)) (fun _ => Session.error_handler eh has_exception) w
      else try_catch ((if negb (error =? 0) && negb (n =? 0)
                       then Session.error_handler_if eh (error_msg error) else ret tt) ;;;
                      Session.disconnect eh dh ad)
             (fun _ => Session.error_handler eh has_exception) w.
Proof.
  intros Hp Ha Hf Hrun.
  pose proof (async_read_core s0 b (transfer_all 32 0) Hb (fun _ => True) fuel events Hp Ha Hf) as [H _].
  unfold session_async_read in Hrun. rewrite Hrun in H. destruct H as [[(t & Hr & _)|[Hfin _]] _].
  - left. destruct Hr as (len & Hp' & _ & _ & Hc). split; [done|]. by rewrite Hp'.
  - right. destruct Hfin as (Hp' & error & n & t & Hc & Ht & Hgot & Hn & Hmin).
    exists error, n. split_and!; [done|done| |].
    + intros He Hn0. specialize (Hmin He Hn0). destruct Hn as [?|Hn]; [done|].
      assert (n = size_ b) as Hall by (change (transfer_all 32 0) with 4294967295 in Hmin; lia).
      split; [done|]. destruct Hgot as (_ & Hm & _). by rewrite Hn, Nat2Z.id.
    + intros W eh dh ad read_handler w. unfold Session._handle_read.
      destruct (error =? 0) eqn:E1, (n =? 0) eqn:E2; bool_props; cbn; try done.
      specialize (Hmin E1 E2). destruct Hn as [?|Hn]; [done|].
      change (transfer_all 32 0) with 4294967295 in Hmin.
      by replace (size_ b) with n by lia.
Qed.

End EndToEnd.

(** ** The server *)

Module Server.

(** [socket_pool_] is the pool of SyncContainer.v; [accepting]: the sockets of the
    accept requests that are out; [sessions]: those of the live sessions; [closed]:
    those destroyed when their request failed. [told]: the calls of the accept handler
    ([true]) and of the error handler ([false]) with a session. *)
Record server := Mk {
  socket_pool_ : pool;
  accepting : list nat;
  sessions : list nat;
  closed : list nat;
  told : list (nat * bool);
  error_handle_ : bool;
  accept_handle_ : bool;
  disconnect_handle_ : bool;
  thread_ : bool;
  joined : nat;
  io_running : bool;
  acceptor_open : bool
}.

Definition set_pool p s := Mk p (accepting s) (sessions s) (closed s) (told s) (error_handle_ s) (accept_handle_ s) (disconnect_handle_ s) (thread_ s) (joined s) (io_running s) (acceptor_open s).
Definition set_accepting l s := Mk (socket_pool_ s) l (sessions s) (closed s) (told s) (error_handle_ s) (accept_handle_ s) (disconnect_handle_ s) (thread_ s) (joined s) (io_running s) (acceptor_open s).
Definition set_sessions l s := Mk (socket_pool_ s) (accepting s) l (closed s) (told s) (error_handle_ s) (accept_handle_ s) (disconnect_handle_ s) (thread_ s) (joined s) (io_running s) (acceptor_open s).
Definition set_closed l s := Mk (socket_pool_ s) (accepting s) (sessions s) l (told s) (error_handle_ s) (accept_handle_ s) (disconnect_handle_ s) (thread_ s) (joined s) (io_running s) (acceptor_open s).
Definition set_told l s := Mk (socket_pool_ s) (accepting s) (sessions s) (closed s) l (error_handle_ s) (accept_handle_ s) (disconnect_handle_ s) (thread_ s) (joined s) (io_running s) (acceptor_open s).
Definition set_handlers e a d s := Mk (socket_pool_ s) (accepting s) (sessions s) (closed s) (told s) e a d (thread_ s) (joined s) (io_running s) (acceptor_open s).
Definition set_running t j io acc s := Mk (socket_pool_ s) (accepting s) (sessions s) (closed s) (told s) (error_handle_ s) (accept_handle_ s) (disconnect_handle_ s) t j io acc.

Definition on_pool {A} (m : prog pool A) : prog server A := fun s =>
  match m (socket_pool_ s) with
  | Ret a p => Ret a (set_pool p s)
  | Throw e p => Throw e (set_pool p s)
  | UB => UB
  | OutOfFuel => OutOfFuel
  end.

(** One accept request: the socket goes to the request, or, when [async_accept]
    throws, is destroyed with it. *)
Definition post_accept (ok : bool) : prog server unit :=
  let* sck := on_pool raw_aciquire in
  fun s => Ret tt (if ok then set_accepting (accepting s ++ [sck]) s
                   else set_closed (closed s ++ [sck]) s).

(** [for( i = 0; i != MAX_ACCEPT_NUM; ++i )] *)
Definition MAX_ACCEPT_NUM : nat := 10.
Fixpoint post_accepts (n : nat) (oks : list bool) : prog server unit :=
  match n with
  | O => ret tt
  | S n' => post_accept (default true (head oks)) ;;; post_accepts n' (tail oks)
  end.

(** What [WaitForSingleObjectEx] answers: [Other] is [continue]. *)
Inductive wait := Signalled (oks : list bool) | Failed_or_apc | Other.

Fixpoint _thread_impl (waits : list wait) : prog server unit :=
  match waits with
  | [] => ret tt
  | Signalled oks :: waits' => post_accepts MAX_ACCEPT_NUM oks ;;; _thread_impl waits'
  | Failed_or_apc :: _ => ret tt
  | Other :: waits' => _thread_impl waits'
  end.

(** [~session] *)
Definition destroy_session (v : nat) : prog server unit := fun s =>
  if bool_decide (v ∈ sessions s)
  then on_pool (raw_release v) (set_sessions (remove_one v (sessions s)) s)
  else Ret tt s.

(** The completion of an accept request; [keeps]: the handler stores the session it
    is given, else it is destroyed when this returns. *)
Definition _handle_accept (error : Z) (v : nat) (keeps : bool) : prog server unit := fun s =>
  if bool_decide (v ∈ accepting s) then
    let s' := set_sessions (sessions s ++ [v]) (set_accepting (remove_one v (accepting s)) s) in
    if negb (error =? 0) then
      if error_handle_ s'
      then (if keeps then ret tt else destroy_session v) (set_told (told s' ++ [(v, false)]) s')
      else (destroy_session v ;;; throw bad_function_call) s'
    else if accept_handle_ s'
      then (if keeps then ret tt else destroy_session v) (set_told (told s' ++ [(v, true)]) s')
      else destroy_session v s'
  else Ret tt s.

(** Assigning [thread_] destroys a thread that was not joined, which terminates. *)
Definition start : prog server bool := fun s =>
  if thread_ s then UB else Ret true (set_running true (joined s) (io_running s) (acceptor_open s) s).

Definition stop : prog server bool := fun s =>
  let j := if thread_ s then S (joined s) else joined s in
  Ret true (set_handlers false false (disconnect_handle_ s) (set_running false j false false s)).

Definition register_error_handler (h : bool) : prog server unit := fun s =>
  Ret tt (set_handlers h (accept_handle_ s) (disconnect_handle_ s) s).
Definition register_accept_handler (h : bool) : prog server unit := fun s =>
  Ret tt (set_handlers (error_handle_ s) h (disconnect_handle_ s) s).
Definition register_disconnect_handler (h : bool) : prog server unit := fun s =>
  Ret tt (set_handlers (error_handle_ s) (accept_handle_ s) h s).

Definition init : server :=
  Mk (SyncContainer.init 1) [] [] [] [] false false false false 0 true true.

(** The accept thread, the completions and the ends of sessions, in any order. *)
Inductive event :=
| Signal (oks : list bool)
| Accepted (error : Z) (v : nat) (keeps : bool)
| Ended (v : nat).

Definition exec (e : event) : prog server unit :=
  match e with
  | Signal oks => post_accepts MAX_ACCEPT_NUM oks
  | Accepted error v keeps => _handle_accept error v keeps
  | Ended v => destroy_session v
  end.

Fixpoint run (events : list event) (s : server) : option server :=
  match events with
  | [] => Some s
  | e :: events' =>
      match exec e s with
      | Ret _ s' | Throw _ s' => run events' s'
      | _ => None
      end
  end.

(** Every socket is in the pool, with an accept request, in a session, or closed. *)
Record wf (s : server) : Prop := {
  wf_made : container (socket_pool_ s) ++ held (socket_pool_ s) ≡ₚ seq 0 (made (socket_pool_ s));
  wf_held : held (socket_pool_ s) ≡ₚ accepting s ++ sessions s ++ closed s
}.

Lemma raw_aciquire_ok p : exists v p', raw_aciquire p = Ret v p' /\ held p' = held p ++ [v] /\
  (container p ++ held p ≡ₚ seq 0 (made p) -> container p' ++ held p' ≡ₚ seq 0 (made p')).
Proof.
  destruct p as [l h n cs]. unfold raw_aciquire, pop, bind, on_container, Sequence.empty,
    Sequence.top, Sequence.pop_top. destruct l as [|x l]; cbn; eexists _, _;
    (split; [done|split; [done|]]); cbn.
  - intros H. rewrite H, <- Permutation_cons_append.
    change (0 :: seq 1 n)%nat with (seq 0 (S n)). rewrite seq_S. by rewrite Permutation_cons_append.
  - intros H. rewrite <- H. by rewrite Permutation_middle, <- Permutation_cons_append.
Qed.

Lemma post_accept_wf ok s : wf s -> exists s', post_accept ok s = Ret tt s' /\ wf s' /\
  (length (accepting s) <= length (accepting s') <= S (length (accepting s)))%nat.
Proof.
  intros [Hm Hh]. unfold post_accept, bind, on_pool.
  destruct (raw_aciquire_ok (socket_pool_ s)) as (v & p & -> & Hv & Hp).
  eexists. split; [done|]. destruct ok; cbn; (split; [split; cbn; [by apply Hp|]|rewrite ?length_app; cbn; lia]);
    rewrite Hv, Hh; solve_Permutation.
Qed.

Lemma post_accepts_wf n oks s : wf s -> exists s', post_accepts n oks s = Ret tt s' /\ wf s' /\
  (length (accepting s) <= length (accepting s') <= n + length (accepting s))%nat.
Proof.
  revert oks s. induction n as [|n IH]; intros oks s H; cbn [post_accepts]; [by exists s|].
  unfold bind. destruct (post_accept_wf (default true (head oks)) s H) as (s1 & -> & H1 & ?).
  destruct (IH (tail oks) s1 H1) as (s2 & -> & H2 & ?). exists s2. split_and!; [done|done|lia|lia].
Qed.

Lemma remove_one_app v l k : v ∈ l -> remove_one v (l ++ k) = remove_one v l ++ k.
Proof.
  induction l as [|x l IH]; [by intros ? % elem_of_nil|]. cbn. intros Hin.
  destruct (Nat.eqb_spec x v); [done|]. apply elem_of_cons in Hin as [?|Hin]; [done|].
  cbn. by rewrite IH.
Qed.

Lemma destroy_session_wf v s : wf s -> exists s', destroy_session v s = Ret tt s' /\ wf s' /\
  accepting s' = accepting s /\ told s' = told s.
Proof.
  intros [Hm Hh]. unfold destroy_session. case_bool_decide as Hv; [|by exists s].
  assert (Hin : v ∈ held (socket_pool_ s)) by (rewrite Hh, !elem_of_app; tauto).
  unfold on_pool, raw_release. cbn [socket_pool_ set_sessions].
  rewrite bool_decide_eq_true_2 by done. cbn. eexists. split_and!; [done| |done|done].
  pose proof (remove_one_perm v _ Hin) as Hr. split; cbn.
  - rewrite <- Hm, <- app_assoc. f_equiv. by rewrite Hr at 2.
  - rewrite Hr, (remove_one_perm v (sessions s) Hv) in Hh.
    apply (Permutation_cons_inv (a := v)). rewrite Hh. solve_Permutation.
Qed.

Lemma handle_accept_wf error v keeps s : wf s ->
  match _handle_accept error v keeps s with
  | Ret _ s' | Throw _ s' => wf s'
  | _ => False
  end.
Proof.
  intros H. unfold _handle_accept. case_bool_decide as Hv; [|done].
  set (s' := set_sessions _ _).
  assert (Hw : forall t, wf (set_told t s') /\ wf s').
  { destruct H as [Hm Hh]. intros t. rewrite (remove_one_perm v (accepting s) Hv) in Hh.
    split; split; cbn; try done; rewrite Hh; solve_Permutation. }
  destruct (destroy_session_wf v s' (proj2 (Hw []))) as (s1 & E1 & H1 & _).
  destruct (negb (error =? 0)).
  - destruct (error_handle_ s').
    + destruct (Hw (told s' ++ [(v, false)])) as [Hw1 _]. destruct keeps; [done|].
      by destruct (destroy_session_wf v _ Hw1) as (s2 & -> & H2 & _).
    + unfold bind. by rewrite E1.
  - destruct (accept_handle_ s').
    + destruct (Hw (told s' ++ [(v, true)])) as [Hw1 _]. destruct keeps; [done|].
      by destruct (destroy_session_wf v _ Hw1) as (s2 & -> & H2 & _).
    + by rewrite E1.
Qed.

Lemma run_wf events s : wf s -> exists s', run events s = Some s' /\ wf s'.
Proof.
  revert s. induction events as [|e events IH]; intros s H; cbn [run]; [by exists s|].
  assert (He : match exec e s with Ret _ s' | Throw _ s' => wf s' | _ => False end).
  { destruct e as [oks|error v keeps|v]; cbn [exec].
    - by destruct (post_accepts_wf MAX_ACCEPT_NUM oks s H) as (s' & -> & ? & _).
    - by apply handle_accept_wf.
    - by destruct (destroy_session_wf v s H) as (s' & -> & ? & _). }
  destruct (exec e s) as [u s'|x s'| |]; try done; by apply IH.
Qed.

(** [C7] Whatever the accept thread posts, the system completes and the clients end,
    every socket the server made has exactly one owner: the pool, an accept request,
    a session, or none when its request failed; so no two sessions ever share one. *)
Theorem sockets_owned events h a d : exists s,
  run events (set_handlers h a d init) = Some s /\
  container (socket_pool_ s) ++ accepting s ++ sessions s ++ closed s
    ≡ₚ seq 0 (made (socket_pool_ s)) /\
  NoDup (container (socket_pool_ s) ++ accepting s ++ sessions s).
Proof.
  destruct (run_wf events (set_handlers h a d init)) as (s & Hr & Hm & Hh); [by split|].
  exists s. rewrite Hh in Hm. split_and!; [done|done|].
  assert (Hn : NoDup (container (socket_pool_ s) ++ accepting s ++ sessions s ++ closed s))
    by (rewrite Hm; apply NoDup_seq).
  rewrite (assoc (++) (accepting s)), (assoc (++)) in Hn. by apply NoDup_app in Hn as [? _].
Qed.

(** Each signal of the accept event posts ten requests, fewer by those that
    fail, and the thread ends at the APC of [stop]. *)
Theorem accept_thread waits s : wf s -> Forall (fun w => w <> Failed_or_apc) waits ->
  exists s1, _thread_impl (waits ++ [Failed_or_apc]) s = Ret tt s1 /\ wf s1 /\
    _thread_impl waits s = Ret tt s1 /\
    (length (accepting s) <= length (accepting s1) <=
     length (accepting s) + MAX_ACCEPT_NUM * length waits)%nat /\
    forall more, _thread_impl (waits ++ Failed_or_apc :: more) s = Ret tt s1.
Proof.
  intros H Hw. revert s H. induction Hw as [|x waits Hx Hw IH]; intros s H; cbn [_thread_impl app].
  - exists s. split_and!; try done; cbn; lia.
  - destruct x as [oks| |]; [|done|].
    + destruct (post_accepts_wf MAX_ACCEPT_NUM oks s H) as (s1 & E & H1 & ?).
      destruct (IH s1 H1) as (s2 & E1 & H2 & E3 & ? & E4). exists s2. unfold bind. rewrite E.
      split_and!; try done; cbn [length]; lia.
    + destruct (IH s H) as (s2 & E1 & H2 & E3 & ? & E4). exists s2.
      split_and!; try done; cbn [length]; lia.
Qed.

End Server.

(** ** The client *)

Module Client.
Section Client.
Context (w : Z) {O : Type} `{Winsock O}.
Notation sock := (Socket.sock (O := O)).
Context (error_handle_ : option (message -> prog sock unit)).
Context (connect_handle_ : option (bool -> prog sock unit)).
Context (disconnect_handle_ : option (prog sock unit)).
Context (GetLastError : sock -> Z).
Context (set_option : prog sock unit).       (* no_delay and linger *)

Definition AF_INET : Z := 2.
Definition SOCK_STREAM : Z := 1.
Definition IPPROTO_TCP : Z := 6.

Definition error_handle_if (m : message) : prog sock unit :=
  match error_handle_ with Some h => h m | None => ret tt end.

Definition stop : prog sock unit := fun s =>
  if is_open w s then stream_socket_close w s else Ret tt s.

Definition disconnect : prog sock unit :=
  try_catch (stop ;;; match disconnect_handle_ with Some h => h | None => ret tt end)
            (fun _ => ret tt).

Definition _on_connect (error : Z) : prog sock unit :=
  try_catch
    (match connect_handle_ with Some h => h (error =? 0) | None => ret tt end ;;;
     if error =? 0 then set_option
     else error_handle_if (error_msg error) ;;; disconnect)
    (fun _ => ret tt).

Definition start (addr port : Z) : prog sock bool :=
  try_catch
    ((fun s => if negb (is_open w s) then Socket.open w AF_INET SOCK_STREAM IPPROTO_TCP s else Ret tt s) ;;;
     Socket.connect w addr port ;;;
     (fun s => _on_connect (GetLastError s) s) ;;;
     ret true)
    (fun e => if is_std e then error_handle_if (what e) ;;; ret false else throw e).

Definition _run_impl (handler : prog sock unit) : prog sock bool :=
  try_catch (handler ;;; ret true)
    (fun e => if is_std e then error_handle_if (what e) ;;; disconnect ;;; ret false else throw e).

(** [send] and [recv], over the blocking transfers of Buffers.v. *)
Definition send (fuel : nat) (buf len : Z) : prog sock bool :=
  _run_impl (write_all (H := socket_stream w) w fuel (buffer_of_pointer buf len) ;;; ret tt).
Definition recv (fuel : nat) (buf len : Z) : prog sock bool :=
  _run_impl (read_all (H := socket_stream w) w fuel (buffer_of_pointer buf len) ;;; ret tt).

(** [cli_handler_wrapper_t::operator()] *)
Definition cli_handler (handler : Z -> prog sock unit) (error size : Z) : prog sock unit :=
  if error =? 0 then
    if size =? 0 then disconnect else handler size
  else
    (if negb (size =? 0) then error_handle_if (error_msg error) else ret tt) ;;; disconnect.

Lemma stop_closes s : exists s', stop s = Ret tt s' /\ is_open w s' = false.
Proof.
  unfold stop. destruct (is_open w s) eqn:E; [|by exists s].
  unfold stream_socket_close, bind, shutdown, close, unchecked. rewrite E. cbn.
  assert (forall o : O, is_open w (Sock (socket_ s) (memory s) o) = true) as Ho.
  { intros o. exact E. }
  rewrite Ho. cbn. eexists. split; [done|]. unfold is_open. cbn. by rewrite Z.eqb_refl.
Qed.

(** [disconnect] closes the socket before the client hears of it, tells it
    once, and lets none of its exceptions out; a second [disconnect] finds the socket
    closed. *)
Theorem disconnect_closes s : exists s1, stop s = Ret tt s1 /\ is_open w s1 = false /\
  match disconnect_handle_ with
  | None => disconnect s = Ret tt s1
  | Some h =>
      match h s1 with
      | Ret _ s2 | Throw _ s2 => disconnect s = Ret tt s2
      | r => disconnect s = r
      end
  end.
Proof.
  destruct (stop_closes s) as (s1 & Hs & Hc). exists s1. split_and!; [done|done|].
  unfold disconnect, try_catch, bind. rewrite Hs.
  destruct disconnect_handle_ as [h|]; [|done]. by destruct (h s1) as [[] ?|? ?| |].
Qed.

(** [start] decides whether the connection was made by asking for the last
    error after [connect] has succeeded: with an old error code still there, the
    client is told the connection failed, the connected socket is closed, and [start]
    answers [true]. *)
Theorem start_stale_error addr port s s1 s2 :
  is_open w s = true -> Socket.connect w addr port s = Ret tt s1 -> GetLastError s1 <> 0 ->
  match connect_handle_ with Some h => h false s1 = Ret tt s2 | None => s2 = s1 end ->
  error_handle_ = None -> disconnect_handle_ = None ->
  exists s3, start addr port s = Ret true s3 /\ is_open w s3 = false.
Proof.
  intros Ho Hc Hl Hh He Hd. unfold start, try_catch, bind. rewrite Ho. cbn [negb]. rewrite Hc.
  destruct (stop_closes s2) as (s3 & Hs & Hcl). exists s3.
  assert (Hoc : _on_connect (GetLastError s1) s1 = Ret tt s3).
  { unfold _on_connect, try_catch, bind. apply Z.eqb_neq in Hl as ->.
    destruct connect_handle_ as [h|]; [rewrite Hh|subst s2]; unfold ret at 1;
      unfold error_handle_if, disconnect, try_catch, bind; rewrite He, Hd; cbn; by rewrite Hs. }
  by rewrite Hoc.
Qed.

(** A completion on the client's side calls the handler with at least one byte
    or disconnects, and never both; and an operation that throws disconnects and
    answers [false]. *)
Theorem cli_handler_spec handler error size s :
  (error = 0 -> size <> 0 -> cli_handler handler error size s = handler size s) /\
  (error = 0 -> size = 0 -> cli_handler handler error size s = disconnect s) /\
  (forall s1, error <> 0 ->
     (if size =? 0 then ret tt else error_handle_if (error_msg error)) s = Ret tt s1 ->
     cli_handler handler error size s = disconnect s1) /\
  (forall op e s1 s2, op s = Throw e s1 -> is_std e = true -> error_handle_if (what e) s1 = Ret tt s2 ->
     _run_impl op s = (disconnect ;;; ret false) s2).
Proof.
  unfold cli_handler. split_and!.
  - intros -> Hs. by apply Z.eqb_neq in Hs as ->.
  - by intros -> ->.
  - intros s1 He. apply Z.eqb_neq in He as ->. unfold bind. destruct (size =? 0); cbn.
    + by intros [= ->].
    + by intros ->.
  - intros op e s1 s2 Hop He H1. unfold _run_impl, try_catch, bind. by rewrite Hop, He, H1.
Qed.

End Client.
End Client.

(** ** Witnesses *)

Module Demo.

(** Handlers that log: 1 the read handler, 2 the error handler, 3 the disconnect
    handler, 4 the request to disconnect. The read handler throws on a short read. *)
Notation log := (list Z).
Definition note (x : Z) : prog log unit := fun s => Ret tt (s ++ [x]).
Definition eh : option (message -> prog log unit) := Some (fun _ => note 2).
Definition reader (n : Z) : prog log unit := if n <? 8 then throw foreign else note 1.

Lemma handlers_contained_witness :
  (exists s', Session._handle_read eh (Some (note 3)) (note 4) 0 5 reader [] = Ret tt s' /\ s' = [2]) /\
  Session.returns (Session._handle_read eh (Some (note 3)) (note 4) 0 5 reader).
Proof.
  split; [by eexists|].
  apply (Session.handlers_contained eh (Some (note 3)) (note 4) 0 5 reader).
  - intros m s. by eexists.
  - by intros s.
  - intros h [= <-]. by intros s.
  - intros n s. unfold reader. by destruct (n <? 8).
Defined.

Lemma no_error_handler_witness :
  Session._handle_read None None (note 4) 0 5 reader [] = Throw bad_function_call [] /\
  Session._handle_write None 0 5 reader [] = Throw bad_function_call [].
Proof.
  apply (Session.no_error_handler None None (note 4) 5 reader foreign [] []); [done|lia|done].
Defined.

Lemma run_impl_spec_witness :
  Session._run_impl eh (Some (note 3)) (note 4) (throw win32_exception) false [] = Ret false [2] /\
  Session._run_impl eh (Some (note 3)) (note 4) (throw win32_exception) true [] = Ret false [2; 3; 4].
Proof.
  destruct (Session.run_impl_spec eh (Some (note 3)) (note 4) (throw win32_exception) []
    eq_refl [2] eq_refl) as [H1 H2]. split; [exact H1|]. by rewrite H2.
Defined.

Notation start := (AsyncTransfer.Demo.start [Done 4; IoPending]).
Notation buf := AsyncTransfer.Demo.b.
Definition final : state :=
  match (session_async_read buf 3 ;;; deliver (complete_read 3) [(7, 0); (30, 0)]) start with
  | Ret _ s => s | _ => start end.

Lemma final_ok {S} (r : outcome S unit) (d : S) : (if r is Ret _ _ then true else false) = true ->
  r = Ret tt (match r with Ret _ s => s | _ => d end).
Proof. by destruct r as [[] ?| | |]. Qed.

Lemma session_reads_all_witness :
  completions final = [(0, 20)] /\
  (completions final = completions start /\ pending final <> None \/
   exists error n, completions final = completions start ++ [(error, n)] /\ pending final = None /\
    (error = 0 -> n <> 0 ->
       n = size_ buf /\
       forall x, amem final x = store (data_ buf) (take (Z.to_nat n) (arriving start)) (amem start) x) /\
    forall (W : Type) eh dh ad (read_handler : Z -> prog W unit) w,
      Session._handle_read eh dh ad error n read_handler w =
      if (error =? 0) && negb (n =? 0)
      then try_catch (read_handler (size_ buf)) (fun _ => Session.error_handler eh has_exception) w
      else try_catch ((if negb (error =? 0) && negb (n =? 0)
                       then Session.error_handler_if eh (error_msg error) else ret tt) ;;;
                      Session.disconnect eh dh ad)
             (fun _ => Session.error_handler eh has_exception) w).
Proof.
  split; [by vm_compute|].
  apply (session_reads_all start buf ltac:(cbn; lia) 3 [(7, 0); (30, 0)] final);
    [done|repeat constructor|cbn; lia|].
  apply final_ok. by vm_compute.
Defined.

Lemma accept_thread_witness :
  exists s1, Server._thread_impl ([Server.Signalled [true; false]; Server.Other] ++ [Server.Failed_or_apc])
      Server.init = Ret tt s1 /\ Server.wf s1 /\
    Server._thread_impl [Server.Signalled [true; false]; Server.Other] Server.init = Ret tt s1 /\
    (length (Server.accepting Server.init) <= length (Server.accepting s1) <=
     length (Server.accepting Server.init) + Server.MAX_ACCEPT_NUM * 2)%nat /\
    forall more, Server._thread_impl ([Server.Signalled [true; false]; Server.Other] ++ Server.Failed_or_apc :: more)
      Server.init = Ret tt s1.
Proof.
  apply (Server.accept_thread [Server.Signalled [true; false]; Server.Other] Server.init);
    [by split|by repeat constructor].
Defined.

(** A connected client with an old error code. *)
Definition s1 : Socket.Demo.socket := Socket.Demo.s0.

Lemma start_stale_error_witness :
  exists s3, Client.start 32 None None None (fun _ => 10035) (ret tt) 0 80 s1 = Ret true s3 /\
    is_open 32 s3 = false.
Proof.
  exact (Client.start_stale_error 32 None None None (fun _ => 10035) (ret tt) 0 80 s1 s1 s1
    eq_refl eq_refl ltac:(lia) eq_refl eq_refl eq_refl).
Defined.

Lemma cli_handler_spec_witness :
  Client.cli_handler 32 None None (fun _ => throw foreign) 0 0 s1 = Client.disconnect 32 None s1 /\
  Client.cli_handler 32 None None (fun _ => throw foreign) 64 0 s1 = Client.disconnect 32 None s1.
Proof.
  split.
  - by refine (proj1 (proj2 (Client.cli_handler_spec 32 None None (fun _ => throw foreign) 0 0 s1)) _ _).
  - by refine (proj1 (proj2 (proj2 (Client.cli_handler_spec 32 None None (fun _ => throw foreign) 64 0 s1)))
      s1 _ _).
Defined.

End Demo.
