(* ===== verification/ClientIo.v ===== *)
(** * Asynchronous calls of sessions and clients

    include/async_io/network.hpp: [session::async_read_some] and [async_write],
    [client::async_send], [async_recv] and [async_read_some]. A call starts a transfer of
    AsyncTransfer.v with a wrapper of the client's handler (Network.v), which runs when the
    transfer ends: inside the call when the system completes at once, or when the
    dispatcher delivers the completion. *)

From S2P Require Import Prelude Memory Buffers Socket AsyncTransfer Network.

(** ** Transfers only add to what the handlers are told *)

Definition grows {A} (s : state) (r : outcome state A) : Prop :=
  match r with Ret _ s' | Throw _ s' => completions s `prefix_of` completions s' | _ => True end.
Definition growing {A} (m : prog state A) : Prop := forall s, grows s (m s).

Lemma grows_trans {A} s s' (r : outcome state A) : completions s `prefix_of` completions s' -> grows s' r -> grows s r.
Proof. intros H. destruct r; cbn; try done; intros; by etrans. Qed.

Lemma call_handler_grows h error size : growing (call_handler h error size).
Proof. intros s. unfold call_handler. destruct (handler_ h); [|done]. cbn. by eexists. Qed.

Lemma guarded_grows m s s0 : completions s0 = completions s -> grows s (m s) -> grows s0 (guarded m s).
Proof. intros E. unfold guarded. destruct (m s); cbn; try rewrite E; done. Qed.

Section Growing.
Context (operator : (buffer_t -> transfer_handler -> prog state unit) -> transfer_handler -> Z -> Z -> prog state unit).
Context (moved_by : Z -> buffer_t -> state -> Z) (move : Z -> buffer_t -> state -> state).
Context (move_keeps : forall n b s, completions (move n b s) = completions s).
Context (operator_grows : forall as_next h error size, (forall b h, growing (as_next b h)) -> growing (operator as_next h error size)).

Lemma socket_async_grows fuel : forall b h, growing (socket_async operator moved_by move fuel b h).
Proof.
  induction fuel as [|f IH]; intros b h s; [done|]. cbn [socket_async]. unfold bind, make_async_callback.
  destruct (answers _) as [|[n| |e] l]; try by cbn.
  apply guarded_grows; [by rewrite move_keeps|]. by apply operator_grows.
Qed.

Lemma complete_grows fuel n error : growing (complete operator moved_by move fuel n error).
Proof.
  intros s. unfold complete. destruct (pending s) as [[h b]|]; [|done].
  apply guarded_grows; [by rewrite move_keeps|]. apply operator_grows, socket_async_grows.
Qed.
End Growing.

Lemma read_operator_grows as_read h error size : (forall b h, growing (as_read b h)) -> growing (read_operator as_read h error size).
Proof.
  intros Hr s. unfold read_operator. destruct (_ && _ && _); [|apply call_handler_grows].
  destruct (_ <? condition_ h); [|apply call_handler_grows].
  unfold mutable_plus, throw, ret. destruct (size_ _ <? _); [apply (call_handler_grows h)|].
  match goal with |- grows s (match as_read ?b ?h' s with _ => _ end) => pose proof (Hr b h' s) as Hg; destruct (as_read b h' s) as [|e s'| |] end;
    try done. destruct (is_exception_base e); [|done]. eapply grows_trans; [exact Hg|apply call_handler_grows].
Qed.

Lemma write_operator_grows as_write h error size : (forall b h, growing (as_write b h)) -> growing (write_operator as_write h error size).
Proof.
  intros Hr s. unfold write_operator. destruct (_ && _ && _); [|apply call_handler_grows].
  destruct (_ <? condition_ h); [|apply call_handler_grows].
  unfold const_plus, throw, ret. destruct (size_ _ <? _); [apply (call_handler_grows h)|].
  match goal with |- grows s (match as_write ?b ?h' s with _ => _ end) => pose proof (Hr b h' s) as Hg; destruct (as_write b h' s) as [|e s'| |] end;
    try done. destruct (is_exception_base e); [|done]. eapply grows_trans; [exact Hg|apply call_handler_grows].
Qed.

Lemma async_read_grows fuel b c : growing (async_read fuel b c).
Proof. apply (socket_async_grows read_operator recv_size receive); [done|]. intros. by apply read_operator_grows. Qed.
Lemma complete_read_grows fuel n error : growing (complete_read fuel n error).
Proof. apply (complete_grows read_operator recv_size receive); [done|]. intros. by apply read_operator_grows. Qed.
Lemma async_write_grows fuel b c : growing (async_write fuel b c).
Proof. apply (socket_async_grows write_operator (fun n b _ => send_size n b) transmit); [done|]. intros. by apply write_operator_grows. Qed.
Lemma complete_write_grows fuel n error : growing (complete_write fuel n error).
Proof. apply (complete_grows write_operator (fun n b _ => send_size n b) transmit); [done|]. intros. by apply write_operator_grows. Qed.

(** ** Calls with a wrapped handler *)

(** [K]: what the handlers work on. [completion]: the wrapper, for what the transfer ended
    with; [failure]: what [_run_impl] does for an exception. *)
Section Calls.
Context {K : Type} (completion : Z -> Z -> prog K unit) (failure : exn -> prog K unit).

Fixpoint tells (l : list (Z * Z)) : prog K unit :=
  match l with [] => ret tt | (error, n) :: l => completion error n ;;; tells l end.

Definition on_app {A} (m : prog K A) : prog (K * state) A := fun s =>
  match m s.1 with
  | Ret a k => Ret a (k, s.2)
  | Throw e k => Throw e (k, s.2)
  | UB => UB
  | OutOfFuel => OutOfFuel
  end.

(** A step of the transfer, and the wrapper for what it ended with. *)
Definition telling (m : prog state unit) : prog (K * state) unit := fun s =>
  match m s.2 with
  | Ret _ io => on_app (tells (drop (length (completions s.2)) (completions io))) (s.1, io)
  | Throw e io => Throw e (s.1, io)
  | UB => UB
  | OutOfFuel => OutOfFuel
  end.

Definition _run_impl (m : prog state unit) : prog (K * state) bool :=
  try_catch (telling m ;;; ret true)
    (fun e => if is_std e then on_app (failure e) ;;; ret false else throw e).

(** The dispatcher delivers completions until the transfer has ended. *)
Fixpoint delivered (complete : Z -> Z -> prog state unit) (events : list (Z * Z)) : prog (K * state) unit :=
  match events with
  | [] => ret tt
  | (n, error) :: events' => fun s =>
      match pending s.2 with
      | None => Ret tt s
      | Some _ => (telling (complete n error) ;;; delivered complete events') s
      end
  end.

Lemma tells_app l l' k k' : tells l k = Ret tt k' -> tells (l ++ l') k = tells l' k'.
Proof.
  revert k. induction l as [|[e n] l IH]; intros k; cbn [tells app]; [by intros [= ->]|].
  unfold bind. destruct (completion e n k) as [[] k1| | |]; try done. apply IH.
Qed.

(** Handlers that return. *)
Context (returns : forall error n k, exists k', completion error n k = Ret tt k').

Lemma tells_returns l : forall k, exists k', tells l k = Ret tt k'.
Proof.
  induction l as [|[e n] l IH]; intros k; cbn [tells]; [by exists k|].
  destruct (returns e n k) as (k1 & H1). rewrite (bind_ret _ _ _ _ _ H1). apply IH.
Qed.

Lemma telling_ok m k s s' new : m s = Ret tt s' -> completions s' = completions s ++ new ->
  exists k', telling m (k, s) = Ret tt (k', s') /\ tells new k = Ret tt k'.
Proof.
  intros Hm Hc. destruct (tells_returns new k) as (k' & Hk). exists k'. split; [|done].
  unfold telling, on_app. cbn [fst snd]. rewrite Hm. cbn [fst snd]. rewrite Hc, drop_app_length, Hk. done.
Qed.

Lemma growing_new m s s' : growing m -> m s = Ret tt s' -> exists new, completions s' = completions s ++ new.
Proof. intros Hg Hm. specialize (Hg s). rewrite Hm in Hg. exact Hg. Qed.

Lemma delivered_ok complete events : (forall n error, growing (complete n error)) -> forall k s s',
  deliver complete events s = Ret tt s' ->
  exists k' new, delivered complete events (k, s) = Ret tt (k', s') /\ completions s' = completions s ++ new /\ tells new k = Ret tt k'.
Proof.
  intros Hg. induction events as [|[n error] events IH]; intros k s s' Hd; cbn [deliver delivered] in *.
  - injection Hd as ->. exists k, []. by rewrite app_nil_r.
  - cbn [snd]. destruct (pending s); [|injection Hd as ->; exists k, []; by rewrite app_nil_r].
    apply bind_Ret_inv in Hd as ([] & s1 & H1 & H2). destruct (growing_new _ s s1 (Hg n error) H1) as (new1 & Hn1).
    destruct (telling_ok _ k s s1 new1 H1 Hn1) as (k1 & Ht1 & Hk1). destruct (IH k1 s1 s' H2) as (k2 & new2 & Ht2 & Hn2 & Hk2).
    exists k2, (new1 ++ new2). rewrite (bind_ret _ _ _ _ _ Ht1). split; [done|]. split; [by rewrite Hn2, Hn1, app_assoc|].
    by rewrite (tells_app new1 new2 k k1 Hk1).
Qed.

(** A call and its completions do what the transfer does, and tell the handler what it
    ends with. *)
Lemma call_ok start complete events k s s' : growing start -> (forall n error, growing (complete n error)) ->
  (start ;;; deliver complete events) s = Ret tt s' ->
  exists k' new, (let* b := _run_impl start in delivered complete events ;;; ret b) (k, s) = Ret true (k', s') /\
    completions s' = completions s ++ new /\ tells new k = Ret tt k'.
Proof.
  intros Hs Hc Hr. apply bind_Ret_inv in Hr as ([] & s1 & H1 & H2).
  destruct (growing_new _ s s1 Hs H1) as (new1 & Hn1). destruct (telling_ok _ k s s1 new1 H1 Hn1) as (k1 & Ht1 & Hk1).
  destruct (delivered_ok complete events Hc k1 s1 s' H2) as (k2 & new2 & Ht2 & Hn2 & Hk2).
  exists k2, (new1 ++ new2). split; [|split; [by rewrite Hn2, Hn1, app_assoc|by rewrite (tells_app new1 new2 k k1 Hk1)]].
  rewrite (bind_ret _ _ (k, s) true (k1, s1)).
  - by rewrite (bind_ret _ _ _ _ _ Ht2).
  - unfold _run_impl, try_catch. by rewrite (bind_ret _ _ _ _ _ Ht1).
Qed.

Lemma told_one e n k k' : tells [(e, n)] k = Ret tt k' -> completion e n k = Ret tt k'.
Proof. cbn [tells]. intros H. apply bind_Ret_inv in H as ([] & k1 & H1 & [= ->]). done. Qed.

(** ** Reading *)

(** [client::async_recv] and [session::async_read] with [transfer_all()], the two
    [async_read_some] with the wrapper itself: the transfer ends with its first
    completion, whatever it brings, and the length that was asked for is not used. *)
Definition async_recv (fuel : nat) (b : buffer_t) : prog (K * state) bool := _run_impl (async_read fuel b (transfer_all 32 0)).
Definition async_read_some (fuel : nat) (b : buffer_t) (min_len : Z) : prog (K * state) bool := _run_impl (async_read fuel b 0).
(** [client::async_send] and [session::async_write]. *)
Definition async_send (fuel : nat) (b : buffer_t) : prog (K * state) bool := _run_impl (async_write fuel b (transfer_all 32 0)).

Section OneCall.
Context (s0 : state) (k0 : K) (b : buffer_t) (Hb : 0 < size_ b < 4294967296) (fuel : nat) (events : list (Z * Z)).
Context (Hp : pending s0 = None) (Hf : (length (answers s0) < fuel)%nat).

(** The call was accepted; the request is with the system and nobody was told anything,
    or the wrapper ran once. *)
Definition told_once (r : outcome (K * state) bool) (ends : Z -> Z -> state -> Prop) : Prop :=
  exists k s, r = Ret true (k, s) /\
    ((pending s <> None /\ k = k0) \/
     (pending s = None /\ alive s = alive s0 /\ exists error n, completion error n k0 = Ret tt k /\ ends error n s)).

(** The bytes that arrived first are in the buffer. *)
Definition filled (n : Z) (s : state) : Prop :=
  forall x, amem s x = store (data_ b) (take (Z.to_nat n) (arriving s0)) (amem s0) x.

Lemma read_told c : Forall (ok_answer (fun _ => True)) (answers s0) ->
  told_once ((let* r := _run_impl (async_read fuel b c) in delivered (complete_read fuel) events ;;; ret r) (k0, s0))
    (fun error n s => 0 <= n <= size_ b /\ (n <> 0 -> filled n s) /\ (error = 0 -> n <> 0 -> Z.min c (size_ b) <= n)).
Proof.
  intros Ha. destruct (async_read_core s0 b c Hb (fun _ => True) fuel events Hp Ha Hf) as [H _].
  destruct ((async_read fuel b c ;;; deliver (complete_read fuel) events) s0) as [[] s'| | |] eqn:Hr; try done.
  destruct (call_ok (async_read fuel b c) (complete_read fuel) events k0 s0 s' (async_read_grows _ _ _) (complete_read_grows _) Hr)
    as (k & new & Hc & Hn & Hk). exists k, s'. split; [exact Hc|].
  destruct H as [[(t & (len & Hp' & _ & _ & Hc') & _)|[(Hp' & error & n & t & Hc' & Ht & Hgot & Hfin) Hal]] _].
  - left. split; [by rewrite Hp'|]. rewrite Hc' in Hn. rewrite <- (app_nil_r (completions s0)) in Hn at 1.
    apply app_inv_head in Hn as <-. by injection Hk as ->.
  - right. split; [done|]. split; [done|]. exists error, n. rewrite Hc' in Hn. apply app_inv_head in Hn as <-.
    split; [by apply told_one|]. destruct Hfin as [Hn Hmin]. split; [lia|]. split; [|done].
    intros Hn0. destruct Hn as [?| ->]; [done|]. unfold filled. rewrite Nat2Z.id. apply Hgot.
Qed.

(** What the peer was given. *)
Definition sent (n : Z) (s : state) : Prop := given s = given s0 ++ load (data_ b) (Z.to_nat n) (amem s0).

Lemma write_told c : Forall (ok_answer (fun n => 0 < n)) (answers s0) -> Forall (fun e => e.2 = 0 -> 0 < e.1) events ->
  told_once ((let* r := _run_impl (async_write fuel b c) in delivered (complete_write fuel) events ;;; ret r) (k0, s0))
    (fun error n s => 0 <= n <= size_ b /\ sent n s /\ (error = 0 -> Z.min c (size_ b) <= n)).
Proof.
  intros Ha He. destruct (async_write_core s0 b c Hb fuel events Hp Ha He Hf) as [H _].
  destruct ((async_write fuel b c ;;; deliver (complete_write fuel) events) s0) as [[] s'| | |] eqn:Hr; try done.
  destruct (call_ok (async_write fuel b c) (complete_write fuel) events k0 s0 s' (async_write_grows _ _ _) (complete_write_grows _) Hr)
    as (k & new & Hc & Hn & Hk). exists k, s'. split; [exact Hc|].
  destruct H as [[(t & (len & Hp' & _ & _ & Hc') & _)|[(Hp' & error & n & t & Hc' & Ht & Hgot & Hn' & Hmin) Hal]] _].
  - left. split; [by rewrite Hp'|]. rewrite Hc' in Hn. rewrite <- (app_nil_r (completions s0)) in Hn at 1.
    apply app_inv_head in Hn as <-. by injection Hk as ->.
  - right. split; [done|]. split; [done|]. exists error, n. rewrite Hc' in Hn. apply app_inv_head in Hn as <-.
    split; [by apply told_one|]. split; [lia|]. split; [|done]. unfold sent. rewrite Hn', Nat2Z.id. apply Hgot.
Qed.

(** A first request that the system refuses: the call answers false after [_run_impl]
    has told the client; nothing is under way and no callback object is left. *)
Lemma refused_call f c e l k : answers s0 = Failed e :: l -> failure win32_exception k0 = Ret tt k ->
  _run_impl (async_read (S f) b c) (k0, s0) = Ret false (k, set_answers l e s0) /\
  _run_impl (async_write (S f) b c) (k0, s0) = Ret false (k, set_answers l e s0).
Proof.
  intros Ha Hk. unfold async_read, async_write.
  pose proof (socket_async_read_failed f b (Handler b c 0 (u32 (size_ b)) true) e l s0 Ha) as Hr.
  pose proof (socket_async_write_failed f b (Handler b c 0 (u32 (size_ b)) true) e l s0 Ha) as Hw.
  unfold _run_impl, try_catch, bind, telling, on_app. cbn [fst snd buffer_]. rewrite Hr, Hw. cbn. by rewrite Hk.
Qed.
End OneCall.
End Calls.

(** ** The client *)

Section OfClient.
Context (w : Z) {D : Type} `{Winsock D}.
Notation sock := (Socket.sock (O := D)).
Context (error_handle_ : option (message -> prog sock unit)) (disconnect_handle_ : option (prog sock unit)).
Context (handler : Z -> prog sock unit).
Context (Herr : forall h m k, error_handle_ = Some h -> exists k', h m k = Ret tt k').
Context (Hdis : forall h k, disconnect_handle_ = Some h -> exists k', h k = Ret tt k').
Context (Hhan : forall n k, exists k', handler n k = Ret tt k').

Notation disconnect := (Client.disconnect w disconnect_handle_).
Definition client_failure (e : exn) : prog sock unit := Client.error_handle_if error_handle_ (what e) ;;; disconnect.
Notation wrapper := (Client.cli_handler w error_handle_ disconnect_handle_ handler).

Lemma error_handle_returns m k : exists k', Client.error_handle_if error_handle_ m k = Ret tt k'.
Proof. unfold Client.error_handle_if. destruct error_handle_ as [h|] eqn:E; [by apply (Herr h)|by exists k]. Qed.

Lemma disconnect_returns k : exists k', disconnect k = Ret tt k'.
Proof.
  destruct (Client.stop_closes w k) as (k1 & Hs & _). unfold Client.disconnect, try_catch, bind. rewrite Hs.
  destruct disconnect_handle_ as [h|] eqn:E; [|by eexists]. destruct (Hdis h k1 eq_refl) as (k2 & ->). by exists k2.
Qed.

Lemma wrapper_returns error n k : exists k', wrapper error n k = Ret tt k'.
Proof.
  unfold Client.cli_handler. destruct (error =? 0), (n =? 0); cbn; [apply disconnect_returns|apply Hhan| |].
  - apply disconnect_returns.
  - destruct (error_handle_returns (error_msg error) k) as (k1 & H1). rewrite (bind_ret _ _ _ _ _ H1). apply disconnect_returns.
Qed.

Section OneCall.
Context (s0 : state) (k0 : sock) (b : buffer_t) (Hb : 0 < size_ b < 4294967296) (fuel : nat) (events : list (Z * Z)).
Context (Hp : pending s0 = None) (Hf : (length (answers s0) < fuel)%nat).

(** How a call of the client ends: [all] once the handler was told the size of the
    buffer, or the client is disconnected, after its error handler when there was an
    error and some bytes. *)
Definition client_told (all : state -> Prop) (s : state) (k : sock) : Prop :=
  (handler (size_ b) k0 = Ret tt k /\ all s) \/
  disconnect k0 = Ret tt k \/
  exists error, error <> 0 /\ (Client.error_handle_if error_handle_ (error_msg error) ;;; disconnect) k0 = Ret tt k.

Lemma client_told_intro (all : state -> Prop) error n s k : wrapper error n k0 = Ret tt k ->
  (error = 0 -> n <> 0 -> n = size_ b /\ all s) -> client_told all s k.
Proof.
  unfold Client.cli_handler. intros Hk Hall. destruct (Z.eqb_spec error 0) as [-> |He].
  - destruct (Z.eqb_spec n 0) as [-> |Hn]; [right; by left|]. destruct (Hall eq_refl Hn) as [-> ?]. by left.
  - destruct (n =? 0); cbn in Hk; [right; by left|]. right. right. by exists error.
Qed.

(** [C31] The handler of [async_recv] is called once, with the whole buffer filled by the bytes
    that arrived first, or the client is disconnected; there is no other end, and
    [async_recv] answers true. *)
Theorem client_receives_all : Forall (ok_answer (fun _ => True)) (answers s0) ->
  exists k s, (let* r := async_recv wrapper client_failure fuel b in delivered wrapper (complete_read fuel) events ;;; ret r) (k0, s0) = Ret true (k, s) /\
    ((pending s <> None /\ k = k0) \/
     (pending s = None /\ alive s = alive s0 /\ client_told (filled s0 b (size_ b)) s k)).
Proof.
  intros Ha. destruct (read_told wrapper client_failure wrapper_returns s0 k0 b Hb fuel events Hp Hf (transfer_all 32 0) Ha)
    as (k & s & Hr & [[? ?]|(Hp' & Hal & error & n & Hk & Hn & Hfill & Hmin)]); exists k, s; (split; [exact Hr|]); [by left|].
  right. split; [done|]. split; [done|]. apply (client_told_intro _ error n); [done|]. intros He Hn0.
  change (transfer_all 32 0) with 4294967295 in Hmin. assert (n = size_ b) as -> by (specialize (Hmin He Hn0); lia). split; [done|]. by apply Hfill.
Qed.

(** [C32] The same of [async_send], whose handler is called once the peer was given all: no request
    is refused, one that succeeds sends at least a byte, one that fails may send none, and
    the handlers of the client return. *)
Theorem client_sends_all : Forall (ok_answer (fun n => 0 < n)) (answers s0) -> Forall (fun e => e.2 = 0 -> 0 < e.1) events ->
  exists k s, (let* r := async_send wrapper client_failure fuel b in delivered wrapper (complete_write fuel) events ;;; ret r) (k0, s0) = Ret true (k, s) /\
    ((pending s <> None /\ k = k0) \/
     (pending s = None /\ alive s = alive s0 /\ client_told (sent s0 b (size_ b)) s k)).
Proof.
  intros Ha He. destruct (write_told wrapper client_failure wrapper_returns s0 k0 b Hb fuel events Hp Hf (transfer_all 32 0) Ha He)
    as (k & s & Hr & [[? ?]|(Hp' & Hal & error & n & Hk & Hn & Hs & Hmin)]); exists k, s; (split; [exact Hr|]); [by left|].
  right. split; [done|]. split; [done|]. apply (client_told_intro _ error n); [done|]. intros Her Hn0.
  change (transfer_all 32 0) with 4294967295 in Hmin. assert (n = size_ b) as -> by (specialize (Hmin Her); lia). done.
Qed.

(** A call whose first request is refused answers false, after the error handler was told
    and the client was disconnected; the request is gone. *)
Theorem client_refused f e l : answers s0 = Failed e :: l -> exists k,
  (Client.error_handle_if error_handle_ (what win32_exception) ;;; disconnect) k0 = Ret tt k /\
  async_recv wrapper client_failure (S f) b (k0, s0) = Ret false (k, set_answers l e s0) /\
  async_send wrapper client_failure (S f) b (k0, s0) = Ret false (k, set_answers l e s0) /\
  (forall min_len, async_read_some wrapper client_failure (S f) b min_len (k0, s0) = Ret false (k, set_answers l e s0)).
Proof.
  intros Ha. destruct (error_handle_returns (what win32_exception) k0) as (k1 & H1). destruct (disconnect_returns k1) as (k & H2).
  assert (Hk : client_failure win32_exception k0 = Ret tt k) by (unfold client_failure; by rewrite (bind_ret _ _ _ _ _ H1)).
  exists k. split; [exact Hk|]. pose proof (fun c => refused_call wrapper client_failure s0 k0 b f c e l k Ha Hk) as Hr.
  split; [apply Hr|]. split; [apply Hr|]. intros min_len. apply Hr.
Qed.
End OneCall.
End OfClient.

(** ** The session *)

Section OfSession.
Context {W : Type}.
Context (error_handler_ : option (message -> prog W unit)) (disconnect_handler_ : option (prog W unit)) (async_disconnect : prog W unit).
Context (handler : Z -> prog W unit).
Notation _handle_read := (fun error size => Session._handle_read error_handler_ disconnect_handler_ async_disconnect error size handler).
Notation _handle_write := (fun error size => Session._handle_write error_handler_ error size handler).
Definition session_failure (is_read_op : bool) (e : exn) : prog W unit :=
  Session.error_handler_if error_handler_ (what e) ;;;
  if is_read_op then Session.disconnect error_handler_ disconnect_handler_ async_disconnect else ret tt.

(** [async_read_some] and [async_write] of a session. *)
Definition session_reads (fuel : nat) (b : buffer_t) (min_len : Z) : prog (W * state) bool :=
  async_read_some _handle_read (session_failure true) fuel b min_len.
Definition session_writes (fuel : nat) (b : buffer_t) : prog (W * state) bool :=
  async_send _handle_write (session_failure false) fuel b.

Section OneCall.
Context (s0 : state) (k0 : W) (b : buffer_t) (Hb : 0 < size_ b < 4294967296) (fuel : nat) (events : list (Z * Z)).
Context (Hp : pending s0 = None) (Hf : (length (answers s0) < fuel)%nat).

(** [async_read_some] of a session: however little the request asks for at least, the
    read handler gets what the first completion brought, at least one byte, in the
    buffer. *)
Theorem session_reads_some min_len : (forall error n k, exists k', _handle_read error n k = Ret tt k') ->
  Forall (ok_answer (fun _ => True)) (answers s0) ->
  exists k s, (let* r := session_reads fuel b min_len in
               delivered _handle_read (complete_read fuel) events ;;; ret r) (k0, s0) = Ret true (k, s) /\
    ((pending s <> None /\ k = k0) \/
     (pending s = None /\ alive s = alive s0 /\ exists error n, _handle_read error n k0 = Ret tt k /\
        0 <= n <= size_ b /\ (n <> 0 -> filled s0 b n s))).
Proof.
  intros Hret Ha. destruct (read_told _handle_read (session_failure true) Hret s0 k0 b Hb fuel events Hp Hf 0 Ha)
    as (k & s & Hr & [[? ?]|(Hp' & Hal & error & n & Hk & Hn & Hfill & _)]); exists k, s; (split; [exact Hr|]); [by left|].
  right. split; [done|]. split; [done|]. by exists error, n.
Qed.

(** [async_write] of a session: the write handler is called once the peer was given the
    whole buffer; with an error only the error handler is told, and the session is not
    disconnected. *)
Theorem session_writes_all : (forall error n k, exists k', _handle_write error n k = Ret tt k') ->
  Forall (ok_answer (fun n => 0 < n)) (answers s0) -> Forall (fun e => e.2 = 0 -> 0 < e.1) events ->
  exists k s, (let* r := session_writes fuel b in
               delivered _handle_write (complete_write fuel) events ;;; ret r) (k0, s0) = Ret true (k, s) /\
    ((pending s <> None /\ k = k0) \/
     (pending s = None /\ alive s = alive s0 /\
        ((sent s0 b (size_ b) s /\ try_catch (handler (size_ b)) (fun _ => Session.error_handler error_handler_ has_exception) k0 = Ret tt k) \/
         exists error n, error <> 0 /\ sent s0 b n s /\
           try_catch (Session.error_handler_if error_handler_ (error_msg error)) (fun _ => Session.error_handler error_handler_ has_exception) k0 = Ret tt k))).
Proof.
  intros Hret Ha He. destruct (write_told _handle_write (session_failure false) Hret s0 k0 b Hb fuel events Hp Hf (transfer_all 32 0) Ha He)
    as (k & s & Hr & [[? ?]|(Hp' & Hal & error & n & Hk & Hn & Hs & Hmin)]); exists k, s; (split; [exact Hr|]); [by left|].
  right. split; [done|]. split; [done|]. unfold Session._handle_write in Hk. destruct (Z.eqb_spec error 0) as [-> |Her].
  - left. change (transfer_all 32 0) with 4294967295 in Hmin. assert (n = size_ b) as -> by (specialize (Hmin eq_refl); lia).
    rewrite (proj2 (Z.eqb_neq (size_ b) 0)) in Hk by lia. by split.
  - right. by exists error, n.
Qed.
End OneCall.
End OfSession.

(** ** Concrete calls *)

Module Demo.
Notation k0 := Socket.Demo.s0.
Notation b := AsyncTransfer.Demo.b.
Notation start := AsyncTransfer.Demo.start.

(** The handler of the client writes the size it is told below the buffer. *)
Definition handler (n : Z) : prog (Socket.sock (O := Script.t)) unit := fun s =>
  Ret tt (Sock (socket_ s) (store 0 [n] (Socket.memory s)) (Socket.net s)).

Lemma handler_returns n k : exists k', handler n k = Ret tt k'.
Proof. by eexists. Qed.

Notation wrapper := (Client.cli_handler 32 None None handler).
Notation failed := (client_failure 32 None None).

Lemma client_receives_all_witness :
  exists k s, (let* r := async_recv wrapper failed 3 b in delivered wrapper (complete_read 3) [(7, 0); (30, 0)] ;;; ret r)
      (k0, start [Done 4; IoPending]) = Ret true (k, s) /\
    ((pending s <> None /\ k = k0) \/
     (pending s = None /\ alive s = 0 /\ client_told 32 None None handler k0 b (filled (start [Done 4; IoPending]) b 20) s k)).
Proof.
  apply (client_receives_all 32 None None handler ltac:(done) ltac:(done) handler_returns (start [Done 4; IoPending]) k0 b ltac:(cbn; lia) 3 [(7, 0); (30, 0)]);
    [done|cbn; lia|repeat constructor].
Defined.

Lemma client_sends_all_witness :
  exists k s, (let* r := async_send wrapper failed 3 b in delivered wrapper (complete_write 3) [(7, 0); (30, 0)] ;;; ret r)
      (k0, start [Done 4; IoPending]) = Ret true (k, s) /\
    ((pending s <> None /\ k = k0) \/
     (pending s = None /\ alive s = 0 /\ client_told 32 None None handler k0 b (sent (start [Done 4; IoPending]) b 20) s k)).
Proof.
  apply (client_sends_all 32 None None handler ltac:(done) ltac:(done) handler_returns (start [Done 4; IoPending]) k0 b ltac:(cbn; lia) 3 [(7, 0); (30, 0)]);
    [done|cbn; lia|repeat constructor; cbn; lia|repeat constructor; cbn; lia].
Defined.

Lemma client_refused_witness : exists k,
  (Client.error_handle_if None (what win32_exception) ;;; Client.disconnect 32 None) k0 = Ret tt k /\
  async_recv wrapper failed 3 b (k0, start [Failed 10054]) = Ret false (k, set_answers [] 10054 (start [Failed 10054])) /\
  async_send wrapper failed 3 b (k0, start [Failed 10054]) = Ret false (k, set_answers [] 10054 (start [Failed 10054])) /\
  (forall min_len, async_read_some wrapper failed 3 b min_len (k0, start [Failed 10054]) = Ret false (k, set_answers [] 10054 (start [Failed 10054]))).
Proof. by apply (client_refused 32 None None handler ltac:(done) ltac:(done) (start [Failed 10054]) k0 b 2 10054 []). Defined.

(** The handlers of the session log. *)
Definition note (n : Z) : prog (list Z) unit := fun s => Ret tt (s ++ [n]).
Notation read_wrapper := (fun error size => Session._handle_read (Some (fun _ => note (-1))) None (note (-2)) error size note).
Notation write_wrapper := (fun error size => Session._handle_write (Some (fun _ => note (-1))) error size note).

Lemma read_wrapper_returns error n k : exists k', read_wrapper error n k = Ret tt k'.
Proof. unfold Session._handle_read. destruct (error =? 0), (n =? 0); by eexists. Qed.
Lemma write_wrapper_returns error n k : exists k', write_wrapper error n k = Ret tt k'.
Proof. unfold Session._handle_write. destruct (error =? 0), (n =? 0); by eexists. Qed.

Lemma session_reads_some_witness :
  exists k s, (let* r := session_reads (Some (fun _ => note (-1))) None (note (-2)) note 3 b 15 in
               delivered read_wrapper (complete_read 3) [(7, 0)] ;;; ret r) ([], start [IoPending]) = Ret true (k, s) /\
    ((pending s <> None /\ k = []) \/
     (pending s = None /\ alive s = 0 /\ exists error n, read_wrapper error n [] = Ret tt k /\ 0 <= n <= 20 /\ (n <> 0 -> filled (start [IoPending]) b n s))).
Proof.
  apply (session_reads_some (Some (fun _ => note (-1))) None (note (-2)) note (start [IoPending]) [] b ltac:(cbn; lia) 3 [(7, 0)]);
    [done|cbn; lia|apply read_wrapper_returns|repeat constructor].
Defined.

Lemma session_writes_all_witness :
  exists k s, (let* r := session_writes (Some (fun _ => note (-1))) None (note (-2)) note 3 b in
               delivered write_wrapper (complete_write 3) [(7, 0); (30, 0)] ;;; ret r) ([], start [IoPending]) = Ret true (k, s) /\
    ((pending s <> None /\ k = []) \/
     (pending s = None /\ alive s = 0 /\
        ((sent (start [IoPending]) b 20 s /\ try_catch (note 20) (fun _ => Session.error_handler (Some (fun _ => note (-1))) has_exception) [] = Ret tt k) \/
         exists error n, error <> 0 /\ sent (start [IoPending]) b n s /\
           try_catch (Session.error_handler_if (Some (fun _ => note (-1))) (error_msg error))
             (fun _ => Session.error_handler (Some (fun _ => note (-1))) has_exception) [] = Ret tt k))).
Proof.
  apply (session_writes_all (Some (fun _ => note (-1))) None (note (-2)) note (start [IoPending]) [] b ltac:(cbn; lia) 3 [(7, 0); (30, 0)]);
    [done|cbn; lia|apply write_wrapper_returns|repeat constructor; cbn; lia|repeat constructor; cbn; lia].
Defined.

End Demo.
