(* ===== verification/Echo.v ===== *)
(** * The echo server

    performance/pingpong/pingpong/pingping_svr.cpp: a session that reads a block, writes
    it back and reads again, over the session of Network.v and the transfers of
    AsyncTransfer.v. *)

From S2P Require Import Prelude Memory Buffers Socket AsyncTransfer Network.

Section Echo.
(** [read_buf_] of the session, and the fuel of the transfers. *)
Context (b : buffer_t) (Hb : 0 < size_ b < 4294967296) (fuel : nat).

(** [connected]: the session was not disconnected; [again]: the write handler called
    [read(session)]. *)
Record session : Type := MkSession { io : state; connected : bool; again : bool }.

Definition on_io {A} (m : prog state A) : prog session A := fun c =>
  match m (io c) with
  | Ret a s => Ret a (MkSession s (connected c) (again c))
  | Throw e s => Throw e (MkSession s (connected c) (again c))
  | UB => UB
  | OutOfFuel => OutOfFuel
  end.

(** The handlers [svr_start] registers: the error handler prints, the disconnect
    handler does nothing. *)
Definition error_handler : option (message -> prog session unit) := Some (fun _ => ret tt).
Definition disconnect_handler : option (prog session unit) := Some (ret tt).
Definition async_disconnect : prog session unit := fun c => Ret tt (MkSession (io c) false (again c)).

Definition handle_read := Session._handle_read error_handler disconnect_handler async_disconnect.
Definition handle_write := Session._handle_write error_handler.
Definition run_impl := Session._run_impl error_handler disconnect_handler async_disconnect.

(** The completion of a transfer that has ended. *)
Definition completion : prog session (option (Z * Z)) := fun c =>
  Ret (match pending (io c) with Some _ => None | None => last (completions (io c)) end) c.

(** What the system will answer to the requests of a transfer. *)
Definition answering (l : list answer) : prog state unit := fun s =>
  Ret tt (set_answers l (last_error s) s).

(** A transfer is started and the system delivers completions; its handler is called
    when it has ended. *)
Definition transfer (l : list answer) (start : prog state unit) (is_read : bool) (events : prog state unit)
    (handler : Z -> Z -> prog session unit) : prog session unit :=
  on_io (answering l) ;;;
  let* started := run_impl (on_io start) is_read in
  if started then
    on_io events ;;;
    let* r := completion in
    match r with Some (error, n) => handler error n | None => ret tt end
  else ret tt.

(** What the system does in a round: its answers to the requests and the completions it
    delivers, for the read and for the write. *)
Record round := Round {
  ranswers : list answer;
  revents : list (Z * Z);
  wanswers : list answer;
  wevents : list (Z * Z)
}.

(** [network::async_write] of the whole buffer, whose handler calls [read]. *)
Definition write_back (r : round) : prog session unit :=
  transfer (wanswers r) (async_write fuel b (transfer_all 32 0)) false (deliver (complete_write fuel) (wevents r))
    (fun error n => handle_write error n (fun _ c => Ret tt (MkSession (io c) (connected c) true))).

(** [read(session)]: [network::async_read] of the whole buffer, whose handler writes. *)
Definition read (r : round) : prog session unit :=
  transfer (ranswers r) (session_async_read b fuel) true (deliver (complete_read fuel) (revents r))
    (fun error n => handle_read error n (fun _ => write_back r)).

(** [read(session)] was called by the write handler. *)
Definition called_again : prog session bool := fun c => Ret (again c) (MkSession (io c) (connected c) false).

(** The session's rounds, and how many of them ended with [read(session)]. *)
Fixpoint echo (rounds : list round) : prog session nat :=
  match rounds with
  | [] => ret 0%nat
  | r :: rounds' =>
      read r ;;;
      let* more := called_again in
      if more then let* n := echo rounds' in ret (S n) else ret 0%nat
  end.

(** ** One round *)

Abbreviation positive := (fun n : Z => 0 < n).

(** The system refuses the first request of a transfer, or takes every request of it;
    [ok_n]: with how many bytes a request may complete at once. *)
Definition fair (ok_n : Z -> Prop) (l : list answer) : Prop :=
  (length l < fuel)%nat /\ (Forall (ok_answer ok_n) l \/ exists e l', l = Failed e :: l').

(** A request to send that succeeds sends at least one byte. *)
Definition good_round (r : round) : Prop :=
  fair (fun _ => True) (ranswers r) /\ fair positive (wanswers r) /\
  Forall (fun e => e.2 = 0 -> 0 < e.1) (wevents r).

Lemma echo_transfer_ok l start is_read events handler c s1 :
  (start ;;; events) (set_answers l (last_error (io c)) (io c)) = Ret tt s1 ->
  transfer l start is_read events handler c =
  match (if pending s1 then None else last (completions s1)) with
  | Some (error, n) => handler error n (MkSession s1 (connected c) (again c))
  | None => Ret tt (MkSession s1 (connected c) (again c))
  end.
Proof.
  intros H. apply bind_Ret_inv in H as ([] & s0 & Hs & He).
  set (c0 := MkSession (set_answers l (last_error (io c)) (io c)) (connected c) (again c)).
  assert (Hr : run_impl (on_io start) is_read c0 = Ret true (MkSession s0 (connected c) (again c))).
  { unfold run_impl, Session._run_impl, try_catch. erewrite bind_ret; [done|]. unfold on_io. cbn [io c0]. by rewrite Hs. }
  unfold transfer. erewrite bind_ret by done. fold c0.
  rewrite (bind_ret _ _ _ _ _ Hr). unfold bind, on_io, completion. cbn [io]. rewrite He. cbn [io].
  destruct (pending s1); [done|]. by destruct (last (completions s1)) as [[]|].
Qed.

(** A transfer whose first request is refused: the session is told, and goes on no
    further. *)
Lemma refused_transfer e l start is_read events handler c :
  start (set_answers (Failed e :: l) (last_error (io c)) (io c)) =
    Throw win32_exception (set_answers l e (set_answers (Failed e :: l) (last_error (io c)) (io c))) ->
  exists c', transfer (Failed e :: l) start is_read events handler c = Ret tt c' /\
    given (io c') = given (io c) /\ again c' = again c /\ connected c' = negb is_read && connected c.
Proof.
  intros Hs. unfold transfer. erewrite bind_ret by done.
  unfold run_impl, Session._run_impl, try_catch, bind, on_io. cbn [io]. rewrite Hs.
  by destruct is_read; eexists.
Qed.

Lemma handle_read_call n handler c c' : n <> 0 -> handler n c = Ret tt c' ->
  handle_read 0 n handler c = Ret tt c'.
Proof.
  intros Hn H. unfold handle_read, Session._handle_read, try_catch. cbn [Z.eqb].
  rewrite (proj2 (Z.eqb_neq n 0)) by done. by rewrite H.
Qed.

(** After an error or the end of the stream the session is disconnected. *)
Lemma handle_read_closed error n handler c : ~ (error = 0 /\ n <> 0) ->
  handle_read error n handler c = Ret tt (MkSession (io c) false (again c)).
Proof.
  intros Hn. unfold handle_read, Session._handle_read, try_catch.
  destruct (Z.eqb_spec error 0) as [-> |]; [|by destruct (negb (n =? 0))].
  destruct (Z.eqb_spec n 0); [done|]. by destruct Hn.
Qed.

Lemma handle_write_ok error n c : handle_write error n (fun _ c => Ret tt (MkSession (io c) (connected c) true)) c =
  Ret tt (if (error =? 0) && negb (n =? 0) then MkSession (io c) (connected c) true else c).
Proof.
  unfold handle_write, Session._handle_write, try_catch.
  destruct (error =? 0); cbn [andb]; [destruct (negb (n =? 0)); done|done].
Qed.

(** Writing back: a prefix of the buffer goes out, all of it when the session reads
    again. *)
Lemma write_back_ok r c : pending (io c) = None -> good_round r -> again c = false ->
  exists c' t, write_back r c = Ret tt c' /\ (t <= Z.to_nat (size_ b))%nat /\
    given (io c') = given (io c) ++ load (data_ b) t (amem (io c)) /\
    (again c' = true -> t = Z.to_nat (size_ b) /\ arriving (io c') = arriving (io c) /\ pending (io c') = None).
Proof.
  intros Hp (_ & [Hf Ha] & He) Hag. unfold write_back. destruct Ha as [Ha|(e & l' & El)].
  2: { rewrite El in Hf |- *. destruct fuel as [|f] eqn:Ef; [cbn in Hf; lia|].
       destruct (refused_transfer e l' (async_write (S f) b (transfer_all 32 0)) false
         (deliver (complete_write (S f)) (wevents r))
         (fun error n => handle_write error n (fun _ c => Ret tt (MkSession (io c) (connected c) true))) c)
         as (c' & Hc & Hg & Hag' & _); [by apply socket_async_write_failed|].
       exists c', 0%nat. split; [done|]. split; [lia|]. rewrite Hg. cbn [load]. rewrite app_nil_r. split; [done|].
       rewrite Hag', Hag. done. }
  set (s0 := set_answers (wanswers r) (last_error (io c)) (io c)).
  destruct (async_write_core s0 b (transfer_all 32 0) Hb fuel (wevents r) Hp Ha He Hf) as [Ho Hl].
  cbn zeta in Ho, Hl.
  destruct ((async_write fuel b (transfer_all 32 0) ;;; deliver (complete_write fuel) (wevents r)) s0) as [[] s1|e s1| |] eqn:E;
    try done.
  rewrite (echo_transfer_ok _ _ _ _ _ _ _ E).
  destruct Ho as [[(t & (len & Hp1 & Hlen & (Hg & Hm & Hi) & Hc) & _)|[(Hp1 & error & n & t & Hc & Ht & (Hg & Hm & Hi) & Hn & Hmin) _]] _].
  - rewrite Hp1. exists (MkSession s1 (connected c) (again c)), t. split; [done|]. split; [lia|]. split; [done|]. cbn. by rewrite Hag.
  - rewrite Hp1, Hc, last_snoc, handle_write_ok. eexists _, t. split; [done|].
    destruct (Z.eqb_spec error 0) as [E0|E0]; cbn [andb]; [|split_and!; [lia|done|]; cbn; by rewrite Hag].
    destruct (n =? 0) eqn:En; cbn [negb]; [split; [lia|]; split; [done|]; cbn; by rewrite Hag|].
    split; [lia|]. split; [done|]. intros _. apply Hmin in E0. change (transfer_all 32 0) with 4294967295 in E0.
    cbn [io again connected]. split_and!; try done; lia.
Qed.

Lemma load_stored p l m m' N t : (forall x, m' x = store p (take N l) m x) ->
  (t <= N)%nat -> (N <= length l)%nat -> load p t m' = take t l.
Proof.
  intros H Ht HN. rewrite <- (take_load p N m' t Ht), (load_ext p N m' (store p (take N l) m)) by (intros; apply H).
  replace N with (length (take N l)) at 1 by (rewrite length_take; lia).
  rewrite load_store_eq, take_take. f_equal. lia.
Qed.

Lemma echo_round_ok r c : pending (io c) = None -> good_round r -> again c = false ->
  exists c' t, read r c = Ret tt c' /\ (t <= length (arriving (io c)))%nat /\
    given (io c') = given (io c) ++ take t (arriving (io c)) /\
    (t <= Z.to_nat (size_ b))%nat /\
    (again c' = true -> t = Z.to_nat (size_ b) /\ arriving (io c') = drop t (arriving (io c)) /\ pending (io c') = None).
Proof.
  intros Hp Hgr Hag. pose proof Hgr as ([Hf Ha] & _). unfold read, session_async_read.
  assert (Hnone : forall c', given (io c') = given (io c) -> again c' = false -> exists c2 t, Ret tt c' = Ret tt c2 /\
    (t <= length (arriving (io c)))%nat /\ given (io c2) = given (io c) ++ take t (arriving (io c)) /\
    (t <= Z.to_nat (size_ b))%nat /\
    (again c2 = true -> t = Z.to_nat (size_ b) /\ arriving (io c2) = drop t (arriving (io c)) /\ pending (io c2) = None)).
  { intros c' Hg Ha'. exists c', 0%nat. rewrite take_0, app_nil_r. split_and!; [done|lia|done|lia|]. by rewrite Ha'. }
  destruct Ha as [Ha|(e & l' & El)].
  2: { rewrite El in Hf |- *. destruct fuel as [|f] eqn:Ef; [cbn in Hf; lia|].
       destruct (refused_transfer e l' (async_read (S f) b (transfer_all 32 0)) true
         (deliver (complete_read (S f)) (revents r)) (fun error n => handle_read error n (fun _ => write_back r)) c)
         as (c' & Hc & Hg & Hag' & _); [by apply socket_async_read_failed|].
       rewrite Hc. apply Hnone; [done|by rewrite Hag']. }
  set (s0 := set_answers (ranswers r) (last_error (io c)) (io c)).
  destruct (async_read_core s0 b (transfer_all 32 0) Hb (fun _ => True) fuel (revents r) Hp Ha Hf) as [Ho Hl].
  cbn zeta in Ho, Hl.
  destruct ((async_read fuel b (transfer_all 32 0) ;;; deliver (complete_read fuel) (revents r)) s0) as [[] s1|e s1| |] eqn:E;
    try done.
  rewrite (echo_transfer_ok _ _ _ _ _ _ _ E).
  destruct Ho as [[(t & (len & Hp1 & _ & (_ & _ & _ & Hg) & _) & _)|[(Hp1 & error & n & t & Hc & Ht & (Hk & Hm & Hi & Hg) & Hn & Hmin) _]] _].
  - rewrite Hp1. by apply Hnone.
  - rewrite Hp1, Hc, last_snoc. set (c1 := MkSession s1 (connected c) (again c)).
    destruct (decide (error = 0 /\ n <> 0)) as [[-> En]|E0].
    + destruct Hn as [?|Hn]; [done|]. apply Hmin in En as Hsz; [|done].
      change (transfer_all 32 0) with 4294967295 in Hsz. assert (t = Z.to_nat (size_ b)) as -> by lia.
      destruct (write_back_ok r c1) as (c' & t & Hret & Htl & Hg' & Hag'); [done..|].
      exists c', t. split; [by apply handle_read_call|]. split; [cbn in Hk; lia|]. split.
      { rewrite Hg'. cbn [io c1]. by rewrite Hg, (load_stored _ _ _ _ _ t Hm Htl Hk). }
      split; [done|]. intros (-> & Hi' & Hre)%Hag'. split; [done|].
      split; [exact (eq_trans Hi' Hi)|done].
    + rewrite handle_read_closed by done. by apply Hnone.
Qed.

(** ** The session *)

(** [C29] However the system splits and delays the transfers, fails them or refuses to
    start them, what the peer has been given is the beginning of what it sent: [done]
    whole blocks and at most a part of the next one, none of it when the session still
    reads. A request to send that succeeds sends at least one byte, and a transfer the
    system has begun to take is taken to its end: when it refuses a later request of a
    transfer, the library calls a handler it has moved away (see
    AsyncTransfer.[later_request_fails]). *)
Theorem echo_prefix rounds c : pending (io c) = None -> Forall good_round rounds -> again c = false ->
  exists done t c', echo rounds c = Ret done c' /\ (done <= length rounds)%nat /\
    (t <= Z.to_nat (size_ b))%nat /\ (done = length rounds -> t = 0%nat) /\
    (done * Z.to_nat (size_ b) + t <= length (arriving (io c)))%nat /\
    given (io c') = given (io c) ++ take (done * Z.to_nat (size_ b) + t) (arriving (io c)).
Proof.
  intros Hre Hall. revert c Hre. induction Hall as [|r rounds Hr Hall IH]; intros c Hre Hag.
  { exists 0%nat, 0%nat, c. rewrite take_0, app_nil_r. split_and!; try done; cbn; lia. }
  destruct (echo_round_ok r c Hre Hr Hag) as (c1 & t & Hret & Ht & Hg & Hts & Hag1).
  cbn [echo]. rewrite (bind_ret _ _ _ _ _ Hret).
  assert (Hc : called_again c1 = Ret (again c1) (MkSession (io c1) (connected c1) false)) by done.
  rewrite (bind_ret _ _ _ _ _ Hc).
  destruct (again c1) eqn:E; [|exists 0%nat, t; eexists; cbn [Nat.mul Nat.add length]; split_and!; try done; lia].
  destruct (Hag1 eq_refl) as (-> & Hi & Hre1).
  destruct (IH (MkSession (io c1) (connected c1) false) Hre1 eq_refl) as (d & t & c' & He & Hd & Hts' & H0 & Hl & Hg').
  exists (S d), t, c'. rewrite (bind_ret _ _ _ _ _ He). cbn [io] in Hl, Hg'. rewrite Hi, length_drop in Hl.
  cbn [length Nat.mul]. split_and!; [done|lia|done|intros; apply H0; lia|lia|].
  rewrite Hg', Hg, Hi, <- app_assoc, <- Nat.add_assoc. by rewrite take_take_drop.
Qed.

End Echo.

(** ** A session at a concrete input *)

Module Demo.

Definition block := Buffer 100 4.
Definition bytes : list Z := [1; 2; 3; 4; 5; 6; 7; 8; 9; 10; 11; 12].
Definition start : session :=
  MkSession (State (fun _ => 0) bytes [] [] 0 None 0 []) true false.

(** Two blocks are echoed, the first at once and the second in parts; the third round
    sends back one byte of its block, and then the connection is reset. *)
Definition rounds : list round :=
  [Round [Done 4] [] [Done 4] []; Round [IoPending; Done 1] [(3, 0)] [] [(1, 0); (3, 0)];
   Round [] [(4, 0)] [Done 1] [(0, 64)]].

(** The peer closes its side: a read that completes at once with nothing; and a write
    that the system refuses. *)
Definition closed_rounds : list round := [Round [Done 0] [] [] []].
Definition refused_rounds : list round := [Round [Done 4] [] [Failed 10054] []].

Lemma echo_prefix_witness :
  (exists done t c', echo block 5 rounds start = Ret done c' /\ (done <= length rounds)%nat /\
    (t <= Z.to_nat (size_ block))%nat /\ (done = length rounds -> t = 0%nat) /\
    (done * Z.to_nat (size_ block) + t <= length (arriving (io start)))%nat /\
    given (io c') = given (io start) ++
      take (done * Z.to_nat (size_ block) + t) (arriving (io start))) /\
  match echo block 5 rounds start, echo block 5 closed_rounds start, echo block 5 refused_rounds start with
  | Ret done c, Ret done2 c2, Ret done3 c3 =>
      done = 2%nat /\ given (io c) = take 8 bytes ++ [9] /\ alive (io c) = 0 /\
      done2 = 0%nat /\ connected c2 = false /\ done3 = 0%nat /\ given (io c3) = [] /\ connected c3 = true
  | _, _, _ => False
  end.
Proof.
  split; [|by vm_compute].
  apply (echo_prefix block ltac:(cbn; lia) 5 rounds start); [done| |done].
  assert (Hr : forall ok r, (length r < 5)%nat -> Forall (ok_answer ok) r -> fair 5 ok r) by (intros; split; auto).
  unfold rounds. repeat (apply Forall_cons_2; [split; [|split]|]); try apply Forall_nil_2;
    try (apply Hr; [cbn; lia|repeat constructor]).
  - repeat constructor.
  - repeat constructor. intros H. discriminate H.
Defined.

End Demo.
