(* ===== verification/VDisk.v ===== *)
(** * The virtual disk server

    test/vdisk_svr/vdisk_svr/vdisk_svr.cpp: a session that reads requests, each with its
    length in its header, and answers them. The session reads whole buffers
    (Network.v); an answer is what the arguments of its [async_write] hold at the call
    (Gather.v says when that is what is sent). *)

From S2P Require Import Prelude.

Definition FRAME_CMD_QUERY : Z := 1.
Definition FRAME_CMD_READ : Z := 2.
Definition FRAME_CMD_INFO : Z := 4.

(** [VDISKREQUEST], four ULONGs and a union of 32 bytes, and [VDISKACK], four ULONGs;
    [Read] is a LARGE_INTEGER and an ULONG. *)
Definition sizeof_VDISKREQUEST : nat := 48.
Definition sizeof_VDISKACK : Z := 16.
Definition ulong_at (p : nat) (l : list Z) : Z := le_value (take 4 (drop p l)).
Definition flag (l : list Z) : Z := ulong_at 0 l.
Definition length_ (l : list Z) : Z := ulong_at 4 l.
Definition command (l : list Z) : Z := ulong_at 8 l.
Definition Read_number (l : list Z) : Z := ulong_at 24 l.

Definition ack (flag length command : Z) : list Z :=
  le_bytes 4 flag ++ le_bytes 4 length ++ le_bytes 4 command ++ le_bytes 4 0.

(** [read_buffer_], the bytes on the way, the buffers [msg_complete] was called with,
    and the answers. *)
Record session := Session {
  read_buffer_ : list Z;
  incoming : list Z;
  completed : list (list Z);
  answered : list (list Z)
}.

Definition answer (bytes : list Z) (s : session) : session :=
  Session (read_buffer_ s) (incoming s) (completed s) (answered s ++ [bytes]).

(** Of another command nothing is answered; the assertion is one of a debug build. *)
Definition msg_complete (s : session) : session :=
  let req := read_buffer_ s in
  let s := Session req (incoming s) (completed s ++ [req]) (answered s) in
  if command req =? FRAME_CMD_QUERY then
    answer (ack (flag req) (sizeof_VDISKACK + 8) (command req) ++ le_bytes 8 (100 * 1024 * 1024 * 1024 / 512)) s
  else if command req =? FRAME_CMD_READ then
    let data := replicate (Z.to_nat (u32 (Read_number req * 512))) 1 in
    answer (ack (flag req) (u32 (sizeof_VDISKACK + Z.of_nat (length data))) (command req) ++ data) s
  else if command req =? FRAME_CMD_INFO then answer (ack (flag req) sizeof_VDISKACK (command req)) s
  else s.

Definition resize (n : nat) (l : list Z) : list Z := take n l ++ replicate (n - length l) 0.

(** The session's next bytes, as many as the buffer has from [p] on; [None] while they
    have not all arrived, and for ever when the peer sends no more. *)
Definition read_into (p : nat) (n : nat) (s : session) : option session :=
  if (length (incoming s) <? n)%nat then None
  else Some (Session (take p (read_buffer_ s) ++ take n (incoming s) ++ drop (p + n) (read_buffer_ s))
               (drop n (incoming s)) (completed s) (answered s)).

(** [read]: [if( msg_size = len )] assigns. The fuel bounds the messages. *)
Fixpoint read (fuel : nat) (s : session) : session :=
  match fuel with
  | O => s
  | S f =>
      let buffer := read_buffer_ s in
      let buffer := if (length buffer <? sizeof_VDISKREQUEST)%nat then resize sizeof_VDISKREQUEST buffer else buffer in
      let len := Z.of_nat (length buffer) in
      match read_into 0 (length buffer) (Session buffer (incoming s) (completed s) (answered s)) with
      | None => Session buffer (incoming s) (completed s) (answered s)
      | Some s =>
          let msg_size := length_ (read_buffer_ s) in
          let buffer := if Z.of_nat (length (read_buffer_ s)) <? msg_size
                        then resize (Z.to_nat msg_size) (read_buffer_ s) else read_buffer_ s in
          let s := Session buffer (incoming s) (completed s) (answered s) in
          let msg_size := len in
          if negb (msg_size =? 0) then read f (msg_complete s)
          else
            match read_into sizeof_VDISKREQUEST (Z.to_nat (u32 (msg_size - Z.of_nat sizeof_VDISKREQUEST))) s with
            | None => s
            | Some s => read f (msg_complete s)
            end
      end
  end.

(** ** Requests of the header's size *)

(** A request whose length does not make the buffer grow. *)
Definition small_request (r : list Z) : Prop := length r = sizeof_VDISKREQUEST /\ length_ r <= Z.of_nat sizeof_VDISKREQUEST.

Definition answer_to (r : list Z) : list (list Z) := answered (msg_complete (Session r [] [] [])).

Lemma msg_complete_ok s : msg_complete s =
  Session (read_buffer_ s) (incoming s) (completed s ++ [read_buffer_ s]) (answered s ++ answer_to (read_buffer_ s)).
Proof.
  unfold answer_to, msg_complete. destruct s as [b i c a]. cbn [read_buffer_ incoming completed answered].
  destruct (command b =? FRAME_CMD_QUERY); [done|]. destruct (command b =? FRAME_CMD_READ); [done|].
  destruct (command b =? FRAME_CMD_INFO); [done|]. by rewrite app_nil_r.
Qed.

Lemma read_into_all b r rest c a : length b = length r ->
  read_into 0 (length b) (Session b (r ++ rest) c a) = Some (Session r rest c a).
Proof.
  intros Hl. unfold read_into. cbn [incoming read_buffer_ completed answered].
  rewrite (proj2 (Nat.ltb_ge _ _)) by (rewrite length_app; lia). rewrite take_0, Nat.add_0_l, Hl, take_app_length, drop_app_length.
  rewrite drop_ge by lia. by rewrite app_nil_r.
Qed.

(** One round takes as many bytes as the buffer has, whatever length the request in it
    gives; the buffer becomes as long as that length. *)
Lemma read_round f b r rest c a : length b = length r -> (sizeof_VDISKREQUEST <= length r)%nat ->
  let b' := if Z.of_nat (length r) <? length_ r then resize (Z.to_nat (length_ r)) r else r in
  read (S f) (Session b (r ++ rest) c a) = read f (Session b' rest (c ++ [b']) (a ++ answer_to b')).
Proof.
  intros Hl Hs. cbn [read read_buffer_ incoming completed answered].
  assert (E : (length b <? sizeof_VDISKREQUEST)%nat = false) by (apply Nat.ltb_ge; lia). rewrite !E.
  rewrite read_into_all by done. cbn [read_buffer_ incoming completed answered]. unfold sizeof_VDISKREQUEST in *.
  rewrite (proj2 (Z.eqb_neq (Z.of_nat (length b)) 0)) by lia. cbn [negb]. by rewrite msg_complete_ok.
Qed.

Lemma resize_same n l : length l = n -> resize n l = l.
Proof. intros <-. unfold resize. rewrite Nat.sub_diag, firstn_all. apply app_nil_r. Qed.

Lemma length_resize n l : length (resize n l) = n.
Proof. unfold resize. rewrite length_app, length_take, length_replicate. lia. Qed.

Lemma read_into_short p n b rest c a : (length rest < n)%nat -> read_into p n (Session b rest c a) = None.
Proof. intros Hn. unfold read_into. cbn [incoming]. by rewrite (proj2 (Nat.ltb_lt (length rest) n)). Qed.

Lemma read_waits f b rest c a : length b = sizeof_VDISKREQUEST -> (length rest < sizeof_VDISKREQUEST)%nat ->
  read (S f) (Session b rest c a) = Session b rest c a.
Proof.
  intros Hb Hr. cbn [read read_buffer_ incoming completed answered].
  rewrite Hb, Nat.ltb_irrefl. cbv iota. rewrite Hb. by rewrite read_into_short.
Qed.

Lemma read_grows f b s c a : (length b <= sizeof_VDISKREQUEST)%nat ->
  read (S f) (Session b s c a) = read (S f) (Session (resize sizeof_VDISKREQUEST b) s c a).
Proof.
  intros Hb. cbn [read read_buffer_ incoming completed answered]. rewrite length_resize.
  change (sizeof_VDISKREQUEST <? sizeof_VDISKREQUEST)%nat with false. cbv iota.
  destruct (length b <? sizeof_VDISKREQUEST)%nat eqn:E; [done|]. apply Nat.ltb_ge in E.
  by rewrite resize_same by lia.
Qed.

(** Requests of the header's size, in whatever pieces they arrive, are each answered,
    in order and once, and the session waits for the next one. *)
Theorem requests_answered rs rest b c a fuel : Forall small_request rs -> (length rest < sizeof_VDISKREQUEST)%nat ->
  (length b <= sizeof_VDISKREQUEST)%nat -> (length rs < fuel)%nat ->
  exists b', read fuel (Session b (concat rs ++ rest) c a) =
    Session b' rest (c ++ rs) (a ++ concat (map answer_to rs)) /\ length b' = sizeof_VDISKREQUEST.
Proof.
  intros Hrs Hrest Hb Hf. destruct fuel as [|f]; [lia|]. rewrite read_grows by done.
  assert (Hl := length_resize sizeof_VDISKREQUEST b). revert Hl. generalize (resize sizeof_VDISKREQUEST b). clear b Hb.
  revert c a f Hf. induction Hrs as [|r rs [Hlen Hle] _ IH]; intros c a f Hf b Hb.
  - exists b. cbn [concat map app]. rewrite read_waits, !app_nil_r by done. done.
  - cbn [concat map length] in *. rewrite <- app_assoc, read_round by lia.
    rewrite (proj2 (Z.ltb_ge _ _)) by lia. destruct f as [|f]; [lia|].
    destruct (IH (c ++ [r]) (a ++ answer_to r) f ltac:(lia) r Hlen) as (b' & -> & Hb').
    exists b'. by rewrite <- !app_assoc.
Qed.

(** ** Longer requests *)

(** The buffer after a message. *)
Definition grown (r : list Z) : list Z := if Z.of_nat (length r) <? length_ r then resize (Z.to_nat (length_ r)) r else r.

(** A request longer than its header is answered before its body is read, and over zeros
    in its place; the buffer stays as long as it, so that the session takes the body and
    the request after it for one request. *)
Theorem longer_request_shifts r body r2 rest b c a f : length b = sizeof_VDISKREQUEST ->
  length r = sizeof_VDISKREQUEST -> length r2 = sizeof_VDISKREQUEST -> body <> [] ->
  length_ r = Z.of_nat (sizeof_VDISKREQUEST + length body) ->
  read (S (S f)) (Session b (r ++ body ++ r2 ++ rest) c a) =
  read f (Session (grown (body ++ r2)) rest (c ++ [r ++ replicate (length body) 0; grown (body ++ r2)])
            (a ++ answer_to (r ++ replicate (length body) 0) ++ answer_to (grown (body ++ r2)))).
Proof.
  intros Hb Hr Hr2 Hbody HL. assert (Hn : length body <> 0%nat) by (by destruct body).
  rewrite read_round by (unfold sizeof_VDISKREQUEST in *; lia).
  rewrite (proj2 (Z.ltb_lt _ _)) by lia. assert (resize (Z.to_nat (length_ r)) r = r ++ replicate (length body) 0) as ->.
  { unfold resize. rewrite HL, Nat2Z.id, take_ge by lia. f_equal. f_equal. lia. }
  rewrite (app_assoc body). rewrite read_round by (rewrite !length_app, ?length_replicate; unfold sizeof_VDISKREQUEST in *; lia).
  by rewrite <- !app_assoc.
Qed.

(** ** The answers *)

Lemma ulong_bytes pre v rest p : length pre = p -> 0 <= v < 4294967296 -> ulong_at p (pre ++ le_bytes 4 v ++ rest) = v.
Proof.
  intros <- Hv. unfold ulong_at. rewrite drop_app_length. rewrite take_app_length' by (by rewrite length_le_bytes).
  by apply le_value_bytes_4.
Qed.

Lemma ulong_range l p : Forall (fun b => 0 <= b < 256) l -> 0 <= ulong_at p l < 4294967296.
Proof.
  intros Hl. unfold ulong_at. assert (Hr : Forall (fun b => 0 <= b < 256) (take 4 (drop p l))) by (by apply Forall_take, Forall_drop).
  pose proof (le_value_range _ Hr) as [H0 H1]. split; [done|]. eapply Z.lt_le_trans; [exact H1|].
  change 4294967296 with (2 ^ (8 * 4)). apply Z.pow_le_mono_r; [lia|]. rewrite length_take. lia.
Qed.

(** An answer is framed: its length field is its length, and it carries the request's
    flag and command; to a read it brings 512 bytes for each sector, unless their number
    wraps. *)
Theorem answers_framed r bytes : Forall (fun b => 0 <= b < 256) r -> bytes ∈ answer_to r ->
  u32 (Read_number r * 512) < 4294967296 - 16 ->
  flag bytes = flag r /\ command bytes = command r /\ length_ bytes = Z.of_nat (length bytes) /\
  (command r = FRAME_CMD_READ -> Read_number r < 2 ^ 23 -> Z.of_nat (length bytes) = 16 + 512 * Read_number r).
Proof.
  intros Hr Hin Hu.
  assert (Hack : forall len data, Z.of_nat (length data) = len - 16 -> len < 4294967296 ->
    let l := ack (flag r) len (command r) ++ data in
    flag l = flag r /\ command l = command r /\ length_ l = Z.of_nat (length l)).
  { intros len data Hd Hlen. cbn zeta. unfold ack.
    pose proof (ulong_range r 0 Hr). pose proof (ulong_range r 8 Hr). rewrite !length_app, !length_le_bytes.
    rewrite <- !app_assoc. split; [by apply (ulong_bytes [])|]. split.
    - rewrite (app_assoc (le_bytes 4 (flag r))). by apply ulong_bytes.
    - unfold length_. rewrite ulong_bytes by (done || lia). lia. }
  unfold answer_to, msg_complete in Hin. cbn [read_buffer_ incoming completed answered] in Hin.
  destruct (Z.eqb_spec (command r) FRAME_CMD_QUERY) as [E|E]; [|destruct (Z.eqb_spec (command r) FRAME_CMD_READ) as [E'|E'];
    [|destruct (Z.eqb_spec (command r) FRAME_CMD_INFO)]]; cbn [answered answer app] in Hin.
  - apply list_elem_of_singleton in Hin as ->. destruct (Hack 24 (le_bytes 8 (100 * 1024 * 1024 * 1024 / 512))) as (? & ? & ?); [done..|].
    split_and!; try done. rewrite E. discriminate.
  - assert (Hn : 0 <= u32 (Read_number r * 512)) by apply u32_range.
    assert (Hd : Z.of_nat (length (replicate (Z.to_nat (u32 (Read_number r * 512))) 1)) = u32 (Read_number r * 512))
      by (rewrite length_replicate; lia).
    rewrite Hd, (u32_small (sizeof_VDISKACK + _)) in Hin by (unfold sizeof_VDISKACK; lia).
    apply list_elem_of_singleton in Hin as ->.
    destruct (Hack (sizeof_VDISKACK + u32 (Read_number r * 512)) (replicate (Z.to_nat (u32 (Read_number r * 512))) 1)) as (? & ? & ?);
      [unfold sizeof_VDISKACK; lia..|].
    split_and!; try done. intros _ Hlt. pose proof (ulong_range r 24 Hr). rewrite length_app, Nat2Z.inj_add, Hd.
    rewrite u32_small by (unfold Read_number in *; lia). unfold ack. rewrite !length_app, !length_le_bytes. lia.
  - apply list_elem_of_singleton in Hin as ->. destruct (Hack 16 []) as (? & ? & ?); [done..|]. rewrite app_nil_r in *.
    split_and!; try done.
  - by apply not_elem_of_nil in Hin.
Qed.

Module Demo.

Definition request (length command number : Z) : list Z :=
  le_bytes 4 1835493230 ++ le_bytes 4 length ++ le_bytes 4 command ++ replicate 12 0 ++ le_bytes 4 number ++ replicate 20 0.

Lemma requests_answered_witness : exists b',
  read 3 (Session [] (concat [request 48 4 0; request 48 2 0] ++ [1; 2; 3]) [] []) =
  Session b' [1; 2; 3] [request 48 4 0; request 48 2 0] (concat (map answer_to [request 48 4 0; request 48 2 0])) /\
  length b' = sizeof_VDISKREQUEST.
Proof.
  apply (requests_answered [request 48 4 0; request 48 2 0] [1; 2; 3] [] [] [] 3);
    [repeat constructor; by vm_compute|unfold sizeof_VDISKREQUEST; cbn; lia..].
Defined.

Definition long : list Z := request 56 4 0.
Definition body : list Z := [9; 9; 9; 9; 0; 0; 0; 0].
Definition next : list Z := request 48 4 0.
Definition zeros : list Z := replicate 48 0.

(** The second request, for information, is not answered. *)
Lemma longer_request_shifts_witness :
  read 3 (Session zeros (long ++ body ++ next ++ []) [] []) =
  read 1 (Session (grown (body ++ next)) [] ([] ++ [long ++ replicate (length body) 0; grown (body ++ next)])
            ([] ++ answer_to (long ++ replicate (length body) 0) ++ answer_to (grown (body ++ next)))) /\
  length (answered (read 3 (Session zeros (long ++ body ++ next ++ []) [] []))) = 1%nat.
Proof.
  split; [|by vm_compute].
  apply (longer_request_shifts long body next [] zeros [] [] 1); by vm_compute.
Defined.

Lemma answers_framed_witness :
  let bytes := ack 1835493230 528 2 ++ replicate 512 1 in
  flag bytes = 1835493230 /\ length_ bytes = 528 /\ Z.of_nat (length bytes) = 528.
Proof.
  assert (Hin : ack 1835493230 528 2 ++ replicate 512 1 ∈ answer_to (request 48 2 1)) by (apply (bool_decide_unpack _); by vm_compute).
  destruct (answers_framed (request 48 2 1) _ ltac:(apply (bool_decide_unpack _); by vm_compute) Hin ltac:(by vm_compute)) as (Hf & _ & Hl & _).
  split; [by rewrite Hf|]. split; by vm_compute.
Defined.

End Demo.
