(* ===== verification/AsioPingpong.v ===== *)
(** * The ping-pong programs of boost.asio

    performance/pingpong/asio_pingpong: server.hpp and client.hpp, whose sessions read
    into one buffer while they write from the other. Of boost.asio only its documented
    behaviour is used: an operation that was started completes once, its handler is
    called after the function that started it has returned, the handlers of a strand do
    not overlap, and async_write writes all its bytes or fails. *)

From S2P Require Import Prelude Memory.
From S2P Require Buffers Socket.

Section Pingpong.
Context (w block_size_ : Z).   (* [w]: the width of size_t *)

(** ** A connection

    [reads] and [writes]: the operations the socket has; a write, with the bytes it
    has sent so far. [arriving]: the bytes the peer has sent and that were not read. *)
Record connection := Connection {
  mem : heap;
  arriving : list Z;
  sent : list Z;
  reads : list (Z * Z);
  writes : list (Z * Z * Z);
  read_data_ : Z;
  read_data_length_ : Z;
  write_data_ : Z;
  unsent_count_ : Z
}.

Definition async_read_some (p len : Z) : prog connection unit := fun c =>
  Ret tt (Connection (mem c) (arriving c) (sent c) (reads c ++ [(p, len)]) (writes c)
            (read_data_ c) (read_data_length_ c) (write_data_ c) (unsent_count_ c)).

(** A second async_write before the first has completed is not allowed. *)
Definition async_write (p len : Z) : prog connection unit := fun c =>
  match writes c with
  | [] => Ret tt (Connection (mem c) (arriving c) (sent c) (reads c) [(p, len, 0)]
                    (read_data_ c) (read_data_length_ c) (write_data_ c) (unsent_count_ c))
  | _ => UB
  end.

Definition swap_buffers : prog connection unit := fun c =>
  Ret tt (Connection (mem c) (arriving c) (sent c) (reads c) (writes c)
            (write_data_ c) (read_data_length_ c) (read_data_ c) (unsent_count_ c)).

Definition set_counts (length unsent : Z) : prog connection unit := fun c =>
  Ret tt (Connection (mem c) (arriving c) (sent c) (reads c) (writes c)
            (read_data_ c) length (write_data_ c) unsent).

(** The buffer that was read is written, and the other one read into. *)
Definition write_and_read : prog connection unit := fun c =>
  (swap_buffers ;;; fun c =>
   (async_write (write_data_ c) (read_data_length_ c) ;;; fun c =>
    async_read_some (read_data_ c) block_size_ c) c) c.

(** What [handle_read] and [handle_write] do without an error. *)
Definition on_read (length : Z) : prog connection unit := fun c =>
  (set_counts length (unsent_count_ c + 1) ;;; fun c =>
   (if unsent_count_ c =? 1 then write_and_read else ret tt) c) c.

Definition on_write : prog connection unit := fun c =>
  (set_counts (read_data_length_ c) (unsent_count_ c - 1) ;;; fun c =>
   (if unsent_count_ c =? 1 then write_and_read else ret tt) c) c.

(** ** The operations of the socket *)

(** The first read completes with the next [n] bytes; what the system leaves in the rest
    of its buffer is any [junk]. *)
Definition receive (n : Z) (junk : list Z) (c : connection) : option connection :=
  match reads c with
  | (p, len) :: reads' =>
      if (0 <? n) && (n <=? len) && (n <=? Z.of_nat (length (arriving c))) then
        Some (Connection (store p (take (Z.to_nat len) (take (Z.to_nat n) (arriving c) ++ junk)) (mem c))
                (drop (Z.to_nat n) (arriving c)) (sent c) reads' (writes c)
                (read_data_ c) (read_data_length_ c) (write_data_ c) (unsent_count_ c))
      else None
  | [] => None
  end.

Definition fail_read (c : connection) : option connection :=
  match reads c with
  | _ :: reads' => Some (Connection (mem c) (arriving c) (sent c) reads' (writes c)
                     (read_data_ c) (read_data_length_ c) (write_data_ c) (unsent_count_ c))
  | [] => None
  end.

(** The write sends up to [k] more of its bytes. *)
Definition transmit (k : Z) (c : connection) : option connection :=
  match writes c with
  | [(p, len, done)] =>
      let n := Z.max 0 (Z.min k (len - done)) in
      Some (Connection (mem c) (arriving c) (sent c ++ load (p + done) (Z.to_nat n) (mem c)) (reads c) [(p, len, done + n)]
              (read_data_ c) (read_data_length_ c) (write_data_ c) (unsent_count_ c))
  | _ => None
  end.

Definition end_write (c : connection) : connection :=
  Connection (mem c) (arriving c) (sent c) (reads c) []
    (read_data_ c) (read_data_length_ c) (write_data_ c) (unsent_count_ c).

(** The write completes when all its bytes are sent, and tells their number. *)
Definition finish_write (c : connection) : option (Z * connection) :=
  match writes c with
  | [(p, len, done)] =>
      match transmit (len - done) c with Some c' => Some (len, end_write c') | None => None end
  | _ => None
  end.

Definition fail_write (c : connection) : option connection :=
  match writes c with [] => None | _ => Some (end_write c) end.

(** ** The phases of a connection

    [Idle]: reading, nothing to write; [Echoing]: reading, and writing from the other
    buffer; [Full]: writing, and what was read waits; then one of the two operations has
    failed, or both have ended. *)
Inductive phase := Idle | Echoing | Full | ReadFailed | WriteFailed | Ended.
#[export] Instance phase_eq_dec : EqDecision phase.
Proof. solve_decision. Defined.

Definition after_read (ph : phase) : phase :=
  match ph with Idle => Echoing | Echoing => Full | _ => Ended end.
Definition after_write (ph : phase) : phase :=
  match ph with Echoing => Idle | Full => Echoing | _ => Ended end.
Definition after_failed_read (ph : phase) : phase :=
  match ph with Echoing => ReadFailed | _ => Ended end.
Definition after_failed_write (ph : phase) : phase :=
  match ph with Echoing => WriteFailed | _ => Ended end.
Definition operations (ph : phase) : Z :=
  match ph with Echoing => 2 | Ended => 0 | _ => 1 end.

Definition is_reading (c : connection) : Prop := reads c = [(read_data_ c, block_size_)].

(** [out]: all that was or will be sent of what is known so far: the write has [left]
    bytes to send, from the buffer for writing. *)
Definition is_writing (c : connection) (left : list Z) : Prop := exists len done,
  writes c = [(write_data_ c, len, done)] /\ 0 <= done <= len /\ 0 < len <= block_size_ /\
  left = load (write_data_ c + done) (Z.to_nat (len - done)) (mem c).

Definition in_phase (ph : phase) (out : list Z) (c : connection) : Prop :=
  match ph with
  | Idle => is_reading c /\ writes c = [] /\ unsent_count_ c = 0 /\ out = sent c
  | Echoing => is_reading c /\ unsent_count_ c = 1 /\ exists left, is_writing c left /\ out = sent c ++ left
  | Full => reads c = [] /\ unsent_count_ c = 2 /\ 0 < read_data_length_ c <= block_size_ /\
      exists left, is_writing c left /\
        out = sent c ++ left ++ load (read_data_ c) (Z.to_nat (read_data_length_ c)) (mem c)
  | ReadFailed => reads c = [] /\ unsent_count_ c = 1 /\ exists left, is_writing c left /\ out = sent c ++ left
  | WriteFailed => is_reading c /\ writes c = [] /\ unsent_count_ c = 1 /\ sent c `prefix_of` out
  | Ended => reads c = [] /\ writes c = [] /\ sent c `prefix_of` out
  end.

(** The two buffers are apart, and the connection is in a phase. *)
Definition apart (c : connection) : Prop :=
  read_data_ c + block_size_ <= write_data_ c \/ write_data_ c + block_size_ <= read_data_ c.

Context (Hbs : 0 < block_size_).

Lemma count_operations ph out c : in_phase ph out c ->
  Z.of_nat (length (reads c)) + Z.of_nat (length (writes c)) = operations ph.
Proof.
  destruct ph; cbn [in_phase operations].
  - by intros (-> & -> & _).
  - by intros (-> & _ & left & (len & done & -> & _) & _).
  - by intros (-> & _ & _ & left & (len & done & -> & _) & _).
  - by intros (-> & _ & left & (len & done & -> & _) & _).
  - by intros (-> & -> & _).
  - by intros (-> & -> & _).
Qed.

Lemma sent_prefix ph out c : in_phase ph out c -> sent c `prefix_of` out.
Proof.
  destruct ph; cbn [in_phase].
  - by intros (_ & _ & _ & ->).
  - intros (_ & _ & left & _ & ->). by apply prefix_app_r.
  - intros (_ & _ & _ & left & _ & ->). by apply prefix_app_r.
  - intros (_ & _ & left & _ & ->). by apply prefix_app_r.
  - by intros (_ & _ & _ & ?).
  - by intros (_ & _ & ?).
Qed.

(** ** The operations of the socket keep the phase *)

Lemma received_bytes p n (l : list Z) junk m : 0 < n -> n <= block_size_ -> n <= Z.of_nat (length l) ->
  load p (Z.to_nat n) (store p (take (Z.to_nat block_size_) (take (Z.to_nat n) l ++ junk)) m) = take (Z.to_nat n) l.
Proof.
  intros Hn Hb Hl. set (t := take (Z.to_nat n) l). assert (Ht : length t = Z.to_nat n) by (unfold t; rewrite length_take; lia).
  rewrite take_app_ge by lia. rewrite Ht.
  set (j := take _ junk). rewrite <- (Socket.take_load p (length (t ++ j))) by (rewrite length_app; lia).
  rewrite load_store_eq. by rewrite take_app_length'.
Qed.

(** What the system does to the buffer of a read does not touch the other buffer. *)
Lemma received_elsewhere p q n len junk m : (p + block_size_ <= q \/ q + len <= p) ->
  load q (Z.to_nat len) (store p (take (Z.to_nat block_size_) (n ++ junk)) m) = load q (Z.to_nat len) m.
Proof.
  intros H. destruct (Z.le_gt_cases len 0) as [Hl|Hl]; [by replace (Z.to_nat len) with 0%nat by lia|].
  apply load_store_ne. rewrite length_take. lia.
Qed.

Lemma receive_inv n junk c c1 : receive n junk c = Some c1 -> is_reading c ->
  (0 < n <= block_size_ /\ n <= Z.of_nat (length (arriving c))) /\
  c1 = Connection (store (read_data_ c) (take (Z.to_nat block_size_) (take (Z.to_nat n) (arriving c) ++ junk)) (mem c))
         (drop (Z.to_nat n) (arriving c)) (sent c) [] (writes c)
         (read_data_ c) (read_data_length_ c) (write_data_ c) (unsent_count_ c).
Proof.
  unfold receive. intros H Hr. rewrite Hr in H. destruct (_ && _) eqn:E; [|done]. bool_props. injection H as <-. split; [lia|done].
Qed.

Lemma no_receive n junk c c1 : reads c = [] -> receive n junk c <> Some c1.
Proof. unfold receive. by intros ->. Qed.

Lemma is_writing_ext c c' left : is_writing c left -> writes c' = writes c -> write_data_ c' = write_data_ c ->
  (forall p len done, writes c = [(p, len, done)] -> load (p + done) (Z.to_nat (len - done)) (mem c') =
     load (p + done) (Z.to_nat (len - done)) (mem c)) -> is_writing c' left.
Proof.
  intros (len & done & Hw & Hd & Hl & ->) Hw' Hp Hm. exists len, done. rewrite Hw', Hp. split_and!; try done; try lia.
  by rewrite (Hm _ _ _ Hw).
Qed.

(** A read completes: its bytes are written next, or wait for the write to end. *)
Lemma receive_ok ph out c n junk c1 : in_phase ph out c -> apart c -> receive n junk c = Some c1 ->
  exists c', on_read n c1 = Ret tt c' /\ in_phase (after_read ph) (out ++ take (Z.to_nat n) (arriving c)) c' /\
    apart c' /\ arriving c' = drop (Z.to_nat n) (arriving c).
Proof.
  intros Hph Ha Hr. destruct ph; cbn [in_phase] in Hph.
  - destruct Hph as (Hrd & Hw & Hu & ->). destruct (receive_inv _ _ _ _ Hr Hrd) as [Hn ->].
    unfold on_read, write_and_read, bind. cbn. rewrite Hu, Hw. cbn. eexists. split; [done|].
    split; [|split; [unfold apart in *; cbn; lia|done]]. cbn. split; [done|]. split; [done|].
    exists (take (Z.to_nat n) (arriving c)). split; [|done]. exists n, 0. cbn. split_and!; try done; try lia.
    rewrite Z.add_0_r, Z.sub_0_r. symmetry. apply received_bytes; lia.
  - destruct Hph as (Hrd & Hu & left & Hwr & ->). destruct (receive_inv _ _ _ _ Hr Hrd) as [Hn ->].
    unfold on_read, write_and_read, bind. cbn. rewrite Hu. cbn. eexists. split; [done|].
    split; [|split; [unfold apart in *; cbn; lia|done]]. cbn. split; [done|]. split; [done|]. split; [lia|].
    exists left. split.
    + apply (is_writing_ext c); [done..|]. cbn. intros p len done Hw. destruct Hwr as (len' & done' & Hw' & ? & ? & _).
      rewrite Hw in Hw'. injection Hw' as -> -> ->. apply received_elsewhere. unfold apart in Ha. lia.
    + rewrite received_bytes by lia. by rewrite app_assoc.
  - exfalso. by apply (no_receive n junk c c1); [apply Hph|].
  - exfalso. by apply (no_receive n junk c c1); [apply Hph|].
  - destruct Hph as (Hrd & Hw & Hu & Hpre). destruct (receive_inv _ _ _ _ Hr Hrd) as [Hn ->].
    unfold on_read, write_and_read, bind. cbn. rewrite Hu. cbn. eexists. split; [done|].
    split; [|split; [unfold apart in *; cbn; lia|done]]. cbn. split_and!; try done. by apply prefix_app_r.
  - exfalso. by apply (no_receive n junk c c1); [apply Hph|].
Qed.

Lemma fail_read_ok ph out c c1 : in_phase ph out c -> apart c -> fail_read c = Some c1 ->
  in_phase (after_failed_read ph) out c1 /\ apart c1 /\ arriving c1 = arriving c.
Proof.
  intros Hph Ha Hr. assert (Hre : reads c = [] -> False) by (unfold fail_read in Hr; intros E; by rewrite E in Hr).
  destruct ph; cbn [in_phase] in Hph; try by (exfalso; apply Hre; apply Hph).
  - destruct Hph as (Hrd & Hw & Hu & ->). unfold fail_read in Hr. rewrite Hrd in Hr. injection Hr as <-. by cbn.
  - destruct Hph as (Hrd & Hu & left & Hwr & ->). unfold fail_read in Hr. rewrite Hrd in Hr. injection Hr as <-.
    cbn. split; [|done]. split; [done|]. split; [done|]. exists left. split; [|done]. by apply (is_writing_ext c).
  - destruct Hph as (Hrd & Hw & Hu & Hpre). unfold fail_read in Hr. rewrite Hrd in Hr. injection Hr as <-. by cbn.
Qed.

(** A write goes on: what it sends is the beginning of what it has left. *)
Lemma transmit_writing k c c1 left : is_writing c left -> transmit k c = Some c1 ->
  exists t len done, (t <= length left)%nat /\ is_writing c1 (drop t left) /\
    writes c = [(write_data_ c, len, done)] /\ (len - done <= k -> t = length left) /\
    c1 = Connection (mem c) (arriving c) (sent c ++ take t left) (reads c)
           [(write_data_ c, len, done + Z.of_nat t)]
           (read_data_ c) (read_data_length_ c) (write_data_ c) (unsent_count_ c).
Proof.
  intros (len & done & Hw & Hd & Hl & ->) Ht. unfold transmit in Ht. rewrite Hw in Ht. injection Ht as <-.
  set (n := Z.max 0 (Z.min k (len - done))). assert (Hn : 0 <= n <= len - done) by lia.
  exists (Z.to_nat n), len, done. rewrite length_load. split_and!; [lia| |done|lia|].
  - exists len, (done + n). cbn. split_and!; [done|lia..|].
    replace (Z.to_nat (len - done)) with (Z.to_nat n + Z.to_nat (len - (done + n)))%nat by lia.
    rewrite Buffers.load_app, drop_app_length' by (by rewrite length_load). f_equal. lia.
  - rewrite Socket.take_load, Z2Nat.id by lia. done.
Qed.

(** The write has ended with all its bytes sent. *)
Lemma finish_writing c len c1 left : is_writing c left -> finish_write c = Some (len, c1) ->
  0 < len <= block_size_ /\ c1 = Connection (mem c) (arriving c) (sent c ++ left) (reads c) []
         (read_data_ c) (read_data_length_ c) (write_data_ c) (unsent_count_ c).
Proof.
  intros Hw Hf. assert (Hw0 := Hw). destruct Hw0 as (len0 & done0 & Hw0 & ? & ? & _). unfold finish_write in Hf. rewrite Hw0 in Hf.
  destruct (transmit _ c) as [c2|] eqn:Ht; [|done]. injection Hf as <- <-.
  destruct (transmit_writing _ _ _ _ Hw Ht) as (t & len & done & _ & _ & Hw' & Hall & ->).
  rewrite Hw0 in Hw'. injection Hw' as -> ->. rewrite Hall by lia. rewrite firstn_all. split; [lia|done].
Qed.

Lemma transmit_ok ph out c k c1 : in_phase ph out c -> apart c -> transmit k c = Some c1 ->
  in_phase ph out c1 /\ apart c1 /\ arriving c1 = arriving c.
Proof.
  intros Hph Ha Ht. assert (Hno : writes c = [] -> False) by (unfold transmit in Ht; intros E; by rewrite E in Ht).
  destruct ph; cbn [in_phase] in Hph; try by (exfalso; apply Hno; apply Hph).
  - destruct Hph as (Hrd & Hu & left & Hwr & ->). destruct (transmit_writing _ _ _ _ Hwr Ht) as (t & len & done & Hle & Hw1 & _ & _ & ->).
    split; [|done]. split; [done|]. split; [done|]. exists (drop t left). split; [done|]. cbn. by rewrite <- app_assoc, take_drop.
  - destruct Hph as (Hrd & Hu & Hlen & left & Hwr & ->). destruct (transmit_writing _ _ _ _ Hwr Ht) as (t & len & done & Hle & Hw1 & _ & _ & ->).
    split; [|done]. split; [done|]. split; [done|]. split; [done|]. exists (drop t left). split; [done|]. cbn. by rewrite <- app_assoc, (app_assoc (take t left)), take_drop.
  - destruct Hph as (Hrd & Hu & left & Hwr & ->). destruct (transmit_writing _ _ _ _ Hwr Ht) as (t & len & done & Hle & Hw1 & _ & _ & ->).
    split; [|done]. split; [done|]. split; [done|]. exists (drop t left). split; [done|]. cbn. by rewrite <- app_assoc, take_drop.
Qed.

(** A write ends: what was read in the meantime is written next. *)
Lemma finish_write_ok ph out c len c1 : in_phase ph out c -> apart c -> finish_write c = Some (len, c1) ->
  exists c', on_write c1 = Ret tt c' /\ in_phase (after_write ph) out c' /\ apart c' /\ arriving c' = arriving c.
Proof.
  intros Hph Ha Hf. assert (Hno : writes c = [] -> False) by (unfold finish_write in Hf; intros E; by rewrite E in Hf).
  destruct ph; cbn [in_phase] in Hph; try by (exfalso; apply Hno; apply Hph).
  - destruct Hph as (Hrd & Hu & left & Hwr & ->). destruct (finish_writing _ _ _ _ Hwr Hf) as [_ ->].
    unfold on_write, write_and_read, bind. cbn. rewrite Hu. cbn. eexists. split; [done|]. by cbn.
  - destruct Hph as (Hrd & Hu & Hlen & left & Hwr & ->). destruct (finish_writing _ _ _ _ Hwr Hf) as [_ ->].
    unfold on_write, write_and_read, bind. cbn. rewrite Hu. cbn. eexists. split; [done|].
    split; [|split; [unfold apart in *; cbn; lia|done]]. cbn. rewrite Hrd. split; [done|]. split; [done|].
    exists (load (read_data_ c) (Z.to_nat (read_data_length_ c)) (mem c)). split; [|by rewrite app_assoc].
    exists (read_data_length_ c), 0. cbn. split_and!; try done; try lia. by rewrite Z.add_0_r, Z.sub_0_r.
  - destruct Hph as (Hrd & Hu & left & Hwr & ->). destruct (finish_writing _ _ _ _ Hwr Hf) as [_ ->].
    unfold on_write, write_and_read, bind. cbn. rewrite Hu. cbn. eexists. split; [done|]. by cbn.
Qed.

Lemma fail_write_ok ph out c c1 : in_phase ph out c -> apart c -> fail_write c = Some c1 ->
  in_phase (after_failed_write ph) out c1 /\ apart c1 /\ arriving c1 = arriving c.
Proof.
  intros Hph Ha Hf. pose proof (sent_prefix _ _ _ Hph) as Hpre. unfold fail_write in Hf.
  destruct (writes c) as [|w0 ws] eqn:Hw; [done|]. injection Hf as <-. split; [|done].
  destruct ph; cbn [in_phase] in Hph; cbn; try done.
  - destruct Hph as (_ & Hw' & _). by rewrite Hw in Hw'.
  - destruct Hph as (Hrd & Hu & _). done.
  - by destruct Hph as (Hrd & _).
  - by destruct Hph as (Hrd & _).
  - destruct Hph as (_ & Hw' & _). by rewrite Hw in Hw'.
  - by destruct Hph as (Hrd & _).
Qed.

(** ** The session of the server *)

(** [posted]: the calls of [destroy] in the queue of the io_service. *)
Record session := Session {
  conn : connection;
  op_count_ : Z;
  posted : nat;
  deleted : bool
}.

Definition on_conn (m : prog connection unit) : prog session unit := fun s =>
  match m (conn s) with
  | Ret _ c => Ret tt (Session c (op_count_ s) (posted s) (deleted s))
  | Throw e c => Throw e (Session c (op_count_ s) (posted s) (deleted s))
  | UB => UB
  | OutOfFuel => OutOfFuel
  end.

Definition add_ops (n : Z) : prog session unit := fun s =>
  Ret tt (Session (conn s) (op_count_ s + n) (posted s) (deleted s)).
Definition post_destroy : prog session unit := fun s =>
  Ret tt (Session (conn s) (op_count_ s) (S (posted s)) (deleted s)).
Definition post_if_ended : prog session unit := fun s =>
  (if op_count_ s =? 0 then post_destroy else ret tt) s.

(** A member function of an object that was deleted. *)
Definition alive (m : prog session unit) : prog session unit := fun s => if deleted s then UB else m s.

(** [start]; [ok]: the socket took the option. *)
Definition start (ok : bool) : prog session unit := alive (fun s =>
  (if ok then add_ops 1 ;;; on_conn (fun c => async_read_some (read_data_ c) block_size_ c) else post_destroy) s).

(** Two operations are counted where the two are started. *)
Definition handle_read (err : bool) (length : Z) : prog session unit := alive (
  add_ops (-1) ;;;
  (if err then ret tt
   else (fun s => (if unsent_count_ (conn s) + 1 =? 1 then add_ops 2 else ret tt) s) ;;; on_conn (on_read length)) ;;;
  post_if_ended).

Definition handle_write (err : bool) : prog session unit := alive (
  add_ops (-1) ;;;
  (if err then ret tt
   else (fun s => (if unsent_count_ (conn s) - 1 =? 1 then add_ops 2 else ret tt) s) ;;; on_conn on_write) ;;;
  post_if_ended).

Definition destroy : prog session unit := alive (fun s => Ret tt (Session (conn s) (op_count_ s) (posted s) true)).

(** What can happen: an operation goes on, completes or fails, or a posted call runs. *)
Inductive event :=
| Received (n : Z) (junk : list Z)
| ReadFails
| Sends (k : Z)
| Written
| WriteFails
| Runs.

Definition set_conn (c : connection) (s : session) : session := Session c (op_count_ s) (posted s) (deleted s).

Definition exec (e : event) : prog session unit := fun s =>
  match e with
  | Received n junk => match receive n junk (conn s) with Some c => handle_read false n (set_conn c s) | None => Ret tt s end
  | ReadFails => match fail_read (conn s) with Some c => handle_read true 0 (set_conn c s) | None => Ret tt s end
  | Sends k => match transmit k (conn s) with Some c => Ret tt (set_conn c s) | None => Ret tt s end
  | Written => match finish_write (conn s) with Some (_, c) => handle_write false (set_conn c s) | None => Ret tt s end
  | WriteFails => match fail_write (conn s) with Some c => handle_write true (set_conn c s) | None => Ret tt s end
  | Runs => match posted s with O => Ret tt s | S n => destroy (Session (conn s) (op_count_ s) n (deleted s)) end
  end.

Fixpoint run (events : list event) : prog session unit :=
  match events with
  | [] => ret tt
  | e :: events' => exec e ;;; run events'
  end.

(** A session whose connection is in a phase counts its operations, and is posted for
    deletion once, when they have all ended. *)
Record session_in (ph : phase) (total : list Z) (s : session) : Prop := {
  session_flow : exists out, in_phase ph out (conn s) /\ out ++ arriving (conn s) = total;
  session_apart : apart (conn s);
  session_ops : op_count_ s = operations ph;
  session_live : ph <> Ended -> posted s = 0%nat /\ deleted s = false;
  session_dead : ph = Ended -> if deleted s then posted s = 0%nat else posted s = 1%nat
}.

(** After a handler of a live session, whose connection was in phase [ph] and is in [ph'] with
    the operations counted. *)
Lemma session_goes_on ph' total c' : (exists out, in_phase ph' out c' /\ out ++ arriving c' = total) -> apart c' ->
  exists s', post_if_ended (Session c' (operations ph') 0 false) = Ret tt s' /\ session_in ph' total s'.
Proof.
  intros Hf Ha. unfold post_if_ended, post_destroy, ret. cbn [op_count_]. destruct ph'; cbn [operations Z.eqb]; cbn;
    eexists; (split; [done|]); by constructor.
Qed.

Lemma ops_after_read ph out c : in_phase ph out c -> reads c <> [] ->
  operations ph + -1 + (if unsent_count_ c + 1 =? 1 then 2 else 0) = operations (after_read ph).
Proof.
  destruct ph; cbn [in_phase]; intros H Hr.
  - by destruct H as (_ & _ & -> & _).
  - by destruct H as (_ & -> & _).
  - by destruct H as (? & _).
  - by destruct H as (? & _).
  - by destruct H as (_ & _ & -> & _).
  - by destruct H as (? & _).
Qed.

Lemma ops_after_write ph out c : in_phase ph out c -> writes c <> [] ->
  operations ph + -1 + (if unsent_count_ c - 1 =? 1 then 2 else 0) = operations (after_write ph).
Proof.
  destruct ph; cbn [in_phase]; intros H Hw.
  - by destruct H as (_ & ? & _).
  - by destruct H as (_ & -> & _).
  - by destruct H as (_ & -> & _).
  - by destruct H as (_ & -> & _).
  - by destruct H as (_ & ? & _).
  - by destruct H as (_ & ? & _).
Qed.

Lemma handle_read_run c c' op n : on_read n c = Ret tt c' ->
  handle_read false n (Session c op 0 false) =
  post_if_ended (Session c' (op + -1 + (if unsent_count_ c + 1 =? 1 then 2 else 0)) 0 false).
Proof.
  intros H. unfold handle_read, alive, bind, add_ops, on_conn, ret. cbn [deleted conn op_count_ posted].
  destruct (_ =? 1); cbn [conn op_count_ posted deleted]; rewrite H; [done|]. by rewrite Z.add_0_r.
Qed.

Lemma handle_write_run c c' op : on_write c = Ret tt c' ->
  handle_write false (Session c op 0 false) =
  post_if_ended (Session c' (op + -1 + (if unsent_count_ c - 1 =? 1 then 2 else 0)) 0 false).
Proof.
  intros H. unfold handle_write, alive, bind, add_ops, on_conn, ret. cbn [deleted conn op_count_ posted].
  destruct (_ =? 1); cbn [conn op_count_ posted deleted]; rewrite H; [done|]. by rewrite Z.add_0_r.
Qed.

(** What an event comes to. *)
Definition goes_on (total : list Z) (r : outcome session unit) : Prop :=
  exists s' ph', r = Ret tt s' /\ session_in ph' total s'.

Lemma exec_read_live e ph total c : session_in ph total (Session c (operations ph) 0 false) ->
  match e with Received _ _ | ReadFails => True | _ => False end ->
  goes_on total (exec e (Session c (operations ph) 0 false)).
Proof.
  intros Hin He. pose proof Hin as [(out & Hph & Ht) Ha _ _ _]. cbn [conn] in *. unfold exec. cbn [conn op_count_ posted deleted set_conn].
  destruct e as [n junk| |k| | |]; try done.
  - destruct (receive n junk c) as [c1|] eqn:E; [|by exists (Session c (operations ph) 0 false), ph].
    destruct (receive_ok _ _ _ _ _ _ Hph Ha E) as (c' & Hr & Hph' & Ha' & Harr). unfold set_conn. cbn [op_count_ posted deleted].
    rewrite (handle_read_run _ _ _ _ Hr).
    assert (unsent_count_ c1 = unsent_count_ c /\ reads c <> []) as [-> Hre].
    { unfold receive in E. destruct (reads c) as [|[p len] rs]; [done|]. destruct (_ && _); [|done]. by injection E as <-. }
    rewrite (ops_after_read _ _ _ Hph Hre).
    destruct (session_goes_on (after_read ph) total c') as (s' & ? & ?); [|done|by exists s', (after_read ph)].
    eexists. split; [done|]. by rewrite Harr, <- app_assoc, take_drop.
  - destruct (fail_read c) as [c1|] eqn:E; [|by exists (Session c (operations ph) 0 false), ph].
    destruct (fail_read_ok _ _ _ _ Hph Ha E) as (Hph' & Ha' & Harr).
    destruct (session_goes_on (after_failed_read ph) total c1) as (s' & Hs & ?); [eexists; by rewrite Harr|done|].
    exists s', (after_failed_read ph). split; [|done]. rewrite <- Hs. unfold handle_read, alive, bind, add_ops, ret, set_conn. cbn.
    f_equal. f_equal. assert (Hre : reads c <> []) by (unfold fail_read in E; by destruct (reads c)).
    destruct ph; try done; cbn [in_phase] in Hph; by destruct Hph as (? & _).
Qed.

Lemma exec_write_live e ph total c : session_in ph total (Session c (operations ph) 0 false) ->
  match e with Sends _ | Written | WriteFails => True | _ => False end ->
  goes_on total (exec e (Session c (operations ph) 0 false)).
Proof.
  intros Hin He. pose proof Hin as [(out & Hph & Ht) Ha _ _ _]. cbn [conn] in *. unfold exec. cbn [conn op_count_ posted deleted set_conn].
  destruct e as [n junk| |k| | |]; try done.
  - destruct (transmit k c) as [c1|] eqn:E; [|by exists (Session c (operations ph) 0 false), ph].
    destruct (transmit_ok _ _ _ _ _ Hph Ha E) as (Hph' & Ha' & Harr). exists (Session c1 (operations ph) 0 false), ph.
    split; [done|]. constructor; cbn [conn op_count_ posted deleted]; [eexists; by rewrite Harr|done|done|done|apply Hin].
  - destruct (finish_write c) as [[len c1]|] eqn:E; [|by exists (Session c (operations ph) 0 false), ph].
    destruct (finish_write_ok _ _ _ _ _ Hph Ha E) as (c' & Hr & Hph' & Ha' & Harr). unfold set_conn. cbn [op_count_ posted deleted].
    rewrite (handle_write_run _ _ _ Hr).
    assert (unsent_count_ c1 = unsent_count_ c /\ writes c <> []) as [-> Hre].
    { unfold finish_write, transmit in E. destruct (writes c) as [|[[p l] d] [|]]; [done| |done]. by injection E as _ <-. }
    rewrite (ops_after_write _ _ _ Hph Hre).
    destruct (session_goes_on (after_write ph) total c') as (s' & ? & ?); [|done|by exists s', (after_write ph)].
    eexists. split; [done|]. by rewrite Harr.
  - destruct (fail_write c) as [c1|] eqn:E; [|by exists (Session c (operations ph) 0 false), ph].
    destruct (fail_write_ok _ _ _ _ Hph Ha E) as (Hph' & Ha' & Harr).
    destruct (session_goes_on (after_failed_write ph) total c1) as (s' & Hs & ?); [eexists; by rewrite Harr|done|].
    exists s', (after_failed_write ph). split; [|done]. rewrite <- Hs. unfold handle_write, alive, bind, add_ops, ret, set_conn. cbn.
    f_equal. f_equal. assert (Hre : writes c <> []) by (unfold fail_write in E; by destruct (writes c)).
    destruct ph; try done; cbn [in_phase] in Hph; by destruct Hph as (_ & ? & _).
Qed.

Lemma session_exec_ended e total s : session_in Ended total s -> exists s', exec e s = Ret tt s' /\ session_in Ended total s' /\
  (e = Runs -> deleted s' = true).
Proof.
  intros [(out & (Hr & Hw & Hp) & Ht) Ha Ho _ Hd]. specialize (Hd eq_refl). unfold exec, receive, fail_read, transmit, finish_write, fail_write.
  rewrite Hr, Hw. assert (Hin : session_in Ended total s) by (by constructor; [exists out| | | |]).
  destruct e; try by exists s. destruct (deleted s) eqn:Hdel; rewrite Hd; [by exists s|].
  unfold destroy, alive. cbn [deleted]. eexists. split; [done|]. split; [|done]. by constructor; [exists out| | | |].
Qed.

Lemma exec_goes_on e ph total s : session_in ph total s -> goes_on total (exec e s).
Proof.
  intros Hin. destruct (decide (ph = Ended)) as [-> |Hne].
  - destruct (session_exec_ended e total s Hin) as (s' & ? & ? & _). by exists s', Ended.
  - pose proof Hin as [_ _ Ho Hl _]. destruct (Hl Hne) as [Hp Hd]. destruct s as [c op p d]. cbn in Ho, Hp, Hd. subst.
    destruct e; try (by apply exec_read_live); try (by apply exec_write_live). by exists (Session c (operations ph) 0 false), ph.
Qed.

Lemma run_goes_on total events ph s : session_in ph total s -> goes_on total (run events s).
Proof.
  revert ph s. induction events as [|e events IH]; intros ph s Hin; [by exists s, ph|].
  destruct (exec_goes_on e ph total s Hin) as (s1 & ph1 & He & Hin1). cbn [run]. rewrite (bind_ret _ _ _ _ _ He). by eapply IH.
Qed.

Definition fresh (c : connection) : Prop :=
  reads c = [] /\ writes c = [] /\ sent c = [] /\ unsent_count_ c = 0 /\ apart c.

Lemma start_ok ok c : fresh c -> goes_on (arriving c) (start ok (Session c 0 0 false)).
Proof.
  intros (Hr & Hw & Hs & Hu & Ha). unfold start, alive, bind, add_ops, on_conn, async_read_some, post_destroy. cbn [deleted].
  destruct ok; cbn; eexists.
  - exists Idle. split; [done|]. constructor; cbn; [|done..]. exists []. split; [|done].
    rewrite Hr, Hw, Hs, Hu. by split_and!.
  - exists Ended. split; [done|]. constructor; cbn; [|done..]. exists []. split; [|done]. by rewrite Hs.
Qed.

Lemma session_run ok events c : fresh c -> goes_on (arriving c) ((start ok ;;; run events) (Session c 0 0 false)).
Proof.
  intros Hf. destruct (start_ok ok c Hf) as (s & ph & Hs & Hin). rewrite (bind_ret _ _ _ _ _ Hs). by eapply run_goes_on.
Qed.

(** [C27] The session of the server on a connection on which nothing was started or sent, with two
    buffers that do not overlap, whatever its operations do: nothing happens to an object
    that was deleted and no second write is started; what it has sent is the beginning of
    what it has received, all of it when it only reads; it counts its operations, and
    when the last one has ended it is posted for deletion, once. *)
Theorem session_echoes ok events c : fresh c ->
  exists s, (start ok ;;; run events) (Session c 0 0 false) = Ret tt s /\
    sent (conn s) `prefix_of` arriving c /\
    (reads (conn s) <> [] -> unsent_count_ (conn s) = 0 -> sent (conn s) ++ arriving (conn s) = arriving c) /\
    op_count_ s = Z.of_nat (length (reads (conn s))) + Z.of_nat (length (writes (conn s))) /\
    Z.of_nat (posted s) + (if deleted s then 1 else 0) = (if op_count_ s =? 0 then 1 else 0).
Proof.
  intros Hf. destruct (session_run ok events c Hf) as (s & ph & Hs & [(out & Hph & Ht) Ha Ho Hl Hd]).
  exists s. split; [done|]. split; [|split; [|split]].
  - rewrite <- Ht. apply prefix_app_r. by eapply sent_prefix.
  - intros Hr Hu. destruct ph; cbn [in_phase] in Hph.
    + destruct Hph as (_ & _ & _ & <-). done.
    + destruct Hph as (_ & Hu' & _). lia.
    + by destruct Hph as (? & _).
    + by destruct Hph as (? & _).
    + destruct Hph as (_ & _ & Hu' & _). lia.
    + by destruct Hph as (? & _).
  - by rewrite (count_operations _ _ _ Hph).
  - rewrite Ho. destruct (decide (ph = Ended)) as [-> |Hne].
    + specialize (Hd eq_refl). cbn. destruct (deleted s); rewrite Hd; done.
    + destruct (Hl Hne) as [-> ->]. by destruct ph.
Qed.

Lemma read_fails_conn s s' : exec ReadFails s = Ret tt s' -> conn s' = default (conn s) (fail_read (conn s)).
Proof.
  unfold exec. destruct (fail_read (conn s)) as [c|]; [|by intros [= <-]].
  unfold handle_read, alive, bind, add_ops, ret, post_if_ended, post_destroy, set_conn. cbn. destruct (deleted s); [done|].
  cbn. by destruct (_ =? 0); intros [= <-].
Qed.

Lemma write_fails_conn s s' : exec WriteFails s = Ret tt s' -> conn s' = default (conn s) (fail_write (conn s)).
Proof.
  unfold exec. destruct (fail_write (conn s)) as [c|]; [|by intros [= <-]].
  unfold handle_write, alive, bind, add_ops, ret, post_if_ended, post_destroy, set_conn. cbn. destruct (deleted s); [done|].
  cbn. by destruct (_ =? 0); intros [= <-].
Qed.

Lemma one_read ph out c : in_phase ph out c -> (length (reads c) <= 1)%nat.
Proof.
  destruct ph; cbn [in_phase]; intros (-> & _); cbn; lia.
Qed.

(** When the socket is gone and its operations fail, the session is deleted. *)
Theorem session_is_deleted ok events c : fresh c ->
  exists s, (start ok ;;; run (events ++ [ReadFails; WriteFails; Runs])) (Session c 0 0 false) = Ret tt s /\
    deleted s = true /\ reads (conn s) = [] /\ writes (conn s) = [].
Proof.
  intros Hf.
  assert (Hrun : forall l1 l2 s, run (l1 ++ l2) s = (run l1 ;;; run l2) s).
  { induction l1 as [|e l1 IH]; intros l2 s; [done|]. cbn [app run]. unfold bind. destruct (exec e s); [apply IH|done..]. }
  destruct (session_run ok events c Hf) as (s & ph & Hs & Hin).
  destruct (exec_goes_on ReadFails ph _ s Hin) as (s1 & ph1 & H1 & Hin1).
  destruct (exec_goes_on WriteFails ph1 _ s1 Hin1) as (s2 & ph2 & H2 & Hin2).
  assert (Hr2 : reads (conn s2) = [] /\ writes (conn s2) = []).
  { rewrite (write_fails_conn _ _ H2), (read_fails_conn _ _ H1).
    destruct Hin as [(out & Hph & _) _ _ _ _]. pose proof (one_read _ _ _ Hph) as Hle. unfold fail_read, fail_write.
    destruct (reads (conn s)) as [|r [|]] eqn:E; cbn in Hle |- *; [|destruct (writes (conn s)) eqn:Ew; by cbn|lia].
    destruct (writes (conn s)) eqn:Ew; cbn; by rewrite ?E. }
  destruct Hr2 as [Hr2 Hw2]. assert (ph2 = Ended) as ->.
  { destruct Hin2 as [(out & Hph & _) _ _ _ _]. pose proof (count_operations _ _ _ Hph) as Hc. rewrite Hr2, Hw2 in Hc. by destruct ph2. }
  destruct (session_exec_ended Runs _ s2 Hin2) as (s3 & H3 & Hin3 & Hd).
  exists s3. split.
  - apply bind_Ret_inv in Hs as ([] & s0 & Hs0 & Hs). rewrite (bind_ret _ _ _ _ _ Hs0), Hrun, (bind_ret _ _ _ _ _ Hs).
    cbn [run]. rewrite (bind_ret _ _ _ _ _ H1), (bind_ret _ _ _ _ _ H2), (bind_ret _ _ _ _ _ H3). done.
  - split; [by apply Hd|]. destruct Hin3 as [(out & (? & ? & _) & _) _ _ _ _]. done.
Qed.

(** ** Accepting

    [accepting]: the session of the accept that is pending; [running]: those started. A
    session is its number. *)
Record server := Server { accepting : option nat; running : list nat; freed : list nat; next : nat }.

Definition new_session (s : server) : nat * server := (next s, Server (accepting s) (running s) (freed s) (S (next s))).
Definition async_accept (n : nat) (s : server) : server := Server (Some n) (running s) (freed s) (next s).

Definition listen : server := let '(n, s) := new_session (Server None [] [] 0) in async_accept n s.

Definition handle_accept (err : bool) (s : server) : server :=
  match accepting s with
  | None => s
  | Some n =>
      let s := Server None (running s) (freed s) (next s) in
      if err then Server None (running s) (freed s ++ [n]) (next s)
      else
        let s := Server None (running s ++ [n]) (freed s) (next s) in
        let '(n', s) := new_session s in async_accept n' s
  end.

(** After some accepts, the number [n] of connections. *)
Definition accepted (errs : list bool) : server := foldl (fun s err => handle_accept err s) listen errs.

Lemma accepted_states errs : exists n, (n <= length errs)%nat /\
  accepted errs = if bool_decide (true ∈ errs) then Server None (seq 0 n) [n] (S n) else Server (Some n) (seq 0 n) [] (S n).
Proof.
  unfold accepted. induction errs as [|err errs (n & Hn & IH)] using rev_ind; [by exists 0%nat|].
  rewrite foldl_app. cbn [foldl]. rewrite IH, length_app. cbn [length].
  destruct (bool_decide_reflect (true ∈ errs)) as [Hin|Hin].
  - exists n. split; [lia|]. rewrite bool_decide_true by set_solver. done.
  - destruct err.
    + exists n. split; [lia|]. rewrite bool_decide_true by set_solver. done.
    + exists (S n). split; [lia|]. rewrite bool_decide_false by set_solver.
      unfold handle_accept, async_accept, new_session. cbn [accepting running freed next]. by rewrite seq_S.
Qed.

(** Every session that was made waits for a connection, runs or was deleted, each once
    and in turn; after one accept that failed nobody is accepted any more. *)
Theorem sessions_accounted errs :
  running (accepted errs) ++ option_list (accepting (accepted errs)) ++ freed (accepted errs) = seq 0 (next (accepted errs)) /\
  (accepting (accepted errs) = None <-> true ∈ errs).
Proof.
  destruct (accepted_states errs) as (n & _ & ->). destruct (bool_decide_reflect (true ∈ errs));
    cbn [running accepting freed next option_list app]; by rewrite seq_S.
Qed.

(** ** The session of the client

    [connecting]: the async_connect that is pending, with the endpoints after the one it
    tries; [closing]: the calls of [close_socket] in the strand. The handlers of a strand
    and of a socket that was closed run as before; a closed socket fails its operations
    and is opened again by the next async_connect. *)
Context {endpoint : Type}.

Record client_session := Client {
  cconn : connection;
  connecting : option (list endpoint);
  closing : nat;
  bytes_written_ : Z;
  bytes_read_ : Z;
  read_msgs_cnt_ : Z
}.

Definition on_client (m : prog connection unit) : prog client_session unit := fun s =>
  match m (cconn s) with
  | Ret _ c => Ret tt (Client c (connecting s) (closing s) (bytes_written_ s) (bytes_read_ s) (read_msgs_cnt_ s))
  | Throw e c => Throw e (Client c (connecting s) (closing s) (bytes_written_ s) (bytes_read_ s) (read_msgs_cnt_ s))
  | UB => UB
  | OutOfFuel => OutOfFuel
  end.

Definition set_connecting (r : option (list endpoint)) : prog client_session unit := fun s =>
  Ret tt (Client (cconn s) r (closing s) (bytes_written_ s) (bytes_read_ s) (read_msgs_cnt_ s)).
Definition count_read (n : Z) : prog client_session unit := fun s =>
  Ret tt (Client (cconn s) (connecting s) (closing s) (bytes_written_ s) (wrap w (bytes_read_ s + n)) (wrap w (read_msgs_cnt_ s + 1))).
Definition count_written (n : Z) : prog client_session unit := fun s =>
  Ret tt (Client (cconn s) (connecting s) (closing s) (wrap w (bytes_written_ s + n)) (bytes_read_ s) (read_msgs_cnt_ s)).

(** The iterator of [start] is dereferenced, which the end of a range does not allow. *)
Definition client_start (endpoints : list endpoint) : prog client_session unit :=
  match endpoints with
  | [] => ub
  | _ :: rest => set_connecting (Some rest)
  end.

Definition client_stop : prog client_session unit := fun s =>
  Ret tt (Client (cconn s) (connecting s) (S (closing s)) (bytes_written_ s) (bytes_read_ s) (read_msgs_cnt_ s)).

(** [ok]: the socket took the option. *)
Definition handle_connect (err ok : bool) (endpoints : list endpoint) : prog client_session unit :=
  if negb err then
    if ok then
      on_client (fun c =>
        (set_counts (read_data_length_ c) (unsent_count_ c + 1) ;;;
         async_write (write_data_ c) block_size_ ;;;
         async_read_some (read_data_ c) block_size_) c)
    else ret tt
  else
    match endpoints with
    | [] => ret tt
    | _ :: rest => set_connecting (Some rest)
    end.

Definition client_handle_read (err : bool) (length : Z) : prog client_session unit :=
  if err then ret tt else count_read length ;;; on_client (on_read length).

Definition client_handle_write (err : bool) (length : Z) : prog client_session unit :=
  if negb err && (0 <? length) then count_written length ;;; on_client on_write else ret tt.

Inductive client_event :=
| Connected (ok : bool)
| ConnectFails
| Socket (e : event)
| Stops
| Closes.

Definition set_cconn (c : connection) (s : client_session) : client_session :=
  Client c (connecting s) (closing s) (bytes_written_ s) (bytes_read_ s) (read_msgs_cnt_ s).

(** The end of a pending connect, and of the operations of the socket. *)
Definition client_exec (e : client_event) : prog client_session unit := fun s =>
  match e with
  | Connected ok =>
      match connecting s with None => Ret tt s | Some rest => (set_connecting None ;;; handle_connect false ok rest) s end
  | ConnectFails =>
      match connecting s with None => Ret tt s | Some rest => (set_connecting None ;;; handle_connect true false rest) s end
  | Socket (Received n junk) =>
      match receive n junk (cconn s) with Some c => client_handle_read false n (set_cconn c s) | None => Ret tt s end
  | Socket ReadFails => match fail_read (cconn s) with Some c => client_handle_read true 0 (set_cconn c s) | None => Ret tt s end
  | Socket (Sends k) => match transmit k (cconn s) with Some c => Ret tt (set_cconn c s) | None => Ret tt s end
  | Socket Written =>
      match finish_write (cconn s) with Some (n, c) => client_handle_write false n (set_cconn c s) | None => Ret tt s end
  | Socket WriteFails => match fail_write (cconn s) with Some c => client_handle_write true 0 (set_cconn c s) | None => Ret tt s end
  | Socket Runs => Ret tt s
  | Stops => client_stop s
  | Closes => Ret tt (Client (cconn s) (connecting s) (Nat.pred (closing s)) (bytes_written_ s) (bytes_read_ s) (read_msgs_cnt_ s))
  end.

Fixpoint client_run (events : list client_event) : prog client_session unit :=
  match events with
  | [] => ret tt
  | e :: events' => client_exec e ;;; client_run events'
  end.

(** Not connected yet: nothing has happened to the connection. *)
Definition unconnected (c : connection) (s : client_session) : Prop := cconn s = c /\ bytes_read_ s = 0.

(** Connected: the client writes its block and then what it has read. *)
Definition conversing (out total : list Z) (s : client_session) : Prop :=
  connecting s = None /\ apart (cconn s) /\
  (exists ph sofar, in_phase ph sofar (cconn s) /\ sofar ++ arriving (cconn s) = out ++ total) /\
  (exists k, (k <= length total)%nat /\ arriving (cconn s) = drop k total /\ bytes_read_ s = wrap w (Z.of_nat k)).

Definition client_in (c : connection) (s : client_session) : Prop :=
  unconnected c s \/ conversing (load (write_data_ c) (Z.to_nat block_size_) (mem c)) (arriving c) s.

Definition client_goes_on (c : connection) (r : outcome client_session unit) : Prop :=
  exists s', r = Ret tt s' /\ client_in c s'.

Lemma connect_ok c ok rest s : fresh c -> unconnected c s -> connecting s = None ->
  client_goes_on c (handle_connect false ok rest s).
Proof.
  intros (Hr & Hw & Hs & Hu & Ha) [Hc Hb] Hco. unfold handle_connect. cbn [negb].
  destruct ok; [|exists s; split; [done|by left]].
  unfold on_client, bind, set_counts, async_write, async_read_some. cbn. rewrite Hc, Hr, Hw, Hu. cbn. eexists. split; [done|].
  right. split; [done|]. split; [done|]. split.
  - exists Echoing, (load (write_data_ c) (Z.to_nat block_size_) (mem c)). split; [|done]. cbn. split; [done|]. split; [done|].
    eexists. split; [|by rewrite Hs]. exists block_size_, 0. cbn. rewrite Z.add_0_r, Z.sub_0_r. split_and!; lia || done.
  - exists 0%nat. cbn. split_and!; [lia|done|]. rewrite Hb. unfold wrap. by rewrite Zmod_0_l.
Qed.

Lemma converse_read out total s n junk c1 : conversing out total s -> receive n junk (cconn s) = Some c1 ->
  exists s', client_handle_read false n (set_cconn c1 s) = Ret tt s' /\ conversing out total s'.
Proof.
  intros (Hco & Ha & (ph & sofar & Hph & Ht) & k & Hk & Harr & Hb) E.
  destruct (receive_ok _ _ _ _ _ _ Hph Ha E) as (c' & Hr & Hph' & Ha' & Harr').
  unfold client_handle_read, bind, count_read, on_client, set_cconn. cbn [cconn connecting closing bytes_written_ bytes_read_ read_msgs_cnt_]. rewrite Hr. eexists. split; [done|].
  split; [done|]. split; [done|]. split.
  - exists (after_read ph), (sofar ++ take (Z.to_nat n) (arriving (cconn s))). split; [done|]. cbn. by rewrite Harr', <- app_assoc, take_drop.
  - assert (Hn : 0 < n /\ n <= Z.of_nat (length (arriving (cconn s)))).
    { unfold receive in E. destruct (reads (cconn s)) as [|[p len] rs]; [done|]. destruct (_ && _) eqn:Eb; [|done]. bool_props. lia. }
    rewrite Harr, length_drop in Hn. exists (k + Z.to_nat n)%nat. cbn. rewrite Harr', Harr, drop_drop, Hb. split_and!; [lia|f_equal; lia|].
    unfold wrap. rewrite Zplus_mod_idemp_l. f_equal. lia.
Qed.

(** An operation that leaves what has arrived alone. *)
Lemma converse_step out total s c' written : conversing out total s -> apart c' -> arriving c' = arriving (cconn s) ->
  (forall ph sofar, in_phase ph sofar (cconn s) -> exists ph', in_phase ph' sofar c') ->
  conversing out total (Client c' (connecting s) (closing s) written (bytes_read_ s) (read_msgs_cnt_ s)).
Proof.
  intros (Hco & Ha & (ph & sofar & Hph & Ht) & k & Hk & Harr & Hb) Ha' Harr' Hstep. destruct (Hstep _ _ Hph) as [ph' Hph'].
  split; [done|]. split; [done|]. split; [exists ph', sofar; cbn; by rewrite Harr'|]. exists k. cbn. by rewrite Harr'.
Qed.

Lemma converse_write out total s n c1 : conversing out total s -> finish_write (cconn s) = Some (n, c1) ->
  exists s', client_handle_write false n (set_cconn c1 s) = Ret tt s' /\ conversing out total s'.
Proof.
  intros Hin E. assert (Hin0 := Hin). destruct Hin0 as (Hco & Ha & (ph & sofar & Hph & Ht) & _).
  destruct (finish_write_ok _ _ _ _ _ Hph Ha E) as (c' & Hw & Hph' & Ha' & Harr').
  assert (Hn : 0 < n).
  { assert (exists left, is_writing (cconn s) left) as (left & Hwr).
    { unfold finish_write in E. destruct ph; cbn [in_phase] in Hph.
      - destruct Hph as (_ & Hw0 & _). by rewrite Hw0 in E.
      - destruct Hph as (_ & _ & left & ? & _). by exists left.
      - destruct Hph as (_ & _ & _ & left & ? & _). by exists left.
      - destruct Hph as (_ & _ & left & ? & _). by exists left.
      - destruct Hph as (_ & Hw0 & _). by rewrite Hw0 in E.
      - destruct Hph as (_ & Hw0 & _). by rewrite Hw0 in E. }
    destruct (finish_writing _ _ _ _ Hwr E) as [? _]. lia. }
  unfold client_handle_write, bind, count_written, on_client, set_cconn.
  rewrite (proj2 (Z.ltb_lt 0 n)) by done. cbn [negb andb cconn connecting closing bytes_written_ bytes_read_ read_msgs_cnt_]. rewrite Hw.
  eexists. split; [done|]. apply converse_step; [done..|]. intros ph0 sofar0 Hph0.
  destruct (finish_write_ok _ _ _ _ _ Hph0 Ha E) as (c2 & Hw2 & Hph2 & _). rewrite Hw in Hw2. injection Hw2 as <-. by eexists.
Qed.

Lemma client_unconnected e c s : fresh c -> unconnected c s -> client_goes_on c (client_exec e s).
Proof.
  intros Hf [Hc Hb]. assert (Hf0 := Hf). destruct Hf0 as (Hr & Hw & _).
  assert (Hstay : client_goes_on c (Ret tt s)) by (exists s; split; [done|by left]).
  destruct e as [ok| |[n junk| |k| | |]| |]; cbn [client_exec]; try (unfold receive, fail_read, transmit, finish_write, fail_write; by rewrite Hc, ?Hr, ?Hw).
  - destruct (connecting s) as [rest|]; [|done]. unfold bind, set_connecting. by apply connect_ok.
  - destruct (connecting s) as [[|e rest]|]; [| |done]; unfold bind, set_connecting, handle_connect; cbn; eexists; (split; [done|]); by left.
  - done.
  - eexists. split; [done|]. by left.
  - eexists. split; [done|]. by left.
Qed.

Lemma client_conversing e out total s : conversing out total s ->
  exists s', client_exec e s = Ret tt s' /\ conversing out total s'.
Proof.
  intros Hin. assert (Hin0 := Hin). destruct Hin0 as (Hco & Ha & (ph & sofar & Hph & Ht) & Hk).
  assert (Hstay : exists s', Ret tt s = Ret tt s' /\ conversing out total s') by (by exists s).
  destruct e as [ok| |[n junk| |k| | |]| |]; cbn [client_exec]; rewrite ?Hco; try done.
  - destruct (receive n junk _) as [c1|] eqn:E; [|done]. by eapply converse_read.
  - destruct (fail_read _) as [c1|] eqn:E; [|done]. destruct (fail_read_ok _ _ _ _ Hph Ha E) as (_ & Ha' & Harr').
    eexists. split; [done|]. apply converse_step; [done..|]. intros ph0 sofar0 Hph0. eexists. by apply (fail_read_ok _ _ _ _ Hph0 Ha E).
  - destruct (transmit k _) as [c1|] eqn:E; [|done]. destruct (transmit_ok _ _ _ _ _ Hph Ha E) as (_ & Ha' & Harr').
    eexists. split; [done|]. apply converse_step; [done..|]. intros ph0 sofar0 Hph0. eexists. by apply (transmit_ok _ _ _ _ _ Hph0 Ha E).
  - destruct (finish_write _) as [[n c1]|] eqn:E; [|done]. by eapply converse_write.
  - destruct (fail_write _) as [c1|] eqn:E; [|done]. destruct (fail_write_ok _ _ _ _ Hph Ha E) as (_ & Ha' & Harr').
    eexists. split; [done|]. apply converse_step; [done..|]. intros ph0 sofar0 Hph0. eexists. by apply (fail_write_ok _ _ _ _ Hph0 Ha E).
  - eexists. split; [done|]. split; [done|]. split; [done|]. split; [by exists ph, sofar|exact Hk].
  - eexists. split; [done|]. split; [done|]. split; [done|]. split; [by exists ph, sofar|exact Hk].
Qed.

Lemma client_run_ok events c s : fresh c -> client_in c s -> client_goes_on c (client_run events s).
Proof.
  intros Hf. revert s. induction events as [|e events IH]; intros s Hin; [by exists s|].
  assert (client_goes_on c (client_exec e s)) as (s1 & He & Hin1).
  { destruct Hin as [Hun|Hco]; [by apply client_unconnected|].
    destruct (client_conversing e _ _ s Hco) as (s1 & ? & ?). exists s1. split; [done|by right]. }
  cbn [client_run]. rewrite (bind_ret _ _ _ _ _ He). by apply IH.
Qed.

(** The session of the client, whatever happens to it: no second write is started; what
    it sends is the beginning of its block followed by what it has received, and its
    count of bytes is the length of that, in the width of [size_t]. *)
Theorem client_sends_back endpoints events c : fresh c -> endpoints <> [] ->
  exists s k, (client_start endpoints ;;; client_run events) (Client c None 0 0 0 0) = Ret tt s /\ (k <= length (arriving c))%nat /\
    sent (cconn s) `prefix_of` load (write_data_ c) (Z.to_nat block_size_) (mem c) ++ take k (arriving c) /\
    arriving (cconn s) = drop k (arriving c) /\ bytes_read_ s = wrap w (Z.of_nat k).
Proof.
  intros Hf Hne. destruct endpoints as [|e rest]; [done|]. unfold client_start, bind, set_connecting. cbn.
  destruct (client_run_ok events c (Client c (Some rest) 0 0 0 0) Hf) as (s & Hs & Hin); [left; done|].
  assert (Hf0 := Hf). destruct Hf0 as (_ & _ & Hsent & _). rewrite Hs. destruct Hin as [[Hc Hb]|(_ & _ & (ph & sofar & Hph & Ht) & k & Hk & Harr & Hb)].
  - exists s, 0%nat. rewrite Hc, Hsent, Hb. split_and!; [done|lia|apply prefix_nil|done|]. unfold wrap. by rewrite Zmod_0_l.
  - exists s, k. split_and!; [done|done| |done|done]. etransitivity; [by eapply sent_prefix|]. exists [].
    rewrite app_nil_r. apply (app_inv_tail (arriving (cconn s))). rewrite <- app_assoc, Harr, take_drop. congruence.
Qed.

(** A client that is stopped while it connects goes on to the next endpoint, and talks to
    it: [stop] is called once, by the timer, and [close_socket] has run. *)
Theorem stopped_client_connects e1 e2 rest c : fresh c ->
  exists s, (client_start (e1 :: e2 :: rest) ;;; client_run [Stops; Closes; ConnectFails; Connected true]) (Client c None 0 0 0 0) = Ret tt s /\
    closing s = 0%nat /\ reads (cconn s) = [(read_data_ c, block_size_)] /\ writes (cconn s) = [(write_data_ c, block_size_, 0)].
Proof.
  intros (Hr & Hw & Hs & Hu & Ha). unfold client_start, client_run, client_exec, client_stop, handle_connect, bind, set_connecting, on_client. cbn.
  unfold async_write. cbn. rewrite Hw. cbn. rewrite Hr. by eexists.
Qed.

End Pingpong.

(** ** Sessions at concrete inputs *)

Module Demo.

Definition block : heap := fun x => if (200 <=? x) && (x <? 204) then x - 200 else 0.
Definition c0 : connection := Connection block [11; 12; 13; 14; 15; 16] [] [] [] 100 0 200 0.

Lemma c0_fresh : fresh 4 c0.
Proof. split_and!; try done. left. cbn. lia. Qed.

(** The second block arrives while the first is being sent, in parts. *)
Definition busy : list event := [Received 4 []; Sends 1; Received 2 [99; 99; 99]; Written; Sends 1].

Lemma session_echoes_witness :
  (exists s, (start 4 true ;;; run 4 busy) (Session c0 0 0 false) = Ret tt s /\
    sent (conn s) `prefix_of` arriving c0) /\
  match (start 4 true ;;; run 4 busy) (Session c0 0 0 false) with
  | Ret _ s => sent (conn s) = [11; 12; 13; 14; 15] /\ op_count_ s = 2 /\ deleted s = false
  | _ => False
  end.
Proof.
  split; [|by vm_compute].
  destruct (session_echoes 4 ltac:(lia) true busy c0 c0_fresh) as (s & Hs & Hp & _).
  exists s. exact (conj Hs Hp).
Defined.

Lemma session_is_deleted_witness : exists s,
  (start 4 true ;;; run 4 (busy ++ [ReadFails; WriteFails; Runs])) (Session c0 0 0 false) = Ret tt s /\ deleted s = true.
Proof.
  destruct (session_is_deleted 4 ltac:(lia) true busy c0 c0_fresh) as (s & Hs & Hd & _).
  exists s. exact (conj Hs Hd).
Defined.

Definition talk : list (client_event) :=
  [ConnectFails; Connected true; Socket Written; Socket (Received 4 []); Socket Written].

Lemma client_sends_back_witness :
  (exists s k, (client_start [1; 2] ;;; client_run 32 4 talk) (Client c0 None 0 0 0 0) = Ret tt s /\
    bytes_read_ s = wrap 32 (Z.of_nat k)) /\
  match (client_start [1; 2] ;;; client_run 32 4 talk) (Client c0 None 0 0 0 0) with
  | Ret _ s => sent (cconn s) = [0; 1; 2; 3; 11; 12; 13; 14] /\ bytes_read_ s = 4 /\ read_msgs_cnt_ s = 1
  | _ => False
  end.
Proof.
  split; [|by vm_compute].
  destruct (client_sends_back 32 4 ltac:(lia) [1; 2] talk c0 c0_fresh ltac:(done)) as (s & k & Hs & _ & _ & _ & Hb).
  exists s, k. exact (conj Hs Hb).
Defined.

Lemma stopped_client_connects_witness : exists s,
  (client_start [1; 2] ;;; client_run 32 4 [Stops; Closes; ConnectFails; Connected true]) (Client c0 None 0 0 0 0) = Ret tt s /\
  closing s = 0%nat /\ reads (cconn s) = [(100, 4)].
Proof.
  destruct (stopped_client_connects 32 4 1 2 [] c0 c0_fresh) as (s & Hs & Hc & Hr & _).
  exists s. exact (conj Hs (conj Hc Hr)).
Defined.

End Demo.
