(* ===== verification/PingpongClient.v ===== *)
(** * The client of the ping-pong

    performance/pingpong/pingpong/pingping_cli.cpp: [session_t], whose two buffers are
    swapped by every read, over the client of include/async_io/network.hpp: [async_recv]
    and [async_send] of whole buffers (AsyncTransfer.v), whose handlers are called
    without an error and with a size that is not 0, and which disconnect otherwise
    (Network.v, ClientIo.v). Unlike there, several requests wait at the same time here,
    and what the system does with a request is apart from the completion that it queues.
    The handlers run one at a time, as in a dispatcher of one thread. *)

From S2P Require Import Prelude Memory Buffers AsyncTransfer.

Section Client.
Context (block_size : Z).

Inductive direction := Read | Write.
#[export] Instance direction_eq_dec : EqDecision direction.
Proof. solve_decision. Defined.

(** A request that waits or whose completion is queued: the block it belongs to, how much
    of that was done before, and how much the system has moved for the request. *)
Record transfer := Transfer { block : Z; before : Z; moved_ : Z }.

(** [sent]: what was given to the connection; [reads], [writes]: the requests, in the order
    in which the system serves them; [answers]: what it answers to the next ones; [closed]:
    the socket was closed. *)
Record session_t := Session {
  mem : heap;
  arriving : list Z;
  sent : list Z;
  reads : list transfer;
  writes : list transfer;
  answers : list answer;
  closed : bool;
  read_buf_ : Z;
  write_buf_ : Z;
  read_bytes_ : Z;
  write_bytes_ : Z;
  read_msg_cnt_ : Z
}.

Definition requests (d : direction) (s : session_t) : list transfer := match d with Read => reads s | Write => writes s end.

Definition set_requests (d : direction) (l : list transfer) (s : session_t) : session_t :=
  Session (mem s) (arriving s) (sent s) (match d with Read => l | Write => reads s end) (match d with Read => writes s | Write => l end)
    (answers s) (closed s) (read_buf_ s) (write_buf_ s) (read_bytes_ s) (write_bytes_ s) (read_msg_cnt_ s).

Definition set_answers (l : list answer) (s : session_t) : session_t :=
  Session (mem s) (arriving s) (sent s) (reads s) (writes s) l (closed s) (read_buf_ s) (write_buf_ s)
    (read_bytes_ s) (write_bytes_ s) (read_msg_cnt_ s).

(** [client::disconnect]: the requests stay until their completions come. *)
Definition disconnect (s : session_t) : session_t :=
  Session (mem s) (arriving s) (sent s) (reads s) (writes s) (answers s) true (read_buf_ s) (write_buf_ s)
    (read_bytes_ s) (write_bytes_ s) (read_msg_cnt_ s).

(** What a request asks for of which [t] bytes were done before: the whole block, or the
    rest of it in pieces. *)
Definition room (t : Z) : Z := if t =? 0 then block_size else Z.min MAX_BUFFER_LEN (block_size - t).

(** The system moves up to [n] bytes. *)
Definition size (d : direction) (t n : Z) (s : session_t) : Z :=
  Z.max 0 (Z.min n (match d with Read => Z.min (room t) (Z.of_nat (length (arriving s))) | Write => room t end)).

Definition move (d : direction) (p k : Z) (s : session_t) : session_t :=
  match d with
  | Read => Session (store p (take (Z.to_nat k) (arriving s)) (mem s)) (drop (Z.to_nat k) (arriving s)) (sent s) (reads s) (writes s)
      (answers s) (closed s) (read_buf_ s) (write_buf_ s) (read_bytes_ s) (write_bytes_ s) (read_msg_cnt_ s)
  | Write => Session (mem s) (arriving s) (sent s ++ load p (Z.to_nat k) (mem s)) (reads s) (writes s)
      (answers s) (closed s) (read_buf_ s) (write_buf_ s) (read_bytes_ s) (write_bytes_ s) (read_msg_cnt_ s)
  end.

(** The session, over the start of a request. *)
Section Handlers.
Context (request : direction -> Z -> Z -> session_t -> session_t).

Definition read (s : session_t) : session_t := request Read (read_buf_ s) 0 s.
Definition write (s : session_t) : session_t := request Write (write_buf_ s) 0 s.

(** The handlers of [start], [read] and [write]. *)
Definition on_connect (suc : bool) (s : session_t) : session_t := if suc then read (write s) else s.

Definition on_read (len : Z) (s : session_t) : session_t :=
  write (Session (mem s) (arriving s) (sent s) (reads s) (writes s) (answers s) (closed s) (write_buf_ s) (read_buf_ s)
           (u32 (read_bytes_ s + len)) (write_bytes_ s) (u32 (read_msg_cnt_ s + 1))).

Definition on_write (len : Z) (s : session_t) : session_t :=
  read (Session (mem s) (arriving s) (sent s) (reads s) (writes s) (answers s) (closed s) (read_buf_ s) (write_buf_ s)
          (read_bytes_ s) (u32 (write_bytes_ s + len)) (read_msg_cnt_ s)).

(** The completion of a request, without an error and with [k] bytes: [read_handler_t] or
    [write_handler_t] starts the next request of the block or tells the wrapper of the
    client's handler how much was done, 0 bytes when a read got none. *)
Definition completed (d : direction) (p t k : Z) (s : session_t) : session_t :=
  if (t + k <? block_size) && negb (k =? 0) then request d p (t + k) s
  else
    let len := match d with Read => if k =? 0 then 0 else t + k | Write => t + k end in
    if len =? 0 then disconnect s
    else match d with Read => on_read len s | Write => on_write len s end.

End Handlers.

(** The start of a request. It is completed at once, waits, or is refused, as every request
    of a closed socket is: then [_run_impl] or, for the rest of a block, the wrapper tells
    the error handler, which prints, and disconnects. *)
Fixpoint start_request (l : list answer) (d : direction) (p t : Z) (s : session_t) : session_t :=
  if closed s then disconnect s
  else match l with
  | [] => set_answers [] (set_requests d (requests d s ++ [Transfer p t 0]) s)
  | IoPending :: l => set_answers l (set_requests d (requests d s ++ [Transfer p t 0]) s)
  | Failed _ :: l => disconnect (set_answers l s)
  | Done n :: l =>
      let k := size d t n s in
      completed (start_request l) d p t k (set_answers l (move d (p + t) k s))
  end.

Definition request (d : direction) (p t : Z) (s : session_t) : session_t := start_request (answers s) d p t s.

(** What can happen: the system moves up to [n] bytes for the first request that has none;
    the completion of a request, the [i]-th, is handled, with its bytes or with an error. *)
Inductive event := Moves (d : direction) (n : Z) | Completes (d : direction) (i : nat) (error : Z).
#[export] Instance event_eq_dec : EqDecision event.
Proof. solve_decision. Defined.

Definition exec (e : event) (s : session_t) : session_t :=
  match e with
  | Moves d n =>
      if closed s then s
      else match list_find (fun x => moved_ x = 0) (requests d s) with
      | None => s
      | Some (i, Transfer p t _) =>
          let k := size d t n s in
          move d (p + t) k (set_requests d (<[i := Transfer p t k]> (requests d s)) s)
      end
  | Completes d i error =>
      match requests d s !! i with
      | None => s
      | Some (Transfer p t k) =>
          let s := set_requests d (delete i (requests d s)) s in
          if error =? 0 then completed request d p t k s else disconnect s
      end
  end.

Definition run (events : list event) (s : session_t) : session_t := foldl (fun s e => exec e s) s events.

(** ** Two requests at a time *)

Definition under_way (s : session_t) : nat := length (reads s) + length (writes s).

Definition holds (n : nat) (s : session_t) : Prop := closed s = true \/ under_way s = n.

Lemma under_way_set d l s : (under_way (set_requests d l s) + length (requests d s) = under_way s + length l)%nat.
Proof. destruct d; unfold under_way; cbn; lia. Qed.

Lemma holds_disconnect n s : holds n (disconnect s).
Proof. by left. Qed.

Lemma holds_move n d p k s : holds n s -> holds n (move d p k s).
Proof. by destruct d. Qed.

Lemma holds_pend n d x s : holds n s -> holds (S n) (set_requests d (requests d s ++ [x]) s).
Proof.
  intros [H|H]; [left; by destruct d|]. right. pose proof (under_way_set d (requests d s ++ [x]) s) as Hu.
  rewrite length_app in Hu. cbn [length] in Hu. lia.
Qed.

Lemma holds_completed (req : direction -> Z -> Z -> session_t -> session_t) d p t k s n :
  (forall d p t s n, holds n s -> holds (S n) (req d p t s)) -> holds n s -> holds (S n) (completed req d p t k s).
Proof.
  intros Hr Hs. unfold completed. destruct (_ && _); [by apply Hr|]. destruct (_ =? 0); [apply holds_disconnect|].
  destruct d; by apply Hr.
Qed.

Lemma holds_start l d p t s n : holds n s -> holds (S n) (start_request l d p t s).
Proof.
  revert d p t s n. induction l as [|a l IH]; intros d p t s n Hs; cbn [start_request];
    (destruct (closed s); [apply holds_disconnect|]).
  - by apply (holds_pend n d (Transfer p t 0) s).
  - destruct a as [m| |err].
    + apply holds_completed; [exact IH|]. by apply (holds_move n d (p + t) (size d t m s) s).
    + by apply (holds_pend n d (Transfer p t 0) s).
    + apply holds_disconnect.
Qed.

Lemma holds_exec e s n : holds n s -> holds n (exec e s).
Proof.
  intros Hs. destruct e as [d m|d i error]; cbn [exec].
  - destruct (closed s); [done|]. destruct (list_find _ _) as [[i [p t ?]]|]; [|done]. apply holds_move.
    destruct Hs as [Hs|Hs]; [left; by destruct d|]. right.
    pose proof (under_way_set d (<[i := Transfer p t (size d t m s)]> (requests d s)) s) as Hu. rewrite length_insert in Hu. lia.
  - destruct (requests d s !! i) as [[p t k]|] eqn:E; [|done]. destruct (_ =? 0); [|apply holds_disconnect].
    pose proof (under_way_set d (delete i (requests d s)) s) as Hu. rewrite length_delete in Hu by done.
    pose proof (lookup_lt_Some _ _ _ E) as Hi.
    assert (Hn : (0 < under_way s)%nat) by (destruct d; unfold under_way; cbn in Hi; lia).
    destruct Hs as [Hs|<-].
    + assert (Hc : holds (pred n) (set_requests d (delete i (requests d s)) s)) by (left; by destruct d).
      left. clear -Hs. unfold completed. destruct (_ && _); [|destruct (_ =? 0); [done|]]; unfold request;
        (destruct d; cbn; unfold read, write, request; cbn; destruct (answers s); cbn; by rewrite Hs).
    + replace (under_way s) with (S (pred (under_way s))) at 1 by lia. apply holds_completed; [intros; by apply holds_start|].
      right. lia.
Qed.

(** A connection just made. *)
Definition connected (s : session_t) : Prop :=
  reads s = [] /\ writes s = [] /\ closed s = false /\ sent s = [].

(** [C28] From a connection on which nothing was started: whatever the system answers and however it splits, delays and fails the requests: until
    the client has disconnected, two requests are under way, which are two reads, two
    writes, or one of each. *)
Theorem two_transfers events s : connected s ->
  let s' := run events (on_connect request true s) in closed s' = true \/ under_way s' = 2%nat.
Proof.
  intros (Hr & Hw & _). cbn zeta. assert (H0 : holds 2 (on_connect request true s)).
  { unfold on_connect, read, write. apply holds_start, holds_start. right. unfold under_way. by rewrite Hr, Hw. }
  revert H0. generalize (on_connect request true s). unfold run. induction events as [|e events IH]; intros s' Hs; [done|].
  cbn [foldl]. by apply IH, holds_exec.
Qed.

(** ** One buffer for a read and a write *)

Lemma start_waits d p t s : closed s = false -> answers s = [] ->
  request d p t s = set_answers [] (set_requests d (requests d s ++ [Transfer p t 0]) s).
Proof. intros Hc Ha. unfold request. rewrite Ha. cbn [start_request]. by rewrite Hc. Qed.

Lemma size_block d s : 0 < block_size -> (d = Read -> block_size <= Z.of_nat (length (arriving s))) ->
  size d 0 block_size s = block_size.
Proof. intros Hb Hl. unfold size, room. cbn [Z.eqb]. destruct d; [specialize (Hl eq_refl)|]; lia. Qed.

Lemma completed_block d p s : 0 < block_size -> completed request d p 0 block_size s =
  match d with Read => on_read request block_size s | Write => on_write request block_size s end.
Proof.
  intros Hb. unfold completed. rewrite Z.add_0_l, Z.ltb_irrefl. cbn [andb]. replace (block_size =? 0) with false by (symmetry; apply Z.eqb_neq; lia).
  destruct d; by replace (block_size =? 0) with false by (symmetry; apply Z.eqb_neq; lia).
Qed.

Ltac fields := cbn [mem arriving sent reads writes answers closed read_buf_ write_buf_ read_bytes_ write_bytes_ read_msg_cnt_
  requests set_requests set_answers move app delete insert list_insert list_delete lookup list_lookup
  list_find moved_ block before fst snd prod_map option_map].

Lemma moves_first d p l s : closed s = false -> requests d s = Transfer p 0 0 :: l -> 0 < block_size ->
  (d = Read -> block_size <= Z.of_nat (length (arriving s))) ->
  exec (Moves d block_size) s = move d p block_size (set_requests d (Transfer p 0 block_size :: l) s).
Proof.
  intros Hc Hr Hb Hl. cbn [exec]. rewrite Hc, Hr. cbn [list_find]. rewrite decide_True by done.
  by rewrite size_block, Z.add_0_r.
Qed.

Lemma completes_first d p l s : requests d s = Transfer p 0 block_size :: l -> 0 < block_size ->
  exec (Completes d 0 0) s =
  match d with
  | Read => on_read request block_size (set_requests d l s)
  | Write => on_write request block_size (set_requests d l s)
  end.
Proof. intros Hr Hb. cbn [exec]. rewrite Hr. apply (completed_block d p (set_requests d l s) Hb). Qed.

(** The requests wait. The write ends before the first block is read: the second read is
    started into the buffer of the first, and when the first has ended that buffer is
    written while the second read goes on in it. When the second block comes before that
    write is sent, the peer gets the second block in the place of the first. *)
Theorem read_overwrites s : connected s -> answers s = [] -> 0 < block_size -> 2 * block_size <= Z.of_nat (length (arriving s)) ->
  let echo := [Moves Write block_size; Completes Write 0 0; Moves Read block_size; Completes Read 0 0] in
  let s1 := run echo (on_connect request true s) in
  let s2 := run (echo ++ [Moves Read block_size; Moves Write block_size]) (on_connect request true s) in
  reads s1 = [Transfer (read_buf_ s) 0 0] /\ writes s1 = [Transfer (read_buf_ s) 0 0] /\
  sent s2 = load (write_buf_ s) (Z.to_nat block_size) (mem s) ++
            take (Z.to_nat block_size) (drop (Z.to_nat block_size) (arriving s)).
Proof.
  intros (Hr & Hw & Hc & Hs) Ha Hb Hl. cbn zeta. destruct s as [m ar se re wr an cl rb wb rby wby cnt].
  cbn [mem arriving sent reads writes answers closed read_buf_ write_buf_] in *. subst re wr an cl se.
  unfold run. rewrite foldl_app. cbn [foldl]. unfold on_connect, write, read. rewrite !start_waits by reflexivity. fields.
  rewrite (moves_first Write wb []) by (reflexivity || exact Hb || (intros; fields; lia)). fields.
  rewrite (completes_first Write wb []) by (reflexivity || exact Hb). fields.
  unfold on_write, read. rewrite start_waits by reflexivity. fields.
  rewrite (moves_first Read rb [Transfer rb 0 0]) by (reflexivity || exact Hb || (intros; fields; lia)). fields.
  rewrite (completes_first Read rb [Transfer rb 0 0]) by (reflexivity || exact Hb). fields.
  unfold on_read, write. rewrite start_waits by reflexivity. fields. split; [done|]. split; [done|].
  assert (Hl' : block_size <= Z.of_nat (length (drop (Z.to_nat block_size) ar))) by (rewrite length_drop; lia).
  rewrite (moves_first Read rb []) by (reflexivity || exact Hb || (intros; fields; exact Hl')). fields.
  rewrite (moves_first Write rb []) by (reflexivity || exact Hb || done). fields.
  f_equal. set (l := take _ (drop _ ar)). replace (Z.to_nat block_size) with (length l) by (unfold l; rewrite length_take; lia).
  apply load_store_eq.
Qed.

End Client.

Module Demo.

Definition stream : list Z := [11; 12; 13; 14; 21; 22; 23; 24].
Definition start (answers : list answer) : session_t := Session (fun x => x) stream [] [] [] answers false 100 200 0 0 0.

(** The first read ends at once with a part of the block. *)
Lemma two_transfers_witness :
  let s' := run 4 [Moves Write 1; Completes Write 0 0; Moves Read 2; Completes Read 0 0; Moves Write 9; Completes Write 0 0]
              (on_connect (request 4) true (start [IoPending; Done 1])) in
  closed s' = true \/ under_way s' = 2%nat.
Proof. by apply (two_transfers 4 _ (start [IoPending; Done 1])). Defined.

(** The restart of a block that was written in part is refused. *)
Lemma refused_rest_disconnects :
  let s' := run 4 [Moves Write 1; Completes Write 0 0] (on_connect (request 4) true (start [IoPending; IoPending; Failed 64])) in
  closed s' = true /\ under_way s' = 1%nat /\ write_bytes_ s' = 0.
Proof. by vm_compute. Qed.

Lemma read_overwrites_witness :
  sent (run 4 ([Moves Write 4; Completes Write 0 0; Moves Read 4; Completes Read 0 0] ++ [Moves Read 4; Moves Write 4])
          (on_connect (request 4) true (start []))) = [200; 201; 202; 203; 21; 22; 23; 24].
Proof. refine (proj2 (proj2 (read_overwrites 4 (start []) _ _ _ _))); [done|done|lia|cbn; lia]. Defined.

End Demo.
