(* ===== verification/EchoSessions.v ===== *)
(** * The echo servers and clients of the examples

    Example/Network: the sessions of Tcp/NetworkSvr/Impl/ServerImpl.h and of
    Netty/Discard/Discard/Discard.cpp with the accept loop they share, the clients of
    Tcp/NetworkCli/ClientImpl/ClientImpl.hpp and of Netty/Discard/DiscardCli/DiscardCli.cpp, the datagram server of Udp/Udp/Udp.cpp and
    the counting server of MaxConnection. The sources use an older interface of the
    library; of it only what its calls promise is used: an operation is posted or throws, a
    posted operation completes once, a write of transfer_all that completes without an
    error wrote everything, a read of transfer_all that completes without an error filled
    its buffer or found the end of the stream. *)

From S2P Require Import Prelude.

(** ** Sessions *)

Module Sessions.

(** The two sessions differ in what they ask for, what they send back, and what they do
    with an exception. *)
Inductive kind := Tcp | Discard.

Inductive operation := Reading | Writing (bytes : list Z) | Disconnecting.

(** [callbacks]: [readCallback_] and [writeCallback_] are bound to the session itself.
    [op]: the operation under way, which holds a copy of them. [received] and [sent]: the
    bytes the session read and its peer was given. *)
Record session := Session {
  buf_ : list Z;
  callbacks : bool;
  open_ : bool;
  op : option operation;
  recevied_ : Z;
  received : list Z;
  sent : list Z
}.

Definition set_op o s := Session (buf_ s) (callbacks s) (open_ s) o (recevied_ s) (received s) (sent s).
Definition set_callbacks b o s := Session (buf_ s) b o (op s) (recevied_ s) (received s) (sent s).
Definition count k n s := Session (buf_ s) (callbacks s) (open_ s) (op s) (match k with Discard => wrap 64 (recevied_ s + n) | Tcp => recevied_ s end) (received s) (sent s).

Definition new_session (len : nat) : session := Session (replicate len 0) false true None 0 [] [].

(** [shared_from_this] keeps the session as long as a callback or an operation does. *)
Definition alive (s : session) : bool := callbacks s || match op s with Some _ => true | None => false end.

Definition post (accepted : bool) (o : operation) : prog session unit := fun s =>
  if accepted && open_ s then Ret tt (set_op (Some o) s) else Throw win32_exception s.

Definition Stop : prog session unit := fun s => Ret tt (set_callbacks false false s).

(** [catch(std::exception &)]: both print, the one stops. *)
Definition caught (k : kind) : prog session unit := match k with Tcp => Stop | Discard => ret tt end.

Definition Start (k : kind) (accepted : bool) : prog session unit := fun s =>
  try_catch (post accepted Reading) (fun _ => caught k) (set_callbacks true (open_ s) s).

Definition _HandleRead (k : kind) (accepted : bool) (bytes : nat) : prog session unit :=
  try_catch
    (match bytes, k with
     | O, Tcp => Stop
     | O, Discard => post accepted Disconnecting
     | _, Tcp => fun s => post accepted (Writing (buf_ s)) s
     | _, Discard => (fun s => Ret tt (count Discard (Z.of_nat bytes) s)) ;;; (fun s => post accepted (Writing (take bytes (buf_ s))) s)
     end)
    (fun _ => caught k).

Definition _HandleWrite (k : kind) (accepted : bool) : prog session unit :=
  try_catch (post accepted Reading) (fun _ => caught k).

Definition _DisConnect : prog session unit := Stop.

(** The operation under way completes, with an error or not, and its handler runs;
    neither handler looks at the error. *)
Inductive event :=
| ReadDone (error : bool) (data : list Z) (accepted : bool)
| WriteDone (error : bool) (bytes : nat) (accepted : bool)
| DisconnectDone.

Definition exec (k : kind) (e : event) : prog session unit := fun s =>
  match e, op s with
  | ReadDone _ data accepted, Some Reading =>
      _HandleRead k accepted (length data)
        (Session (data ++ drop (length data) (buf_ s)) (callbacks s) (open_ s) None (recevied_ s) (received s ++ data) (sent s))
  | WriteDone _ n accepted, Some (Writing bytes) =>
      _HandleWrite k accepted (Session (buf_ s) (callbacks s) (open_ s) None (recevied_ s) (received s) (sent s ++ take n bytes))
  | DisconnectDone, Some Disconnecting => _DisConnect (set_op None s)
  | _, _ => Ret tt s
  end.

Fixpoint run (k : kind) (l : list event) : prog session unit :=
  match l with [] => ret tt | e :: l => exec k e ;;; run k l end.

(** What the library promises, without errors: [len] is the size of the buffer. *)
Definition promised (k : kind) (len : nat) (e : event) : Prop :=
  match e with
  | ReadDone error data _ => error = false /\ (length data <= len)%nat /\ (k = Tcp -> length data = 0%nat \/ length data = len)
  | WriteDone error n _ => error = false /\ (len <= n)%nat
  | DisconnectDone => True
  end.

Definition in_flight (s : session) : list Z := match op s with Some (Writing bytes) => bytes | _ => [] end.

(** What was sent and is on its way is what was received, and a session without an
    operation lets itself go, but for one that only prints its exceptions. *)
Record wf (k : kind) (len : nat) (s : session) : Prop := {
  wf_buf : length (buf_ s) = len;
  wf_flight : (length (in_flight s) <= len)%nat;
  wf_bytes : sent s ++ in_flight s = received s \/ op s = None /\ sent s `prefix_of` received s;
  wf_free : k = Tcp -> op s = None -> callbacks s = false
}.

Lemma exec_total k e s : exists s', exec k e s = Ret tt s'.
Proof.
  destruct s as [b c o p r rc st]. unfold exec. destruct e as [er d a|er n a|], p as [[| |]|]; cbn; try by eexists.
  - unfold _HandleRead, try_catch, post, bind. destruct (length d), k, a, o; cbn; by eexists.
  - unfold _HandleWrite, try_catch, post. destruct a, o, k; cbn; by eexists.
Qed.

Lemma run_total k l : forall s, exists s', run k l s = Ret tt s'.
Proof.
  induction l as [|e l IH]; intros s; [by eexists|]. destruct (exec_total k e s) as (s1 & H1). cbn [run].
  rewrite (bind_ret _ _ _ _ _ H1). apply IH.
Qed.

Lemma wf_nothing k len b c o rc r st : length b = len -> st `prefix_of` r -> (k = Tcp -> c = false) -> wf k len (Session b c o None rc r st).
Proof. intros Hb Hp Hc. split; cbn; [done|lia|by right|intros Hk _; by apply Hc]. Qed.

Lemma wf_going k len b c o p rc r st : length b = len -> (length (in_flight (Session b c o (Some p) rc r st)) <= len)%nat ->
  st ++ in_flight (Session b c o (Some p) rc r st) = r -> wf k len (Session b c o (Some p) rc r st).
Proof. intros Hb Hf Hp. split; cbn; [done|done|by left|done]. Qed.

Lemma echo_exec_wf k len e s s' : wf k len s -> promised k len e -> exec k e s = Ret tt s' -> wf k len s'.
Proof.
  intros Hw Hp. destruct s as [b c o p rc r st]. pose proof Hw as [Hb Hf Hs _]. unfold in_flight in *. cbn in Hb, Hf, Hs.
  destruct e as [er d a|er n a|], p as [[|bytes|]|]; unfold exec; cbn [op callbacks buf_ open_ recevied_ received sent]; try by intros [= <-].
  - destruct Hp as (-> & Hd & Hk). destruct Hs as [Hs|[? _]]; [|done]. rewrite app_nil_r in Hs. subst st.
    assert (Hbuf : length (d ++ drop (length d) b) = len) by (rewrite length_app, length_drop; lia).
    unfold _HandleRead, try_catch, post, bind, caught, Stop, ret. destruct (length d) eqn:El.
    + apply nil_length_inv in El as ->. rewrite app_nil_r. destruct k; [|destruct a, o]; intros [= <-];
        first [by apply wf_nothing|apply wf_going; cbn; [done|lia|by rewrite app_nil_r]].
    + rewrite <- El in *. destruct k, a, o; cbn; intros [= <-];
        try (apply wf_nothing; [done|by eexists|done]); apply wf_going; cbn; rewrite ?length_take; try done; try lia.
      * f_equal. rewrite drop_ge, app_nil_r; [done|]. destruct Hk; [done|lia|lia].
      * by rewrite take_app_length.
  - destruct Hp as (-> & Hn). destruct Hs as [Hs|[? _]]; [|done]. cbn in Hs, Hf. rewrite take_ge, Hs by lia.
    unfold _HandleWrite, try_catch, post, caught, Stop, ret. destruct a, o, k; cbn; intros [= <-];
      first [by apply wf_nothing|apply wf_going; cbn; [done|lia|by rewrite app_nil_r]].
  - destruct Hs as [Hs|[? _]]; [|done]. rewrite app_nil_r in Hs. subst st. intros [= <-]. by apply wf_nothing.
Qed.

Lemma echo_start_wf k len accepted s : Start k accepted (new_session len) = Ret tt s -> wf k len s.
Proof.
  unfold Start, new_session, try_catch, post, caught, Stop, ret. destruct accepted, k; cbn; intros [= <-];
    unfold set_op, set_callbacks; cbn [callbacks buf_ open_ op recevied_ received sent];
    first [apply wf_going; [by rewrite length_replicate|cbn; lia|done]|apply wf_nothing; [by rewrite length_replicate|done|done]].
Qed.

(** Whatever is read and refused, a session gives its peer the beginning of what it read,
    all of it as long as an operation is under way; the session of the TCP server goes
    with its last operation. *)
Theorem session_echo k len accepted l s : Forall (promised k len) l ->
  (Start k accepted ;;; run k l) (new_session len) = Ret tt s ->
  sent s `prefix_of` received s /\ (op s <> None -> sent s ++ in_flight s = received s) /\
  (k = Tcp -> (alive s = true <-> op s <> None)).
Proof.
  intros Hl Hr. apply bind_Ret_inv in Hr as ([] & s1 & H1 & H2).
  assert (Hw : wf k len s).
  { apply echo_start_wf in H1. revert s1 H1 H2. induction Hl as [|e l He _ IH]; intros s1 H1 H2; cbn [run] in H2; [by injection H2 as <-|].
    apply bind_Ret_inv in H2 as ([] & s2 & H2 & H3). apply (IH s2); [|done]. by apply (echo_exec_wf k len e s1). }
  destruct Hw as [_ _ Hb Hf]. split; [destruct Hb as [<- |[_ ?]]; [by eexists|done]|]. split.
  - intros Ho. by destruct Hb as [?|[? _]].
  - intros Hk. specialize (Hf Hk). unfold alive. destruct (op s); [by rewrite orb_true_r|]. rewrite Hf by done. done.
Qed.

(** In the Discard server a session whose operation was refused is kept by its own
    callbacks, with nothing under way, whatever happens. *)
Theorem discard_leaks len l : exists s, Start Discard false (new_session len) = Ret tt s /\ alive s = true /\
  op s = None /\ run Discard l s = Ret tt s.
Proof.
  eexists. split; [done|]. split; [done|]. split; [done|]. induction l as [|e l IH]; [done|]. cbn [run].
  unfold bind. by destruct e.
Qed.

(** A read that ends with an error and some bytes makes the TCP server send its whole
    buffer, with what was left in it. *)
Theorem tcp_sends_stale error data b r st : data <> [] -> (length data <= length b)%nat ->
  exec Tcp (ReadDone error data true) (Session b true true (Some Reading) 0 r st) =
    Ret tt (Session (data ++ drop (length data) b) true true (Some (Writing (data ++ drop (length data) b))) 0 (r ++ data) st).
Proof. intros Hd _. destruct data; [done|]. done. Qed.

End Sessions.

(** ** Accepting *)

Module Accepting.

(** [accepting]: a request to accept is under way. [sessions]: what was made for each
    connection. *)
Record server := Server { accepting : bool; sessions : list Sessions.session }.

(** [_StartAccept]; its [bool]: the request was taken. The TCP server catches inside, the
    Discard server outside; both only print. *)
Definition _StartAccept (taken : bool) : prog server unit := fun s => Ret tt (Server taken (sessions s)).

(** [_OnAccept]; the session starts with [accepted]. *)
Definition _OnAccept (k : Sessions.kind) (len : nat) (error accepted taken : bool) : prog server unit := fun s =>
  if error then Ret tt s
  else match Sessions.Start k accepted (Sessions.new_session len) with
       | Ret _ session => _StartAccept taken (Server (accepting s) (sessions s ++ [session]))
       | _ => Ret tt s
       end.

Record accept_event := Accept { error : bool; accepted : bool; taken : bool }.
Definition exec (k : Sessions.kind) (len : nat) (e : accept_event) : prog server unit := fun s =>
  if accepting s then _OnAccept k len (error e) (accepted e) (taken e) (Server false (sessions s)) else Ret tt s.
Fixpoint run (k : Sessions.kind) (len : nat) (l : list accept_event) : prog server unit :=
  match l with [] => ret tt | e :: l => exec k len e ;;; run k len l end.

(** The connections up to the first that fails, or that cannot be followed by another
    request. *)
Fixpoint until_failure (l : list accept_event) : nat :=
  match l with
  | [] => 0
  | e :: l => if error e then 0 else if taken e then S (until_failure l) else 1
  end.

(** The first connection that ends with an error is the last the server hears of. *)
Theorem accepts_until_failure k len l : exists s, (_StartAccept true ;;; run k len l) (Server false []) = Ret tt s /\
  length (sessions s) = until_failure l /\
  (accepting s = true <-> Forall (fun e => error e = false /\ taken e = true) l).
Proof.
  assert (Hstop : forall l ss, run k len l (Server false ss) = Ret tt (Server false ss)) by (induction l0 as [|e l0 IH]; intros; [done|apply IH]).
  assert (H : forall ss, exists s, run k len l (Server true ss) = Ret tt s /\ length (sessions s) = (length ss + until_failure l)%nat /\
    (accepting s = true <-> Forall (fun e => error e = false /\ taken e = true) l)).
  { induction l as [|[er ac ta] l IH]; intros ss.
    - eexists. split; [done|]. split; [cbn; lia|]. cbn. split; intros; [constructor|done].
    - cbn [run]. unfold bind, exec. cbn [accepting sessions error accepted taken]. unfold _OnAccept. destruct er.
      + rewrite Hstop. eexists. split; [done|]. split; [cbn; lia|]. cbn. split; [done|]. by intros [[? _] _] % Forall_cons.
      + assert (Hst : exists x, Sessions.Start k ac (Sessions.new_session len) = Ret tt x) by (destruct k, ac; by eexists).
        destruct Hst as (x & ->). unfold _StartAccept. cbn [sessions]. destruct ta.
        * destruct (IH (ss ++ [x])) as (s & -> & Hl & Ha). exists s. split; [done|]. rewrite Hl, length_app. cbn. split; [lia|].
          rewrite Ha, Forall_cons. cbn. tauto.
        * rewrite Hstop. eexists. split; [done|]. cbn. rewrite length_app. cbn. split; [lia|]. split; [done|]. by intros [[_ ?] _] % Forall_cons. }
  destruct (H []) as (s & Hr & Hl & Ha). by exists s.
Qed.

End Accepting.

(** ** MaxConnection *)

Module MaxConnection.

Definition MAX_CONNECTION : Z := 1024.

(** [reads]: the reads under way, one for each connection that was counted and has not
    sent anything; [shut]: the connections that were turned away. *)
Record server := Server { connectCnt_ : Z; accepting : bool; reads : nat; shut : nat }.

Definition _Start (taken : bool) : prog server unit := fun s =>
  if taken then Ret tt (Server (connectCnt_ s) true (reads s) (shut s)) else Throw win32_exception s.

(** [accepted]: the read was taken; [taken]: so was the next request to accept. *)
Definition OnAccept (err accepted taken : bool) : prog server unit := fun s =>
  if err then Ret tt s
  else try_catch (fun s =>
    if MAX_CONNECTION <? connectCnt_ s then Ret tt (Server (connectCnt_ s) (accepting s) (reads s) (S (shut s)))
    else
      let s1 := Server (connectCnt_ s + 1) (accepting s) (reads s) (shut s) in
      if accepted then _Start taken (Server (connectCnt_ s1) (accepting s1) (S (reads s1)) (shut s1)) else Throw win32_exception s1)
    (fun _ => ret tt) s.

Definition OnRead (err : bool) (size : nat) : prog server unit := fun s =>
  if err || (size =? 0)%nat then Ret tt (Server (connectCnt_ s - 1) (accepting s) (reads s) (shut s)) else Ret tt s.

Inductive event := Accepted (err accepted taken : bool) | ReadDone (err : bool) (size : nat).
Definition exec (e : event) : prog server unit := fun s =>
  match e with
  | Accepted err accepted taken => if accepting s then OnAccept err accepted taken (Server (connectCnt_ s) false (reads s) (shut s)) else Ret tt s
  | ReadDone err size =>
      match reads s with
      | O => Ret tt s
      | S r => OnRead err size (Server (connectCnt_ s) (accepting s) r (shut s))
      end
  end.
Fixpoint run (l : list event) : prog server unit := match l with [] => ret tt | e :: l => exec e ;;; run l end.

Lemma max_exec e s : 0 <= connectCnt_ s <= 1025 -> Z.of_nat (reads s) <= connectCnt_ s -> exists s', exec e s = Ret tt s' /\
  0 <= connectCnt_ s' <= 1025 /\ Z.of_nat (reads s') <= connectCnt_ s' /\
  (accepting s = false -> accepting s' = false /\ shut s' = shut s) /\
  ((shut s < shut s')%nat -> accepting s' = false) /\ (shut s <= shut s' <= S (shut s))%nat.
Proof.
  destruct s as [n a r sh]. cbn. intros Hn Hr. destruct e as [err ac ta|err size]; unfold exec; cbn [accepting reads connectCnt_ shut].
  - destruct a; [|eexists; split; [done|]; cbn; split_and!; by try lia]. unfold OnAccept, try_catch, _Start, MAX_CONNECTION, ret.
    destruct err; [eexists; split; [done|]; cbn; split_and!; by try lia|]. cbn [connectCnt_].
    destruct (Z.ltb_spec 1024 n); [eexists; split; [done|]; cbn; split_and!; by try lia|].
    destruct ac, ta; cbn; eexists; (split; [done|]); cbn; split_and!; by try lia.
  - destruct r as [|r]; [eexists; split; [done|]; cbn; split_and!; by try lia|]. unfold OnRead.
    destruct (err || _); eexists; (split; [done|]); cbn; split_and!; by try lia.
Qed.

(** At most 1025 connections are counted at a time; the first that is turned away is the
    last that is accepted, however many leave. *)
Theorem max_connection l : exists s, (_Start true ;;; run l) (Server 0 false 0 0) = Ret tt s /\
  0 <= connectCnt_ s <= 1025 /\ (shut s <= 1)%nat /\ (shut s = 1%nat -> accepting s = false).
Proof.
  assert (H : forall s, 0 <= connectCnt_ s <= 1025 -> Z.of_nat (reads s) <= connectCnt_ s ->
    (shut s = 0%nat \/ shut s = 1%nat /\ accepting s = false) -> exists s', run l s = Ret tt s' /\
    0 <= connectCnt_ s' <= 1025 /\ (shut s' = 0%nat \/ shut s' = 1%nat /\ accepting s' = false)).
  { induction l as [|e l IH]; intros s Hn Hr Hs; [by exists s|].
    destruct (max_exec e s Hn Hr) as (s1 & H1 & Hn1 & Hr1 & Ha & Hsh & Hle). cbn [run].
    rewrite (bind_ret _ _ _ _ _ H1). apply IH; [done|done|].
    destruct Hs as [Hs|[Hs Hac]]; [|right; destruct (Ha Hac); split; [lia|done]].
    destruct (decide (shut s1 = 0%nat)); [by left|right]. split; [lia|]. apply Hsh. lia. }
  destruct (H (Server 0 true 0 0)) as (s & Hr & Hn & Hs); cbn; [lia|lia|by left|].
  exists s. split; [done|]. split; [done|]. split; [lia|]. intros E. destruct Hs as [?|[_ ?]]; [lia|done].
Qed.

End MaxConnection.

(** ** Udp *)

Module Udp.

(** [data_] and [addr_] are the server's only buffer and address; [got] and [replied] the
    datagrams that came in and that were sent, with the addresses. *)
Inductive operation := Receiving | Sending (bytes : list Z) (addr : Z).
Record server := Server { data_ : list Z; addr_ : Z; op : option operation; got : list (list Z * Z); replied : list (list Z * Z) }.

Definition max_length : nat := 1024.

Definition post (accepted : bool) (o : operation) : prog server unit := fun s =>
  if accepted then Ret tt (Server (data_ s) (addr_ s) (Some o) (got s) (replied s)) else Throw win32_exception s.

Definition new_server (accepted : bool) : prog server unit := try_catch (post accepted Receiving) (fun _ => ret tt).

Definition handle_receive_from (accepted error : bool) (bytes_recvd : nat) : prog server unit := fun s =>
  if error then Ret tt s
  else try_catch
    (if (0 <? bytes_recvd)%nat then post accepted (Sending (take bytes_recvd (data_ s)) (addr_ s)) else post accepted Receiving)
    (fun _ => ret tt) s.

Definition handle_send_to (accepted : bool) : prog server unit := try_catch (post accepted Receiving) (fun _ => ret tt).

(** A datagram is cut to the buffer, and sent whole. *)
Inductive event := Received (error : bool) (datagram : list Z) (from : Z) (accepted : bool) | Sent (accepted : bool).
Definition exec (e : event) : prog server unit := fun s =>
  match e, op s with
  | Received error datagram from accepted, Some Receiving =>
      let d := take max_length datagram in
      handle_receive_from accepted error (length d)
        (Server (d ++ drop (length d) (data_ s)) from None (if error then got s else got s ++ [(d, from)]) (replied s))
  | Sent accepted, Some (Sending bytes addr) =>
      handle_send_to accepted (Server (data_ s) (addr_ s) None (got s) (replied s ++ [(bytes, addr)]))
  | _, _ => Ret tt s
  end.
Fixpoint run (l : list event) : prog server unit := match l with [] => ret tt | e :: l => exec e ;;; run l end.

Definition nonempty (l : list (list Z * Z)) : list (list Z * Z) := filter (fun x => x.1 <> []) l.
Definition sending (s : server) : list (list Z * Z) := match op s with Some (Sending b a) => [(b, a)] | _ => [] end.

Definition wf (s : server) : Prop :=
  nonempty (got s) = replied s ++ sending s \/ op s = None /\ replied s `prefix_of` nonempty (got s).

Lemma udp_exec e s : wf s -> exists s', exec e s = Ret tt s' /\ wf s' /\ (op s = None -> s' = s).
Proof.
  destruct s as [d a o g r]. unfold wf, sending, exec, handle_receive_from, handle_send_to, try_catch, post, ret. cbn.
  intros Hw. destruct e as [er dg fr ac|ac], o as [[|b ad]|]; try (eexists; split; [done|]; split; [exact Hw|done]).
  - destruct Hw as [Hw|[? _]]; [|done]. rewrite app_nil_r in Hw. generalize (take 1024 dg). intros m.
    destruct er; [eexists; split; [done|]; cbn; split; [left; by rewrite app_nil_r|done]|].
    destruct m as [|x m]; cbn.
    + destruct ac; cbn; eexists; (split; [done|]); cbn; (split; [left|done]); unfold nonempty in *;
        rewrite filter_app, Hw, filter_cons_False, filter_nil by naive_solver; done.
    + rewrite take_app_length. destruct ac; cbn; eexists; (split; [done|]); cbn; (split; [|done]); unfold nonempty in *;
        rewrite filter_app, Hw, filter_cons_True, filter_nil by done; [by left|right; split; [done|by eexists]].
  - destruct Hw as [Hw|[? _]]; [|done]. destruct ac; cbn; eexists; (split; [done|]); cbn; (split; [left|done]);
      by rewrite app_nil_r.
Qed.

(** Every datagram that is not empty is sent back, whole and to where it came from, in
    order, one at a time; nothing is done any more once the server has no operation
    under way. *)
Theorem udp_echoes accepted l d a : exists s, (new_server accepted ;;; run l) (Server d a None [] []) = Ret tt s /\
  replied s `prefix_of` nonempty (got s) /\ (op s <> None -> nonempty (got s) = replied s ++ sending s) /\
  (op s = None -> forall more, run more s = Ret tt s).
Proof.
  assert (H : forall l s, wf s -> exists s', run l s = Ret tt s' /\ wf s' /\ (op s = None -> s' = s)).
  { clear. induction l as [|e l IH]; intros s Hw; [by exists s|]. destruct (udp_exec e s Hw) as (s1 & H1 & Hw1 & Hn).
    cbn [run]. rewrite (bind_ret _ _ _ _ _ H1). destruct (IH s1 Hw1) as (s2 & H2 & Hw2 & Hn2). exists s2.
    split; [done|]. split; [done|]. intros E. specialize (Hn E) as ->. by apply Hn2. }
  assert (H0 : exists s0, new_server accepted (Server d a None [] []) = Ret tt s0 /\ wf s0).
  { unfold new_server, try_catch, post, ret. destruct accepted; eexists; (split; [done|]); by left. }
  destruct H0 as (s0 & H0 & Hw0). destruct (H l s0 Hw0) as (s & Hr & Hw & _). exists s. rewrite (bind_ret _ _ _ _ _ H0).
  split; [done|]. split; [destruct Hw as [-> |[_ ?]]; [by eexists|done]|]. split.
  - intros Ho. by destruct Hw as [?|[? _]].
  - intros Ho more. destruct (H more s Hw) as (s' & Hm & _ & He). by rewrite Hm, (He Ho).
Qed.

End Udp.

(** ** The client of the TCP server *)

Module TcpExample.

(** The message of the constructor: a struct of 8 bytes, of which the last two are not
    written ([padding]), and 124 times 10, in a buffer of 132 bytes. *)
Definition buffer_size : nat := 4 + 128.
Definition message (padding : list Z) : list Z := le_bytes 4 128 ++ le_bytes 2 1 ++ padding ++ replicate (128 - 4) 10.

Inductive operation := Connecting | Writing | Reading | Disconnecting.

(** [to_server], [from_server]: the bytes on the way; the server's session reads
    [block] bytes at a time and sends as many back. *)
Record client := Client { op : option operation; open_ : bool; to_server : nat; from_server : nat }.

Definition set_op o c := Client o (open_ c) (to_server c) (from_server c).
Definition post (accepted : bool) (o : operation) : prog client unit := fun c =>
  if accepted && open_ c then Ret tt (set_op (Some o) c) else Throw win32_exception c.
Definition async_disconnect (accepted : bool) : prog client unit := post accepted Disconnecting.

(** [accepted]: the operation was taken, and the one to disconnect after it. *)
Definition _OnConnect (accepted error : bool) : prog client unit :=
  if error then ret tt else try_catch (post accepted Writing) (fun _ => ret tt).
Definition on_done (next : operation) (accepted disconnects error : bool) (bytes : nat) : prog client unit :=
  try_catch (if (bytes =? 0)%nat || error then async_disconnect disconnects else post accepted next)
            (fun _ => async_disconnect disconnects).
Definition _HandleRead := on_done Writing.
Definition _HandleWrite := on_done Reading.
Definition _DisConnect : prog client unit := fun c => Ret tt (Client None false (to_server c) (from_server c)).

Definition block : nat := 1024.

(** What happens between the two, without errors: a write of transfer_all completes with
    the whole message on its way, a read with the whole buffer; the server reads a block
    when it is there. *)
Inductive step := Connected | Written | Read | Served.
Definition exec (s : step) : prog client unit := fun c =>
  match s, op c with
  | Connected, Some Connecting => _OnConnect true false c
  | Written, Some Writing => _HandleWrite true true false buffer_size (Client None (open_ c) (to_server c + buffer_size) (from_server c))
  | Read, Some Reading =>
      if (buffer_size <=? from_server c)%nat
      then _HandleRead true true false buffer_size (Client None (open_ c) (to_server c) (from_server c - buffer_size))
      else Ret tt c
  | Served, _ => if (block <=? to_server c)%nat then Ret tt (Client (op c) (open_ c) (to_server c - block) (from_server c + block)) else Ret tt c
  | _, _ => Ret tt c
  end.
Fixpoint run (l : list step) : prog client unit := match l with [] => ret tt | s :: l => exec s ;;; run l end.

(** The message names the number of bytes after its length. *)
Lemma message_framed padding : length padding = 2%nat ->
  length (message padding) = buffer_size /\
  le_value (take 4 (message padding)) = Z.of_nat (length (drop 4 (message padding))).
Proof. intros Hp. destruct padding as [|a [|b [|? ?]]]; try done. Qed.

(** The client waits for an answer of 132 bytes, the server for a block of 1024: after one
    message of the client nothing happens any more. *)
Theorem example_stops l : exists c, run l (Client (Some Connecting) true 0 0) = Ret tt c /\
  from_server c = 0%nat /\ (to_server c <= buffer_size)%nat.
Proof.
  assert (H : forall c, c = Client (Some Connecting) true 0 0 \/ c = Client (Some Writing) true 0 0 \/ c = Client (Some Reading) true 132 0 ->
    exists c', run l c = Ret tt c' /\ (c' = Client (Some Connecting) true 0 0 \/ c' = Client (Some Writing) true 0 0 \/ c' = Client (Some Reading) true 132 0)).
  { induction l as [|s l IH]; intros c Hc; [by exists c|]. cbn [run]. unfold bind.
    destruct Hc as [-> | [-> | ->]]; destruct s; cbn; apply IH; tauto. }
  destruct (H _ (or_introl eq_refl)) as (c & Hr & Hc). exists c. split; [done|]. unfold buffer_size. destruct Hc as [-> | [-> | ->]]; cbn; lia.
Qed.

End TcpExample.

(** ** The client of the discard server *)

Module DiscardClient.

(** [arriving]: what the server will send; [sent]: the messages that were sent; [reads]:
    how many reads have ended well. *)
Inductive operation := Connecting | Writing | Reading.
Record client := Client { buffer_ : list Z; op : option operation; arriving : list Z; sent : list (list Z); reads : nat }.

Definition set_op o c := Client (buffer_ c) o (arriving c) (sent c) (reads c).

(** What is refused throws, which is printed. *)
Definition post (accepted : bool) (o : operation) (c : client) : client := if accepted then set_op (Some o) c else c.

Definition Start (accepted : bool) : client -> client := post accepted Connecting.
Definition _OnConnect (error accepted : bool) (c : client) : client := if error then c else post accepted Writing c.
Definition _OnWrite (error accepted : bool) (c : client) : client := if error then c else post accepted Reading c.
Definition _OnRead (error accepted : bool) (c : client) : client := if error then c else post accepted Writing c.

(** The operation under way ends: a write with the whole buffer, a read with at least one
    of the bytes there are, in the front of the buffer. *)
Inductive event := Connected (error accepted : bool) | Written (error accepted : bool) | Read (n : nat) (accepted : bool) | ReadFails.
Definition exec (e : event) (c : client) : client :=
  match e, op c with
  | Connected error accepted, Some Connecting => _OnConnect error accepted (set_op None c)
  | Written error accepted, Some Writing =>
      _OnWrite error accepted (Client (buffer_ c) None (arriving c) (if error then sent c else sent c ++ [buffer_ c]) (reads c))
  | Read n accepted, Some Reading =>
      if (1 <=? n)%nat && (n <=? length (buffer_ c))%nat && (n <=? length (arriving c))%nat
      then _OnRead false accepted (Client (take n (arriving c) ++ drop n (buffer_ c)) None (drop n (arriving c)) (sent c) (S (reads c)))
      else c
  | ReadFails, Some Reading => _OnRead true true (set_op None c)
  | _, _ => c
  end.
Definition run (l : list event) (c : client) : client := foldl (fun c e => exec e c) c l.

Definition new_client (size : nat) (arriving : list Z) : client := Client (replicate size 0) None arriving [] 0.

Record wf (size total : nat) (c : client) : Prop := {
  wf_buffer : length (buffer_ c) = size;
  wf_sent : Forall (fun m => length m = size) (sent c);
  wf_turns : match op c with
             | Some Connecting => sent c = [] /\ reads c = 0%nat
             | Some Writing => length (sent c) = reads c
             | Some Reading => length (sent c) = S (reads c)
             | None => (length (sent c) <= S (reads c))%nat
             end;
  wf_bytes : (reads c + length (arriving c) <= total)%nat
}.

Lemma discard_exec size total e c : wf size total c -> wf size total (exec e c).
Proof.
  intros Hw. pose proof Hw as [Hb Hs Ht Hy]. destruct e as [er ac|er ac|n ac|]; cbn [exec];
    destruct (op c) as [[]|] eqn:E; try exact Hw.
  - destruct Ht as [H1 H2]. unfold _OnConnect, post. destruct er; [|destruct ac]; split; cbn in *; rewrite ?H1, ?H2 in *; cbn in *; done || lia.
  - unfold _OnWrite, post. destruct er; [|destruct ac]; split; cbn in *; rewrite ?length_app; cbn; try done; try lia;
      apply Forall_app; (split; [done|by constructor]).
  - destruct (_ && _) eqn:En; [|exact Hw]. apply andb_true_iff in En as [En H3]. apply andb_true_iff in En as [H1 H2].
    apply Nat.leb_le in H1, H2, H3.
    unfold _OnRead, post. destruct ac; split; cbn in *; rewrite ?length_app, ?length_take, ?length_drop; done || lia.
  - split; cbn in *; done || lia.
Qed.

(** Every message has the size of the buffer, and there is one more than the reads that
    have ended, each of which took at least a byte: a server that discards what it gets
    would be sent one message (Discard.cpp sends it back). *)
Theorem one_message size arriving accepted l : let c := run l (Start accepted (new_client size arriving)) in
  Forall (fun m => length m = size) (sent c) /\ (length (sent c) <= S (reads c))%nat /\
  (reads c <= length arriving)%nat /\ (arriving = [] -> (length (sent c) <= 1)%nat).
Proof.
  cbn zeta. assert (H : wf size (length arriving) (run l (Start accepted (new_client size arriving)))).
  { assert (H0 : wf size (length arriving) (Start accepted (new_client size arriving))).
    { destruct accepted; split; cbn; rewrite ?length_replicate; done || lia. }
    revert H0. generalize (Start accepted (new_client size arriving)). unfold run. induction l as [|e l IH]; intros c Hc; [done|].
    cbn [foldl]. by apply IH, discard_exec. }
  destruct H as [_ Hs Ht Hy]. assert (length (sent (run l (Start accepted (new_client size arriving)))) <= S (reads (run l (Start accepted (new_client size arriving)))))%nat
    by (destruct (op _) as [[]|] in Ht; [destruct Ht as [-> _]; cbn|..]; lia).
  split; [done|]. split; [lia|]. split; [lia|]. intros ->. cbn in Hy. lia.
Qed.

End DiscardClient.

(** ** Roundtrip *)

Module Roundtrip.

(** Example/Network/Roudtrip: the server reads every connection into one buffer.
    [completed]: a read has completed, with this size, and its handler has not run. *)
Record conn := Conn { reading : bool; completed : option nat; heard : list Z; told : list Z }.
Record server := Server { buf_ : list Z; conns : list conn }.

Definition new_conn (accepted : bool) : conn := Conn accepted None [] [].

(** The system fills the buffer. *)
Definition arrive (i : nat) (data : list Z) : prog server unit := fun s =>
  match conns s !! i with
  | Some (Conn true _ h t) =>
      Ret tt (Server (data ++ drop (length data) (buf_ s)) (<[i := Conn false (Some (length data)) (h ++ data) t]> (conns s)))
  | _ => Ret tt s
  end.

(** [OnRead]: a blocking write of transfer_all, and the next read, which may both throw. *)
Definition OnRead (i : nat) (err written accepted : bool) : prog server unit := fun s =>
  match conns s !! i with
  | Some (Conn r (Some size) h t) =>
      if err then Ret tt (Server (buf_ s) (<[i := Conn r None h t]> (conns s)))
      else if written then Ret tt (Server (buf_ s) (<[i := Conn accepted None h (t ++ take size (buf_ s))]> (conns s)))
      else Ret tt (Server (buf_ s) (<[i := Conn r None h t]> (conns s)))
  | _ => Ret tt s
  end.

Inductive event := Arrive (i : nat) (data : list Z) | Handled (i : nat) (err written accepted : bool).
Definition exec (e : event) : prog server unit :=
  match e with Arrive i data => arrive i data | Handled i err written accepted => OnRead i err written accepted end.
Fixpoint run (l : list event) : prog server unit := match l with [] => ret tt | e :: l => exec e ;;; run l end.

(** One connection is given the beginning of what it sent. *)
Definition single (s : server) : Prop := exists c, conns s = [c] /\
  match completed c with
  | Some n => (n <= length (buf_ s))%nat /\ reading c = false /\ told c ++ take n (buf_ s) = heard c
  | None => told c = heard c \/ reading c = false /\ told c `prefix_of` heard c
  end.

Lemma single_exec e s : single s -> exists s', exec e s = Ret tt s' /\ single s'.
Proof.
  intros (c & Hc & Hw). destruct s as [b cs]. cbn in *. subst cs. destruct c as [r co h t]. cbn in Hw.
  destruct e as [[|i] d|[|i] er w a]; unfold exec, arrive, OnRead; cbn; try (eexists; split; [done|]; by exists (Conn r co h t)).
  - destruct r; [|eexists; split; [done|]; by exists (Conn false co h t)]. eexists. split; [done|]. eexists. split; [done|]. cbn.
    destruct co as [n|]; [by destruct Hw as (_ & ? & _)|]. destruct Hw as [-> |[? _]]; [|done].
    rewrite length_app, take_app_length. split; [lia|done].
  - destruct co as [n|]; [|eexists; split; [done|]; by exists (Conn r None h t)]. destruct Hw as (_ & -> & Hh).
    destruct er, w; eexists; (split; [done|]); eexists; (split; [done|]); cbn; [right..|by left|right]; (split; [done|]); rewrite <- Hh; by eexists.
Qed.

Theorem one_connection l len s : run l (Server (replicate len 0) [new_conn true]) = Ret tt s ->
  exists c, conns s = [c] /\ told c `prefix_of` heard c.
Proof.
  assert (H : forall s, single s -> forall s', run l s = Ret tt s' -> single s').
  { clear. induction l as [|e l IH]; intros s Hs s' Hr; [by injection Hr as <-|]. destruct (single_exec e s Hs) as (s1 & H1 & Hs1).
    cbn [run] in Hr. rewrite (bind_ret _ _ _ _ _ H1) in Hr. by apply (IH s1). }
  intros Hr. destruct (H (Server (replicate len 0) [new_conn true])) with (s' := s) as (c & Hc & Hw); [|done|].
  { exists (new_conn true). split; [done|]. by left. }
  exists c. split; [done|]. destruct (completed c) as [n|]; [destruct Hw as (_ & _ & <-); by eexists|].
  destruct Hw as [-> |[_ ?]]; done.
Qed.

(** Two connections whose reads complete before their handlers run: the first is given
    what the second sent. *)
Theorem two_connections_mixed a b len : length a = len -> length b = len -> exists c d,
  run [Arrive 0 a; Arrive 1 b; Handled 0 false true true; Handled 1 false true true] (Server (replicate len 0) [new_conn true; new_conn true]) =
    Ret tt (Server b [c; d]) /\ heard c = a /\ told c = b /\ heard d = b /\ told d = b.
Proof.
  intros Ha Hb. unfold run, exec, bind, arrive, OnRead, new_conn. cbn.
  rewrite (drop_ge (replicate len 0)), app_nil_r by (rewrite length_replicate; lia).
  rewrite (drop_ge a), app_nil_r by lia. rewrite Ha, <- Hb, firstn_all. by eexists _, _.
Qed.

(** The client's measure: the tick count, which wraps, is sent and comes back. *)
Definition round_trip (sent back : Z) : Z := u32 (back - le_value (le_bytes 4 sent)).

Lemma round_trip_elapsed t elapsed : 0 <= elapsed < 4294967296 -> round_trip (u32 t) (u32 (t + elapsed)) = elapsed.
Proof.
  intros He. unfold round_trip. rewrite le_value_bytes_4 by apply u32_range. unfold wrap.
  rewrite <- Zminus_mod. replace (t + elapsed - t) with elapsed by lia. by apply Z.mod_small.
Qed.

End Roundtrip.

(** ** Concrete runs *)

Module Demo.

Definition served : Sessions.session := Sessions.Session [1; 2; 3; 4] true true (Some Sessions.Reading) 0 [1; 2; 3; 4] [1; 2; 3; 4].

Lemma session_echo_witness : Sessions.sent served `prefix_of` Sessions.received served /\
  (Sessions.op served <> None -> Sessions.sent served ++ Sessions.in_flight served = Sessions.received served) /\
  (Sessions.Tcp = Sessions.Tcp -> (Sessions.alive served = true <-> Sessions.op served <> None)).
Proof.
  apply (Sessions.session_echo Sessions.Tcp 4 true [Sessions.ReadDone false [1; 2; 3; 4] true; Sessions.WriteDone false 4 true] served);
    [|by vm_compute].
  apply Forall_cons; split; [cbn; split; [done|]; split; [lia|by right]|]. apply Forall_cons; split; [cbn; split; [done|lia]|constructor].
Defined.

Lemma tcp_sends_stale_witness :
  Sessions.exec Sessions.Tcp (Sessions.ReadDone true [9] true) (Sessions.Session [1; 2; 3] true true (Some Sessions.Reading) 0 [] []) =
    Ret tt (Sessions.Session [9; 2; 3] true true (Some (Sessions.Writing [9; 2; 3])) 0 [9] []).
Proof. apply (Sessions.tcp_sends_stale true [9] [1; 2; 3] [] []); [done|cbn; lia]. Defined.

Definition echoed : Roundtrip.server := Roundtrip.Server [5; 6] [Roundtrip.Conn true None [5; 6] [5; 6]].

Lemma one_connection_witness : exists c, Roundtrip.conns echoed = [c] /\ Roundtrip.told c `prefix_of` Roundtrip.heard c.
Proof.
  apply (Roundtrip.one_connection [Roundtrip.Arrive 0 [5; 6]; Roundtrip.Handled 0 false true true] 2 echoed). by vm_compute.
Defined.

Lemma two_connections_mixed_witness : exists c d,
  Roundtrip.run [Roundtrip.Arrive 0 [5; 6]; Roundtrip.Arrive 1 [7; 8]; Roundtrip.Handled 0 false true true; Roundtrip.Handled 1 false true true]
      (Roundtrip.Server [0; 0] [Roundtrip.new_conn true; Roundtrip.new_conn true]) = Ret tt (Roundtrip.Server [7; 8] [c; d]) /\
  Roundtrip.heard c = [5; 6] /\ Roundtrip.told c = [7; 8] /\ Roundtrip.heard d = [7; 8] /\ Roundtrip.told d = [7; 8].
Proof. by apply (Roundtrip.two_connections_mixed [5; 6] [7; 8] 2). Defined.

End Demo.
