(* ===== verification/Statistics.v ===== *)
(** * The statistics of the ping-pong clients

    performance/pingpong: [stats_t], the same class in both clients, to which the
    destructor of a session adds what the session has read; the class [client] of
    asio_pingpong/client.hpp over the sessions of AsioPingpong.v, and [client_start] of
    pingpong/pingping_cli.cpp. *)

From S2P Require Import Prelude Memory PingpongClient AsioPingpong.

Section Statistics.
Context (w : Z) (Hw : 0 < w).   (* the bits of size_t *)

Record stats_t := Stats { total_msgs_read_ : Z; total_bytes_read_ : Z }.

Definition new_stats : stats_t := Stats 0 0.

Definition add (msgs_read bytes_read : Z) (s : stats_t) : stats_t :=
  Stats (wrap w (total_msgs_read_ s + msgs_read)) (wrap w (total_bytes_read_ s + bytes_read)).

(** What was printed; the average divides the second by the first. *)
Definition print (s : stats_t) : Z * Z := (total_msgs_read_ s, total_bytes_read_ s).

Lemma add_wrapped a b m n : add a b (Stats (wrap w m) (wrap w n)) = Stats (wrap w (m + a)) (wrap w (n + b)).
Proof. unfold add, wrap. cbn. by rewrite !Zplus_mod_idemp_l. Qed.

Lemma new_stats_wrapped : new_stats = Stats (wrap w 0) (wrap w 0).
Proof. unfold wrap. by rewrite Z.mod_0_l by (apply Z.pow_nonzero; lia). Qed.

(** ** The boost.asio client *)

Section Asio.
Context {endpoint : Type}.

(** [~session]. *)
Definition destroy_session (s : AsioPingpong.client_session (endpoint := endpoint)) (st : stats_t) : stats_t :=
  add (read_msgs_cnt_ s) (bytes_read_ s) st.

(** [~client]: every session is deleted, from the front, and what they have added is
    printed. *)
Fixpoint destroy_client (sessions_ : list (AsioPingpong.client_session (endpoint := endpoint))) (st : stats_t) : Z * Z :=
  match sessions_ with
  | [] => print st
  | s :: rest => destroy_client rest (destroy_session s st)
  end.

Definition sum (f : AsioPingpong.client_session (endpoint := endpoint) -> Z) : list AsioPingpong.client_session -> Z :=
  foldr (fun s n => f s + n) 0.

(** The totals of all sessions are printed, modulo the width of [size_t]. *)
Theorem asio_prints_totals sessions :
  destroy_client sessions new_stats = (wrap w (sum read_msgs_cnt_ sessions), wrap w (sum bytes_read_ sessions)).
Proof.
  assert (H : forall l m n, destroy_client l (Stats (wrap w m) (wrap w n)) =
    (wrap w (m + sum read_msgs_cnt_ l), wrap w (n + sum bytes_read_ l))).
  { induction l as [|s l IH]; intros m n; cbn [destroy_client sum foldr]; [unfold print; cbn; by rewrite !Z.add_0_r|].
    unfold destroy_session. rewrite add_wrapped, IH. unfold sum. by rewrite !Z.add_assoc. }
  rewrite new_stats_wrapped, H. by rewrite !Z.add_0_l.
Qed.

(** ** The class client *)

Context (block_size_ : Z) (Hbs : 0 < block_size_).

(** The two blocks of [new] with what is in the memory, and what the peer will send. *)
Record allocation := Alloc { read_block : Z; write_block : Z; memory : heap; peer : list Z }.

Definition pattern : list Z := map (fun i => Z.of_nat i mod 128) (seq 0 (Z.to_nat block_size_)).

(** [session]. *)
Definition session (a : allocation) : AsioPingpong.client_session (endpoint := endpoint) :=
  Client (Connection (store (write_block a) pattern (memory a)) (peer a) [] [] [] (read_block a) 0 (write_block a) 0) None 0 0 0 0.

(** [client]: the sessions are made and started one after the other. *)
Fixpoint construct (endpoints : list endpoint) (l : list allocation) : prog (list client_session) unit :=
  match l with
  | [] => ret tt
  | a :: rest => (fun ss =>
      match AsioPingpong.client_start endpoints (session a) with
      | Ret _ s => Ret tt (ss ++ [s])
      | Throw e s => Throw e (ss ++ [s])
      | UB => UB
      | OutOfFuel => OutOfFuel
      end) ;;; construct endpoints rest
  end.

Definition handle_timeout (ss : list client_session) : list (client_session (endpoint := endpoint)) :=
  map (fun s => match client_stop s with Ret _ s' => s' | _ => s end) ss.

(** Something happens to one session, or the timer expires. *)
Inductive client_step := Session (i : nat) (e : AsioPingpong.client_event) | Timeout.

Definition step_client (e : client_step) : prog (list client_session) unit := fun ss =>
  match e with
  | Session i e =>
      match ss !! i with
      | None => Ret tt ss
      | Some s =>
          match client_exec w block_size_ e s with
          | Ret _ s => Ret tt (<[i := s]> ss)
          | Throw x s => Throw x (<[i := s]> ss)
          | UB => UB
          | OutOfFuel => OutOfFuel
          end
      end
  | Timeout => Ret tt (handle_timeout ss)
  end.
Fixpoint run_client (l : list client_step) : prog (list client_session) unit :=
  match l with [] => ret tt | e :: l => step_client e ;;; run_client l end.

(** The blocks of a session do not overlap. *)
Definition blocks_apart (a : allocation) : Prop :=
  read_block a + block_size_ <= write_block a \/ write_block a + block_size_ <= read_block a.

Definition session_of (a : allocation) (s : AsioPingpong.client_session (endpoint := endpoint)) : Prop :=
  client_in w block_size_ (cconn (session a)) s.

Lemma session_fresh a : blocks_apart a -> fresh block_size_ (cconn (session a)).
Proof. done. Qed.

Lemma exec_session a e s : blocks_apart a -> session_of a s ->
  exists s', client_exec w block_size_ e s = Ret tt s' /\ session_of a s'.
Proof.
  intros Ha Hs. destruct (client_run_ok w block_size_ Hbs [e] _ s (session_fresh a Ha) Hs) as (s' & Hr & Hs').
  cbn [client_run] in Hr. apply bind_Ret_inv in Hr as ([] & s1 & H1 & [= <-]). by exists s1.
Qed.

Lemma step_sessions l e ss : Forall blocks_apart l -> Forall2 session_of l ss ->
  exists ss', step_client e ss = Ret tt ss' /\ Forall2 session_of l ss'.
Proof.
  intros Hl Hs. destruct e as [i e|]; cbn [step_client].
  - destruct (ss !! i) as [s|] eqn:E; [|by exists ss]. destruct (Forall2_lookup_r _ _ _ _ _ Hs E) as (a & Ea & Ha).
    destruct (exec_session a e s) as (s' & -> & Hs'); [by eapply (proj1 (Forall_lookup _ _) Hl)|done|].
    eexists. split; [done|]. rewrite <- (list_insert_id l i a Ea). by apply Forall2_insert.
  - eexists. split; [done|]. clear Hl. induction Hs as [|a s l ss Ha _ IH]; [constructor|]. constructor; [|exact IH].
    destruct Ha as [Ha|(H1 & H2 & H3 & H4)]; [by left|by right].
Qed.

Lemma run_sessions l events ss : Forall blocks_apart l -> Forall2 session_of l ss ->
  exists ss', run_client events ss = Ret tt ss' /\ Forall2 session_of l ss'.
Proof.
  intros Hl. revert ss. induction events as [|e events IH]; intros ss Hs; [by exists ss|].
  destruct (step_sessions l e ss Hl Hs) as (s1 & H1 & Hs1). cbn [run_client]. rewrite (bind_ret _ _ _ _ _ H1). by apply IH.
Qed.

Lemma construct_sessions endpoints l old ss : endpoints <> [] -> Forall2 session_of old ss ->
  exists ss', construct endpoints l ss = Ret tt ss' /\ Forall2 session_of (old ++ l) ss'.
Proof.
  intros He. revert old ss. induction l as [|a l IH]; intros old ss Hs; [exists ss; by rewrite app_nil_r|].
  destruct endpoints as [|e rest]; [done|]. cbn [construct]. unfold bind, AsioPingpong.client_start, set_connecting.
  replace (old ++ a :: l) with ((old ++ [a]) ++ l) by by rewrite <- app_assoc. apply IH.
  apply Forall2_app; [done|]. repeat constructor.
Qed.

(** What a session took from its connection. *)
Definition took (a : allocation) (k : nat) (s : AsioPingpong.client_session (endpoint := endpoint)) : Prop :=
  (k <= length (peer a))%nat /\ arriving (cconn s) = drop k (peer a).

Lemma session_took a s : session_of a s -> exists k, took a k s /\ bytes_read_ s = wrap w (Z.of_nat k).
Proof.
  intros [[Hc Hb]|(_ & _ & _ & k & Hk & Ha & Hb)].
  - exists 0%nat. unfold took. rewrite Hc, Hb. split; [split; [lia|done]|]. unfold wrap. by rewrite Zmod_0_l.
  - by exists k.
Qed.

Lemma sessions_took l ss : Forall2 session_of l ss -> exists ks, Forall3 took l ks ss /\
  wrap w (sum bytes_read_ ss) = wrap w (foldr (fun k n => Z.of_nat k + n) 0 ks).
Proof.
  induction 1 as [|a s l ss Ha _ (ks & H1 & H2)]; [exists []; split; [constructor|done]|].
  destruct (session_took a s Ha) as (k & Hk & Hb). exists (k :: ks). split; [by constructor|].
  cbn [sum foldr]. fold (sum bytes_read_ ss). unfold wrap in *. rewrite Hb, Z.add_mod_idemp_l by lia.
  by rewrite Zplus_mod, H2, <- Zplus_mod.
Qed.

(** However many sessions the client starts and whatever happens to them, the bytes it
    prints are those that its sessions took from their connections. *)
Theorem client_prints_what_was_read endpoints l events : endpoints <> [] -> Forall blocks_apart l ->
  exists ss ks, (construct endpoints l ;;; run_client events) [] = Ret tt ss /\ Forall3 took l ks ss /\
    (destroy_client ss new_stats).2 = wrap w (foldr (fun k n => Z.of_nat k + n) 0 ks).
Proof.
  intros He Hl. destruct (construct_sessions endpoints l [] [] He ltac:(constructor)) as (s1 & H1 & Hs1).
  destruct (run_sessions l events s1 Hl Hs1) as (ss & H2 & Hs). destruct (sessions_took l ss Hs) as (ks & Hk & Hsum).
  exists ss, ks. rewrite (bind_ret _ _ _ _ _ H1). split; [done|]. split; [done|]. by rewrite asio_prints_totals.
Qed.

End Asio.

(** ** client_start *)

(** [sessions]: the list of plain pointers; [lost]: the sessions nothing points to any
    more; [running]: the dispatcher runs handlers. *)
Record program := Program { sessions : list session_t; lost : list session_t; stats : stats_t; running : bool }.

(** [~session_t], which nothing calls. *)
Definition destroy_session_t (s : session_t) (st : stats_t) : stats_t := add (read_msg_cnt_ s) (read_bytes_ s) st.

(** The handler of the timer: it empties the list of pointers. *)
Definition on_timer (p : program) : program := Program [] (lost p ++ sessions p) (stats p) false.

Context (block_size : Z).

(** The connection of a session is made, something happens to it, or the timer expires;
    the timer and the sessions run until a key is pressed. *)
Inductive event := Connects (i : nat) (suc : bool) | Happens (i : nat) (e : PingpongClient.event) | Expires.

Definition on_session (f : session_t -> session_t) (i : nat) (p : program) : program :=
  if running p then Program (alter f i (sessions p)) (lost p) (stats p) (running p) else p.
Definition exec (e : event) (p : program) : program :=
  match e with
  | Connects i suc => on_session (PingpongClient.on_connect (PingpongClient.request block_size) suc) i p
  | Happens i e => on_session (PingpongClient.exec block_size e) i p
  | Expires => on_timer p
  end.

Definition client_start (l : list session_t) (events : list event) : program :=
  foldl (fun p e => exec e p) (Program l [] new_stats true) events.

(** However much the sessions read, and whether the time is over or not, zero messages
    and zero bytes are printed: no session is ever deleted. *)
Theorem nothing_is_printed l events : let p := client_start l events in
  print (stats p) = (0, 0) /\ length (sessions p ++ lost p) = length l.
Proof.
  assert (H : forall p, print (stats p) = (0, 0) -> let p' := foldl (fun p e => exec e p) p events in
    print (stats p') = (0, 0) /\ length (sessions p' ++ lost p') = length (sessions p ++ lost p)).
  { induction events as [|e es IH]; intros p Hp; [done|]. cbn [foldl].
    assert (He : stats (exec e p) = stats p /\ length (sessions (exec e p) ++ lost (exec e p)) = length (sessions p ++ lost p)).
    { destruct e as [i suc|i e|]; cbn [exec]; unfold on_session, on_timer; try destruct (running p); try done;
        cbn [sessions lost stats]; rewrite ?length_app, ?length_alter; cbn; split; done || lia. }
    destruct He as [Hs Hl]. rewrite <- Hl. apply IH. by rewrite Hs. }
  destruct (H (Program l [] new_stats true) eq_refl) as [H1 H2]. split; [exact H1|]. cbn [sessions lost] in H2. by rewrite app_nil_r in H2.
Qed.

(** What the destructors would have added. *)
Theorem deleted_sessions_count l : let st := foldl (fun st s => destroy_session_t s st) new_stats l in
  total_msgs_read_ st = wrap w (foldr (fun s n => read_msg_cnt_ s + n) 0 l) /\
  total_bytes_read_ st = wrap w (foldr (fun s n => read_bytes_ s + n) 0 l).
Proof.
  assert (H : forall l m n, let st := foldl (fun st s => destroy_session_t s st) (Stats (wrap w m) (wrap w n)) l in
    total_msgs_read_ st = wrap w (m + foldr (fun s n => read_msg_cnt_ s + n) 0 l) /\
    total_bytes_read_ st = wrap w (n + foldr (fun s n => read_bytes_ s + n) 0 l)).
  { clear l. induction l as [|s l IH]; intros m n; cbn [foldl foldr]; [by rewrite !Z.add_0_r|].
    unfold destroy_session_t at 2 4. rewrite add_wrapped. destruct (IH (m + read_msg_cnt_ s) (n + read_bytes_ s)) as [H1 H2].
    by rewrite !Z.add_assoc. }
  cbn zeta. rewrite new_stats_wrapped. destruct (H l 0 0) as [H1 H2]. by rewrite !Z.add_0_l in H1, H2.
Qed.

End Statistics.

Module Demo.

Definition first : allocation := Alloc 100 200 (fun _ => 0) [11; 12; 13; 14; 15].
Definition second : allocation := Alloc 300 304 (fun _ => 0) [21; 22].

Definition talk : list client_step :=
  [Session 0 (Connected true); Session 1 ConnectFails; Session 1 (Connected true); Session 0 (Socket (Received 4 []));
   Session 1 (Socket (Received 2 [])); Timeout; Session 0 Closes; Session 0 (Socket ReadFails)].

Lemma client_prints_what_was_read_witness :
  (exists ss ks, (construct 4 [1; 2] [first; second] ;;; run_client 32 4 talk) [] = Ret tt ss /\
    Forall3 took [first; second] ks ss /\ (destroy_client 32 ss new_stats).2 = wrap 32 (foldr (fun k n => Z.of_nat k + n) 0 ks)) /\
  match (construct 4 [1; 2] [first; second] ;;; run_client 32 4 talk) [] with
  | Ret _ ss => destroy_client 32 ss new_stats = (2, 6)
  | _ => False
  end.
Proof.
  split; [|by vm_compute]. apply (client_prints_what_was_read 32 ltac:(lia) 4 ltac:(lia) [1; 2] [first; second] talk); [done|].
  apply Forall_cons. split; [left; cbn; lia|]. apply Forall_cons. split; [left; cbn; lia|constructor].
Defined.

Lemma deleted_sessions_count_witness :
  let s := PingpongClient.Session (fun _ => 0) [] [] [] [] [] false 0 0 70 0 7 in
  total_msgs_read_ (foldl (fun st s => destroy_session_t 32 s st) new_stats [s; s]) = 14.
Proof. cbn zeta. rewrite (proj1 (deleted_sessions_count 32 ltac:(lia) _)). reflexivity. Defined.

End Demo.
