(* ===== verification/Timer.v ===== *)
(** * Timers

    include/async_io/timer/impl: [timer_service_t], [waitable_timer_t] and
    [basic_timer_t]. One thread waits for the update event and for every timer, and
    posts the handlers of those that expire; clients add, arm and erase timers under
    the lock while it runs. *)

From S2P Require Import Prelude.

(** ** State *)

(** [waitable_timer_t]: [armed], the state of the kernel's timer. *)
Record waitable_timer := Timer { period_ : Z; due_ : Z; armed : bool }.

(** Where the thread of [_ThreadCallback] is: at the wait, at [_Copy], at the test of
    the index, at the lock, at [io_.post] with the callback of a timer and the lock
    released, or gone. *)
Inductive pc :=
| At_wait
| At_copy
| At_check (res : nat)
| At_lock (res : nat)
| At_post (id : Z)
| Exited.

(** [timers_] in the order of its keys, the handles. [handles]: the thread's vector;
    [None] is [update_]. [signalled]: the kernel timers that are signalled, which a
    wait resets. [posted]: the handlers given to the dispatcher. A timer's handle is
    closed when it leaves [timers_]. *)
Record service := Service {
  timers_ : list (Z * waitable_timer);
  update_ : bool;
  signalled : list Z;
  handles : list (option Z);
  where_ : pc;
  posted : list Z
}.

Definition set_timers l s := Service l (update_ s) (signalled s) (handles s) (where_ s) (posted s).
Definition set_update b s := Service (timers_ s) b (signalled s) (handles s) (where_ s) (posted s).
Definition set_signalled l s := Service (timers_ s) (update_ s) l (handles s) (where_ s) (posted s).
Definition set_handles l s := Service (timers_ s) (update_ s) (signalled s) l (where_ s) (posted s).
Definition set_where p s := Service (timers_ s) (update_ s) (signalled s) (handles s) p (posted s).
Definition set_posted l s := Service (timers_ s) (update_ s) (signalled s) (handles s) (where_ s) l.

Definition ids (s : service) : list Z := map fst (timers_ s).

(** [timers_.find], [insert] and [erase]. *)
Fixpoint find_timer (id : Z) (l : list (Z * waitable_timer)) : option waitable_timer :=
  match l with
  | [] => None
  | (k, t) :: l' => if k =? id then Some t else find_timer id l'
  end.
Fixpoint insert_timer (id : Z) (t : waitable_timer) (l : list (Z * waitable_timer)) : list (Z * waitable_timer) :=
  match l with
  | [] => [(id, t)]
  | (k, t') :: l' =>
      if k =? id then l else if id <? k then (id, t) :: l else (k, t') :: insert_timer id t l'
  end.
Definition erase_entry (id : Z) (l : list (Z * waitable_timer)) : list (Z * waitable_timer) :=
  filter (fun kt => kt.1 <> id) l.
Definition update_entry (id : Z) (f : waitable_timer -> waitable_timer) (l : list (Z * waitable_timer)) :
    list (Z * waitable_timer) :=
  map (fun kt => if kt.1 =? id then (kt.1, f kt.2) else kt) l.

Definition remove_id (id : Z) (l : list Z) : list Z := filter (fun x => x <> id) l.

(** ** [waitable_timer_t] *)

(** [dueTime.QuadPart], a [long long]; an overflow is undefined. *)
Definition due_time (delay : Z) : option Z :=
  let d := - (delay * 10000) in
  if (- 2 ^ 63 <=? delay * 10000) && (delay * 10000 <? 2 ^ 63) && (d <? 2 ^ 63) then Some d else None.

Definition set_timer (period delay : Z) (t : waitable_timer) : option waitable_timer :=
  match due_time delay with Some _ => Some (Timer period delay true) | None => None end.

(** ** What clients do *)

Definition MAXIMUM_WAIT_OBJECTS : Z := 64.

(** [add_timer], up to the end of its lock, with the handle the system gave. *)
Definition add_timer (id period due : Z) : prog service unit := fun s =>
  if bool_decide (id ∈ ids s) then Ret tt s
  else if MAXIMUM_WAIT_OBJECTS <? Z.of_nat (length (timers_ s)) then Throw out_of_range s
  else Ret tt (set_timers (insert_timer id (Timer period due false) (timers_ s)) s).

(** [erase_timer], up to the end of its lock: the timer is cancelled and closed. *)
Definition erase_timer (id : Z) : prog service unit := fun s =>
  Ret tt (set_signalled (remove_id id (signalled s)) (set_timers (erase_entry id (timers_ s)) s)).

(** [update_.set_event()], after the lock of either. *)
Definition set_event : prog service unit := fun s => Ret tt (set_update true s).

(** [async_wait]: arming a timer resets it. *)
Definition async_wait (id : Z) : prog service unit := fun s =>
  match find_timer id (timers_ s) with
  | None => Ret tt s
  | Some t =>
      match set_timer (period_ t) (due_ t) t with
      | None => UB
      | Some t' => Ret tt (set_signalled (remove_id id (signalled s))
                     (set_timers (update_entry id (fun _ => t') (timers_ s)) s))
      end
  end.

(** The kernel: an armed timer expires; without a period it does so once. *)
Definition expire (id : Z) : prog service unit := fun s =>
  match find_timer id (timers_ s) with
  | Some t =>
      if armed t
      then Ret tt (set_signalled (remove_id id (signalled s) ++ [id])
             (set_timers (update_entry id
                (fun t => Timer (period_ t) (due_ t) (negb (period_ t =? 0))) (timers_ s)) s))
      else Ret tt s
  | None => Ret tt s
  end.

(** ** The thread *)

Inductive wait_result := Blocked | Failed | Index (res : nat).

Definition is_signalled (s : service) (h : option Z) : bool :=
  match h with None => update_ s | Some id => bool_decide (id ∈ signalled s) end.
Definition is_valid (s : service) (h : option Z) : bool :=
  match h with None => true | Some id => bool_decide (id ∈ ids s) end.

Fixpoint first_signalled (s : service) (i : nat) (l : list (option Z)) : wait_result :=
  match l with
  | [] => Blocked
  | h :: l' => if is_signalled s h then Index i else first_signalled s (S i) l'
  end.

(** [WaitForMultipleObjectsEx]: at most 64 handles, all of them open. *)
Definition wait (s : service) : wait_result :=
  if MAXIMUM_WAIT_OBJECTS <? Z.of_nat (length (handles s)) then Failed
  else if forallb (is_valid s) (handles s) then first_signalled s 0 (handles s)
  else Failed.

(** The signal of the object waited for is used up. *)
Definition consume (res : nat) (s : service) : service :=
  match handles s !! res with
  | Some (Some id) => set_signalled (remove_id id (signalled s)) s
  | Some None => set_update false s
  | None => s
  end.

Definition _Copy (s : service) : service := set_handles (None :: map Some (ids s)) s.

(** One step of [_ThreadCallback], between two others of which clients may come. *)
Definition thread_step : prog service unit := fun s =>
  match where_ s with
  | At_wait =>
      match wait s with
      | Blocked => Ret tt s
      | Failed => Ret tt (set_where At_copy s)
      | Index res =>
          Ret tt (set_where (if (res =? 0)%nat then At_copy else At_check res) (consume res s))
      end
  | At_copy => Ret tt (set_where At_wait (_Copy s))
  | At_check res =>
      if Z.of_nat (length (timers_ s)) <? Z.of_nat res then Ret tt (set_where At_wait s)
      else Ret tt (set_where (At_lock res) s)
  | At_lock res =>
      match handles s !! res with
      | Some (Some id) =>
          Ret tt (set_where (if bool_decide (id ∈ ids s) then At_post id else At_wait) s)
      | Some None => Ret tt (set_where At_wait s)
      | None => UB
      end
  | At_post id => Ret tt (set_where At_wait (set_posted (posted s ++ [id]) s))
  | Exited => Ret tt s
  end.

(** The APC of [stop], which a waiting thread takes. *)
Definition apc : prog service unit := fun s =>
  match where_ s with At_wait => Ret tt (set_where Exited s) | _ => Ret tt s end.

Inductive event :=
| Add (id period due : Z) | Erase (id : Z) | Set_event | Wait (id : Z)
| Expire (id : Z) | Thread | Stop.

Definition exec (e : event) : prog service unit :=
  match e with
  | Add id period due => add_timer id period due
  | Erase id => erase_timer id
  | Set_event => set_event
  | Wait id => async_wait id
  | Expire id => expire id
  | Thread => thread_step
  | Stop => apc
  end.

Fixpoint run (events : list event) (s : service) : option service :=
  match events with
  | [] => Some s
  | e :: events' =>
      match exec e s with
      | Ret _ s' | Throw _ s' => run events' s'
      | _ => None
      end
  end.

Definition init : service := Service [] false [] [None] At_wait [].

(** ** A timer that is gone is quiet *)

Lemma ids_insert id t l : forall x, x ∈ map fst (insert_timer id t l) <-> x = id \/ x ∈ map fst l.
Proof.
  induction l as [|[k u] l IH]; intros x; cbn.
  - set_solver.
  - destruct (k =? id) eqn:E; bool_props; cbn; [set_solver|].
    destruct (id <? k); cbn; rewrite ?elem_of_cons; [set_solver|]. rewrite IH. set_solver.
Qed.

Lemma ids_update id f l : map fst (update_entry id f l) = map fst l.
Proof.
  unfold update_entry. rewrite map_map. apply map_ext. intros [k t]. cbn. by destruct (k =? id).
Qed.

Lemma ids_erase id l x : x ∈ map fst (erase_entry id l) -> x ∈ map fst l /\ x <> id.
Proof.
  unfold erase_entry. intros Hin. apply list_elem_of_In, in_map_iff in Hin as ([k t] & <- & Hin).
  apply list_elem_of_In, list_elem_of_filter in Hin as [Hne Hin]. split; [|done].
  apply list_elem_of_In, in_map_iff. exists (k, t). split; [done|]. by apply list_elem_of_In.
Qed.

Definition posts (id : Z) (s : service) : list Z := filter (fun x => x = id) (posted s).

Definition no_add (id : Z) (e : event) : Prop := match e with Add id' _ _ => id' <> id | _ => True end.

(** What the thread has looked up and not yet posted. *)
Definition coming (id : Z) (s : service) : list Z :=
  match where_ s with At_post id' => filter (fun x => x = id) [id'] | _ => [] end.

(** From [s] to [s'] the thread posted nothing, or what it had looked up. *)
Definition later (id : Z) (s s' : service) : Prop :=
  posts id s' = posts id s /\ coming id s' = coming id s \/
  coming id s' = [] /\ posts id s' = posts id s ++ coming id s.

Lemma later_refl id s s' : posted s' = posted s -> where_ s' = where_ s -> later id s s'.
Proof. intros E1 E2. left. unfold posts, coming. by rewrite E1, E2. Qed.

Lemma later_trans id s1 s2 s3 : later id s1 s2 -> later id s2 s3 -> later id s1 s3.
Proof.
  intros [[E1 E2]|[E1 E2]] [[E3 E4]|[E3 E4]]; [left|right|right|right]; split; rewrite ?E3, ?E4, ?E1, ?E2, ?app_nil_r; done.
Qed.

Lemma thread_gone id s s' : id ∉ ids s ->
  thread_step s = Ret tt s' \/ (exists x, thread_step s = Throw x s') -> id ∉ ids s' /\ later id s s'.
Proof.
  intros Hid He. unfold thread_step in He. unfold later, coming.
  destruct (where_ s) as [| |res|res|id'|] eqn:Ew.
  - destruct (wait s) as [| |res]; destruct He as [[= <-]|[x [=]]]; [rewrite Ew; auto|auto|].
    unfold consume. destruct (handles s !! res) as [[id'|]|]; destruct (res =? 0)%nat; auto.
  - destruct He as [[= <-]|[x [=]]]. auto.
  - destruct (_ <? _); destruct He as [[= <-]|[x [=]]]; auto.
  - destruct (handles s !! res) as [[id'|]|]; destruct He as [He|[x He]]; try done;
      injection He as <-; [|auto].
    split; [done|]. left. split; [done|]. cbn [where_ set_where]. case_bool_decide as Hin; [|done].
    rewrite filter_cons_False; [done|]. by intros ->.
  - destruct He as [[= <-]|[x [=]]]. split; [done|]. right. split; [done|].
    unfold posts. cbn [posted set_where set_posted]. by rewrite filter_app.
  - destruct He as [[= <-]|[x [=]]]. rewrite Ew. auto.
Qed.

Lemma exec_gone e id s s' : no_add id e -> id ∉ ids s ->
  exec e s = Ret tt s' \/ (exists x, exec e s = Throw x s') ->
  id ∉ ids s' /\ later id s s'.
Proof.
  intros Hn Hid He. destruct e as [id' p d|id'| |id'|id'| |]; cbn [exec] in He.
  - unfold add_timer in He.
    destruct (bool_decide _); [destruct He as [[= <-]|[x [=]]]; split; [done|by apply later_refl]|].
    destruct (_ <? _); [destruct He as [[=]|[x [= _ <-]]]; split; [done|by apply later_refl]|].
    destruct He as [[= <-]|[x [=]]]. split; [|by apply later_refl]. unfold ids. cbn. rewrite ids_insert.
    cbn in Hn. by intros [->|?].
  - destruct He as [[= <-]|[x [=]]]. split; [|by apply later_refl]. by intros [? _] % ids_erase.
  - destruct He as [[= <-]|[x [=]]]. split; [done|by apply later_refl].
  - unfold async_wait in He.
    destruct (find_timer _ _); [|destruct He as [[= <-]|[x [=]]]; split; [done|by apply later_refl]].
    destruct (set_timer _ _ _); [|by destruct He as [[=]|[x [=]]]].
    destruct He as [[= <-]|[x [=]]]. split; [|by apply later_refl]. unfold ids. cbn. by rewrite ids_update.
  - unfold expire in He.
    destruct (find_timer _ _) as [t|]; [|destruct He as [[= <-]|[x [=]]]; split; [done|by apply later_refl]].
    destruct (armed t); destruct He as [[= <-]|[x [=]]]; (split; [|by apply later_refl]); [|done].
    unfold ids. cbn. by rewrite ids_update.
  - by apply thread_gone.
  - unfold apc in He. destruct (where_ s) eqn:Ew; destruct He as [[= <-]|[x [=]]]; (split; [done|]);
      try (by apply later_refl). left. unfold coming. by rewrite Ew.
Qed.

(** [C22] Once [erase_timer] has released its lock, until a timer is added with the same
    handle: nothing posts the handler of that timer again, whatever the thread was
    doing, unless it had looked the handler up before and released its lock
    ([At_post]); then the handler is posted once more at most. *)
Theorem erased_is_quiet id events s s1 s2 : erase_timer id s = Ret tt s1 ->
  Forall (no_add id) events -> run events s1 = Some s2 ->
  (where_ s <> At_post id -> posts id s2 = posts id s) /\
  (posts id s2 = posts id s \/ posts id s2 = posts id s ++ [id]).
Proof.
  intros He Hn Hr. assert (Hl : later id s s2).
  { assert (H1 : id ∉ ids s1 /\ later id s s1).
    { injection He as <-. split; [|by apply later_refl]. by intros [_ ?] % ids_erase. }
    destruct H1 as [Hid Hl]. clear He. revert s1 Hid Hl Hr.
    induction Hn as [|e events Hn _ IH]; intros s1 Hid Hl Hr; cbn [run] in Hr; [by injection Hr as <-|].
    destruct (exec e s1) as [[] s3|x s3| |] eqn:E; try done;
      (destruct (exec_gone e id s1 s3 Hn Hid) as [Hid3 Hl3]; [by eauto|]);
      (eapply IH; [exact Hid3|by eapply later_trans|exact Hr]). }
  assert (Hc : coming id s = [] \/ where_ s = At_post id /\ coming id s = [id]).
  { unfold coming. destruct (where_ s) as [| | | |id'|]; auto.
    destruct (decide (id' = id)) as [->|Hne]; [right|left].
    - by rewrite filter_cons_True.
    - by rewrite filter_cons_False. }
  destruct Hl as [[Hp _]|[_ Hp]]; [by split; [|left]|].
  destruct Hc as [Hc|[Hw Hc]]; rewrite Hc in Hp.
  - rewrite app_nil_r in Hp. by split; [|left].
  - by split; [|right].
Qed.

(** ** An undisturbed thread *)

(** The thread's handles are those of the timers, and no change is announced. *)
Definition settled (s : service) : Prop :=
  handles s = None :: map Some (ids s) /\ update_ s = false /\ where_ s = At_wait /\
  NoDup (ids s) /\ Z.of_nat (length (timers_ s)) < MAXIMUM_WAIT_OBJECTS.

Lemma first_signalled_split s i a id b :
  Forall (fun x => x ∉ signalled s) a -> id ∈ signalled s ->
  first_signalled s i (map Some (a ++ id :: b)) = Index (i + length a).
Proof.
  intros Ha Hid. revert i. induction Ha as [|x a Hx Ha IH]; intros i; cbn.
  - rewrite bool_decide_eq_true_2 by done. f_equal. lia.
  - rewrite bool_decide_eq_false_2 by done. rewrite IH. f_equal. lia.
Qed.

Lemma first_of s : signalled s <> [] -> Forall (fun x => x ∈ ids s) (signalled s) ->
  exists a id b, ids s = a ++ id :: b /\ Forall (fun x => x ∉ signalled s) a /\ id ∈ signalled s.
Proof.
  intros Hne Hin. destruct (signalled s) as [|y l] eqn:E; [done|].
  assert (Hy : y ∈ ids s) by (by inversion Hin).
  clear Hne Hin. revert Hy. generalize (ids s). intros k. induction k as [|x k IH]; intros Hy; [by apply elem_of_nil in Hy|].
  destruct (decide (x ∈ y :: l)) as [Hx|Hx]; [by exists [], x, k|].
  apply elem_of_cons in Hy as [->|Hy]; [by destruct Hx; left|].
  destruct (IH Hy) as (a & id & b & -> & Ha & Hid). exists (x :: a), id, b.
  split_and!; [done|by constructor|done].
Qed.

Lemma settled_valid s : handles s = None :: map Some (ids s) -> forallb (is_valid s) (handles s) = true.
Proof.
  intros ->. apply forallb_forall. intros [x|] Hx; [|done]. cbn. apply bool_decide_eq_true_2, list_elem_of_In.
  destruct Hx as [?|Hx]; [done|]. by apply in_map_iff in Hx as (y & [= ->] & Hy).
Qed.

(** A settled thread that waits gets the first signalled timer. *)
Lemma settled_wait s a id b : settled s -> ids s = a ++ id :: b ->
  Forall (fun x => x ∉ signalled s) a -> id ∈ signalled s ->
  wait s = Index (S (length a)) /\ handles s !! S (length a) = Some (Some id).
Proof.
  intros (Hh & Hu & Hw & Hn & Hl) Hids Ha Hid. split.
  - unfold wait. rewrite settled_valid by done. rewrite Hh. cbn [length].
    rewrite length_map. unfold ids at 1. rewrite length_map.
    rewrite (proj2 (Z.ltb_ge _ _)) by (unfold MAXIMUM_WAIT_OBJECTS in *; lia).
    cbn [first_signalled is_signalled]. rewrite Hu, Hids. by apply first_signalled_split.
  - rewrite Hh, Hids. replace (None :: map Some (a ++ id :: b))
      with ((None :: map Some a) ++ Some id :: map Some b) by (cbn; by rewrite map_app).
    apply list_lookup_middle. cbn. by rewrite length_map.
Qed.

Lemma thread_wait s res : where_ s = At_wait -> wait s = Index (S res) ->
  exec Thread s = Ret tt (set_where (At_check (S res)) (consume (S res) s)).
Proof. intros Hw E. cbn. unfold thread_step. by rewrite Hw, E. Qed.

Lemma thread_check s res : where_ s = At_check res ->
  exec Thread s = Ret tt (set_where (if Z.of_nat (length (timers_ s)) <? Z.of_nat res
                                     then At_wait else At_lock res) s).
Proof. intros Hw. cbn. unfold thread_step. rewrite Hw. by destruct (_ <? _). Qed.

Lemma length_ids s : length (timers_ s) = length (ids s).
Proof. unfold ids. by rewrite length_map. Qed.

(** Three steps of the thread look the first signalled timer up, and one posts it. *)
Lemma look_up_first s a id b : settled s -> ids s = a ++ id :: b ->
  Forall (fun x => x ∉ signalled s) a -> id ∈ signalled s ->
  run [Thread; Thread; Thread] s =
    Some (set_where (At_post id) (set_signalled (remove_id id (signalled s)) s)).
Proof.
  intros Hset Hids Ha Hid. destruct (settled_wait s a id b Hset Hids Ha Hid) as [Hwait Hres].
  destruct Hset as (Hh & Hu & Hw & Hn & Hl). pose proof (length_ids s) as Hlen.
  rewrite Hids, length_app in Hlen. cbn in Hlen.
  cbn [run]. rewrite (thread_wait s (length a)) by done. unfold consume. rewrite Hres.
  rewrite (thread_check _ (S (length a))) by done. cbn [timers_ set_where set_signalled].
  rewrite (proj2 (Z.ltb_ge _ _)) by lia. cbn [exec]. unfold thread_step.
  cbn [where_ set_where handles set_signalled]. rewrite Hres.
  by rewrite bool_decide_eq_true_2 by (change (id ∈ ids s); rewrite Hids; set_solver).
Qed.

Lemma run_app events1 events2 s s1 : run events1 s = Some s1 ->
  run (events1 ++ events2) s = run events2 s1.
Proof.
  revert s. induction events1 as [|e events1 IH]; intros s; cbn [run app]; [by intros [= ->]|].
  destruct (exec e s); try done; apply IH.
Qed.

Lemma post_first s a id b : settled s -> ids s = a ++ id :: b ->
  Forall (fun x => x ∉ signalled s) a -> id ∈ signalled s ->
  exists s', run [Thread; Thread; Thread; Thread] s = Some s' /\ settled s' /\ ids s' = ids s /\
    signalled s' = remove_id id (signalled s) /\ posted s' = posted s ++ [id].
Proof.
  intros Hset Hids Ha Hid. pose proof (look_up_first s a id b Hset Hids Ha Hid) as Hr.
  change [Thread; Thread; Thread; Thread] with ([Thread; Thread; Thread] ++ [Thread]).
  rewrite (run_app _ _ _ _ Hr). cbn [run exec]. unfold thread_step. cbn [where_ set_where].
  destruct Hset as (Hh & Hu & Hw & Hn & Hl). eexists. split; [done|]. by split_and!.
Qed.

(** The thread copies the callback under the lock and posts it after it has
    released it: a timer that is erased in between is posted although
    [erase_timer] has returned. *)
Theorem erased_too_late s a id b : settled s -> ids s = a ++ id :: b ->
  Forall (fun x => x ∉ signalled s) a -> id ∈ signalled s ->
  exists s1 s2, run [Thread; Thread; Thread; Erase id; Set_event] s = Some s1 /\
    id ∉ ids s1 /\ posted s1 = posted s /\ run [Thread] s1 = Some s2 /\ posted s2 = posted s ++ [id].
Proof.
  intros Hset Hids Ha Hid. pose proof (look_up_first s a id b Hset Hids Ha Hid) as Hr.
  change [Thread; Thread; Thread; Erase id; Set_event] with ([Thread; Thread; Thread] ++ [Erase id; Set_event]).
  rewrite (run_app _ _ _ _ Hr). cbn [run exec]. unfold erase_timer, set_event.
  eexists _, _. split; [done|]. split; [|split; [done|]].
  - by intros [_ ?] % ids_erase.
  - cbn [run exec]. unfold thread_step. by cbn [where_ set_where set_update set_signalled set_timers].
Qed.

Lemma filter_signalled a id b (l : list Z) : NoDup (a ++ id :: b) -> Forall (fun x => x ∉ l) a -> id ∈ l ->
  filter (fun x => x ∈ l) (a ++ id :: b) = id :: filter (fun x => x ∈ remove_id id l) (a ++ id :: b).
Proof.
  intros Hn Ha Hid. rewrite !filter_app.
  assert (Hnil : forall P `{!forall x, Decision (P x)}, Forall (fun x => ~ P x) a -> filter P a = []).
  { intros P ? Hp. clear Hn Ha. induction Hp; [done|]. by rewrite filter_cons_False. }
  rewrite (Hnil (fun x => x ∈ l)) by done.
  rewrite (Hnil (fun x => x ∈ remove_id id l)).
  2: { eapply Forall_impl; [exact Ha|]. intros x Hx Hin. apply Hx.
       by apply list_elem_of_filter in Hin as [_ ?]. }
  cbn [app]. rewrite filter_cons_True by done. f_equal.
  rewrite filter_cons_False by (intros Hin; by apply list_elem_of_filter in Hin as [? _]).
  apply NoDup_app in Hn as (_ & _ & Hb). apply NoDup_cons in Hb as [Hnb _].
  clear Hnil. induction b as [|x b IH]; [done|]. apply not_elem_of_cons in Hnb as [Hx Hnb].
  destruct (decide (x ∈ l)) as [Hin|Hin].
  - rewrite !filter_cons_True; [by rewrite IH|apply list_elem_of_filter; by split|done].
  - rewrite !filter_cons_False; [by apply IH|intros Hf; by apply list_elem_of_filter in Hf as [_ ?]|done].
Qed.

Lemma remove_id_length id l : NoDup l -> id ∈ l -> S (length (remove_id id l)) = length l.
Proof.
  unfold remove_id. induction 1 as [|x l Hx Hn IH]; [by intros ? % elem_of_nil|].
  rewrite elem_of_cons. intros [<-|Hin].
  - rewrite filter_cons_False by (by intros []). cbn. f_equal. clear Hn IH.
    induction l as [|y l IH]; [done|]. apply not_elem_of_cons in Hx as [? Hx].
    rewrite filter_cons_True by done. cbn. by rewrite IH.
  - rewrite filter_cons_True by (by intros ->). cbn. by rewrite IH.
Qed.

Lemma filter_nil_elem (l : list Z) : filter (fun x => x ∈ @nil Z) l = [].
Proof. induction l as [|x l IH]; [done|]. rewrite filter_cons_False; [done|]. by intros ? % elem_of_nil. Qed.

Lemma settled_blocked s : settled s -> signalled s = [] -> wait s = Blocked.
Proof.
  intros (Hh & Hu & Hw & Hn & Hl) E. unfold wait. rewrite settled_valid by done.
  rewrite Hh. cbn [length]. rewrite length_map. unfold ids at 1. rewrite length_map.
  rewrite (proj2 (Z.ltb_ge _ _)) by (unfold MAXIMUM_WAIT_OBJECTS in *; lia).
  cbn [first_signalled is_signalled]. rewrite Hu. generalize 1%nat.
  generalize (ids s). intros l. induction l as [|x l IHl]; intros i; [done|].
  cbn. rewrite E. by rewrite bool_decide_eq_false_2 by (by intros ? % elem_of_nil).
Qed.

(** [C23] With at most 63 timers, when the thread waits for exactly the registered
    timers and no change is announced to it ([settled]), and the signalled timers,
    without repetition, are registered ones: left to itself the thread posts every
    timer that has expired, exactly once and in the order of the handles, and then
    waits. (With 64 timers, which [add_timer] admits, it posts nothing:
    [sixty_four_timers].) *)
Theorem expired_are_posted s : settled s -> NoDup (signalled s) ->
  Forall (fun id => id ∈ ids s) (signalled s) ->
  exists s', run (replicate (4 * length (signalled s)) Thread) s = Some s' /\
    posted s' = posted s ++ filter (fun id => id ∈ signalled s) (ids s) /\
    signalled s' = [] /\ settled s' /\ wait s' = Blocked.
Proof.
  remember (length (signalled s)) as n eqn:Hlen. revert s Hlen.
  induction n as [|n IH]; intros s Hlen Hset Hnd Hin.
  - exists s. assert (E : signalled s = []) by (by destruct (signalled s)).
    split_and!; [done|by rewrite E, filter_nil_elem, app_nil_r|done|done|by apply settled_blocked].
  - destruct (first_of s) as (a & id & b & Hids & Ha & Hid); [by destruct (signalled s)|done|].
    destruct (post_first s a id b Hset Hids Ha Hid) as (s1 & Hr1 & Hset1 & Hids1 & Hsig1 & Hp1).
    assert (Hlen1 : length (signalled s1) = n).
    { rewrite Hsig1. pose proof (remove_id_length id (signalled s) Hnd Hid). lia. }
    destruct (IH s1) as (s2 & Hr2 & Hp2 & Hs2); [done|done| | |].
    + rewrite Hsig1. by apply NoDup_filter.
    + rewrite Hsig1, Hids1. apply Forall_forall. intros x Hx. apply list_elem_of_filter in Hx as [_ Hx].
      by eapply Forall_forall in Hin.
    + exists s2. split; [|split; [|exact Hs2]].
      * replace (4 * S n)%nat with (4 + 4 * n)%nat by lia. rewrite replicate_add.
        change (replicate 4 Thread) with [Thread; Thread; Thread; Thread]. by rewrite (run_app _ _ s s1).
      * rewrite Hp2, Hp1, Hids1, Hsig1, <- app_assoc. f_equal. rewrite Hids.
        symmetry. apply filter_signalled; try done. rewrite <- Hids. apply Hset.
Qed.

(** ** A tick that is lost *)

Lemma find_insert id id' t l : id' <> id -> find_timer id (insert_timer id' t l) = find_timer id l.
Proof.
  intros Hne. induction l as [|[k u] l IH]; cbn; [by rewrite (proj2 (Z.eqb_neq _ _)) by done|].
  destruct (k =? id') eqn:E; bool_props; [done|]. destruct (id' <? k); cbn.
  - by rewrite (proj2 (Z.eqb_neq id' id)) by done.
  - by destruct (k =? id).
Qed.

Lemma find_insert_eq id t l : id ∉ map fst l -> find_timer id (insert_timer id t l) = Some t.
Proof.
  induction l as [|[k u] l IH]; cbn; intros Hn; [by rewrite Z.eqb_refl|].
  apply not_elem_of_cons in Hn as [Hne Hn]. rewrite (proj2 (Z.eqb_neq k id)) by done.
  destruct (id <? k); cbn; [by rewrite Z.eqb_refl|]. rewrite (proj2 (Z.eqb_neq k id)) by done. by apply IH.
Qed.

Lemma find_erase id id' l t : find_timer id (erase_entry id' l) = Some t -> find_timer id l = Some t.
Proof.
  unfold erase_entry. induction l as [|[k u] l IH]; [done|]. destruct (decide (k = id')) as [->|Hne].
  - rewrite filter_cons_False by (by intros []). cbn. destruct (id' =? id) eqn:E; bool_props; [|done].
    intros H. exfalso. subst. clear IH. induction l as [|[k u'] l IH]; [done|].
    destruct (decide (k = id)) as [->|Hne]; [by rewrite filter_cons_False in H by (by intros [])|].
    rewrite filter_cons_True in H by done. cbn in H. by rewrite (proj2 (Z.eqb_neq k id)) in H by done.
  - rewrite filter_cons_True by done. cbn. by destruct (k =? id).
Qed.

Lemma find_update id id' f l : id' <> id -> find_timer id (update_entry id' f l) = find_timer id l.
Proof.
  intros Hne. induction l as [|[k u] l IH]; [done|]. cbn.
  destruct (k =? id') eqn:E; cbn; destruct (k =? id) eqn:E2; bool_props; try done. lia.
Qed.

(** The timer is not signalled, not armed, and not the one the thread is about. *)
Definition dead (id : Z) (s : service) : Prop :=
  id ∉ signalled s /\ (forall t, find_timer id (timers_ s) = Some t -> armed t = false) /\
  (forall res, where_ s = At_check res \/ where_ s = At_lock res -> handles s !! res <> Some (Some id)) /\
  where_ s <> At_post id.

Definition no_wait (id : Z) (e : event) : Prop := match e with Wait id' => id' <> id | _ => True end.

Lemma not_remove id id' l : id ∉ l -> id ∉ remove_id id' l.
Proof. intros H Hin. by apply list_elem_of_filter in Hin as [_ ?]. Qed.

Lemma wait_index s res : wait s = Index res -> exists h, handles s !! res = Some h /\ is_signalled s h = true.
Proof.
  unfold wait. destruct (_ <? _); [done|]. destruct (forallb _ _); [|done].
  assert (H : forall l i, first_signalled s i l = Index res ->
    exists h, l !! (res - i)%nat = Some h /\ is_signalled s h = true /\ (i <= res)%nat).
  { induction l as [|h l IH]; intros i; [done|]. cbn. destruct (is_signalled s h) eqn:E.
    - intros [= ->]. exists h. by rewrite Nat.sub_diag.
    - intros Hl. destruct (IH _ Hl) as (h' & Hh & ? & ?). exists h'. split_and!; [|done|lia].
      by replace (res - i)%nat with (S (res - S i)) by lia. }
  intros Hw. destruct (H _ _ Hw) as (h & Hh & ? & _). rewrite Nat.sub_0_r in Hh. by exists h.
Qed.

(** Nothing of the state [dead] is about changes, but the place of the thread, which
    leaves the two it is about. *)
Lemma dead_moves id s s' : dead id s -> signalled s' = signalled s -> timers_ s' = timers_ s ->
  handles s' = handles s -> (forall res, where_ s' = At_lock res -> where_ s = At_check res) ->
  (forall res, where_ s' <> At_check res) -> where_ s' <> At_post id -> dead id s'.
Proof.
  intros (Hs & Ht & Hp & Hq) E1 E2 E3 Hl Hc Hw. unfold dead. rewrite E1, E2, E3.
  split_and!; [done|done| |done].
  intros res [H|H]; [by destruct (Hc res)|]. apply Hp. left. by apply Hl.
Qed.

Lemma wait_dead id s res : dead id s -> wait s = Index res ->
  dead id (set_where (if (res =? 0)%nat then At_copy else At_check res) (consume res s)) /\
  posted (consume res s) = posted s.
Proof.
  intros (Hs & Ht & Hp & Hq) Ewt. destruct (wait_index _ _ Ewt) as (h & Hh & Hsg).
  assert (Hne : h <> Some id) by (intros ->; by apply bool_decide_eq_true in Hsg).
  unfold consume. rewrite Hh. split; [split_and!|by destruct h].
  - destruct h; [by apply not_remove|done].
  - by destruct h.
  - intros r Hr. destruct (res =? 0)%nat; [by destruct Hr|].
    assert (r = res) as -> by (by destruct Hr as [[= ->]|[=]]). destruct h; cbn; rewrite Hh; congruence.
  - by destruct (res =? 0)%nat.
Qed.

Lemma thread_dead id s s' : dead id s -> exec Thread s = Ret tt s' \/ (exists x, exec Thread s = Throw x s') ->
  dead id s' /\ posts id s' = posts id s.
Proof.
  intros Hd He. pose proof Hd as (Hs & Ht & Hp & Hq). cbn [exec] in He.
  unfold thread_step in He. destruct (where_ s) as [| |res|res|id'|] eqn:Ew.
  - destruct (wait s) as [| |res] eqn:Ewt; destruct He as [[= <-]|[x [=]]]; [done| |].
    + split; [|done]. by apply (dead_moves id s).
    + destruct (wait_dead id s res Hd Ewt) as [Hd' E]. split; [done|]. unfold posts. cbn. by rewrite E.
  - destruct He as [[= <-]|[x [=]]]. split; [|done]. split_and!; [done|done| |done]. by intros res [?|?].
  - destruct (_ <? _); destruct He as [[= <-]|[x [=]]]; (split; [|done]); apply (dead_moves id s); try done.
    cbn. by intros r [= <-].
  - destruct (handles s !! res) as [[id'|]|] eqn:Eh; destruct He as [He|[x He]]; try done; injection He as <-.
    + assert (id' <> id) by (intros ->; apply (Hp res); [by right|done]).
      split; [|done]. apply (dead_moves id s); try done; cbn; case_bool_decide; try done. congruence.
    + split; [|done]. by apply (dead_moves id s).
  - destruct He as [[= <-]|[x [=]]]. split; [by apply (dead_moves id s)|].
    unfold posts. cbn [posted set_where set_posted].
    rewrite filter_app, (filter_cons_False _ id'), app_nil_r; [done|]. intros ->. by destruct Hq.
  - by destruct He as [[= <-]|[x [=]]].
Qed.

Lemma exec_dead e id s s' : no_wait id e -> dead id s ->
  exec e s = Ret tt s' \/ (exists x, exec e s = Throw x s') -> dead id s' /\ posts id s' = posts id s.
Proof.
  intros Hn Hd He. pose proof Hd as (Hs & Ht & Hp & Hq). destruct e as [id' p d|id'| |id'|id'| |]; [..|by apply (thread_dead id s)|];
    cbn [exec] in He.
  - unfold add_timer in He. case_bool_decide; [by destruct He as [[= <-]|[x [=]]]|].
    destruct (_ <? _); [by destruct He as [[=]|[x [= _ <-]]]|].
    destruct He as [[= <-]|[x [=]]]. split; [|done]. split_and!; [done| |done..]. cbn. intros t.
    destruct (decide (id' = id)) as [->|Hne]; [rewrite find_insert_eq by done; by intros [= <-]|].
    rewrite find_insert by done. apply Ht.
  - destruct He as [[= <-]|[x [=]]]. split; [|done]. split_and!; [by apply not_remove| |done..].
    intros t Hf % find_erase. by apply Ht.
  - destruct He as [[= <-]|[x [=]]]. done.
  - unfold async_wait in He. destruct (find_timer _ _); [|by destruct He as [[= <-]|[x [=]]]].
    destruct (set_timer _ _ _); [|by destruct He as [[=]|[x [=]]]].
    destruct He as [[= <-]|[x [=]]]. split; [|done]. split_and!; [by apply not_remove| |done..].
    cbn. intros t. rewrite find_update by done. apply Ht.
  - unfold expire in He. destruct (find_timer id' _) as [t|] eqn:E; [|by destruct He as [[= <-]|[x [=]]]].
    destruct (armed t) eqn:Ea; destruct He as [[= <-]|[x [=]]]; [|done].
    assert (id' <> id) by (intros ->; rewrite (Ht _ E) in Ea; done).
    split; [|done]. split_and!; [|cbn; intros t'; rewrite find_update by done; apply Ht|done..].
    cbn. rewrite elem_of_app, list_elem_of_singleton. intros [?|?]; [by eapply not_remove|done].
  - unfold apc in He. destruct (where_ s) eqn:Ew; destruct He as [[= <-]|[x [=]]]; try done.
    split; [|done]. by apply (dead_moves id s).
Qed.

Lemma dead_quiet id events s s2 : Forall (no_wait id) events -> dead id s ->
  run events s = Some s2 -> posts id s2 = posts id s.
Proof.
  intros Hn. revert s. induction Hn as [|e events Hn _ IH]; intros s Hd Hr; cbn [run] in Hr; [by injection Hr as <-|].
  destruct (exec e s) as [[] s1|x s1| |] eqn:E; try done;
    (destruct (exec_dead e id s s1 Hn Hd) as [Hd1 <-]; [by eauto|]); by apply IH.
Qed.

Lemma length_erase x l t : find_timer x l = Some t -> (length (erase_entry x l) < length l)%nat.
Proof.
  unfold erase_entry. induction l as [|[k' u] l IH]; [done|]. cbn.
  destruct (k' =? x) eqn:E; bool_props; intros H.
  - rewrite decide_False by (by intros []). eapply Nat.le_lt_trans; [apply length_filter|cbn; lia].
  - rewrite decide_True by done. apply -> Nat.succ_lt_mono. by apply IH.
Qed.

Lemma find_in id l : id ∈ map fst l -> exists t, find_timer id l = Some t.
Proof.
  induction l as [|[k u] l IH]; cbn; [by intros ? % elem_of_nil|]. intros [->|Hin] % elem_of_cons.
  - rewrite Z.eqb_refl. by eexists.
  - destruct (k =? id); [by eexists|by apply IH].
Qed.

Lemma find_update_eq id f l : find_timer id (update_entry id f l) = f <$> find_timer id l.
Proof.
  induction l as [|[k u] l IH]; [done|]. cbn. destruct (k =? id) eqn:E; cbn; rewrite E; [done|exact IH].
Qed.

Lemma in_erase id x l : id <> x -> id ∈ map fst l -> id ∈ map fst (erase_entry x l).
Proof.
  intros Hne Hin. apply list_elem_of_In, in_map_iff in Hin as ([k t] & <- & Hin).
  apply list_elem_of_In, in_map_iff. exists (k, t). split; [done|].
  by apply list_elem_of_In, list_elem_of_filter; split; [|apply list_elem_of_In].
Qed.

(** The state in which the last timer, one-shot, has just expired. *)
Lemma expire_last a id t s : settled s -> signalled s = [] -> ids s = a ++ [id] ->
  find_timer id (timers_ s) = Some t -> armed t = true -> period_ t = 0 ->
  exists s0, exec (Expire id) s = Ret tt s0 /\ settled s0 /\ ids s0 = a ++ [id] /\
    signalled s0 = [id] /\ posted s0 = posted s /\
    find_timer id (timers_ s0) = Some (Timer 0 (due_ t) false).
Proof.
  intros (Hh & Hu & Hw & Hn & Hl) Hsig Hids Hf Ha Hp. cbn [exec]. unfold expire. rewrite Hf, Ha, Hsig.
  eexists. split; [done|].
  set (s0 := set_signalled _ _). assert (Hids0 : ids s0 = ids s) by (unfold ids; cbn; by rewrite ids_update).
  split_and!.
  - split_and!; [by rewrite Hids0|done|done|by rewrite Hids0|by rewrite length_ids, Hids0, <- length_ids].
  - by rewrite Hids0.
  - done.
  - done.
  - cbn. rewrite find_update_eq, Hf. cbn. by rewrite Hp.
Qed.

(** A tick is lost when another timer is erased between the wait and the test of
    the index: the last timer, one-shot, expires, the wait uses the signal up, and
    because [timers_] is now shorter than the index its handler is not posted, then
    or ever, unless the client arms it again. *)
Theorem tick_lost a id x t s : settled s -> signalled s = [] -> ids s = a ++ [id] -> x ∈ a ->
  find_timer id (timers_ s) = Some t -> armed t = true -> period_ t = 0 ->
  exists s1, run [Expire id; Thread; Erase x; Set_event; Thread] s = Some s1 /\ id ∈ ids s1 /\
    forall more s2, Forall (no_wait id) more -> run more s1 = Some s2 -> posts id s2 = posts id s.
Proof.
  intros Hset Hsig Hids Hx Hf Ha Hp.
  assert (Hna : id ∉ a).
  { destruct Hset as (_ & _ & _ & Hn & _). rewrite Hids in Hn. apply NoDup_app in Hn as (_ & Hn & _).
    intros Hin. apply (Hn id Hin). by left. }
  assert (Hxid : id <> x) by congruence.
  destruct (expire_last a id t s Hset Hsig Hids Hf Ha Hp) as (s0 & E0 & Hset0 & Hids0 & Hsig0 & Hp0 & Hf0).
  destruct (settled_wait s0 a id [] Hset0 Hids0) as [Hwait Hres].
  { rewrite Hsig0. apply Forall_forall. intros y Hy. rewrite list_elem_of_singleton. congruence. }
  { rewrite Hsig0. by left. }
  destruct (find_in x (timers_ s0)) as [tx Htx]; [fold (ids s0); rewrite Hids0; set_solver|].
  pose proof (length_erase x _ tx Htx) as Hshort. rewrite length_ids, Hids0, length_app in Hshort.
  cbn [run]. rewrite E0, (thread_wait s0 (length a)) by (done || apply Hset0).
  unfold consume. rewrite Hres. cbn [exec erase_timer set_event].
  rewrite (thread_check _ (S (length a))) by done.
  cbn [timers_ set_where set_signalled set_timers set_update] in *.
  rewrite (proj2 (Z.ltb_lt _ _)) by (cbn in Hshort; lia). cbn [length] in Hshort.
  eexists. split; [done|]. split.
  - cbn. apply in_erase; [done|]. fold (ids s0). rewrite Hids0. set_solver.
  - intros more s2 Hn Hr. refine (eq_trans (dead_quiet id more _ s2 Hn _ Hr) _);
      [|unfold posts; cbn; by rewrite Hp0].
    split_and!; cbn.
    + rewrite Hsig0. unfold remove_id. rewrite filter_cons_False by (by intros []). apply not_remove, not_elem_of_nil.
    + intros t' Ht' % find_erase. rewrite Hf0 in Ht'. by injection Ht' as <-.
    + by intros r [?|?].
    + done.
Qed.

(** ** Changes reach the thread *)

Lemma insert_perm id t l : id ∉ map fst l -> map fst (insert_timer id t l) ≡ₚ id :: map fst l.
Proof.
  induction l as [|[k u] l IH]; cbn; [done|]. intros [Hne Hn] % not_elem_of_cons.
  rewrite (proj2 (Z.eqb_neq k id)) by done. destruct (id <? k); cbn; [done|].
  rewrite IH by done. apply perm_swap.
Qed.

Lemma erase_nodup x l : NoDup (map fst l) -> NoDup (map fst (erase_entry x l)).
Proof.
  unfold erase_entry. induction l as [|[k u] l IH]; cbn; [done|]. intros [Hk Hn] % NoDup_cons.
  destruct (decide (k = x)) as [->|Hne].
  - rewrite decide_False by (by intros []). by apply IH.
  - rewrite decide_True by done. cbn. apply NoDup_cons. split; [|by apply IH].
    by intros [? _] % ids_erase.
Qed.

(** A thread whose handles are right settles after an announcement. *)
Lemma thread_resettles s : update_ s = true -> where_ s = At_wait ->
  handles s = None :: map Some (ids s) -> NoDup (ids s) ->
  Z.of_nat (length (timers_ s)) < MAXIMUM_WAIT_OBJECTS ->
  exists s', run [Thread; Thread] s = Some s' /\ settled s' /\ ids s' = ids s /\
    signalled s' = signalled s /\ posted s' = posted s.
Proof.
  intros Hu Hw Hh Hn Hl.
  assert (Hwait : wait s = Index 0).
  { unfold wait. rewrite settled_valid by done. rewrite Hh. cbn [length]. rewrite length_map, <- length_ids.
    rewrite (proj2 (Z.ltb_ge _ _)) by (unfold MAXIMUM_WAIT_OBJECTS in *; lia). cbn. by rewrite Hu. }
  cbn [run exec]. unfold thread_step at 1. rewrite Hw, Hwait. cbn [Nat.eqb].
  unfold consume. rewrite Hh. cbn [lookup list_lookup]. unfold thread_step.
  cbn [where_ set_where]. eexists. split; [done|]. by split_and!.
Qed.


Lemma add_settles id period due s : settled s -> id ∉ ids s ->
  Z.of_nat (length (timers_ s)) + 1 < MAXIMUM_WAIT_OBJECTS ->
  exists s', run [Add id period due; Set_event; Thread; Thread] s = Some s' /\ settled s' /\
    ids s' ≡ₚ id :: ids s /\ signalled s' = signalled s /\ posted s' = posted s.
Proof.
  intros (Hh & Hu & Hw & Hn & Hl) Hid Hl2. cbn [run exec]. unfold add_timer.
  rewrite bool_decide_eq_false_2 by done. rewrite (proj2 (Z.ltb_ge _ _)) by lia. cbn [exec set_event].
  set (l := insert_timer id (Timer period due false) (timers_ s)).
  pose proof (insert_perm id (Timer period due false) (timers_ s) Hid) as Hp.
  fold l in Hp. set (s1 := set_update true (set_timers l s)).
  assert (Hwait : wait s1 = Index 0).
  { unfold wait. cbn [handles s1 set_update set_timers]. rewrite Hh. cbn [length].
    rewrite length_map, <- length_ids. rewrite (proj2 (Z.ltb_ge _ _)) by (unfold MAXIMUM_WAIT_OBJECTS in *; lia).
    assert (forallb (is_valid s1) (None :: map Some (ids s)) = true) as ->; [|done].
    apply forallb_forall. intros [x|] Hx; [|done]. cbn. apply bool_decide_eq_true_2.
    destruct Hx as [?|Hx]; [done|]. apply in_map_iff in Hx as (y & [= ->] & Hy).
    unfold ids. cbn. rewrite Hp. right. by apply list_elem_of_In. }
  cbn [set_event]. fold s1. unfold thread_step at 1. change (where_ s1) with (where_ s). rewrite Hw, Hwait.
  cbn [Nat.eqb]. unfold consume. change (handles s1) with (handles s). rewrite Hh. cbn [lookup list_lookup].
  unfold thread_step. cbn [where_ set_where]. eexists. split; [done|].
  assert (Hids : ids (set_where At_wait (_Copy (set_where At_copy (set_update false s1)))) ≡ₚ id :: ids s)
    by exact Hp.
  split_and!; try done. split_and!; try done.
  - rewrite Hids. by apply NoDup_cons.
  - rewrite length_ids, Hids. cbn. rewrite <- length_ids. lia.
Qed.

Lemma erase_settles x s : settled s -> x ∈ ids s ->
  exists s', run [Erase x; Set_event; Thread; Thread; Thread; Thread] s = Some s' /\ settled s' /\
    ids s' = map fst (erase_entry x (timers_ s)) /\ signalled s' = remove_id x (signalled s) /\
    posted s' = posted s.
Proof.
  intros (Hh & Hu & Hw & Hn & Hl) Hx. change [Erase x; Set_event; Thread; Thread; Thread; Thread]
    with ([Erase x; Set_event; Thread; Thread] ++ [Thread; Thread]).
  set (s1 := set_update true (set_signalled (remove_id x (signalled s))
               (set_timers (erase_entry x (timers_ s)) s))).
  assert (Hwait : wait s1 = Failed).
  { unfold wait. change (handles s1) with (handles s). rewrite Hh. cbn [length].
    rewrite length_map, <- length_ids. rewrite (proj2 (Z.ltb_ge _ _)) by (unfold MAXIMUM_WAIT_OBJECTS in *; lia).
    destruct (forallb _ _) eqn:E; [|done]. exfalso. rewrite forallb_forall in E.
    specialize (E (Some x)). cbn in E. unfold ids in E. cbn in E.
    assert (Hin : In (Some x) (map Some (map fst (timers_ s)))) by (apply in_map; by apply list_elem_of_In).
    specialize (E (or_intror Hin)). apply bool_decide_eq_true in E. by apply ids_erase in E as [_ ?]. }
  set (s2 := set_where At_wait (_Copy (set_where At_copy s1))).
  assert (Hr : run [Erase x; Set_event; Thread; Thread] s = Some s2).
  { cbn [run exec]. unfold erase_timer, set_event. fold s1. unfold thread_step at 1.
    change (where_ s1) with (where_ s). by rewrite Hw, Hwait. }
  rewrite (run_app _ _ s s2 Hr). destruct (thread_resettles s2) as (s3 & Hr3 & ? & ? & ? & ?).
  - done.
  - done.
  - done.
  - by apply erase_nodup.
  - cbn. unfold erase_entry. pose proof (length_filter (fun kt : Z * waitable_timer => kt.1 <> x) (timers_ s)).
    eapply Z.le_lt_trans; [|exact Hl]. lia.
  - by exists s3.
Qed.

(** Changes reach the thread: after [add_timer] or [erase_timer] it wakes up and
    waits for exactly the timers there are, and neither posts nor forgets a signal of
    another timer on the way. *)
Theorem changes_reach_thread id period due s : settled s ->
  Z.of_nat (length (timers_ s)) + 1 < MAXIMUM_WAIT_OBJECTS ->
  (id ∉ ids s -> exists s', run [Add id period due; Set_event; Thread; Thread] s = Some s' /\ settled s' /\
     ids s' ≡ₚ id :: ids s /\ signalled s' = signalled s /\ posted s' = posted s) /\
  (id ∈ ids s -> exists s', run [Erase id; Set_event; Thread; Thread; Thread; Thread] s = Some s' /\
     settled s' /\ ids s' = map fst (erase_entry id (timers_ s)) /\
     signalled s' = remove_id id (signalled s) /\ posted s' = posted s).
Proof. intros Hs Hl. split; intros Hid; [by apply add_settles|by apply erase_settles]. Qed.

(** ** Too many timers *)

Definition crowded (s : service) : Prop :=
  where_ s = At_copy \/ where_ s = At_wait /\ handles s = None :: map Some (ids s).

Lemma crowded_step e s : (e = Thread \/ exists id, e = Expire id) -> crowded s ->
  MAXIMUM_WAIT_OBJECTS <= Z.of_nat (length (timers_ s)) ->
  exists s', exec e s = Ret tt s' /\ crowded s' /\ ids s' = ids s /\ posted s' = posted s.
Proof.
  intros He Hc Hl. destruct He as [->|[id ->]]; cbn [exec].
  - unfold thread_step. destruct Hc as [Hw|[Hw Hh]]; rewrite Hw.
    + eexists. split; [done|]. split_and!; [by right|done|done].
    + assert (wait s = Failed) as ->.
      { unfold wait. rewrite (proj2 (Z.ltb_lt _ _)); [done|].
        rewrite Hh. cbn [length]. rewrite length_map, <- length_ids. lia. }
      eexists. split; [done|]. split_and!; [by left|done|done].
  - unfold expire. destruct (find_timer id (timers_ s)) as [t|]; [|by exists s].
    destruct (armed t); [|by exists s]. eexists. split; [done|].
    assert (Hids : forall f l, ids (set_signalled l (set_timers (update_entry id f (timers_ s)) s)) = ids s)
      by (intros f l; unfold ids; cbn; by rewrite ids_update).
    split_and!; [|apply Hids|done]. destruct Hc as [Hw|[Hw Hh]]; [by left|right]. by rewrite Hids.
Qed.

(** [add_timer] admits as many timers as a wait takes handles, and more, but
    the wait also has the update event: with 64 timers it fails for ever, the thread
    spins, and no timer fires although the kernel signals them. *)
Theorem sixty_four_timers s id period due events :
  settled s -> Z.of_nat (length (timers_ s)) = MAXIMUM_WAIT_OBJECTS - 1 -> id ∉ ids s ->
  Forall (fun e => e = Thread \/ exists id, e = Expire id) events ->
  exists s1 s2, run [Add id period due; Set_event; Thread; Thread] s = Some s1 /\
    Z.of_nat (length (timers_ s1)) = MAXIMUM_WAIT_OBJECTS /\
    run events s1 = Some s2 /\ posted s2 = posted s.
Proof.
  intros (Hh & Hu & Hw & Hn & _) Hl Hid Hev.
  assert (Hadd : exists s1, run [Add id period due; Set_event; Thread; Thread] s = Some s1 /\
    Z.of_nat (length (timers_ s1)) = MAXIMUM_WAIT_OBJECTS /\ crowded s1 /\ posted s1 = posted s).
  { pose proof (insert_perm id (Timer period due false) (timers_ s) Hid) as Hp.
    set (l := insert_timer id (Timer period due false) (timers_ s)) in *.
    assert (Hlen : Z.of_nat (length l) = MAXIMUM_WAIT_OBJECTS).
    { rewrite <- (length_map fst l), Hp. cbn. rewrite length_map. lia. }
    cbn [run exec]. unfold add_timer.
    rewrite bool_decide_eq_false_2 by done. rewrite (proj2 (Z.ltb_ge _ _)) by lia. fold l.
    unfold set_event, thread_step at 1. cbn [where_ set_update set_timers]. rewrite Hw.
    set (s1 := set_update true (set_timers l s)).
    destruct (wait s1) as [| |res] eqn:E.
    - exfalso. unfold wait in E. change (handles s1) with (handles s) in E. rewrite Hh in E.
      destruct (_ <? _); [done|]. by destruct (forallb _ _).
    - unfold thread_step. cbn [where_ set_where]. eexists. split; [done|].
      split_and!; [done|by right|done].
    - assert (res = 0%nat) as ->.
      { unfold wait in E. change (handles s1) with (handles s) in E. rewrite Hh in E.
        destruct (_ <? _); [done|]. destruct (forallb _ _); [|done]. by injection E as <-. }
      cbn [Nat.eqb]. unfold consume. change (handles s1) with (handles s). rewrite Hh.
      cbn [lookup list_lookup]. unfold thread_step. cbn [where_ set_where].
      eexists. split; [done|]. split_and!; [done|by right|done]. }
  destruct Hadd as (s1 & Hr & Hlen & Hc & Hp1). exists s1.
  assert (Hgo : forall s1, crowded s1 -> MAXIMUM_WAIT_OBJECTS <= Z.of_nat (length (timers_ s1)) ->
    exists s2, run events s1 = Some s2 /\ posted s2 = posted s1).
  { induction Hev as [|e events He _ IH]; intros t Ht Hlt; [by exists t|]. cbn [run].
    destruct (crowded_step e t He Ht Hlt) as (t' & -> & Ht' & Hids & Hpt).
    destruct (IH t' Ht') as (t2 & Hr2 & Hp2); [by rewrite length_ids, Hids, <- length_ids|].
    exists t2. by rewrite Hp2, Hpt. }
  destruct (Hgo s1 Hc) as (s2 & Hr2 & Hp2); [lia|]. exists s2. by rewrite Hp2, Hp1.
Qed.

(** ** [basic_timer_t] *)

Module Basic.

(** The timer with its service; [id_] is 0 when it has none. *)
Record basic_timer := Mk { service_ : service; id_ : Z }.

Definition on_service {A} (m : prog service A) : prog basic_timer A := fun t =>
  match m (service_ t) with
  | Ret a s => Ret a (Mk s (id_ t))
  | Throw e s => Throw e (Mk s (id_ t))
  | UB => UB
  | OutOfFuel => OutOfFuel
  end.

(** [service_.add_timer] and [service_.erase_timer], with their events; [id] is the
    handle the system gives. *)
Definition add (id period due : Z) : prog basic_timer unit :=
  on_service (add_timer id period due ;;; set_event) ;;; fun t => Ret tt (Mk (service_ t) id).
Definition erase (id : Z) : prog basic_timer unit := on_service (erase_timer id ;;; set_event).

Definition construct (s : service) (id period due : Z) : outcome basic_timer unit :=
  add id period due (Mk s 0).
Definition destroy : prog basic_timer unit := fun t =>
  if negb (id_ t =? 0) then erase (id_ t) t else Ret tt t.
Definition cancel : prog basic_timer unit :=
  (fun t => erase (id_ t) t) ;;; fun t => Ret tt (Mk (service_ t) 0).
Definition async_wait_again : prog basic_timer unit := fun t =>
  on_service (Timer.async_wait (id_ t)) t.
Definition async_wait (id period due : Z) : prog basic_timer unit :=
  (fun t => if id_ t =? 0 then add id period due t else Ret tt t) ;;; async_wait_again.

Lemma waits_ok id period due d n (m : prog basic_timer unit) t tm :
  due_time due = Some d -> id <> 0 -> id_ t = id ->
  find_timer id (timers_ (service_ t)) = Some tm -> due_ tm = due ->
  exists t' tm', Nat.iter n (fun m => async_wait id period due ;;; m) m t = m t' /\ id_ t' = id /\
    ids (service_ t') = ids (service_ t) /\ find_timer id (timers_ (service_ t')) = Some tm'.
Proof.
  intros Hd H0. revert t tm. induction n as [|n IH]; intros t tm Hid Hf Hdue; [by exists t, tm|].
  cbn [Nat.iter nat_rect]. unfold bind at 1, async_wait at 1, bind. rewrite (proj2 (Z.eqb_neq _ _)) by congruence.
  unfold async_wait_again, on_service, Timer.async_wait. rewrite Hid, Hf.
  unfold set_timer. rewrite Hdue, Hd.
  set (t1 := Mk _ _). destruct (IH t1 (Timer (period_ tm) due true)) as (t' & tm' & Hr & Hid' & Hids & Hf').
  - done.
  - cbn. by rewrite find_update_eq, Hf.
  - done.
  - exists t', tm'. split_and!; [exact Hr|done| |done]. rewrite Hids. unfold ids. cbn. by rewrite ids_update.
Qed.

Lemma erase_insert id t l : id ∉ map fst l -> erase_entry id (insert_timer id t l) = l.
Proof.
  unfold erase_entry. intros Hn.
  assert (Hall : forall k, id ∉ map fst k -> filter (fun kt : Z * waitable_timer => kt.1 <> id) k = k).
  { induction k as [|[k u] l' IHl]; cbn; [done|]. intros [? ?] % not_elem_of_cons.
    rewrite decide_True by done. f_equal. by apply IHl. }
  induction l as [|[k u] l IH]; cbn; [by rewrite decide_False by (by intros [])|].
  apply not_elem_of_cons in Hn as [Hne Hn]. rewrite (proj2 (Z.eqb_neq k id)) by done.
  destruct (id <? k); cbn.
  - rewrite decide_False by (by intros []). rewrite decide_True by done. f_equal. by apply Hall.
  - rewrite decide_True by done. f_equal. by apply IH.
Qed.

(** A timer object owns one kernel timer: constructed, and armed any number of
    times, it registers one; [cancel] and the destructor, in either order or both,
    remove it and leave the others. *)
Theorem basic_timer_life s id period due d n t : due_time due = Some d -> id <> 0 -> id ∉ ids s ->
  construct s id period due = Ret tt t ->
  id_ t = id /\ (forall x, x ∈ ids (service_ t) <-> x = id \/ x ∈ ids s) /\
  exists t1 t2,
    Nat.iter n (fun m => async_wait id period due ;;; m) (cancel ;;; destroy) t = Ret tt t1 /\
    Nat.iter n (fun m => async_wait id period due ;;; m) destroy t = Ret tt t2 /\
    id_ t1 = 0 /\ forall x, (x ∈ ids (service_ t1) <-> x ∈ ids s) /\ (x ∈ ids (service_ t2) <-> x ∈ ids s).
Proof.
  intros Hd H0 Hid Hc. unfold construct, add, bind, on_service, add_timer in Hc. cbn [service_] in Hc.
  rewrite bool_decide_eq_false_2 in Hc by done. destruct (_ <? _); [done|]. injection Hc as <-.
  set (tm := Timer period due false). set (s1 := set_update true (set_timers (insert_timer id tm (timers_ s)) s)).
  assert (Hids1 : forall x, x ∈ ids s1 <-> x = id \/ x ∈ ids s) by (intros x; apply ids_insert).
  split_and!; [done|exact Hids1|].
  assert (Hf : find_timer id (timers_ s1) = Some tm) by (by apply find_insert_eq).
  assert (Hgone : forall s', ids s' = ids s1 -> forall x,
    x ∈ map fst (erase_entry id (timers_ s')) <-> x ∈ ids s).
  { intros s' Hs' x. split.
    - intros [Hin Hne] % ids_erase. fold (ids s') in Hin. rewrite Hs', Hids1 in Hin. by destruct Hin.
    - intros Hin. apply in_erase; [congruence|]. fold (ids s'). rewrite Hs', Hids1. by right. }
  destruct (waits_ok id period due d n (cancel ;;; destroy) (Mk s1 id) tm) as (t1 & tm1 & E1 & Hi1 & Hs1 & _);
    [done..|].
  destruct (waits_ok id period due d n destroy (Mk s1 id) tm) as (t2 & tm2 & E2 & Hi2 & Hs2 & _); [done..|].
  rewrite E1, E2. unfold destroy at 2. rewrite Hi2, (proj2 (Z.eqb_neq _ _)) by done.
  unfold cancel, destroy, erase, on_service, bind. cbn. rewrite Hi1.
  eexists _, _. split_and!; [done|done|done|]. intros x. split; by apply Hgone.
Qed.

End Basic.

(** ** Witnesses *)

Module Demo.

Ltac decided := apply (bool_decide_unpack _); by vm_compute.

(** Two timers, 4 and 8, both armed; 8 is one-shot. *)
Definition two : service :=
  Service [(4, Timer 100 0 true); (8, Timer 0 500 true)] false [] [None; Some 4; Some 8] At_wait [].

Lemma two_settled : settled two.
Proof. split_and!; [done|done|done|decided|done]. Qed.

Lemma tick_lost_witness :
  exists s1, run [Expire 8; Thread; Erase 4; Set_event; Thread] two = Some s1 /\ 8 ∈ ids s1 /\
    forall more s2, Forall (no_wait 8) more -> run more s1 = Some s2 -> posts 8 s2 = posts 8 two.
Proof.
  apply (tick_lost [4] 8 4 (Timer 0 500 true) two); try done; [apply two_settled|decided].
Defined.

Definition both : service := set_signalled [8; 4] two.

Lemma expired_are_posted_witness :
  (exists s', run (replicate 8 Thread) both = Some s' /\ posted s' = [4; 8]) /\
  exists s', run (replicate (4 * length (signalled both)) Thread) both = Some s' /\
    posted s' = posted both ++ filter (fun id => id ∈ signalled both) (ids both) /\
    signalled s' = [] /\ settled s' /\ wait s' = Blocked.
Proof.
  split; [eexists; by vm_compute|].
  apply (expired_are_posted both); [apply two_settled|decided|decided].
Defined.

(** The thread has looked 4 up when both are erased; 8 is not posted, 4 once more. *)
Definition found : service := set_where (At_post 4) (set_signalled [8] two).
Definition after_erase (id : Z) : service := default init (run [Erase id] found).
Definition at_last (id : Z) : service := default init (run [Erase id; Thread; Thread; Thread] found).

Lemma erased_is_quiet_witness :
  (posts 4 (at_last 4) = [4] /\ posts 8 (at_last 8) = []) /\
  (where_ found <> At_post 8 -> posts 8 (at_last 8) = posts 8 found) /\
  (posts 8 (at_last 8) = posts 8 found \/ posts 8 (at_last 8) = posts 8 found ++ [8]).
Proof.
  split; [by vm_compute|].
  apply (erased_is_quiet 8 [Thread; Thread; Thread] found (after_erase 8) (at_last 8));
    [reflexivity|repeat constructor|by vm_compute].
Defined.

Lemma erased_too_late_witness :
  exists s1 s2, run [Thread; Thread; Thread; Erase 4; Set_event] both = Some s1 /\
    4 ∉ ids s1 /\ posted s1 = [] /\ run [Thread] s1 = Some s2 /\ posted s2 = [4].
Proof.
  apply (erased_too_late both [] 4 [8]); [apply two_settled|done|constructor|decided].
Defined.

Lemma changes_reach_thread_witness :
  (exists s', run [Add 6 10 0; Set_event; Thread; Thread] two = Some s' /\ settled s' /\
     ids s' ≡ₚ 6 :: ids two /\ signalled s' = [] /\ posted s' = []) /\
  exists s', run [Erase 4; Set_event; Thread; Thread; Thread; Thread] two = Some s' /\ settled s' /\
     ids s' = [8] /\ signalled s' = [] /\ posted s' = [].
Proof.
  split.
  - apply (changes_reach_thread 6 10 0 two); [apply two_settled|done|decided].
  - apply (changes_reach_thread 4 10 0 two); [apply two_settled|done|decided].
Defined.

(** 63 timers. *)
Definition many : service :=
  let l := map (fun n => (4 * Z.of_nat n, Timer 100 0 true)) (seq 1 63) in
  Service l false [] (None :: map (fun kt => Some kt.1) l) At_wait [].

Lemma many_settled : settled many.
Proof. split_and!; [by vm_compute|done|done| |done]. decided. Qed.

Lemma sixty_four_timers_witness :
  exists s1 s2, run [Add 2 10 0; Set_event; Thread; Thread] many = Some s1 /\
    Z.of_nat (length (timers_ s1)) = MAXIMUM_WAIT_OBJECTS /\
    run [Expire 4; Thread; Thread; Thread; Thread] s1 = Some s2 /\ posted s2 = [].
Proof.
  apply (sixty_four_timers many 2 10 0 [Expire 4; Thread; Thread; Thread; Thread]);
    [apply many_settled|done|decided|].
  repeat (constructor; [first [by left | right; by eexists]|]). constructor.
Defined.

Lemma basic_timer_life_witness :
  match Basic.construct two 12 50 20 with
  | Ret _ t => Basic.id_ t = 12 /\ exists t1 t2,
      Nat.iter 2 (fun m => Basic.async_wait 12 50 20 ;;; m) (Basic.cancel ;;; Basic.destroy) t = Ret tt t1 /\
      Nat.iter 2 (fun m => Basic.async_wait 12 50 20 ;;; m) Basic.destroy t = Ret tt t2 /\
      Basic.id_ t1 = 0 /\
      forall x, (x ∈ ids (Basic.service_ t1) <-> x ∈ ids two) /\ (x ∈ ids (Basic.service_ t2) <-> x ∈ ids two)
  | _ => False
  end.
Proof.
  destruct (Basic.construct two 12 50 20) as [[] t|e t| |] eqn:E; try done.
  destruct (Basic.basic_timer_life two 12 50 20 (-200000) 2 t) as (H1 & _ & H2); done || decided.
Defined.

End Demo.
