(* ===== verification/Locks.v ===== *)
(** * Locks, events and conditions

    include/multi_thread/lock.hpp: the scoped lock over any lock class, the lock
    classes, [event_t], and the conditions built from a semaphore or from events. A
    call that waits for ever does not return ([diverge]). *)

From S2P Require Import Prelude.

(** ** [auto_lock_t] over a lock class *)

Class Lockable (L : Type) := { lock : prog L unit; unlock : prog L unit }.

(** Taking a lock and giving it back changes nothing, from the states where it is
    not refused. *)
Class Balanced (L : Type) `{Lockable L} (free : L -> Prop) : Prop :=
  balanced l : free l -> exists l1, lock l = Ret tt l1 /\ unlock l1 = Ret tt l.

Section AutoLock.
Context {L W : Type} `{Lockable L}.

Definition on_lock (m : prog L unit) : prog (L * W) unit := fun s =>
  match m s.1 with
  | Ret a l => Ret a (l, s.2)
  | Throw e l => Throw e (l, s.2)
  | UB => UB
  | OutOfFuel => OutOfFuel
  end.

(** The scope of an [auto_lock_t]: the destructor runs on both ways out. *)
Definition auto_lock_t {A} (body : prog (L * W) A) : prog (L * W) A :=
  on_lock lock ;;; fun s =>
    match body s with
    | Ret a s' => (on_lock unlock ;;; ret a) s'
    | Throw e s' => (on_lock unlock ;;; throw e) s'
    | r => r
    end.

(** A scope is its body: whether that returns or throws, the lock is as before and
    the rest of the state is as the body left it. *)
Theorem auto_lock_released {A} free `{!Balanced L free} (body : prog W A) l w : free l ->
  auto_lock_t (fun s => match body s.2 with
                        | Ret a w' => Ret a (s.1, w')
                        | Throw e w' => Throw e (s.1, w')
                        | UB => UB
                        | OutOfFuel => OutOfFuel
                        end) (l, w) =
  match body w with
  | Ret a w' => Ret a (l, w')
  | Throw e w' => Throw e (l, w')
  | UB => UB
  | OutOfFuel => OutOfFuel
  end.
Proof.
  intros Hl. destruct (balanced l Hl) as (l1 & H1 & H2).
  unfold auto_lock_t, bind, on_lock. cbn. rewrite H1. cbn.
  destruct (body w); cbn; by rewrite ?H2.
Qed.
End AutoLock.

#[export] Instance lock_null : Lockable unit := {| lock := ret tt; unlock := ret tt |}.

#[export] Instance lock_null_balanced : Balanced unit (fun _ => True).
Proof. intros [] _. by exists tt. Qed.

(** [critical_section] and [spin_lock]: the owner and its depth, seen by thread
    [self]. *)
Definition critical_section : Type := option (nat * nat).

Section CriticalSection.
Context (self : nat).

Definition cs_lock : prog critical_section unit := fun s =>
  match s with
  | None => Ret tt (Some (self, 1%nat))
  | Some (owner, depth) => if (owner =? self)%nat then Ret tt (Some (self, S depth)) else OutOfFuel
  end.

Definition cs_unlock : prog critical_section unit := fun s =>
  match s with
  | Some (owner, S depth) =>
      if (owner =? self)%nat
      then Ret tt (match depth with O => None | _ => Some (self, depth) end) else UB
  | _ => UB
  end.

Definition critical_section_lock : Lockable critical_section :=
  {| lock := cs_lock; unlock := cs_unlock |}.

(** Free, or already this thread's. *)
Definition cs_free (s : critical_section) : Prop :=
  match s with None => True | Some (owner, depth) => owner = self /\ (0 < depth)%nat end.

Lemma cs_balanced : @Balanced critical_section critical_section_lock cs_free.
Proof.
  intros [[o [|d]]|] Hs; cbn in Hs; [lia| |].
  - destruct Hs as [-> _]. exists (Some (self, S (S d))). cbn. by rewrite Nat.eqb_refl.
  - exists (Some (self, 1%nat)). cbn. by rewrite Nat.eqb_refl.
Qed.
End CriticalSection.

(** ** [rd_lock_t] *)

Module Rw.

(** An [SRWLOCK]. *)
Inductive srw := Unlocked | Shared (readers : nat) | Exclusive.

Definition r_lock : prog srw unit := fun s =>
  match s with
  | Unlocked => Ret tt (Shared 0)
  | Shared n => Ret tt (Shared (S n))
  | Exclusive => OutOfFuel
  end.

Definition w_lock : prog srw unit := fun s =>
  match s with Unlocked => Ret tt Exclusive | _ => OutOfFuel end.

(** [ReleaseSRWLockShared]: undefined unless the lock is held in shared mode;
    [Shared n] has [n + 1] readers. *)
Definition ReleaseSRWLockShared : prog srw unit := fun s =>
  match s with
  | Shared O => Ret tt Unlocked
  | Shared (S n) => Ret tt (Shared n)
  | _ => UB
  end.

Definition r_unlock : prog srw unit := ReleaseSRWLockShared.
Definition w_unlock : prog srw unit := ReleaseSRWLockShared.

Definition rd_lock_t (is_shared : bool) : Lockable srw :=
  {| lock := if is_shared then r_lock else w_lock;
     unlock := if is_shared then r_unlock else w_unlock |}.

Definition r_free (s : srw) : Prop := s <> Exclusive.

Lemma shared_balanced : @Balanced srw (rd_lock_t true) r_free.
Proof. intros [|n|] Hs; [|by exists (Shared (S n))|done]. by exists (Shared 0). Qed.

(** The shared lock can be taken and released in a scope any number of times; the
    exclusive lock cannot be released at all: [w_unlock] releases the shared mode,
    so every scope that gets it ends in undefined behaviour. *)
Theorem rd_lock_scopes {W A} (body : prog (srw * W) A) s w :
  (forall l v, match body (l, v) with Ret _ (l', _) | Throw _ (l', _) => l' = l | _ => True end) ->
  (s <> Exclusive ->
     match @auto_lock_t _ _ (rd_lock_t true) _ body (s, w) with
     | Ret _ (l', _) | Throw _ (l', _) => l' = s
     | _ => True
     end) /\
  match @auto_lock_t _ _ (rd_lock_t false) _ body (s, w) with
  | Ret _ _ | Throw _ _ => False
  | _ => True
  end.
Proof.
  intros Hb. split.
  - intros Hs. destruct (shared_balanced s Hs) as (l1 & H1 & H2).
    unfold auto_lock_t, bind, on_lock. cbn [fst snd]. rewrite H1. specialize (Hb l1 w).
    destruct (body (l1, w)) as [a [l' w']|e [l' w']| |]; try done; subst l'; cbn [fst snd];
      by rewrite H2.
  - unfold auto_lock_t, bind, on_lock. destruct s; try done. cbn. specialize (Hb Exclusive w).
    destruct (body (Exclusive, w)) as [a [l' w']|e [l' w']| |]; try done; by subst l'.
Qed.

End Rw.

(** ** [event_t]: who closes the handle *)

Module Event.

(** [event_], 0 when there is none, and the handles that are open. *)
Record event_t := Mk { event_ : Z; open_handles : list Z }.

Definition init : event_t := Mk 0 [].

(** [create] and [open]; [h]: what the system answers, 0 on failure. *)
Definition create (h : Z) : prog event_t bool := fun e =>
  Ret (negb (h =? 0)) (Mk h (if h =? 0 then open_handles e else h :: open_handles e)).
Definition is_open : prog event_t bool := fun e => Ret (negb (event_ e =? 0)) e.

(** [CloseHandle] of a handle that is not open is an error the release build
    ignores. *)
Definition close : prog event_t unit := fun e =>
  if event_ e =? 0 then Ret tt e
  else Ret tt (Mk 0 (filter (fun h => h <> event_ e) (open_handles e))).

Definition attach (h : Z) : prog event_t unit := fun e => Ret tt (Mk h (open_handles e)).
Definition detach : prog event_t Z := fun e => Ret (event_ e) (Mk 0 (open_handles e)).

(** An event that was created is closed with its object; one that was detached
    lives on, and closing is idempotent. *)
Theorem event_life h others : h <> 0 -> h ∉ others ->
  let e := Mk 0 others in
  (create h ;;; close) e = Ret tt e /\
  (create h ;;; close ;;; close) e = Ret tt e /\
  (create h ;;; (let* g := detach in close ;;; ret g)) e = Ret h (Mk 0 (h :: others)) /\
  (create h ;;; (let* g := detach in attach g ;;; close)) e = Ret tt e.
Proof.
  intros H0 Hh. apply Z.eqb_neq in H0 as E.
  assert (Hf : forall l : list Z, h ∉ l -> filter (fun x => x <> h) l = l).
  { induction l as [|x l IH]; [done|]. intros [? ?] % not_elem_of_cons.
    rewrite filter_cons_True by congruence. f_equal. by apply IH. }
  assert (Hc : filter (fun x => x <> h) (h :: others) = others).
  { rewrite filter_cons_False by (by intros []). by apply Hf. }
  unfold create, close, detach, attach, bind, ret. repeat (cbn [event_ open_handles negb]; rewrite ?E, ?Hc). by split_and!.
Qed.

End Event.

(** ** The semaphore *)

Module Semaphore.

Definition long_max : Z := 2147483647.

(** [count]: the system's semaphore; [signal_count_]: the copy [reset] goes by. *)
Record semaphore := Mk { count : Z; signal_count_ : Z }.

Definition construct (initCount : Z) : semaphore := Mk initCount initCount.

(** [ReleaseSemaphore] fails, and adds nothing, beyond the maximum. *)
Definition ReleaseSemaphore (n : Z) : prog semaphore unit := fun s =>
  Ret tt (Mk (if count s + n <=? long_max then count s + n else count s) (signal_count_ s)).
Definition add_signal_count (n : Z) : prog semaphore unit := fun s =>
  Ret tt (Mk (count s) (s32 (signal_count_ s + n))).

Definition signal (n : Z) : prog semaphore unit :=
  if n <=? 0 then ret tt else ReleaseSemaphore n ;;; add_signal_count n.

(** [WaitForSingleObject]: [timed] when the wait ends without a signal. *)
Definition WaitForSingleObject (timed : bool) : prog semaphore bool := fun s =>
  if 0 <? count s then Ret true (Mk (count s - 1) (signal_count_ s))
  else if timed then Ret false s else OutOfFuel.

Definition wait (timed : bool) : prog semaphore bool :=
  let* r := WaitForSingleObject timed in add_signal_count (-1) ;;; ret r.

(** [for(i = 0; i < signal_count_; ++i)], the count read again in each round. *)
Fixpoint reset_loop (fuel : nat) (i : Z) : prog semaphore unit := fun s =>
  match fuel with
  | O => OutOfFuel
  | S f =>
      if i <? signal_count_ s then (WaitForSingleObject false ;;; reset_loop f (i + 1)) s
      else Ret tt s
  end.

Definition reset (fuel : nat) : prog semaphore unit :=
  reset_loop fuel 0 ;;; fun s => Ret tt (Mk (count s) 0).

(** The calls of one thread; answers how many waits timed out. *)
Inductive op := Signal (n : Z) | Wait (timed : bool).

Fixpoint run_ops (ops : list op) : prog semaphore nat :=
  match ops with
  | [] => ret 0%nat
  | Signal n :: ops' => signal n ;;; run_ops ops'
  | Wait timed :: ops' =>
      let* r := wait timed in
      let* t := run_ops ops' in
      ret (if r then t else S t)
  end.

Fixpoint signals (ops : list op) : Z :=
  match ops with
  | [] => 0
  | Signal n :: ops' => Z.max 0 n + signals ops'
  | Wait _ :: ops' => signals ops'
  end.

Lemma signals_pos ops : 0 <= signals ops.
Proof. induction ops as [|[] ops IH]; cbn; lia. Qed.

Lemma run_ops_counts ops t s s' k : 0 <= count s -> signal_count_ s = count s - k -> 0 <= k ->
  count s + signals ops <= long_max -> k + Z.of_nat (length ops) <= long_max ->
  run_ops ops s = Ret t s' ->
  0 <= count s' <= long_max /\ signal_count_ s' = count s' - (k + Z.of_nat t).
Proof.
  revert t s k. induction ops as [|[n|timed] ops IH]; intros t s k H0 Hc Hk Hm Hl Hr; cbn in *;
    try pose proof (signals_pos ops).
  - injection Hr as <- <-. lia.
  - unfold signal in Hr. destruct (n <=? 0) eqn:En; bool_props.
    + apply (IH t s k); lia || done.
    + unfold bind at 1 2, ReleaseSemaphore, add_signal_count in Hr. cbn [count signal_count_] in Hr.
      rewrite (proj2 (Z.leb_le _ _)) in Hr by lia.
      rewrite s32_small in Hr by (unfold long_max in *; lia).
      eapply IH; [..|exact Hr]; cbn; lia.
  - apply bind_Ret_inv in Hr as (r & s1 & Hw & Hr). apply bind_Ret_inv in Hr as (t1 & s2 & Hr & Ht).
    injection Ht as <- <-. unfold wait, bind, WaitForSingleObject, add_signal_count in Hw.
    destruct (0 <? count s) eqn:E; [|destruct timed; [|done]]; bool_props; injection Hw as <- <-;
      cbn [signal_count_ count] in *.
    + rewrite s32_small in Hr by (unfold long_max in *; lia). eapply IH; [..|exact Hr]; cbn; lia.
    + rewrite s32_small in Hr by (unfold long_max in *; lia).
      destruct (IH t1 (Mk (count s) (signal_count_ s + -1)) (k + 1)) as [H1 H2]; cbn; lia || done.
Qed.

Lemma reset_loop_ok f i s : 0 <= i -> (Z.to_nat (signal_count_ s - i) < f)%nat ->
  signal_count_ s - i <= count s ->
  reset_loop f i s = Ret tt (Mk (count s - Z.max 0 (signal_count_ s - i)) (signal_count_ s)).
Proof.
  revert i s. induction f as [|f IH]; intros i s Hi Hf Hc; [lia|]. cbn [reset_loop].
  destruct (i <? signal_count_ s) eqn:E; bool_props.
  - unfold bind, WaitForSingleObject. rewrite (proj2 (Z.ltb_lt _ _)) by lia.
    rewrite IH by (cbn; lia). cbn. do 2 f_equal. lia.
  - destruct s as [c k]. cbn in *. do 2 f_equal. lia.
Qed.

(** [reset] takes away the signals that are there, except as many as earlier waits
    timed out: a wait that times out is counted as one that took a signal. *)
Theorem reset_leaves_signals initCount ops t s fuel : 0 <= initCount ->
  initCount + signals ops <= long_max -> Z.of_nat (length ops) <= long_max ->
  run_ops ops (construct initCount) = Ret t s -> (Z.to_nat (count s) < fuel)%nat ->
  reset fuel s = Ret tt (Mk (Z.min (count s) (Z.of_nat t)) 0).
Proof.
  intros H0 Hm Hl Hr Hf.
  destruct (run_ops_counts ops t (construct initCount) s 0) as [Hc Hs]; cbn; try lia; [done|].
  unfold reset, bind. rewrite reset_loop_ok by lia. cbn. do 2 f_equal. lia.
Qed.

End Semaphore.

(** ** [multiple_event_t] *)

Module Events.
Section Events.
Context (Size : Z).

(** The manual-reset events, set or not, and the index of the last set one. *)
Record multiple_event := Mk { events_ : list bool; pos_ : Z }.

Definition construct : multiple_event := Mk (replicate (Z.to_nat Size) false) (-1).

(** [SetEvent] and [ResetEvent] of the events [lo..hi]. *)
Definition set_range (b : bool) (lo hi : Z) (l : list bool) : list bool :=
  imap (fun i x => if (lo <=? Z.of_nat i) && (Z.of_nat i <=? hi) then b else x) l.

Definition signal (count : Z) : prog multiple_event unit := fun s =>
  if count <=? 0 then Ret tt s
  else if Semaphore.long_max <? pos_ s + count then UB
  else
    let max := if Size <=? pos_ s + count then Size - 1 else pos_ s + count in
    Ret tt (Mk (set_range true (pos_ s + 1) max (events_ s)) (pos_ s + (max - pos_ s))).

(** [SignalObjectAndWait(events_[waitPos], events_[waitPos], ...)] sets the event
    and then waits for it; a manual-reset event stays set. The answer is
    [ret == WAIT_FAILED]. *)
Definition wait : prog multiple_event bool := fun s =>
  let waitPos := if pos_ s <? 0 then 0 else pos_ s in
  match events_ s !! Z.to_nat waitPos with
  | None => UB
  | Some _ =>
      let l := <[Z.to_nat waitPos := true]> (events_ s) in
      match l !! Z.to_nat waitPos with
      | Some true => Ret false (Mk l (if waitPos =? 0 then pos_ s else pos_ s - 1))
      | _ => OutOfFuel
      end
  end.

Definition reset : prog multiple_event unit := fun s =>
  Ret tt (Mk (set_range false 0 (pos_ s) (events_ s)) (-1)).

Inductive op := Signal (count : Z) | Wait | Reset.

(** Answers what the waits answered. *)
Fixpoint run_ops (ops : list op) : prog multiple_event (list bool) :=
  match ops with
  | [] => ret []
  | Signal n :: ops' => signal n ;;; run_ops ops'
  | Wait :: ops' => let* b := wait in let* l := run_ops ops' in ret (b :: l)
  | Reset :: ops' => reset ;;; run_ops ops'
  end.

Definition wf (s : multiple_event) : Prop :=
  length (events_ s) = Z.to_nat Size /\ -1 <= pos_ s < Size.

Definition small (o : op) : Prop :=
  match o with Signal n => n + Size <= Semaphore.long_max | _ => True end.

Lemma run_ops_wf ops s : 0 < Size -> Forall small ops -> wf s ->
  exists l s', run_ops ops s = Ret l s' /\ wf s' /\ Forall (fun b => b = false) l.
Proof.
  intros H0 Ho. revert s. induction Ho as [|o ops Ho Hops IH]; intros s Hw; [by exists [], s|].
  pose proof Hw as [Hl Hp]. destruct o as [n| |]; cbn [run_ops].
  - unfold bind, signal. destruct (n <=? 0) eqn:E; bool_props; [by apply IH|].
    cbn in Ho. rewrite (proj2 (Z.ltb_ge _ _)) by lia. apply IH. split; cbn.
    + unfold set_range. by rewrite length_imap.
    + destruct (Size <=? _) eqn:E1; bool_props; lia.
  - set (p := if pos_ s <? 0 then 0 else pos_ s).
    assert (0 <= p < Size) by (unfold p; destruct (pos_ s <? 0) eqn:E; bool_props; lia).
    destruct (lookup_lt_is_Some_2 (events_ s) (Z.to_nat p)) as [b Hb]; [lia|].
    unfold bind at 1, wait. fold p. rewrite Hb, list_lookup_insert_eq by lia.
    destruct (IH (Mk (<[Z.to_nat p := true]> (events_ s)) (if p =? 0 then pos_ s else pos_ s - 1)))
      as (l & s' & Hr & Hw' & Hf).
    { split; cbn; [by rewrite length_insert|]. destruct (p =? 0) eqn:E; bool_props; [lia|].
      unfold p in *. destruct (pos_ s <? 0); lia. }
    exists (false :: l), s'. unfold bind. rewrite Hr. split_and!; [done..|]. by constructor.
  - unfold bind, reset. apply IH. split; cbn; [|lia]. unfold set_range. by rewrite length_imap.
Qed.

(** A condition made of events never waits: [wait] signals the very event it then
    waits for, so it returns at once, whatever was signalled before, and answers
    [false], which is its answer for success; no index leaves the array. *)
Theorem events_never_wait ops : 0 < Size -> Forall small ops ->
  exists l s, run_ops ops construct = Ret l s /\ Forall (fun b => b = false) l /\
    -1 <= pos_ s < Size.
Proof.
  intros H0 Ho. destruct (run_ops_wf ops construct H0 Ho) as (l & s & Hr & [_ Hp] & Hf).
  - split; cbn; [by rewrite length_replicate|lia].
  - by exists l, s.
Qed.

End Events.
End Events.

(** ** [condition_t] over the semaphore *)

Module Condition.
Import Semaphore.

(** The atomic steps of the operations are named, for their interleavings. *)
Record condition := Cond { waitCount_ : Z; events_ : semaphore }.

Definition init : condition := Cond 0 (construct 0).

Definition add_wait_count (n : Z) (c : condition) : condition :=
  Cond (s32 (waitCount_ c + n)) (events_ c).
Definition on_events {A} (m : prog semaphore A) : prog condition A := fun c =>
  match m (events_ c) with
  | Ret a s => Ret a (Cond (waitCount_ c) s)
  | Throw e s => Throw e (Cond (waitCount_ c) s)
  | UB => UB
  | OutOfFuel => OutOfFuel
  end.

Definition signal : prog condition unit := fun c =>
  if negb (waitCount_ c =? 0)
  then (on_events (Semaphore.signal 1) ;;; fun c' => Ret tt (add_wait_count (-1) c')) c
  else Ret tt c.

(** [wait] up to the semaphore, and the rest of it. *)
Definition wait_enter : prog condition unit := fun c => Ret tt (add_wait_count 1 c).
Definition wait (timed : bool) : prog condition bool :=
  wait_enter ;;; on_events (Semaphore.wait timed).

(** [broadcast] up to the signal, and the rest; [waitCount_] is read twice. *)
Definition broadcast_signal : prog condition unit := fun c =>
  on_events (Semaphore.signal (waitCount_ c)) c.
Definition broadcast_clear : prog condition unit := fun c => Ret tt (Cond 0 (events_ c)).
Definition broadcast : prog condition unit := fun c =>
  if negb (waitCount_ c =? 0) then (broadcast_signal ;;; broadcast_clear) c else Ret tt c.

Definition reset (fuel : nat) : prog condition unit := on_events (Semaphore.reset fuel).

Fixpoint times (n : nat) (m : prog condition unit) : prog condition unit :=
  match n with O => ret tt | S n' => m ;;; times n' m end.

(** Two conditions with equal counts. *)
Lemma same_condition a b c a' b' c' : a = a' -> b = b' -> c = c' ->
  Ret tt (Cond a (Mk b c)) = Ret tt (Cond a' (Mk b' c')).
Proof. by intros -> -> ->. Qed.

(** The steps of a wait that was asleep at the semaphore. *)
Definition woken : prog condition unit := on_events (Semaphore.wait false) ;;; ret tt.

Lemma woken_once w k j : 0 < k -> -2147483648 < j < 2147483648 ->
  woken (Cond w (Mk k j)) = Ret tt (Cond w (Mk (k - 1) (j - 1))).
Proof.
  intros Hk Hj. unfold woken, bind, on_events, Semaphore.wait, bind, WaitForSingleObject, add_signal_count.
  cbn. rewrite (proj2 (Z.ltb_lt _ _)) by lia. cbn. by rewrite s32_small by lia.
Qed.

Lemma woken_times k w j : Z.of_nat k - 2147483648 <= j < 2147483648 ->
  times k woken (Cond w (Mk (Z.of_nat k) j)) = Ret tt (Cond w (Mk 0 (j - Z.of_nat k))).
Proof.
  revert j. induction k as [|k IH]; intros j Hj.
  - cbn. by rewrite Z.sub_0_r.
  - cbn [times]. unfold bind. rewrite woken_once by lia.
    replace (Z.of_nat (S k) - 1) with (Z.of_nat k) by lia. rewrite IH by lia. apply same_condition; lia.
Qed.

Lemma signal_once w k j : w <> 0 -> -2147483648 < w < 2147483648 -> 0 <= k < long_max ->
  -2147483648 <= j < long_max ->
  signal (Cond w (Mk k j)) = Ret tt (Cond (w - 1) (Mk (k + 1) (j + 1))).
Proof.
  intros H0 Hw Hk Hj. unfold signal. cbn [waitCount_]. rewrite (proj2 (Z.eqb_neq _ _)) by done.
  unfold long_max in *. unfold bind, on_events, Semaphore.signal, bind, ReleaseSemaphore, add_signal_count, add_wait_count.
  cbn. rewrite (proj2 (Z.leb_le _ _)) by (unfold long_max; lia). by rewrite !s32_small by lia.
Qed.

(** The release of as many signals as wait. *)
Lemma broadcast_signal_ok k : 0 < k <= long_max ->
  broadcast_signal (Cond k (Mk 0 0)) = Ret tt (Cond k (Mk k k)).
Proof.
  intros Hk. unfold broadcast_signal, on_events, Semaphore.signal. cbn [waitCount_ events_].
  rewrite (proj2 (Z.leb_gt _ _)) by lia. unfold bind, ReleaseSemaphore, add_signal_count. cbn.
  rewrite (proj2 (Z.leb_le _ _)) by lia. by rewrite s32_small by (unfold long_max in *; lia).
Qed.

(** An undisturbed [broadcast] wakes everyone. When a wait begins between its signal
    and its store of 0, that wait is forgotten: after the others have been woken it
    sleeps on however many signals follow. *)
Theorem broadcast_race k n : 0 < Z.of_nat k < long_max ->
  let asleep := Cond (Z.of_nat k) (Mk 0 0) in
  (broadcast ;;; times k woken) asleep = Ret tt init /\
  (broadcast_signal ;;; wait_enter ;;; broadcast_clear ;;; times k woken) asleep = Ret tt init /\
  (times n signal ;;; woken) init = OutOfFuel.
Proof.
  intros Hk asleep. pose proof (broadcast_signal_ok (Z.of_nat k) ltac:(lia)) as Hb.
  unfold long_max in *. split_and!.
  - unfold broadcast, bind at 1. cbn [asleep waitCount_].
    rewrite (proj2 (Z.eqb_neq _ _)) by lia. cbn [negb]. unfold asleep, bind. rewrite Hb.
    unfold broadcast_clear. cbn [events_]. rewrite woken_times by lia. by rewrite Z.sub_diag.
  - unfold asleep, bind. rewrite Hb. unfold wait_enter, broadcast_clear, add_wait_count. cbn [events_].
    rewrite woken_times by lia. by rewrite Z.sub_diag.
  - assert (times n signal init = Ret tt init) as E.
    { induction n as [|n IH]; [done|]. cbn [times]. unfold bind, signal at 1. cbn. done. }
    unfold bind. by rewrite E.
Qed.

Definition any_wait (timed : bool) : prog condition unit := wait timed ;;; ret tt.

Lemma timed_out_once w j : -2147483648 <= w + 1 < 2147483648 -> -2147483648 < j < 2147483648 ->
  any_wait true (Cond w (Mk 0 j)) = Ret tt (Cond (w + 1) (Mk 0 (j - 1))).
Proof.
  intros Hw Hj. unfold any_wait, wait, bind, wait_enter, add_wait_count, on_events, Semaphore.wait, bind,
    WaitForSingleObject, add_signal_count. cbn. by rewrite !s32_small by lia.
Qed.

Lemma let_through_once w k j : -2147483648 <= w + 1 < 2147483648 -> 0 < k ->
  -2147483648 < j < 2147483648 ->
  any_wait false (Cond w (Mk k j)) = Ret tt (Cond (w + 1) (Mk (k - 1) (j - 1))).
Proof.
  intros Hw Hk Hj. rewrite <- (woken_once (w + 1)) by done.
  unfold any_wait, wait, woken, bind, wait_enter, add_wait_count. cbn. by rewrite s32_small by lia.
Qed.

Lemma timeouts_count n w j : -2147483648 <= w -> w + Z.of_nat n < 2147483648 ->
  Z.of_nat n - 2147483648 <= j < 2147483648 ->
  times n (any_wait true) (Cond w (Mk 0 j)) = Ret tt (Cond (w + Z.of_nat n) (Mk 0 (j - Z.of_nat n))).
Proof.
  revert w j. induction n as [|n IH]; intros w j Hw Hn Hj.
  - cbn. by rewrite Z.add_0_r, Z.sub_0_r.
  - cbn [times]. unfold bind. rewrite timed_out_once, IH by lia. apply same_condition; lia.
Qed.

Lemma let_through_times k w j : 0 <= w -> w + Z.of_nat k < 2147483648 ->
  Z.of_nat k - 2147483648 <= j < 2147483648 ->
  times k (any_wait false) (Cond w (Mk (Z.of_nat k) j)) =
  Ret tt (Cond (w + Z.of_nat k) (Mk 0 (j - Z.of_nat k))).
Proof.
  revert w j. induction k as [|k IH]; intros w j Hw Hk Hj; [cbn; by rewrite Z.add_0_r, Z.sub_0_r|].
  cbn [times]. unfold bind. rewrite let_through_once by lia.
  replace (Z.of_nat (S k) - 1) with (Z.of_nat k) by lia. rewrite IH by lia. apply same_condition; lia.
Qed.

Lemma signal_times n k j : 0 <= k -> k + Z.of_nat n <= long_max ->
  -2147483648 <= j -> j + Z.of_nat n <= long_max ->
  times n signal (Cond (Z.of_nat n) (Mk k j)) = Ret tt (Cond 0 (Mk (k + Z.of_nat n) (j + Z.of_nat n))).
Proof.
  revert k j. induction n as [|n IH]; intros k j Hk Hkn Hj Hjn.
  - cbn. by rewrite !Z.add_0_r.
  - cbn [times]. unfold bind. unfold long_max in *. rewrite signal_once by (unfold long_max; lia).
    replace (Z.of_nat (S n) - 1) with (Z.of_nat n) by lia. rewrite IH by lia. apply same_condition; lia.
Qed.

(** Waits that time out stay counted: as many later signals, which nobody waits for,
    are banked, and each lets a later wait through at once, without a signal of its
    own. *)
Theorem timeouts_bank_signals n : Z.of_nat n <= long_max ->
  let banked := Cond 0 (Mk (Z.of_nat n) 0) in
  (times n (any_wait true) ;;; times n signal) init = Ret tt banked /\
  times n (any_wait false) banked = Ret tt (Cond (Z.of_nat n) (Mk 0 (- Z.of_nat n))).
Proof.
  intros Hn. unfold long_max in *. split.
  - unfold bind at 1, init, construct. rewrite timeouts_count by lia. rewrite !Z.add_0_l.
    rewrite signal_times by (unfold long_max; lia). apply same_condition; lia.
  - rewrite let_through_times by lia. apply same_condition; lia.
Qed.

End Condition.

(** ** Witnesses *)

Module Demo.

Lemma auto_lock_released_witness :
  @auto_lock_t _ _ (critical_section_lock 1) _ (fun s : critical_section * Z =>
     match (fun w : Z => Throw (A := unit) out_of_range (w + 1)) s.2 with
     | Ret a w' => Ret a (s.1, w')
     | Throw e w' => Throw e (s.1, w')
     | UB => UB
     | OutOfFuel => OutOfFuel
     end) (None, 7) = Throw out_of_range (None, 8).
Proof.
  pose proof (cs_balanced 1) as Hb.
  apply (@auto_lock_released _ Z (critical_section_lock 1) unit (cs_free 1) Hb
    (fun w => Throw out_of_range (w + 1)) None 7 I).
Defined.

Lemma rd_lock_scopes_witness :
  (Rw.Unlocked <> Rw.Exclusive ->
   match @auto_lock_t _ _ (Rw.rd_lock_t true) _ (ret tt) (Rw.Unlocked, tt) with
   | Ret _ (l', _) | Throw _ (l', _) => l' = Rw.Unlocked
   | _ => True
   end) /\
  match @auto_lock_t _ _ (Rw.rd_lock_t false) _ (ret tt) (Rw.Unlocked, tt) with
  | Ret _ _ | Throw _ _ => False
  | _ => True
  end.
Proof. apply (Rw.rd_lock_scopes (ret tt) Rw.Unlocked tt). done. Defined.

Lemma event_life_witness :
  let e := Event.Mk 0 [4] in (Event.create 8 ;;; Event.close) e = Ret tt e.
Proof. refine (proj1 (Event.event_life 8 [4] _ _)); [done|]. apply (bool_decide_unpack _). by vm_compute. Defined.

(** Two signals, one wait that times out before them: one is left. *)
Lemma reset_leaves_signals_witness :
  Semaphore.reset 3 (Semaphore.Mk 2 1) = Ret tt (Semaphore.Mk 1 0).
Proof.
  apply (Semaphore.reset_leaves_signals 0 [Semaphore.Wait true; Semaphore.Signal 2] 1
    (Semaphore.Mk 2 1) 3); first [done | cbn; lia].
Defined.

Lemma events_never_wait_witness : exists l s,
  Events.run_ops 10 [Events.Wait; Events.Signal 3; Events.Wait; Events.Reset; Events.Wait] (Events.construct 10)
    = Ret l s /\ Forall (fun b => b = false) l /\ -1 <= Events.pos_ s < 10.
Proof.
  apply (Events.events_never_wait 10); [done|].
  repeat (constructor; [cbn; unfold Semaphore.long_max; first [done | lia]|]). constructor.
Defined.

Lemma broadcast_race_witness :
  (Condition.broadcast ;;; Condition.times 2 Condition.woken)
    (Condition.Cond 2 (Semaphore.Mk 0 0)) = Ret tt Condition.init.
Proof. refine (proj1 (Condition.broadcast_race 2 5 _)). by unfold Semaphore.long_max. Defined.

Lemma timeouts_bank_signals_witness :
  (Condition.times 3 (Condition.any_wait true) ;;; Condition.times 3 Condition.signal) Condition.init =
  Ret tt (Condition.Cond 0 (Semaphore.Mk 3 0)).
Proof. refine (proj1 (Condition.timeouts_bank_signals 3 _)). by unfold Semaphore.long_max. Defined.

End Demo.
