(* ===== verification/WaitObjects.v ===== *)
(** * Events, mutexes and condition variables of the system

    include/multi_thread/lock.hpp: what [event_t] does with its event ([set_event],
    [reset_event], [pulse_event], [is_signalled], [wait_for_event]; the class [event_t] of
    include/async_io/timer/impl/timer_service.hpp is the same), [mutex], and
    [condition_t] over [ms_condition], a condition variable of the system. The handles
    of [event_t] are in Locks.v. *)

From S2P Require Import Prelude Locks.

(** ** event_t *)

Module KernelEvent.

(** The event behind a handle; [valid]: the handle is one. [blocked]: the threads in
    [wait_for_event]; [passed]: those whose wait has returned [true]. *)
Record kevent := KEvent {
  valid : bool;
  manual : bool;
  signalled : bool;
  blocked : list nat;
  passed : list nat
}.

Definition create (works bManualReset bInitialState : bool) : kevent := KEvent works bManualReset (works && bInitialState) [] [].

Definition set_signal (b : bool) (e : kevent) : kevent := KEvent (valid e) (manual e) b (blocked e) (passed e).
Definition release_all (e : kevent) : kevent := KEvent (valid e) (manual e) (signalled e) [] (passed e ++ blocked e).
(** The system lets one go; which, [pick] says. *)
Definition release_one (pick : nat) (e : kevent) : kevent :=
  match blocked e !! (pick mod length (blocked e))%nat with
  | Some t => KEvent (valid e) (manual e) (signalled e) (delete (pick mod length (blocked e))%nat (blocked e)) (passed e ++ [t])
  | None => e
  end.

Definition reset_event : prog kevent bool := fun e => if valid e then Ret true (set_signal false e) else Ret false e.

Definition set_event (pick : nat) : prog kevent bool := fun e =>
  if negb (valid e) then Ret false e
  else if manual e then Ret true (set_signal true (release_all e))
  else match blocked e with
       | [] => Ret true (set_signal true e)
       | _ => Ret true (release_one pick e)
       end.

Definition pulse_event (pick : nat) : prog kevent bool := fun e =>
  if negb (valid e) then Ret false e
  else Ret true (set_signal false (if manual e then release_all e else release_one pick e)).

(** A wait for no time; of an event that resets itself it takes the signal. *)
Definition is_signalled : prog kevent bool := fun e =>
  if valid e && signalled e then Ret true (if manual e then e else set_signal false e) else Ret false e.

(** [wait_for_event] of the thread [t], up to the point where it returns or blocks:
    [Some] is what it returned. *)
Definition wait_for_event (t : nat) : prog kevent (option bool) := fun e =>
  if negb (valid e) then Ret (Some false) e
  else if signalled e then
    Ret (Some true) (KEvent (valid e) (manual e) (manual e) (blocked e) (passed e ++ [t]))
  else Ret None (KEvent (valid e) (manual e) (signalled e) (blocked e ++ [t]) (passed e)).

(** What threads do with an event; the result is how many signals were taken by
    [is_signalled]. *)
Inductive op := Set_ (pick : nat) | Reset_ | Pulse (pick : nat) | Poll | Wait (t : nat).
Definition exec_op (o : op) : prog kevent nat :=
  match o with
  | Set_ pick => set_event pick ;;; ret 0%nat
  | Reset_ => reset_event ;;; ret 0%nat
  | Pulse pick => pulse_event pick ;;; ret 0%nat
  | Poll => let* b := is_signalled in ret (if b : bool then 1 else 0)%nat
  | Wait t => wait_for_event t ;;; ret 0%nat
  end.
Fixpoint run_ops (l : list op) : prog kevent nat :=
  match l with
  | [] => ret 0%nat
  | o :: l => let* a := exec_op o in let* b := run_ops l in ret (a + b)%nat
  end.

Definition is_set (o : op) : nat := match o with Set_ _ | Pulse _ => 1 | _ => 0 end.

(** Nobody waits for an event that is signalled. *)
Definition wf (e : kevent) : Prop := signalled e = true -> valid e = true /\ blocked e = [].

Definition one (b : bool) : nat := if b then 1 else 0.

Lemma release_one_counts pick e : blocked e <> [] ->
  length (passed (release_one pick e)) = S (length (passed e)) /\
  length (blocked e) = S (length (blocked (release_one pick e))) /\
  signalled (release_one pick e) = signalled e /\ manual (release_one pick e) = manual e /\
  valid (release_one pick e) = valid e.
Proof.
  intros Hb. unfold release_one.
  assert (Hlt : (pick mod length (blocked e) < length (blocked e))%nat) by (apply Nat.mod_upper_bound; by destruct (blocked e)).
  destruct (lookup_lt_is_Some_2 _ _ Hlt) as [t Ht]. rewrite Ht. cbn. rewrite length_app, length_delete by done.
  cbn. split_and!; try done; lia.
Qed.

Lemma release_one_none pick e : blocked e = [] -> release_one pick e = e.
Proof. intros Hb. unfold release_one. by rewrite Hb, lookup_nil. Qed.

(** One operation: the signals taken and kept are at most one more when it sets. *)
Lemma exec_counts o e : wf e -> manual e = false ->
  exists n e', exec_op o e = Ret n e' /\ wf e' /\ manual e' = false /\
    (n + length (passed e') + one (signalled e') <= length (passed e) + one (signalled e) + is_set o)%nat.
Proof.
  destruct e as [v m s b p]. intros Hw Hm. cbn in Hm. subst m. unfold wf in *. cbn in Hw.
  destruct o as [pick| |pick| |t]; cbn [exec_op]; unfold bind, ret, set_event, reset_event, pulse_event, is_signalled, wait_for_event;
    cbn; (destruct v; cbn; [|eexists _, _; split; [done|]; cbn; split; [intros H; by destruct (Hw H)|]; split; [done|]; lia]).
  - destruct b as [|t b]; [eexists _, _; split; [done|]; cbn; split_and!; try done; destruct s; cbn; lia|].
    destruct (release_one_counts pick (KEvent true false s (t :: b) p)) as (Hp & Hb & Hs & Hm & Hv); [done|].
    eexists _, _. split; [done|]. rewrite Hs, Hm, Hp. cbn. split; [|split; [done|]; lia].
    intros H. by destruct (Hw H).
  - eexists _, _. split; [done|]. cbn. split_and!; try done. lia.
  - destruct b as [|t b].
    + rewrite release_one_none by done. eexists _, _. split; [done|]. cbn. split_and!; try done. lia.
    + destruct (release_one_counts pick (KEvent true false s (t :: b) p)) as (Hp & Hb & Hs & Hm & Hv); [done|].
      eexists _, _. split; [done|]. cbn. rewrite Hp, Hm. cbn. split_and!; try done. lia.
  - destruct s; cbn; eexists _, _; (split; [done|]); cbn; split_and!; try done; lia.
  - destruct s; cbn; eexists _, _; (split; [done|]); cbn; (split; [|split; [done|]]); rewrite ?length_app; cbn; try done; lia.
Qed.

(** An event that resets itself lets at most one thread pass for each time it was set
    or pulsed, whoever asks and waits. *)
Theorem auto_reset_counted l works initial : exists n e,
  run_ops l (create works false initial) = Ret n e /\
  (n + length (passed e) <= one initial + total is_set l)%nat /\ (signalled e = true -> blocked e = []).
Proof.
  assert (H : forall e, wf e -> manual e = false -> exists n e', run_ops l e = Ret n e' /\ wf e' /\
    (n + length (passed e') + one (signalled e') <= length (passed e) + one (signalled e) + total is_set l)%nat).
  { induction l as [|o l IH]; intros e Hw Hm; [exists 0%nat, e; cbn; split; [done|]; split; [done|]; lia|].
    destruct (exec_counts o e Hw Hm) as (a & e1 & H1 & Hw1 & Hm1 & Hc1). destruct (IH e1 Hw1 Hm1) as (b & e2 & H2 & Hw2 & Hc2).
    exists (a + b)%nat, e2. cbn [run_ops total]. rewrite (bind_ret _ _ _ _ _ H1), (bind_ret _ _ _ _ _ H2). split; [done|]. split; [done|]. lia. }
  destruct (H (create works false initial)) as (n & e & H1 & Hw & Hc); [|done|].
  { intros Hs. cbn in *. by destruct works. }
  exists n, e. split; [done|]. split; [|intros Hs; apply (Hw Hs)].
  cbn in Hc. destruct works, initial; cbn in *; lia.
Qed.

(** Asking such an event whether it is signalled takes the signal: the answer is [true]
    once, and a thread that waits after it blocks. Without a handle a wait returns at
    once. *)
Theorem asking_takes e t : wf e -> signalled e = true ->
  (manual e = false ->
     (let* a := is_signalled in let* b := is_signalled in let* c := wait_for_event t in ret (a, b, c)) e =
       Ret (true, false, None) (KEvent true false false [t] (passed e))) /\
  (manual e = true -> is_signalled e = Ret true e /\ exists e', wait_for_event t e = Ret (Some true) e' /\ signalled e' = true) /\
  forall u, wait_for_event u (create false (manual e) true) = Ret (Some false) (create false (manual e) true).
Proof.
  destruct e as [v m s b p]. intros Hw Hs. cbn in Hs. subst s. destruct (Hw eq_refl) as [Hv Hb]. cbn in Hv, Hb. subst v b.
  cbn. split; [intros ->; done|]. split; [intros ->|done]. split; [done|]. unfold wait_for_event. cbn. by eexists.
Qed.

End KernelEvent.

(** ** mutex *)

Module Mutex.

(** *** The system's side

    A mutex object as the system documents it: the thread that owns it and how often;
    [abandoned]: its last owner ended without releasing it. [valid]: the handle is one. *)
Record kmutex := KMutex { valid : bool; owner : option (nat * nat); abandoned : bool }.

Inductive wait_result := WAIT_OBJECT_0 | WAIT_ABANDONED | WAIT_FAILED.

(** Called by the thread [self]; it may fail. *)
Definition CreateMutex (works bInitialOwner : bool) (self : nat) : kmutex :=
  KMutex works (if works && bInitialOwner then Some (self, 1%nat) else None) false.

(** A wait of the thread [t] without a limit; [OutOfFuel]: it does not return. *)
Definition WaitForSingleObject (t : nat) : prog kmutex wait_result := fun m =>
  if negb (valid m) then Ret WAIT_FAILED m
  else match owner m with
       | None => Ret (if abandoned m then WAIT_ABANDONED else WAIT_OBJECT_0) (KMutex true (Some (t, 1%nat)) false)
       | Some (o, d) => if (o =? t)%nat then Ret WAIT_OBJECT_0 (KMutex true (Some (t, S d)) (abandoned m)) else OutOfFuel
       end.

(** It fails for a thread that does not own the mutex. *)
Definition ReleaseMutex (t : nat) : prog kmutex bool := fun m =>
  match owner m with
  | Some (o, S d) =>
      if (o =? t)%nat && valid m then Ret true (KMutex true (match d with O => None | _ => Some (t, d) end) (abandoned m)) else Ret false m
  | _ => Ret false m
  end.

(** *** The class

    It is one call of the system each; the results are dropped: that the mutex was
    abandoned is not told, and neither is that a call failed. *)
Definition mutex (works bInitialOwner : bool) (self : nat) : kmutex := CreateMutex works bInitialOwner self.

Definition lock (t : nat) : prog kmutex unit := let* _ := WaitForSingleObject t in ret tt.

Definition unlock (t : nat) : prog kmutex unit := let* _ := ReleaseMutex t in ret tt.

(** The thread [t] ends. *)
Definition thread_exit (t : nat) : prog kmutex unit := fun m =>
  match owner m with
  | Some (o, _) => if (o =? t)%nat then Ret tt (KMutex (valid m) None true) else Ret tt m
  | None => Ret tt m
  end.

Definition mutex_lock (self : nat) : Lockable kmutex := {| Locks.lock := lock self; Locks.unlock := unlock self |}.

(** A scope of [auto_lock_t] leaves the mutex as it was, unless it was abandoned. *)
Definition mutex_free (self : nat) (m : kmutex) : Prop :=
  match owner m with None => abandoned m = false | Some (o, d) => o = self /\ (0 < d)%nat /\ valid m = true end.

Lemma mutex_balanced self : @Balanced kmutex (mutex_lock self) (mutex_free self).
Proof.
  intros [v [[o [|d]]|] a] H; unfold mutex_free in H; cbn in *; try lia.
  - destruct H as (-> & _ & ->). exists (KMutex true (Some (self, S (S d))) a). unfold lock, unlock, WaitForSingleObject, ReleaseMutex, bind, ret. cbn. by rewrite Nat.eqb_refl.
  - subst a. unfold lock, unlock, WaitForSingleObject, ReleaseMutex, bind, ret. cbn. destruct v; cbn; [|by eexists]. eexists. split; [done|]. cbn. by rewrite Nat.eqb_refl.
Qed.

Inductive event := Lock (t : nat) | Unlock (t : nat) | Exit (t : nat).
Definition exec_event (e : event) : prog kmutex unit :=
  match e with Lock t => lock t | Unlock t => unlock t | Exit t => thread_exit t end.

(** The events that happen: a thread that has to wait does not go on. *)
Fixpoint run (l : list event) (m : kmutex) : option kmutex :=
  match l with
  | [] => Some m
  | e :: l => match exec_event e m with Ret _ m' => run l m' | _ => None end
  end.

(** How often a thread is inside, by its own calls. *)
Definition inside_step (t : nat) (n : nat) (e : event) : nat :=
  match e with
  | Lock u => if (u =? t)%nat then S n else n
  | Unlock u => if (u =? t)%nat then Nat.pred n else n
  | Exit u => if (u =? t)%nat then 0%nat else n
  end.
Definition inside (t : nat) (l : list event) : nat := fold_left (inside_step t) l 0%nat.

Definition agrees (f : nat -> nat) (m : kmutex) : Prop :=
  valid m = true /\ forall t, f t = match owner m with Some (o, d) => if (o =? t)%nat then d else 0%nat | None => 0%nat end.

Lemma event_agrees e f m m' : agrees f m -> exec_event e m = Ret tt m' -> agrees (fun t => inside_step t (f t) e) m'.
Proof.
  destruct m as [v o a]. intros [Hv Hf]. cbn in Hv, Hf. subst v. destruct e as [u|u|u]; cbn [exec_event];
    unfold lock, unlock, WaitForSingleObject, ReleaseMutex, bind, ret, thread_exit; cbn.
  - destruct o as [[o d]|]; [destruct (Nat.eqb_spec o u) as [-> |Hn]; [|done]|]; intros [= <-]; (split; [done|]);
      intros t; unfold inside_step; cbn; rewrite Hf; by destruct (u =? t)%nat.
  - destruct o as [[o [|d]]|]; [| |].
    + intros [= <-]. split; [done|]. intros t. unfold inside_step. cbn. rewrite Hf. by repeat destruct (_ =? t)%nat.
    + rewrite andb_true_r. destruct (Nat.eqb_spec o u) as [-> |Hn]; intros [= <-]; (split; [done|]); intros t; unfold inside_step; cbn; rewrite Hf.
      * destruct d; cbn; by destruct (u =? t)%nat.
      * destruct (Nat.eqb_spec u t) as [-> |]; [|done]. by rewrite (proj2 (Nat.eqb_neq o t)).
    + intros [= <-]. split; [done|]. intros t. unfold inside_step. cbn. rewrite Hf. by destruct (u =? t)%nat.
  - destruct o as [[o d]|]; [destruct (Nat.eqb_spec o u) as [-> |Hn]|]; intros [= <-]; (split; [done|]); intros t; unfold inside_step; cbn;
      rewrite Hf; [by destruct (u =? t)%nat| |by destruct (u =? t)%nat].
    destruct (Nat.eqb_spec u t) as [-> |]; [|done]. by rewrite (proj2 (Nat.eqb_neq o t)).
Qed.

Lemma run_agrees l : forall f m m', agrees f m -> run l m = Some m' -> agrees (fun t => fold_left (inside_step t) l (f t)) m'.
Proof.
  induction l as [|e l IH]; intros f m m' Ha Hr; [by injection Hr as <-|]. cbn [run] in Hr.
  destruct (exec_event e m) as [[] m1| | |] eqn:E; try done. by apply (IH _ m1 m' (event_agrees e f m m1 Ha E)).
Qed.

(** With the mutex of the system, when it could be created: however the threads lock, unlock
    what they have not locked, and end, only one is inside; its owner is the mutex's. When
    it could not be created, [lock] keeps nobody out. *)
Theorem mutex_excludes l self :
  (forall m, run l (mutex true false self) = Some m ->
    (forall t u, inside t l <> 0%nat -> inside u l <> 0%nat -> t = u) /\
    forall t, inside t l = match owner m with Some (o, d) => if (o =? t)%nat then d else 0%nat | None => 0%nat end) /\
  run l (mutex false false self) = Some (mutex false false self).
Proof.
  split.
  - intros m Hr. destruct (run_agrees l (fun _ => 0%nat) (mutex true false self) m) as [_ H]; [by split|done|].
    split; [|done]. intros t u. fold (inside t l) in *. unfold inside. rewrite !H.
    destruct (owner m) as [[o d]|]; [|done]. destruct (Nat.eqb_spec o t) as [-> |]; [|done]. by destruct (Nat.eqb_spec t u).
  - induction l as [|e l IH]; [done|]. cbn [run]. by destruct e.
Qed.

End Mutex.

(** ** condition_t over ms_condition *)

Module MsCondition.

(** [waitCount_]; the threads that sleep on the condition variable; those that were
    woken. [WakeConditionVariable] wakes one; which, [pick] says. *)
Record mscond := MsCond { waitCount_ : Z; sleeping : list nat; woken : list nat }.

Definition init : mscond := MsCond 0 [] [].

Definition WakeConditionVariable (pick : nat) (c : mscond) : mscond :=
  match sleeping c !! (pick mod length (sleeping c))%nat with
  | Some t => MsCond (waitCount_ c) (delete (pick mod length (sleeping c))%nat (sleeping c)) (woken c ++ [t])
  | None => c
  end.
Definition WakeAllConditionVariable (c : mscond) : mscond := MsCond (waitCount_ c) [] (woken c ++ sleeping c).
Definition set_count (n : Z) (c : mscond) : mscond := MsCond n (sleeping c) (woken c).

(** [ms_condition::signal]. *)
Definition ms_signal (pick : nat) (count : Z) (c : mscond) : mscond :=
  if count =? 1 then WakeConditionVariable pick c else WakeAllConditionVariable c.

(** [condition_t::signal] and [broadcast]. *)
Definition signal (pick : nat) : prog mscond unit := fun c =>
  if negb (waitCount_ c =? 0) then
    let c1 := ms_signal pick 1 c in Ret tt (set_count (s32 (waitCount_ c1 - 1)) c1)
  else Ret tt c.
Definition broadcast (pick : nat) : prog mscond unit := fun c =>
  if negb (waitCount_ c =? 0) then Ret tt (set_count 0 (ms_signal pick (waitCount_ c) c)) else Ret tt c.

(** [condition_t::wait], in two steps: the thread counts itself, and goes to sleep,
    releasing the lock. *)
Definition wait_count : prog mscond unit := fun c => Ret tt (set_count (s32 (waitCount_ c + 1)) c).
Definition wait_sleep (t : nat) : prog mscond unit := fun c => Ret tt (MsCond (waitCount_ c) (sleeping c ++ [t]) (woken c)).
(** The time of its wait is over: the count stays. *)
Definition timed_out (t : nat) : prog mscond unit := fun c =>
  Ret tt (MsCond (waitCount_ c) (filter (fun u => u <> t) (sleeping c)) (woken c)).

Inductive step := Count | Sleep (t : nat) | Timeout (t : nat) | Signal (pick : nat) | Broadcast (pick : nat).
Definition exec_step (s : step) : prog mscond unit :=
  match s with
  | Count => wait_count
  | Sleep t => wait_sleep t
  | Timeout t => timed_out t
  | Signal pick => signal pick
  | Broadcast pick => broadcast pick
  end.
Fixpoint run (l : list step) : prog mscond unit := match l with [] => ret tt | s :: l => exec_step s ;;; run l end.

Definition wakes (s : step) : Prop := match s with Signal _ | Broadcast _ => True | _ => False end.

(** A signal that comes between the two steps of a wait - from a thread that has given
    up the lock before the waiter took it - takes back the count of the waiter: no
    later signal and no broadcast wakes it. *)
Theorem wakeup_lost t pick later : Forall wakes later ->
  run ([Count; Signal pick; Sleep t] ++ later) init = Ret tt (MsCond 0 [t] []).
Proof.
  intros Hl. unfold bind, run at 1. cbn.
  assert (H : run later (MsCond 0 [t] []) = Ret tt (MsCond 0 [t] [])); [|exact H].
  induction Hl as [|s l Hs _ IH]; [done|]. cbn [run]. by destruct s.
Qed.

(** Where every thread that has counted itself sleeps or was woken, a broadcast wakes
    all that sleep and a signal wakes one of them; threads that gave up waiting leave
    counts that only make later signals call the system for nothing. *)
Theorem wakes_sleepers c pick : 0 < waitCount_ c < 2147483648 -> sleeping c <> [] ->
  Z.of_nat (length (sleeping c)) <= waitCount_ c ->
  (exists t rest, signal pick c = Ret tt (MsCond (waitCount_ c - 1) rest (woken c ++ [t])) /\ sleeping c ≡ₚ t :: rest) /\
  exists rest, broadcast pick c = Ret tt (MsCond 0 [] (woken c ++ rest)) /\ rest ≡ₚ sleeping c.
Proof.
  intros Hc Hs Hl. destruct c as [n l w]. cbn in *.
  assert (Hlt : (pick mod length l < length l)%nat) by (apply Nat.mod_upper_bound; by destruct l).
  destruct (lookup_lt_is_Some_2 _ _ Hlt) as [t Ht]. unfold signal, broadcast, ms_signal, WakeConditionVariable. cbn.
  rewrite (proj2 (Z.eqb_neq n 0)) by lia. cbn. rewrite Ht. cbn. split.
  - rewrite s32_small by lia. eexists _, _. split; [done|]. by apply delete_Permutation.
  - destruct (Z.eqb_spec n 1) as [-> |Hn]; [|by eexists]. cbn.
    destruct l as [|u [|v l]]; [done| |cbn in Hl; lia]. cbn in Ht |- *. eexists. split; [|done].
    rewrite Nat.mod_1_r in *. cbn in *. by injection Ht as <-.
Qed.

(** [_Wait] of an SRWLOCK releases it in the shared mode, whatever mode it is held in. *)
Definition wait_srw (m : Rw.srw) : outcome Rw.srw unit := Rw.ReleaseSRWLockShared m.

Lemma wait_srw_exclusive : wait_srw Rw.Exclusive = UB.
Proof. done. Qed.

End MsCondition.

(** ** Concrete events, mutexes and waits *)

Module Demo.

Lemma asking_takes_witness :
  let e := KernelEvent.create true false true in
  (let* a := KernelEvent.is_signalled in let* b := KernelEvent.is_signalled in let* c := KernelEvent.wait_for_event 7 in ret (a, b, c)) e =
    Ret (true, false, None) (KernelEvent.KEvent true false false [7%nat] []).
Proof. by apply (proj1 (KernelEvent.asking_takes (KernelEvent.create true false true) 7 (fun _ => conj eq_refl eq_refl) eq_refl)). Defined.

Lemma wakeup_lost_witness :
  MsCondition.run ([MsCondition.Count; MsCondition.Signal 0; MsCondition.Sleep 3] ++ [MsCondition.Signal 0; MsCondition.Broadcast 1]) MsCondition.init =
    Ret tt (MsCondition.MsCond 0 [3%nat] []).
Proof. apply (MsCondition.wakeup_lost 3 0 [MsCondition.Signal 0; MsCondition.Broadcast 1]). by repeat constructor. Defined.

Lemma wakes_sleepers_witness :
  let c := MsCondition.MsCond 2 [4; 5]%nat [] in
  (exists t rest, MsCondition.signal 1 c = Ret tt (MsCondition.MsCond 1 rest [t]) /\ [4; 5]%nat ≡ₚ t :: rest) /\
  exists rest, MsCondition.broadcast 1 c = Ret tt (MsCondition.MsCond 0 [] rest) /\ rest ≡ₚ [4; 5]%nat.
Proof. apply (MsCondition.wakes_sleepers (MsCondition.MsCond 2 [4; 5]%nat []) 1); cbn; [lia|done|lia]. Defined.

Lemma mutex_excludes_witness : exists m,
  Mutex.run [Mutex.Lock 1; Mutex.Unlock 2; Mutex.Lock 1; Mutex.Exit 1; Mutex.Lock 2] (Mutex.mutex true false 0) = Some m /\
  (forall t, Mutex.inside t [Mutex.Lock 1; Mutex.Unlock 2; Mutex.Lock 1; Mutex.Exit 1; Mutex.Lock 2] =
    match Mutex.owner m with Some (o, d) => if (o =? t)%nat then d else 0%nat | None => 0%nat end) /\ Mutex.owner m = Some (2, 1)%nat.
Proof.
  eexists. split; [reflexivity|]. split; [|done].
  apply (proj2 (proj1 (Mutex.mutex_excludes [Mutex.Lock 1; Mutex.Unlock 2; Mutex.Lock 1; Mutex.Exit 1; Mutex.Lock 2] 0) _ eq_refl)).
Defined.

End Demo.
