(* ===== verification/SystemPool.v ===== *)
(** * The pools of the system

    include/multi_thread/system_thread_pool.hpp: work items, timers and waits that the
    thread pool of Windows runs. An object of the source owns a callback; the system
    keeps a plain pointer to it. The queue of the system, its timers and its waits are
    part of the state, and what the system does - a timer expires, a worker takes a
    callback - are operations between those of the clients. *)

From S2P Require Import Prelude.

Section SystemPool.
(** [H]: the handlers; [C]: what they work on. A handler returns or throws. *)
Context {H C : Type} (handler_ : H -> bool -> C -> C * option exn).

(** A timer or a wait of the system: the pointer it was given, the callbacks that are
    queued or running, and whether it still fires. *)
Record registration : Type := Registration {
  param : option nat;
  pending : nat;
  active : bool
}.

(** The blocks [_HandlerAllocate] made, the queued work items, the registrations, and
    what the handlers work on. *)
Record system : Type := System {
  blocks : gmap nat H;
  next_block : nat;
  items : list (option nat);
  registrations : list registration;
  world : C
}.

(** An object of one of the classes: [waitObject_] or [newTimer_] is [handle_]. *)
Record pool_object : Type := PoolObject { callback_ : option nat; handle_ : option nat }.

Record state : Type := State { object : option pool_object; sys : system }.

Definition put_sys (f : system -> system) (s : state) : state := State (object s) (f (sys s)).
Definition set_blocks (b : gmap nat H) (y : system) : system := System b (next_block y) (items y) (registrations y) (world y).
Definition set_items (l : list (option nat)) (y : system) : system := System (blocks y) (next_block y) l (registrations y) (world y).
Definition set_registrations (l : list registration) (y : system) : system := System (blocks y) (next_block y) (items y) l (world y).
Definition set_world (c : C) (y : system) : system := System (blocks y) (next_block y) (items y) (registrations y) c.

(** An operation of an object that does not exist is undefined. *)
Definition with_object {A} (k : pool_object -> prog state A) : prog state A := fun s =>
  match object s with Some o => k o s | None => UB end.

(** ** The callbacks *)

(** [room]: whether [operator new] has memory. *)
Definition _HandlerAllocate (room : bool) (handler : H) : prog state nat := fun s =>
  if room then
    let y := sys s in
    Ret (next_block y)
      (State (object s) (System (<[next_block y := handler]> (blocks y)) (S (next_block y)) (items y) (registrations y) (world y)))
  else Throw bad_alloc s.

Definition _HandlerDeallocate (p : nat) : prog state unit := fun s =>
  Ret tt (put_sys (set_blocks (delete p (blocks (sys s)))) s).

(** [proc_impl] of the three classes: whatever the handler throws is dropped. *)
Definition proc_impl (pvParam : option nat) (wait : bool) : prog state unit := fun s =>
  match pvParam ≫= fun p => blocks (sys s) !! p with
  | None => UB
  | Some handler => Ret tt (put_sys (set_world (handler_ handler wait (world (sys s))).1) s)
  end.

(** The destructor of [callback_]. *)
Definition release_callback (o : pool_object) : prog state unit :=
  match callback_ o with Some p => _HandlerDeallocate p | None => ret tt end.

Definition set_object (o : option pool_object) : prog state unit := fun s => Ret tt (State o (sys s)).

(** The constructors: without a handler, and with one. *)
Definition construct_empty : prog state unit := set_object (Some (PoolObject None None)).
Definition construct (room : bool) (handler : H) : prog state unit :=
  let* p := _HandlerAllocate room handler in
  set_object (Some (PoolObject (Some p) None)).

(** ** [queue_work_item_pool] *)

(** [accepted]: whether [QueueUserWorkItem] took the item. *)
Definition call_again (accepted : bool) : prog state bool := with_object (fun o s =>
  if accepted then Ret true (put_sys (set_items (items (sys s) ++ [callback_ o])) s) else Ret false s).

Definition call (room accepted : bool) (handler : H) : prog state bool := with_object (fun o =>
  (match callback_ o with
   | None => let* p := _HandlerAllocate room handler in set_object (Some (PoolObject (Some p) (handle_ o)))
   | Some _ => ret tt
   end) ;;; call_again accepted).

Definition destroy_item_pool : prog state unit := with_object (fun o =>
  release_callback o ;;; set_object None).

(** A worker takes the [i]-th item. *)
Definition run_item (i : nat) : prog state unit := fun s =>
  match items (sys s) !! i with
  | None => Ret tt s
  | Some p => proc_impl p false (put_sys (set_items (delete i (items (sys s)))) s)
  end.

(** ** Timers and waits *)

(** [CreateTimerQueueTimer] and [RegisterWaitForSingleObject]. *)
Definition register (accepted : bool) : prog state bool := with_object (fun o s =>
  if accepted then
    Ret true (State (Some (PoolObject (callback_ o) (Some (length (registrations (sys s))))))
                    (set_registrations (registrations (sys s) ++ [Registration (callback_ o) 0 true]) (sys s)))
  else Ret false s).

Definition on_registration (t : nat) (f : registration -> option registration) : prog state unit := fun s =>
  match registrations (sys s) !! t ≫= f with
  | None => Ret tt s
  | Some r => Ret tt (put_sys (set_registrations (<[t := r]> (registrations (sys s)))) s)
  end.

(** It expires, or its object is signalled: a callback is queued. *)
Definition fire (t : nat) : prog state unit :=
  on_registration t (fun r => if active r then Some (Registration (param r) (S (pending r)) true) else None).

(** A worker runs a queued callback of it. *)
Definition run_callback (t : nat) (wait : bool) : prog state unit := fun s =>
  match registrations (sys s) !! t with
  | Some (Registration p (S n) a) =>
      proc_impl p wait (put_sys (set_registrations (<[t := Registration p n a]> (registrations (sys s)))) s)
  | _ => Ret tt s
  end.

(** [DeleteTimerQueueTimer] and [UnregisterWaitEx] without a completion event: the
    registration no longer fires; the call fails while callbacks are outstanding; a
    handle that was given up before is not valid. *)
Definition give_back (t : nat) : prog state bool := fun s =>
  match registrations (sys s) !! t with
  | Some (Registration p n true) =>
      Ret (n =? 0)%nat (put_sys (set_registrations (<[t := Registration p n false]> (registrations (sys s)))) s)
  | _ => UB
  end.

(** [queue_timer_pool::cancel]; without a timer the handle is null, which is not
    valid. *)
Definition cancel_timer : prog state bool := with_object (fun o =>
  match handle_ o with
  | None => ub
  | Some t =>
      let* deleted := give_back t in
      if deleted then set_object (Some (PoolObject (callback_ o) None)) ;;; ret true else ret false
  end).

Definition destroy_timer_pool : prog state unit := with_object (fun o =>
  (match handle_ o with Some _ => cancel_timer ;;; ret tt | None => ret tt end) ;;;
  release_callback o ;;; set_object None).

(** [wait_object_pool::cancel] leaves [waitObject_] as it is. *)
Definition cancel_wait : prog state bool := with_object (fun o =>
  match handle_ o with None => ub | Some t => give_back t end).

Definition destroy_wait_pool : prog state unit := with_object (fun o =>
  release_callback o ;;; set_object None).

(** ** Work items *)

(** What clients and workers do while the object lives. *)
Inductive item_op : Type :=
| Call (accepted : bool) (handler : H)
| Again (accepted : bool)
| Work (i : nat).

Definition exec_item (o : item_op) : prog state unit :=
  match o with
  | Call accepted handler => call true accepted handler ;;; ret tt
  | Again accepted => call_again accepted ;;; ret tt
  | Work i => run_item i
  end.

Fixpoint run_all {O} (exec : O -> prog state unit) (l : list O) : prog state unit :=
  match l with [] => ret tt | o :: l' => exec o ;;; run_all exec l' end.

Definition accepts (o : item_op) : nat :=
  match o with Call true _ | Again true => 1 | _ => 0 end.

(** Running the handler that many times. *)
Definition served (h : H) (n : nat) (c : C) : C := Nat.iter n (fun c => (handler_ h false c).1) c.

Record items_inv (b : nat) (h : H) (c0 : C) (n : nat) (s : state) : Prop := {
  iv_object : callback_ <$> object s = Some (Some b);
  iv_block : blocks (sys s) !! b = Some h;
  iv_items : Forall (eq (Some b)) (items (sys s));
  iv_world : world (sys s) = served h n c0
}.

Lemma run_item_ok b h c0 n s i : items_inv b h c0 n s -> (i < length (items (sys s)))%nat ->
  exists s', run_item i s = Ret tt s' /\ items_inv b h c0 (S n) s' /\
    S (length (items (sys s'))) = length (items (sys s)).
Proof.
  intros [Ho Hb Hi Hw] Hlt. apply lookup_lt_is_Some in Hlt as [p Hp].
  assert (p = Some b) as -> by (symmetry; by apply (proj1 (Forall_lookup _ _) Hi i)).
  unfold run_item, proc_impl. rewrite Hp. cbn [sys put_sys set_items blocks mbind option_bind]. rewrite Hb.
  eexists. split; [done|]. split; [split|]; cbn.
  - done.
  - done.
  - by apply Forall_delete.
  - by rewrite Hw.
  - rewrite length_delete by (by eexists). pose proof (lookup_lt_Some _ _ _ Hp). lia.
Qed.

Lemma exec_item_ok b h c0 n s o : items_inv b h c0 n s ->
  exists s' n', exec_item o s = Ret tt s' /\ items_inv b h c0 n' s' /\
    (n' + length (items (sys s')) = n + length (items (sys s)) + accepts o)%nat.
Proof.
  intros I. pose proof I as [Ho Hb Hi Hw]. destruct (object s) as [[[?|] hd]|] eqn:Eo; simplify_eq/=.
  assert (Hag : forall a, exists s', call_again a s = Ret a s' /\ items_inv b h c0 n s' /\
    length (items (sys s')) = (length (items (sys s)) + if a then 1 else 0)%nat).
  { intros [|]; unfold call_again, with_object; rewrite Eo; eexists; (split; [done|]).
    - split; [split; cbn; [by rewrite Eo|done| |done]|cbn; by rewrite length_app].
      apply Forall_app. split; [done|by constructor].
    - split; [done|lia]. }
  destruct o as [a h'|a|i]; cbn [exec_item accepts].
  - destruct (Hag a) as (s' & Ha & I' & Hl). exists s', n. split; [|split; [done|destruct a; lia]].
    unfold bind, call, with_object. rewrite Eo. cbn [callback_]. unfold bind, ret at 1. by rewrite Ha.
  - destruct (Hag a) as (s' & Ha & I' & Hl). exists s', n. split; [|split; [done|destruct a; lia]].
    unfold bind. by rewrite Ha.
  - destruct (decide (i < length (items (sys s)))%nat) as [Hlt|Hge].
    + destruct (run_item_ok b h c0 n s i I Hlt) as (s' & Hr & I' & Hl). exists s', (S n). split_and!; [done|done|lia].
    + exists s, n. split_and!; [|done|lia]. unfold run_item. by rewrite lookup_ge_None_2 by lia.
Qed.

Lemma run_items_ok b h c0 l : forall n s, items_inv b h c0 n s ->
  exists s' n', run_all exec_item l s = Ret tt s' /\ items_inv b h c0 n' s' /\
    (n' + length (items (sys s')) = n + length (items (sys s)) + sum_list_with accepts l)%nat.
Proof.
  induction l as [|o l IH]; intros n s I; cbn [run_all sum_list_with]; [exists s, n; split_and!; [done|done|lia]|].
  destruct (exec_item_ok b h c0 n s o I) as (s1 & n1 & H1 & I1 & E1).
  destruct (IH n1 s1 I1) as (s2 & n2 & H2 & I2 & E2). exists s2, n2. split_and!; [|done|lia].
  by rewrite (bind_ret _ _ _ _ _ H1).
Qed.

Lemma drain_ok b h c0 k : forall n s, items_inv b h c0 n s -> length (items (sys s)) = k ->
  exists s', run_all exec_item (replicate k (Work 0)) s = Ret tt s' /\ items_inv b h c0 (n + k) s' /\ items (sys s') = [].
Proof.
  induction k as [|k IH]; intros n s I Hk; cbn [replicate run_all].
  - exists s. rewrite Nat.add_0_r. apply nil_length_inv in Hk. done.
  - destruct (run_item_ok b h c0 n s 0 I ltac:(lia)) as (s1 & H1 & I1 & E1).
    destruct (IH (S n) s1 I1 ltac:(lia)) as (s2 & H2 & I2 & E2). exists s2. rewrite Nat.add_succ_r. split_and!; [|done|done].
    by rewrite (bind_ret _ _ _ _ _ H1).
Qed.

Definition fresh (c0 : C) : state := State None (System empty 0 [] [] c0).

Lemma constructed h c0 : exists s, construct true h (fresh c0) = Ret tt s /\ items_inv 0 h c0 0 s /\
  items (sys s) = [] /\ registrations (sys s) = [] /\ object s = Some (PoolObject (Some 0%nat) None).
Proof. eexists. split; [done|]. split_and!; by try split. Qed.

(** Every item the system took runs exactly once, in whatever order the workers take
    them, always with the handler of the constructor: a handler given to a later
    [call] is not used. *)
Theorem items_served h c0 l s0 : construct true h (fresh c0) = Ret tt s0 ->
  exists s1 s2 waiting done, run_all exec_item l s0 = Ret tt s1 /\
    length (items (sys s1)) = waiting /\ world (sys s1) = served h done c0 /\
    (done + waiting = sum_list_with accepts l)%nat /\
    run_all exec_item (replicate waiting (Work 0)) s1 = Ret tt s2 /\
    items (sys s2) = [] /\ world (sys s2) = served h (sum_list_with accepts l) c0.
Proof.
  intros Hc. destruct (constructed h c0) as (s & Hs & I & Hi & _). rewrite Hs in Hc. injection Hc as <-.
  destruct (run_items_ok 0 h c0 l 0 s I) as (s1 & n & H1 & I1 & E1). rewrite Hi in E1. cbn in E1.
  destruct (drain_ok 0 h c0 _ n s1 I1 eq_refl) as (s2 & H2 & I2 & E2).
  exists s1, s2, (length (items (sys s1))), n. destruct I1, I2. rewrite E1 in *. split_and!; done.
Qed.

(** When the object goes while an item is waiting, the worker that takes the item
    calls through a pointer to freed memory. *)
Theorem destroyed_while_queued h c0 l s0 s1 i : construct true h (fresh c0) = Ret tt s0 ->
  run_all exec_item l s0 = Ret tt s1 -> (i < length (items (sys s1)))%nat ->
  exists s2, destroy_item_pool s1 = Ret tt s2 /\ run_item i s2 = UB.
Proof.
  intros Hc Hr Hlt. destruct (constructed h c0) as (s & Hs & I & Hi & _). rewrite Hs in Hc. injection Hc as <-.
  destruct (run_items_ok 0 h c0 l 0 s I) as (s' & n & H1 & [Ho Hb Hit _] & _). rewrite H1 in Hr. injection Hr as ->.
  destruct (object s1) as [[[?|] hd]|] eqn:Eo; simplify_eq/=.
  unfold destroy_item_pool, with_object. rewrite Eo. eexists. split; [done|].
  apply lookup_lt_is_Some in Hlt as [p Hp]. pose proof (proj1 (Forall_lookup _ _) Hit i _ Hp) as <-.
  unfold run_item, proc_impl. cbn. rewrite Hp. cbn. by rewrite lookup_delete_eq.
Qed.

(** ** Timers and waits *)

(** What the system does with the registrations. *)
Inductive system_op : Type :=
| Fire (t : nat)
| RunCallback (t : nat) (wait : bool).

Definition exec_system (o : system_op) : prog state unit :=
  match o with Fire t => fire t | RunCallback t wait => run_callback t wait end.

(** One registration of the callback [b]; [a]: it still fires. *)
Record one_registration (b : nat) (h : H) (n : nat) (a : bool) (hd : option nat) (s : state) : Prop := {
  or_object : object s = Some (PoolObject (Some b) hd);
  or_block : blocks (sys s) !! b = Some h;
  or_registrations : registrations (sys s) = [Registration (Some b) n a]
}.

Lemma registered h c0 : exists s0 s, construct true h (fresh c0) = Ret tt s0 /\ register true s0 = Ret true s /\
  one_registration 0 h 0 true (Some 0%nat) s /\ world (sys s) = c0.
Proof.
  do 2 eexists. split_and!; [done|done| |done]. split; [done| |done]. cbn. by rewrite lookup_insert_eq.
Qed.

Lemma exec_system_ok b h n hd s o : one_registration b h n true hd s ->
  exists s' n', exec_system o s = Ret tt s' /\ one_registration b h n' true hd s'.
Proof.
  intros [Ho Hb Hr]. destruct o as [[|t]|[|t] wait]; cbn [exec_system].
  - unfold fire, on_registration. rewrite Hr. cbn. do 2 eexists. split; [done|]. by split.
  - exists s, n. split; [|by split]. unfold fire, on_registration. by rewrite Hr.
  - unfold run_callback. rewrite Hr. cbn [lookup list_lookup]. destruct n as [|n]; [by exists s, 0%nat|].
    unfold proc_impl. cbn. rewrite Hb. do 2 eexists. split; [done|]. by split.
  - exists s, n. split; [|by split]. unfold run_callback. by rewrite Hr.
Qed.

Lemma run_system_ok b h hd l : forall n s, one_registration b h n true hd s ->
  exists s' n', run_all exec_system l s = Ret tt s' /\ one_registration b h n' true hd s'.
Proof.
  induction l as [|o l IH]; intros n s I; cbn [run_all]; [by exists s, n|].
  destruct (exec_system_ok b h n hd s o I) as (s1 & n1 & H1 & I1). destruct (IH n1 s1 I1) as (s2 & n2 & H2 & I2).
  exists s2, n2. split; [|done]. by rewrite (bind_ret _ _ _ _ _ H1).
Qed.

(** A registration that was given up with nothing outstanding does nothing more. *)
Lemma quiet_system p l : forall s, registrations (sys s) = [Registration p 0 false] -> run_all exec_system l s = Ret tt s.
Proof.
  induction l as [|o l IH]; intros s Hr; cbn [run_all]; [done|].
  assert (E : exec_system o s = Ret tt s).
  { destruct o as [[|t]|[|t] wait]; cbn [exec_system]; unfold fire, on_registration, run_callback; by rewrite Hr. }
  rewrite (bind_ret _ _ _ _ _ E). by apply IH.
Qed.

Lemma give_back_ok b h n hd s : one_registration b h n true hd s ->
  give_back 0 s = Ret (n =? 0)%nat (put_sys (set_registrations [Registration (Some b) n false]) s).
Proof. intros [_ _ Hr]. unfold give_back. by rewrite Hr. Qed.

Lemma destroy_given_up o p n s : object s = Some (PoolObject o (Some 0%nat)) ->
  registrations (sys s) = [Registration p n false] -> destroy_timer_pool s = UB.
Proof.
  intros Ho Hr. unfold destroy_timer_pool, with_object. rewrite Ho. cbn [handle_]. unfold bind at 1 2.
  unfold cancel_timer, with_object. rewrite Ho. cbn [handle_]. unfold bind, give_back. by rewrite Hr.
Qed.

Lemma cancel_outstanding b h n s : one_registration b h (S n) true (Some 0%nat) s ->
  cancel_timer s = Ret false (put_sys (set_registrations [Registration (Some b) (S n) false]) s).
Proof.
  intros I. pose proof (give_back_ok _ _ _ _ _ I) as Hg. unfold cancel_timer, with_object.
  rewrite (or_object _ _ _ _ _ _ I). cbn [handle_]. by rewrite (bind_ret _ _ _ _ _ Hg).
Qed.

Lemma destroy_outstanding b h n s : one_registration b h (S n) true (Some 0%nat) s ->
  exists s', destroy_timer_pool s = Ret tt s' /\ forall wait, run_callback 0 wait s' = UB.
Proof.
  intros I. pose proof (cancel_outstanding _ _ _ _ I) as Hc. destruct I as [Ho Hb Hr].
  unfold destroy_timer_pool, with_object. rewrite Ho. cbn [handle_].
  assert (Hc' : bind cancel_timer (fun _ => ret tt) s = Ret tt (put_sys (set_registrations [Registration (Some b) (S n) false]) s))
    by by rewrite (bind_ret _ _ _ _ _ Hc).
  rewrite (bind_ret _ _ _ _ _ Hc').
  eexists. split; [done|]. intros wait. unfold run_callback. cbn. unfold proc_impl. cbn. by rewrite lookup_delete_eq.
Qed.

(** A timer that fires and is served for a while, and is then cancelled. With no
    callback outstanding [cancel] succeeds, and after it and the destructor nothing
    runs any more. Otherwise [cancel] fails although the timer is given up: the
    destructor gives it up again; and a destructor without [cancel] frees the callback
    that a worker still runs. *)
Theorem timer_life h c0 l s0 s1 s2 : construct true h (fresh c0) = Ret tt s0 -> register true s0 = Ret true s1 ->
  run_all exec_system l s1 = Ret tt s2 ->
  exists n, registrations (sys s2) = [Registration (Some 0%nat) n true] /\
    (n = 0%nat -> exists s3 s4, cancel_timer s2 = Ret true s3 /\ destroy_timer_pool s3 = Ret tt s4 /\
       forall l', run_all exec_system l' s4 = Ret tt s4) /\
    (n <> 0%nat -> exists s3 s4, cancel_timer s2 = Ret false s3 /\ destroy_timer_pool s3 = UB /\
       destroy_timer_pool s2 = Ret tt s4 /\ forall wait, run_callback 0 wait s4 = UB).
Proof.
  intros Hc Hreg Hrun. destruct (registered h c0) as (t0 & t1 & Hc' & Hreg' & I & _).
  rewrite Hc in Hc'. injection Hc' as <-. rewrite Hreg in Hreg'. injection Hreg' as <-.
  destruct (run_system_ok 0 h (Some 0%nat) l 0 s1 I) as (t2 & n & H2 & I2). rewrite H2 in Hrun. injection Hrun as <-.
  pose proof (give_back_ok _ _ _ _ _ I2) as Hg. destruct I2 as [Ho Hb Hr]. exists n. split; [done|].
  split; intros Hn.
  - subst n. unfold cancel_timer, with_object. rewrite Ho. cbn [handle_]. rewrite (bind_ret _ _ _ _ _ Hg).
    do 2 eexists. split_and!; [done|done|]. intros l'. by apply (quiet_system (Some 0%nat)).
  - destruct n as [|n]; [done|]. destruct (destroy_outstanding 0 h n t2) as (s4 & H4 & Hub); [by split|].
    do 2 eexists. split_and!; [apply (cancel_outstanding 0 h n); by split| |exact H4|exact Hub].
    by eapply destroy_given_up.
Qed.

(** The destructor of [wait_object_pool] leaves the wait registered: when the object is
    signalled after it, a freed callback is called. *)
Theorem wait_outlives h c0 l s0 s1 s2 : construct true h (fresh c0) = Ret tt s0 -> register true s0 = Ret true s1 ->
  run_all exec_system l s1 = Ret tt s2 ->
  exists s3 s4, destroy_wait_pool s2 = Ret tt s3 /\ fire 0 s3 = Ret tt s4 /\
    forall wait, run_callback 0 wait s4 = UB.
Proof.
  intros Hc Hreg Hrun. destruct (registered h c0) as (t0 & t1 & Hc' & Hreg' & I & _).
  rewrite Hc in Hc'. injection Hc' as <-. rewrite Hreg in Hreg'. injection Hreg' as <-.
  destruct (run_system_ok 0 h (Some 0%nat) l 0 s1 I) as (t2 & n & H2 & [Ho Hb Hr]). rewrite H2 in Hrun. injection Hrun as <-.
  unfold destroy_wait_pool, with_object. rewrite Ho. do 2 eexists. split_and!; [done| |].
  - unfold fire, on_registration. cbn. by rewrite Hr.
  - intros wait. unfold run_callback. cbn. unfold proc_impl. cbn. by rewrite lookup_delete_eq.
Qed.
End SystemPool.

(** ** A counter and a handler that throws *)

Module Demo.
Definition add (n : nat) (wait : bool) (c : nat) : nat * option exn := ((c + n)%nat, if (n =? 2)%nat then Some foreign else None).

Abbreviation started h := (State (Some (PoolObject (Some 0%nat) None)) (System {[0%nat := h]} 1 [] [] 0%nat)) (only parsing).
Abbreviation armed h := (State (Some (PoolObject (Some 0%nat) (Some 0%nat)))
  (System {[0%nat := h]} 1 [] [Registration (Some 0%nat) 0 true] 0%nat)) (only parsing).

Lemma items_served_witness : exists s1 s2 waiting done,
  run_all (exec_item add) [Call true 5%nat; Again true; Work 1; Again false; Call true 7%nat] (started 2%nat) = Ret tt s1 /\
  length (items (sys s1)) = waiting /\ world (sys s1) = served add 2%nat done 0%nat /\ (done + waiting = 3)%nat /\
  run_all (exec_item add) (replicate waiting (Work 0)) s1 = Ret tt s2 /\
  items (sys s2) = [] /\ world (sys s2) = 6%nat.
Proof.
  exact (items_served add 2%nat 0%nat [Call true 5%nat; Again true; Work 1; Again false; Call true 7%nat] (started 2%nat) eq_refl).
Defined.

Lemma destroyed_while_queued_witness : exists s2,
  destroy_item_pool (State (Some (PoolObject (Some 0%nat) None))
    (System {[0%nat := 1%nat]} 1 [Some 0%nat] [] 1%nat)) = Ret tt s2 /\ run_item add 0 s2 = UB.
Proof.
  apply (destroyed_while_queued add 1%nat 0%nat [Again true; Again true; Work 0] (started 1%nat)); [done|done|cbn; lia].
Defined.

Abbreviation served_once := (State (Some (PoolObject (Some 0%nat) (Some 0%nat)))
  (System {[0%nat := 1%nat]} 1 [] [Registration (Some 0%nat) 1 true] 1%nat)) (only parsing).

Lemma timer_life_witness : exists n, registrations (sys served_once) = [Registration (Some 0%nat) n true].
Proof.
  destruct (timer_life add 1%nat 0%nat [Fire 0; Fire 0; RunCallback 0 true] (started 1%nat) (armed 1%nat) served_once
    eq_refl eq_refl ltac:(by vm_compute)) as (n & Hn & _). exists n. exact Hn.
Defined.

Lemma wait_outlives_witness : exists s3 s4,
  destroy_wait_pool (armed 1%nat) = Ret tt s3 /\ fire 0 s3 = Ret tt s4 /\ forall wait, run_callback add 0 wait s4 = UB.
Proof. exact (wait_outlives add 1%nat 0%nat [] (started 1%nat) (armed 1%nat) (armed 1%nat) eq_refl eq_refl eq_refl). Defined.
End Demo.
