(* ===== verification/ThreadPool.v ===== *)
(** * The thread pool

    include/multi_thread/thread_pool: [fifo_scheduler_t], [thread_pool_impl_t],
    [worker_thread_t] and [thread_pool_t]. Clients call tasks and shut the pool down
    while its threads run; a step is one critical section of the scheduler's mutex or
    one atomic operation of its condition, so the interleavings are all those of the
    threads. Tasks do not throw: an exception of a task ends the program. The
    vector of the threads has no lock: what a client does with it ([schedule]'s
    test and [resize], [terminate]'s [clear]) is taken as one step, which leaves out
    clients that race for it. *)

From S2P Require Import Prelude Locks.
Import Semaphore Condition.

(** [task_function]; [None] is the empty one, [task_type()]. *)
Definition task_function : Type := option nat.

(** Where a worker is in [run]: at the lock of [pop] (also again after a wait);
    in [WaitForSingleObject]; past it; with the task [pop] returned; in [task()];
    after it; out of its loop. *)
Inductive worker :=
| Ready
| Asleep
| Awake
| Popped (task : task_function)
| Running (id : nat)
| Leaving
| Exited.

(** Where a client is: in [push] with a task, and in the condition's [signal] after
    it; [loop]: the [i] of [terminate]'s loop, [None] in [schedule]. [At_join]: in
    [work_threads_.clear()], whose elements wait for their threads. *)
Inductive caller :=
| At_push (task : task_function) (loop : option nat)
| At_read (loop : option nat)
| At_release (loop : option nat)
| At_add (loop : option nat)
| At_decrement (loop : option nat)
| At_join
| Returned.

(** [threads]: every thread the pool has made, of which the first [gone] are not in
    [work_threads_] any more. [pushed], [taken]: what went into the queue and what
    left it, in order; [executed]: the tasks that have run; [cleared]: those [clear]
    threw away. *)
Record pool := Pool {
  queue_ : list task_function;
  not_empty_ : condition;
  threads : list worker;
  gone : nat;
  active_num_ : Z;
  callers : list caller;
  pushed : list task_function;
  taken : list task_function;
  executed : list nat;
  cleared : list task_function
}.

Definition set_queue q p := Pool q (not_empty_ p) (threads p) (gone p) (active_num_ p) (callers p) (pushed p) (taken p) (executed p) (cleared p).
Definition set_condition c p := Pool (queue_ p) c (threads p) (gone p) (active_num_ p) (callers p) (pushed p) (taken p) (executed p) (cleared p).
Definition set_workers l p := Pool (queue_ p) (not_empty_ p) l (gone p) (active_num_ p) (callers p) (pushed p) (taken p) (executed p) (cleared p).
Definition set_gone g p := Pool (queue_ p) (not_empty_ p) (threads p) g (active_num_ p) (callers p) (pushed p) (taken p) (executed p) (cleared p).
Definition set_active a p := Pool (queue_ p) (not_empty_ p) (threads p) (gone p) a (callers p) (pushed p) (taken p) (executed p) (cleared p).
Definition set_callers l p := Pool (queue_ p) (not_empty_ p) (threads p) (gone p) (active_num_ p) l (pushed p) (taken p) (executed p) (cleared p).
Definition set_pushed l p := Pool (queue_ p) (not_empty_ p) (threads p) (gone p) (active_num_ p) (callers p) l (taken p) (executed p) (cleared p).
Definition set_taken l p := Pool (queue_ p) (not_empty_ p) (threads p) (gone p) (active_num_ p) (callers p) (pushed p) l (executed p) (cleared p).
Definition set_executed l p := Pool (queue_ p) (not_empty_ p) (threads p) (gone p) (active_num_ p) (callers p) (pushed p) (taken p) l (cleared p).
Definition set_cleared l p := Pool (queue_ p) (not_empty_ p) (threads p) (gone p) (active_num_ p) (callers p) (pushed p) (taken p) (executed p) l.

Definition work_threads_ (p : pool) : list worker := drop (gone p) (threads p).

Definition goto (j : nat) (x : worker) (p : pool) : pool := set_workers (<[j := x]> (threads p)) p.
Definition caller_goto (i : nat) (c : caller) (p : pool) : pool := set_callers (<[i := c]> (callers p)) p.

Section ThreadPool.
Context (w : Z).            (* the bits of size_t *)
Context (dynamic : bool).   (* SizeCtlT: dynamic_size, or static_size *)

(** ** The operations *)

(** [size()], a [size_t]. *)
Definition size (p : pool) : Z := Z.of_nat (length (work_threads_ p)).

(** [resize], when it makes the pool larger: new threads start in [run]. *)
Definition resize (cnt : Z) (p : pool) : pool :=
  set_workers (threads p ++ replicate (Z.to_nat cnt - length (work_threads_ p)) Ready) p.

(** [SizeCtlT::resize]. *)
Definition sizeCtl_resize (cnt : Z) (p : pool) : pool := if dynamic then resize cnt p else p.

(** [schedule], up to its push. *)
Definition schedule (id : nat) (p : pool) : pool :=
  let p' := if active_num_ p =? size p then sizeCtl_resize (size p + 1) p else p in
  set_callers (callers p' ++ [At_push (Some id) None]) p'.

(** [terminate]: an empty task for each thread, then [work_threads_.clear()]. The
    loop tests [i != work_threads_.size()] before each push. *)
Definition terminate_from (i : nat) (p : pool) : caller :=
  if (i =? length (work_threads_ p))%nat then At_join else At_push None (Some i).
Definition next_push (loop : option nat) (p : pool) : caller :=
  match loop with None => Returned | Some i => terminate_from (S i) p end.
Definition terminate (p : pool) : pool := set_callers (callers p ++ [terminate_from 0 p]) p.

(** [clear] destroys the elements, each of which waits for its thread
    ([~thread_implex_t]). *)
Definition exited (x : worker) : bool := match x with Exited => true | _ => false end.
Definition clear_threads (p : pool) : option pool :=
  if forallb exited (work_threads_ p) then Some (set_gone (length (threads p)) p) else None.

(** [fifo_scheduler_t::push]: the critical section, then [not_empty_.signal()]. *)
Definition push (i : nat) (task : task_function) (loop : option nat) (p : pool) : pool :=
  caller_goto i (At_read loop) (set_pushed (pushed p ++ [task]) (set_queue (queue_ p ++ [task]) p)).

(** What an atomic step leaves of the condition. *)
Definition after (m : prog condition unit) (c : condition) : condition :=
  match m c with Ret _ c' => c' | _ => c end.

Definition caller_step (i : nat) (p : pool) : option pool :=
  match callers p !! i with
  | Some (At_push task loop) => Some (push i task loop p)
  | Some (At_read loop) =>
      Some (caller_goto i (if negb (waitCount_ (not_empty_ p) =? 0) then At_release loop else next_push loop p) p)
  | Some (At_release loop) =>
      Some (caller_goto i (At_add loop)
              (set_condition (after (on_events (ReleaseSemaphore 1)) (not_empty_ p)) p))
  | Some (At_add loop) =>
      Some (caller_goto i (At_decrement loop)
              (set_condition (after (on_events (add_signal_count 1)) (not_empty_ p)) p))
  | Some (At_decrement loop) =>
      Some (caller_goto i (next_push loop p) (set_condition (add_wait_count (-1) (not_empty_ p)) p))
  | Some At_join => caller_goto i Returned <$> clear_threads p
  | _ => None
  end.

(** [fifo_scheduler_t::pop] under the lock: the front task, or the wait. *)
Definition pop (j : nat) (p : pool) : pool :=
  match queue_ p with
  | [] => goto j Asleep (set_condition (after wait_enter (not_empty_ p)) p)
  | val :: rest => goto j (Popped val) (set_taken (taken p ++ [val]) (set_queue rest p))
  end.

(** [exceute_task] in the loop of [run], step by step. *)
Definition worker_step (j : nat) (p : pool) : option pool :=
  match threads p !! j with
  | Some Ready => Some (pop j p)
  | Some Asleep =>
      match on_events (WaitForSingleObject false) (not_empty_ p) with
      | Ret _ c => Some (goto j Awake (set_condition c p))
      | _ => None
      end
  | Some Awake =>
      Some (goto j Ready (set_condition (after (on_events (add_signal_count (-1))) (not_empty_ p)) p))
  | Some (Popped (Some id)) => Some (goto j (Running id) (set_active (wrap w (active_num_ p - 1)) p))
  | Some (Popped None) => Some (goto j Exited p)
  | Some (Running id) => Some (goto j Leaving (set_executed (executed p ++ [id]) p))
  | Some Leaving => Some (goto j Ready (set_active (wrap w (active_num_ p + 1)) p))
  | _ => None
  end.

(** [scheduler_base_t::clear]. *)
Definition clear (p : pool) : pool :=
  set_queue [] (set_cleared (cleared p ++ queue_ p) (set_taken (taken p ++ queue_ p) p)).

(** [scheduler_base_t::size] and [empty]. *)
Definition scheduler_size (p : pool) : nat := length (queue_ p).
Definition scheduler_empty (p : pool) : bool := match queue_ p with [] => true | _ => false end.

(** [thread_pool_t(cnt)]. *)
Definition thread_pool_t (cnt : Z) : pool :=
  resize (if cnt =? 0 then 4 else cnt) (Pool [] Condition.init [] 0 0 [] [] [] [] []).

Inductive event := Call (id : nat) | Shutdown | Clear | Caller (i : nat) | Worker (j : nat).

Definition exec (e : event) (p : pool) : option pool :=
  match e with
  | Call id => Some (schedule id p)
  | Shutdown => Some (terminate p)
  | Clear => Some (clear p)
  | Caller i => caller_step i p
  | Worker j => worker_step j p
  end.

Fixpoint run (events : list event) (p : pool) : option pool :=
  match events with
  | [] => Some p
  | e :: events' => match exec e p with Some p' => run events' p' | None => None end
  end.

(** No thread can move: every client has returned, every worker sleeps or is out. *)
Definition at_rest (p : pool) : Prop := forall i, caller_step i p = None /\ worker_step i p = None.

(** ** Counts *)

Definition asleep (x : worker) : nat := match x with Asleep => 1 | _ => 0 end.
Definition looking (x : worker) : nat := match x with Ready | Awake => 1 | _ => 0 end.
Definition ending (x : worker) : nat := match x with Popped None | Exited => 1 | _ => 0 end.
Definition active (x : worker) : nat := match x with Running _ | Leaving => 1 | _ => 0 end.
Definition hand (x : worker) : list nat := match x with Popped (Some id) | Running id => [id] | _ => [] end.
Definition signalling (c : caller) : nat := match c with At_read _ | At_release _ => 1 | _ => 0 end.
Definition released (c : caller) : nat := match c with At_add _ | At_decrement _ => 1 | _ => 0 end.
Definition down (c : caller) : nat :=
  match c with
  | At_push _ (Some _) | At_read (Some _) | At_release (Some _) | At_add (Some _)
  | At_decrement (Some _) | At_join => 1
  | _ => 0
  end.

(** The pushes of [terminate] that are still to come, of [n]. *)
Definition to_push (n : nat) (c : caller) : nat :=
  match c with
  | At_push _ (Some i) => n - i
  | At_read (Some i) | At_release (Some i) | At_add (Some i) | At_decrement (Some i) => n - S i
  | _ => 0
  end.
Definition loop_below (n : nat) (c : caller) : Prop :=
  match c with
  | At_push task loop =>
      match loop with Some i => task = None /\ (i < n)%nat | None => task <> None end
  | At_read (Some i) | At_release (Some i) | At_add (Some i) | At_decrement (Some i) => (i < n)%nat
  | _ => True
  end.

Definition hands (l : list worker) : list nat := concat (map hand l).
Definition tasks (l : list task_function) : list nat := omap id l.
Definition nones (l : list task_function) : nat :=
  total (fun t : task_function => match t with None => 1 | _ => 0 end)%nat l.

Lemma hands_insert j x y l : l !! j = Some x -> hand x ++ hands (<[j := y]> l) ≡ₚ hand y ++ hands l.
Proof.
  unfold hands. revert j. induction l as [|z l IH]; intros [|j] Hj; cbn in *; simplify_eq.
  - solve_Permutation.
  - specialize (IH j Hj). rewrite (app_assoc (hand x)), (Permutation_app_comm (hand x)), <- app_assoc, IH.
    solve_Permutation.
Qed.

Lemma tasks_app a b : tasks (a ++ b) = tasks a ++ tasks b.
Proof. apply omap_app. Qed.

Lemma nones_app a b : nones (a ++ b) = (nones a + nones b)%nat.
Proof. apply total_app. Qed.

Lemma total_le_length {A} (f : A -> nat) l : (forall a, f a <= 1)%nat -> (total f l <= length l)%nat.
Proof. intros H. induction l as [|a l IH]; cbn; [done|]. specialize (H a). lia. Qed.

(** ** The logs

    Whatever is called, however often the pool is shut down. *)
Record logs (p : pool) : Prop := {
  log_fifo : pushed p = taken p ++ queue_ p;
  log_done : tasks (taken p) ≡ₚ executed p ++ hands (threads p) ++ tasks (cleared p);
  log_active : active_num_ p = wrap w (- Z.of_nat (total active (threads p)))
}.

(** What going to another place does to every count of the workers. *)
Lemma goto_counts j x y p : threads p !! j = Some x ->
  (total asleep (<[j := y]> (threads p)) + asleep x = total asleep (threads p) + asleep y)%nat /\
  (total looking (<[j := y]> (threads p)) + looking x = total looking (threads p) + looking y)%nat /\
  (total ending (<[j := y]> (threads p)) + ending x = total ending (threads p) + ending y)%nat /\
  (total active (<[j := y]> (threads p)) + active x = total active (threads p) + active y)%nat /\
  hand x ++ hands (<[j := y]> (threads p)) ≡ₚ hand y ++ hands (threads p).
Proof. intros Hj. split_and!; [by apply total_insert..|by apply hands_insert]. Qed.

(** The counts of the goal and the context, down to the places. *)
Ltac count_places :=
  cbn [length_insert set_queue set_condition set_workers set_gone set_active set_callers set_pushed set_taken
    set_executed set_cleared goto caller_goto queue_ not_empty_ threads gone active_num_ callers pushed taken executed cleared
    asleep looking ending active hand signalling released down add_wait_count waitCount_ events_ count
    signal_count_ app] in *.

(** Going somewhere with the same task in hand and the same activity. *)
Lemma goto_logs j x y p q : logs p -> threads p !! j = Some x -> hand x = hand y -> active x = active y ->
  threads q = <[j := y]> (threads p) -> pushed q = pushed p -> taken q = taken p -> queue_ q = queue_ p ->
  executed q = executed p -> cleared q = cleared p -> active_num_ q = active_num_ p -> logs q.
Proof.
  intros [Hf Hd Ha] Hj Hh Hac Et Ep Eta Eq Ee Ec Ea.
  destruct (goto_counts j x y p Hj) as (_ & _ & _ & C4 & C5). rewrite Hh in C5.
  apply Permutation_app_inv_l in C5. split; rewrite ?Et, ?Ep, ?Eta, ?Eq, ?Ee, ?Ec, ?Ea; [done| |].
  - by rewrite C5.
  - rewrite Ha. do 3 f_equal. lia.
Qed.

Lemma caller_step_logs i p p' : caller_step i p = Some p' -> logs p -> logs p'.
Proof.
  unfold caller_step, clear_threads. intros Hs [Hf Hd Ha]. destruct (callers p !! i) as [x|]; [|done].
  destruct x; try done; try (injection Hs as <-); try (by split).
  - unfold push. split; count_places; [|done..]. by rewrite Hf, app_assoc.
  - destruct (forallb _ _); [|done]. injection Hs as <-. by split.
Qed.

Lemma worker_step_logs j p p' : worker_step j p = Some p' -> logs p -> logs p'.
Proof.
  unfold worker_step. intros Hs I. pose proof I as [Hf Hd Ha].
  destruct (threads p !! j) as [x|] eqn:Hj; [|done].
  destruct x as [| | |[id|]|id| |]; try done.
  - injection Hs as <-. unfold pop. destruct (queue_ p) as [|val rest] eqn:Eq.
    + by eapply (goto_logs j _ Asleep).
    + destruct (goto_counts j _ (Popped val) p Hj) as (C1 & C2 & C3 & C4 & C5). count_places.
      split; count_places.
      * by rewrite Hf, <- app_assoc.
      * rewrite tasks_app, Hd, C5. destruct val; cbn; solve_Permutation.
      * rewrite Ha. do 3 f_equal. lia.
  - destruct (on_events _ _); try done. injection Hs as <-. by eapply (goto_logs j _ Awake).
  - injection Hs as <-. by eapply (goto_logs j _ Ready).
  - injection Hs as <-. destruct (goto_counts j _ (Running id) p Hj) as (C1 & C2 & C3 & C4 & C5). count_places.
    split; count_places; [done| |].
    + rewrite Hd. apply Permutation_app_head, Permutation_app_tail. symmetry. by eapply Permutation_cons_inv.
    + rewrite Ha. unfold wrap. rewrite Zminus_mod_idemp_l. f_equal. lia.
  - injection Hs as <-. by eapply (goto_logs j _ Exited).
  - injection Hs as <-. destruct (goto_counts j _ Leaving p Hj) as (C1 & C2 & C3 & C4 & C5). count_places.
    split; count_places; [done| |].
    + rewrite Hd, <- C5. solve_Permutation.
    + rewrite Ha. do 3 f_equal. lia.
  - injection Hs as <-. destruct (goto_counts j _ Ready p Hj) as (C1 & C2 & C3 & C4 & C5). count_places.
    split; count_places; [done|by rewrite Hd, C5|].
    rewrite Ha. unfold wrap. rewrite Zplus_mod_idemp_l. f_equal. lia.
Qed.

Lemma hands_ready k : hands (replicate k Ready) = [].
Proof. induction k as [|k IH]; [done|apply IH]. Qed.

Lemma exec_logs e p p' : exec e p = Some p' -> logs p -> logs p'.
Proof.
  destruct e as [id| | |i|j]; cbn; intros He I; pose proof I as [Hf Hd Ha].
  - injection He as <-. unfold schedule.
    destruct (_ =? _); [|by split]. unfold sizeCtl_resize, resize. destruct dynamic; [|by split].
    split; count_places; [done| |].
    + unfold hands. rewrite map_app, concat_app. fold (hands (threads p)).
      change (concat _) with (hands (replicate (Z.to_nat (size p + 1) - length (work_threads_ p)) Ready)).
      by rewrite hands_ready, app_nil_r.
    + rewrite total_app, total_replicate. cbn. by rewrite Nat.mul_0_r, Nat.add_0_r.
  - injection He as <-. by split.
  - injection He as <-. unfold clear. split; count_places; [by rewrite Hf, app_nil_r| |done].
    rewrite !tasks_app, Hd. solve_Permutation.
  - by apply (caller_step_logs i p).
  - by apply (worker_step_logs j p).
Qed.

(** ** The invariant

    A pool of [n] threads, after [k] events of which [m], one at most, are
    [Shutdown]. *)
Record inv (n k m : nat) (p : pool) : Prop := {
  inv_size : gone p = 0%nat /\ length (threads p) = n \/
    gone p = n /\ (length (threads p) = n \/ length (threads p) = S n /\ dynamic = true);
  inv_out : forall j x, (j < gone p)%nat -> threads p !! j = Some x -> x = Exited;
  inv_down : (total down (callers p) + Nat.min (gone p) 1)%nat = m;
  inv_loops : Forall (loop_below n) (callers p);
  inv_callers : (length (callers p) <= k)%nat;
  inv_sem : 0 <= count (events_ (not_empty_ p)) <= Z.of_nat k;
  inv_wait : waitCount_ (not_empty_ p) =
    Z.of_nat (total asleep (threads p)) - count (events_ (not_empty_ p)) +
    Z.of_nat (total released (callers p));
  inv_cover : Z.of_nat (total asleep (threads p)) <= count (events_ (not_empty_ p)) \/
    Z.of_nat (length (queue_ p)) <= Z.of_nat (total signalling (callers p)) +
      Z.of_nat (total looking (threads p)) + count (events_ (not_empty_ p));
  inv_ends : nones (taken p) = (total ending (threads p) + nones (cleared p))%nat;
  inv_asked : (nones (pushed p) + total (to_push n) (callers p))%nat = (m * n)%nat
}.

Lemma caller_counts n i x y p : callers p !! i = Some x ->
  (total signalling (<[i := y]> (callers p)) + signalling x = total signalling (callers p) + signalling y)%nat /\
  (total released (<[i := y]> (callers p)) + released x = total released (callers p) + released y)%nat /\
  (total down (<[i := y]> (callers p)) + down x = total down (callers p) + down y)%nat /\
  (total (to_push n) (<[i := y]> (callers p)) + to_push n x = total (to_push n) (callers p) + to_push n y)%nat.
Proof. intros Hi. split_and!; by apply total_insert. Qed.

(** The threads that are not in the vector any more have left their loops. *)
Lemma total_out f n k m p : inv n k m p -> f Exited = 0%nat ->
  total f (threads p) = total f (work_threads_ p).
Proof.
  intros I Hf. unfold work_threads_. rewrite <- (take_drop (gone p) (threads p)) at 1. rewrite total_app.
  assert (total f (take (gone p) (threads p)) = 0%nat) as ->; [|done].
  apply total_zero. intros j x Hj.
  apply lookup_take_Some in Hj as [Hj Hlt]. by rewrite (inv_out _ _ _ _ I j x Hlt Hj).
Qed.

Lemma work_length n k m p : (0 < n)%nat -> inv n k m p -> (length (work_threads_ p) <= n)%nat.
Proof. intros Hn I. unfold work_threads_. rewrite length_drop. destruct (inv_size _ _ _ _ I); lia. Qed.

Lemma small_counts n k m p : (0 < n)%nat -> inv n k m p ->
  (total asleep (threads p) <= n)%nat /\ (total released (callers p) <= k)%nat /\
  (total active (threads p) <= n)%nat.
Proof.
  intros Hn I. pose proof (work_length _ _ _ _ Hn I). pose proof (inv_callers _ _ _ _ I).
  rewrite !(total_out _ n k m p) by done.
  split_and!; (etrans; [|done]); apply total_le_length; intros []; cbn; lia.
Qed.

(** While a client is in [terminate] the vector is whole. *)
Lemma down_whole n k m i c p : (m <= 1)%nat -> (0 < n)%nat -> inv n k m p -> callers p !! i = Some c ->
  down c = 1%nat -> gone p = 0%nat /\ length (threads p) = n /\ total down (callers p) = 1%nat.
Proof.
  intros Hm Hn I Hi Hc. pose proof (total_elem down _ _ _ Hi). pose proof (inv_down _ _ _ _ I).
  destruct (inv_size _ _ _ _ I); lia.
Qed.

Definition loop_whole (n : nat) (loop : option nat) (p : pool) : Prop :=
  match loop with None => True | Some i => (i < n)%nat /\ gone p = 0%nat /\ length (threads p) = n end.

Lemma next_push_counts n loop p : loop_whole n loop p ->
  signalling (next_push loop p) = 0%nat /\ released (next_push loop p) = 0%nat /\
  down (next_push loop p) = match loop with None => 0 | Some _ => 1 end%nat /\
  to_push n (next_push loop p) = match loop with None => 0 | Some i => n - S i end%nat /\
  loop_below n (next_push loop p).
Proof.
  destruct loop as [i|]; [|done]. cbn [loop_whole next_push]. intros (Hi & Hg & Hl).
  unfold terminate_from, work_threads_. rewrite Hg, drop_0, Hl.
  destruct (S i =? n)%nat eqn:E; cbn; split_and!; try done.
  - apply Nat.eqb_eq in E. lia.
  - apply Nat.eqb_neq in E. lia.
Qed.

Lemma loop_of n k m i c p (loop : option nat) : (m <= 1)%nat -> (0 < n)%nat -> inv n k m p ->
  callers p !! i = Some c -> down c = match loop with None => 0 | Some _ => 1 end%nat ->
  (forall i', loop = Some i' -> loop_below n c -> (i' < n)%nat) -> loop_whole n loop p.
Proof.
  intros Hm Hn I Hi Hc Hl. destruct loop as [i'|]; [|done]. cbn.
  destruct (down_whole n k m i c p Hm Hn I Hi Hc) as (-> & -> & _). split; [|done].
  apply Hl; [done|]. pose proof (inv_loops _ _ _ _ I) as Hf. rewrite Forall_lookup in Hf. by eapply Hf.
Qed.

(** A step of a client that does not join: where it goes, and what it does to the
    condition and the queue. *)
Lemma caller_goto_inv n k m i x y p p' : inv n k m p -> callers p !! i = Some x ->
  down y = down x -> loop_below n y ->
  threads p' = threads p -> gone p' = gone p -> callers p' = <[i := y]> (callers p) ->
  taken p' = taken p -> cleared p' = cleared p ->
  0 <= count (events_ (not_empty_ p')) <= Z.of_nat (S k) ->
  waitCount_ (not_empty_ p') + count (events_ (not_empty_ p')) + Z.of_nat (released x) =
    waitCount_ (not_empty_ p) + count (events_ (not_empty_ p)) + Z.of_nat (released y) ->
  (Z.of_nat (total asleep (threads p)) <= count (events_ (not_empty_ p)) ->
   Z.of_nat (total asleep (threads p)) <= count (events_ (not_empty_ p'))) ->
  (Z.of_nat (total asleep (threads p)) <= count (events_ (not_empty_ p')) \/
   Z.of_nat (length (queue_ p')) + Z.of_nat (signalling x) + count (events_ (not_empty_ p)) <=
   Z.of_nat (length (queue_ p)) + Z.of_nat (signalling y) + count (events_ (not_empty_ p'))) ->
  (nones (pushed p') + to_push n y = nones (pushed p) + to_push n x)%nat -> inv n (S k) m p'.
Proof.
  intros I Hi Hd Hb Et Eg Ec Eta Ecl Hsem Hw Hcov1 Hcov2 Ha.
  destruct (caller_counts n i x y p Hi) as (C1 & C2 & C3 & C4). destruct I.
  split; rewrite ?Et, ?Eg, ?Ec, ?Eta, ?Ecl, ?length_insert; try done; try lia.
  - by apply Forall_insert.
Qed.

Lemma caller_step_inv n k m i p p' : (m <= 1)%nat -> (0 < n)%nat -> Z.of_nat n + Z.of_nat k < 2147483647 ->
  inv n k m p -> caller_step i p = Some p' -> inv n (S k) m p'.
Proof.
  intros Hm Hn Hsmall I Hs. pose proof (small_counts _ _ _ _ Hn I) as (Ha & Hr & _).
  pose proof (inv_sem _ _ _ _ I) as Hsem. pose proof (inv_wait _ _ _ _ I) as Hwait.
  unfold caller_step in Hs. destruct (callers p !! i) as [x|] eqn:Hi; [|done].
  assert (Hb : loop_below n x)
    by (pose proof (inv_loops _ _ _ _ I) as Hf; rewrite Forall_lookup in Hf; by eapply Hf).
  destruct x as [task loop|loop|loop|loop|loop| |]; try done; try (injection Hs as <-).
  - unfold push. eapply (caller_goto_inv n k m i _ (At_read loop) p); try done; count_places; try lia.
    + destruct loop; cbn in *; [by destruct Hb|done].
    + rewrite length_app. cbn. lia.
    + rewrite nones_app. destruct loop as [i'|], task; cbn in *; try done; try (destruct Hb; done); lia.
  - assert (Hl : loop_whole n loop p)
      by (eapply (loop_of n k m i); [done..|by destruct loop|by intros i' ->]).
    destruct (next_push_counts n loop p Hl) as (N1 & N2 & N3 & N4 & N5).
    eapply (caller_goto_inv n k m i _ (if negb _ then At_release loop else next_push loop p) p);
      try done; count_places; try lia;
      destruct (waitCount_ (not_empty_ p) =? 0) eqn:E; cbn [negb signalling released] in *; bool_props;
      rewrite ?N1, ?N2, ?N3, ?N4; try done; try lia; try (by destruct loop).
  - eapply (caller_goto_inv n k m i _ (At_add loop) p); try done; count_places;
      unfold after, on_events, ReleaseSemaphore; rewrite (proj2 (Z.leb_le _ _)) by (unfold long_max; lia);
      count_places; try lia; by destruct loop.
  - eapply (caller_goto_inv n k m i _ (At_decrement loop) p); try done; count_places;
      unfold after, on_events, add_signal_count; count_places; try lia; by destruct loop.
  - assert (Hl : loop_whole n loop p)
      by (eapply (loop_of n k m i); [done..|by destruct loop|by intros i' ->]).
    destruct (next_push_counts n loop p Hl) as (N1 & N2 & N3 & N4 & N5).
    pose proof (total_elem released _ _ _ Hi) as Hrel. cbn in Hrel.
    eapply (caller_goto_inv n k m i _ (next_push loop p) p); try done; count_places;
      rewrite ?N1, ?N2, ?N3, ?N4; try lia; try (by destruct loop).
    rewrite s32_small; lia.
  - unfold clear_threads in Hs. destruct (forallb _ _) eqn:Ef; [|done]. injection Hs as <-.
    destruct (down_whole n k m i At_join p Hm Hn I Hi eq_refl) as (Hg & Hlen & Hd).
    destruct (caller_counts n i _ Returned p Hi) as (C1 & C2 & C3 & C4). destruct I.
    split; count_places; rewrite ?length_insert; try done; try lia.
    + intros j x _ Hj. unfold work_threads_ in Ef. rewrite Hg, drop_0, forallb_forall in Ef.
      apply list_elem_of_lookup_2, list_elem_of_In, Ef in Hj. by destruct x.
    + by apply Forall_insert.
    + cbn in C4. lia.
Qed.

(** A step of a worker. *)
Lemma goto_inv n k m j x y p p' : inv n k m p -> threads p !! j = Some x -> x <> Exited ->
  threads p' = <[j := y]> (threads p) -> gone p' = gone p -> callers p' = callers p ->
  pushed p' = pushed p -> cleared p' = cleared p ->
  0 <= count (events_ (not_empty_ p')) <= Z.of_nat k ->
  waitCount_ (not_empty_ p') + count (events_ (not_empty_ p')) + Z.of_nat (asleep x) =
    waitCount_ (not_empty_ p) + count (events_ (not_empty_ p)) + Z.of_nat (asleep y) ->
  (Z.of_nat (total asleep (<[j := y]> (threads p))) <= count (events_ (not_empty_ p')) \/
   Z.of_nat (length (queue_ p')) <= Z.of_nat (total signalling (callers p)) +
      Z.of_nat (total looking (<[j := y]> (threads p))) + count (events_ (not_empty_ p'))) ->
  (nones (taken p') + ending x = nones (taken p) + ending y)%nat -> inv n (S k) m p'.
Proof.
  intros I Hj Hx Et Eg Ec Ep Ecl Hsem Hw Hcov Hta.
  destruct (goto_counts j x y p Hj) as (C1 & C2 & C3 & C4 & C5). destruct I.
  split; rewrite ?Et, ?Eg, ?Ec, ?Ep, ?Ecl, ?length_insert; try done; try lia.
  intros j' x' Hlt Hj'. destruct (decide (j' = j)) as [->|Hne].
  - destruct Hx. by eapply inv_out0.
  - rewrite list_lookup_insert_ne in Hj' by done. by eapply inv_out0.
Qed.

Lemma worker_step_inv n k m j p p' : (0 < n)%nat -> Z.of_nat n + Z.of_nat k < 2147483647 ->
  inv n k m p -> worker_step j p = Some p' -> inv n (S k) m p'.
Proof.
  intros Hn Hsmall I Hs. pose proof (small_counts _ _ _ _ Hn I) as (Ha & Hr & _).
  pose proof (inv_sem _ _ _ _ I) as Hsem. pose proof (inv_wait _ _ _ _ I) as Hwait.
  pose proof (inv_cover _ _ _ _ I) as Hcov.
  unfold worker_step in Hs. destruct (threads p !! j) as [x|] eqn:Hj; [|done].
  assert (C : forall y, _) by (intros y; exact (goto_counts j x y p Hj)).
  destruct x as [| | |[id|]|id| |]; try done.
  - injection Hs as <-. unfold pop. destruct (queue_ p) as [|val rest] eqn:Eq.
    + destruct (C Asleep) as (C1 & C2 & C3 & C4 & C5).
      eapply (goto_inv n k m j _ Asleep p); try done; unfold after, wait_enter; count_places; try lia.
      * rewrite s32_small; lia.
      * right. rewrite Eq. cbn. lia.
    + destruct (C (Popped val)) as (C1 & C2 & C3 & C4 & C5).
      eapply (goto_inv n k m j _ (Popped val) p); try done; count_places; cbn [length] in *; try lia.
      rewrite nones_app. destruct val; cbn; lia.
  - unfold on_events, WaitForSingleObject in Hs. destruct (0 <? _) eqn:E; [|done]. bool_props.
    injection Hs as <-. destruct (C Awake) as (C1 & C2 & C3 & C4 & C5).
    eapply (goto_inv n k m j _ Awake p); try done; count_places; lia.
  - injection Hs as <-. destruct (C Ready) as (C1 & C2 & C3 & C4 & C5).
    eapply (goto_inv n k m j _ Ready p); try done; unfold after, on_events, add_signal_count; count_places; lia.
  - injection Hs as <-. destruct (C (Running id)) as (C1 & C2 & C3 & C4 & C5).
    eapply (goto_inv n k m j _ (Running id) p); try done; count_places; lia.
  - injection Hs as <-. destruct (C Exited) as (C1 & C2 & C3 & C4 & C5).
    eapply (goto_inv n k m j _ Exited p); try done; count_places; lia.
  - injection Hs as <-. destruct (C Leaving) as (C1 & C2 & C3 & C4 & C5).
    eapply (goto_inv n k m j _ Leaving p); try done; count_places; lia.
  - injection Hs as <-. destruct (C Ready) as (C1 & C2 & C3 & C4 & C5).
    eapply (goto_inv n k m j _ Ready p); try done; count_places; lia.
Qed.

(** ** Sizes *)

Definition pool_size (cnt : Z) : nat := Z.to_nat (if cnt =? 0 then 4 else cnt).

Lemma pool_size_pos cnt : 0 <= cnt -> (0 < pool_size cnt)%nat.
Proof. intros Hc. unfold pool_size. destruct (cnt =? 0) eqn:E; bool_props; lia. Qed.

Lemma inv_init cnt : 0 <= cnt -> inv (pool_size cnt) 0 0 (thread_pool_t cnt).
Proof.
  intros Hc. unfold thread_pool_t, resize, pool_size. set (k := if cnt =? 0 then 4 else cnt).
  split; cbn; rewrite ?Nat.sub_0_r, ?length_replicate, ?total_replicate, ?Nat.mul_0_r; try done; try lia.
Qed.

Lemma logs_init cnt : logs (thread_pool_t cnt).
Proof.
  unfold thread_pool_t, resize. split; cbn; [done| |].
  - fold (hands (replicate (Z.to_nat (if cnt =? 0 then 4 else cnt) - 0) Ready)). by rewrite hands_ready.
  - by rewrite total_replicate, Nat.mul_0_r.
Qed.

(** A vector with threads never has [active_num_] as its size. *)
Lemma full_is_empty n k m p : (0 < n)%nat -> Z.of_nat n + Z.of_nat n < 2 ^ w -> logs p -> inv n k m p ->
  (active_num_ p =? size p) = true -> work_threads_ p = [] /\ gone p = n /\ length (threads p) = n.
Proof.
  intros Hn Hw L I He. pose proof (work_length _ _ _ _ Hn I) as Hl.
  apply Z.eqb_eq in He. rewrite (log_active _ L), (total_out _ n k m p I eq_refl) in He. unfold size in He.
  assert (Ha : (total active (work_threads_ p) <= length (work_threads_ p))%nat)
    by (apply total_le_length; intros []; cbn; lia).
  assert (Hz : length (work_threads_ p) = 0%nat).
  { set (a := total active (work_threads_ p)) in *. unfold wrap in He.
    destruct (decide (a = 0)%nat) as [Ez|Hne].
    - rewrite Ez in He. change (- Z.of_nat 0) with 0 in He. rewrite Z.mod_0_l in He; lia.
    - rewrite <- (Z.mod_unique (- Z.of_nat a) (2 ^ w) (-1) (2 ^ w - Z.of_nat a)) in He; lia. }
  split; [by apply nil_length_inv|]. unfold work_threads_ in Hz. rewrite length_drop in Hz.
  destruct (inv_size _ _ _ _ I); lia.
Qed.

(** [schedule] before its push: as it was, or, when the vector is empty and the
    pool dynamic, with one more thread. *)
Lemma schedule_cases n k m id p : (0 < n)%nat -> Z.of_nat n + Z.of_nat n < 2 ^ w -> logs p -> inv n k m p ->
  schedule id p = set_callers (callers p ++ [At_push (Some id) None]) p \/
  dynamic = true /\ gone p = n /\ length (threads p) = n /\
  schedule id p = set_callers (callers p ++ [At_push (Some id) None]) (set_workers (threads p ++ [Ready]) p).
Proof.
  intros Hn Hw L I. unfold schedule, sizeCtl_resize. destruct (_ =? _) eqn:E; [|by left].
  destruct dynamic eqn:Ed; [|by left]. right.
  destruct (full_is_empty n k m p Hn Hw L I E) as (Hwk & Hg & Hl). split_and!; [done..|].
  unfold resize, size. by rewrite Hwk.
Qed.

Lemma exec_inv n k m e p p' : (0 < n)%nat -> Z.of_nat n + Z.of_nat n < 2 ^ w ->
  Z.of_nat n + Z.of_nat k < 2147483647 -> (match e with Shutdown => S m | _ => m end <= 1)%nat ->
  logs p -> inv n k m p -> exec e p = Some p' ->
  inv n (S k) (match e with Shutdown => S m | _ => m end) p'.
Proof.
  intros Hn Hnw Hsmall Hm L I He. destruct e as [id| | |i|j]; cbn in He.
  - injection He as <-.
    destruct (schedule_cases n k m id p Hn Hnw L I) as [->|(Hd & Hg & Hl & ->)]; destruct I; split;
      count_places; rewrite ?total_app, ?length_app; cbn; rewrite ?Nat.add_0_r; try done; try lia.
    1, 4: by (apply Forall_app_2; [|apply Forall_singleton]).
    { right. split; [done|]. right. split; [lia|done]. }
    intros j x Hj Hx. rewrite lookup_app_l in Hx by lia. by eapply inv_out0.
  - injection He as <-. unfold terminate. assert (m = 0)%nat as -> by lia.
    pose proof (inv_down _ _ _ _ I) as Hdown. assert (Hg : gone p = 0%nat) by lia.
    assert (Hl : length (threads p) = n) by (destruct (inv_size _ _ _ _ I); lia).
    unfold terminate_from, work_threads_. rewrite Hg, drop_0, Hl.
    replace (0 =? n)%nat with false by (symmetry; apply Nat.eqb_neq; lia).
    destruct I. split; count_places; rewrite ?total_app, ?length_app; cbn [total length signalling released down to_push];
      rewrite ?Nat.add_0_r; try done; try lia.
    apply Forall_app_2; [done|]. by apply Forall_singleton.
  - injection He as <-. unfold clear. destruct I.
    split; count_places; cbn [length]; try done; try lia. rewrite !nones_app. lia.
  - by apply (caller_step_inv n k m i p).
  - by apply (worker_step_inv n k m j p).
Qed.

Definition shutdowns (events : list event) : nat :=
  total (fun e => match e with Shutdown => 1 | _ => 0 end)%nat events.

Lemma run_logs events p p' : run events p = Some p' -> logs p -> logs p'.
Proof.
  revert p. induction events as [|e events IH]; intros p Hr L; cbn in *; [by injection Hr as <-|].
  destruct (exec e p) as [p1|] eqn:E; [|done]. by apply (IH p1), (exec_logs e p).
Qed.

Lemma run_inv n k m events p p' : (0 < n)%nat -> Z.of_nat n + Z.of_nat n < 2 ^ w ->
  Z.of_nat n + Z.of_nat (k + length events) < 2147483647 -> (m + shutdowns events <= 1)%nat ->
  logs p -> inv n k m p -> run events p = Some p' ->
  inv n (k + length events) (m + shutdowns events) p'.
Proof.
  intros Hn Hnw. revert k m p. induction events as [|e events IH]; intros k m p Hs Hm L I Hr; cbn in *.
  - injection Hr as <-. by rewrite !Nat.add_0_r.
  - destruct (exec e p) as [p1|] eqn:E; [|done].
    assert (Hstep : (m + shutdowns (e :: events) =
      match e with Shutdown => S m | _ => m end + shutdowns events)%nat)
      by (unfold shutdowns; destruct e; cbn; lia).
    unfold shutdowns in *. cbn [total] in Hstep, Hm. rewrite Hstep in Hm |- *.
    rewrite <- Nat.add_succ_comm. apply (IH (S k) _ p1); [lia|done|by apply (exec_logs e p)| |done].
    apply (exec_inv n k m e p p1 Hn Hnw); [lia|lia|done..].
Qed.

(** ** What was called is pushed *)

Definition pending (c : caller) : list nat := match c with At_push (Some id) _ => [id] | _ => [] end.
Definition pendings (l : list caller) : list nat := concat (map pending l).

Definition calls (events : list event) : list nat :=
  omap (fun e => match e with Call id => Some id | _ => None end) events.

Definition accounted (called : list nat) (p : pool) : Prop :=
  tasks (pushed p) ++ pendings (callers p) ≡ₚ called.

Lemma pendings_insert i x y l : l !! i = Some x -> pending x ++ pendings (<[i := y]> l) ≡ₚ pending y ++ pendings l.
Proof.
  unfold pendings. revert i. induction l as [|z l IH]; intros [|i] Hi; cbn in *; simplify_eq.
  - solve_Permutation.
  - specialize (IH i Hi). rewrite (app_assoc (pending x)), (Permutation_app_comm (pending x)), <- app_assoc, IH.
    solve_Permutation.
Qed.

Lemma pendings_app a b : pendings (a ++ b) = pendings a ++ pendings b.
Proof. unfold pendings. by rewrite map_app, concat_app. Qed.

Lemma pending_from i p : pending (terminate_from i p) = [].
Proof. unfold terminate_from. by destruct (_ =? _)%nat. Qed.

Lemma pending_next loop p : pending (next_push loop p) = [].
Proof. destruct loop; [apply pending_from|done]. Qed.

Lemma worker_step_keeps j p p' : worker_step j p = Some p' -> pushed p' = pushed p /\ callers p' = callers p.
Proof.
  unfold worker_step, pop. destruct (threads p !! j) as [[| | |[id|]|id| |]|]; try done;
    try (intros [= <-]; done).
  - intros [= <-]. by destruct (queue_ p).
  - by destruct (on_events _ _); [intros [= <-]|..].
Qed.

Lemma exec_accounted called e p p' : accounted called p -> exec e p = Some p' ->
  accounted (called ++ match e with Call id => [id] | _ => [] end) p'.
Proof.
  unfold accounted. intros Ha He. destruct e as [id| | |i|j]; cbn in He.
  - injection He as <-. unfold schedule.
    destruct (_ =? _); unfold sizeCtl_resize, resize; destruct dynamic; count_places;
      rewrite pendings_app, app_assoc, Ha; done.
  - injection He as <-. unfold terminate. count_places. rewrite pendings_app. unfold pendings at 2. cbn.
    by rewrite pending_from, !app_nil_r.
  - injection He as <-. by rewrite app_nil_r.
  - rewrite app_nil_r. unfold caller_step in He. destruct (callers p !! i) as [x|] eqn:Hi; [|done].
    assert (Hgo : forall y q, pending y ++ pendings (callers p) ≡ₚ pending x ++ q ->
      pendings (<[i := y]> (callers p)) ≡ₚ q).
    { intros y q Hq. apply (Permutation_app_inv_l (pending x)). by rewrite (pendings_insert i x y). }
    destruct x as [[id|] loop|loop|loop|loop|loop| |]; try done;
      try (unfold clear_threads in He; destruct (forallb _ _); [|done]);
      injection He as <-; cbn -[pendings next_push];
      rewrite <- Ha, ?tasks_app, <- ?app_assoc; apply Permutation_app_head.
    all: try (apply Hgo; cbn; by try destruct (negb _); rewrite ?pending_next).
    apply (pendings_insert i _ (At_read loop)) in Hi. cbn in *. by rewrite Hi.
  - rewrite app_nil_r. by apply worker_step_keeps in He as [-> ->].
Qed.

Lemma run_accounted called events p p' : accounted called p -> run events p = Some p' ->
  accounted (called ++ calls events) p'.
Proof.
  revert called p. induction events as [|e events IH]; intros called p Ha Hr; cbn in *.
  - injection Hr as <-. by rewrite app_nil_r.
  - destruct (exec e p) as [p1|] eqn:E; [|done].
    apply (exec_accounted called) in E; [|done]. apply (IH _ _ E) in Hr.
    by destruct e; cbn in *; rewrite <- app_assoc in Hr.
Qed.

(** ** The theorems *)

Section Theorems.
Context (cnt : Z) (events : list event) (p : pool).
Context (Hcnt : 0 <= cnt) (Hsize : 2 * Z.of_nat (pool_size cnt) < 2 ^ w) (Hw : 0 < w).
Context (Hlong : Z.of_nat (pool_size cnt + length events) < 2147483647).
Context (Hrun : run events (thread_pool_t cnt) = Some p).

Lemma reached : logs p /\ accounted (calls events) p.
Proof.
  split; [by apply (run_logs events (thread_pool_t cnt)), logs_init|].
  apply (run_accounted [] events (thread_pool_t cnt)); [|done].
  unfold accounted, thread_pool_t, resize. done.
Qed.

Lemma reached_inv : (shutdowns events <= 1)%nat ->
  inv (pool_size cnt) (length events) (shutdowns events) p.
Proof.
  intros Hm. apply (run_inv (pool_size cnt) 0 0 events (thread_pool_t cnt)); try done; try lia.
  - by apply pool_size_pos.
  - apply logs_init.
  - by apply inv_init.
Qed.

(** [C10] Under every interleaving the tasks leave the queue in the order in which they
    went in; each one called is in exactly one place (with the client that pushes
    it, queued, with a worker, executed, or thrown away by [clear]), so none is lost
    or executed twice. As long as no [shutdown] was called, the pool has the threads
    it was made with, whatever its size policy: [dynamic_size] never adds one. (The
    clients use the vector of the threads one after the other; after a [shutdown] a
    dynamic pool does add one, see [shutdown_joins].) *)
Theorem tasks_run_once :
  pushed p = taken p ++ queue_ p /\
  calls events ≡ₚ executed p ++ hands (threads p) ++ tasks (queue_ p) ++ pendings (callers p) ++
    tasks (cleared p) /\
  (shutdowns events = 0%nat -> threads p = work_threads_ p /\ length (work_threads_ p) = pool_size cnt).
Proof.
  destruct reached as [L Ha]. split_and!; [apply L| |].
  - rewrite <- Ha, (log_fifo _ L), tasks_app, (log_done _ L). solve_Permutation.
  - intros Hm. pose proof reached_inv as I. rewrite Hm in I. specialize (I ltac:(lia)).
    pose proof (inv_down _ _ _ _ I). assert (Hg : gone p = 0%nat) by lia.
    unfold work_threads_. rewrite Hg, drop_0. split; [done|].
    pose proof (pool_size_pos cnt Hcnt). destruct (inv_size _ _ _ _ I); lia.
Qed.

(** [active_size()], which should be the number of threads that run a task, is that
    number's negative at type [size_t]. *)
Theorem active_size_negative :
  active_num_ p = wrap w (- Z.of_nat (total active (threads p))).
Proof. destruct reached as [L _]. apply L. Qed.

(** *** At rest *)

Lemma rest_callers : at_rest p -> Forall (fun c => c = Returned \/
  c = At_join /\ forallb exited (work_threads_ p) = false) (callers p).
Proof.
  intros Hr. apply Forall_lookup. intros i c Hi. destruct (Hr i) as [Hc _].
  unfold caller_step, clear_threads in Hc. rewrite Hi in Hc. destruct c; try done; [|by left].
  destruct (forallb _ _); [done|]. by right.
Qed.

Lemma rest_workers : at_rest p -> Forall (fun x => x = Exited \/
  x = Asleep /\ count (events_ (not_empty_ p)) <= 0) (threads p).
Proof.
  intros Hr. apply Forall_lookup. intros j x Hj. destruct (Hr j) as [_ Hc]. unfold worker_step in Hc.
  rewrite Hj in Hc. destruct x as [| | |[id|]|id| |]; try done; [|by left].
  unfold on_events, WaitForSingleObject in Hc. destruct (0 <? _) eqn:E; [done|]. bool_props. right. by split.
Qed.

Lemma rest_counts n : at_rest p ->
  total signalling (callers p) = 0%nat /\ total (to_push n) (callers p) = 0%nat /\ pendings (callers p) = [] /\
  total looking (threads p) = 0%nat /\ hands (threads p) = [] /\
  (total asleep (threads p) + total ending (threads p))%nat = length (threads p).
Proof.
  intros Hr. pose proof (rest_callers Hr) as Hc. pose proof (rest_workers Hr) as Hk.
  assert (total signalling (callers p) = 0%nat /\ total (to_push n) (callers p) = 0%nat /\
    pendings (callers p) = []) as (H1 & H2 & H3).
  { clear - Hc. induction Hc as [|c l [-> | [-> _]] _ IH]; [done|exact IH..]. }
  split_and!; [done..| | |]; clear - Hk; induction Hk as [|x l [->|[-> _]] _ IH]; cbn; lia || done.
Qed.

Lemma rest_queue n k m : inv n k m p -> at_rest p -> total asleep (threads p) <> 0%nat -> queue_ p = [].
Proof.
  intros I Hr Hs. destruct (rest_counts n Hr) as (H1 & _ & _ & H4 & _).
  pose proof (rest_workers Hr) as Hk. rewrite Forall_lookup in Hk.
  destruct (total_nonzero _ _ Hs) as (j & x & Hj & Hx).
  destruct (Hk j x Hj) as [->|[_ Hc]]; [done|].
  destruct (inv_cover _ _ _ _ I) as [?|?]; [lia|]. destruct (queue_ p); [done|]. cbn in *. lia.
Qed.

Lemma rest_core n k m : inv n k m p -> at_rest p -> total asleep (threads p) <> 0%nat ->
  queue_ p = [] /\ executed p ++ tasks (cleared p) ≡ₚ calls events.
Proof.
  intros I Hr Hj. destruct reached as [L Ha]. destruct (rest_counts n Hr) as (_ & _ & H3 & _ & H5 & _).
  pose proof (rest_queue n k m I Hr Hj) as Hq. split; [done|].
  rewrite <- Ha, H3, app_nil_r, (log_fifo _ L), Hq, app_nil_r, (log_done _ L), H5.
  done.
Qed.

(** Without a shutdown every worker is asleep at rest. *)
Lemma rest_asleep : at_rest p -> shutdowns events = 0%nat -> total asleep (threads p) <> 0%nat.
Proof.
  intros Hr Hnone. pose proof reached_inv as I. rewrite Hnone in I. specialize (I ltac:(lia)).
  destruct reached as [L _]. destruct (rest_counts (pool_size cnt) Hr) as (_ & _ & _ & _ & _ & H6).
  pose proof (inv_asked _ _ _ _ I) as Hasked. rewrite (log_fifo _ L), nones_app in Hasked.
  pose proof (inv_ends _ _ _ _ I). pose proof (inv_size _ _ _ _ I). pose proof (pool_size_pos cnt Hcnt). lia.
Qed.

(** At rest a [shutdown] has returned, and its threads are out; or it waits for a
    thread that sleeps. *)
Lemma rest_down : at_rest p -> shutdowns events = 1%nat ->
  (nones (taken p) + nones (queue_ p))%nat = pool_size cnt /\
  (gone p = pool_size cnt /\ Forall (fun c => c = Returned) (callers p) \/
   gone p = 0%nat /\ length (threads p) = pool_size cnt /\ total asleep (threads p) <> 0%nat /\
   exists i, callers p !! i = Some At_join).
Proof.
  intros Hr Hone. pose proof reached_inv as I. rewrite Hone in I. specialize (I ltac:(lia)).
  destruct reached as [L _]. destruct (rest_counts (pool_size cnt) Hr) as (_ & H2 & _ & _ & _ & H6).
  pose proof (inv_asked _ _ _ _ I) as Hasked. rewrite H2, (log_fifo _ L), nones_app in Hasked.
  split; [lia|]. pose proof (rest_callers Hr) as Hc. rewrite Forall_lookup in Hc.
  pose proof (inv_down _ _ _ _ I) as Hd. pose proof (pool_size_pos cnt Hcnt) as Hpos.
  destruct (decide (total down (callers p) = 0%nat)) as [Hz|Hnz].
  - left. split; [destruct (inv_size _ _ _ _ I); lia|]. apply Forall_lookup. intros i c Hi.
    destruct (Hc i c Hi) as [->|[-> _]]; [done|].
    pose proof (total_elem down _ _ _ Hi). cbn in *. lia.
  - right. assert (Hg : gone p = 0%nat) by lia.
    destruct (total_nonzero _ _ Hnz) as (i & c & Hi & Hx).
    destruct (Hc i c Hi) as [->|[-> Hf]]; [done|].
    split_and!; [done|destruct (inv_size _ _ _ _ I); lia| |by exists i].
    intros Hz. unfold work_threads_ in Hf. rewrite Hg, drop_0 in Hf.
    apply not_true_iff_false in Hf. apply Hf, forallb_forall. intros x Hin.
    apply list_elem_of_In, list_elem_of_lookup in Hin as [j Hj].
    pose proof (rest_workers Hr) as Hk. rewrite Forall_lookup in Hk.
    destruct (Hk j x Hj) as [->|[-> _]]; [done|]. pose proof (total_elem asleep _ _ _ Hj). cbn in *. lia.
Qed.

Lemma out_ending n k m : inv n k m p -> (gone p <= total ending (threads p))%nat.
Proof.
  intros I. rewrite <- (take_drop (gone p) (threads p)), total_app.
  assert (H : total ending (take (gone p) (threads p)) = length (take (gone p) (threads p))).
  { assert (Forall (fun x => x = Exited) (take (gone p) (threads p))) as Hf.
    { apply Forall_lookup. intros j x Hj. apply lookup_take_Some in Hj as [Hj Hlt].
      by apply (inv_out _ _ _ _ I j). }
    induction Hf as [|x l -> _ IH]; cbn; lia. }
  rewrite H, length_take. destruct (inv_size _ _ _ _ I); lia.
Qed.

(** [C20] After one [shutdown], with nothing taken away by [clear], when no thread can
    move: every thread the pool was made with has left its loop and was joined, and
    the [shutdown] has returned; exactly its empty tasks were taken for them, and
    what was taken has been executed. The vector is empty, and the tasks called
    behind the last of the empty ones are never executed; or the pool is dynamic, a
    task called after the [shutdown] started a new thread, which has executed
    everything and waits for an empty task only another [shutdown] would push. *)
Theorem shutdown_joins : at_rest p -> shutdowns events = 1%nat -> cleared p = [] ->
  Forall (fun c => c = Returned) (callers p) /\
  gone p = pool_size cnt /\ Forall (fun x => x = Exited) (take (gone p) (threads p)) /\
  nones (taken p) = pool_size cnt /\ executed p ≡ₚ tasks (taken p) /\
  exists late, pushed p = taken p ++ late /\ nones late = 0%nat /\
    (work_threads_ p = [] \/ dynamic = true /\ work_threads_ p = [Asleep] /\ late = []).
Proof.
  intros Hr Hone Hcl. pose proof reached_inv as I. rewrite Hone in I. specialize (I ltac:(lia)).
  destruct reached as [L _]. destruct (rest_counts (pool_size cnt) Hr) as (_ & _ & _ & _ & H5 & H6).
  destruct (rest_down Hr Hone) as [Hn [[Hg Hret]|(Hg & Hlen & Hsl & _)]].
  2: { rewrite (rest_queue _ _ _ I Hr Hsl) in Hn. pose proof (inv_ends _ _ _ _ I) as He.
       rewrite Hcl in He. cbn in *. lia. }
  pose proof (inv_ends _ _ _ _ I) as He. rewrite Hcl in He. cbn in He.
  pose proof (out_ending _ _ _ I) as Ho.
  split_and!; [done|done| |lia|by rewrite (log_done _ L), H5, Hcl, app_nil_r|].
  { apply Forall_lookup. intros j x Hj. apply lookup_take_Some in Hj as [Hj Hlt].
    by apply (inv_out _ _ _ _ I j). }
  exists (queue_ p). split_and!; [apply L|lia|].
  destruct (inv_size _ _ _ _ I) as [|[_ [Hl|[Hl Hd]]]]; [pose proof (pool_size_pos cnt Hcnt); lia| |].
  - left. unfold work_threads_. apply drop_ge. lia.
  - right. assert (Hsl : total asleep (threads p) <> 0%nat) by lia.
    split_and!; [done| |by apply (rest_queue _ _ _ I Hr)].
    rewrite (total_out _ _ _ _ _ I eq_refl) in Hsl.
    assert (length (work_threads_ p) = 1%nat) as Hw1 by (unfold work_threads_; rewrite length_drop; lia).
    destruct (work_threads_ p) as [|x [|]] eqn:Ew; try done.
    assert (Hj : threads p !! (gone p + 0)%nat = Some x)
      by (rewrite <- lookup_drop; fold (work_threads_ p); by rewrite Ew).
    pose proof (rest_workers Hr) as Hk. rewrite Forall_lookup in Hk.
    destruct (Hk _ _ Hj) as [->|[-> _]]; done.
Qed.

(** A [clear] that takes empty tasks of a [shutdown] away keeps threads in their
    loops for ever: when no thread can move, as many as it took are still asleep, and
    the [shutdown] still waits for them. *)
Theorem clear_blocks_shutdown : at_rest p -> shutdowns events = 1%nat -> nones (cleared p) <> 0%nat ->
  (nones (cleared p) <= total asleep (threads p))%nat /\ exists i, callers p !! i = Some At_join.
Proof.
  intros Hr Hone Hcl. pose proof reached_inv as I. rewrite Hone in I. specialize (I ltac:(lia)).
  destruct (rest_counts (pool_size cnt) Hr) as (_ & _ & _ & _ & _ & H6).
  pose proof (inv_ends _ _ _ _ I). pose proof (out_ending _ _ _ I).
  destruct (rest_down Hr Hone) as [Hn [[Hg Hret]|(Hg & Hlen & Hsl & Hj)]]; [lia|]. split; [lia|done].
Qed.

End Theorems.

(** ** Every run of the threads ends

    The steps the threads can make without new calls are bounded by a measure. *)

Definition worker_cost (x : worker) : nat :=
  match x with
  | Popped (Some _) => 4
  | Running _ => 3
  | Awake | Leaving => 2
  | Ready | Popped None => 1
  | Asleep | Exited => 0
  end.
Definition loop_cost (n : nat) (loop : option nat) : nat :=
  match loop with None => 0 | Some i => 12 * (n - S i) + 1 end.
Definition caller_cost (n : nat) (c : caller) : nat :=
  match c with
  | At_push _ loop => loop_cost n loop + 12
  | At_read loop => loop_cost n loop + 7
  | At_release loop => loop_cost n loop + 6
  | At_add loop => loop_cost n loop + 2
  | At_decrement loop => loop_cost n loop + 1
  | At_join => 1
  | Returned => 0
  end.

Definition measure (p : pool) : nat :=
  (total worker_cost (threads p) + total (caller_cost (length (threads p))) (callers p) +
   4 * length (queue_ p) + 3 * Z.to_nat (count (events_ (not_empty_ p))))%nat.

Definition is_step (e : event) : Prop := match e with Caller _ | Worker _ => True | _ => False end.

Lemma next_push_cost n loop p : loop_whole n loop p ->
  (caller_cost n (next_push loop p) <= loop_cost n loop)%nat.
Proof.
  destruct loop as [i|]; [|cbn; lia]. cbn [loop_whole next_push]. intros (Hi & Hg & Hl).
  unfold terminate_from, work_threads_. rewrite Hg, drop_0, Hl.
  destruct (S i =? n)%nat eqn:E; cbn; [lia|]. apply Nat.eqb_neq in E. lia.
Qed.

Lemma caller_step_measure n k m i p p' : (m <= 1)%nat -> (0 < n)%nat -> inv n k m p ->
  caller_step i p = Some p' -> (measure p' < measure p)%nat.
Proof.
  intros Hm Hn I. unfold caller_step. destruct (callers p !! i) as [x|] eqn:Hi; [|done].
  assert (Hb : loop_below n x)
    by (pose proof (inv_loops _ _ _ _ I) as Hf; rewrite Forall_lookup in Hf; by eapply Hf).
  assert (Hnext : forall loop, loop_whole n loop p ->
    (caller_cost (length (threads p)) (next_push loop p) <= loop_cost (length (threads p)) loop)%nat).
  { intros [i'|] Hl; [|cbn; lia]. pose proof Hl as (_ & _ & El). rewrite El. by apply next_push_cost. }
  pose proof (fun y => total_insert (caller_cost (length (threads p))) _ _ _ y Hi) as C. unfold measure.
  destruct x as [task loop|loop|loop|loop|loop| |]; try done; try (intros [= <-]).
  - specialize (C (At_read loop)). unfold push. count_places. cbn [caller_cost] in *.
    rewrite length_app. cbn. lia.
  - specialize (C (if negb (waitCount_ (not_empty_ p) =? 0) then At_release loop else next_push loop p)).
    assert (Hl : loop_whole n loop p)
      by (eapply (loop_of n k m i); [done..|by destruct loop|by intros i' ->]).
    specialize (Hnext loop Hl). count_places. destruct (negb _); cbn [caller_cost] in *; lia.
  - specialize (C (At_add loop)). count_places. unfold after, on_events, ReleaseSemaphore.
    destruct (_ <=? _); count_places; cbn [caller_cost] in *; lia.
  - specialize (C (At_decrement loop)). unfold after, on_events, add_signal_count. count_places.
    cbn [caller_cost] in *. lia.
  - specialize (C (next_push loop p)).
    assert (Hl : loop_whole n loop p)
      by (eapply (loop_of n k m i); [done..|by destruct loop|by intros i' ->]).
    specialize (Hnext loop Hl). count_places. cbn [caller_cost] in *. lia.
  - unfold clear_threads. destruct (forallb _ _); [|done]. intros [= <-]. specialize (C Returned).
    count_places. cbn [caller_cost] in *. lia.
Qed.

Lemma worker_step_measure j p p' : worker_step j p = Some p' -> (measure p' < measure p)%nat.
Proof.
  unfold worker_step. destruct (threads p !! j) as [x|] eqn:Hj; [|done].
  pose proof (fun y => total_insert worker_cost _ _ _ y Hj) as C. unfold measure.
  destruct x as [| | |[id|]|id| |]; try done; cbn [threads callers goto set_workers];
    rewrite ?length_insert.
  - intros [= <-]. unfold pop. destruct (queue_ p) as [|val rest] eqn:E.
    + specialize (C Asleep). unfold after, wait_enter. count_places. rewrite E, length_insert. cbn in *. lia.
    + specialize (C (Popped val)). count_places. rewrite length_insert. destruct val; cbn in *; lia.
  - unfold on_events, WaitForSingleObject. destruct (0 <? _) eqn:E; [|done]. bool_props.
    intros [= <-]. specialize (C Awake). count_places. rewrite length_insert. cbn [worker_cost] in *. lia.
  - intros [= <-]. specialize (C Ready). unfold after, on_events, add_signal_count. count_places.
    rewrite length_insert. cbn [worker_cost] in *. lia.
  - intros [= <-]. specialize (C (Running id)). count_places. rewrite length_insert. cbn [worker_cost] in *. lia.
  - intros [= <-]. specialize (C Exited). count_places. rewrite length_insert. cbn [worker_cost] in *. lia.
  - intros [= <-]. specialize (C Leaving). count_places. rewrite length_insert. cbn [worker_cost] in *. lia.
  - intros [= <-]. specialize (C Ready). count_places. rewrite length_insert. cbn [worker_cost] in *. lia.
Qed.

Lemma step_measure n k m e p p' : (m <= 1)%nat -> (0 < n)%nat -> inv n k m p -> is_step e ->
  exec e p = Some p' -> (measure p' < measure p)%nat.
Proof.
  intros Hm Hn I He E. destruct e; try done; cbn in E;
    [by eapply caller_step_measure|by eapply worker_step_measure].
Qed.

Lemma step_inv n k m e p p' : (m <= 1)%nat -> (0 < n)%nat -> Z.of_nat n + Z.of_nat k < 2147483647 ->
  inv n k m p -> is_step e -> exec e p = Some p' -> inv n (S k) m p'.
Proof.
  intros Hm Hn Hs I He E. destruct e; try done; cbn in E;
    [by eapply caller_step_inv|by eapply worker_step_inv].
Qed.

Lemma steps_measure n k m steps p p' : (m <= 1)%nat -> (0 < n)%nat ->
  Z.of_nat n + Z.of_nat (k + measure p) < 2147483647 -> inv n k m p ->
  Forall is_step steps -> run steps p = Some p' -> (length steps + measure p' <= measure p)%nat.
Proof.
  intros Hm Hn Hk I Hs. revert k p Hk I.
  induction Hs as [|e steps He _ IH]; intros k p Hk I Hr; cbn in *; [by injection Hr as <-|].
  destruct (exec e p) as [p1|] eqn:E; [|done].
  pose proof (step_measure n k m e p p1 Hm Hn I He E) as Hlt.
  specialize (IH (S k) p1 ltac:(lia) ltac:(apply (step_inv n k m e p p1); [done|done|lia|done..]) Hr). lia.
Qed.

(** Some thread can move, or the pool is at rest. *)
Lemma rest_dec p : at_rest p \/ exists e p', is_step e /\ exec e p = Some p'.
Proof.
  set (k := max (length (threads p)) (length (callers p))).
  destruct (decide (Forall (fun i => caller_step i p = None /\ worker_step i p = None) (seq 0 k)))
    as [Hf|Hf].
  - left. intros i. destruct (decide (i < k)%nat) as [Hi|Hi].
    + rewrite Forall_forall in Hf. apply Hf, elem_of_seq. lia.
    + unfold caller_step, worker_step. rewrite !lookup_ge_None_2 by lia. done.
  - right. apply not_Forall_Exists, Exists_exists in Hf as (i & _ & Hi); [|tc_solve].
    destruct (caller_step i p) as [p'|] eqn:E; [by exists (Caller i), p'|].
    destruct (worker_step i p) as [p'|] eqn:E'; [by exists (Worker i), p'|]. by destruct Hi.
Qed.

Lemma pool_run_app a b p p' p2 : run a p = Some p' -> run b p' = Some p2 -> run (a ++ b) p = Some p2.
Proof.
  revert p. induction a as [|e a IH]; intros p Ha Hb; cbn in *; [by injection Ha as ->|].
  destruct (exec e p) as [p1|]; [by apply IH|done].
Qed.

Lemma steps_quiet steps : Forall is_step steps -> calls steps = [] /\ shutdowns steps = 0%nat.
Proof. induction 1 as [|[] steps He _ [H1 H2]]; done. Qed.

Lemma settle n k m p : (m <= 1)%nat -> (0 < n)%nat ->
  Z.of_nat n + Z.of_nat (k + measure p) < 2147483647 -> inv n k m p ->
  exists steps p', Forall is_step steps /\ run steps p = Some p' /\ at_rest p'.
Proof.
  intros Hm Hn. remember (measure p) as c eqn:E. revert k p E.
  induction c as [c IH] using lt_wf_ind. intros k p -> Hk I.
  destruct (rest_dec p) as [Hr|(e & p1 & He & Hp)]; [by exists [], p|].
  pose proof (step_measure n k m e p p1 Hm Hn I He Hp) as Hlt.
  destruct (IH (measure p1) Hlt (S k) p1 eq_refl ltac:(lia)
    ltac:(apply (step_inv n k m e p p1); [done|done|lia|done..])) as (steps & p' & Hs & Hr & Hp').
  exists (e :: steps), p'. split_and!; [by constructor| |done]. cbn. by rewrite Hp.
Qed.

(** [C4] No task waits for ever: from any state the pool can be in before a shutdown, the
    threads can make only boundedly many steps, and wherever they stop, whatever the
    schedule, every task that was called has been executed once or cleared; no signal of
    the condition is lost. *)
Theorem every_task_runs cnt events p : 0 <= cnt -> 2 * Z.of_nat (pool_size cnt) < 2 ^ w -> 0 < w ->
  shutdowns events = 0%nat -> run events (thread_pool_t cnt) = Some p ->
  Z.of_nat (pool_size cnt + (length events + measure p)) < 2147483647 ->
  (forall steps p', Forall is_step steps -> run steps p = Some p' ->
     (length steps <= measure p)%nat /\ (at_rest p' -> queue_ p' = [] /\ executed p' ++ tasks (cleared p') ≡ₚ calls events)) /\
  exists steps p', Forall is_step steps /\ run steps p = Some p' /\ at_rest p'.
Proof.
  intros Hc Hsize Hw Hnone Hrun Hlong. pose proof (pool_size_pos cnt Hc) as Hpos.
  assert (I : inv (pool_size cnt) (length events) (shutdowns events) p)
    by (apply (reached_inv cnt); done || lia).
  split; [|apply (settle (pool_size cnt) (length events) (shutdowns events)); [lia|done|lia|done]].
  intros steps p' Hs Hp'.
  pose proof (steps_measure (pool_size cnt) (length events) (shutdowns events) steps p p' ltac:(lia) Hpos ltac:(lia) I Hs Hp') as Hm. split; [lia|]. intros Hr.
  destruct (steps_quiet _ Hs) as [Hcalls Hdown].
  assert (Hall : run (events ++ steps) (thread_pool_t cnt) = Some p') by (by eapply pool_run_app).
  assert (Hlen : Z.of_nat (pool_size cnt + length (events ++ steps)) < 2147483647)
    by (rewrite length_app; lia).
  assert (Hno : shutdowns (events ++ steps) = 0%nat) by (unfold shutdowns in *; rewrite total_app; lia).
  assert (Hsleep : total asleep (threads p') <> 0%nat) by (eapply (rest_asleep cnt (events ++ steps)); done || lia).
  assert (I' : inv (pool_size cnt) (length (events ++ steps)) (shutdowns (events ++ steps)) p')
    by (apply (reached_inv cnt); done || lia).
  assert (He : queue_ p' = [] /\ executed p' ++ tasks (cleared p') ≡ₚ calls (events ++ steps))
    by (eapply (rest_core cnt (events ++ steps)); done).
  destruct He as [Hq He]. split; [done|].
  rewrite He. unfold calls in *. rewrite omap_app, Hcalls. by rewrite app_nil_r.
Qed.

End ThreadPool.

(** ** The task adaptors (task_adaptor.hpp) *)

Module Tasks.
Section Tasks.
Context {W : Type}.

(** What a wait answers; [Signalled i]: the [i]-th handle. *)
Inductive wait_answer := Signalled (i : nat) | Timed_out | Failed.

(** [prio_task_function]; an empty function does nothing. *)
Record prio_task_function := Prio { priority_ : Z; func_ : option (prog W unit) }.
Definition prio_run (t : prio_task_function) : prog W unit :=
  match func_ t with Some f => f | None => ret tt end.
Definition prio_less (t rhs : prio_task_function) : bool := priority_ t <? priority_ rhs.

(** [looped_task_function]: the answers of the waits for [exit_], one for each round. *)
Fixpoint looped_run (func : option (prog W unit)) (answers : list wait_answer) : prog W unit :=
  match answers with
  | [] => diverge
  | Signalled 0 :: _ => ret tt
  | Timed_out :: answers' =>
      match func with Some f => f ;;; looped_run func answers' | None => looped_run func answers' end
  | _ :: answers' => looped_run func answers'
  end.

(** [wait_handle_task_function]: handle 0 is [wait_], 1 is [exit_]. *)
Fixpoint wait_handle_run (func : prog W unit) (answers : list wait_answer) : prog W unit :=
  match answers with
  | [] => diverge
  | Signalled 1 :: _ => ret tt
  | Signalled 0 :: answers' | Timed_out :: answers' => func ;;; wait_handle_run func answers'
  | _ :: _ => ret tt
  end.

Fixpoint repeat (n : nat) (f : prog W unit) : prog W unit :=
  match n with O => ret tt | S n' => f ;;; repeat n' f end.

Definition timeouts (l : list wait_answer) : nat :=
  total (fun a => match a with Timed_out => 1 | _ => 0 end)%nat l.

(** Until its exit is signalled a looped task runs once for each wait that times out,
    and nothing else ends it: a wait that fails, on a handle that was closed, is tried
    again at once, for ever. *)
Theorem looped_runs f before after s : Forall (fun a => a <> Signalled 0) before ->
  looped_run (Some f) (before ++ Signalled 0 :: after) s = repeat (timeouts before) f s /\
  looped_run (Some f) (replicate (length before) Failed) s = OutOfFuel.
Proof.
  intros Hb. split.
  - revert s. induction Hb as [|a before Ha _ IH]; intros s; [done|].
    destruct a as [[|i]| |]; cbn; [done|apply IH| |apply IH].
    unfold bind. by destruct (f s).
  - clear Hb. revert s. induction before as [|a before IH]; intros s; [done|]. apply IH.
Qed.

End Tasks.
End Tasks.

(** ** Witnesses *)

Module Demo.

Ltac decided := apply (bool_decide_unpack _); by vm_compute.

(** Two workers; both fall asleep, two tasks are called at once, and the workers take
    them while the clients are still signalling. *)
Definition made : list event :=
  [Worker 0; Worker 1; Call 7; Call 8; Caller 0; Caller 1; Caller 0; Caller 1; Caller 0; Worker 1; Worker 1; Worker 1].
Definition busy : pool := default (thread_pool_t 2) (run 32 false made (thread_pool_t 2)).

Lemma tasks_run_once_witness :
  threads busy = [Asleep; Popped (Some 7%nat)] /\
  pushed busy = taken busy ++ queue_ busy /\
  calls made ≡ₚ executed busy ++ hands (threads busy) ++ tasks (queue_ busy) ++
    pendings (callers busy) ++ tasks (cleared busy) /\
  (shutdowns made = 0%nat -> threads busy = work_threads_ busy /\ length (work_threads_ busy) = pool_size 2).
Proof. split; [by vm_compute|]. apply (tasks_run_once 32 false 2 made busy); by vm_compute. Defined.

Definition running : list event := made ++ [Worker 1].
Definition in_task : pool := default (thread_pool_t 2) (run 32 true running (thread_pool_t 2)).

Lemma active_size_negative_witness : active_num_ in_task = 4294967295 /\
  active_num_ in_task = wrap 32 (- Z.of_nat (total active (threads in_task))).
Proof. split; [by vm_compute|]. apply (active_size_negative 32 true 2 running in_task); by vm_compute. Defined.

Lemma every_task_runs_witness :
  exists steps p', Forall is_step steps /\ run 32 false steps busy = Some p' /\ at_rest 32 p'.
Proof. apply (every_task_runs 32 false 2 made busy); by vm_compute. Defined.

(** One worker: a task, a shutdown, and a task that comes too late: before the
    worker takes the empty task, or, in a dynamic pool, after the shutdown. *)
Definition closing : list event :=
  [Call 7; Caller 0; Caller 0; Shutdown; Caller 1; Caller 1; Call 8; Caller 2; Caller 2;
   Worker 0; Worker 0; Worker 0; Worker 0; Worker 0; Worker 0; Caller 1].
Definition closed : pool := default (thread_pool_t 1) (run 32 false closing (thread_pool_t 1)).

Definition reopening : list event :=
  [Shutdown; Caller 0; Caller 0; Worker 0; Worker 0; Caller 0; Call 8; Caller 1; Caller 1;
   Worker 1; Worker 1; Worker 1; Worker 1; Worker 1].
Definition reopened : pool := default (thread_pool_t 1) (run 32 true reopening (thread_pool_t 1)).

Lemma closed_rest : at_rest 32 closed /\ at_rest 32 reopened.
Proof. by split; intros [|[|[|[|i]]]]; vm_compute. Qed.

Lemma shutdown_joins_witness :
  (at_rest 32 reopened /\ work_threads_ reopened = [Asleep] /\ executed reopened = [8]%nat) /\
  Forall (fun c => c = Returned) (callers closed) /\
  gone closed = pool_size 1 /\ Forall (fun x => x = Exited) (take (gone closed) (threads closed)) /\
  nones (taken closed) = pool_size 1 /\ executed closed ≡ₚ tasks (taken closed) /\
  exists late, pushed closed = taken closed ++ late /\ nones late = 0%nat /\
    (work_threads_ closed = [] \/ false = true /\ work_threads_ closed = [Asleep] /\ late = []).
Proof.
  split; [split; [apply closed_rest|by vm_compute]|].
  apply (shutdown_joins 32 false 1 closing closed); [by vm_compute..|apply closed_rest|by vm_compute|by vm_compute].
Defined.

(** The empty task of a shutdown, cleared before the worker gets it. *)
Definition losing : list event := [Shutdown; Caller 0; Caller 0; Clear; Worker 0].
Definition lost : pool := default (thread_pool_t 1) (run 32 false losing (thread_pool_t 1)).

Lemma lost_rest : at_rest 32 lost.
Proof. intros [|[|i]]; by vm_compute. Qed.

Lemma clear_blocks_shutdown_witness : work_threads_ lost = [Asleep] /\
  (nones (cleared lost) <= total asleep (threads lost))%nat /\
  exists i, callers lost !! i = Some At_join.
Proof.
  split; [by vm_compute|].
  apply (clear_blocks_shutdown 32 false 1 losing lost); [by vm_compute..|apply lost_rest|by vm_compute|by vm_compute].
Defined.

Lemma looped_runs_witness :
  Tasks.looped_run (Some (fun n : Z => Ret tt (n + 1))) [Tasks.Timed_out; Tasks.Failed; Tasks.Timed_out; Tasks.Signalled 0] 0
    = Ret tt 2.
Proof.
  refine (proj1 (Tasks.looped_runs (fun n : Z => Ret tt (n + 1)) [Tasks.Timed_out; Tasks.Failed; Tasks.Timed_out] [] 0 _)).
  by repeat constructor.
Defined.

End Demo.
