(* ===== verification/Thread.v ===== *)
(** * Threads

    include/multi_thread/thread.hpp: the handle of a thread ([thread_t]), the stop
    policies and [thread_implex_t], which starts, aborts and stops a thread. The
    thread runs a body of small steps that may look at the abort flag; what Windows
    answers to each call is a parameter. *)

From S2P Require Import Prelude.

(** The calls that may fail. *)
Inductive api := BeginThread | SetThreadPriority | ResumeThread | SuspendThread | CloseHandle | SetFlag | ClearFlag.

Section Thread.
Context {B : Type}.
(** One step of the body: the abort flag is given, an exit code ends it. *)
Context (step : bool -> B -> B + Z).
Context (works : api -> bool).

(** The thread as the system has it. *)
Record os_thread := OsThread {
  body : B + Z;             (* where it is, or the exit code *)
  suspends : nat;           (* its suspend count *)
  handle_open : bool
}.

(** [thread_implex_t]: the members of [thread_t], the flag of the stop policy and
    its own; [os_] is the thread behind the handle, [orphans] the threads it has no
    handle of any more, [terminated] the threads [TerminateThread] was called on and
    whether each had already ended. *)
Record thread := Thread {
  thread_ : bool;           (* the handle is not NULL *)
  suspended_ : bool;
  aborted_ : bool;
  auto_delete_ : bool;
  auto_cleanup_ : bool;
  handler_ : option B;
  os_ : option os_thread;
  orphans : list os_thread;
  terminated : list bool;
  deleted : bool
}.

Definition set_handle h s t := Thread h s (aborted_ t) (auto_delete_ t) (auto_cleanup_ t) (handler_ t) (os_ t) (orphans t) (terminated t) (deleted t).
Definition set_os o t := Thread (thread_ t) (suspended_ t) (aborted_ t) (auto_delete_ t) (auto_cleanup_ t) (handler_ t) o (orphans t) (terminated t) (deleted t).
Definition set_aborted a t := Thread (thread_ t) (suspended_ t) a (auto_delete_ t) (auto_cleanup_ t) (handler_ t) (os_ t) (orphans t) (terminated t) (deleted t).
Definition set_flags d c t := Thread (thread_ t) (suspended_ t) (aborted_ t) d c (handler_ t) (os_ t) (orphans t) (terminated t) (deleted t).
Definition set_handler h t := Thread (thread_ t) (suspended_ t) (aborted_ t) (auto_delete_ t) (auto_cleanup_ t) h (os_ t) (orphans t) (terminated t) (deleted t).
Definition orphan t := Thread (thread_ t) (suspended_ t) (aborted_ t) (auto_delete_ t) (auto_cleanup_ t) (handler_ t) None (orphans t ++ option_list (os_ t)) (terminated t) (deleted t).
Definition add_terminated b t := Thread (thread_ t) (suspended_ t) (aborted_ t) (auto_delete_ t) (auto_cleanup_ t) (handler_ t) (os_ t) (orphans t) (terminated t ++ [b]) (deleted t).

Definition delete t := Thread (thread_ t) (suspended_ t) (aborted_ t) (auto_delete_ t) (auto_cleanup_ t) (handler_ t) (os_ t) (orphans t) (terminated t) true.

(** ** The system's side *)

(** The thread runs for [n] steps, if it is not suspended. *)
Fixpoint run_body (n : nat) (flag : bool) (b : B + Z) : B + Z :=
  match n, b with
  | S n', inl x => run_body n' flag (step flag x)
  | _, _ => b
  end.
Definition run_os (n : nat) (flag : bool) (o : os_thread) : os_thread :=
  match suspends o with
  | O => OsThread (run_body n flag (body o)) 0 (handle_open o)
  | _ => o
  end.
Definition ended (o : os_thread) : bool := match body o with inr _ => true | inl _ => false end.

(** Some time passes. *)
Definition elapse (n : nat) : prog thread unit := fun t =>
  Ret tt (set_os (option_map (run_os n (aborted_ t)) (os_ t)) t).

(** ** thread_t *)

(** [assert(thread_)] and [assert(thread_ == NULL)]. *)
Definition asserted {A} (c : thread -> bool) (m : prog thread A) : prog thread A := fun t =>
  if c t then m t else UB.

(** [ResumeThread] and [SuspendThread] on the count. *)
Definition os_resume (o : os_thread) : os_thread := OsThread (body o) (Nat.pred (suspends o)) (handle_open o).
Definition os_suspend (o : os_thread) : os_thread := OsThread (body o) (S (suspends o)) (handle_open o).
Definition os_close (o : os_thread) : os_thread := OsThread (body o) (suspends o) false.

(** [create] of a thread that runs [b]; it starts suspended. *)
Definition create (b : B) : prog thread bool :=
  asserted (fun t => negb (thread_ t)) (fun t =>
    if works BeginThread then
      let t1 := set_handle true (suspended_ t) (set_os (Some (OsThread (inl b) 1 true)) t) in
      if works ResumeThread then Ret true (set_os (Some (OsThread (inl b) 0 true)) t1) else Ret false t1
    else Ret false t).

Definition release : prog thread bool := fun t =>
  if negb (thread_ t) then Ret true t
  else if works CloseHandle then
    Ret true (orphan (set_handle false (suspended_ t) (set_os (option_map os_close (os_ t)) t)))
  else Ret false t.

Definition suspend : prog thread bool :=
  asserted thread_ (fun t =>
    if suspended_ t then Ret true t
    else if works SuspendThread then
      Ret true (set_handle (thread_ t) true (set_os (option_map os_suspend (os_ t)) t))
    else Ret false t).

Definition resume : prog thread bool :=
  asserted thread_ (fun t =>
    if negb (suspended_ t) then Ret true t
    else if works ResumeThread then
      Ret true (set_handle (thread_ t) false (set_os (option_map os_resume (os_ t)) t))
    else Ret false t).

Definition is_running : prog thread bool := fun t =>
  Ret (if thread_ t then match os_ t with Some o => negb (ended o) | None => false end else false) t.

(** [wait_for_thread(dwTimeout)]: the thread runs at most the time given, [None]
    for INFINITE, when the fuel bounds the wait. *)
Definition wait_for_thread (fuel : nat) (timeout : option nat) : prog thread bool :=
  asserted thread_ (fun t =>
    match os_ t with
    | None => Ret false t
    | Some o =>
        let o' := run_os (default fuel timeout) (aborted_ t) o in
        if ended o' then Ret true (set_os (Some o') t)
        else match timeout with Some _ => Ret false (set_os (Some o') t) | None => OutOfFuel end
    end).

(** [terminate]: of a thread that has ended it does nothing. *)
Definition terminate (code : Z) : prog thread bool :=
  asserted thread_ (fun t =>
    match os_ t with
    | None => Ret false t
    | Some o =>
        Ret (negb (ended o))
            (add_terminated (ended o)
              (if ended o then t else set_os (Some (OsThread (inr code) (suspends o) (handle_open o))) t))
    end).

(** ** thread_implex_t *)

Definition thread_implex_t (h : option B) : thread :=
  Thread false false false false true h None [] [] false.

Definition register_callback (h : option B) : prog thread unit := fun t => Ret tt (set_handler h t).
Definition set_auto_clean (b : bool) : prog thread unit := fun t => Ret tt (set_flags (auto_delete_ t) b t).
Definition set_delete_on_exit (b : bool) : prog thread unit := fun t => Ret tt (set_flags b (negb b) t).

Definition _clear_abort : prog thread bool := fun t =>
  if works ClearFlag then Ret true (set_aborted false t) else Ret false t.
Definition _abort : prog thread bool := fun t =>
  if works SetFlag then Ret true (set_aborted true t) else Ret false t.

(** [_thread_impl], once its handler has given [code]: without a handler the thread
    ends at once; when the program is linked with the multi-threaded library,
    [_endthreadex] ends the thread and does not return, so that the object is not
    deleted. *)
Definition _thread_impl (mt : bool) (code : Z) : prog thread Z := fun t =>
  match handler_ t with
  | None => Ret (-1) t
  | Some _ => Ret code (if mt then t else if auto_delete_ t then delete t else t)
  end.
Context (idle : B).         (* the body without a handler, which ends at once *)

Definition start : prog thread bool :=
  let* cleared := _clear_abort in
  if negb cleared then ret false
  else fun t => create (default idle (handler_ t)) t.

Definition abort : prog thread bool := fun t =>
  if negb (thread_ t) then Ret false t
  else (let* a := _abort in
        if negb a then ret false
        else fun t => if suspended_ t then (resume ;;; ret true) t else Ret true t) t.

Definition stop (fuel : nat) (dwTime : option nat) : prog thread unit :=
  let* a := abort in
  if negb a then ret tt
  else
    let* waited := wait_for_thread fuel dwTime in
    (if waited then terminate (-1) ;;; ret tt else ret tt) ;;;
    release ;;; ret tt.

Definition join (fuel : nat) : prog thread unit := start ;;; stop fuel None.

Definition destroy (fuel : nat) : prog thread unit := fun t =>
  if auto_cleanup_ t then stop fuel None t else Ret tt t.

(** ** Invariant *)

(** The count of the system and the flag of the object agree, and the object has a
    handle exactly as long as it is open. *)
Record wf (t : thread) : Prop := {
  wf_handle : thread_ t = true <-> exists o, os_ t = Some o;
  wf_open : forall o, os_ t = Some o -> handle_open o = true /\ suspends o = (if suspended_ t then 1 else 0)%nat;
  wf_closed : Forall (fun o => handle_open o = false) (orphans t)
}.

(** What clients do between the start of a thread and its stop. *)
Inductive op := Suspend | Resume | Elapse (n : nat).
Definition exec (o : op) : prog thread unit :=
  match o with
  | Suspend => suspend ;;; ret tt
  | Resume => resume ;;; ret tt
  | Elapse n => elapse n
  end.
Fixpoint run_ops (l : list op) : prog thread unit :=
  match l with [] => ret tt | o :: l => exec o ;;; run_ops l end.

Lemma run_os_open n flag o : handle_open (run_os n flag o) = handle_open o /\ suspends (run_os n flag o) = suspends o.
Proof. unfold run_os. destruct (suspends o) eqn:E; cbn; by rewrite ?E. Qed.

Lemma wf_intro (s : bool) a d c h x orp te de : handle_open x = true -> suspends x = (if s then 1 else 0)%nat ->
  Forall (fun o : os_thread => handle_open o = false) orp -> wf (Thread true s a d c h (Some x) orp te de).
Proof.
  intros Ho Hs Hf. split; cbn; [by split; [eexists|]| |done]. by intros o [= <-].
Qed.

Lemma thread_exec_wf o t : wf t -> thread_ t = true -> exists t', exec o t = Ret tt t' /\ wf t' /\ thread_ t' = true /\
  orphans t' = orphans t /\ aborted_ t' = aborted_ t.
Proof.
  intros W Ht. destruct (proj1 (wf_handle t W) Ht) as (x & Hx).
  destruct (wf_open t W x Hx) as [Ho Hs]. pose proof (wf_closed t W) as Hf.
  destruct t as [h s a d c hd os orp te de]. cbn in *. subst h os.
  destruct o as [| |n]; unfold exec, bind, suspend, resume, asserted, elapse; cbn.
  - destruct s; [|destruct (works SuspendThread)]; cbn; eexists; (split; [done|]); (split; [|done]);
      apply wf_intro; cbn; by rewrite ?Hs.
  - destruct s; [destruct (works ResumeThread)|]; cbn; eexists; (split; [done|]); (split; [|done]);
      apply wf_intro; cbn; by rewrite ?Hs.
  - eexists. split; [done|]. split; [|done]. destruct (run_os_open n a x) as [E1 E2]. apply wf_intro; [by rewrite E1|by rewrite E2|done].
Qed.

Lemma thread_ops_wf l : forall t, wf t -> thread_ t = true -> exists t', run_ops l t = Ret tt t' /\ wf t' /\
  thread_ t' = true /\ orphans t' = orphans t /\ aborted_ t' = aborted_ t.
Proof.
  induction l as [|o l IH]; intros t W Ht; [by exists t|].
  destruct (thread_exec_wf o t W Ht) as (t1 & H1 & W1 & Ht1 & Ho1 & Ha1). cbn [run_ops].
  rewrite (bind_ret _ _ _ _ _ H1). destruct (IH t1 W1 Ht1) as (t2 & H2 & W2 & Ht2 & Ho2 & Ha2).
  exists t2. split_and!; try done; congruence.
Qed.

Lemma start_wf h t : start (thread_implex_t h) = Ret true t ->
  wf t /\ thread_ t = true /\ orphans t = [] /\ aborted_ t = false.
Proof.
  unfold start, bind, _clear_abort. destruct (works ClearFlag); [|done]. cbn. unfold create, asserted. cbn.
  destruct (works BeginThread); [|done]. destruct (works ResumeThread); [|done]. intros [= <-].
  split; [by apply wf_intro|done].
Qed.

(** ** Stopping *)

(** The thread behind the handle, once the object has let it run. *)
Definition abort_ready (t : thread) : thread :=
  set_handle true false (set_aborted true (set_os (option_map (fun o => OsThread (body o) 0 (handle_open o)) (os_ t)) t)).

Lemma abort_ok t : wf t -> thread_ t = true -> works SetFlag = true -> works ResumeThread = true ->
  abort t = Ret true (abort_ready t).
Proof.
  intros W Ht Hf Hr. destruct (proj1 (wf_handle t W) Ht) as (x & Hx).
  destruct (wf_open t W x Hx) as [Ho Hs]. destruct t as [h s a d c hd os orp te de]. cbn in *. subst h os.
  unfold abort, bind, _abort, resume, asserted, abort_ready. cbn. rewrite Hf. cbn. destruct x as [b k o]. cbn in *. subst k.
  destruct s; cbn; [by rewrite Hr|done].
Qed.

Lemma wait_ready fuel n t x : os_ t = Some x -> thread_ t = true ->
  let b := run_body (default fuel n) true (body x) in
  wait_for_thread fuel n (abort_ready t) =
    match b, n with
    | inr _, _ => Ret true (set_os (Some (OsThread b 0 (handle_open x))) (abort_ready t))
    | inl _, Some _ => Ret false (set_os (Some (OsThread b 0 (handle_open x))) (abort_ready t))
    | inl _, None => OutOfFuel
    end.
Proof.
  intros Hx Ht. unfold wait_for_thread, asserted, abort_ready. cbn. rewrite Hx. cbn.
  unfold run_os, ended. cbn. destruct (run_body _ _ _); [|done]. by destruct n.
Qed.

(** A cooperative body: it ends within [k] steps of its flag being set. *)
Definition ends_within (k : nat) (b : B + Z) : Prop := exists code, run_body k true b = inr code.

Lemma run_body_done n flag c : run_body n flag (inr c) = inr c.
Proof. by destruct n. Qed.

Lemma run_body_more k n b code : (k <= n)%nat -> run_body k true b = inr code -> run_body n true b = inr code.
Proof.
  revert n b. induction k as [|k IH]; intros n b Hk Hb; cbn in Hb.
  - rewrite Hb. apply run_body_done.
  - destruct n as [|n]; [lia|]. destruct b as [x|c]; cbn; [apply IH; [lia|done]|done].
Qed.

Definition behind (t : thread) : option (B + Z) := body <$> os_ t.

Lemma stop_core fuel n t x : wf t -> thread_ t = true -> os_ t = Some x ->
  works SetFlag = true -> works ResumeThread = true -> works CloseHandle = true ->
  let b := run_body (default fuel n) true (body x) in
  match b, n with
  | inl _, None => stop fuel n t = OutOfFuel
  | _, _ => exists t', stop fuel n t = Ret tt t' /\ thread_ t' = false /\ os_ t' = None /\
      orphans t' = orphans t ++ [OsThread b 0 false] /\
      terminated t' = terminated t ++ (match b with inr _ => [true] | inl _ => [] end)
  end.
Proof.
  intros W Ht Hx Hf Hr Hc b. unfold stop. rewrite (bind_ret _ _ _ _ _ (abort_ok t W Ht Hf Hr)). cbn [negb].
  pose proof (wait_ready fuel n t x Hx Ht) as Hw. cbn zeta in Hw. fold b in Hw.
  destruct b as [y|c]; [destruct n as [k|]|].
  - rewrite (bind_ret _ _ _ _ _ Hw). unfold bind, release, ret. cbn. rewrite Hc. cbn.
    eexists. split; [done|]. cbn. by rewrite app_nil_r.
  - unfold bind. by rewrite Hw.
  - assert (wait_for_thread fuel n (abort_ready t) = Ret true (set_os (Some (OsThread (inr c) 0 (handle_open x))) (abort_ready t)))
      as Hw' by (by rewrite Hw).
    destruct n; rewrite (bind_ret _ _ _ _ _ Hw'); unfold bind, terminate, asserted, release, ret; cbn; rewrite Hc; cbn;
      by eexists.
Qed.

(** ** The properties *)

(** However a thread has been suspended, resumed and let run, a [stop] ends with the
    thread ended and its handle closed, once the body heeds the flag. *)
Theorem stop_joins h t0 l fuel k : start (thread_implex_t h) = Ret true t0 ->
  works SetFlag = true -> works ResumeThread = true -> works CloseHandle = true -> (k <= fuel)%nat ->
  (forall t b, run_ops l t0 = Ret tt t -> behind t = Some b -> ends_within k b) ->
  exists t, (run_ops l ;;; stop fuel None) t0 = Ret tt t /\ thread_ t = false /\
    exists code, orphans t = [OsThread (inr code) 0 false].
Proof.
  intros Hs Hf Hr Hc Hk He. destruct (start_wf h t0 Hs) as (W0 & Ht0 & Ho0 & _).
  destruct (thread_ops_wf l t0 W0 Ht0) as (t1 & H1 & W1 & Ht1 & Ho1 & _).
  destruct (proj1 (wf_handle t1 W1) Ht1) as (x & Hx).
  destruct (He t1 (body x) H1) as (code & Hb); [unfold behind; by rewrite Hx|].
  rewrite (bind_ret _ _ _ _ _ H1). pose proof (stop_core fuel None t1 x W1 Ht1 Hx Hf Hr Hc) as Hst.
  cbn zeta in Hst. change (default fuel None) with fuel in Hst. rewrite (run_body_more k fuel (body x) code Hk Hb) in Hst.
  destruct Hst as (t & Hst & Ht & _ & Horp & _). exists t. split_and!; try done. exists code.
  by rewrite Horp, Ho1, Ho0.
Qed.

(** A [stop] whose time runs out closes the handle of a thread that goes on running,
    and does not terminate it; [TerminateThread] is called exactly when the wait
    found the thread ended. *)
Theorem stop_terminates_the_wrong_ones t x fuel n : wf t -> os_ t = Some x ->
  works SetFlag = true -> works ResumeThread = true -> works CloseHandle = true ->
  exists t', stop fuel (Some n) t = Ret tt t' /\ thread_ t' = false /\
    orphans t' = orphans t ++ [OsThread (run_body n true (body x)) 0 false] /\
    terminated t' = terminated t ++ (match run_body n true (body x) with inr _ => [true] | inl _ => [] end).
Proof.
  intros W Hx Hf Hr Hc. assert (thread_ t = true) as Ht by (apply (wf_handle t W); by eexists).
  pose proof (stop_core fuel (Some n) t x W Ht Hx Hf Hr Hc) as Hst. cbn zeta in Hst. change (default fuel (Some n)) with n in Hst.
  destruct (run_body n true (body x)); destruct Hst as (t' & ? & ? & _ & ? & ?); by exists t'.
Qed.

(** The flag and the count of a started thread stay in step, and its handle stays
    open, whatever clients do with it. *)
Theorem suspension_counted h t0 l : start (thread_implex_t h) = Ret true t0 ->
  exists t x, run_ops l t0 = Ret tt t /\ os_ t = Some x /\ handle_open x = true /\
    suspends x = (if suspended_ t then 1 else 0)%nat.
Proof.
  intros Hs. destruct (start_wf h t0 Hs) as (W0 & Ht0 & _).
  destruct (thread_ops_wf l t0 W0 Ht0) as (t1 & H1 & W1 & Ht1 & _).
  destruct (proj1 (wf_handle t1 W1) Ht1) as (x & Hx). exists t1, x.
  destruct (wf_open t1 W1 x Hx). by split_and!.
Qed.

(** A thread that cannot be resumed when it is created stays suspended for ever: the
    start answers false, and a [stop] then waits without end. *)
Theorem failed_start_hangs h : works ClearFlag = true -> works BeginThread = true -> works ResumeThread = false ->
  works SetFlag = true ->
  exists t, start (thread_implex_t h) = Ret false t /\ thread_ t = true /\
    forall fuel, stop fuel None t = OutOfFuel.
Proof.
  intros Hc Hb Hr Hf. unfold start, bind at 1, _clear_abort. rewrite Hc. cbn. unfold create, asserted. cbn.
  rewrite Hb, Hr. eexists. split; [done|]. split; [done|]. intros fuel.
  unfold stop, bind at 1, abort. cbn. unfold bind at 1, _abort. rewrite Hf. cbn.
  unfold bind, wait_for_thread, asserted. cbn. done.
Qed.

End Thread.

(** ** Call stacks

    include/multi_thread/tls.hpp: [call_stack_t], per thread the contexts that are
    alive on its stack, linked through [next_] from [top_]. *)

Module CallStack.

(** The contexts by address, and the top of each thread; [live] are a thread's
    contexts, the latest first. *)
Record stacks := Stacks { context : Z -> Z * Z; top_ : Z -> Z; live : Z -> list (Z * Z) }.

Definition update {A} (f : Z -> A) (k : Z) (v : A) : Z -> A := fun x => if x =? k then v else f x.

(** [context(owner)] at the address [a] in the thread [t], and its destructor. *)
Definition enter (t a owner : Z) (s : stacks) : stacks :=
  Stacks (update (context s) a (owner, top_ s t)) (update (top_ s) t a) (update (live s) t ((a, owner) :: live s t)).
Definition leave (t a : Z) (s : stacks) : stacks :=
  Stacks (context s) (update (top_ s) t (context s a).2) (update (live s) t (tail (live s t))).

Fixpoint contains_from (fuel : nat) (s : stacks) (val owner : Z) : option bool :=
  match fuel with
  | O => None
  | S fuel =>
      if val =? 0 then Some false
      else if (context s val).1 =? owner then Some true
      else contains_from fuel s (context s val).2 owner
  end.
Definition contains (fuel : nat) (t owner : Z) (s : stacks) : option bool := contains_from fuel s (top_ s t) owner.

(** Scopes: a context is made at an address no live context has, and the latest one
    of a thread is the first to end. *)
Inductive scoped : stacks -> Prop :=
| scoped_init c : scoped (Stacks c (fun _ => 0) (fun _ => []))
| scoped_enter t a owner s : scoped s -> a <> 0 -> (forall u, a ∉ (live s u).*1) -> scoped (enter t a owner s)
| scoped_leave t a owner l s : scoped s -> live s t = (a, owner) :: l -> scoped (leave t a s).

Fixpoint linked (c : Z -> Z * Z) (h : Z) (l : list (Z * Z)) : Prop :=
  match l with
  | [] => h = 0
  | (a, owner) :: l => h = a /\ a <> 0 /\ (c a).1 = owner /\ linked c (c a).2 l
  end.

Lemma linked_ext c c' h l : (forall a, a ∈ l.*1 -> c' a = c a) -> linked c h l -> linked c' h l.
Proof.
  revert h. induction l as [|[a o] l IH]; intros h He; [done|]. cbn. intros (-> & Ha & Ho & Hl).
  rewrite He by (cbn; set_solver). split_and!; try done. apply IH; [|done]. intros b Hb. apply He. cbn. set_solver.
Qed.

Lemma update_eq {A} (f : Z -> A) k v : update f k v k = v.
Proof. unfold update. by rewrite Z.eqb_refl. Qed.
Lemma update_ne {A} (f : Z -> A) k v x : x <> k -> update f k v x = f x.
Proof. intros H. unfold update. by rewrite (proj2 (Z.eqb_neq x k)). Qed.

Lemma scoped_linked s : scoped s -> forall t, linked (context s) (top_ s t) (live s t).
Proof.
  induction 1 as [c|t a owner s _ IH Ha Hf|t a owner l s _ IH Hl]; intros u; [done|..].
  - assert (linked (context (enter t a owner s)) (top_ s u) (live s u)) as Hu.
    { apply (linked_ext (context s)); [|apply IH]. intros b Hb. apply update_ne. intros ->. by apply (Hf u). }
    destruct (Z.eq_dec u t) as [-> |Hn]; cbn in *.
    + rewrite !update_eq. cbn. rewrite update_eq. by split_and!.
    + by rewrite !update_ne.
  - pose proof (IH t) as Ht. rewrite Hl in Ht. destruct Ht as (_ & _ & _ & Ht).
    destruct (Z.eq_dec u t) as [-> |Hn]; cbn; [rewrite !update_eq; by rewrite Hl|by rewrite !update_ne].
Qed.

Lemma contains_linked s owner l : forall fuel val, (length l < fuel)%nat -> linked (context s) val l ->
  contains_from fuel s val owner = Some (bool_decide (owner ∈ l.*2)).
Proof.
  induction l as [|[a o] l IH]; intros fuel val Hf Hl; (destruct fuel as [|fuel]; [cbn in Hf; lia|]); cbn in Hl |- *.
  - by rewrite Hl.
  - destruct Hl as (-> & Ha & Ho & Hl). rewrite (proj2 (Z.eqb_neq a 0)), Ho by done.
    destruct (Z.eqb_spec o owner) as [-> |Hn].
    + rewrite bool_decide_true; [done|]. apply elem_of_cons. by left.
    + rewrite IH by (done || (cbn in Hf; lia)). f_equal. apply bool_decide_ext. cbn. set_solver.
Qed.

(** However the scopes of the threads interleave, [contains] answers whether the
    owner has a context on the stack of the thread that asks. *)
Theorem contains_spec s t owner fuel : scoped s -> (length (live s t) < fuel)%nat ->
  contains fuel t owner s = Some (bool_decide (owner ∈ (live s t).*2)).
Proof. intros Hs Hf. apply contains_linked; [done|by apply scoped_linked]. Qed.

End CallStack.

(** ** Concrete threads and stacks *)

Module Demo.

(** A body that counts until its flag is set, and one that never looks. *)
Definition polite (flag : bool) (n : nat) : nat + Z := if flag then inr 0 else inl (S n).
Definition stubborn (flag : bool) (n : nat) : nat + Z := inl (S n).
Definition fine (a : api) : bool := true.
Definition stuck (a : api) : bool := match a with ResumeThread => false | _ => true end.

Definition started : thread := default (thread_implex_t None)
  (match start fine 0%nat (thread_implex_t (Some 0%nat)) with Ret _ t => Some t | _ => None end).

Lemma started_ok : start fine 0%nat (thread_implex_t (Some 0%nat)) = Ret true started.
Proof. done. Qed.

Lemma stop_joins_witness : exists t,
  (run_ops polite fine [Elapse 3; Suspend; Elapse 2] ;;; stop polite fine 1 None) started = Ret tt t /\
  thread_ t = false /\ exists code, orphans t = [OsThread (inr code) 0 false].
Proof.
  apply (stop_joins polite fine 0%nat (Some 0%nat) started [Elapse 3; Suspend; Elapse 2] 1 1); try done.
  intros t b Ht Hb. vm_compute in Ht. injection Ht as <-. injection Hb as <-. by exists 0.
Defined.

Lemma stop_terminates_the_wrong_ones_witness : exists t, stop stubborn fine 5 (Some 7%nat) started = Ret tt t /\
  thread_ t = false /\ orphans t = [OsThread (inl 7%nat) 0 false] /\ terminated t = [].
Proof.
  apply (stop_terminates_the_wrong_ones stubborn fine started (OsThread (inl 0%nat) 0 true) 5 7); try done.
  apply (start_wf fine 0%nat (Some 0%nat) started started_ok).
Defined.

Lemma suspension_counted_witness : exists t x, run_ops polite fine [Suspend; Suspend; Resume; Suspend] started = Ret tt t /\
  os_ t = Some x /\ handle_open x = true /\ suspends x = (if suspended_ t then 1 else 0)%nat.
Proof. apply (suspension_counted polite fine 0%nat (Some 0%nat) started), started_ok. Defined.

Lemma failed_start_hangs_witness : exists t, start stuck 0%nat (thread_implex_t (Some 0%nat)) = Ret false t /\
  thread_ t = true /\ forall fuel, stop polite stuck fuel None t = OutOfFuel.
Proof. by apply (failed_start_hangs polite stuck 0%nat (Some 0%nat)). Defined.

(** Two threads, the second inside the same owner twice. *)
Definition nested : CallStack.stacks :=
  CallStack.enter 2 24 8 (CallStack.enter 2 16 7 (CallStack.enter 1 8 9 (CallStack.Stacks (fun _ => (0, 0)) (fun _ => 0) (fun _ => [])))).

Lemma nested_scoped : CallStack.scoped nested.
Proof.
  repeat (apply CallStack.scoped_enter; [|done|]); [apply CallStack.scoped_init|..];
    intros u; cbn; unfold CallStack.update; repeat case_match; cbn; apply (bool_decide_unpack _); by vm_compute.
Qed.

Lemma contains_spec_witness : CallStack.contains 5 2 7 nested = Some true /\
  CallStack.contains 5 2 9 nested = Some (bool_decide (9 ∈ (CallStack.live nested 2).*2)).
Proof.
  split; [by vm_compute|]. apply CallStack.contains_spec; [apply nested_scoped|]. apply Nat.ltb_lt. by vm_compute.
Defined.

End Demo.
