(* ===== verification/BlockEcho.v ===== *)
(** * The echo server that blocks

    Example/Network/BlockEcho: [sync_socket] of BlockEcho/BlockEcho.cpp, which accepts in
    one thread and starts a thread for each connection that reads and writes with calls
    that wait. The threads are those of Thread.v. The buffer is of an older interface of
    the library; of it only what its size is, and what resizing does to it, is used. *)

From S2P Require Import Prelude Thread.

Class AutoBuffer (B : Type) : Type := {
  make_buffer : nat -> B;
  size : B -> nat;
  resize : nat -> B -> B
}.
Class AutoBufferLaws (B : Type) `{AutoBuffer B} : Type := {
  make_size n : size (make_buffer n) = n;
  resize_size n b : size (resize n b) = n
}.

Section BlockEcho.
Context {B : Type} `{AutoBuffer B}.
(** What Windows answers to the calls of a thread. *)
Context (works : api -> bool).

Definition MaxLenth : nat := 1024.

(** A thread that waits does not move. *)
Definition waits : bool -> unit -> unit + Z := fun _ _ => inl tt.

(** Where the thread of a connection is: at the test of its loop, in [read], in [write],
    and after the loop in [thr->stop()]. *)
Inductive stage := Looping | Reading | Writing | Stopping.

(** [_handle] with its buffer and its [thr]; [arriving]: what the peer sends; [received],
    [sent]: the bytes that were read and written. *)
Record handler := Handler {
  thr : @thread unit;
  buffer : B;
  data : list Z;
  at_ : stage;
  arriving : list Z;
  received : list Z;
  sent : list Z
}.

(** [accepting]: the first thread is in [accept]; [handlers]: the threads of the
    connections that were started and have not ended. *)
Record sync_socket := Server {
  is_shutdown_ : bool;
  open_ : bool;
  accepting : bool;
  handlers : list handler
}.

Definition set_stage st h := Handler (thr h) (buffer h) (data h) st (arriving h) (received h) (sent h).
Definition put (i : nat) (h : handler) (s : sync_socket) : sync_socket :=
  Server (is_shutdown_ s) (open_ s) (accepting s) (<[i := h]> (handlers s)).

Definition stop (s : sync_socket) : sync_socket := Server true false (accepting s) (handlers s).

(** [start] up to its first [accept]. *)
Definition start (s : sync_socket) : sync_socket := Server (is_shutdown_ s) (open_ s) (negb (is_shutdown_ s)) (handlers s).

Definition new_server : sync_socket := Server false true false [].

(** A connection: its thread is started, what [start] of the thread answers is not looked
    at, and the loop of the server goes on if it was not stopped. *)
Definition accepted (bytes : list Z) (s : sync_socket) : sync_socket :=
  match Thread.start works tt (thread_implex_t (Some tt)) with
  | Ret true t =>
      start (Server (is_shutdown_ s) (open_ s) true
        (handlers s ++ [Handler t (make_buffer MaxLenth) (replicate MaxLenth 0) Looping bytes [] []]))
  | _ => start s
  end.

Definition accept_failed (s : sync_socket) : sync_socket :=
  let s := stop s in Server (is_shutdown_ s) (open_ s) false (handlers s).

(** [_handle]: the test of the loop. *)
Definition loop_test (i : nat) (h : handler) (s : sync_socket) : sync_socket :=
  put i (set_stage (if is_shutdown_ s then Stopping else Reading) h) s.

(** [read] gave [n] bytes, none at the end of the stream. *)
Definition read_done (i n : nat) (h : handler) (s : sync_socket) : sync_socket :=
  let bytes := take n (arriving h) in
  put i (Handler (thr h) (resize n (buffer h)) (bytes ++ drop n (data h))
           (if (n =? 0)%nat then Stopping else Writing) (drop n (arriving h)) (received h ++ bytes) (sent h)) s.

(** [write] gave the peer [n] bytes; the number is not looked at. *)
Definition write_done (i n : nat) (h : handler) (s : sync_socket) : sync_socket :=
  put i (Handler (thr h) (buffer h) (data h) Looping (arriving h) (received h)
           (sent h ++ take n (take (size (buffer h)) (data h)))) s.

(** [catch]. *)
Definition failed (i : nat) (h : handler) (s : sync_socket) : sync_socket :=
  stop (put i (set_stage Stopping h) s).

(** [thr->stop()], of the thread that calls it; when it returns, the thread ends, and with
    it its socket. *)
Definition stop_self (fuel : nat) : prog (@thread unit) unit := Thread.stop waits works fuel None.
Definition leave (fuel i : nat) (h : handler) (s : sync_socket) : sync_socket :=
  match stop_self fuel (thr h) with
  | Ret _ _ => Server (is_shutdown_ s) (open_ s) (accepting s) (base.delete i (handlers s))
  | _ => s
  end.

Inductive event :=
| Accepted (bytes : list Z)
| AcceptFails
| Tests (i : nat)
| ReadDone (i n : nat)
| WriteDone (i n : nat)
| Fails (i : nat)
| Leaves (fuel i : nat)
| Stop.

Definition exec (e : event) (s : sync_socket) : sync_socket :=
  let on i f := match handlers s !! i with Some h => f h | None => s end in
  match e with
  | Accepted bytes => if accepting s && open_ s then accepted bytes s else s
  | AcceptFails => if accepting s then accept_failed s else s
  | Tests i => on i (fun h => match at_ h with Looping => loop_test i h s | _ => s end)
  | ReadDone i n => on i (fun h => match at_ h with
      | Reading => if (n <=? size (buffer h))%nat && (n <=? length (arriving h))%nat then read_done i n h s else s
      | _ => s end)
  | WriteDone i n => on i (fun h => match at_ h with Writing => write_done i n h s | _ => s end)
  | Fails i => on i (fun h => match at_ h with Reading | Writing => failed i h s | _ => s end)
  | Leaves fuel i => on i (fun h => match at_ h with Stopping => leave fuel i h s | _ => s end)
  | Stop => stop s
  end.
Definition run (l : list event) (s : sync_socket) : sync_socket := foldl (fun s e => exec e s) s l.

(** ** What a step does to the threads *)

(** The thread of a handler was started. *)
Definition started (h : handler) : Prop := Thread.start works tt (thread_implex_t (Some tt)) = Ret true (thr h).

(** A step moves one handler at most. *)
Inductive moves (e : event) (shut : bool) (h : handler) : handler -> Prop :=
| Stays : moves e shut h h
| Tested : at_ h = Looping -> moves e shut h (set_stage (if shut then Stopping else Reading) h)
| HasRead n : at_ h = Reading -> (n <= size (buffer h))%nat -> (n <= length (arriving h))%nat ->
    moves e shut h (Handler (thr h) (resize n (buffer h)) (take n (arriving h) ++ drop n (data h))
      (if (n =? 0)%nat then Stopping else Writing) (drop n (arriving h)) (received h ++ take n (arriving h)) (sent h))
| Written i n : e = WriteDone i n -> at_ h = Writing ->
    moves e shut h (Handler (thr h) (buffer h) (data h) Looping (arriving h) (received h)
      (sent h ++ take n (take (size (buffer h)) (data h))))
| Failed : at_ h = Reading \/ at_ h = Writing -> moves e shut h (set_stage Stopping h).

Lemma moves_started e shut h h' : moves e shut h h' -> started h -> started h'.
Proof. by destruct 1. Qed.

(** A thread that waits for itself waits for ever. *)
Lemma waits_body n flag : run_body waits n flag (inl tt) = inl tt.
Proof. induction n as [|n IH]; [done|exact IH]. Qed.

Lemma stop_self_waits fuel h : works SetFlag = true -> started h -> stop_self fuel (thr h) = OutOfFuel.
Proof.
  unfold started, Thread.start, bind, _clear_abort. destruct (works ClearFlag); [|done]. cbn.
  unfold create, asserted. cbn. destruct (works BeginThread); [|done]. destruct (works ResumeThread); [|done].
  intros Hf [= Ht]. rewrite <- Ht. unfold stop_self, Thread.stop, abort, _abort, bind, wait_for_thread, asserted, run_os, ended. cbn.
  rewrite Hf. cbn. by rewrite waits_body.
Qed.

Definition new_handler (bytes : list Z) (h : handler) : Prop := exists t,
  h = Handler t (make_buffer MaxLenth) (replicate MaxLenth 0) Looping bytes [] [].

Lemma stays_all e shut (l : list handler) : Forall2 (moves e shut) l l.
Proof. induction l; constructor; [constructor|done]. Qed.

Lemma put_moves e shut l i h h' : l !! i = Some h -> moves e shut h h' -> Forall2 (moves e shut) l (<[i := h']> l).
Proof.
  intros Hi Hm. revert i Hi. induction l as [|x l IH]; intros [|i] Hi; try done; cbn in *; constructor.
  - by injection Hi as ->.
  - apply stays_all.
  - constructor.
  - by apply IH.
Qed.

(** What a step does: it moves a handler, or it adds one, when the server accepts. *)
Lemma exec_moves e s : works SetFlag = true -> Forall started (handlers s) -> exists hs new,
  handlers (exec e s) = hs ++ new /\ Forall2 (moves e (is_shutdown_ s)) (handlers s) hs /\
  (new = [] \/ exists bytes h, e = Accepted bytes /\ open_ s = true /\ new = [h] /\ new_handler bytes h /\ started h).
Proof.
  intros Hf Hs. set (shut := is_shutdown_ s).
  assert (Hsame : forall l, l = handlers s -> exists hs new, l = hs ++ new /\ Forall2 (moves e shut) (handlers s) hs /\
    (new = [] \/ exists bytes h, e = Accepted bytes /\ open_ s = true /\ new = [h] /\ new_handler bytes h /\ started h)).
  { intros l ->. exists (handlers s), []. rewrite app_nil_r. split; [done|]. split; [apply stays_all|by left]. }
  assert (Hput : forall i h h', handlers s !! i = Some h -> moves e shut h h' -> exists hs new,
    handlers (put i h' s) = hs ++ new /\ Forall2 (moves e shut) (handlers s) hs /\
    (new = [] \/ exists bytes h, e = Accepted bytes /\ open_ s = true /\ new = [h] /\ new_handler bytes h /\ started h)).
  { intros i h h' Hi Hm. exists (<[i := h']> (handlers s)), []. rewrite app_nil_r. split; [done|]. split; [by eapply put_moves|by left]. }
  destruct e as [bytes| |i|i n|i n|i|fuel i|]; cbn [exec]; try (destruct (handlers s !! i) as [h|] eqn:Ei; [|by apply Hsame]).
  - destruct (accepting s); cbn [andb]; [|by apply Hsame]. destruct (open_ s) eqn:Eo; [|by apply Hsame]. unfold accepted.
    destruct (Thread.start works tt _) as [[] t|? ?| |] eqn:Et; try by apply Hsame.
    eexists (handlers s), [_]. split; [reflexivity|]. split; [apply stays_all|]. right. eexists bytes, _. split; [done|].
    split; [done|]. split; [reflexivity|]. split; [by eexists|exact Et].
  - by destruct (accepting s); apply Hsame.
  - destruct (at_ h) eqn:E; try by apply Hsame. apply (Hput i h); [done|]. by constructor.
  - destruct (at_ h) eqn:E; try by apply Hsame. destruct (_ && _) eqn:En; [|by apply Hsame].
    apply andb_true_iff in En as [H1 H2]. apply Nat.leb_le in H1, H2. apply (Hput i h); [done|]. by constructor.
  - destruct (at_ h) eqn:E; try by apply Hsame. apply (Hput i h); [done|]. by eapply Written.
  - destruct (at_ h) eqn:E; try (by apply Hsame); apply (Hput i h); try done; constructor; auto.
  - destruct (at_ h) eqn:E; try by apply Hsame. unfold leave. rewrite stop_self_waits; [by apply Hsame|done|].
    by eapply (proj1 (Forall_lookup _ _) Hs).
  - by apply Hsame.
Qed.

(** [stop] was called. *)
Definition stopped (s : sync_socket) : Prop := is_shutdown_ s = true /\ open_ s = false.

Lemma exec_stopped e s : stopped s -> stopped (exec e s).
Proof.
  intros [H1 H2]. destruct e; cbn [exec]; unfold accepted, accept_failed, loop_test, read_done, write_done, failed, leave, start, stop, put;
    repeat case_match; by rewrite ?H1, ?H2 in *.
Qed.

Lemma exec_keeps_started e s : works SetFlag = true -> Forall started (handlers s) -> Forall started (handlers (exec e s)).
Proof.
  intros Hf Hs. destruct (exec_moves e s Hf Hs) as (hs & new & -> & Hm & Hn). apply Forall_app. split.
  - clear Hn. revert Hs. induction Hm as [|x y l k Hxy _ IH]; [done|]. intros [Hx Hl]%Forall_cons. constructor; [by eapply moves_started|by apply IH].
  - destruct Hn as [-> |(? & h & _ & _ & -> & _ & Ht)]; by repeat constructor.
Qed.

Lemma run_started l s : works SetFlag = true -> Forall started (handlers s) -> Forall started (handlers (run l s)).
Proof.
  intros Hf. revert s. unfold run. induction l as [|e l IH]; intros s Hs; [done|]. by apply IH, exec_keeps_started.
Qed.

(** What the moves of a handler keep is kept by a run; no handler goes away. *)
Lemma run_handler (P : handler -> Prop) l s i h : works SetFlag = true -> Forall started (handlers s) ->
  (forall e shut x y, (stopped s -> shut = true) -> moves e shut x y -> P x -> P y) ->
  handlers s !! i = Some h -> P h -> exists h', handlers (run l s) !! i = Some h' /\ P h'.
Proof.
  intros Hf Hs HP Hi Hh.
  assert (H1 : forall s1 h1, (stopped s -> stopped s1) -> Forall started (handlers s1) -> handlers s1 !! i = Some h1 -> P h1 ->
    exists h', handlers (run l s1) !! i = Some h' /\ P h'); [|by apply (H1 s h)].
  clear Hs Hi Hh h. unfold run. induction l as [|e l IH]; intros s1 h1 Hst Hs Hi Hh; [by exists h1|]. cbn [foldl].
  destruct (exec_moves e s1 Hf Hs) as (hs & new & Heq & Hm & _).
  destruct (Forall2_lookup_l _ _ _ _ _ Hm Hi) as (h2 & Hi2 & Hmv).
  apply (IH (exec e s1) h2); [intros; by apply exec_stopped, Hst|by apply exec_keeps_started| |].
  - rewrite Heq. by apply lookup_app_l_Some.
  - apply (HP e (is_shutdown_ s1) h1 h2); [|done|done]. intros Hss. by apply Hst in Hss as [? _].
Qed.

(** ** What the peers get *)

Context `{!AutoBufferLaws B}.

(** A handler whose peer sent [bytes]. *)
Record serves (bytes : list Z) (h : handler) : Prop := {
  serves_data : length (data h) = MaxLenth /\ (size (buffer h) <= MaxLenth)%nat;
  serves_stream : received h ++ arriving h = bytes;
  serves_sent : match at_ h with
                | Looping | Reading => sent h = received h
                | Writing => sent h ++ take (size (buffer h)) (data h) = received h
                | Stopping => sent h `prefix_of` received h
                end
}.

(** [write] waits until everything is sent. *)
Definition whole (e : event) : Prop := match e with WriteDone _ n => (MaxLenth <= n)%nat | _ => True end.

Lemma moves_serves e shut bytes h h' : whole e -> moves e shut h h' -> serves bytes h -> serves bytes h'.
Proof.
  intros He Hm [[Hd Hb] Hst Hse]. destruct Hm as [|Ha|n Ha Hn1 Hn2|i n -> Ha|Ha]; (split; [|try exact Hst|]); cbn.
  - done.
  - done.
  - done.
  - rewrite Ha in Hse. by destruct shut; rewrite ?Hse.
  - rewrite resize_size, length_app, length_take, length_drop. lia.
  - rewrite <- app_assoc, take_drop. exact Hst.
  - rewrite Ha in Hse. rewrite resize_size. destruct n as [|n]; cbn [Nat.eqb]; rewrite Hse; [by rewrite take_0, app_nil_r|].
    rewrite take_app_length'; [done|]. rewrite length_take. lia.
  - done.
  - rewrite Ha in Hse. cbn in He. rewrite take_ge; [done|]. rewrite length_take. lia.
  - done.
  - destruct Ha as [Ha|Ha]; rewrite Ha in Hse; [by rewrite Hse|by eexists].
Qed.

(** Whatever connections are made and however their threads take turns, each peer gets the
    beginning of what it sent itself. *)
Theorem peers_get_theirs l h : works SetFlag = true -> Forall whole l -> h ∈ handlers (run l (start new_server)) ->
  exists bytes, Accepted bytes ∈ l /\ received h ++ arriving h = bytes /\ sent h `prefix_of` received h.
Proof.
  intros Hf Hl Hh.
  assert (H1 : forall l old s, Forall whole l -> Forall started (handlers s) ->
    Forall (fun h => exists bytes, Accepted bytes ∈ old /\ serves bytes h) (handlers s) ->
    Forall (fun h => exists bytes, Accepted bytes ∈ old ++ l /\ serves bytes h) (handlers (run l s))).
  { clear l h Hl Hh. unfold run. induction l as [|e l IH]; intros old s Hl Hs Ho; [by rewrite app_nil_r|].
    apply Forall_cons in Hl as [He Hl]. cbn [foldl]. replace (old ++ e :: l) with ((old ++ [e]) ++ l) by by rewrite <- app_assoc.
    apply IH; [done|by apply exec_keeps_started|].
    destruct (exec_moves e s Hf Hs) as (hs & new & -> & Hm & Hn). apply Forall_app. split.
    - clear Hn Hs. revert Ho. induction Hm as [|x y k k' Hxy _ IHm]; [done|]. intros [(bytes & Hin & Hx) Hk]%Forall_cons.
      constructor; [|by apply IHm]. exists bytes. split; [apply elem_of_app; by left|]. by eapply moves_serves.
    - destruct Hn as [-> |(bytes & h & -> & _ & -> & [t ->] & _)]; [done|]. repeat constructor. exists bytes.
      split; [apply elem_of_app; right; by constructor|]. split; cbn; rewrite ?length_replicate, ?make_size; done. }
  pose proof (H1 l [] (start new_server) Hl (Forall_nil_2 _) (Forall_nil_2 _)) as Hall.
  destruct (proj1 (Forall_forall _ _) Hall h Hh) as (bytes & Hin & [_ Hst Hse]). exists bytes. split; [done|]. split; [done|].
  destruct (at_ h); [by rewrite Hse..|by rewrite <- Hse; eexists|done].
Qed.

(** The buffer is as large as the last read was, and the next read asks for no more: what
    is read at a time never grows again. *)
Theorem reads_shrink l1 l2 i h : works SetFlag = true -> let s := run l1 (start new_server) in handlers s !! i = Some h ->
  exists h', handlers (run l2 s) !! i = Some h' /\ (size (buffer h') <= size (buffer h))%nat.
Proof.
  intros Hf s Hi. apply (run_handler (fun x => (size (buffer x) <= size (buffer h))%nat) l2 s i h); [done|by apply run_started|..]; [|done|done].
  intros e shut x y _ Hm Hx. destruct Hm; cbn; rewrite ?resize_size; lia.
Qed.

(** ** The end of a connection *)

(** A thread that has left its loop waits for itself: it never ends, and keeps its
    socket. *)
Theorem threads_never_end l1 l2 i h : works SetFlag = true -> let s := run l1 (start new_server) in handlers s !! i = Some h ->
  at_ h = Stopping -> handlers (run l2 s) !! i = Some h.
Proof.
  intros Hf s Hi Ha. destruct (run_handler (fun x => x = h) l2 s i h) as (h' & Hi' & ->); [done|by apply run_started|..]; try done.
  intros e shut x y _ Hm ->. destruct Hm as [|E|n E|j n _ E|[E|E]]; done || congruence.
Qed.

Lemma stopped_length l s : works SetFlag = true -> Forall started (handlers s) -> stopped s ->
  length (handlers (run l s)) = length (handlers s).
Proof.
  intros Hf. revert s. unfold run. induction l as [|e l IH]; intros s Hs Hst; [done|]. cbn [foldl].
  rewrite IH; [|by apply exec_keeps_started|by apply exec_stopped].
  destruct (exec_moves e s Hf Hs) as (hs & new & -> & Hm & [-> |(? & ? & _ & Ho & _)]); [|destruct Hst; congruence].
  by rewrite app_nil_r, <- (Forall2_length _ _ _ Hm).
Qed.

(** One connection that fails stops the server: no other is accepted, and the others read
    once more at most. *)
Theorem failure_stops_all l1 l2 i x j h : works SetFlag = true -> let s := run l1 (start new_server) in
  handlers s !! i = Some x -> at_ x = Reading \/ at_ x = Writing -> handlers s !! j = Some h ->
  let s' := run l2 (exec (Fails i) s) in length (handlers s') = length (handlers s) /\
  exists h', handlers s' !! j = Some h' /\ (length (received h') <= length (received h) + size (buffer h))%nat.
Proof.
  intros Hf s Hi Hx Hj. assert (Hs : Forall started (handlers s)) by by apply run_started. clearbody s.
  assert (He : exec (Fails i) s = failed i x s) by (cbn [exec]; rewrite Hi; by destruct Hx as [-> | ->]).
  set (quota := fun y => match at_ y with Reading => size (buffer y) | _ => 0%nat end).
  destruct (exec_moves (Fails i) s Hf Hs) as (hs & new & Heq & Hm & [-> |(? & ? & ? & _)]); [|done].
  rewrite app_nil_r in Heq. destruct (Forall2_lookup_l _ _ _ _ _ Hm Hj) as (h1 & Hj1 & Hmv).
  assert (Hst : stopped (exec (Fails i) s)) by by rewrite He.
  split; [rewrite stopped_length; [|done|by apply exec_keeps_started|done]; by rewrite Heq, <- (Forall2_length _ _ _ Hm)|].
  destruct (run_handler (fun y => length (received y) + quota y <= length (received h) + size (buffer h))%nat
    l2 (exec (Fails i) s) j h1) as (h' & Hj' & Hq); [done|by apply exec_keeps_started| |by rewrite Heq| |by exists h'; split; [done|lia]].
  - intros e shut y z Hsh Hyz Hy. specialize (Hsh Hst) as ->. unfold quota in *.
    destruct Hyz as [|E|n E Hn1 Hn2|k n _ E|[E|E]]; cbn; rewrite ?E in Hy; try lia.
    rewrite length_app, length_take. destruct (n =? 0)%nat; lia.
  - rewrite He in Heq. cbn in Heq. rewrite <- Heq in Hj1. unfold quota. destruct (decide (i = j)) as [-> |Hne].
    + rewrite list_lookup_insert_eq in Hj1 by (by apply lookup_lt_Some in Hj). injection Hj1 as <-. rewrite Hi in Hj. injection Hj as ->. cbn. lia.
    + rewrite list_lookup_insert_ne, Hj in Hj1 by done. injection Hj1 as <-. destruct (at_ h); lia.
Qed.

End BlockEcho.

Module Demo.

(** A buffer that is only its size. *)
#[export] Instance sized : AutoBuffer nat := { make_buffer n := n; size b := b; resize n _ := n }.
#[export] Instance sized_laws : AutoBufferLaws nat.
Proof. by split. Qed.

Notation all_work := (fun _ : api => true).

(** Two connections; the first sends three bytes, which are read one and two at a time,
    as far as the buffer lets them. *)
Definition two : list event :=
  [Accepted [1; 2; 3]; Accepted [7; 8]; Tests 0; Tests 1; ReadDone 0 1; ReadDone 1 2; WriteDone 1 1024; WriteDone 0 1024;
   Tests 0; ReadDone 0 2; ReadDone 0 1].

Notation after l := (run all_work l (start (new_server (B := nat)))).

Lemma peers_get_theirs_witness : exists h, handlers (after two) !! 0%nat = Some h /\ (sent h, received h) = ([1], [1; 2]) /\
  exists bytes, Accepted bytes ∈ two /\ received h ++ arriving h = bytes /\ sent h `prefix_of` received h.
Proof.
  assert (Hv : (fun h => (sent h, received h)) <$> (handlers (after two) !! 0%nat) = Some ([1], [1; 2])) by by vm_compute.
  destruct (handlers (after two) !! 0%nat) as [h|] eqn:E; [|discriminate Hv]. injection Hv as H1 H2. exists h. split; [done|].
  split; [by rewrite H1, H2|].
  apply (peers_get_theirs all_work two h); [reflexivity|repeat constructor|]. by apply list_elem_of_lookup_2 in E.
Defined.

Lemma reads_shrink_witness : exists h h', handlers (after two) !! 0%nat = Some h /\ size (buffer h) = 1%nat /\
  handlers (run all_work [WriteDone 0 1; Tests 0; ReadDone 0 1] (after two)) !! 0%nat = Some h' /\ (size (buffer h') <= size (buffer h))%nat.
Proof.
  assert (Hv : (fun h => size (buffer h)) <$> (handlers (after two) !! 0%nat) = Some 1%nat) by by vm_compute.
  destruct (handlers (after two) !! 0%nat) as [h|] eqn:E; [|discriminate Hv]. injection Hv as Hv. exists h.
  destruct (reads_shrink all_work two [WriteDone 0 1; Tests 0; ReadDone 0 1] 0 h eq_refl E) as (h' & H1 & H2). exists h'.
  split; [done|]. split; [exact Hv|]. exact (conj H1 H2).
Defined.

(** The second peer has sent everything and closes its side. *)
Definition closed : list event := two ++ [WriteDone 1 1024; Tests 1; ReadDone 1 0].

Lemma threads_never_end_witness : exists h, handlers (after closed) !! 1%nat = Some h /\ at_ h = Stopping /\
  handlers (run all_work [Leaves 1000 1; Stop; Leaves 1000 1] (after closed)) !! 1%nat = Some h.
Proof.
  assert (Hv : at_ <$> (handlers (after closed) !! 1%nat) = Some Stopping) by by vm_compute.
  destruct (handlers (after closed) !! 1%nat) as [h|] eqn:E; [|discriminate Hv]. injection Hv as Hv. exists h. split; [done|].
  split; [exact Hv|]. exact (threads_never_end all_work closed _ 1 h eq_refl E Hv).
Defined.

(** Both wait for their peers. *)
Definition reading : list event := two ++ [WriteDone 1 1024; Tests 1; WriteDone 0 1024; Tests 0].

Lemma failure_stops_all_witness : exists h',
  handlers (run all_work [Accepted [9]; ReadDone 0 1; Tests 0] (exec all_work (Fails 1) (after reading))) !! 0%nat = Some h' /\
  (length (received h') <= 3)%nat.
Proof.
  assert (Hq : (fun h => length (received h) + size (buffer h))%nat <$> (handlers (after reading) !! 0%nat) = Some 3%nat) by by vm_compute.
  assert (Hx : at_ <$> (handlers (after reading) !! 1%nat) = Some Reading) by by vm_compute.
  destruct (handlers (after reading) !! 0%nat) as [h|] eqn:E; [|discriminate Hq].
  destruct (handlers (after reading) !! 1%nat) as [x|] eqn:Ex; [|discriminate Hx].
  injection Hq as Hq. injection Hx as Hx. rewrite <- Hq.
  exact (proj2 (failure_stops_all all_work reading [Accepted [9]; ReadDone 0 1; Tests 0] 1 x 0 h eq_refl Ex (or_introl Hx) E)).
Defined.

End Demo.
