(* ===== verification/MsgThread.v ===== *)
(** * Stop policies, thread_impl_t and the message threads

    The rest of include/multi_thread/thread.hpp: the policies by which a thread is told to
    stop, [thread_impl_t], whose stop waits without a limit, and the threads that take
    messages, [msg_impl_t] and [msg_implex_t], whose loops are bodies of the threads of
    Thread.v. *)

From S2P Require Import Prelude Thread.

(** ** Stop policies *)

(** What a thread asks of its policy; [None]: the call failed. *)
Class StopPolicy (P : Type) : Type := {
  clear_abort_ : P -> option P;
  abort_ : P -> option P;
  is_aborted_ : P -> bool
}.

(** What a policy owes the loops that ask it. *)
Class StopLaws (P : Type) `{StopPolicy P} : Prop := {
  clear_law p p' : clear_abort_ p = Some p' -> is_aborted_ p' = false;
  abort_law p p' : abort_ p = Some p' -> is_aborted_ p' = true
}.

Record stop_bool := StopBool { stopped_ : bool }.
#[export] Instance stop_bool_policy : StopPolicy stop_bool := {
  clear_abort_ p := Some (StopBool false);
  abort_ p := Some (StopBool true);
  is_aborted_ p := stopped_ p
}.
#[export] Instance stop_bool_laws : StopLaws stop_bool.
Proof. by split; intros p p' [= <-]. Qed.

(** A manual-reset event; [event_] is its state, [None] when [CreateEvent] failed: a wait
    for a bad handle fails, which is not WAIT_TIMEOUT. *)
Record stop_event := StopEvent { event_ : option bool }.
#[export] Instance stop_event_policy : StopPolicy stop_event := {
  clear_abort_ p := match event_ p with Some _ => Some (StopEvent (Some false)) | None => None end;
  abort_ p := match event_ p with Some _ => Some (StopEvent (Some true)) | None => None end;
  is_aborted_ p := match event_ p with Some signalled => signalled | None => true end
}.
#[export] Instance stop_event_laws : StopLaws stop_event.
Proof. split; intros [[]] p'; cbn; by intros [= <-]. Qed.

(** [apcs]: the calls of [APCProc] that were queued. *)
Record stop_APC := StopAPC { apcs : nat }.
#[export] Instance stop_APC_policy : StopPolicy stop_APC := {
  clear_abort_ p := Some p;
  abort_ p := Some (StopAPC (S (apcs p)));
  is_aborted_ p := false
}.

(** A loop that asks its policy before each round, [while( !is_aborted() )]. *)
Section Loop.
Context {P W : Type} `{StopPolicy P} (round : W -> W).
Fixpoint polling (fuel : nat) (p : P) (s : W) : option W :=
  match fuel with
  | O => None
  | S f => if is_aborted_ p then Some s else polling f p (round s)
  end.
End Loop.

(** A loop that is told to stop makes no more rounds with the flag or the event; with the
    asynchronous call it never ends. *)
Theorem policies_stop {P W} `{StopLaws P} (round : W -> W) p p' s fuel : abort_ p = Some p' ->
  polling round (S fuel) p' s = Some s /\ forall a : stop_APC, polling round fuel (default a (abort_ a)) s = None.
Proof.
  intros Ha. split; [cbn; by rewrite (abort_law p p' Ha)|]. intros a. cbn [abort_ stop_APC_policy default].
  generalize (StopAPC (S (apcs a))). clear. revert s. induction fuel as [|f IH]; intros s a'; [done|]. apply IH.
Qed.

(** ** thread_impl_t *)

Section Impl.
Context {B : Type} (step : bool -> B -> B + Z) (works : api -> bool).

(** [stop] has no time and does not terminate the thread. *)
Definition impl_stop (fuel : nat) : prog (@thread B) unit :=
  let* a := abort works in
  if negb a then ret tt else wait_for_thread step fuel None ;;; release works ;;; ret tt.

Lemma impl_stop_core fuel t x code : wf t -> os_ t = Some x ->
  works SetFlag = true -> works ResumeThread = true -> works CloseHandle = true ->
  run_body step fuel true (body x) = inr code ->
  exists t', impl_stop fuel t = Ret tt t' /\ thread_ t' = false /\ os_ t' = None /\
    orphans t' = orphans t ++ [OsThread (inr code) 0 false] /\ terminated t' = terminated t.
Proof.
  intros Hw Hx Hf Hr Hc Hb. assert (Ht : thread_ t = true) by (apply (wf_handle t Hw); by eexists).
  unfold impl_stop. rewrite (bind_ret _ _ _ _ _ (abort_ok works t Hw Ht Hf Hr)). cbn [negb].
  pose proof (wait_ready step fuel None t x Hx Ht) as Hwait. cbn zeta in Hwait. cbn [default] in Hwait. rewrite Hb in Hwait.
  rewrite (bind_ret _ _ _ _ _ Hwait). unfold bind, release, ret. cbn. rewrite Hc. cbn. by eexists.
Qed.

(** A body that does not end is waited for without end. *)
Lemma impl_stop_waits fuel t x b : wf t -> os_ t = Some x -> works SetFlag = true -> works ResumeThread = true ->
  run_body step fuel true (body x) = inl b -> impl_stop fuel t = OutOfFuel.
Proof.
  intros Hw Hx Hf Hr Hb. assert (Ht : thread_ t = true) by (apply (wf_handle t Hw); by eexists).
  unfold impl_stop. rewrite (bind_ret _ _ _ _ _ (abort_ok works t Hw Ht Hf Hr)). cbn [negb].
  pose proof (wait_ready step fuel None t x Hx Ht) as Hwait. cbn zeta in Hwait. cbn [default] in Hwait. rewrite Hb in Hwait.
  unfold bind. by rewrite Hwait.
Qed.
End Impl.

(** ** Message threads *)

Module Messages.
Section Messages.
Context {M : Type} (works : api -> bool).

(** Where the loop of a thread is: before its first [PeekMessage], asking its policy,
    in [GetMessage], past the loop. *)
Inductive phase := Starting | Checking | Getting | Closing.

(** The body of a message thread: the queue the system keeps for it, where [None] is
    WM_QUIT and [made] says that it exists, and the messages its handler was called
    with. *)
Record mbody := MBody {
  at_ : phase;
  made : bool;
  queue_ : list (option M);
  peeked : option M;          (* the MSG, [None]: never written *)
  handled : list (option M)
}.

Definition fresh_body : mbody := MBody Starting false [] None [].

(** [PostThreadMessage]: refused by a thread without a queue and by one that has ended. *)
Definition push_msg (m : option M) (b : mbody) : mbody := MBody (at_ b) (made b) (queue_ b ++ [m]) (peeked b) (handled b).
Definition PostThreadMessage (m : option M) (o : @os_thread mbody) : bool * @os_thread mbody :=
  match body o with
  | inl b => if made b then (true, OsThread (inl (push_msg m b)) (suspends o) (handle_open o)) else (false, o)
  | inr _ => (false, o)
  end.

Definition post (m : option M) : prog thread bool :=
  asserted thread_ (fun t =>
    match os_ t with
    | Some o => let (ok, o') := PostThreadMessage m o in Ret ok (set_os (Some o') t)
    | None => Ret false t
    end).
Definition post_msg (m : M) : prog thread bool := post (Some m).
Definition post_quit_msg : prog thread bool := post None.

(** [PeekMessage] with PM_NOREMOVE: it makes the queue, and copies its first message. *)
Definition PeekMessage (b : mbody) : mbody :=
  MBody Checking true (queue_ b) (match queue_ b with Some m :: _ => Some m | _ => peeked b end) (handled b).

(** [msg_impl_t::run]. *)
Definition msg_impl_run (flag : bool) (b : mbody) : mbody + Z :=
  match at_ b with
  | Starting => inl (PeekMessage b)
  | Checking => inl (MBody (if flag then Closing else Getting) (made b) (queue_ b) (peeked b) (handled b))
  | Getting =>
      match queue_ b with
      | [] => inl b
      | None :: q => inl (MBody Closing (made b) q (peeked b) (handled b))
      | Some m :: q => inl (MBody Checking (made b) q (Some m) (handled b ++ [Some m]))
      end
  | Closing => inr 0
  end.

(** [thread_impl_], the body of the threads that [thread_impl_t] starts: it calls the [Run] of
    the class derived from it, and there is one in the base class, which asserts and
    returns 0. [msg_impl_t] has a [run] and no [Run], so that its loop is only entered when
    the class derived from it defines a [Run] that calls [run]. *)
Definition thread_impl_ (Run : option (bool -> mbody -> mbody + Z)) : bool -> mbody -> mbody + Z :=
  match Run with
  | Some Run => Run
  | None => fun _ _ => inr 0
  end.

(** [msg_implex_t::run], with the handler's [lResult]; 0 is S_OK. *)
Context (msg_handler_ : option (option M -> Z)).
Definition msg_implex_run (flag : bool) (b : mbody) : mbody + Z :=
  match msg_handler_ with
  | None => inr (-1)
  | Some h =>
      match at_ b with
      | Starting => inl (PeekMessage b)
      | Checking | Getting =>
          if flag then inr 0
          else let b' := MBody Checking (made b) (queue_ b) (peeked b) (handled b ++ [peeked b]) in
               if h (peeked b) =? 0 then inl b' else inr 0
      | Closing => inr 0
      end
  end.

(** What the owner of a thread does: it posts, and what it does with any thread. The
    result is what the system accepted. *)
Inductive mop := Post (m : option M) | Client (o : op).
Context (step : bool -> mbody -> mbody + Z).
Definition exec_mop (o : mop) : prog thread (list (option M)) :=
  match o with
  | Post m => let* ok := post m in ret (if ok : bool then [m] else [])
  | Client o => exec step works o ;;; ret []
  end.
Fixpoint run_mops (l : list mop) : prog thread (list (option M)) :=
  match l with
  | [] => ret []
  | o :: l => let* a := exec_mop o in let* r := run_mops l in ret (a ++ r)
  end.

Section Invariant.
(** An invariant of what was accepted so far and the body, or its exit code. *)
Context (I : list (option M) -> mbody + Z -> Prop).
Context (I_step : forall flag acc b, I acc (inl b) -> I acc (step flag b)).
Context (I_post : forall acc m b, I acc (inl b) -> made b = true -> I (acc ++ [m]) (inl (push_msg m b))).

Definition alive (acc : list (option M)) (t : @thread mbody) : Prop :=
  thread_ t = true /\ exists o, os_ t = Some o /\ I acc (body o).

Lemma run_body_inv acc n flag x : I acc x -> I acc (run_body step n flag x).
Proof.
  revert x. induction n as [|n IH]; intros x Hx; [done|]. destruct x as [b|c]; [|done]. cbn. by apply IH, I_step.
Qed.

Lemma client_inv acc o t : alive acc t -> exists t', exec step works o t = Ret tt t' /\ alive acc t'.
Proof.
  intros (Ht & x & Hx & Hb). destruct t as [h s a d c hd os orp te de]. cbn in *. subst h os.
  unfold alive, exec, bind, suspend, resume, asserted, elapse, ret.
  destruct o as [| |n]; cbn; [destruct s; [|destruct (works SuspendThread)]|destruct s; [destruct (works ResumeThread)|]|]; cbn;
    eexists; (split; [reflexivity|]); (split; [reflexivity|]); eexists; (split; [reflexivity|]); try exact Hb.
  unfold run_os. destruct (suspends x); [|exact Hb]. cbn. by apply run_body_inv.
Qed.

Lemma post_inv acc m t : alive acc t -> exists ok t', post m t = Ret ok t' /\ alive (acc ++ if ok : bool then [m] else []) t'.
Proof.
  intros (Ht & x & Hx & Hb). unfold post, asserted, alive. rewrite Ht, Hx. unfold PostThreadMessage.
  destruct (body x) as [b|c] eqn:E; [destruct (made b) eqn:Hm|]; eexists _, _; (split; [reflexivity|]); cbn;
    (split; [exact Ht|]); eexists; (split; [reflexivity|]); cbn; rewrite ?E, ?app_nil_r; [by apply I_post|exact Hb|exact Hb].
Qed.

Lemma mops_inv l : forall acc t, alive acc t -> exists r t', run_mops l t = Ret r t' /\ alive (acc ++ r) t'.
Proof.
  induction l as [|o l IH]; intros acc t Ha; [exists [], t; by rewrite app_nil_r|]. cbn [run_mops].
  assert (exists a t1, exec_mop o t = Ret a t1 /\ alive (acc ++ a) t1) as (a & t1 & H1 & Ha1).
  { destruct o as [m|o]; cbn [exec_mop].
    - destruct (post_inv acc m t Ha) as (ok & t1 & H1 & Ha1). rewrite (bind_ret _ _ _ _ _ H1). by eexists _, _.
    - destruct (client_inv acc o t Ha) as (t1 & H1 & Ha1). rewrite (bind_ret _ _ _ _ _ H1). exists [], t1. by rewrite app_nil_r. }
  rewrite (bind_ret _ _ _ _ _ H1). destruct (IH _ t1 Ha1) as (r & t2 & H2 & Ha2). rewrite (bind_ret _ _ _ _ _ H2).
  exists (a ++ r), t2. by rewrite app_assoc.
Qed.

Lemma mops_started l idle t0 : I [] (inl fresh_body) -> start works idle (thread_implex_t (Some fresh_body)) = Ret true t0 ->
  exists r t, run_mops l t0 = Ret r t /\ alive r t.
Proof.
  intros HI Hs. destruct (mops_inv l [] t0) as (r & t & H1 & H2); [|by exists r, t].
  revert Hs. unfold start, bind, _clear_abort. destruct (works ClearFlag); [|done]. cbn. unfold create, asserted. cbn.
  destruct (works BeginThread); [|done]. destruct (works ResumeThread); [|done]. intros [= <-].
  split; [done|]. by eexists.
Qed.
End Invariant.
End Messages.

(** ** The loop of msg_impl_t *)

Section Loops.
Context {M : Type} (works : api -> bool).

(** An invariant of a body as long as it has not ended. *)
Definition going (I : list (option M) -> @mbody M -> Prop) (acc : list (option M)) (x : @mbody M + Z) : Prop :=
  match x with inl b => I acc b | inr _ => True end.

Lemma going_step (I : list (option M) -> @mbody M -> Prop) (step : bool -> mbody -> mbody + Z) :
  (forall flag acc b b', I acc b -> step flag b = inl b' -> I acc b') ->
  forall flag acc b, going I acc (inl b) -> going I acc (step flag b).
Proof. intros H flag acc b Hb. destruct (step flag b) as [b'|] eqn:E; [|done]. by apply (H flag acc b). Qed.

(** What was handled and what is queued are what was posted, in order; the one message
    that may be missing is the WM_QUIT that ended the loop. *)
Definition in_order (acc : list (option M)) (b : @mbody M) : Prop :=
  match at_ b with
  | Starting => made b = false /\ acc = [] /\ handled b = [] /\ queue_ b = []
  | Checking | Getting => acc = handled b ++ queue_ b
  | Closing => acc = handled b ++ queue_ b \/ acc = handled b ++ None :: queue_ b
  end /\ Forall is_Some (handled b).

Lemma in_order_step flag acc b b' : in_order acc b -> msg_impl_run flag b = inl b' -> in_order acc b'.
Proof.
  destruct b as [a md q p h]. unfold in_order, msg_impl_run. cbn. intros [Ha Hs].
  destruct a; [|destruct flag|destruct q as [|[m|] q]|done]; intros [= <-]; cbn; (split; [|try done]).
  - destruct Ha as (_ & -> & -> & ->). done.
  - by left.
  - done.
  - done.
  - rewrite <- app_assoc. exact Ha.
  - apply Forall_app. by split; [|constructor].
  - by right.
Qed.

Lemma in_order_post acc m b : in_order acc b -> made b = true -> in_order (acc ++ [m]) (push_msg m b).
Proof.
  destruct b as [a md q p h]. unfold in_order, push_msg. cbn. intros [Ha Hs] Hm. split; [|done].
  destruct a; [destruct Ha; congruence|..]; [by rewrite Ha, app_assoc..|].
  destruct Ha as [-> | ->]; [left|right]; by rewrite <- app_assoc.
Qed.

(** The thread of a class whose [Run] calls [run]: however posts, suspensions and the
    thread's own steps interleave, the messages that were handled are the first of those
    the system accepted, in the order they were posted. *)
Theorem messages_in_order l idle t0 :
  start works idle (thread_implex_t (Some (@fresh_body M))) = Ret true t0 ->
  exists r t, run_mops works (thread_impl_ (Some msg_impl_run)) l t0 = Ret r t /\
    forall o b, os_ t = Some o -> body o = inl b -> Forall is_Some (handled b) /\ handled b `prefix_of` r.
Proof.
  change (thread_impl_ (Some msg_impl_run)) with (@msg_impl_run M).
  intros Hs. destruct (mops_started works msg_impl_run (going in_order) (going_step _ _ in_order_step) in_order_post l idle t0) as (r & t & H1 & _ & x & Hx & Hb); [by split|done|].
  exists r, t. split; [done|]. intros o b Ho E. rewrite Ho in Hx. injection Hx as <-. rewrite E in Hb.
  destruct Hb as [Ha Hf]. split; [done|]. destruct (at_ b).
  - destruct Ha as (_ & -> & -> & _). done.
  - rewrite Ha. by eexists.
  - rewrite Ha. by eexists.
  - destruct Ha as [-> | ->]; by eexists.
Qed.

(** The thread of a class without a [Run] of its own never enters the loop: whatever is
    posted to it, nothing is accepted, and from its first step on it has ended. *)
Theorem run_not_entered l idle t0 :
  start works idle (thread_implex_t (Some (@fresh_body M))) = Ret true t0 ->
  exists t, run_mops works (thread_impl_ None) l t0 = Ret [] t /\
    exists o, os_ t = Some o /\ (body o = inl fresh_body \/ body o = inr 0).
Proof.
  intros Hs.
  pose (I := fun (acc : list (option M)) (x : @mbody M + Z) => acc = [] /\ (x = inl fresh_body \/ x = inr 0)).
  assert (I_post : forall acc m b, I acc (inl b) -> made b = true -> I (acc ++ [m]) (inl (push_msg m b))).
  { intros acc m b [_ [[= ->]|[=]]] Hm. done. }
  destruct (mops_started works (thread_impl_ None) I (fun flag acc b H => conj (proj1 H) (or_intror eq_refl)) I_post l idle t0)
    as (r & t & H1 & _ & x & Hx & -> & Hb); [by split; [|left]|exact Hs|].
  exists t. split; [done|]. by exists x.
Qed.

Lemma run_body_app {B} (step : bool -> B -> B + Z) n k flag x : run_body step (n + k) flag x = run_body step k flag (run_body step n flag x).
Proof.
  revert x. induction n as [|n IH]; intros x; [done|]. destruct x as [b|c]; cbn; [apply IH|]. by rewrite run_body_done.
Qed.

(** The loop handles what is queued before a WM_QUIT and ends with 0. *)
Lemma loop_to_quit md (q : list (option M)) p h ms : exists p',
  run_body msg_impl_run (2 * length ms + 2) false (inl (MBody Checking md (map Some ms ++ None :: q) p h)) =
    inl (MBody Closing md q p' (h ++ map Some ms)).
Proof.
  revert p h. induction ms as [|m ms IH]; intros p h.
  - exists p. cbn. by rewrite app_nil_r.
  - destruct (IH (Some m) (h ++ [Some m])) as (p' & H). exists p'.
    replace (2 * length (m :: ms) + 2)%nat with (2 + (2 * length ms + 2))%nat by (cbn; lia).
    rewrite run_body_app. cbn [run_body msg_impl_run at_ queue_ map app made peeked handled]. rewrite H. by rewrite <- app_assoc.
Qed.

Lemma getting_stuck md (p : option M) h n : run_body msg_impl_run n true (inl (MBody Getting md [] p h)) = inl (MBody Getting md [] p h).
Proof. induction n as [|n IH]; [done|]. exact IH. Qed.

(** The same class: a thread that waits for a message does not see that it is told to stop: its owner
    waits without end, unless a message was posted first, even WM_QUIT. *)
Theorem stop_needs_a_message t s (p : option M) h : wf t -> os_ t = Some (OsThread (inl (MBody Getting true [] p h)) s true) ->
  works SetFlag = true -> works ResumeThread = true -> works CloseHandle = true ->
  (forall fuel, impl_stop (thread_impl_ (Some msg_impl_run)) works fuel t = OutOfFuel) /\
  forall m, exists t1 t2, post m t = Ret true t1 /\ impl_stop (thread_impl_ (Some msg_impl_run)) works 3 t1 = Ret tt t2 /\
    thread_ t2 = false /\ os_ t2 = None.
Proof.
  change (thread_impl_ (Some msg_impl_run)) with (@msg_impl_run M).
  intros Hw Hx Hf Hr Hc. split.
  - intros fuel. eapply impl_stop_waits; [done..|]. cbn [body]. apply getting_stuck.
  - intros m. pose proof (wf_handle t Hw) as Hh. assert (Ht : thread_ t = true) by (apply Hh; by eexists).
    set (t1 := set_os (Some (OsThread (inl (MBody Getting true [m] p h)) s true)) t).
    assert (Hp : post m t = Ret true t1) by (unfold post, asserted; by rewrite Ht, Hx).
    assert (Hw1 : wf t1).
    { split; [split; [by eexists|by intros _]| |apply (wf_closed t Hw)].
      intros o [= <-]. split; [done|]. apply (wf_open t Hw _ Hx). }
    destruct (impl_stop_core msg_impl_run works 3 t1 _ 0 Hw1 eq_refl Hf Hr Hc) as (t2 & H2 & H3 & H4 & _); [by destruct m|].
    by exists t1, t2.
Qed.

(** ** The loop of msg_implex_t *)

(** [PeekMessage] finds the queue it has just made empty, and nothing else writes the
    MSG. *)
Definition unwritten (acc : list (option M)) (b : @mbody M) : Prop :=
  (at_ b = Starting -> made b = false /\ queue_ b = []) /\ peeked b = None /\
  Forall (fun x => x = None) (handled b) /\ acc = queue_ b.

Lemma unwritten_step h flag acc b b' : unwritten acc b -> msg_implex_run h flag b = inl b' -> unwritten acc b'.
Proof.
  destruct b as [a md q p l]. unfold unwritten, msg_implex_run. cbn. intros (Hs & -> & Hl & ->).
  destruct h as [h|]; [|done]. assert (Forall (fun x : option M => x = None) (l ++ [None])) as Hl' by (apply Forall_app; by split; [|constructor]).
  destruct a; [destruct Hs as [-> ->]; [done|]|destruct flag; [done|]; destruct (h None =? 0); [|done]..|done];
    intros [= <-]; cbn; by split_and!.
Qed.

Lemma unwritten_post acc m b : unwritten acc b -> made b = true -> unwritten (acc ++ [m]) (push_msg m b).
Proof.
  destruct b as [a md q p l]. unfold unwritten, push_msg. cbn. intros (Hs & -> & Hl & ->) ->.
  split_and!; try done. intros Ha. by destruct (Hs Ha).
Qed.

(** Whatever is posted to it, the handler of a [msg_implex_t] is only ever called with
    the MSG of its stack that nothing has written, and every message that was accepted
    is left in the queue. *)
Theorem posted_never_handled h l idle t0 :
  start works idle (thread_implex_t (Some (@fresh_body M))) = Ret true t0 ->
  exists r t, run_mops works (msg_implex_run h) l t0 = Ret r t /\
    forall o b, os_ t = Some o -> body o = inl b -> queue_ b = r /\ Forall (fun x => x = None) (handled b).
Proof.
  intros Hs. destruct (mops_started works (msg_implex_run h) (going unwritten) (going_step _ _ (unwritten_step h)) unwritten_post l idle t0)
    as (r & t & H1 & _ & x & Hx & Hb); [by split_and!|done|].
  exists r, t. split; [done|]. intros o b Ho E. rewrite Ho in Hx. injection Hx as <-. rewrite E in Hb.
  by destruct Hb as (_ & _ & Hl & ->).
Qed.

(** ** Ending by a message *)

Lemma posts_accepted (step : bool -> @mbody M -> mbody + Z) ms rest : forall t a q p h s ho r t',
  thread_ t = true -> os_ t = Some (OsThread (inl (MBody a true q p h)) s ho) ->
  run_mops works step rest (set_os (Some (OsThread (inl (MBody a true (q ++ ms) p h)) s ho)) t) = Ret r t' ->
  run_mops works step (map Post ms ++ rest) t = Ret (ms ++ r) t'.
Proof.
  induction ms as [|m ms IH]; intros t a q p h s ho r t' Ht Hx Hr.
  - rewrite app_nil_r in Hr. cbn [map app]. rewrite <- Hr. f_equal. destruct t; cbn in *; by subst.
  - set (t1 := set_os (Some (OsThread (inl (MBody a true (q ++ [m]) p h)) s ho)) t).
    assert (Hp : exec_mop works step (Post m) t = Ret [m] t1).
    { cbn [exec_mop]. rewrite (bind_ret _ _ t true t1); [done|]. unfold post, asserted. by rewrite Ht, Hx. }
    cbn [map app run_mops]. rewrite (bind_ret _ _ _ _ _ Hp).
    rewrite (bind_ret _ _ _ _ _ (IH t1 a (q ++ [m]) p h s ho r t' Ht eq_refl ltac:(rewrite <- app_assoc; exact Hr))).
    done.
Qed.

(** The same class: a thread that was not told to stop handles all that was posted before a WM_QUIT, in
    order, and then ends with 0 without being told. *)
Theorem quit_ends t q p h (ms : list M) : thread_ t = true -> aborted_ t = false ->
  os_ t = Some (OsThread (inl (MBody Checking true (map Some q) p h)) 0 true) ->
  let n := (2 * length (q ++ ms) + 2)%nat in
  exists t1 t2 b, run_mops works (thread_impl_ (Some msg_impl_run)) (map Post (map Some ms ++ [None]) ++ [Client (Elapse n)]) t = Ret (map Some ms ++ [None]) t1 /\
    behind t1 = Some (inl b) /\ at_ b = Closing /\ handled b = h ++ map Some (q ++ ms) /\ queue_ b = [] /\
    exec (thread_impl_ (Some msg_impl_run)) works (Elapse 1) t1 = Ret tt t2 /\ behind t2 = Some (inr 0).
Proof.
  change (thread_impl_ (Some msg_impl_run)) with (@msg_impl_run M).
  intros Ht Ha Hx n. destruct (loop_to_quit true [] p h (q ++ ms)) as (p' & Hl).
  set (b := MBody Closing true [] p' (h ++ map Some (q ++ ms))). fold n b in Hl. clearbody n.
  set (t1 := set_os (Some (OsThread (inl b) 0 true)) t).
  exists t1, (set_os (Some (OsThread (inr 0) 0 true)) t), b. split; [|by split_and!].
  rewrite <- (app_nil_r (map Some ms ++ [None])) at 2. eapply posts_accepted; [done..|].
  cbn [run_mops exec_mop]. unfold exec, bind, ret, elapse. cbn. rewrite Ha. unfold run_os. cbn [suspends body handle_open].
  replace (map Some q ++ map Some ms ++ [None]) with (map Some (q ++ ms) ++ [None]) by (by rewrite map_app, app_assoc).
  by rewrite Hl.
Qed.
End Loops.
End Messages.

(** ** Concrete policies and threads *)

Module Demo.
Import Messages.

Lemma policies_stop_witness : polling S 1 (StopBool true) 7%nat = Some 7%nat /\
  forall a : stop_APC, polling S 0 (default a (abort_ a)) 7%nat = None.
Proof. by apply (policies_stop S (StopBool false)). Defined.

Definition fine (a : api) : bool := true.
Definition started : @thread (@mbody nat) := default (thread_implex_t None)
  (match start fine fresh_body (thread_implex_t (Some fresh_body)) with Ret _ t => Some t | _ => None end).

Lemma msg_started_ok : start fine fresh_body (thread_implex_t (Some fresh_body)) = Ret true started.
Proof. done. Qed.

(** A post before the queue exists is refused. *)
Definition talk : list (@mop nat) :=
  [Post (Some 1%nat); Client (Elapse 1); Post (Some 2%nat); Client Suspend; Client (Elapse 5); Post (Some 3%nat);
   Client Resume; Client (Elapse 4)].

Lemma messages_in_order_witness : exists r t, run_mops fine (thread_impl_ (Some msg_impl_run)) talk started = Ret r t /\
  forall o b, os_ t = Some o -> body o = inl b -> Forall is_Some (handled b) /\ handled b `prefix_of` r.
Proof. apply (messages_in_order fine talk fresh_body started), msg_started_ok. Defined.

Lemma run_not_entered_witness : exists t, run_mops fine (thread_impl_ None) talk started = Ret [] t /\
  exists o, os_ t = Some o /\ (body o = inl fresh_body \/ body o = inr 0).
Proof. apply (run_not_entered fine talk fresh_body started), msg_started_ok. Defined.

Lemma posted_never_handled_witness : exists r t,
  run_mops fine (msg_implex_run (Some (fun _ => 0))) talk started = Ret r t /\
  forall o b, os_ t = Some o -> body o = inl b -> queue_ b = r /\ Forall (fun x => x = None) (handled b).
Proof. apply (posted_never_handled fine (Some (fun _ => 0)) talk fresh_body started), msg_started_ok. Defined.

(** Started, and past its first two steps. *)
Definition running (n : nat) : @thread (@mbody nat) :=
  set_os (Some (OsThread (run_body (thread_impl_ (Some msg_impl_run)) n false (inl fresh_body)) 0 true)) started.

Lemma running_wf n : wf (running n).
Proof. split; cbn; [by split; [eexists|]| |done]. by intros o [= <-]. Qed.

Lemma stop_needs_a_message_witness : (forall fuel, impl_stop (thread_impl_ (Some msg_impl_run)) fine fuel (running 2) = OutOfFuel) /\
  forall m, exists t1 t2, post m (running 2) = Ret true t1 /\ impl_stop (thread_impl_ (Some msg_impl_run)) fine 3 t1 = Ret tt t2 /\
    thread_ t2 = false /\ os_ t2 = None.
Proof. by apply (stop_needs_a_message fine (running 2) 0 None []); [apply running_wf|..]. Defined.

Lemma quit_ends_witness : exists t1 t2 b,
  run_mops fine (thread_impl_ (Some msg_impl_run)) (map Post (map Some [4; 5] ++ [None]) ++ [Client (Elapse 6)])%nat (running 1) = Ret (map Some [4; 5] ++ [None])%nat t1 /\
  behind t1 = Some (inl b) /\ at_ b = Closing /\ handled b = [Some 4; Some 5]%nat /\ queue_ b = [] /\
  exec (thread_impl_ (Some msg_impl_run)) fine (Elapse 1) t1 = Ret tt t2 /\ behind t2 = Some (inr 0).
Proof. by apply (quit_ends fine (running 1) [] None [] [4; 5]%nat). Defined.

End Demo.
