(* ===== verification/HttpParser.v ===== *)
(** * The HTTP request parser

    Example/Network/Http/Http/RequestParser.cpp and RequestParser.h, with Request.h
    and Header.h: a state machine that is fed one character at a time, whatever the
    pieces in which the request arrives, and fills in a [Request]. *)

From S2P Require Import Prelude.

Abbreviation str := (list Z).

(** Characters are [char]s, signed; their codes. *)
Definition CR : Z := 13.
Definition LF : Z := 10.
Definition SP : Z := 32.
Definition HT : Z := 9.
Definition CRLF : str := [CR; LF].

(** ** State *)

Record Header := MkHeader { name : str; value : str }.
Record Request := MkRequest {
  req_method : str;
  req_uri : str;
  httpVersionMajor : Z;
  httpVersionMinor : Z;
  headers : list Header
}.

Inductive ParseRet := TRUE_VALUE | FALSE_VALUE | INDETERMINATE.

Inductive state :=
| method_start
| method
| uri_start
| uri
| http_version_h
| http_version_t_1
| http_version_t_2
| http_version_p
| http_version_slash
| http_version_major_start
| http_version_major
| http_version_minor_start
| http_version_minor
| expecting_newline_1
| header_line_start
| header_lws
| header_name
| space_before_header_value
| header_value
| expecting_newline_2
| expecting_newline_3.

(** The parser with the request it fills in. *)
Record parser := MkParser { state_ : state; req : Request }.

(** ** Classes of characters *)

Definition isChar (c : Z) : bool := (0 <=? c) && (c <=? 127).
Definition isCtl (c : Z) : bool := ((0 <=? c) && (c <=? 31)) || (c =? 127).
(** ( ) < > @ , ; : \ quote / [ ] ? = { } space and tab *)
Definition isTSpecial (c : Z) : bool :=
  existsb (Z.eqb c) [40; 41; 60; 62; 64; 44; 59; 58; 92; 34; 47; 91; 93; 63; 61; 123; 125; 32; 9].
Definition isDigit (c : Z) : bool := (48 <=? c) && (c <=? 57).

(** ** The parser *)

Definition set_method s r := MkRequest s (req_uri r) (httpVersionMajor r) (httpVersionMinor r) (headers r).
Definition set_uri s r := MkRequest (req_method r) s (httpVersionMajor r) (httpVersionMinor r) (headers r).
Definition set_major v r := MkRequest (req_method r) (req_uri r) v (httpVersionMinor r) (headers r).
Definition set_minor v r := MkRequest (req_method r) (req_uri r) (httpVersionMajor r) v (headers r).
Definition set_headers l r := MkRequest (req_method r) (req_uri r) (httpVersionMajor r) (httpVersionMinor r) l.

(** [state_ = st; return INDETERMINATE;], after [f] on the request. *)
Definition goto (st : state) (f : Request -> Request) : prog parser ParseRet := fun p =>
  Ret INDETERMINATE (MkParser st (f (req p))).
Definition reject : prog parser ParseRet := ret FALSE_VALUE.
(** [if(input == c) { state_ = st; ... } else return FALSE_VALUE;] *)
Definition expect (c : Z) (st : state) (f : Request -> Request) (input : Z) : prog parser ParseRet :=
  if input =? c then goto st f else reject.

(** [v * 10 + input - '0'] of [int]s, whose overflow is undefined. *)
Definition add_digit (v input : Z) : option Z :=
  if (-2147483648 <=? v * 10) && (v * 10 + input <? 2147483648) then Some (v * 10 + input - 48) else None.

Definition next_digit (st : state) (get : Request -> Z) (set : Z -> Request -> Request) (input : Z) :
    prog parser ParseRet := fun p =>
  match add_digit (get (req p)) input with
  | Some v => goto st (set v) p
  | None => UB
  end.

(** [req.headers.back()], undefined when there is none. *)
Definition on_back (st : state) (f : Header -> Header) : prog parser ParseRet := fun p =>
  match reverse (headers (req p)) with
  | [] => UB
  | h :: rest => goto st (set_headers (reverse rest ++ [f h])) p
  end.
Definition push_name (c : Z) (h : Header) : Header := MkHeader (name h ++ [c]) (value h).
Definition push_value (c : Z) (h : Header) : Header := MkHeader (name h) (value h ++ [c]).

Definition RequestParser : state := method_start.
Definition Reset : prog parser unit := fun p => Ret tt (MkParser method_start (req p)).

Definition not_token (input : Z) : bool := negb (isChar input) || isCtl input || isTSpecial input.

(** The states of the request line. *)
Definition consume_line (input : Z) : prog parser ParseRet := fun p =>
  match state_ p with
  | method_start =>
      if not_token input then reject
      else goto method (fun r => set_method (req_method r ++ [input]) r)
  | method =>
      if input =? SP then goto uri id
      else if not_token input then reject
      else goto method (fun r => set_method (req_method r ++ [input]) r)
  | uri_start =>
      if isCtl input then reject else goto uri (fun r => set_uri (req_uri r ++ [input]) r)
  | uri =>
      if input =? SP then goto http_version_h id
      else if isCtl input then reject
      else goto uri (fun r => set_uri (req_uri r ++ [input]) r)
  | http_version_h => expect 72 http_version_t_1 id input            (* 'H' *)
  | http_version_t_1 => expect 84 http_version_t_2 id input          (* 'T' *)
  | http_version_t_2 => expect 84 http_version_p id input            (* 'T' *)
  | http_version_p => expect 80 http_version_slash id input          (* 'P' *)
  | http_version_slash =>                                            (* '/' *)
      expect 47 http_version_major_start (fun r => set_minor 0 (set_major 0 r)) input
  | http_version_major_start =>
      if isDigit input then next_digit http_version_major httpVersionMajor set_major input else reject
  | http_version_major =>
      if input =? 46 then goto http_version_minor_start id           (* '.' *)
      else if isDigit input then next_digit http_version_major httpVersionMajor set_major input
      else reject
  | http_version_minor_start =>
      if isDigit input then next_digit http_version_minor httpVersionMinor set_minor input else reject
  | http_version_minor =>
      if input =? CR then goto expecting_newline_1 id
      else if isDigit input then next_digit http_version_minor httpVersionMinor set_minor input
      else reject
  | expecting_newline_1 => expect LF header_line_start id input
  | _ => reject
  end p.

(** The states of the header lines. *)
Definition consume_header (input : Z) : prog parser ParseRet := fun p =>
  match state_ p with
  | header_line_start =>
      if input =? CR then goto expecting_newline_3 id
      else if negb (match headers (req p) with [] => true | _ => false end) && ((input =? SP) || (input =? HT))
      then goto header_lws id
      else if not_token input then reject
      else goto header_name (fun r => set_headers (headers r ++ [MkHeader [input] []]) r)
  | header_lws =>
      if input =? CR then goto expecting_newline_2 id
      else if (input =? SP) || (input =? HT) then goto header_lws id
      else if isCtl input then reject
      else on_back header_value (push_value input)
  | header_name =>
      if input =? 58 then goto space_before_header_value id          (* ':' *)
      else if not_token input then reject
      else on_back header_name (push_name input)
  | space_before_header_value => expect SP header_value id input
  | header_value =>
      if input =? CR then goto expecting_newline_2 id
      else if isCtl input then reject
      else on_back header_value (push_value input)
  | expecting_newline_2 => expect LF header_line_start id input
  | expecting_newline_3 => ret (if input =? LF then TRUE_VALUE else FALSE_VALUE)
  | _ => reject
  end p.

Definition Consume (input : Z) : prog parser ParseRet := fun p =>
  match state_ p with
  | header_line_start | header_lws | header_name | space_before_header_value | header_value
  | expecting_newline_2 | expecting_newline_3 => consume_header input p
  | _ => consume_line input p
  end.

(** [Parse(req, begin, end)]; both parts of the tuple are the result. *)
Fixpoint Parse (input : str) : prog parser (ParseRet * ParseRet) :=
  match input with
  | [] => ret (INDETERMINATE, INDETERMINATE)
  | c :: input' =>
      let* result := Consume c in
      match result with
      | INDETERMINATE => Parse input'
      | _ => ret (result, result)
      end
  end.

(** ** The language

    A header as it is written: the name, the value's first line, and the lines it is
    folded into, each after its white space. *)

Record field := Field { f_name : str; f_value : str; f_folds : list (str * str) }.

Definition token (c : Z) : bool := negb (not_token c).
Definition text (c : Z) : bool := negb (isCtl c).
Definition lws (c : Z) : bool := (c =? SP) || (c =? HT).

Definition render_fold (f : str * str) : str := f.1 ++ f.2 ++ CRLF.
Definition render_field (f : field) : str :=
  f_name f ++ [58; SP] ++ f_value f ++ CRLF ++ concat (map render_fold (f_folds f)).
Definition render_fields (l : list field) : str := concat (map render_field l).

Definition header_of (f : field) : Header := MkHeader (f_name f) (f_value f ++ concat (map snd (f_folds f))).

Definition fold_ok (f : str * str) : Prop :=
  f.1 <> [] /\ forallb lws f.1 = true /\ forallb text f.2 = true /\ head f.2 <> Some SP.
Definition field_ok (f : field) : Prop :=
  f_name f <> [] /\ forallb token (f_name f) = true /\ forallb text (f_value f) = true /\
  Forall fold_ok (f_folds f).

(** A decimal number and the [int] it stands for. *)
Definition number_of (ds : str) : Z := foldl (fun v c => v * 10 + (c - 48)) 0 ds.
Definition number_ok (ds : str) : Prop :=
  ds <> [] /\ forallb isDigit ds = true /\ number_of ds + 48 < 2147483648.

Definition http_ : str := [72; 84; 84; 80; 47].   (* HTTP/ *)

(** The text of a request, and the request it denotes. *)
Definition request_text (t : str) (r : Request) : Prop := exists major minor fields,
  t = req_method r ++ [SP] ++ req_uri r ++ [SP] ++ http_ ++ major ++ [46] ++ minor ++
      CRLF ++ render_fields fields ++ CRLF /\
  (req_method r <> [] /\ forallb token (req_method r) = true) /\
  forallb (fun c => text c && negb (c =? SP)) (req_uri r) = true /\
  (number_ok major /\ httpVersionMajor r = number_of major) /\
  (number_ok minor /\ httpVersionMinor r = number_of minor) /\
  Forall field_ok fields /\ headers r = map header_of fields.

(** ** What has been read, state by state *)

(** The header lines: [u] has been read since the request line, and filled [l]. *)
Definition fields_read (fs : list field) (u : str) (l : list Header) : Prop :=
  u = render_fields fs /\ l = map header_of fs /\ Forall field_ok fs.

Definition in_name (c : str) (u : str) (l : list Header) : Prop := exists fs n,
  u = render_fields fs ++ n ++ c /\ l = map header_of fs ++ [MkHeader n []] /\ Forall field_ok fs /\
  n <> [] /\ forallb token n = true.

(** In the first line of a value; in a line it is folded into, after its white space
    and the characters [v]. *)
Definition in_first (u : str) (l : list Header) : Prop := exists fs n v,
  u = render_fields fs ++ n ++ [58; SP] ++ v /\ l = map header_of fs ++ [MkHeader n v] /\
  Forall field_ok fs /\ n <> [] /\ forallb token n = true /\ forallb text v = true.
Definition in_fold (v : str) (u : str) (l : list Header) : Prop := exists fs f ws,
  u = render_fields (fs ++ [f]) ++ ws ++ v /\
  l = map header_of fs ++ [MkHeader (f_name f) (value (header_of f) ++ v)] /\
  Forall field_ok (fs ++ [f]) /\ ws <> [] /\ forallb lws ws = true /\
  forallb text v = true /\ head v <> Some SP.

Definition in_fields (st : state) (u : str) (l : list Header) : Prop :=
  match st with
  | header_line_start => exists fs, fields_read fs u l
  | header_name => in_name [] u l
  | space_before_header_value => in_name [58] u l
  | header_value => in_first u l \/ exists v, v <> [] /\ in_fold v u l
  | header_lws => in_fold [] u l
  | expecting_newline_2 => exists fs, fields_read fs (u ++ [LF]) l
  | expecting_newline_3 => exists fs u', u = u' ++ [CR] /\ fields_read fs u' l
  | _ => False
  end.

Lemma render_snoc fs f : render_fields (fs ++ [f]) = render_fields fs ++ render_field f.
Proof. unfold render_fields. rewrite map_app, concat_app. cbn. by rewrite app_nil_r. Qed.

(** A field with one more folded line. *)
Definition add_fold (f : field) (g : str * str) : field := Field (f_name f) (f_value f) (f_folds f ++ [g]).

Lemma render_add_fold f g : render_field (add_fold f g) = render_field f ++ render_fold g.
Proof.
  unfold render_field, add_fold. cbn [f_name f_value f_folds].
  rewrite map_app, concat_app. cbn [map concat]. by rewrite app_nil_r, <- !app_assoc.
Qed.

Lemma header_add_fold f g : header_of (add_fold f g) = MkHeader (f_name f) (value (header_of f) ++ g.2).
Proof.
  unfold header_of, add_fold. cbn [f_name f_value f_folds value]. rewrite map_app, concat_app.
  cbn [map concat]. by rewrite app_nil_r, app_assoc.
Qed.

Lemma fields_snoc_ok fs f : Forall field_ok (fs ++ [f]) <-> Forall field_ok fs /\ field_ok f.
Proof. rewrite Forall_app, Forall_singleton. done. Qed.

Lemma first_closes u l : in_first u l -> exists fs, fields_read fs (u ++ CRLF) l.
Proof.
  intros (fs & n & v & -> & -> & Hfs & Hn & Ht & Hv). exists (fs ++ [Field n v []]). split_and!.
  - rewrite render_snoc. unfold render_field. cbn [f_name f_value f_folds map concat].
    by rewrite app_nil_r, <- !app_assoc.
  - rewrite map_app. unfold header_of. cbn. by rewrite app_nil_r.
  - apply fields_snoc_ok. split; [done|]. by split_and!.
Qed.

Lemma fold_closes v u l : in_fold v u l -> exists fs, fields_read fs (u ++ CRLF) l.
Proof.
  intros (fs & f & ws & -> & -> & Hfs & Hw & Hl & Hv & Hh).
  apply fields_snoc_ok in Hfs as [Hfs Hf]. exists (fs ++ [add_fold f (ws, v)]). split_and!.
  - rewrite !render_snoc, render_add_fold. unfold render_fold. cbn [fst snd]. by rewrite <- !app_assoc.
  - rewrite map_app. cbn [map]. by rewrite header_add_fold.
  - apply fields_snoc_ok. split; [done|]. destruct Hf as (? & ? & ? & ?). split_and!; try done.
    cbn. apply Forall_app. split; [done|]. apply Forall_singleton. by split_and!.
Qed.

Lemma forallb_snoc {A} (f : A -> bool) l c : forallb f (l ++ [c]) = forallb f l && f c.
Proof. rewrite forallb_app. cbn. by rewrite andb_true_r. Qed.

Lemma snoc_not_nil {A} (l : list A) c : l ++ [c] <> [].
Proof. by destruct l. Qed.

Lemma first_push c u l h rest : in_first u (rest ++ [h]) -> text c = true -> l = rest ++ [push_value c h] ->
  in_first (u ++ [c]) l.
Proof.
  intros (fs & n & v & -> & Hl & Hfs & Hn & Ht & Hv) Hc ->. apply app_inj_tail in Hl as [-> ->].
  exists fs, n, (v ++ [c]). split_and!; try done.
  - by rewrite <- !app_assoc.
  - by rewrite forallb_snoc, Hv, Hc.
Qed.

Lemma fold_push c v u rest h : in_fold v u (rest ++ [h]) -> text c = true -> (v = [] -> c <> SP) ->
  in_fold (v ++ [c]) (u ++ [c]) (rest ++ [push_value c h]).
Proof.
  intros (fs & f & ws & -> & Hl & Hfs & Hw & Hws & Hv & Hh) Hc Hsp. apply app_inj_tail in Hl as [-> ->].
  exists fs, f, ws. split_and!; try done.
  - by rewrite <- !app_assoc.
  - unfold push_value. cbn. by rewrite <- app_assoc.
  - by rewrite forallb_snoc, Hv, Hc.
  - destruct v as [|x v]; cbn in *; [|done]. intros [= ->]. by apply Hsp.
Qed.

Lemma name_push c u rest h : in_name [] u (rest ++ [h]) -> token c = true ->
  in_name [] (u ++ [c]) (rest ++ [push_name c h]).
Proof.
  intros (fs & n & -> & Hl & Hfs & Hn & Ht) Hc. apply app_inj_tail in Hl as [-> ->].
  exists fs, (n ++ [c]). split_and!; try done.
  - by rewrite !app_nil_r, <- app_assoc.
  - apply snoc_not_nil.
  - by rewrite forallb_snoc, Ht, Hc.
Qed.

(** White space at the start of a line goes on with the last header. *)
Lemma fold_starts c fs u l : fields_read fs u l -> l <> [] -> lws c = true -> in_fold [] (u ++ [c]) l.
Proof.
  intros (-> & -> & Hfs) Hne Hc. destruct (exists_last (l := fs)) as (fs' & f & ->); [by intros ->|].
  exists fs', f, [c]. rewrite map_app. cbn [map]. split_and!; try done.
  - by rewrite app_nil_r.
  - cbn. by rewrite Hc.
Qed.

Lemma fold_space c u l : in_fold [] u l -> lws c = true -> in_fold [] (u ++ [c]) l.
Proof.
  intros (fs & f & ws & -> & -> & Hfs & Hw & Hws & _ & _) Hc. exists fs, f, (ws ++ [c]).
  split_and!; try done.
  - by rewrite !app_nil_r, app_assoc.
  - apply snoc_not_nil.
  - by rewrite forallb_snoc, Hws, Hc.
Qed.

(** One step in the header lines. *)
Lemma on_back_ret st f p p' : on_back st f p = Ret INDETERMINATE p' ->
  exists rest h, headers (req p) = rest ++ [h] /\ p' = MkParser st (set_headers (rest ++ [f h]) (req p)).
Proof.
  unfold on_back, goto. destruct (reverse (headers (req p))) as [|h rest] eqn:E; [done|].
  intros [= <-]. exists (reverse rest), h. split; [|done].
  by rewrite <- (reverse_involutive (headers (req p))), E, reverse_cons.
Qed.

Definition in_header_lines (st : state) : bool :=
  match st with
  | header_line_start | header_lws | header_name | space_before_header_value | header_value
  | expecting_newline_2 | expecting_newline_3 => true
  | _ => false
  end.

(** The request line of [p] is that of [p']. *)
Definition same_line (r r' : Request) : Prop :=
  req_method r' = req_method r /\ req_uri r' = req_uri r /\
  httpVersionMajor r' = httpVersionMajor r /\ httpVersionMinor r' = httpVersionMinor r.

Lemma not_token_false c : not_token c = false -> token c = true.
Proof. unfold token. by intros ->. Qed.
Lemma not_ctl_text c : isCtl c = false -> text c = true.
Proof. unfold text. by intros ->. Qed.

(** Case analysis on a [Consume] that goes on. *)
Ltac consume Hs :=
  unfold Consume, consume_line, consume_header, expect, reject, goto, ret in Hs; cbn [state_ req] in Hs;
  repeat match type of Hs with
  | (if ?b then _ else _) _ = _ => let E := fresh "E" in destruct b eqn:E; try discriminate Hs
  | Ret (if ?b then _ else _) _ = _ => let E := fresh "E" in destruct b eqn:E; try discriminate Hs
  end; cbn beta in Hs.

Lemma header_step c p p' u : in_header_lines (state_ p) = true ->
  in_fields (state_ p) u (headers (req p)) -> Consume c p = Ret INDETERMINATE p' ->
  in_header_lines (state_ p') = true /\ in_fields (state_ p') (u ++ [c]) (headers (req p')) /\
  same_line (req p) (req p').
Proof.
  destruct p as [st r]. cbn [state_ req]. intros Hst Hin Hs.
  destruct st; try discriminate Hst; cbn [state_] in Hs; consume Hs; cbn [in_fields] in Hin.
  - injection Hs as <-. bool_props. subst c. split_and!; [done| |by split_and!].
    destruct Hin as (fs & Hf). by exists fs, u.
  - injection Hs as <-. apply andb_true_iff in E0 as [Hne Hsp]. split_and!; [done| |by split_and!].
    destruct Hin as (fs & Hf). apply (fold_starts c fs u); [done| |done].
    cbn. intros Hn. by rewrite Hn in Hne.
  - injection Hs as <-. split_and!; [done| |by split_and!]. destruct Hin as (fs & -> & Hl & Hfs).
    cbn. exists fs, [c]. split_and!; [by rewrite app_nil_r|by rewrite Hl|done|done|].
    cbn. by rewrite not_token_false.
  - injection Hs as <-. bool_props. subst c. split_and!; [done| |by split_and!].
    apply fold_closes in Hin as (fs & Hf). exists fs. by rewrite <- app_assoc.
  - injection Hs as <-. split_and!; [done| |by split_and!]. by apply fold_space.
  - apply on_back_ret in Hs as (rest & h & Hl & ->). cbn in Hl. split_and!; [done| |by split_and!].
    right. exists [c]. split; [done|]. rewrite Hl in Hin. apply (fold_push c [] u rest h Hin).
    + by apply not_ctl_text.
    + intros _ ->. done.
  - injection Hs as <-. bool_props. subst c. split_and!; [done| |by split_and!].
    destruct Hin as (fs & n & -> & ?). exists fs, n. by rewrite app_nil_r, <- !app_assoc.
  - apply on_back_ret in Hs as (rest & h & Hl & ->). cbn in Hl. split_and!; [done| |by split_and!].
    rewrite Hl in Hin. apply name_push; [done|by apply not_token_false].
  - injection Hs as <-. bool_props. subst c. split_and!; [done| |by split_and!].
    destruct Hin as (fs & n & -> & Hl & Hfs & Hn & Ht). left. exists fs, n, [].
    split_and!; try done. by rewrite <- !app_assoc.
  - injection Hs as <-. bool_props. subst c. split_and!; [done| |by split_and!]. cbn.
    assert (exists fs, fields_read fs (u ++ CRLF) (headers r)) as (fs & Hf).
    { destruct Hin as [Hin|(v & _ & Hin)]; [by apply first_closes|by apply fold_closes in Hin]. }
    exists fs. by rewrite <- app_assoc.
  - apply on_back_ret in Hs as (rest & h & Hl & ->). cbn in Hl. split_and!; [done| |by split_and!].
    rewrite Hl in Hin. apply not_ctl_text in E0. destruct Hin as [Hin|(v & Hv & Hin)].
    + left. by apply (first_push c u _ h rest).
    + right. exists (v ++ [c]). split; [apply snoc_not_nil|]. by apply fold_push.
  - injection Hs as <-. bool_props. subst c. split_and!; [done|done|by split_and!].
Qed.

(** ** The request line *)

Definition line_text (r : Request) : str := req_method r ++ [SP] ++ req_uri r ++ [SP].
Definition method_ok (r : Request) : Prop := req_method r <> [] /\ forallb token (req_method r) = true.
Definition uri_ok (r : Request) : Prop := forallb (fun c => text c && negb (c =? SP)) (req_uri r) = true.
Definition version_ok (major : str) (v : Z) : Prop := number_ok major /\ v = number_of major.

Definition in_line (st : state) (t : str) (r : Request) : Prop :=
  headers r = [] /\
  let line := line_text r in
  match st with
  | method_start => t = [] /\ req_method r = [] /\ req_uri r = []
  | method => t = req_method r /\ method_ok r /\ req_uri r = []
  | uri => t = req_method r ++ [SP] ++ req_uri r /\ method_ok r /\ uri_ok r
  | http_version_h => t = line /\ method_ok r /\ uri_ok r
  | http_version_t_1 => t = line ++ [72] /\ method_ok r /\ uri_ok r
  | http_version_t_2 => t = line ++ [72; 84] /\ method_ok r /\ uri_ok r
  | http_version_p => t = line ++ [72; 84; 84] /\ method_ok r /\ uri_ok r
  | http_version_slash => t = line ++ [72; 84; 84; 80] /\ method_ok r /\ uri_ok r
  | http_version_major_start => t = line ++ http_ /\ method_ok r /\ uri_ok r /\
      httpVersionMajor r = 0 /\ httpVersionMinor r = 0
  | http_version_major => exists ma, t = line ++ http_ ++ ma /\ method_ok r /\ uri_ok r /\
      version_ok ma (httpVersionMajor r) /\ httpVersionMinor r = 0
  | http_version_minor_start => exists ma, t = line ++ http_ ++ ma ++ [46] /\ method_ok r /\ uri_ok r /\
      version_ok ma (httpVersionMajor r) /\ httpVersionMinor r = 0
  | http_version_minor => exists ma mi, t = line ++ http_ ++ ma ++ [46] ++ mi /\ method_ok r /\ uri_ok r /\
      version_ok ma (httpVersionMajor r) /\ version_ok mi (httpVersionMinor r)
  | expecting_newline_1 => exists ma mi, t = line ++ http_ ++ ma ++ [46] ++ mi ++ [CR] /\
      method_ok r /\ uri_ok r /\
      version_ok ma (httpVersionMajor r) /\ version_ok mi (httpVersionMinor r)
  | _ => False
  end.

Definition in_request (st : state) (t : str) (r : Request) : Prop := exists ma mi u,
  t = line_text r ++ http_ ++ ma ++ [46] ++ mi ++ CRLF ++ u /\ method_ok r /\ uri_ok r /\
  version_ok ma (httpVersionMajor r) /\ version_ok mi (httpVersionMinor r) /\
  in_header_lines st = true /\ in_fields st u (headers r).

(** All of [t] has been read into [p]. *)
Definition read_so_far (t : str) (p : parser) : Prop :=
  in_line (state_ p) t (req p) \/ in_request (state_ p) t (req p).

Lemma number_of_snoc ds c : number_of (ds ++ [c]) = number_of ds * 10 + (c - 48).
Proof. unfold number_of. by rewrite foldl_snoc. Qed.

Lemma number_of_pos ds : forallb isDigit ds = true -> 0 <= number_of ds.
Proof.
  induction ds as [|c ds IH] using rev_ind; [done|]. rewrite forallb_snoc, number_of_snoc.
  unfold isDigit at 2. intros H. bool_props. specialize (IH H). lia.
Qed.

(** A digit is added to the number, or the [int] overflows. *)
Lemma add_digit_ok ds c : forallb isDigit ds = true -> isDigit c = true ->
  add_digit (number_of ds) c = if number_of (ds ++ [c]) + 48 <? 2147483648
                               then Some (number_of (ds ++ [c])) else None.
Proof.
  intros Hd Hc. pose proof (number_of_pos ds Hd). unfold isDigit in Hc. bool_props.
  rewrite number_of_snoc. unfold add_digit. rewrite (proj2 (Z.leb_le _ _)) by lia. cbn [andb].
  destruct (_ <? _) eqn:E1, (number_of ds * 10 + (c - 48) + 48 <? _) eqn:E2; bool_props; try lia; [f_equal; lia|done].
Qed.

Lemma next_digit_ret st get set c p p' ds : forallb isDigit ds = true -> isDigit c = true ->
  get (req p) = number_of ds -> next_digit st get set c p = Ret INDETERMINATE p' ->
  p' = MkParser st (set (number_of (ds ++ [c])) (req p)) /\ number_ok (ds ++ [c]).
Proof.
  intros Hd Hc Hg. unfold next_digit. rewrite Hg, add_digit_ok by done.
  destruct (_ <? _) eqn:E; [|done]. intros [= <-]. bool_props. split; [done|].
  split_and!; [apply snoc_not_nil| |done]. by rewrite forallb_snoc, Hd, Hc.
Qed.

Lemma uri_push c r : uri_ok r -> isCtl c = false -> (c =? SP) = false -> uri_ok (set_uri (req_uri r ++ [c]) r).
Proof. unfold uri_ok. cbn. intros H Hc Hs. by rewrite forallb_snoc, H, not_ctl_text, Hs. Qed.

(** Equal texts, up to the grouping of their parts. *)
Ltac by_app := unfold line_text, http_, CRLF; repeat (rewrite <- app_assoc || cbn [app]); done.

Lemma line_step c p p' t : in_line (state_ p) t (req p) -> Consume c p = Ret INDETERMINATE p' ->
  read_so_far (t ++ [c]) p'.
Proof.
  destruct p as [st r]. cbn [state_ req]. intros [Hh Hin] Hs.
  destruct st; try (by destruct Hin); consume Hs; cbn in Hin; try (bool_props; subst c);
    try (injection Hs as <-; left; split; [exact Hh|]; cbn;
         lazymatch goal with |- False => fail | _ => idtac end).
  - destruct Hin as (-> & Hm & Hu). unfold method_ok. cbn. rewrite Hm. split_and!; try done.
    cbn. by rewrite not_token_false.
  - destruct Hin as (-> & Hm & Hu). unfold uri_ok. by rewrite Hu.
  - destruct Hin as (-> & [Hm Ht] & Hu). split_and!; try done. split; cbn; [apply snoc_not_nil|].
    by rewrite forallb_snoc, Ht, not_token_false.
  - destruct Hin as (-> & Hm & Hu). split_and!; try done. by_app.
  - destruct Hin as (-> & Hm & Hu). split_and!; [by_app|done|by apply uri_push].
  - by destruct Hin as (-> & Hm & Hu).
  - destruct Hin as (-> & Hm & Hu). split_and!; [by_app|done..].
  - destruct Hin as (-> & Hm & Hu). split_and!; [by_app|done..].
  - destruct Hin as (-> & Hm & Hu). split_and!; [by_app|done..].
  - destruct Hin as (-> & Hm & Hu). split_and!; [by_app|done..].
  - destruct Hin as (-> & Hm & Hu & Hv & Hw). left.
    apply (next_digit_ret _ _ _ _ _ _ []) in Hs as [-> Hn]; [|done..].
    split; [done|]. cbn. exists [c]. split_and!; try done. by_app.
  - destruct Hin as (ma & -> & Hrest). exists ma. split; [by_app|done].
  - destruct Hin as (ma & -> & Hm & Hu & [Hok Hv] & Hw). left.
    apply (next_digit_ret _ _ _ _ _ _ ma) in Hs as [-> Hn]; [|by apply Hok|done..].
    split; [done|]. cbn. exists (ma ++ [c]). split_and!; try done. by_app.
  - destruct Hin as (ma & -> & Hm & Hu & Hv & Hw). left.
    apply (next_digit_ret _ _ _ _ _ _ []) in Hs as [-> Hn]; [|done..].
    split; [done|]. cbn. exists ma, [c]. split_and!; try done. by_app.
  - destruct Hin as (ma & mi & -> & Hrest). exists ma, mi. split; [by_app|done].
  - destruct Hin as (ma & mi & -> & Hm & Hu & Hv & [Hok Hw]). left.
    apply (next_digit_ret _ _ _ _ _ _ mi) in Hs as [-> Hn]; [|by apply Hok|done..].
    split; [done|]. cbn. exists ma, (mi ++ [c]). split_and!; try done. by_app.
  - destruct Hin as (ma & mi & -> & Hm & Hu & Hv & Hw). injection Hs as <-. right.
    exists ma, mi, []. cbn. split_and!; try done; [by_app|].
    exists []. split_and!; [done| |done]. done.
Qed.

Lemma step_read c p p' t : read_so_far t p -> Consume c p = Ret INDETERMINATE p' -> read_so_far (t ++ [c]) p'.
Proof.
  intros [Hin|(ma & mi & u & -> & Hm & Hu & Hv & Hw & Hst & Hin)] Hs; [by eapply line_step|].
  destruct (header_step c p p' u Hst Hin Hs) as (Hst' & Hin' & H1 & H2 & H3 & H4). right.
  unfold in_request, line_text, method_ok, uri_ok. rewrite H1, H2, H3, H4. exists ma, mi, (u ++ [c]).
  split_and!; try done; [by_app|by apply Hm|by apply Hm].
Qed.

(** The last character of a request. *)
Lemma step_accept c p p' t : read_so_far t p -> Consume c p = Ret TRUE_VALUE p' ->
  p' = p /\ request_text (t ++ [c]) (req p).
Proof.
  destruct p as [st r]. intros Hin Hs.
  assert (st = expecting_newline_3 /\ c = LF /\ p' = MkParser st r) as (-> & -> & ->).
  { destruct st; consume Hs; try (by unfold on_back, next_digit, goto in Hs; destruct (reverse _));
      try (by unfold next_digit, goto in Hs; destruct (add_digit _ _)).
    injection Hs as <-. bool_props. done. }
  split; [done|]. destruct Hin as [[_ Hin]|(ma & mi & u & -> & Hm & Hu & Hv & Hw & _ & Hin)]; [done|].
  destruct Hin as (fs & u' & -> & -> & Hl & Hfs). exists ma, mi, fs.
  destruct Hm, Hv, Hw. split_and!; try done. cbn [req]. by_app.
Qed.

Definition fresh (r : Request) : Prop := req_method r = [] /\ req_uri r = [] /\ headers r = [].

Lemma fresh_read r : fresh r -> read_so_far [] (MkParser RequestParser r).
Proof. intros (? & ? & ?). by left. Qed.

Lemma Parse_sound input t p p' res : read_so_far t p -> Parse input p = Ret res p' ->
  match res with
  | (INDETERMINATE, _) => read_so_far (t ++ input) p'
  | (TRUE_VALUE, _) => exists pre post, input = pre ++ post /\ request_text (t ++ pre) (req p')
  | (FALSE_VALUE, _) => True
  end.
Proof.
  revert t p. induction input as [|c input IH]; intros t p Hin Hp; cbn in Hp.
  - injection Hp as <- <-. by rewrite app_nil_r.
  - unfold bind in Hp. destruct (Consume c p) as [[| |] p1| | |] eqn:E; try done.
    + injection Hp as <- <-. destruct (step_accept _ _ _ _ Hin E) as [-> Hr]. by exists [c], input.
    + by injection Hp as <- <-.
    + specialize (IH _ _ (step_read _ _ _ _ Hin E) Hp). destruct res as [[| |] x]; [|done|].
      * destruct IH as (pre & post & -> & Hr). exists (c :: pre), post. by rewrite <- app_assoc in Hr.
      * by rewrite <- app_assoc in IH.
Qed.

(** ** The characters of a request, one part after the other *)

(** [u] is read from [p] to [p'], whatever follows it. *)
Definition reads (u : str) (p p' : parser) : Prop := forall post, Parse (u ++ post) p = Parse post p'.

Lemma reads_nil p : reads [] p p.
Proof. done. Qed.

Lemma reads_app u v p p1 p2 : reads u p p1 -> reads v p1 p2 -> reads (u ++ v) p p2.
Proof. intros Hu Hv post. by rewrite <- app_assoc, Hu, Hv. Qed.

Lemma reads_char c p p' : Consume c p = Ret INDETERMINATE p' -> reads [c] p p'.
Proof. intros Hc post. cbn. unfold bind. by rewrite Hc. Qed.

Lemma reads_cons c u p p1 p2 : Consume c p = Ret INDETERMINATE p1 -> reads u p1 p2 -> reads (c :: u) p p2.
Proof. intros Hc. by apply (reads_app [c]), reads_char. Qed.

(** A state that is kept while what it reads satisfies a condition. *)
Lemma reads_loop st (upd : str -> Request) (P : str -> Prop) :
  (forall u c, P (u ++ [c]) -> P u /\
     Consume c (MkParser st (upd u)) = Ret INDETERMINATE (MkParser st (upd (u ++ [c])))) ->
  forall u, P u -> reads u (MkParser st (upd [])) (MkParser st (upd u)).
Proof.
  intros Hstep u. induction u as [|c u IH] using rev_ind; intros Hu; [done|].
  destruct (Hstep u c Hu) as [Hp Hc]. eapply reads_app; [by apply IH|by apply reads_char].
Qed.

Lemma reads_all st (upd : str -> Request) (ok : Z -> bool) u :
  (forall u c, ok c = true -> Consume c (MkParser st (upd u)) = Ret INDETERMINATE (MkParser st (upd (u ++ [c])))) ->
  forallb ok u = true -> reads u (MkParser st (upd [])) (MkParser st (upd u)).
Proof.
  intros Hstep. apply (reads_loop st upd (fun u => forallb ok u = true)).
  intros v c. rewrite forallb_snoc. intros H. bool_props. split; [done|by apply Hstep].
Qed.

Lemma token_not_sp c : token c = true -> (c =? SP) = false /\ not_token c = false /\ (c =? 58) = false /\ (c =? CR) = false /\ lws c = false.
Proof.
  unfold token. intros H. apply negb_true_iff in H.
  repeat split; try exact H; try (destruct (Z.eqb_spec c SP) as [-> |]; done);
  try (destruct (Z.eqb_spec c 58) as [-> |]; done); try (destruct (Z.eqb_spec c CR) as [-> |]; done).
  unfold lws. destruct (Z.eqb_spec c SP) as [-> |]; [done|]. by destruct (Z.eqb_spec c HT) as [-> |].
Qed.

Lemma text_not_cr c : text c = true -> isCtl c = false /\ (c =? CR) = false.
Proof.
  unfold text. intros H. apply negb_true_iff in H. split; [done|]. by destruct (Z.eqb_spec c CR) as [-> |].
Qed.

(** The digits of a version number. *)
Lemma number_pre ds c : number_ok (ds ++ [c]) ->
  forallb isDigit ds = true /\ isDigit c = true /\ number_of ds + 48 < 2147483648.
Proof.
  intros (_ & Hd & Hn). rewrite forallb_snoc in Hd. apply andb_true_iff in Hd as [Hd Hc].
  pose proof (number_of_pos ds Hd). rewrite number_of_snoc in Hn. unfold isDigit in Hc.
  split_and!; [done..|]. bool_props. lia.
Qed.

Lemma next_digit_ok st get set ds c r : number_ok (ds ++ [c]) -> get r = number_of ds -> forall st0,
  next_digit st get set c (MkParser st0 r) = Ret INDETERMINATE (MkParser st (set (number_of (ds ++ [c])) r)).
Proof.
  intros Hok Hg st0. destruct (number_pre ds c Hok) as (Hd & Hc & _). unfold next_digit. cbn [req].
  rewrite Hg, add_digit_ok by done. destruct Hok as (_ & _ & Hn). by rewrite (proj2 (Z.ltb_lt _ _)).
Qed.

Lemma digit_classes c : isDigit c = true -> (c =? 46) = false /\ (c =? CR) = false.
Proof. unfold isDigit, CR. intros H. bool_props. split; apply Z.eqb_neq; lia. Qed.

(** A number: its first digit leads to [st], which reads the others. *)
Lemma reads_number st0 st (get : Request -> Z) set r ds : number_ok ds ->
  get r = 0 -> (forall v, get (set v r) = v) -> (forall v w, set w (set v r) = set w r) ->
  (forall c r', isDigit c = true -> Consume c (MkParser st0 r') = next_digit st get set c (MkParser st0 r')) ->
  (forall c r', isDigit c = true -> Consume c (MkParser st r') = next_digit st get set c (MkParser st r')) ->
  reads ds (MkParser st0 r) (MkParser st (set (number_of ds) r)).
Proof.
  intros Hok Hg Hget Hset H0 H1. destruct ds as [|c ds]; [by destruct Hok|].
  assert (forall u, number_ok (c :: u) -> isDigit c = true) as Hc.
  { intros u (_ & H & _). cbn in H. by apply andb_true_iff in H as [? _]. }
  assert (forall u, number_ok (c :: u) -> reads u (MkParser st (set (number_of [c]) r)) (MkParser st (set (number_of (c :: u)) r))) as Hloop.
  { apply (reads_loop st (fun u => set (number_of (c :: u)) r)). intros u x Hux.
    change (c :: u ++ [x]) with ((c :: u) ++ [x]) in Hux. pose proof (number_pre _ _ Hux) as (Hd & Hx & Hn).
    split; [by split_and!|]. rewrite H1 by done. change (c :: u ++ [x]) with ((c :: u) ++ [x]).
    rewrite (next_digit_ok _ _ _ (c :: u)); [by rewrite Hset|done|apply Hget]. }
  apply reads_cons with (MkParser st (set (number_of [c]) r)); [|by apply Hloop].
  rewrite H0 by (by eapply Hc). apply (next_digit_ok _ _ _ []); [|done].
  clear Hloop. induction ds as [|x ds IH] using rev_ind; [done|].
  apply IH. destruct (number_pre (c :: ds) x Hok) as (? & ? & ?). by split_and!.
Qed.

(** The request line of a fresh request. *)
Lemma reads_method m r : m <> [] -> forallb token m = true -> req_method r = [] ->
  reads (m ++ [SP]) (MkParser RequestParser r) (MkParser uri (set_method m r)).
Proof.
  intros Hm Ht Hr. destruct m as [|c m]; [done|]. cbn [forallb] in Ht. bool_props.
  apply reads_cons with (MkParser method (set_method [c] r)).
  { unfold Consume, consume_line, consume_header. cbn [state_]. destruct (token_not_sp c) as (_ & -> & _); [done|].
    unfold goto, set_method. cbn. by rewrite Hr. }
  eapply reads_app; [apply (reads_all method (fun u => set_method (c :: u) r) token); [|done]|by apply reads_char].
  intros u x Hx. unfold Consume, consume_line, consume_header. cbn [state_]. by destruct (token_not_sp x) as (-> & -> & _).
Qed.

Lemma reads_uri u r : forallb (fun c => text c && negb (c =? SP)) u = true -> req_uri r = [] ->
  reads (u ++ [SP]) (MkParser uri r) (MkParser http_version_h (set_uri u r)).
Proof.
  intros Hu Hr. assert (r = set_uri [] r) as Hset by (destruct r; unfold set_uri; cbn in *; by rewrite Hr).
  rewrite Hset at 1.
  apply reads_app with (MkParser uri (set_uri u r)); [|by apply reads_char].
  apply (reads_all uri (fun u => set_uri u r) (fun c => text c && negb (c =? SP))); [|done].
  intros v x Hx. bool_props. destruct (text_not_cr x) as [Hc _]; [done|].
  unfold Consume, consume_line, consume_header. cbn [state_]. by rewrite Hc, (proj2 (Z.eqb_neq _ _)) by done.
Qed.

Lemma reads_http r : reads http_ (MkParser http_version_h r) (MkParser http_version_major_start (set_minor 0 (set_major 0 r))).
Proof. unfold http_. do 5 (eapply reads_cons; [by cbn|]). apply reads_nil. Qed.

(** A digit in the states of the version. *)
Lemma major_digit st c r : st = http_version_major_start \/ st = http_version_major -> isDigit c = true ->
  Consume c (MkParser st r) = next_digit http_version_major httpVersionMajor set_major c (MkParser st r).
Proof.
  intros [-> | ->] Hc; unfold Consume, consume_line; cbn [state_]; destruct (digit_classes c Hc) as [E _]; by rewrite ?E, Hc.
Qed.

Lemma minor_digit st c r : st = http_version_minor_start \/ st = http_version_minor -> isDigit c = true ->
  Consume c (MkParser st r) = next_digit http_version_minor httpVersionMinor set_minor c (MkParser st r).
Proof.
  intros [-> | ->] Hc; unfold Consume, consume_line; cbn [state_]; destruct (digit_classes c Hc) as [_ E]; by rewrite ?E, Hc.
Qed.

Lemma reads_major ds r : number_ok ds -> httpVersionMajor r = 0 ->
  reads ds (MkParser http_version_major_start r) (MkParser http_version_major (set_major (number_of ds) r)).
Proof.
  intros Hd Hr. apply (reads_number http_version_major_start http_version_major httpVersionMajor set_major);
    [done..| |]; intros c r' Hc; apply major_digit; auto.
Qed.

Lemma reads_minor ds r : number_ok ds -> httpVersionMinor r = 0 ->
  reads ds (MkParser http_version_minor_start r) (MkParser http_version_minor (set_minor (number_of ds) r)).
Proof.
  intros Hd Hr. apply (reads_number http_version_minor_start http_version_minor httpVersionMinor set_minor);
    [done..| |]; intros c r' Hc; apply minor_digit; auto.
Qed.

Lemma reads_version major minor r : number_ok major -> number_ok minor ->
  reads (http_ ++ major ++ [46] ++ minor ++ CRLF) (MkParser http_version_h r)
        (MkParser header_line_start (set_minor (number_of minor) (set_major (number_of major) r))).
Proof.
  intros Ha Hi. eapply reads_app; [apply reads_http|]. eapply reads_app; [by apply reads_major|].
  eapply reads_cons; [by cbn|]. eapply reads_app; [by apply reads_minor|].
  eapply reads_cons; [by cbn|]. eapply reads_cons; [by cbn|]. apply reads_nil.
Qed.

(** A header and the lines it is folded into. *)
Lemma on_back_snoc st f st0 r l h : headers r = l ++ [h] ->
  on_back st f (MkParser st0 r) = Ret INDETERMINATE (MkParser st (set_headers (l ++ [f h]) r)).
Proof. intros Hl. unfold on_back. cbn [req]. by rewrite Hl, reverse_snoc, reverse_involutive. Qed.

(** The value of the last header is being read. *)
Lemma reads_value r l n v0 v : forallb text v = true ->
  reads v (MkParser header_value (set_headers (l ++ [MkHeader n v0]) r))
          (MkParser header_value (set_headers (l ++ [MkHeader n (v0 ++ v)]) r)).
Proof.
  intros Hv. rewrite <- (app_nil_r v0) at 1.
  apply (reads_all header_value (fun v => set_headers (l ++ [MkHeader n (v0 ++ v)]) r) text); [|done].
  intros u x Hx. unfold Consume, consume_line, consume_header. cbn [state_]. destruct (text_not_cr x Hx) as [-> ->].
  rewrite (on_back_snoc _ _ _ _ l (MkHeader n (v0 ++ u))) by done. unfold push_value. cbn [name value].
  by rewrite <- app_assoc.
Qed.

Lemma reads_first r l n v : n <> [] -> forallb token n = true -> forallb text v = true ->
  reads (n ++ [58; SP] ++ v ++ CRLF) (MkParser header_line_start (set_headers l r))
        (MkParser header_line_start (set_headers (l ++ [MkHeader n v]) r)).
Proof.
  intros Hn Ht Hv. destruct n as [|c n]; [done|]. cbn [forallb] in Ht. apply andb_true_iff in Ht as [Hc Ht].
  apply reads_cons with (MkParser header_name (set_headers (l ++ [MkHeader [c] []]) r)).
  { unfold Consume, consume_line, consume_header. cbn [state_ req]. destruct (token_not_sp c Hc) as (_ & -> & _ & -> & Hl).
    unfold lws in Hl. by rewrite Hl, andb_false_r. }
  eapply reads_app.
  { apply (reads_all header_name (fun u => set_headers (l ++ [MkHeader (c :: u) []]) r) token); [|done].
    intros u x Hx. unfold Consume, consume_line, consume_header. cbn [state_]. destruct (token_not_sp x Hx) as (_ & -> & -> & _).
    by rewrite (on_back_snoc _ _ _ _ l (MkHeader (c :: u) [])). }
  do 2 (eapply reads_cons; [by cbn|]).
  eapply reads_app; [by apply reads_value|]. do 2 (eapply reads_cons; [by cbn|]). apply reads_nil.
Qed.

Lemma reads_fold r l n v0 f : fold_ok f ->
  reads (render_fold f) (MkParser header_line_start (set_headers (l ++ [MkHeader n v0]) r))
        (MkParser header_line_start (set_headers (l ++ [MkHeader n (v0 ++ f.2)]) r)).
Proof.
  destruct f as [ws v]. intros (Hw & Hl & Hv & Hh). cbn [fst snd] in *. unfold render_fold. cbn [fst snd].
  set (r1 := set_headers (l ++ [MkHeader n v0]) r).
  apply reads_app with (MkParser header_lws r1).
  { destruct ws as [|c ws]; [done|]. cbn [forallb] in Hl. apply andb_true_iff in Hl as [Hc Hl].
    apply reads_cons with (MkParser header_lws r1).
    - unfold Consume, consume_line, consume_header. cbn [state_ req]. unfold lws in Hc. rewrite Hc.
      replace (c =? CR) with false by (by destruct (Z.eqb_spec c CR) as [-> |]). subst r1. cbn [headers set_headers].
      by destruct l.
    - apply (reads_all header_lws (fun _ => r1) lws); [|done]. intros u x Hx. unfold Consume, consume_line, consume_header. cbn [state_].
      unfold lws in Hx. rewrite Hx. by destruct (Z.eqb_spec x CR) as [-> |]. }
  destruct v as [|c v].
  { rewrite app_nil_r. do 2 (eapply reads_cons; [by cbn|]). apply reads_nil. }
  cbn [forallb] in Hv. apply andb_true_iff in Hv as [Hc Hv]. destruct (text_not_cr c Hc) as [Hct Hcr].
  cbn [app]. eapply reads_cons.
  { unfold Consume, consume_line, consume_header. cbn [state_]. rewrite Hcr, Hct.
    replace (c =? SP) with false by (symmetry; apply Z.eqb_neq; cbn in Hh; congruence).
    replace (c =? HT) with false by (by destruct (Z.eqb_spec c HT) as [-> |]).
    by apply (on_back_snoc _ _ _ _ l (MkHeader n v0)). }
  unfold push_value. cbn [orb name value]. rewrite (cons_middle c v0 v), app_assoc.
  eapply reads_app; [by apply (reads_value (set_headers _ r))|].
  do 2 (eapply reads_cons; [by cbn|]). apply reads_nil.
Qed.

Lemma reads_folds r l n fs : Forall fold_ok fs -> forall v0,
  reads (concat (map render_fold fs)) (MkParser header_line_start (set_headers (l ++ [MkHeader n v0]) r))
        (MkParser header_line_start (set_headers (l ++ [MkHeader n (v0 ++ concat (map snd fs))]) r)).
Proof.
  induction 1 as [|f fs Hf _ IH]; intros v0; cbn [map concat]; [by rewrite app_nil_r|].
  rewrite app_assoc. by eapply reads_app; [apply reads_fold|apply IH].
Qed.

Lemma reads_fields r fs : Forall field_ok fs -> forall l,
  reads (render_fields fs) (MkParser header_line_start (set_headers l r))
        (MkParser header_line_start (set_headers (l ++ map header_of fs) r)).
Proof.
  induction 1 as [|f fs (Hn & Ht & Hv & Hf) _ IH]; intros l; [by rewrite app_nil_r|].
  unfold render_fields. cbn [map concat]. rewrite (cons_middle (header_of f) l), app_assoc.
  eapply reads_app; [|apply IH].
  unfold render_field. rewrite !app_assoc, <- (app_assoc (_ ++ _) _ CRLF), <- !app_assoc.
  pose proof (reads_first r l _ _ Hn Ht Hv) as H1. pose proof (reads_folds r l (f_name f) _ Hf (f_value f)) as H2.
  pose proof (reads_app _ _ _ _ _ H1 H2) as H3. by rewrite <- !app_assoc in H3.
Qed.

(** A whole request, up to its last character. *)
Lemma reads_before_last t r r0 : fresh r0 -> request_text t r -> exists u,
  t = u ++ [LF] /\ reads u (MkParser RequestParser r0) (MkParser expecting_newline_3 r).
Proof.
  intros (Hm0 & Hu0 & Hh0) (major & minor & fs & -> & [Hm Ht] & Hu & [Hma Hva] & [Hmi Hvi] & Hfs & Hl).
  pose proof (reads_method _ r0 Hm Ht Hm0) as H1.
  pose proof (reads_uri _ (set_method (req_method r) r0) Hu Hu0) as H2.
  pose proof (reads_version major minor (set_uri (req_uri r) (set_method (req_method r) r0)) Hma Hmi) as H3.
  pose proof (reads_fields (set_minor (number_of minor) (set_major (number_of major)
    (set_uri (req_uri r) (set_method (req_method r) r0)))) fs Hfs []) as H4.
  pose proof (reads_app _ _ _ _ _ H1 (reads_app _ _ _ _ _ H2 H3)) as H. clear H1 H2 H3.
  destruct r0 as [? ? ? ? h0]. cbn in Hh0. subst h0.
  pose proof (reads_app _ _ _ _ _ H H4) as Hp. clear H H4.
  eexists. split; [|eapply (reads_app _ [CR]); [exact Hp|apply reads_char]].
  - by_app.
  - cbn. destruct r; cbn in *; by subst.
Qed.

Lemma reads_request t r r0 : fresh r0 -> request_text t r -> forall post,
  Parse (t ++ post) (MkParser RequestParser r0) =
  Ret (TRUE_VALUE, TRUE_VALUE) (MkParser expecting_newline_3 r).
Proof.
  intros Hf Ht post. destruct (reads_before_last _ _ _ Hf Ht) as (u & -> & Hu).
  rewrite <- app_assoc. by rewrite Hu.
Qed.

(** ** When the parser has no defined behaviour *)

(** The digits [ds] and [c] of a number whose value, with the code of the character 0
    added, is past an [int]: the program adds the last digit before it subtracts 48, so
    that this begins with 2147483600. [ds] alone was still read. *)
Definition too_big (ds : str) (c : Z) : Prop :=
  number_ok ds /\ isDigit c = true /\ 2147483648 <= number_of (ds ++ [c]) + 48.

(** The beginning of a request line up to the digit that makes a version number too big. *)
Definition version_overflows (t : str) : Prop := exists m u ds c,
  (m <> [] /\ forallb token m = true) /\ forallb (fun c => text c && negb (c =? SP)) u = true /\ too_big ds c /\
  (t = m ++ [SP] ++ u ++ [SP] ++ http_ ++ ds ++ [c] \/
   exists major, number_ok major /\ t = m ++ [SP] ++ u ++ [SP] ++ http_ ++ major ++ [46] ++ ds ++ [c]).

Lemma next_digit_ub st get set c p ds : number_ok ds -> isDigit c = true ->
  get (req p) = number_of ds -> (next_digit st get set c p = UB <-> too_big ds c).
Proof.
  intros Hok Hc Hg. unfold next_digit, too_big. rewrite Hg, add_digit_ok by (apply Hok || done).
  destruct (_ <? _) eqn:E; bool_props; (split; [intros H|intros (_ & _ & H)]); done || lia || by split_and!.
Qed.

Lemma next_digit_first st get set c p : isDigit c = true -> get (req p) = 0 -> next_digit st get set c p <> UB.
Proof.
  intros Hc Hg. unfold next_digit, add_digit. rewrite Hg. unfold isDigit in Hc. bool_props.
  rewrite (proj2 (Z.leb_le _ _)), (proj2 (Z.ltb_lt _ _)) by lia. done.
Qed.

Lemma on_back_nil st f p : on_back st f p = UB -> headers (req p) = [].
Proof.
  unfold on_back. destruct (reverse (headers (req p))) eqn:E; [|done].
  intros _. by rewrite <- (reverse_involutive (headers (req p))), E.
Qed.

(** The header lines always have a header to go on with. *)
Lemma header_defined c p u : in_header_lines (state_ p) = true ->
  in_fields (state_ p) u (headers (req p)) -> Consume c p <> UB.
Proof.
  destruct p as [st r]. cbn [state_ req]. intros Hst Hin Hs.
  destruct st; try discriminate Hst; consume Hs; apply on_back_nil in Hs; cbn in Hs; cbn in Hin; rewrite Hs in Hin.
  - destruct Hin as (fs & f & ws & _ & Hl & _). by destruct fs.
  - destruct Hin as (fs & n & _ & Hl & _). by destruct fs.
  - destruct Hin as [(fs & n & v & _ & Hl & _)|(v & _ & fs & f & ws & _ & Hl & _)]; by destruct fs.
Qed.

Lemma line_undefined c p t : in_line (state_ p) t (req p) -> Consume c p = UB -> version_overflows (t ++ [c]).
Proof.
  destruct p as [st r]. cbn [state_ req]. intros [_ Hin] Hs.
  destruct st; try (by destruct Hin); consume Hs; cbn in Hin.
  - destruct Hin as (-> & Hm & Hu & Hv & Hw). by apply next_digit_first in Hs.
  - destruct Hin as (ma & -> & Hm & Hu & [Hok Hv] & Hw). exists (req_method r), (req_uri r), ma, c.
    split; [done|]. split; [done|]. split; [by apply (next_digit_ub _ _ _ _ _ ma) in Hs|]. left. by_app.
  - destruct Hin as (ma & -> & Hm & Hu & [Hok Hv] & Hw). by apply next_digit_first in Hs.
  - destruct Hin as (ma & mi & -> & Hm & Hu & [Hok Hv] & [Hok' Hw]). exists (req_method r), (req_uri r), mi, c.
    split; [done|]. split; [done|]. split; [by apply (next_digit_ub _ _ _ _ _ mi) in Hs|]. right. exists ma. split; [done|]. by_app.
Qed.

Lemma step_undefined c p t : read_so_far t p -> Consume c p = UB -> version_overflows (t ++ [c]).
Proof.
  intros [Hin|(ma & mi & u & _ & _ & _ & _ & _ & Hst & Hin)]; [by apply line_undefined|].
  intros Hs. by apply header_defined with (c := c) in Hin.
Qed.

(** A step returns or is undefined. *)
Lemma Consume_outcome c p : (exists r p', Consume c p = Ret r p') \/ Consume c p = UB.
Proof.
  destruct p as [st r]. unfold Consume, consume_line, consume_header, expect, reject, goto, ret. cbn [state_ req].
  destruct st; repeat case_match; eauto; unfold on_back, next_digit, goto; repeat case_match; eauto.
Qed.

Lemma Parse_outcome input : forall t p, read_so_far t p ->
  (exists res p', Parse input p = Ret res p') \/
  (Parse input p = UB /\ exists pre post, input = pre ++ post /\ version_overflows (t ++ pre)).
Proof.
  induction input as [|c input IH]; intros t p Hin; cbn; [by left; do 2 eexists|].
  unfold bind. destruct (Consume_outcome c p) as [(res & p1 & E)|E]; rewrite E.
  - destruct res; [by left; do 2 eexists..|].
    destruct (IH _ _ (step_read _ _ _ _ Hin E)) as [H|(HU & pre & post & -> & Hv)]; [by left|right].
    split; [done|]. exists (c :: pre), post. by rewrite <- app_assoc in Hv.
  - right. split; [done|]. exists [c], input. split; [done|]. by eapply step_undefined.
Qed.

(** The other way round: the parser reads such a line up to its last digit. *)
Lemma Parse_undefined u c post p p' : reads u p p' -> Consume c p' = UB -> Parse ((u ++ [c]) ++ post) p = UB.
Proof. intros Hu Hc. rewrite <- app_assoc, Hu. cbn. unfold bind. by rewrite Hc. Qed.

Lemma overflow_undefined r0 pre post : fresh r0 -> version_overflows pre -> Parse (pre ++ post) (MkParser RequestParser r0) = UB.
Proof.
  intros (Hm0 & Hu0 & _) (m & u & ds & c & [Hm Ht] & Hu & [Hok [Hc Hb]] & Hpre).
  set (r1 := set_minor 0 (set_major 0 (set_uri u (set_method m r0)))).
  assert (Hline : reads (m ++ [SP] ++ u ++ [SP] ++ http_) (MkParser RequestParser r0) (MkParser http_version_major_start r1)).
  { pose proof (reads_app _ _ _ _ _ (reads_method m r0 Hm Ht Hm0) (reads_app _ _ _ _ _ (reads_uri u (set_method m r0) Hu Hu0)
      (reads_http (set_uri u (set_method m r0))))) as H. by rewrite <- !app_assoc in H. }
  destruct Hpre as [-> |(ma & Hma & ->)].
  - pose proof (reads_app _ _ _ _ _ Hline (reads_major ds r1 Hok eq_refl)) as H. rewrite <- !app_assoc in H.
    replace (m ++ _) with ((m ++ [SP] ++ u ++ [SP] ++ http_ ++ ds) ++ [c]) by by_app.
    eapply Parse_undefined; [exact H|]. rewrite major_digit by auto. by apply (next_digit_ub _ _ _ _ _ ds).
  - pose proof (reads_app _ _ _ _ _ Hline (reads_app _ _ _ _ _ (reads_major ma r1 Hma eq_refl)
      (reads_cons 46 ds (MkParser http_version_major (set_major (number_of ma) r1)) _ _ eq_refl (reads_minor ds (set_major (number_of ma) r1) Hok eq_refl)))) as H.
    rewrite <- !app_assoc in H.
    replace (m ++ _) with ((m ++ [SP] ++ u ++ [SP] ++ http_ ++ ma ++ 46 :: ds) ++ [c]) by by_app.
    eapply Parse_undefined; [exact H|]. rewrite minor_digit by auto. by apply (next_digit_ub _ _ _ _ _ ds).
Qed.

(** What [Parse] answers is the same in both parts. *)
Lemma Parse_pair input p res p' : Parse input p = Ret res p' -> res.1 = res.2.
Proof.
  revert p. induction input as [|c input IH]; intros p; cbn; [by intros [= <- <-]|].
  unfold bind. destruct (Consume c p) as [[| |] p1| | |]; try done; [by intros [= <- <-]..|apply IH].
Qed.

Lemma Parse_app a b : Parse (a ++ b) ≃
  (let* res := Parse a in match res.1 with INDETERMINATE => Parse b | _ => ret res end).
Proof.
  induction a as [|c a IH]; intros p; cbn; [done|]. unfold bind.
  destruct (Consume c p) as [[| |] p1| | |]; done.
Qed.

(** The request as it comes in, one piece after the other, until there is an answer. *)
Fixpoint parse_pieces (pieces : list str) : prog parser (ParseRet * ParseRet) :=
  match pieces with
  | [] => ret (INDETERMINATE, INDETERMINATE)
  | a :: rest => let* res := Parse a in match res.1 with INDETERMINATE => parse_pieces rest | _ => ret res end
  end.

(** ** The properties *)

(** [C12] From a fresh request, the parser answers TRUE exactly on the inputs that start
    with the text of a request, and the request it has then filled in is the one
    the text denotes: the method a token, the version two decimal numbers, each
    header with the lines it is folded into. *)
Theorem Parse_accepts r0 input r : fresh r0 ->
  (exists p', Parse input (MkParser RequestParser r0) = Ret (TRUE_VALUE, TRUE_VALUE) p' /\ req p' = r) <->
  (exists pre post, input = pre ++ post /\ request_text pre r).
Proof.
  intros Hf. split.
  - intros (p' & Hp & <-). exact (Parse_sound _ [] _ _ _ (fresh_read r0 Hf) Hp).
  - intros (pre & post & -> & Hr). eexists. by split; [apply reads_request|].
Qed.

(** However the input is cut into pieces, the parser ends with the same answer in
    the same state as on the whole of it. *)
Theorem pieces_do_not_matter pieces : parse_pieces pieces ≃ Parse (concat pieces).
Proof.
  induction pieces as [|a pieces IH]; intros p; [done|]. cbn [parse_pieces concat].
  rewrite (Parse_app a (concat pieces) p). unfold bind. by destruct (Parse a p) as [[[| |] x] p1| | |].
Qed.

(** [C26] From a fresh request the parser returns, or it is undefined, which it is exactly on
    the inputs that begin with a method, a uri, HTTP/ and a version number, major or minor,
    that is too big: whose digits, with 48 added, make 2147483648 or more, so that the
    numbers from 2147483600 to 2147483647, which an int holds, are among them. *)
Theorem undefined_only_by_version r0 input : fresh r0 ->
  ((exists res p', Parse input (MkParser RequestParser r0) = Ret res p') \/
   Parse input (MkParser RequestParser r0) = UB) /\
  (Parse input (MkParser RequestParser r0) = UB <->
   exists pre post, input = pre ++ post /\ version_overflows pre).
Proof.
  intros Hf. pose proof (Parse_outcome input [] _ (fresh_read r0 Hf)) as H. split; [|split].
  - destruct H as [H|[H _]]; [by left|by right].
  - intros HU. destruct H as [(res & p' & H)|[_ H]]; [by rewrite H in HU|exact H].
  - intros (pre & post & -> & Hv). by apply overflow_undefined.
Qed.

(** The state for the start of the uri is never entered, from the states before it
    or at all: the method leads straight to [uri], so that a request may have an
    empty uri. *)
Theorem uri_start_never input p res p' : state_ p <> uri_start ->
  Parse input p = Ret res p' -> state_ p' <> uri_start.
Proof.
  revert p. induction input as [|c input IH]; intros p Hp; cbn; [by intros [= _ <-]|].
  unfold bind. destruct (Consume c p) as [res1 p1| | |] eqn:E; try done.
  assert (state_ p1 <> uri_start) as H1.
  { destruct p as [st r]. destruct st; consume E; unfold on_back, next_digit, goto in E; repeat case_match;
      try discriminate E; by injection E as _ <-. }
  destruct res1; [by intros [= _ <-]..|by apply IH].
Qed.

(** ** Concrete requests *)

Module Demo.

Definition blank : Request := MkRequest [] [] 77 (-3) [].
(** GET / HTTP/1.1, Host: a, folded into b *)
Definition get : str := [71; 69; 84; 32; 47; 32; 72; 84; 84; 80; 47; 49; 46; 49; 13; 10;
  72; 111; 115; 116; 58; 32; 97; 13; 10; 9; 98; 13; 10; 13; 10].
Definition got : Request := MkRequest [71; 69; 84] [47] 1 1 [MkHeader [72; 111; 115; 116] [97; 98]].

Lemma Parse_accepts_witness :
  exists pre post, get ++ [65] = pre ++ post /\ request_text pre got.
Proof.
  apply (proj1 (Parse_accepts blank (get ++ [65]) got (conj eq_refl (conj eq_refl eq_refl)))).
  eexists. split; [by vm_compute|done].
Defined.

(** G, a uri that is empty, HTTP/2147483600: an int holds this number. *)
Definition huge : str := [71; 32; 32; 72; 84; 84; 80; 47; 50; 49; 52; 55; 52; 56; 51; 54; 48; 48].

Example below_returns : exists res p', Parse (removelast huge) (MkParser RequestParser blank) = Ret res p' /\
  httpVersionMajor (req p') = 214748360.
Proof. do 2 eexists. by vm_compute. Qed.

Lemma undefined_only_by_version_witness : fresh blank /\ number_of [50; 49; 52; 55; 52; 56; 51; 54; 48; 48] = 2147483600 /\
  Parse huge (MkParser RequestParser blank) = UB /\ exists pre post, huge = pre ++ post /\ version_overflows pre.
Proof.
  split; [done|]. split; [by vm_compute|]. destruct (undefined_only_by_version blank huge ltac:(done)) as [_ H].
  assert (HU : Parse huge (MkParser RequestParser blank) = UB) by by vm_compute. split; [exact HU|]. by apply H.
Defined.

Lemma uri_start_never_witness : exists p', state_ p' <> uri_start /\ req_uri (req p') = [].
Proof.
  eexists. split; [|].
  - apply (uri_start_never [71; 32; 32] (MkParser RequestParser blank) (INDETERMINATE, INDETERMINATE)); [done|].
    by vm_compute.
  - done.
Defined.

End Demo.
