(* ===== verification/HttpReply.v ===== *)
(** * Replies of the HTTP server

    Example/Network/Http/Http/Reply.cpp and Reply.h, MimeTypes.cpp: the status lines,
    the stock replies and the buffers a reply is sent from. A buffer is the bytes it
    refers to. *)

From Stdlib Require Import Ascii String.
From S2P Require Import Prelude HttpParser.

(** The characters of a literal. *)
Definition lit (s : string) : str := map (fun a => Z.of_N (N_of_ascii a)) (list_ascii_of_string s).

(** ** Status *)

Inductive StatusType :=
| ok | created | accepted | no_content
| multiple_choices | moved_permanently | moved_temporarily | not_modified
| bad_request | unauthorized | forbidden | not_found
| internal_server_error | not_implemented | bad_gateway | service_unavailable.

Record Reply := MkReply { status : StatusType; reply_headers : list Header; content : str }.

Definition status_string (s : StatusType) : str := (match s with
  | ok => lit "HTTP/1.0 200 OK"
  | created => lit "HTTP/1.0 201 Created"
  | accepted => lit "HTTP/1.0 202 Accepted"
  | no_content => lit "HTTP/1.0 204 No Content"
  | multiple_choices => lit "HTTP/1.0 300 Multiple Choices"
  | moved_permanently => lit "HTTP/1.0 301 Moved Permanently"
  | moved_temporarily => lit "HTTP/1.0 302 Moved Temporarily"
  | not_modified => lit "HTTP/1.0 304 Not Modified"
  | bad_request => lit "HTTP/1.0 400 Bad Request"
  | unauthorized => lit "HTTP/1.0 401 Unauthorized"
  | forbidden => lit "HTTP/1.0 403 Forbidden"
  | not_found => lit "HTTP/1.0 404 Not Found"
  | internal_server_error => lit "HTTP/1.0 500 Internal Server Error"
  | not_implemented => lit "HTTP/1.0 501 Not Implemented"
  | bad_gateway => lit "HTTP/1.0 502 Bad Gateway"
  | service_unavailable => lit "HTTP/1.0 503 Service Unavailable"
  end ++ CRLF)%list.

(** The page of a stock reply, of one heading. *)
Definition page (title heading : string) : str :=
  (lit "<html><head><title>" ++ lit title ++ lit "</title></head><body><h1>" ++ lit heading ++
   lit "</h1></body></html>")%list.

Definition stock_ToString (s : StatusType) : str :=
  match s with
  | ok => lit ""
  | created => page "Created" "201 Created"
  | accepted => page "Accepted" "202 Accepted"
  | no_content => page "No Content" "204 Content"
  | multiple_choices => page "Multiple Choices" "300 Multiple Choices"
  | moved_permanently => page "Moved Permanently" "301 Moved Permanently"
  | moved_temporarily => page "Moved Temporarily" "302 Moved Temporarily"
  | not_modified => page "Not Modified" "304 Not Modified"
  | bad_request => page "Bad Request" "400 Bad Request"
  | unauthorized => page "Unauthorized" "401 Unauthorized"
  | forbidden => page "Forbidden" "403 Forbidden"
  | not_found => page "Not Found" "404 Not Found"
  | internal_server_error => page "Internal Server Error" "500 Internal Server Error"
  | not_implemented => page "Not Implemented" "501 Not Implemented"
  | bad_gateway => page "Bad Gateway" "502 Bad Gateway"
  | service_unavailable => page "Service Unavailable" "503 Service Unavailable"
  end.

(** [stream << n] of a [size_t]: decimal, without leading zeros. *)
Fixpoint digits (fuel : nat) (n : Z) : str :=
  match fuel with
  | O => []
  | S fuel => if n <? 10 then [48 + n] else digits fuel (n / 10) ++ [48 + n mod 10]
  end.
Definition decimal (n : Z) : str := digits (S (Z.to_nat (Z.log2 n))) n.

Definition Content_Length : str := lit "Content-Length".
Definition Content_Type : str := lit "Content-Type".

Definition set_header (i : nat) (h : Header) (l : list Header) : list Header := <[i := h]> l.
(** [headers.resize(n)]: headers are dropped or empty ones appended. *)
Definition resize_headers (n : nat) (l : list Header) : list Header :=
  take n l ++ replicate (n - length l) (MkHeader [] []).

(** The two headers of every reply. *)
Definition describe (type : str) (rep : Reply) : Reply :=
  MkReply (status rep)
    (set_header 1 (MkHeader Content_Type type)
      (set_header 0 (MkHeader Content_Length (decimal (Z.of_nat (length (content rep)))))
        (resize_headers 2 (reply_headers rep))))
    (content rep).

Definition StockReply (s : StatusType) : Reply :=
  describe (lit "text/html") (MkReply s [] (stock_ToString s)).

Definition nameValueSeparator : str := [58; SP].

Definition header_buffers (h : Header) : list str := [name h; nameValueSeparator; value h; CRLF].

Definition ToBuffers (rep : Reply) : list str :=
  [status_string (status rep)] ++ concat (map header_buffers (reply_headers rep)) ++ [CRLF; content rep].

(** ** Media types *)

Definition mappings : list (str * str) :=
  [(lit "gif", lit "image/gif"); (lit "htm", lit "text/html"); (lit "html", lit "text/html");
   (lit "jpg", lit "image/jpeg"); (lit "png", lit "image/png")].

Fixpoint find_mapping (l : list (str * str)) (extension : str) : str :=
  match l with
  | [] => lit "text/plain"
  | (e, mimeType) :: l => if bool_decide (e = extension) then mimeType else find_mapping l extension
  end.
Definition ExtensionToType : str -> str := find_mapping mappings.

(** ** The number in Content-Length *)

Lemma digits_spec fuel : forall n, 0 <= n < 2 ^ Z.of_nat fuel -> (0 < fuel)%nat ->
  number_of (digits fuel n) = n /\ digits fuel n <> [] /\ forallb isDigit (digits fuel n) = true.
Proof.
  induction fuel as [|fuel IH]; intros n Hn Hf; [lia|]. cbn [digits].
  destruct (n <? 10) eqn:E; bool_props.
  - unfold number_of. cbn. split_and!; [lia|done|]. unfold isDigit. rewrite !(proj2 (Z.leb_le _ _)) by lia. done.
  - destruct (Z.eq_dec (Z.of_nat fuel) 0) as [H0|H0].
    { replace fuel with 0%nat in Hn by lia. cbn in Hn. lia. }
    rewrite Nat2Z.inj_succ, Z.pow_succ_r in Hn by lia.
    destruct (IH (n / 10)) as (Hv & _ & Hd); [split; [apply Z.div_pos; lia|]|lia|].
    { apply Z.div_lt_upper_bound; lia. }
    rewrite number_of_snoc, Hv, forallb_snoc, Hd. split_and!.
    + pose proof (Z.div_mod n 10). lia.
    + apply snoc_not_nil.
    + unfold isDigit. pose proof (Z.mod_pos_bound n 10). rewrite !(proj2 (Z.leb_le _ _)) by lia. done.
Qed.

Lemma decimal_spec n : 0 <= n ->
  number_of (decimal n) = n /\ decimal n <> [] /\ forallb isDigit (decimal n) = true.
Proof.
  intros Hn. apply digits_spec; [|lia]. split; [done|]. rewrite Nat2Z.inj_succ, Z2Nat.id by apply Z.log2_nonneg.
  destruct (Z.eq_dec n 0) as [-> |]; [done|]. apply Z.log2_spec. lia.
Qed.

(** ** What a client reads *)

(** What follows the first blank line. *)
Definition blank_line : str := CRLF ++ CRLF.
Fixpoint body (t : str) : option str :=
  match t with
  | [] => None
  | c :: t' => if bool_decide (take 4 t = blank_line) then Some (drop 4 t) else body t'
  end.

Definition no_cr (u : str) : bool := forallb (fun c => negb (c =? CR)) u.
Definition line_ok (u : str) : Prop := u <> [] /\ no_cr u = true.
Definition line (u : str) : str := u ++ CRLF.

Lemma body_char c t : take 4 (c :: t) <> blank_line -> body (c :: t) = body t.
Proof. intros H. cbn [body]. by rewrite bool_decide_false. Qed.

Lemma body_skip u t : no_cr u = true -> body (u ++ t) = body t.
Proof.
  induction u as [|c u IH]; cbn [no_cr forallb app]; intros H; [done|]. bool_props.
  rewrite body_char; [by apply IH|]. cbn. intros [= -> _]. done.
Qed.

Lemma body_lines ls t : Forall line_ok ls -> ls <> [] ->
  body (concat (map line ls) ++ CRLF ++ t) = Some t.
Proof.
  induction 1 as [|u ls [Hu Hc] Hls IH]; [done|]. intros _. cbn [map concat]. unfold line at 1.
  rewrite <- !app_assoc, body_skip by done. destruct Hls as [|v ls [Hv Hcv] Hls].
  - cbn. by rewrite take_0, drop_0.
  - destruct v as [|c v]; [done|]. cbn [no_cr forallb] in Hcv. apply andb_true_iff in Hcv as [Hcc _].
    specialize (IH ltac:(done)). cbn [map concat]. cbn [map concat] in IH.
    unfold line at 1. unfold line at 1 in IH. unfold CRLF at 1. cbn [app].
    rewrite body_char by (cbn; intros [= -> _]; done). by rewrite body_char.
Qed.

Definition header_line (h : Header) : str := name h ++ nameValueSeparator ++ value h.
Definition header_ok (h : Header) : Prop := no_cr (name h) = true /\ no_cr (value h) = true.

Lemma header_line_ok h : header_ok h -> line_ok (header_line h).
Proof.
  intros [Hn Hv]. unfold header_line. split; [by destruct (name h)|].
  unfold no_cr in *. rewrite !forallb_app, Hn, Hv. done.
Qed.

Definition status_line (s : StatusType) : str := take (length (status_string s) - 2) (status_string s).

Lemma status_line_ok s : status_string s = line (status_line s) /\ line_ok (status_line s).
Proof. unfold line_ok. by destruct s; split_and!. Qed.

Lemma header_buffers_lines l :
  concat (concat (map header_buffers l)) = concat (map line (map header_line l)).
Proof.
  induction l as [|h l IH]; [done|]. cbn [map concat]. rewrite concat_app, IH.
  unfold header_buffers, line, header_line. cbn [concat]. by rewrite app_nil_r, <- !app_assoc.
Qed.

Lemma ToBuffers_lines rep : concat (ToBuffers rep) =
  concat (map line (status_line (status rep) :: map header_line (reply_headers rep))) ++ CRLF ++ content rep.
Proof.
  unfold ToBuffers. rewrite !concat_app, header_buffers_lines. cbn [map concat]. rewrite !app_nil_r.
  destruct (status_line_ok (status rep)) as [-> _]. by rewrite <- app_assoc.
Qed.

(** A client that skips to the first blank line finds the content. *)
Lemma body_reply rep : Forall header_ok (reply_headers rep) -> body (concat (ToBuffers rep)) = Some (content rep).
Proof.
  intros Hh. rewrite ToBuffers_lines. apply body_lines; [|done].
  constructor; [apply status_line_ok|]. apply Forall_map. eapply Forall_impl; [exact Hh|apply header_line_ok].
Qed.

Lemma digits_no_cr u : forallb isDigit u = true -> no_cr u = true.
Proof.
  unfold no_cr. induction u as [|c u IH]; [done|]. cbn. intros H. bool_props. rewrite IH by done.
  by destruct (digit_classes c) as [_ ->].
Qed.

Lemma describe_headers type rep : reply_headers (describe type rep) =
  [MkHeader Content_Length (decimal (Z.of_nat (length (content rep)))); MkHeader Content_Type type].
Proof. cbn. unfold resize_headers. by destruct (reply_headers rep) as [|? [|? []]]. Qed.

(** What makes a reply readable: its content follows the first blank line and has
    the length the first header says. *)
Definition framed (type : str) (rep : Reply) : Prop :=
  body (concat (ToBuffers rep)) = Some (content rep) /\
  exists d, reply_headers rep = [MkHeader Content_Length d; MkHeader Content_Type type] /\
    forallb isDigit d = true /\ number_of d = Z.of_nat (length (content rep)).

Lemma describe_framed type rep : no_cr type = true -> framed type (describe type rep).
Proof.
  intros Ht. destruct (decimal_spec (Z.of_nat (length (content rep)))) as (Hn & _ & Hd); [lia|].
  split; [|by rewrite describe_headers; eexists].
  apply body_reply. rewrite describe_headers. repeat constructor; cbn [name value]; [|done].
  by apply digits_no_cr.
Qed.

Lemma ExtensionToType_ok e : no_cr (ExtensionToType e) = true.
Proof. unfold ExtensionToType, mappings, find_mapping. by repeat case_bool_decide. Qed.
