(* ===== verification/HttpHandler.v ===== *)
(** * The request handler of the HTTP server

    Example/Network/Http/Http/RequestHandler.cpp: decoding the uri, refusing what
    leaves the document root, and reading the file. The file system is a parameter:
    [open path] is the content of the file an [ifstream] of that path opens. *)

From Stdlib Require Import String.
From S2P Require Import Prelude HttpParser HttpReply.

(** ** Decoding a uri *)

(** The value of an [int] cast to [char]. *)
Definition to_char (v : Z) : Z := let m := v mod 256 in if m <? 128 then m else m - 256.

Definition isspace (c : Z) : bool := ((9 <=? c) && (c <=? 13)) || (c =? 32).
Definition hex_digit (c : Z) : option Z :=
  if isDigit c then Some (c - 48)
  else if (97 <=? c) && (c <=? 102) then Some (c - 87)
  else if (65 <=? c) && (c <=? 70) then Some (c - 55)
  else None.

Fixpoint skip_spaces (s : str) : str :=
  match s with c :: s' => if isspace c then skip_spaces s' else s | [] => [] end.
(** The digits at the front, most significant first; [None] when there is none. *)
Fixpoint hex_digits (acc : option Z) (s : str) : option Z :=
  match s with
  | [] => acc
  | c :: s' =>
      match hex_digit c with
      | Some d => hex_digits (Some (default 0 acc * 16 + d)) s'
      | None => acc
      end
  end.
Definition hex_prefix (s : str) : str :=
  match s with
  | c :: x :: s' => if (c =? 48) && ((x =? 120) || (x =? 88)) then s' else s
  | _ => s
  end.

(** [is >> std::hex >> value]: white space, a sign, 0x, digits; no more than two
    characters are ever given, so that no [int] overflows. *)
Definition extract_hex (s : str) : option Z :=
  match skip_spaces s with
  | c :: s' =>
      if c =? 43 then hex_digits None (hex_prefix s')
      else if c =? 45 then Z.opp <$> hex_digits None (hex_prefix s')
      else hex_digits None (hex_prefix (c :: s'))
  | [] => None
  end.

(** [for(i = 0; i < in.size(); ++i)]; the state is [out]. *)
Fixpoint url_loop (fuel : nat) (i : nat) (s : str) : prog str bool := fun out =>
  match fuel with
  | O => OutOfFuel
  | S fuel =>
      match s !! i with
      | None => Ret true out
      | Some c =>
          if c =? 37 then
            if (i + 3 <=? length s)%nat then
              match extract_hex (take 2 (drop (i + 1) s)) with
              | Some value => url_loop fuel (i + 2 + 1) s (out ++ [to_char value])
              | None => Ret false out
              end
            else Ret false out
          else if c =? 43 then url_loop fuel (i + 1) s (out ++ [32])
          else url_loop fuel (i + 1) s (out ++ [c])
      end
  end.

Definition _UrlDecode (s : str) : prog str bool := fun _ => url_loop (S (length s)) 0 s [].

(** The same without an index. *)
Fixpoint decode (s : str) : option str :=
  match s with
  | [] => Some []
  | c :: s' =>
      if c =? 37 then
        match s' with
        | a :: b :: s'' =>
            match extract_hex [a; b] with Some v => cons (to_char v) <$> decode s'' | None => None end
        | _ => None
        end
      else if c =? 43 then cons 32 <$> decode s'
      else cons c <$> decode s'
  end.

(** ** Paths *)

Definition slash : Z := 47.
Definition dot : Z := 46.

Fixpoint find_dots (s : str) : bool :=
  match s with [] => false | c :: s' => bool_decide (take 2 s = [dot; dot]) || find_dots s' end.

(** [find_last_of], [None] for [npos]. *)
Fixpoint find_last_of (c : Z) (s : str) : option nat :=
  match s with
  | [] => None
  | x :: s' => match find_last_of c s' with Some i => Some (S i) | None => if x =? c then Some 0%nat else None end
  end.

Definition bad_path (p : str) : bool :=
  match p with [] => true | c :: _ => negb (c =? slash) || find_dots p end.

Definition add_index (p : str) : str :=
  if bool_decide (last p = Some slash) then p ++ lit "index.html" else p.

Definition extension_of (p : str) : str :=
  match find_last_of slash p, find_last_of dot p with
  | Some last_slash_pos, Some last_dot_pos =>
      if (last_slash_pos <? last_dot_pos)%nat then drop (last_dot_pos + 1) p else []
  | _, _ => []
  end.


(** [while(is.read(buf, 512).gcount() > 0) content.append(buf, gcount())]: a read
    that gets less than it asks for leaves the stream failed, and the next one gets
    nothing. The state is [content]. *)
Fixpoint read_file (fuel : nat) (good : bool) (rest : str) : prog str unit := fun content =>
  match fuel with
  | O => OutOfFuel
  | S fuel =>
      let gcount := if good then Nat.min 512 (length rest) else 0%nat in
      if (0 <? gcount)%nat
      then read_file fuel (good && (512 <=? length rest)%nat) (drop gcount rest) (content ++ take gcount rest)
      else Ret tt content
  end.

Section Handler.
Context (open : str -> option str) (docRoot_ : str).

Definition HandleRequest (fuel : nat) (req : Request) : prog Reply unit := fun rep =>
  match _UrlDecode (req_uri req) [] with
  | Ret true request_path =>
      if bad_path request_path then Ret tt (StockReply bad_request)
      else
        let request_path := add_index request_path in
        let extension := extension_of request_path in
        match open (c_str (docRoot_ ++ request_path)) with
        | None => Ret tt (StockReply not_found)
        | Some file =>
            match read_file fuel true file (content rep) with
            | Ret _ content =>
                Ret tt (describe (ExtensionToType extension) (MkReply ok (reply_headers rep) content))
            | Throw e content => Throw e (MkReply ok (reply_headers rep) content)
            | UB => UB
            | OutOfFuel => OutOfFuel
            end
        end
  | Ret false _ => Ret tt (StockReply bad_request)
  | Throw e _ => Throw e rep
  | UB => UB
  | OutOfFuel => OutOfFuel
  end.

End Handler.

(** ** Decoding *)

Lemma url_loop_decode fuel : forall i s out, (i <= length s)%nat -> (length s - i < fuel)%nat ->
  match decode (drop i s) with
  | Some d => url_loop fuel i s out = Ret true (out ++ d)
  | None => exists out', url_loop fuel i s out = Ret false out'
  end.
Proof.
  induction fuel as [|fuel IH]; intros i s out Hi Hf; [lia|]. cbn [url_loop].
  destruct (s !! i) as [c|] eqn:Hc.
  2:{ apply lookup_ge_None in Hc. rewrite drop_ge by done. cbn. by rewrite app_nil_r. }
  pose proof (lookup_lt_Some _ _ _ Hc) as Hlt. rewrite (drop_S _ _ _ Hc). cbn [decode].
  assert (forall x, match decode (drop (S i) s) with
    | Some d => url_loop fuel (i + 1) s (out ++ [x]) = Ret true (out ++ x :: d)
    | None => exists out', url_loop fuel (i + 1) s (out ++ [x]) = Ret false out'
    end) as Hnext.
  { intros x. specialize (IH (S i) s (out ++ [x])). rewrite Nat.add_1_r.
    destruct (decode (drop (S i) s)); [rewrite IH by lia; by rewrite <- app_assoc|apply IH; lia]. }
  destruct (c =? 37).
  - rewrite (Nat.add_1_r i). destruct (i + 3 <=? length s)%nat eqn:H3.
    + apply Nat.leb_le in H3. destruct (drop (S i) s) as [|a [|b s2]] eqn:Hd;
        [apply (f_equal length) in Hd; rewrite length_drop in Hd; cbn in Hd; lia..|].
      cbn [take]. rewrite take_0. destruct (extract_hex [a; b]) as [v|]; [|by eexists].
      assert (drop (i + 2 + 1) s = s2) as Hs2.
      { replace (i + 2 + 1)%nat with (S i + 2)%nat by lia. by rewrite <- drop_drop, Hd. }
      specialize (IH (i + 2 + 1)%nat s (out ++ [to_char v])). rewrite Hs2 in IH.
      destruct (decode s2); cbn; [rewrite IH by lia; by rewrite <- app_assoc|apply IH; lia].
    + apply Nat.leb_gt in H3. destruct (drop (S i) s) as [|a [|b s2]] eqn:Hd; [by eexists..|].
      apply (f_equal length) in Hd; rewrite length_drop in Hd; cbn in Hd; lia.
  - destruct (c =? 43).
    + specialize (Hnext 32). by destruct (decode (drop (S i) s)).
    + specialize (Hnext c). by destruct (decode (drop (S i) s)).
Qed.

Lemma UrlDecode_decode s out : match decode s with
  | Some d => _UrlDecode s out = Ret true d
  | None => exists out', _UrlDecode s out = Ret false out'
  end.
Proof. unfold _UrlDecode. apply (url_loop_decode (S (length s)) 0 s []); lia. Qed.

(** The digit of a half byte, in either case. *)
Definition hex_of (d c : Z) : Prop := hex_digit c = Some d /\ 0 <= d < 16.

(** [t] is a way to write [s] in a uri: a character for itself, plus for a space, or
    two hexadecimal digits after a percent sign. *)
Inductive encodes : str -> str -> Prop :=
| encodes_nil : encodes [] []
| encodes_self c t s : c <> 37 -> c <> 43 -> encodes t s -> encodes (c :: t) (c :: s)
| encodes_space t s : encodes t s -> encodes (43 :: t) (32 :: s)
| encodes_hex h l ch cl c t s : hex_of h ch -> hex_of l cl -> -128 <= c < 128 ->
    c mod 256 = h * 16 + l -> encodes t s -> encodes (37 :: ch :: cl :: t) (c :: s).

Lemma hex_digit_class c d : hex_digit c = Some d ->
  isspace c = false /\ (c =? 43) = false /\ (c =? 45) = false /\ (c =? 120) = false /\ (c =? 88) = false.
Proof.
  unfold hex_digit, isspace, isDigit. intros H. repeat case_match; try done; bool_props;
  split_and!; try (apply Z.eqb_neq; lia); apply orb_false_iff; (split; [apply andb_false_iff; right; apply Z.leb_gt; lia|apply Z.eqb_neq; lia]).
Qed.

Lemma extract_two h l ch cl : hex_of h ch -> hex_of l cl -> extract_hex [ch; cl] = Some (h * 16 + l).
Proof.
  intros [Hh _] [Hl _]. unfold extract_hex. cbn [skip_spaces].
  destruct (hex_digit_class _ _ Hh) as (-> & -> & -> & _).
  destruct (hex_digit_class _ _ Hl) as (_ & _ & _ & Hx & HX).
  unfold hex_prefix. rewrite Hx, HX, andb_false_r. cbn [hex_digits]. rewrite Hh. by rewrite Hl.
Qed.

Lemma encodes_decode t s : encodes t s -> decode t = Some s.
Proof.
  induction 1 as [|c t s H1 H2 _ IH|t s _ IH|h l ch cl c t s Hh Hl Hc Hm _ IH]; cbn [decode]; [done|..].
  - by rewrite !(proj2 (Z.eqb_neq _ _)), IH.
  - cbn. by rewrite IH.
  - cbn [Z.eqb Pos.eqb]. rewrite (extract_two h l), IH by done. cbn. do 2 f_equal.
    unfold to_char. rewrite <- Hm, Z.mod_mod by lia. pose proof (Z.mod_pos_bound c 256). pose proof (Z.div_mod c 256).
    destruct (c mod 256 <? 128) eqn:E; bool_props; lia.
Qed.

(** ** What is opened *)

Definition has_dots (s : str) : Prop := exists a b, s = a ++ [dot; dot] ++ b.

Lemma find_dots_spec s : find_dots s = true <-> has_dots s.
Proof.
  induction s as [|c s IH]; cbn [find_dots]; [by split; [|intros ([] & ? & ?)]|].
  rewrite orb_true_iff, IH, bool_decide_eq_true. split.
  - intros [Ht|(a & b & ->)]; [|by exists (c :: a), b].
    exists [], (drop 2 (c :: s)). rewrite <- (take_drop 2 (c :: s)) at 1. by rewrite Ht.
  - intros ([|x a] & b & H); [left|right].
    + injection H as -> ->. done.
    + injection H as -> ->. by exists a, b.
Qed.

(** [q] is a path from the root down. *)
Definition safe (q : str) : Prop := head q = Some slash /\ ~ has_dots q /\ 0 ∉ q.

Lemma has_dots_app a b : has_dots (a ++ b) -> has_dots a \/ has_dots b \/ (last a = Some dot /\ head b = Some dot).
Proof.
  intros (x & y & H). apply app_eq_inv in H as [(k & -> & H)|(k & Ha & H)].
  - destruct k as [|c1 [|c2 k]]; cbn in H.
    + right. left. exists [], y. done.
    + injection H as <- <-. right. right. by rewrite last_snoc.
    + injection H as <- <- ->. left. by exists x, k.
  - subst. right. left. by exists k, y.
Qed.

Lemma bad_path_false p : bad_path p = false -> head p = Some slash /\ ~ has_dots p.
Proof.
  destruct p as [|c p]; [done|]. unfold bad_path. intros H. bool_props. subst c. split; [done|].
  rewrite <- find_dots_spec. congruence.
Qed.

Lemma index_dots : ~ has_dots (lit "index.html").
Proof. rewrite <- find_dots_spec. by vm_compute. Qed.

Lemma add_index_safe p : head p = Some slash -> ~ has_dots p ->
  head (add_index p) = Some slash /\ ~ has_dots (add_index p).
Proof.
  intros Hh Hd. unfold add_index. case_bool_decide as Hl; [|done]. split; [by destruct p|].
  intros [H|[H|[H _]]]%has_dots_app; [done|by apply index_dots|by rewrite H in Hl].
Qed.

Lemma c_str_safe p : head p = Some slash -> ~ has_dots p -> safe (c_str p).
Proof.
  intros Hh Hd. destruct (c_str_prefix p) as (rest & Hp & H0). split_and!; [by destruct p as [|x p]; [done|]; injection Hh as -> | |done].
  intros (a & b & H). apply Hd. rewrite Hp, H. exists a, (b ++ rest). by rewrite <- !app_assoc.
Qed.

(** The path that is opened, when the uri is not refused. *)
Definition opened_path (docRoot_ request_path : str) : str := c_str (docRoot_ ++ add_index request_path).

Lemma opened_safe docRoot_ p : 0 ∉ docRoot_ -> bad_path p = false ->
  exists q, opened_path docRoot_ p = docRoot_ ++ q /\ safe q.
Proof.
  intros Hr [Hh Hd]%bad_path_false. destruct (add_index_safe p Hh Hd).
  unfold opened_path. rewrite c_str_app by done. eexists. by split; [|apply c_str_safe].
Qed.

(** ** Reading *)

Lemma read_file_all fuel : forall good rest content, (length rest / 512 + 1 < fuel)%nat ->
  read_file fuel good rest content = Ret tt (content ++ if good then rest else []).
Proof.
  induction fuel as [|fuel IH]; intros good rest content Hf; [lia|]. cbn [read_file].
  destruct good; [|by cbn; rewrite app_nil_r]. destruct (0 <? Nat.min 512 (length rest))%nat eqn:E.
  2:{ apply Nat.ltb_ge in E. destruct rest; [by rewrite app_nil_r|cbn [length] in E; lia]. }
  destruct (512 <=? length rest)%nat eqn:E2; cbn [andb].
  - apply Nat.leb_le in E2. rewrite Nat.min_l by done. rewrite IH.
    + by rewrite <- app_assoc, take_drop.
    + rewrite length_drop. assert (length rest / 512 = (length rest - 512) / 512 + 1)%nat; [|lia].
      replace (length rest) with ((length rest - 512) + 1 * 512)%nat at 1 by lia. by rewrite Nat.div_add.
  - apply Nat.leb_gt in E2. rewrite Nat.min_r by lia. rewrite drop_all, take_ge by done.
    by destruct fuel; [rewrite Nat.div_small in Hf by lia; lia|].
Qed.

(** ** The handler *)

(** What the handler does, branch by branch. *)
Definition reply_for (open : str -> option str) (docRoot_ : str) (req : Request) (rep : Reply) : Reply :=
  match decode (req_uri req) with
  | Some p =>
      if bad_path p then StockReply bad_request
      else match open (opened_path docRoot_ p) with
           | Some file => describe (ExtensionToType (extension_of (add_index p)))
                            (MkReply ok (reply_headers rep) (content rep ++ file))
           | None => StockReply not_found
           end
  | None => StockReply bad_request
  end.

(** Enough fuel to read every file. *)
Definition enough (open : str -> option str) (fuel : nat) : Prop :=
  forall p file, open p = Some file -> (length file / 512 + 1 < fuel)%nat.

Lemma handle_request open docRoot_ fuel req rep : enough open fuel ->
  HandleRequest open docRoot_ fuel req rep = Ret tt (reply_for open docRoot_ req rep).
Proof.
  intros Hf. unfold HandleRequest, reply_for. pose proof (UrlDecode_decode (req_uri req) []) as Hd.
  destruct (decode (req_uri req)) as [p|]; [|by destruct Hd as [? ->]].
  rewrite Hd. destruct (bad_path p); [done|]. unfold opened_path.
  destruct (open _) as [file|] eqn:E; [|done]. by rewrite read_file_all by (by eapply Hf).
Qed.

Lemma reply_for_ext open1 open2 docRoot_ req rep : 0 ∉ docRoot_ ->
  (forall q, safe q -> open1 (docRoot_ ++ q) = open2 (docRoot_ ++ q)) ->
  reply_for open1 docRoot_ req rep = reply_for open2 docRoot_ req rep.
Proof.
  intros Hr Ho. unfold reply_for. destruct (decode (req_uri req)) as [p|]; [|done].
  destruct (bad_path p) eqn:E; [done|]. destruct (opened_safe docRoot_ p Hr E) as (q & -> & Hq).
  by rewrite Ho.
Qed.

Lemma reply_for_framed open docRoot_ req rep : exists type, framed type (reply_for open docRoot_ req rep).
Proof.
  unfold reply_for. repeat case_match; eexists; apply describe_framed; try done. apply ExtensionToType_ok.
Qed.

(** ** A NUL in the path *)

Lemma find_last_none c s : c ∉ s -> find_last_of c s = None.
Proof.
  induction s as [|x s IH]; [done|]. rewrite not_elem_of_cons. intros [Hx Hs]. cbn.
  rewrite IH by done. by rewrite (proj2 (Z.eqb_neq _ _)).
Qed.

Lemma find_last_app c a b : find_last_of c (a ++ b) =
  match find_last_of c b with Some i => Some (length a + i)%nat | None => find_last_of c a end.
Proof.
  induction a as [|x a IH]; cbn; [by destruct (find_last_of c b)|]. rewrite IH. by destruct (find_last_of c b).
Qed.

Lemma find_last_some c s : c ∈ s -> exists i, find_last_of c s = Some i /\ (i < length s)%nat.
Proof.
  induction s as [|x s IH]; [by rewrite elem_of_nil|]. rewrite elem_of_cons. intros H. cbn.
  destruct (find_last_of c s) as [i|] eqn:E.
  - exists (S i). split; [done|]. destruct IH as (j & [= ->] & Hj); [|lia].
    destruct (decide (c ∈ s)) as [|Hn]; [done|]. by rewrite find_last_none in E.
  - destruct H as [-> |H]; [rewrite Z.eqb_refl; exists 0%nat; split; [done|lia]|].
    by destruct IH as (? & ? & ?).
Qed.

(** The path [p], a NUL, a dot and [ext]. *)
Lemma extension_after_nul p ext : slash ∈ p -> slash ∉ ext -> dot ∉ ext -> ext <> [] ->
  add_index (p ++ [0; dot] ++ ext) = p ++ [0; dot] ++ ext /\ extension_of (p ++ [0; dot] ++ ext) = ext.
Proof.
  intros Hp Hs Hd Hne. split.
  - unfold add_index. rewrite bool_decide_false; [done|]. destruct (exists_last Hne) as (e & c & ->).
    rewrite !app_assoc, last_snoc. intros [= ->]. apply Hs, elem_of_app. right. by apply list_elem_of_singleton.
  - unfold extension_of. rewrite !find_last_app, (find_last_none slash ext), (find_last_none dot ext) by done. cbn [find_last_of].
    destruct (find_last_some _ _ Hp) as (i & Hi & Hlt). rewrite Hi.
    change (dot =? dot) with true. change (0 =? slash) with false. change (dot =? slash) with false. cbn match.
    rewrite (proj2 (Nat.ltb_lt _ _)) by lia. rewrite drop_app_ge by lia.
    replace (length p + 1 + 1 - length p)%nat with 2%nat by lia. done.
Qed.

(** ** The properties *)

(** [C33] The index loop decodes a uri to every text it is an encoding of. *)
Theorem UrlDecode_encodes t s out : encodes t s -> _UrlDecode t out = Ret true s.
Proof. intros H%encodes_decode. pose proof (UrlDecode_decode t out) as Hd. by rewrite H in Hd. Qed.

(** The index loop is the decoding of the uri piece by piece; a percent sign without
    two characters after it, or with two that are no number, is an error. *)
Theorem UrlDecode_reference s out : match decode s with
  | Some d => _UrlDecode s out = Ret true d
  | None => exists out', _UrlDecode s out = Ret false out'
  end.
Proof. apply UrlDecode_decode. Qed.

(** [C18] The reply depends on no file outside the document root: two file systems that
    agree on the paths below it, without dots, give the same reply. *)
Theorem stays_below_root open1 open2 docRoot_ fuel req rep : 0 ∉ docRoot_ ->
  enough open1 fuel -> enough open2 fuel ->
  (forall q, safe q -> open1 (docRoot_ ++ q) = open2 (docRoot_ ++ q)) ->
  HandleRequest open1 docRoot_ fuel req rep = HandleRequest open2 docRoot_ fuel req rep.
Proof. intros Hr H1 H2 Ho. rewrite !handle_request by done. by rewrite (reply_for_ext open1 open2). Qed.

(** The handler always fills in a reply a client can read: the content follows the
    first blank line and has the length of Content-Length; it is the whole file, a
    stock page when the uri is refused or names no file. *)
Theorem HandleRequest_replies open docRoot_ fuel req rep : enough open fuel ->
  HandleRequest open docRoot_ fuel req rep = Ret tt (reply_for open docRoot_ req rep) /\
  exists type, framed type (reply_for open docRoot_ req rep).
Proof. intros Hf. split; [by apply handle_request|apply reply_for_framed]. Qed.

(** A uri may name a file by a path that goes on after a NUL: the file before the NUL
    is sent, with the media type of what follows. *)
Theorem nul_changes_type open docRoot_ fuel req rep p ext file : enough open fuel -> 0 ∉ docRoot_ ->
  decode (req_uri req) = Some (p ++ [0; dot] ++ ext) -> bad_path (p ++ [0; dot] ++ ext) = false ->
  0 ∉ p -> slash ∈ p -> slash ∉ ext -> dot ∉ ext -> ext <> [] -> open (docRoot_ ++ p) = Some file ->
  exists rep', HandleRequest open docRoot_ fuel req rep = Ret tt rep' /\
    content rep' = content rep ++ file /\
    exists d, reply_headers rep' = [MkHeader Content_Length d; MkHeader Content_Type (ExtensionToType ext)].
Proof.
  intros Hf Hr Hd Hb H0 Hp Hs He Hne Ho. rewrite handle_request by done. eexists. split; [done|].
  destruct (extension_after_nul p ext Hp Hs He Hne) as [Hi Hx].
  assert (opened_path docRoot_ (p ++ [0; dot] ++ ext) = docRoot_ ++ p) as Hop.
  { unfold opened_path. rewrite Hi, c_str_app by done. rewrite c_str_app by done. by rewrite app_nil_r. }
  unfold reply_for. rewrite Hd, Hb, Hop, Ho, Hi, Hx. split; [done|].
  rewrite describe_headers. by eexists.
Qed.

(** ** Concrete requests *)

Module Demo.
Local Open Scope string_scope.
Local Open Scope list_scope.

(** A file below the root and one outside. *)
Definition files (p : str) : option str :=
  if bool_decide (p = lit "/www/a.txt") then Some (lit "hello")
  else if bool_decide (p = lit "/secret") then Some (lit "key") else None.
Definition fewer (p : str) : option str := if bool_decide (p = lit "/secret") then None else files p.
Definition asks (uri : string) : Request := MkRequest (lit "GET") (lit uri) 1 0 [].
Definition empty : Reply := MkReply ok [] [].

Lemma files_enough : enough files 10 /\ enough fewer 10.
Proof. split; intros p file; unfold fewer, files; repeat case_bool_decide; intros [= <-]; cbn; lia. Qed.

(** a b%, with an escaped letter, a plus for the space and an escaped percent sign *)
Lemma UrlDecode_encodes_witness : _UrlDecode (lit "%61+b%25") [] = Ret true (lit "a b%").
Proof.
  apply UrlDecode_encodes. cbn.
  apply (encodes_hex 6 1); [by split|by split|lia|done|].
  apply encodes_space, encodes_self; [done..|].
  apply (encodes_hex 2 5); [by split|by split|lia|done|apply encodes_nil].
Defined.

Lemma stays_below_root_witness :
  files (lit "/secret") <> fewer (lit "/secret") /\
  HandleRequest files (lit "/www") 10 (asks "/%2e%2e/secret") empty =
  HandleRequest fewer (lit "/www") 10 (asks "/%2e%2e/secret") empty.
Proof.
  split; [by vm_compute|]. apply stays_below_root; [by apply (bool_decide_unpack _); vm_compute|apply files_enough..|].
  intros q _. unfold fewer. by case_bool_decide.
Defined.

Lemma HandleRequest_replies_witness : exists rep,
  HandleRequest files (lit "/www") 10 (asks "/a.txt") empty = Ret tt rep /\ content rep = lit "hello" /\
  exists type, framed type rep.
Proof.
  destruct (HandleRequest_replies files (lit "/www") 10 (asks "/a.txt") empty (proj1 files_enough)) as [H1 H2].
  eexists. split; [exact H1|]. split; [by vm_compute|exact H2].
Defined.

Lemma nul_changes_type_witness : exists rep,
  HandleRequest files (lit "/www") 10 (asks "/a.txt%00.html") empty = Ret tt rep /\
  content rep = lit "hello" /\
  exists d, reply_headers rep = [MkHeader Content_Length d; MkHeader Content_Type (lit "text/html")].
Proof.
  apply (nul_changes_type files (lit "/www") 10 (asks "/a.txt%00.html") empty (lit "/a.txt") (lit "html"));
    try (by vm_compute); try (by apply (bool_decide_unpack _); vm_compute). apply files_enough.
Defined.

End Demo.
