(* ===== verification/HttpConnection.v ===== *)
(** * Connections of the HTTP server

    Example/Network/Http/Http/Connection.cpp, ConnectionMgr.cpp and Server.cpp: what
    each completion of an asynchronous operation does, and the set of connections
    the manager keeps. The asynchronous operations of the socket are posted here and
    complete in events; whether posting one throws is the event's [posts]. *)

From Stdlib Require Import String.
From S2P Require Import Prelude HttpParser HttpReply HttpHandler.

Definition ERROR_OPERATION_ABORTED : Z := 995.

(** The buffer a reply is copied into, by its operations and their laws. *)
Class AutoBuffer (B : Type) := {
  resize : nat -> B -> B;
  write_at : nat -> str -> B -> B;   (* copy to data(index) *)
  bytes : B -> str
}.
Class AutoBufferLaws (B : Type) `{AutoBuffer B} := {
  bytes_resize n b : length (bytes (resize n b)) = n;
  bytes_write i l b : (i + length l <= length (bytes b))%nat ->
    bytes (write_at i l b) = take i (bytes b) ++ l ++ drop (i + length l) (bytes b)
}.

(** ** One connection *)

Inductive operation := Reading | Writing (sent : str).

Section Connection.
Context {B : Type} `{AutoBuffer B}.
Context (open : str -> option str) (docRoot_ : str) (fuel : nat).

Record connection := MkConnection {
  parser_ : parser;
  reply_ : Reply;
  socketBuffer_ : B;
  pending : list operation;     (* operations of the socket that have not completed *)
  written : list str;           (* the buffers given to [async_write], latest last *)
  shut : bool;                  (* [shutdown] of the socket was called *)
  closed : bool;                (* [close] of the socket was called *)
  registered : bool             (* in the manager's set *)
}.

Definition set_parser p c := MkConnection p (reply_ c) (socketBuffer_ c) (pending c) (written c) (shut c) (closed c) (registered c).
Definition set_reply r c := MkConnection (parser_ c) r (socketBuffer_ c) (pending c) (written c) (shut c) (closed c) (registered c).
Definition set_buffer b c := MkConnection (parser_ c) (reply_ c) b (pending c) (written c) (shut c) (closed c) (registered c).
Definition set_pending l w c := MkConnection (parser_ c) (reply_ c) (socketBuffer_ c) l w (shut c) (closed c) (registered c).
Definition set_ended s d g c := MkConnection (parser_ c) (reply_ c) (socketBuffer_ c) (pending c) (written c) s d g.

(** [socket_.async_read(...)], which throws when it cannot be posted. *)
Definition async_read (posts : bool) : prog connection unit := fun c =>
  if posts then Ret tt (set_pending (pending c ++ [Reading]) (written c) c) else Throw network_exception c.
Definition async_write (posts : bool) (l : str) : prog connection unit := fun c =>
  if posts then Ret tt (set_pending (pending c ++ [Writing l]) (written c ++ [l]) c)
  else Throw network_exception c.

Definition Start (posts : bool) : prog connection unit := async_read posts.
Definition Stop : prog connection unit := fun c => Ret tt (set_ended (shut c) true (registered c) c).

(** [connectionMgr_.Start], [connectionMgr_.Stop] of this connection. *)
Definition mgr_Start (posts : bool) : prog connection unit := fun c =>
  Start posts (set_ended (shut c) (closed c) true c).
Definition mgr_Stop : prog connection unit := fun c => Stop (set_ended (shut c) (closed c) false c).

Fixpoint copy_buffers (index : nat) (bufs : list str) (b : B) : B :=
  match bufs with
  | [] => b
  | l :: bufs => copy_buffers (index + length l) bufs (write_at index l b)
  end.
Definition total_size (bufs : list str) : nat := foldl (fun total l => (total + length l)%nat) 0%nat bufs.
Definition _CopyBuffer (bufs : list str) : prog connection unit := fun c =>
  Ret tt (set_buffer (copy_buffers 0 bufs (resize (total_size bufs) (socketBuffer_ c))) c).

Definition on_parser {A} (m : prog parser A) : prog connection A := fun c =>
  match m (parser_ c) with
  | Ret a p => Ret a (set_parser p c)
  | Throw e p => Throw e (set_parser p c)
  | UB => UB
  | OutOfFuel => OutOfFuel
  end.
Definition on_reply {A} (m : prog Reply A) : prog connection A := fun c =>
  match m (reply_ c) with
  | Ret a r => Ret a (set_reply r c)
  | Throw e r => Throw e (set_reply r c)
  | UB => UB
  | OutOfFuel => OutOfFuel
  end.

(** [_CopyBuffer(reply_.ToBuffers()); async_write(...)] *)
Definition write_reply (posts : bool) : prog connection unit := fun c =>
  (_CopyBuffer (ToBuffers (reply_ c)) ;;;
   (fun c => async_write posts (bytes (socketBuffer_ c)) c)) c.

(** The body of the [try]: [data] are the [bytes] characters read into [buffer_]. *)
Definition handle_data (data : str) (posts : bool) : prog connection unit :=
  let* result := on_parser (Parse data) in
  match result.1 with
  | TRUE_VALUE =>
      (fun c => on_reply (HandleRequest open docRoot_ fuel (req (parser_ c))) c) ;;; write_reply posts
  | FALSE_VALUE => on_reply (fun _ => Ret tt (StockReply bad_request)) ;;; write_reply posts
  | INDETERMINATE => async_read posts
  end.
(** [catch(std::exception &)] *)
Definition on_exception (e : exn) : prog connection unit :=
  match e with foreign => throw e | _ => mgr_Stop end.

Definition _HandleRead (error : Z) (data : str) (posts : bool) : prog connection unit :=
  if (error =? ERROR_OPERATION_ABORTED) || (Z.of_nat (length data) =? 0) then mgr_Stop
  else if error =? 0 then try_catch (handle_data data posts) on_exception
  else ret tt.

Definition _HandleWrite (error : Z) : prog connection unit :=
  (if error =? 0 then fun c => Ret tt (set_ended true (closed c) (registered c) c) else ret tt) ;;;
  mgr_Stop.

(** A completion of an operation, the oldest of its kind. *)
Inductive completion :=
| Read_done (error : Z) (data : str) (posts : bool)
| Write_done (error : Z).

Definition is_reading (o : operation) : bool := match o with Reading => true | _ => false end.

Definition complete (e : completion) : prog connection unit := fun c =>
  match e, pending c with
  | Read_done error data posts, Reading :: rest => _HandleRead error data posts (set_pending rest (written c) c)
  | Write_done error, Writing _ :: rest => _HandleWrite error (set_pending rest (written c) c)
  | _, _ => UB
  end.

Fixpoint completions (l : list completion) : prog connection unit :=
  match l with [] => ret tt | e :: l => complete e ;;; completions l end.

Definition new_connection (r : Request) (rep : Reply) (b : B) : connection :=
  MkConnection (MkParser RequestParser r) rep b [] [] false false false.

End Connection.

(** ** The reply that is copied *)

Section Copy.
Context {B : Type} `{AutoBufferLaws B}.

Lemma copy_buffers_spec bufs : forall i b, (i + length (concat bufs) = length (bytes b))%nat ->
  bytes (copy_buffers i bufs b) = take i (bytes b) ++ concat bufs.
Proof.
  induction bufs as [|l bufs IH]; intros i b Hl; cbn [copy_buffers concat] in *.
  - rewrite app_nil_r, take_ge; [done|]. cbn in Hl. lia.
  - rewrite length_app in Hl. assert (bytes (write_at i l b) = take i (bytes b) ++ l ++ drop (i + length l) (bytes b)) as Hw
      by (apply bytes_write; lia).
    rewrite IH; rewrite Hw.
    + rewrite (app_assoc (take i (bytes b)) l), take_app_length', <- app_assoc; [done|].
      rewrite length_app, length_take. lia.
    + rewrite !length_app, length_take, length_drop. lia.
Qed.

Lemma total_size_concat bufs : total_size bufs = length (concat bufs).
Proof.
  unfold total_size. assert (forall n, foldl (fun total l => (total + length l)%nat) n bufs = (n + length (concat bufs))%nat) as Hn; [|apply Hn].
  induction bufs as [|l bufs IH]; intros n; cbn; [lia|]. rewrite IH, length_app. lia.
Qed.

Lemma CopyBuffer_concat bufs (c : connection (B := B)) : exists b,
  _CopyBuffer bufs c = Ret tt (set_buffer b c) /\ bytes b = concat bufs.
Proof.
  eexists. split; [done|]. rewrite copy_buffers_spec; [by rewrite take_0|].
  by rewrite bytes_resize, total_size_concat.
Qed.

End Copy.

(** ** One connection from its start to its end *)

Section Life.
Context {B : Type} `{AutoBufferLaws B}.
Context (open : str -> option str) (docRoot_ : str) (fuel : nat).
Local Abbreviation conn := (connection (B := B)).

(** A strict prefix of a request gives no answer. *)
Lemma prefix_indeterminate a b r r0 : fresh r0 -> request_text (a ++ b) r -> b <> [] ->
  exists p, Parse a (MkParser RequestParser r0) = Ret (INDETERMINATE, INDETERMINATE) p.
Proof.
  intros Hf Ht Hb. destruct (reads_before_last _ _ _ Hf Ht) as (u & Hu & Hr).
  destruct (exists_last Hb) as (b' & x & ->). rewrite app_assoc in Hu. apply app_inj_tail in Hu as [<- _].
  specialize (Hr []). rewrite app_nil_r in Hr. rewrite (Parse_app a b' _) in Hr. unfold bind in Hr.
  destruct (Parse a _) as [[x1 x2] p| | |] eqn:E; try done. pose proof (Parse_pair _ _ _ _ E) as Hp. cbn in Hp.
  subst x2. destruct x1; [done..|by exists p].
Qed.

Lemma HandleRead_data data posts (c : conn) : data <> [] ->
  _HandleRead open docRoot_ fuel 0 data posts c =
  try_catch (handle_data open docRoot_ fuel data posts) on_exception c.
Proof.
  intros Hd. unfold _HandleRead. change (0 =? ERROR_OPERATION_ABORTED) with false.
  rewrite (proj2 (Z.eqb_neq (Z.of_nat _) 0)); [done|]. destruct data; [done|cbn [length]; lia].
Qed.

(** A read that leaves the parser undecided reads on. *)
Lemma read_on d (c : conn) p : pending c = [Reading] -> d <> [] ->
  Parse d (parser_ c) = Ret (INDETERMINATE, INDETERMINATE) p ->
  complete open docRoot_ fuel (Read_done 0 d true) c = Ret tt (set_parser p c).
Proof.
  intros Hr Hd Hp. cbn [complete]. rewrite Hr, HandleRead_data by done.
  unfold try_catch, handle_data. erewrite bind_ret by (unfold on_parser; cbn [parser_ set_pending]; by rewrite Hp).
  destruct c. cbn in *. by subst.
Qed.

Lemma reads_on ds (c : conn) p : pending c = [Reading] -> Forall (fun d => d <> []) ds ->
  Parse (concat ds) (parser_ c) = Ret (INDETERMINATE, INDETERMINATE) p ->
  completions open docRoot_ fuel (map (fun d => Read_done 0 d true) ds) c = Ret tt (set_parser p c).
Proof.
  intros Hr Hd. revert c Hr. induction Hd as [|d ds Hd _ IH]; intros c Hr Hp.
  - injection Hp as <-. by destruct c.
  - cbn [concat] in Hp. rewrite (Parse_app d (concat ds) _) in Hp. unfold bind in Hp.
    destruct (Parse d (parser_ c)) as [[x1 x2] p1| | |] eqn:E; try done.
    pose proof (Parse_pair _ _ _ _ E) as Hx. cbn in Hx. subst x2. destruct x1; [done..|]. cbn in Hp.
    cbn [map completions]. unfold bind. rewrite (read_on d c p1) by done.
    rewrite (IH (set_parser p1 c)); by destruct c.
Qed.

(** The reply of a connection whose request is complete. *)
Lemma write_reply_spec (c : conn) : exists b, write_reply true c =
  Ret tt (set_pending (pending c ++ [Writing (concat (ToBuffers (reply_ c)))])
            (written c ++ [concat (ToBuffers (reply_ c))]) (set_buffer b c)).
Proof.
  destruct (CopyBuffer_concat (ToBuffers (reply_ c)) c) as (b & Hc & Hb). exists b.
  unfold write_reply, bind. rewrite Hc. unfold async_write. cbn [socketBuffer_ set_buffer]. by rewrite Hb.
Qed.

Lemma read_last d (c : conn) p : pending c = [Reading] -> d <> [] -> enough open fuel ->
  Parse d (parser_ c) = Ret (TRUE_VALUE, TRUE_VALUE) p ->
  let rep := reply_for open docRoot_ (req p) (reply_ c) in
  exists b, complete open docRoot_ fuel (Read_done 0 d true) c =
    Ret tt (set_pending [Writing (concat (ToBuffers rep))] (written c ++ [concat (ToBuffers rep)])
              (set_buffer b (set_reply rep (set_parser p c)))).
Proof.
  intros Hr Hd Hf Hp rep. cbn [complete]. rewrite Hr, HandleRead_data by done. unfold try_catch, handle_data.
  erewrite bind_ret by (unfold on_parser; cbn [parser_ set_pending]; by rewrite Hp). cbn [fst].
  erewrite bind_ret by (unfold on_reply; cbn [parser_ reply_ set_parser set_pending]; by rewrite handle_request).
  destruct (write_reply_spec (set_reply rep (set_parser p (set_pending [] (written c) c)))) as (b & Hw).
  exists b. subst rep. by rewrite Hw.
Qed.

Lemma Write_done_spec (c : conn) l : pending c = [Writing l] ->
  complete open docRoot_ fuel (Write_done 0) c =
  Ret tt (set_ended true true false (set_pending [] (written c) c)).
Proof. intros Hp. destruct c. cbn in *. by subst. Qed.

Lemma completions_app l1 l2 (c : conn) : completions open docRoot_ fuel (l1 ++ l2) c =
  (completions open docRoot_ fuel l1 ;;; completions open docRoot_ fuel l2) c.
Proof.
  revert c. induction l1 as [|e l1 IH]; intros c; [done|]. cbn. unfold bind.
  destruct (complete open docRoot_ fuel e c); [|done..]. apply IH.
Qed.

(** ** What a connection can be in *)

Definition phase (c : conn) : Prop :=
  registered c = negb (closed c) /\
  ((pending c = [Reading] /\ written c = []) \/
   (exists l, pending c = [Writing l] /\ written c = [l]) \/
   (pending c = [] /\ (length (written c) <= 1)%nat)).

Definition possible (e : completion) (c : conn) : Prop :=
  match e with
  | Read_done _ _ _ => head (pending c) = Some Reading
  | Write_done _ => exists l, head (pending c) = Some (Writing l)
  end.

Lemma phase_stopped (c : conn) : pending c = [] -> (length (written c) <= 1)%nat ->
  phase (set_ended (shut c) true false c).
Proof. intros Hp Hw. split; [done|]. by right; right. Qed.

(** A reply is written, or the connection is stopped. *)
Lemma answer_phase posts (c : conn) : pending c = [] -> written c = [] ->
  registered c = negb (closed c) -> exists c',
  try_catch (write_reply posts) on_exception c = Ret tt c' /\ phase c'.
Proof.
  intros Hp Hw Hg. unfold try_catch, write_reply.
  destruct (CopyBuffer_concat (ToBuffers (reply_ c)) c) as (b & Hb & _).
  rewrite (bind_ret _ _ _ _ _ Hb). unfold async_write. destruct posts; eexists; (split; [done|]).
  - split; [done|]. right. left. cbn. rewrite Hp, Hw. by eexists.
  - apply phase_stopped; cbn; rewrite ?Hw; [done|cbn; lia].
Qed.

Lemma Parse_returns input p : (exists res p', Parse input p = Ret (res, res) p') \/ Parse input p = UB.
Proof.
  revert p. induction input as [|c input IH]; intros p; cbn; [by left; do 2 eexists|]. unfold bind.
  destruct (Consume_outcome c p) as [(res & p' & ->) | ->]; [|by right].
  destruct res; [by left; do 2 eexists..|apply IH].
Qed.

Lemma HandleRead_phase error data posts (c : conn) : enough open fuel ->
  pending c = [] -> written c = [] -> registered c = negb (closed c) ->
  (exists c', _HandleRead open docRoot_ fuel error data posts c = Ret tt c' /\ phase c') \/
  (_HandleRead open docRoot_ fuel error data posts c = UB /\ error = 0 /\ Parse data (parser_ c) = UB).
Proof.
  intros Hf Hp Hw Hg. unfold _HandleRead. destruct (_ || _).
  { left. eexists. split; [done|]. apply phase_stopped; cbn; rewrite ?Hw; [done|cbn; lia]. }
  destruct (error =? 0) eqn:E; bool_props.
  2:{ left. eexists. split; [done|]. split; [done|]. right. right. rewrite Hp, Hw. cbn. split; [done|lia]. }
  unfold try_catch, handle_data, bind at 1, on_parser.
  destruct (Parse_returns data (parser_ c)) as [(res & p & ->)|Hu]; [|right; unfold bind; by rewrite Hu].
  left. destruct res; cbn [fst].
  - unfold bind at 1, on_reply. cbn [reply_ parser_ set_parser]. rewrite handle_request by done.
    by apply answer_phase.
  - unfold bind at 1, on_reply. by apply answer_phase.
  - unfold async_read. destruct posts; eexists; (split; [done|]).
    + split; [done|]. left. cbn. by rewrite Hp, Hw.
    + apply phase_stopped; cbn; rewrite ?Hw; [done|cbn; lia].
Qed.

Lemma complete_phase e (c : conn) : enough open fuel -> phase c -> possible e c ->
  (exists c', complete open docRoot_ fuel e c = Ret tt c' /\ phase c') \/
  (complete open docRoot_ fuel e c = UB /\ exists data posts, e = Read_done 0 data posts /\
    Parse data (parser_ c) = UB).
Proof.
  intros Hf Hph He. destruct e as [error data posts|error]; cbn [possible] in He.
  - destruct Hph as (Hg & [(Hp & Hw)|[(l & Hp & _)|(Hp & _)]]); rewrite Hp in He; try done.
    cbn [complete]. rewrite Hp.
    destruct (HandleRead_phase error data posts (set_pending [] (written c) c)) as [H'| (H' & -> & Hu)]; try done;
      [by left|right]. split; [done|]. by exists data, posts.
  - destruct He as (l & He). destruct Hph as (Hg & [(Hp & _)|[(l' & Hp & Hw)|(Hp & _)]]); rewrite Hp in He; try done.
    left. cbn [complete]. rewrite Hp. unfold _HandleWrite. destruct (error =? 0); eexists;
      (split; [done|]); apply phase_stopped; cbn; rewrite ?Hw; (done || cbn; lia).
Qed.

(** ** The properties of a connection *)

(** [C21] A request that arrives in pieces, none of them empty, is answered once, with the
    reply of the handler to the request the pieces spell; when that is sent, the
    connection shuts its socket down, closes it and leaves the manager. *)
Theorem request_is_answered r0 rep0 b0 pieces last post r : fresh r0 -> enough open fuel ->
  Forall (fun d => d <> []) pieces -> request_text (concat pieces ++ last) r -> last <> [] ->
  let reply := concat (ToBuffers (reply_for open docRoot_ r rep0)) in
  exists c, (mgr_Start true ;;;
    completions open docRoot_ fuel
      (map (fun d => Read_done 0 d true) pieces ++ [Read_done 0 (last ++ post) true; Write_done 0]))
    (new_connection r0 rep0 b0) = Ret tt c /\
  written c = [reply] /\ pending c = [] /\ shut c = true /\ closed c = true /\ registered c = false.
Proof.
  intros Hf He Hd Ht Hl reply. destruct (prefix_indeterminate _ _ _ _ Hf Ht Hl) as (p & Hp).
  set (c0 := set_pending [Reading] [] (set_ended false false true (new_connection r0 rep0 b0))).
  assert (Parse (last ++ post) p = Ret (TRUE_VALUE, TRUE_VALUE) (MkParser expecting_newline_3 r)) as Hlast.
  { pose proof (reads_request _ _ _ Hf Ht post) as Hr. rewrite <- app_assoc in Hr.
    rewrite (Parse_app (concat pieces) _ _) in Hr. unfold bind in Hr. by rewrite Hp in Hr. }
  rewrite (bind_ret _ _ _ tt c0) by done. rewrite completions_app.
  rewrite (bind_ret _ _ _ tt (set_parser p c0)) by (by apply reads_on).
  destruct (read_last (last ++ post) (set_parser p c0) (MkParser expecting_newline_3 r)) as (b & Hb); try done.
  { by destruct last. }
  cbn [completions]. rewrite (bind_ret _ _ _ _ _ Hb). cbn [req reply_ set_parser] in Hb.
  lazymatch type of Hb with _ = Ret tt ?c1 => pose proof (Write_done_spec c1 reply eq_refl) as Hw end.
  rewrite (bind_ret _ _ _ _ _ Hw). by eexists.
Qed.

(** Whatever its operations complete with, a connection has at most one outstanding,
    writes at most once, and is in the manager exactly as long as its socket is
    open; its handlers let no exception out, and are undefined only where the parser
    is. *)
Theorem connection_life e (c : conn) : enough open fuel -> phase c -> possible e c ->
  (exists c', complete open docRoot_ fuel e c = Ret tt c' /\ phase c') \/
  (complete open docRoot_ fuel e c = UB /\ exists data posts, e = Read_done 0 data posts /\
    Parse data (parser_ c) = UB).
Proof. apply complete_phase. Qed.

(** A read that fails with some bytes, other than by a cancellation, leaves the
    connection with its socket open, in the manager, and nothing to come. *)
Theorem failed_read_stalls error data posts (c : conn) : pending c = [Reading] ->
  error <> 0 -> error <> ERROR_OPERATION_ABORTED -> data <> [] ->
  complete open docRoot_ fuel (Read_done error data posts) c = Ret tt (set_pending [] (written c) c) /\
  forall e, ~ possible e (set_pending [] (written c) c).
Proof.
  intros Hp He Ha Hd. split.
  - cbn [complete]. rewrite Hp. unfold _HandleRead. rewrite !(proj2 (Z.eqb_neq _ _)); try done.
    destruct data; [done|cbn [length]; lia].
  - intros [|]; cbn; [done|by intros (? & ?)].
Qed.

End Life.

(** ** The server and its connections *)

Module Server.
Section Server.
Context {B : Type} `{AutoBufferLaws B}.
Context (open : str -> option str) (docRoot_ : str) (fuel : nat).
(** What a new [Connection] holds before anything is read into it. *)
Context (r0 : Request) (rep0 : Reply) (b0 : B).
Local Abbreviation conn := (connection (B := B)).

(** The set of the manager is the registered connections; [accepting] counts the
    accepts that have not completed. *)
Record server := MkServer { acceptor_open : bool; accepting : nat; connections : list conn }.

(** [acceptor_.async_accept(...)] of a new socket. *)
Definition Start (posts : bool) : prog server unit := fun s =>
  if posts then Ret tt (MkServer (acceptor_open s) (S (accepting s)) (connections s))
  else Throw network_exception s.

(** [connection(new Connection(...)); connectionMgr_.Start(connection)] *)
Definition start_connection (posts : bool) : prog server unit := fun s =>
  match mgr_Start posts (new_connection r0 rep0 b0) with
  | Ret _ c => Ret tt (MkServer (acceptor_open s) (accepting s) (connections s ++ [c]))
  | Throw e c => Throw e (MkServer (acceptor_open s) (accepting s) (connections s ++ [c]))
  | UB => UB
  | OutOfFuel => OutOfFuel
  end.

Definition _HandleAccept (error : Z) (reads accepts : bool) : prog server unit :=
  if negb (error =? 0) then ret tt
  else try_catch (start_connection reads ;;; Start accepts)
         (fun e => match e with foreign => throw e | _ => ret tt end).

(** [ConnectionMgr::StopAll]: every connection in the set is stopped, then the set
    is cleared. *)
Definition stop_one (c : conn) : connection :=
  if registered c then set_ended (shut c) true false c else c.
Definition StopAll : prog server unit := fun s =>
  Ret tt (MkServer (acceptor_open s) (accepting s) (map stop_one (connections s))).

Definition _HandleStop : prog server unit :=
  (fun s => Ret tt (MkServer false (accepting s) (connections s))) ;;; StopAll.

Inductive event :=
| Accepted (error : Z) (reads accepts : bool)
| Completed (i : nat) (e : completion)
| Stopped.

Definition exec (ev : event) : prog server unit := fun s =>
  match ev with
  | Accepted error reads accepts =>
      match accepting s with
      | S n => _HandleAccept error reads accepts (MkServer (acceptor_open s) n (connections s))
      | O => UB
      end
  | Completed i e =>
      match connections s !! i with
      | Some c =>
          match complete open docRoot_ fuel e c with
          | Ret _ c' => Ret tt (MkServer (acceptor_open s) (accepting s) (<[i := c']> (connections s)))
          | Throw x c' => Throw x (MkServer (acceptor_open s) (accepting s) (<[i := c']> (connections s)))
          | UB => UB
          | OutOfFuel => OutOfFuel
          end
      | None => UB
      end
  | Stopped => _HandleStop s
  end.

Fixpoint run (l : list event) : prog server unit :=
  match l with [] => ret tt | ev :: l => exec ev ;;; run l end.

Definition started : server := MkServer true 1 [].

(** ** What a server can be in *)

(** A connection whose start failed is in the set with its socket open, and waits
    for nothing. *)
Definition wf (s : server) : Prop := (accepting s <= 1)%nat /\ Forall phase (connections s).

Definition event_possible (ev : event) (s : server) : Prop :=
  match ev with
  | Accepted _ _ _ => accepting s <> 0%nat
  | Completed i e => exists c, connections s !! i = Some c /\ possible e c
  | Stopped => True
  end.

Lemma HandleAccept_wf error reads accepts s : accepting s = 0%nat -> Forall phase (connections s) ->
  exists s', _HandleAccept error reads accepts s = Ret tt s' /\ wf s' /\
    (accepting s' = 0%nat <-> error <> 0 \/ reads = false \/ accepts = false).
Proof.
  intros Ha Hc. unfold _HandleAccept. destruct (Z.eqb_spec error 0) as [-> |He]; cbn [negb].
  2:{ eexists. split; [done|]. split; [split; [lia|done]|]. by split; [left|]. }
  assert (forall c, phase c -> Forall phase (connections s ++ [c])) as Hph
    by (intros c Hp; apply Forall_app; by split; [|apply Forall_singleton]).
  unfold try_catch, bind, start_connection, Start. destruct reads.
  - assert (phase (set_pending [Reading] [] (set_ended false false true (new_connection r0 rep0 b0)))) as Hp
      by (split; [done|by left]).
    destruct accepts; eexists; (split; [done|]); unfold wf; cbn [accepting connections]; rewrite Ha.
    + split; [split; [lia|by apply Hph]|]. split; [done|]. by intros [|[|]].
    + split; [split; [lia|by apply Hph]|]. split; [by right; right|done].
  - eexists. split; [done|]. unfold wf. cbn [accepting connections]. rewrite Ha.
    split; [split; [lia|]|split; [by right; left|done]].
    apply Hph. split; [done|]. right. right. split; [done|cbn; lia].
Qed.

Lemma stop_one_phase c : phase c -> phase (stop_one c) /\ closed (stop_one c) = true /\ registered (stop_one c) = false.
Proof.
  intros [Hg Hp]. unfold stop_one. destruct (registered c) eqn:E; [by split_and!|].
  split_and!; [by split; [rewrite E|]| |done]. by destruct (closed c).
Qed.

Lemma exec_wf ev s : enough open fuel -> wf s -> event_possible ev s ->
  (exists s', exec ev s = Ret tt s' /\ wf s') \/
  (exec ev s = UB /\ exists i c data posts, ev = Completed i (Read_done 0 data posts) /\
     connections s !! i = Some c /\ Parse data (parser_ c) = UB).
Proof.
  intros Hf [Ha Hc] He. destruct ev as [error reads accepts|i e|]; cbn [exec event_possible] in *.
  - left. destruct (accepting s) as [|n] eqn:En; [done|].
    destruct (HandleAccept_wf error reads accepts (MkServer (acceptor_open s) n (connections s))) as (s' & Hs & Hw & _);
      [cbn; lia|done|]. by exists s'.
  - destruct He as (c & Hi & Hp). rewrite Hi. pose proof (proj1 (Forall_lookup phase _) Hc i c Hi) as Hph.
    destruct (complete_phase open docRoot_ fuel e c Hf Hph Hp) as [(c' & -> & Hph')|(-> & data & posts & -> & Hu)].
    + left. eexists. split; [done|]. split; [done|]. by apply Forall_insert.
    + right. split; [done|]. by exists i, c, data, posts.
  - left. eexists. split; [done|]. split; [done|]. cbn. apply Forall_map. eapply Forall_impl; [exact Hc|].
    intros c Hp. by apply stop_one_phase.
Qed.

(** Completions that come one after the other, each of an operation under way. *)
Inductive reachable : server -> Prop :=
| reach_start : reachable started
| reach_step ev s s' : reachable s -> event_possible ev s -> exec ev s = Ret tt s' -> reachable s'.

Lemma reachable_wf s : enough open fuel -> reachable s -> wf s.
Proof.
  intros Hf. induction 1 as [|ev s s' _ IH Hp Hs]; [split; [cbn; lia|constructor]|].
  destruct (exec_wf ev s Hf IH Hp) as [(s1 & Hs1 & Hw)|(Hu & _)]; congruence.
Qed.

(** ** The properties of the server *)

(** The server never fails: whatever completes, in whatever order, its handler
    returns, unless the parser is undefined on what was read; and every connection
    stays in the manager as long as its socket is open. *)
Theorem server_goes_on ev s : enough open fuel -> reachable s -> event_possible ev s ->
  (exists s', exec ev s = Ret tt s' /\
     Forall (fun c => registered c = negb (closed c)) (connections s')) \/
  (exec ev s = UB /\ exists i c data posts, ev = Completed i (Read_done 0 data posts) /\
     connections s !! i = Some c /\ Parse data (parser_ c) = UB).
Proof.
  intros Hf Hr Hp. destruct (exec_wf ev s Hf (reachable_wf s Hf Hr) Hp) as [(s' & Hs & _ & Hc)|Hu]; [left|by right].
  exists s'. split; [done|]. eapply Forall_impl; [exact Hc|]. by intros c [? _].
Qed.

(** A stop closes the acceptor and the socket of every connection, and empties the
    manager's set. *)
Theorem stop_closes_all s : enough open fuel -> reachable s -> exists s',
  exec Stopped s = Ret tt s' /\ acceptor_open s' = false /\
  length (connections s') = length (connections s) /\
  Forall (fun c => closed c = true /\ registered c = false) (connections s').
Proof.
  intros Hf Hr. destruct (reachable_wf s Hf Hr) as [_ Hc]. eexists. split; [done|]. cbn.
  split_and!; [done|by rewrite length_map|]. apply Forall_map. eapply Forall_impl; [exact Hc|].
  intros c Hp. by destruct (stop_one_phase c Hp) as (_ & ? & ?).
Qed.

(** After an accept that fails, or a connection or an accept that cannot be started,
    the server accepts nothing any more. *)
Theorem failed_accept_ends_accepting error reads accepts s s' : enough open fuel -> reachable s ->
  exec (Accepted error reads accepts) s = Ret tt s' -> error <> 0 \/ reads = false \/ accepts = false ->
  accepting s' = 0%nat /\ forall error' reads' accepts', ~ event_possible (Accepted error' reads' accepts') s'.
Proof.
  intros Hf Hr Hs Hb. destruct (reachable_wf s Hf Hr) as [Ha Hc]. cbn [exec] in Hs.
  destruct (accepting s) as [|n] eqn:En; [done|].
  destruct (HandleAccept_wf error reads accepts (MkServer (acceptor_open s) n (connections s))) as (s1 & Hs1 & _ & Hw);
    [cbn; lia|done|].
  assert (s1 = s') as -> by congruence. apply Hw in Hb. split; [done|]. cbn. intros _ _ _ Hn. by apply Hn.
Qed.

End Server.
End Server.

(** ** A concrete server *)

#[export] Instance list_buffer : AutoBuffer (list Z) := {
  resize n b := take n b ++ replicate (n - length b) 0;
  write_at i l b := take i b ++ l ++ drop (i + length l) b;
  bytes b := b
}.
#[export] Instance list_buffer_laws : AutoBufferLaws (list Z).
Proof. split; [|done]. intros n b. cbn. rewrite length_app, length_take, length_replicate. lia. Qed.

Module Demo.
Import HttpParser.Demo HttpHandler.Demo.
Local Open Scope string_scope.
Local Open Scope list_scope.

Definition site : str := lit "/www".
Definition head_ : str := lit "GET /a.txt HTTP/1.0" ++ CRLF.
Definition request : Request := MkRequest (lit "GET") (lit "/a.txt") 1 0 [].

Lemma request_reads : request_text (concat [head_] ++ CRLF) request.
Proof.
  exists [49], [48], []. split_and!; try done; try (by vm_compute); repeat split; try done; by vm_compute.
Qed.

Lemma request_is_answered_witness : exists c,
  (mgr_Start true ;;;
    completions files site 10
      (map (fun d => Read_done 0 d true) [head_] ++ [Read_done 0 (CRLF ++ [65]) true; Write_done 0]))
    (new_connection blank empty ([] : str)) = Ret tt c /\
  written c = [concat (ToBuffers (reply_for files site request empty))] /\
  pending c = [] /\ shut c = true /\ closed c = true /\ registered c = false.
Proof.
  apply (request_is_answered files site 10 blank empty ([] : str) [head_] CRLF [65] request);
    [done|apply files_enough|by apply (bool_decide_unpack _); vm_compute|apply request_reads|done].
Defined.

Definition reading : connection (B := str) :=
  set_pending [Reading] [] (set_ended false false true (new_connection blank empty ([] : str))).

Lemma connection_life_witness :
  (exists c, complete files site 10 (Read_done 0 (lit "?") true) reading = Ret tt c /\ phase c) \/
  (complete files site 10 (Read_done 0 (lit "?") true) reading = UB /\
   exists data posts, Read_done 0 (lit "?") true = Read_done 0 data posts /\ Parse data (parser_ reading) = UB).
Proof.
  apply (connection_life files site 10 (Read_done 0 (lit "?") true) reading); [apply files_enough| |done].
  split; [done|]. by left.
Defined.

Lemma failed_read_stalls_witness :
  complete files site 10 (Read_done 64 (lit "G") true) reading = Ret tt (set_pending [] (written reading) reading) /\
  forall e, ~ possible e (set_pending [] (written reading) reading).
Proof. by apply (failed_read_stalls files site 10 64 (lit "G") true reading). Defined.

Abbreviation serve := (Server.exec files site 10 blank empty ([] : str)).
Definition one : Server.server := Server.MkServer true 1 [reading].
Lemma one_reachable : Server.reachable files site 10 blank empty [] one.
Proof.
  apply (Server.reach_step _ _ _ _ _ _ (Server.Accepted 0 true true) Server.started); [constructor|done|done].
Qed.

Lemma server_goes_on_witness :
  (exists s', serve (Server.Completed 0 (Read_done 0 (lit "?") true)) one = Ret tt s' /\
     Forall (fun c => registered c = negb (closed c)) (Server.connections s')) \/
  (serve (Server.Completed 0 (Read_done 0 (lit "?") true)) one = UB /\
   exists i c data posts, Server.Completed 0 (Read_done 0 (lit "?") true) = Server.Completed i (Read_done 0 data posts) /\
     Server.connections one !! i = Some c /\ Parse data (parser_ c) = UB).
Proof.
  apply (Server.server_goes_on files site 10 blank empty [] _ one); [apply files_enough|apply one_reachable|].
  by exists reading.
Defined.

Lemma stop_closes_all_witness : exists s', serve Server.Stopped one = Ret tt s' /\
  Server.acceptor_open s' = false /\ length (Server.connections s') = 1%nat /\
  Forall (fun c => closed c = true /\ registered c = false) (Server.connections s').
Proof.
  apply (Server.stop_closes_all files site 10 blank empty [] one); [apply files_enough|apply one_reachable].
Defined.

Lemma failed_accept_ends_accepting_witness : exists s', serve (Server.Accepted 64 true true) one = Ret tt s' /\
  Server.accepting s' = 0%nat /\
  forall error' reads' accepts', ~ Server.event_possible (Server.Accepted error' reads' accepts') s'.
Proof.
  eexists. split; [by vm_compute|].
  apply (Server.failed_accept_ends_accepting files site 10 blank empty [] 64 true true one);
    [apply files_enough|apply one_reachable|by vm_compute|by left].
Defined.

End Demo.
