(* ===== verification/MsgDecoder.v ===== *)
(** * The message decoder

    test/read_write_test/read_write_test/multi_msg_decoder.hpp: [multi_buffer_decode_t]
    cuts a stream that arrives in pieces into messages, each after its length in four
    bytes. *)

From S2P Require Import Prelude.

Abbreviation bytes := (list Z).

Section Decoder.

(** [tmp_buffer_] is the message being read, [first] its length and [second] the
    bytes of it that have been copied, [tmp_buffer_len_] of them; [sent] are the
    buffers [buffer_callback_] was given. *)
Record decoder := Decoder {
  first : Z;
  second : bytes;
  header_data_ : bytes;        (* the first [header_len_] bytes of it *)
  header_len_ : nat;
  sent : list bytes
}.
Definition tmp_buffer_len_ (d : decoder) : Z := Z.of_nat (length (second d)).

Definition multi_buffer_decode_t : decoder := Decoder 0 [] [] 0 [].

Definition buffer_callback_ (m : bytes) (d : decoder) : decoder :=
  Decoder (first d) (second d) (header_data_ d) (header_len_ d) (sent d ++ [m]).
Definition set_header (h : bytes) (d : decoder) : decoder :=
  Decoder (first d) (second d) h (length h) (sent d).
Definition set_tmp (n : Z) (m : bytes) (d : decoder) : decoder :=
  Decoder n m (header_data_ d) (header_len_ d) (sent d).

(** The length in the header and what follows it in the buffer. *)
Definition read_header (d : decoder) (buffer : bytes) : Z * bytes :=
  match header_len_ d with
  | O => (le_value (take 4 buffer), drop 4 buffer)
  | h => (le_value (header_data_ d ++ take (4 - h) buffer), drop (4 - h) buffer)
  end.

(** [handle(session, buffer, len)]; the fuel bounds the recursion. *)
Fixpoint handle (fuel : nat) (buffer : bytes) : prog decoder unit := fun d =>
  match fuel with
  | O => OutOfFuel
  | S fuel =>
      let len := Z.of_nat (length buffer) in
      if first d =? 0 then
        if len <? 4 then Ret tt (set_header buffer d)
        else
          let '(data_len, rest) := read_header d buffer in
          let len := Z.of_nat (length rest) in
          let d := set_header [] d in
          if data_len =? len then Ret tt (buffer_callback_ rest d)
          else if len <? data_len then Ret tt (set_tmp data_len rest d)
          else
            let n := Z.to_nat data_len in
            handle fuel (drop n rest) (buffer_callback_ (take n rest) d)
      else
        let over_len := first d - tmp_buffer_len_ d in
        let copy_len := Z.to_nat (Z.min len over_len) in
        let d := set_tmp (first d) (second d ++ take copy_len buffer) d in
        let d := if tmp_buffer_len_ d =? first d then set_tmp 0 [] (buffer_callback_ (second d) d) else d in
        if 0 <? len - Z.of_nat copy_len then handle fuel (drop (Z.to_nat over_len) buffer) d else Ret tt d
  end.

(** ** The reference

    All bytes at once: the messages, and what has been read of the next one. *)
Fixpoint frames (fuel : nat) (s : bytes) : list bytes * bytes :=
  match fuel with
  | O => ([], s)
  | S fuel =>
      let n := le_value (take 4 s) in
      if (length s <? 4)%nat || (Z.of_nat (length s - 4) <? n) then ([], s)
      else
        let r := drop 4 s in
        let '(ms, rest) := frames fuel (drop (Z.to_nat n) r) in (take (Z.to_nat n) r :: ms, rest)
  end.
Definition messages (s : bytes) : list bytes * bytes := frames (S (length s)) s.

(** A message as it is sent. *)
Definition frame (m : bytes) : bytes := le_bytes 4 (Z.of_nat (length m)) ++ m.

(** What the decoder holds of the next message. *)
Definition pending (d : decoder) : bytes :=
  if first d =? 0 then header_data_ d else le_bytes 4 (first d) ++ second d.

Record wf (d : decoder) : Prop := {
  wf_len : header_len_ d = length (header_data_ d);
  wf_short : (header_len_ d < 4)%nat;
  wf_idle : first d = 0 -> second d = [];
  wf_busy : first d <> 0 -> header_data_ d = [] /\ tmp_buffer_len_ d < first d < 2 ^ 32;
  wf_bytes : Forall (fun b => 0 <= b < 256) (header_data_ d)
}.

Abbreviation all_bytes := (Forall (fun b => 0 <= b < 256)).

Lemma frames_more fuel s : (length s < fuel)%nat -> frames fuel s = messages s.
Proof.
  unfold messages. revert fuel s. assert (forall n fuel fuel' s, (length s <= n)%nat -> (length s < fuel)%nat ->
    (length s < fuel')%nat -> frames fuel s = frames fuel' s) as Hn.
  { induction n as [|n IH]; intros [|fuel] [|fuel'] s Hs Hf Hf'; try lia; cbn [frames]; destruct (_ || _) eqn:E; try done.
    { apply orb_false_iff in E as [E _]. apply Nat.ltb_ge in E. lia. }
    apply orb_false_iff in E as [E _]. apply Nat.ltb_ge in E.
    rewrite (IH fuel fuel'); [done|..]; rewrite !length_drop; lia. }
  intros fuel s Hf. apply (Hn (length s)); lia.
Qed.

(** The messages of a stream that starts with a whole one, or with part of one. *)
Lemma messages_step n s : (4 <= length s)%nat -> le_value (take 4 s) = Z.of_nat n -> (n <= length s - 4)%nat ->
  messages s = (take n (drop 4 s) :: (messages (drop n (drop 4 s))).1, (messages (drop n (drop 4 s))).2).
Proof.
  intros H4 Hn Hl. unfold messages at 1. cbn [frames]. rewrite Hn.
  rewrite (proj2 (Nat.ltb_ge _ 4)), (proj2 (Z.ltb_ge _ _)) by lia. cbn [orb]. rewrite Nat2Z.id.
  rewrite frames_more by (rewrite !length_drop; lia). by destruct (messages _).
Qed.

Lemma messages_short s : (length s < 4)%nat -> messages s = ([], s).
Proof. intros H. unfold messages. cbn [frames]. by rewrite (proj2 (Nat.ltb_lt _ 4)). Qed.

Lemma messages_part s : (4 <= length s)%nat -> Z.of_nat (length s - 4) < le_value (take 4 s) -> messages s = ([], s).
Proof.
  intros H4 H. unfold messages. cbn [frames]. by rewrite (proj2 (Z.ltb_lt _ _)), orb_true_r.
Qed.

Lemma header_bytes s : all_bytes s -> (4 <= length s)%nat ->
  le_bytes 4 (le_value (take 4 s)) = take 4 s /\ 0 <= le_value (take 4 s) < 2 ^ 32.
Proof.
  intros Hs H4. assert (length (take 4 s) = 4%nat) as Hl by (rewrite length_take; lia).
  assert (all_bytes (take 4 s)) as Ht by (by apply Forall_take).
  pose proof (le_bytes_value _ Ht). pose proof (le_value_range _ Ht). rewrite Hl in *. done.
Qed.

Lemma read_header_spec d buffer : wf d -> (4 <= length buffer)%nat ->
  read_header d buffer = (le_value (take 4 (header_data_ d ++ buffer)), drop 4 (header_data_ d ++ buffer)).
Proof.
  intros W H4. pose proof (wf_len d W) as Hl. pose proof (wf_short d W). unfold read_header.
  rewrite take_app_ge, drop_app_ge by lia. rewrite <- Hl.
  destruct (header_len_ d) as [|h]; [|done]. destruct (header_data_ d); [|done]. done.
Qed.

(** What one call makes of what was pending and the new bytes. *)
Definition handled (d : decoder) (buffer : bytes) (r : outcome decoder unit) : Prop :=
  exists d', r = Ret tt d' /\ wf d' /\
    sent d' = sent d ++ (messages (pending d ++ buffer)).1 /\
    pending d' = (messages (pending d ++ buffer)).2.

(** A call for the rest, after a message. *)
Lemma handled_next d d1 n buffer rest r : handled d1 rest r -> pending d1 = [] ->
  let s := pending d ++ buffer in
  (4 <= length s)%nat -> le_value (take 4 s) = Z.of_nat n -> (n <= length s - 4)%nat ->
  drop n (drop 4 s) = rest -> sent d1 = sent d ++ [take n (drop 4 s)] -> handled d buffer r.
Proof.
  intros (d' & -> & W & Hs & Hp) H0 s H4 Hn Hl Hr Hsent. exists d'. split; [done|]. split; [done|].
  fold s. rewrite (messages_step n s), Hr by done. rewrite H0 in Hs, Hp. cbn. split; [|done].
  by rewrite Hs, Hsent, <- app_assoc.
Qed.

Lemma handled_done d d' buffer : wf d' -> sent d' = sent d -> pending d' = pending d ++ buffer ->
  messages (pending d ++ buffer) = ([], pending d ++ buffer) -> handled d buffer (Ret tt d').
Proof. intros W Hs Hp Hm. exists d'. rewrite Hm, Hs, Hp. cbn. by rewrite app_nil_r. Qed.

Lemma idle_handled d : wf d -> pending d = [] -> handled d [] (Ret tt d).
Proof. intros W H0. apply handled_done; rewrite ?H0; done. Qed.

Lemma decoder_handle_ok fuel : forall buffer d, wf d -> all_bytes buffer -> (length buffer < fuel)%nat ->
  (first d = 0 -> header_len_ d <> 0%nat -> (4 <= length buffer)%nat) -> handled d buffer (handle fuel buffer d).
Proof.
  induction fuel as [|fuel IH]; intros buffer d W Hb Hf Hc; [lia|]. cbn [handle].
  destruct (Z.eqb_spec (first d) 0) as [H0|H0].
  - pose proof (wf_idle d W H0) as Hsec. assert (pending d = header_data_ d) as Hpend by (unfold pending; by rewrite H0).
    destruct (Z.ltb_spec (Z.of_nat (length buffer)) 4) as [H4|H4].
    + assert (header_data_ d = []) as Hh.
      { pose proof (wf_len d W). destruct (header_data_ d); [done|]. specialize (Hc H0). cbn in *. lia. }
      apply handled_done; rewrite ?Hpend, ?Hh; [|done|unfold pending; cbn; by rewrite H0|apply messages_short; cbn; lia].
      split; cbn; [done|lia|done|by rewrite H0|done].
    + rewrite read_header_spec by (done || lia). set (s := header_data_ d ++ buffer).
      assert (4 <= length s)%nat as Hs4 by (unfold s; rewrite length_app; lia).
      assert (all_bytes s) as Hs by (apply Forall_app; split; [apply W|done]).
      destruct (header_bytes s Hs Hs4) as [Hle Hrange]. set (data_len := le_value (take 4 s)) in *.
      assert (W' : forall ms, wf (Decoder 0 [] [] 0 ms)) by (intros ms; split; cbn; (done || lia)).
      assert (length (drop 4 s) < fuel)%nat as Hlen.
      { unfold s. rewrite length_drop, length_app. pose proof (wf_len d W). pose proof (wf_short d W). lia. }
      assert (Hset : forall ms, set_header [] d = Decoder 0 [] [] 0 (sent d) /\
        buffer_callback_ ms (set_header [] d) = Decoder 0 [] [] 0 (sent d ++ [ms])).
      { intros ms. unfold buffer_callback_, set_header. cbn. by rewrite H0, Hsec. }
      assert (length (drop 4 s) = (length s - 4)%nat) as Hd4 by apply length_drop.
      destruct (Z.eqb_spec data_len (Z.of_nat (length (drop 4 s)))) as [He|Hne].
      { rewrite (proj2 (Hset _)). eapply (handled_next d _ (length (drop 4 s)) buffer []); [by apply idle_handled|done|..];
          rewrite ?Hpend; fold s; [done|done|lia|by rewrite drop_all|cbn; by rewrite take_ge]. }
      destruct (Z.ltb_spec (Z.of_nat (length (drop 4 s))) data_len) as [Hlt|Hge].
      { apply handled_done; rewrite ?Hpend; fold s.
        - split; cbn; [done|lia|lia|intros _; split; [done|]|done]. unfold tmp_buffer_len_. cbn. lia.
        - done.
        - unfold pending. cbn [first second set_tmp]. destruct (Z.eqb_spec data_len 0); [lia|]. by rewrite Hle, take_drop.
        - apply messages_part; [done|]. fold data_len. lia. }
      rewrite (proj2 (Hset _)). eapply (handled_next d (Decoder 0 [] [] 0 _) (Z.to_nat data_len) buffer);
        [apply IH|done|..]; rewrite ?Hpend; fold s; try done; [|rewrite length_drop; lia|fold data_len; lia|lia].
      by apply Forall_drop, Forall_drop.
  - destruct (wf_busy d W H0) as (Hh & Hlen & Hmax). unfold tmp_buffer_len_ in *.
    assert (pending d = le_bytes 4 (first d) ++ second d) as Hpend
      by (unfold pending; by rewrite (proj2 (Z.eqb_neq _ _))).
    assert (take 4 (pending d ++ buffer) = le_bytes 4 (first d) /\ drop 4 (pending d ++ buffer) = second d ++ buffer) as [Ht Hd]
      by (rewrite Hpend, <- app_assoc; by split).
    assert (length (pending d ++ buffer) = 4 + length (second d) + length buffer)%nat as Hpl
      by (rewrite Hpend, !length_app, length_le_bytes; lia).
    assert (le_value (le_bytes 4 (first d)) = first d) as Hv by (apply le_value_bytes_4; lia).
    set (over := first d - Z.of_nat (length (second d))) in *.
    cbn [second set_tmp first]. rewrite length_app, length_take.
    destruct (Z.ltb_spec (Z.of_nat (length buffer)) over) as [Hlt|Hge].
    + rewrite Z.min_l by lia. rewrite Nat2Z.id, take_ge, Nat.min_id, Z.sub_diag by done. cbn [Z.ltb Z.compare].
      rewrite (proj2 (Z.eqb_neq _ _)) by lia. apply handled_done.
      * split; cbn; [apply W|apply W|done|intros _; split; [done|]|apply W].
        unfold tmp_buffer_len_. cbn. rewrite length_app. lia.
      * done.
      * rewrite Hpend. unfold pending. cbn [first second set_tmp]. by rewrite (proj2 (Z.eqb_neq _ _)), <- app_assoc.
      * apply messages_part; [lia|]. rewrite Ht, Hv. lia.
    + rewrite Z.min_r by lia. rewrite Nat.min_l by lia. rewrite (proj2 (Z.eqb_eq _ _)) by lia.
      set (d1 := set_tmp 0 [] _). set (n := Z.to_nat over) in *.
      assert (wf d1) as W1 by (split; cbn; [apply W|apply W|done|done|apply W]).
      assert (pending d1 = []) as Hp1 by (unfold pending; by cbn).
      assert (Hgo : forall r, handled d1 (drop n buffer) r -> handled d buffer r).
      { intros r Hr. eapply (handled_next d d1 (Z.to_nat (first d)) buffer); [exact Hr|done|..];
          rewrite ?Ht, ?Hd, ?Hv; [lia|lia|lia| |].
        - rewrite drop_app_ge by lia. f_equal. lia.
        - cbn. f_equal. f_equal. rewrite take_app_ge by lia. f_equal. f_equal. lia. }
      destruct (Z.ltb_spec 0 (Z.of_nat (length buffer) - Z.of_nat n)) as [Hm|Hm]; apply Hgo.
      * apply IH; [done|by apply Forall_drop|rewrite length_drop; lia|].
        intros _ Hn. exfalso. apply Hn. cbn. rewrite (wf_len d W), Hh. done.
      * rewrite drop_ge by lia. by apply idle_handled.
Qed.

(** ** Pieces *)

Fixpoint handle_all (pieces : list bytes) : prog decoder unit :=
  match pieces with
  | [] => ret tt
  | b :: pieces => handle (S (length b)) b ;;; handle_all pieces
  end.

(** No piece of fewer than four bytes comes while a length is half read; [s] is what
    came before. *)
Fixpoint gentle (s : bytes) (pieces : list bytes) : Prop :=
  match pieces with
  | [] => True
  | b :: pieces => ((0 < length (messages s).2 < 4)%nat -> (4 <= length b)%nat) /\ gentle (s ++ b) pieces
  end.

Lemma messages_app n : forall s b, (length s <= n)%nat -> all_bytes s ->
  messages (s ++ b) = ((messages s).1 ++ (messages ((messages s).2 ++ b)).1, (messages ((messages s).2 ++ b)).2).
Proof.
  assert (Hdone : forall s b, messages s = ([], s) -> messages (s ++ b) =
    ((messages s).1 ++ (messages ((messages s).2 ++ b)).1, (messages ((messages s).2 ++ b)).2))
    by (intros s b ->; cbn [fst snd app]; by destruct (messages (s ++ b))).
  induction n as [|n IH]; intros s b Hn Hs; [apply Hdone, messages_short; lia|].
  destruct (decide (length s < 4)%nat) as [H4|H4]; [by apply Hdone, messages_short|].
  destruct (decide (Z.of_nat (length s - 4) < le_value (take 4 s))) as [Hp|Hp]; [apply Hdone, messages_part; lia|].
  destruct (header_bytes s Hs ltac:(lia)) as [_ Hr]. set (k := Z.to_nat (le_value (take 4 s))).
  assert (take 4 (s ++ b) = take 4 s) as Ht by (rewrite take_app_le; [done|lia]).
  rewrite (messages_step k s), (messages_step k (s ++ b)); rewrite ?length_app, ?Ht; try lia.
  rewrite (drop_app_le s b 4), (drop_app_le _ b k), (take_app_le _ b k) by (rewrite ?length_drop; lia).
  rewrite IH; [done|rewrite !length_drop; lia|by apply Forall_drop, Forall_drop].
Qed.

Lemma handle_all_ok pieces : forall s d, all_bytes s -> Forall all_bytes pieces -> wf d ->
  sent d = (messages s).1 -> pending d = (messages s).2 -> gentle s pieces ->
  exists d', handle_all pieces d = Ret tt d' /\ sent d' = (messages (s ++ concat pieces)).1 /\
    pending d' = (messages (s ++ concat pieces)).2.
Proof.
  induction pieces as [|b pieces IH]; intros s d Hs Hb W Hsent Hp Hg; [exists d; by rewrite app_nil_r|].
  inversion_clear Hb as [|?? Hb1 Hb2]. destruct Hg as [Hg1 Hg2].
  destruct (decoder_handle_ok (S (length b)) b d W Hb1 ltac:(lia)) as (d1 & Hd & W1 & Hs1 & Hp1).
  { intros H0 Hh. apply Hg1. rewrite <- Hp. unfold pending. rewrite H0. cbn.
    pose proof (wf_len d W). pose proof (wf_short d W). lia. }
  cbn [handle_all concat]. rewrite (bind_ret _ _ _ _ _ Hd), app_assoc.
  pose proof (messages_app (length s) s b (le_n _) Hs) as Hm.
  apply IH; [by apply Forall_app|done|done|rewrite Hs1, Hsent, Hp, Hm; done|rewrite Hp1, Hp, Hm; done|done].
Qed.

Lemma messages_frame m s : Z.of_nat (length m) < 2 ^ 32 ->
  messages (frame m ++ s) = (m :: (messages s).1, (messages s).2).
Proof.
  intros Hm. unfold frame. rewrite <- app_assoc.
  assert (take 4 (le_bytes 4 (Z.of_nat (length m)) ++ m ++ s) = le_bytes 4 (Z.of_nat (length m))) as Ht by done.
  assert (drop 4 (le_bytes 4 (Z.of_nat (length m)) ++ m ++ s) = m ++ s) as Hd by done.
  rewrite (messages_step (length m)); rewrite ?Ht, ?Hd, ?length_app, ?length_le_bytes; [|lia|apply le_value_bytes_4; lia|lia].
  by rewrite take_app_length, drop_app_length.
Qed.

Lemma messages_frames ms : Forall (fun m => Z.of_nat (length m) < 2 ^ 32) ms ->
  messages (concat (map frame ms)) = (ms, []).
Proof. induction 1 as [|m ms Hm _ IH]; [done|]. cbn [map concat]. by rewrite messages_frame, IH. Qed.

(** ** The properties *)

(** [C24] The messages come out of the decoder as they were sent, each once and in order,
    however the stream is cut into pieces, when no piece of fewer than four bytes
    comes in the middle of a length. *)
Theorem decoder_delivers ms pieces : Forall (fun m => all_bytes m /\ Z.of_nat (length m) < 2 ^ 32) ms ->
  concat pieces = concat (map frame ms) -> gentle [] pieces ->
  exists d, handle_all pieces multi_buffer_decode_t = Ret tt d /\ sent d = ms /\ pending d = [].
Proof.
  intros Hms Hc Hg.
  assert (Forall all_bytes pieces) as Hb.
  { apply Forall_concat. rewrite Hc. apply Forall_concat, Forall_map. eapply Forall_impl; [exact Hms|].
    intros m [Hm _]. apply Forall_app. split; [apply le_bytes_range|done]. }
  destruct (handle_all_ok pieces [] multi_buffer_decode_t) as (d & Hd & Hs & Hp); try done.
  { split; cbn; (done || lia). }
  exists d. split; [done|]. cbn [app] in *. rewrite Hs, Hp, Hc, messages_frames; [done|].
  eapply Forall_impl; [exact Hms|]. by intros m [_ ?].
Qed.

(** A piece of fewer than four bytes that comes while a length is half read takes
    the place of what was read of it: those bytes are gone. *)
Theorem half_length_lost d b : wf d -> first d = 0 -> header_len_ d <> 0%nat -> (length b < 4)%nat ->
  exists d', handle (S (length b)) b d = Ret tt d' /\ sent d' = sent d /\ pending d <> [] /\ pending d' = b.
Proof.
  intros W H0 Hh Hb. pose proof (wf_len d W) as Hl.
  eexists. split; [cbn [handle]; rewrite H0; cbn [Z.eqb]; by rewrite (proj2 (Z.ltb_lt _ 4)) by lia|].
  unfold pending. cbn. rewrite H0. cbn. split_and!; [done| |done]. by destruct (header_data_ d).
Qed.

End Decoder.

Module Demo.

(** The messages 1 2, nothing, and 3 in pieces of 5, 2, 9 and 0 bytes. *)
Definition msgs : list bytes := [[1; 2]; []; [3]].
Definition pieces : list bytes := [[2; 0; 0; 0; 1]; [2; 0]; [0; 0; 0; 1; 0; 0; 0; 3]; []].

Lemma decoder_delivers_witness : exists d,
  handle_all pieces multi_buffer_decode_t = Ret tt d /\ sent d = msgs /\ pending d = [].
Proof.
  apply (decoder_delivers msgs pieces);
    [by apply (bool_decide_unpack _); vm_compute|by vm_compute|].
  repeat split; vm_compute; lia.
Defined.

(** The length 2 in three pieces: its first bytes are lost and the message with it. *)
Definition half : decoder := Decoder 0 [] [2] 1 [].
Lemma half_length_lost_witness : exists d', handle 2 [0] half = Ret tt d' /\ sent d' = sent half /\
  pending half <> [] /\ pending d' = [0].
Proof.
  apply (half_length_lost half [0]); [|done|done|by apply Nat.ltb_lt].
  split; cbn; [done|lia|done|done|]. by apply (bool_decide_unpack _); vm_compute.
Defined.

End Demo.
