(* ===== verification/Socks.v ===== *)
(** * The relay and the client of the SOCKS example

    Example/Network/Sock4a: Tunnel.hpp, which relays between a client and a server, and
    socks4.hpp, the messages of the protocol. The sources use an older interface of the
    library; of it only what its calls promise is used: an operation is posted or
    throws, a posted operation completes once, a write of transfer_all that completes
    without an error wrote everything. *)

From S2P Require Import Prelude.

Module Tunnel.

(** ** The relay *)

(** A pending operation; a write has the number of bytes it was asked for. *)
Inductive operation : Type :=
| CliRead
| SvrWrite (n : nat)
| SvrRead
| CliWrite (n : nat).

#[export] Instance operation_eq_dec : EqDecision operation.
Proof. solve_decision. Defined.

(** [connecting]: the connection to the server is pending. The traffic is kept as the
    messages that were read, and the bytes that were written. *)
Record tunnel : Type := MkTunnel {
  sock_ : bool;
  connecting : bool;
  pending : list operation;
  buffer_ : list Z;
  from_cli : list (list Z);
  from_svr : list (list Z);
  to_svr : list Z;
  to_cli : list Z
}.

Definition set_sock b t := MkTunnel b (connecting t) (pending t) (buffer_ t) (from_cli t) (from_svr t) (to_svr t) (to_cli t).
Definition set_connecting b t := MkTunnel (sock_ t) b (pending t) (buffer_ t) (from_cli t) (from_svr t) (to_svr t) (to_cli t).
Definition set_pending l t := MkTunnel (sock_ t) (connecting t) l (buffer_ t) (from_cli t) (from_svr t) (to_svr t) (to_cli t).

Definition new_tunnel : tunnel := MkTunnel true false [] (replicate 1024 0) [] [] [] [].

(** Whether the operation is one of the client's socket. *)
Definition of_sock (o : operation) : bool := match o with CliRead | CliWrite _ => true | _ => false end.

(** [accepted]: the call of the system was taken. *)
Definition post (accepted : bool) (o : operation) : prog tunnel unit := fun t =>
  if accepted && (negb (of_sock o) || sock_ t) then Ret tt (set_pending (pending t ++ [o]) t)
  else Throw win32_exception t.

Definition _DisConnect : prog tunnel unit := fun t => Ret tt (set_sock false t).

Definition Start (connect_accepted accepted : bool) : prog tunnel unit :=
  try_catch
    ((fun t => if connect_accepted then Ret tt (set_connecting true t) else Throw win32_exception t) ;;;
     post accepted CliRead)
    (fun _ => ret tt).

Definition Stop : prog tunnel unit := _DisConnect.

Definition _OnSvrConnect (error : bool) : prog tunnel unit :=
  if error then _DisConnect else ret tt.

(** The four handlers have one shape: the next operation, or the end. *)
Definition on_done (next : operation) (accepted error : bool) (bytes : nat) : prog tunnel unit :=
  try_catch
    (if (bytes =? 0)%nat || error then _DisConnect else post accepted next)
    (fun _ => _DisConnect).

Definition _OnCliRead (accepted error : bool) (bytes : nat) := on_done (SvrWrite bytes) accepted error bytes.
Definition _OnSvrRead (accepted error : bool) (bytes : nat) := on_done (CliWrite bytes) accepted error bytes.
Definition _OnSvrWrite (accepted error : bool) (bytes : nat) := on_done SvrRead accepted error bytes.
Definition _OnCliWrite (accepted error : bool) (bytes : nat) := on_done CliRead accepted error bytes.

(** What arrives: [data] for a read; for a write the number of bytes that went out. *)
Inductive event : Type :=
| ConnectDone (error : bool)
| ReadDone (i : nat) (data : list Z) (error accepted : bool)
| WriteDone (i : nat) (bytes : nat) (error accepted : bool)
| Stopped.

Definition fill (data : list Z) (t : tunnel) : list Z := data ++ drop (length data) (buffer_ t).

(** The [i]-th pending operation completes and its handler runs. *)
Definition exec (e : event) : prog tunnel unit := fun t =>
  match e with
  | ConnectDone error => if connecting t then _OnSvrConnect error (set_connecting false t) else Ret tt t
  | ReadDone i data error accepted =>
      match pending t !! i with
      | Some CliRead =>
          _OnCliRead accepted error (length data)
            (MkTunnel (sock_ t) (connecting t) (delete i (pending t)) (fill data t) (from_cli t ++ [data]) (from_svr t) (to_svr t) (to_cli t))
      | Some SvrRead =>
          _OnSvrRead accepted error (length data)
            (MkTunnel (sock_ t) (connecting t) (delete i (pending t)) (fill data t) (from_cli t) (from_svr t ++ [data]) (to_svr t) (to_cli t))
      | _ => Ret tt t
      end
  | WriteDone i bytes error accepted =>
      match pending t !! i with
      | Some (SvrWrite n) =>
          _OnSvrWrite accepted error bytes
            (MkTunnel (sock_ t) (connecting t) (delete i (pending t)) (buffer_ t) (from_cli t) (from_svr t) (to_svr t ++ take bytes (buffer_ t)) (to_cli t))
      | Some (CliWrite n) =>
          _OnCliWrite accepted error bytes
            (MkTunnel (sock_ t) (connecting t) (delete i (pending t)) (buffer_ t) (from_cli t) (from_svr t) (to_svr t) (to_cli t ++ take bytes (buffer_ t)))
      | _ => Ret tt t
      end
  | Stopped => Stop t
  end.

(** What the library promises of a completion: a read fits the buffer, a write does not
    write more than it was asked for, and writes everything unless it fails. *)
Definition promised (e : event) (t : tunnel) : Prop :=
  match e with
  | ReadDone _ data _ _ => (length data <= 1024)%nat
  | WriteDone i bytes error _ =>
      forall n, pending t !! i = Some (SvrWrite n) \/ pending t !! i = Some (CliWrite n) ->
        (bytes <= n)%nat /\ (error = false -> bytes = n)
  | _ => True
  end.

Inductive reachable : tunnel -> Prop :=
| reach_start c a t : Start c a new_tunnel = Ret tt t -> reachable t
| reach_step t e t' : reachable t -> promised e t -> exec e t = Ret tt t' -> reachable t'.

(** ** The invariant of the relay

    By what is pending: what was read and not yet written is what the pending write has
    in the buffer. *)
Record inv (t : tunnel) : Prop := {
  iv_buffer : length (buffer_ t) = 1024%nat;
  iv_state :
    match pending t with
    | [] => to_svr t `prefix_of` concat (from_cli t) /\ to_cli t `prefix_of` concat (from_svr t) /\
            (length (from_svr t) <= length (from_cli t) <= S (length (from_svr t)))%nat
    | [CliRead] => to_svr t = concat (from_cli t) /\ to_cli t = concat (from_svr t) /\
            length (from_cli t) = length (from_svr t)
    | [SvrWrite n] => concat (from_cli t) = to_svr t ++ take n (buffer_ t) /\ to_cli t = concat (from_svr t) /\
            length (from_cli t) = S (length (from_svr t))
    | [SvrRead] => to_svr t = concat (from_cli t) /\ to_cli t = concat (from_svr t) /\
            length (from_cli t) = S (length (from_svr t))
    | [CliWrite n] => to_svr t = concat (from_cli t) /\ concat (from_svr t) = to_cli t ++ take n (buffer_ t) /\
            length (from_cli t) = length (from_svr t)
    | _ => False
    end
}.

Lemma inv_set_sock b t : inv t -> inv (set_sock b t).
Proof. intros [Hb Hs]. by split. Qed.

Lemma inv_set_connecting b t : inv t -> inv (set_connecting b t).
Proof. intros [Hb Hs]. by split. Qed.

(** A handler that ends leaves what is there; one that goes on has the next operation
    pending. *)
Lemma on_done_inv next accepted error bytes t : inv t -> pending t = [] ->
  ((bytes =? 0)%nat || error = false -> inv (set_pending [next] t)) ->
  exists t', on_done next accepted error bytes t = Ret tt t' /\ inv t'.
Proof.
  intros I Hp Hn. unfold on_done, try_catch.
  destruct ((bytes =? 0)%nat || error).
  - eexists. split; [done|]. by apply inv_set_sock.
  - unfold post. destruct (accepted && (negb (of_sock next) || sock_ t)).
    + eexists. split; [done|]. rewrite Hp. by apply Hn.
    + eexists. split; [done|]. by apply inv_set_sock.
Qed.

Lemma length_fill data t : (length data <= 1024)%nat -> length (buffer_ t) = 1024%nat -> length (fill data t) = 1024%nat.
Proof. intros Hd Hb. unfold fill. rewrite length_app, length_drop. lia. Qed.

Lemma take_fill data t : take (length data) (fill data t) = data.
Proof. unfold fill. by rewrite take_app_length. Qed.

Lemma prefix_take {A} (a l k : list A) m n : (m <= n)%nat -> l = a ++ take n k -> a ++ take m k `prefix_of` l.
Proof.
  intros Hmn ->. apply prefix_app. rewrite <- (take_drop m (take n k)), take_take, Nat.min_l by done.
  by apply prefix_app_r.
Qed.

Lemma read_inv i data error accepted t : inv t -> (length data <= 1024)%nat ->
  exists t', exec (ReadDone i data error accepted) t = Ret tt t' /\ inv t'.
Proof.
  intros I Hd. pose proof I as [Hb Hs]. cbn [exec].
  destruct (pending t) as [|o [|]] eqn:Hp; cbn [lookup list_lookup]; [by exists t| |by destruct o].
  destruct i as [|i]; [|by exists t]. destruct o as [|n| |n]; try by exists t.
  all: destruct Hs as (H1 & H2 & H3); apply on_done_inv; [split; cbn; [by apply length_fill|]|done|].
  all: rewrite ?concat_app, ?length_app; cbn; rewrite ?app_nil_r.
  1,3: rewrite H1, H2; split_and!; try lia; (reflexivity || (apply prefix_app_r; reflexivity)).
  all: intros _; split; [by apply length_fill|].
  all: cbn; rewrite take_fill, ?concat_app, ?length_app; cbn; rewrite ?app_nil_r, ?H1, ?H2; split_and!; try done; lia.
Qed.

Lemma write_inv i bytes error accepted t : inv t -> promised (WriteDone i bytes error accepted) t ->
  exists t', exec (WriteDone i bytes error accepted) t = Ret tt t' /\ inv t'.
Proof.
  intros I Hw. pose proof I as [Hb Hs]. cbn [exec]. cbn [promised] in Hw.
  destruct (pending t) as [|o [|]] eqn:Hp; cbn [lookup list_lookup] in *; [by exists t| |by destruct o].
  destruct i as [|i]; [|by exists t]. destruct o as [|n| |n]; try by exists t.
  all: destruct (Hw n) as [Hle Hall]; [auto|]; destruct Hs as (H1 & H2 & H3).
  all: apply on_done_inv; [split; cbn; [done|]|done|].
  1: split_and!; [by apply (prefix_take _ _ _ _ n)|rewrite H2; reflexivity|lia|lia].
  2: split_and!; [rewrite H1; reflexivity|by apply (prefix_take _ _ _ _ n)|lia|lia].
  all: intros [Hz He]%orb_false_iff; rewrite (Hall He); split; cbn; [done|]; split_and!; congruence.
Qed.

Lemma tunnel_exec_inv e t : inv t -> promised e t -> exists t', exec e t = Ret tt t' /\ inv t'.
Proof.
  intros I Hp. destruct e as [error|i data error accepted|i bytes error accepted|].
  - cbn [exec]. destruct (connecting t); [|by exists t]. unfold _OnSvrConnect.
    destruct error; eexists; (split; [done|]); [by apply inv_set_sock, inv_set_connecting|by apply inv_set_connecting].
  - by apply read_inv.
  - by apply write_inv.
  - eexists. split; [done|]. by apply inv_set_sock.
Qed.

Lemma reachable_inv t : reachable t -> inv t.
Proof.
  induction 1 as [[] [] t Hs|t e t' _ IH Hp He].
  1-4: injection Hs as <-; split; [done|]; cbn; split_and!; done || lia.
  destruct (tunnel_exec_inv e t IH Hp) as (t2 & H2 & I2). congruence.
Qed.

(** The relay has one operation on its buffer at a time, so that no read overwrites
    what a write is sending. Each side gets the bytes of the other in order and nothing
    else, and all of them whenever a read is pending. The sides take turns: a message
    of the server is only read after one of the client was passed on. *)
Theorem tunnel_relays t : reachable t ->
  (length (pending t) <= 1)%nat /\
  to_svr t `prefix_of` concat (from_cli t) /\ to_cli t `prefix_of` concat (from_svr t) /\
  (pending t = [CliRead] \/ pending t = [SvrRead] -> to_svr t = concat (from_cli t) /\ to_cli t = concat (from_svr t)) /\
  (length (from_svr t) <= length (from_cli t) <= S (length (from_svr t)))%nat.
Proof.
  intros [_ Hs]%reachable_inv. destruct (pending t) as [|o [|]]; [|destruct o|destruct o; done].
  all: cbn [length]; destruct Hs as (H1 & H2 & H3); split_and!; try lia; try done.
  all: try (intros [|]; done). all: rewrite ?H1, ?H2; try done; by apply prefix_app_r.
Qed.

(** Every event is handled: no exception leaves a handler. *)
Theorem tunnel_handles t e : reachable t -> promised e t -> exists t', exec e t = Ret tt t' /\ reachable t'.
Proof.
  intros Hr Hp. destruct (tunnel_exec_inv e t (reachable_inv t Hr) Hp) as (t' & He & _). exists t'. split; [done|].
  by eapply reach_step.
Qed.
End Tunnel.

Module Server.

(** ** The acceptor of the relay *)

Record server : Type := MkServer { listening : bool; accepts : nat; tunnels : list Tunnel.tunnel }.

(** [accepted]: the socket was made and the accept posted; its own handler catches. *)
Definition _StartAccept (accepted : bool) : prog server unit :=
  try_catch
    (fun s => if accepted && listening s then Ret tt (MkServer (listening s) (S (accepts s)) (tunnels s)) else Throw win32_exception s)
    (fun _ => ret tt).

Definition _StopServer : prog server unit := fun s => Ret tt (MkServer false (accepts s) (tunnels s)).

(** [made]: the tunnel and its socket could be made. *)
Definition _OnAccept (error made connect_accepted read_accepted accepted : bool) : prog server unit := fun s =>
  if error then Ret tt s
  else
    try_catch
      ((fun s => if made then
          match Tunnel.Start connect_accepted read_accepted Tunnel.new_tunnel with
          | Ret _ t => Ret tt (MkServer (listening s) (accepts s) (tunnels s ++ [t]))
          | _ => Throw win32_exception s
          end
        else Throw win32_exception s) ;;;
       _StartAccept accepted)
      (fun _ => ret tt) s.

Inductive event : Type :=
| Accepted (error made connect_accepted read_accepted accepted : bool)
| Stop.

Definition exec (e : event) : prog server unit := fun s =>
  match e with
  | Accepted error made c r accepted =>
      match accepts s with
      | O => Ret tt s
      | S n => _OnAccept error made c r accepted (MkServer (listening s) n (tunnels s))
      end
  | Stop => _StopServer s
  end.

Fixpoint run (l : list event) : prog server unit :=
  match l with [] => ret tt | e :: l' => exec e ;;; run l' end.

(** Whether the acceptor goes on after an event. *)
Definition goes_on (e : event) : bool :=
  match e with Accepted error made _ _ accepted => negb error && made && accepted | Stop => false end.

Lemma idle_run l b ts : exists b', run l (MkServer b 0 ts) = Ret tt (MkServer b' 0 ts).
Proof.
  revert b. induction l as [|e l IH]; intros b; cbn [run]; [by exists b|].
  destruct e; [destruct (IH b) as [b' H]|destruct (IH false) as [b' H]]; exists b'; exact H.
Qed.

Lemma exec_started e s : accepts s = 1%nat -> listening s = true -> goes_on e = true ->
  exists t, exec e s = Ret tt (MkServer true 1 (tunnels s ++ [t])).
Proof.
  intros Ha Hl Hg. destruct e as [error made c r accepted|]; [|done]. cbn in Hg.
  apply andb_true_iff in Hg as [[Hg ->]%andb_true_iff ->]. apply negb_true_iff in Hg as ->.
  cbn. rewrite Ha. unfold _OnAccept, try_catch, bind. destruct c, r; cbn; rewrite Hl; cbn; eauto.
Qed.

Lemma exec_ended e s : accepts s = 1%nat -> goes_on e = false -> (exists x m c r a, e = Accepted x m c r a) ->
  exists ts, exec e s = Ret tt (MkServer (listening s) 0 ts) /\ (length ts <= S (length (tunnels s)))%nat.
Proof.
  intros Ha Hg (error & made & c & r & accepted & ->). cbn in Hg. cbn. rewrite Ha. unfold _OnAccept, try_catch, bind.
  destruct error; [eexists; split; [done|lia]|]. destruct made; [|eexists; split; [done|cbn; lia]]. cbn in Hg. subst.
  destruct c, r; cbn; eexists; (split; [done|]); rewrite length_app; cbn; lia.
Qed.

(** The acceptor makes a relay for each connection as long as every step of accepting
    succeeds; the first that fails, a failed accept or a relay that could not be made,
    is the last: no later event makes a relay. *)
Theorem accepting_ends l e l' : Forall (fun e => goes_on e = true) l -> goes_on e = false ->
  (exists x m c r a, e = Accepted x m c r a) ->
  exists s1 s2, run l (MkServer true 1 []) = Ret tt s1 /\ accepts s1 = 1%nat /\ length (tunnels s1) = length l /\
    run (e :: l') s1 = Ret tt s2 /\ accepts s2 = 0%nat /\ (length (tunnels s2) <= S (length l))%nat.
Proof.
  intros Hl Hg He.
  assert (H : forall ts, exists ts', run l (MkServer true 1 ts) = Ret tt (MkServer true 1 ts') /\ length ts' = (length ts + length l)%nat).
  { induction Hl as [|e' l Hg' _ IH]; intros ts; cbn [run length]; [exists ts; split; [done|lia]|].
    destruct (exec_started e' (MkServer true 1 ts) eq_refl eq_refl Hg') as [t Ht]. rewrite (bind_ret _ _ _ _ _ Ht).
    destruct (IH (ts ++ [t])) as (ts' & Hr & Hlen). exists ts'. split; [exact Hr|]. rewrite length_app in Hlen. cbn in Hlen. lia. }
  destruct (H []) as (ts & Hr & Hlen). cbn in Hlen.
  destruct (exec_ended e (MkServer true 1 ts) eq_refl Hg He) as (ts2 & H2 & Hle). cbn in H2, Hle.
  destruct (idle_run l' true ts2) as [b Hb].
  exists (MkServer true 1 ts), (MkServer b 0 ts2). split_and!; try done; [|cbn; lia].
  cbn [run]. by rewrite (bind_ret _ _ _ _ _ H2).
Qed.
End Server.

Module Socks4.

(** ** The messages *)

Definition version : Z := 4.

Record request : Type := Request { command_ : Z; port_ : Z; address_ : Z; user_id_ : list Z }.

(** The seven buffers; the last one was not given. *)
Definition request_buffers (r : request) : list (list Z) :=
  [[version]; [command_ r]; le_bytes 2 (port_ r); le_bytes 4 (address_ r); user_id_ r; [0]; []].

Record reply : Type := Reply { null_byte_ : Z; status_ : Z; reply_port_ : Z; reply_address_ : Z }.

(** The sizes of the buffers of a reply: its port has one byte. *)
Definition reply_sizes : list nat := [1; 1; 1; 4; 0]%nat.

(** Reading a stream into the buffers of a reply; what is left of the stream. *)
Definition read_reply (stream : list Z) : option (reply * list Z) :=
  match stream with
  | n :: s :: p :: a :: b :: c :: d :: rest => Some (Reply n s p (le_value [a; b; c; d]), rest)
  | _ => None
  end.

Definition request_granted : Z := 90.
Definition success (r : reply) : bool := (null_byte_ r =? 0) && (status_ r =? request_granted).
Definition endpoint (r : reply) : Z * Z := (reply_port_ r, reply_address_ r).

(** The protocol: numbers are in network order, a reply has eight bytes. *)
Definition decode_request (bytes : list Z) : option request :=
  match bytes with
  | 4 :: cmd :: p1 :: p2 :: a :: b :: c :: d :: rest =>
      if bool_decide (last rest = Some 0) && bool_decide (0 ∉ removelast rest)
      then Some (Request cmd (le_value [p2; p1]) (le_value [d; c; b; a]) (removelast rest)) else None
  | _ => None
  end.
Definition encode_reply (status port address : Z) : list Z :=
  [0; status] ++ rev (le_bytes 2 port) ++ rev (le_bytes 4 address).

Definition swapped (n : nat) (z : Z) : Z := le_value (rev (le_bytes n z)).

(** What a server of the protocol reads from the request: the user, and the port and the
    address with their bytes turned around, since they are sent in the order of the
    machine. *)
Theorem request_turned_around cmd port address user : 0 ∉ user ->
  decode_request (concat (request_buffers (Request cmd port address user))) =
  Some (Request cmd (swapped 2 port) (swapped 4 address) user).
Proof.
  intros Hu. unfold request_buffers. cbn [command_ port_ address_ user_id_ concat le_bytes app].
  unfold decode_request, version. rewrite last_snoc, removelast_last, !bool_decide_eq_true_2 by done. done.
Qed.

(** Of a granted reply the client keeps the high byte of the port, an address that
    begins with the low one, and leaves the last byte for whoever reads next. *)
Theorem reply_shifted port address rest : 0 <= port < 65536 -> 0 <= address < 2 ^ 32 ->
  exists r, read_reply (encode_reply request_granted port address ++ rest) = Some (r, address mod 256 :: rest) /\
    success r = true /\ endpoint r = (port / 256, port mod 256 + 256 * swapped 3 (address / 256)).
Proof.
  intros Hp Ha. eexists. split; [reflexivity|]. split; [done|]. unfold endpoint. cbn [reply_port_ reply_address_].
  rewrite (Z.mod_small (port / 256)) by (split; [apply Z.div_pos|apply Z.div_lt_upper_bound]; lia). done.
Qed.
End Socks4.

Module Demo.
Import Tunnel.

(** One message each way, and a second one of the client in flight. *)
Definition talk : list event :=
  [ConnectDone false; ReadDone 0 [1; 2; 3] false true; WriteDone 0 3 false true; ReadDone 0 [9; 8] false true;
   WriteDone 0 2 false true; ReadDone 0 [4] false true].

Definition promisedb (e : event) (t : tunnel) : bool :=
  match e with
  | ReadDone _ data _ _ => (length data <=? 1024)%nat
  | WriteDone i bytes error _ =>
      match pending t !! i with
      | Some (SvrWrite n) | Some (CliWrite n) => (bytes <=? n)%nat && (error || (bytes =? n)%nat)
      | _ => true
      end
  | _ => true
  end.

Lemma promisedb_ok e t : promisedb e t = true -> promised e t.
Proof.
  destruct e as [|i d|i b error|]; cbn; try done; [by intros ?%Nat.leb_le|].
  intros H n [E|E]; rewrite E in H; apply andb_true_iff in H as [?%Nat.leb_le H]; split; try done.
  all: intros ->; by apply Nat.eqb_eq.
Qed.

Fixpoint run (l : list event) (t : tunnel) : option tunnel :=
  match l with
  | [] => Some t
  | e :: l' => if promisedb e t then match exec e t with Ret _ t' => run l' t' | _ => None end else None
  end.

Lemma run_reachable l t t' : reachable t -> run l t = Some t' -> reachable t'.
Proof.
  revert t. induction l as [|e l IH]; intros t Hr; cbn; [by intros [= <-]|].
  destruct (promisedb e t) eqn:Hp; [|done]. destruct (exec e t) as [[] t1| | |] eqn:He; try done.
  apply IH. eapply reach_step; [exact Hr|by apply promisedb_ok|exact He].
Qed.

Definition talking : tunnel := MkTunnel true false [SvrWrite 1] ([4; 8; 3] ++ replicate 1021 0) [[1; 2; 3]; [4]] [[9; 8]] [1; 2; 3] [9; 8].

Lemma talking_reachable : reachable talking.
Proof.
  apply (run_reachable talk (set_pending [CliRead] (set_connecting true new_tunnel))); [|by vm_compute].
  by apply (reach_start true true).
Qed.

Lemma tunnel_relays_witness : to_svr talking `prefix_of` concat (from_cli talking).
Proof. apply (tunnel_relays talking talking_reachable). Defined.

Lemma tunnel_handles_witness : exists t', exec (WriteDone 0 1 false false) talking = Ret tt t' /\ reachable t'.
Proof. apply (tunnel_handles talking); [exact talking_reachable|by apply promisedb_ok]. Defined.

Lemma accepting_ends_witness : exists s1 s2,
  Server.run [Server.Accepted false true true true true] (Server.MkServer true 1 []) = Ret tt s1 /\
  Server.accepts s1 = 1%nat /\ length (Server.tunnels s1) = 1%nat /\
  Server.run [Server.Accepted true true true true true; Server.Accepted false true true true true] s1 = Ret tt s2 /\
  Server.accepts s2 = 0%nat /\ (length (Server.tunnels s2) <= 2)%nat.
Proof.
  apply (Server.accepting_ends [Server.Accepted false true true true true] (Server.Accepted true true true true true)
    [Server.Accepted false true true true true]); [by repeat constructor|done|by do 5 eexists].
Defined.

Lemma request_turned_around_witness :
  Socks4.decode_request (concat (Socks4.request_buffers (Socks4.Request 1 80 16777343 [99; 104]))) =
  Some (Socks4.Request 1 20480 2130706433 [99; 104]).
Proof. apply (Socks4.request_turned_around 1 80 16777343 [99; 104]). by apply (bool_decide_unpack _); vm_compute. Defined.

Lemma reply_shifted_witness : exists r,
  Socks4.read_reply (Socks4.encode_reply 90 8080 2130706433 ++ [72]) = Some (r, [1; 72]) /\
  Socks4.success r = true /\ Socks4.endpoint r = (31, 144 + 256 * Socks4.swapped 3 8323072).
Proof. exact (Socks4.reply_shifted 8080 2130706433 [72] ltac:(lia) ltac:(lia)). Defined.
End Demo.
